(* ===== verification/_CoqProject ===== *)
-Q . S2P
Prelude.v
Text.v
Search.v
Ordered.v
Hex.v
IpText.v
Domain.v
QuotaPolicy.v
Protocol.v
Clock.v
Cycle.v
Lifecycle.v
Repository.v
ReverseMesh.v
Relay.v
State.v
Command.v
Apply.v
Invariant.v
History.v
Effects.v
RaftTypes.v
Guard.v
GuardCalls.v
Usage.v
InboundIp.v
InboundView.v
TcpUsage.v
Migration.v
Store.v
Documents.v
StateMachine.v
LogStore.v
InternalAuth.v
Idempotency.v
InternalWrite.v
QuotaEngine.v
QuotaBudget.v
AntiEntropy.v
HistorySync.v
HistoryTransport.v
Retention.v
ReplicaReceive.v
Outbox.v
