(* ===== verification/Prelude.v ===== *)
(** * xp: the replicated core of the cluster manager

    xp manages a cluster of proxy nodes.  Nodes agree through Raft on a desired state - users,
    endpoints, access, quotas, cluster membership, mesh relays, history repositories - and each
    node keeps local ledgers of traffic, addresses and connections, enforces quotas on them and
    ships its history to repositories.  This development models that core and proves what it
    promises.  Rust functions are Rocq functions with the same names; fallible ones return
    [result]; code that mutates a store passes it along; code that writes files returns the
    writes in order, so that a crash is a prefix of them; code that calls OpenRaft is a tree of
    calls whose answers are left open.  Unsigned integers are [N], signed ones and instants
    (nanoseconds) [Z]; wrapping, saturating and checked operations are written out.  Maps are
    [gmap], with an explicit order of keys where the code iterates.

    ** Files and sources (below [src/])

    Shared: [Prelude] (results, record update, machine integers, lemmas and tactics on lists and
    maps), [Text] (Rust strings, parsers of numbers and addresses), [Search] ([binary_search_by]),
    [Ordered] (ordered keys), [Hex], [IpText] ([std::net]), [Clock] (RFC 3339).

    Replicated state: [Domain] is [domain/mod.rs], [Protocol] is [protocol.rs] (validators,
    authorities, short ids), [Lifecycle] the records of [join_session.rs] and
    [state/membership_operation.rs], [Repository] is [history_repository/identity] and
    [control], [ReverseMesh] and [Relay] are [reverse_mesh.rs].  [State] is the [PersistedState]
    of [state.rs] with its membership index, [Command] is [DesiredStateCommand::apply], one
    definition per command.  [Apply] specifies the commands as a step relation, [Invariant] has
    the invariant of the state, [History] and [Effects] the theorems.

    Raft: [RaftTypes] is [raft/types.rs], [Guard] is [raft_membership_guard.rs] and
    [raft_membership_cleanup.rs] as programs over the calls they make, and [GuardCalls] says
    which calls they may make.  [Migration] is the upgrade code of [state.rs], [Store] its
    [JsonSnapshotStore], [StateMachine] and [LogStore] are [raft/storage/file.rs] with the
    facade of [raft/app.rs]; [Documents] inhabits the interfaces of stored documents.

    Between nodes: [InternalAuth] is [internal_auth.rs], [Idempotency] is
    [internal_idempotency.rs], [InternalWrite] the admission of [http/mod.rs] and the handler of
    forwarded writes of [http/mesh.rs], run concurrently and across restarts.

    Local ledgers: [Usage] is the traffic ledger of [state.rs], [InboundIp] and [InboundView] are
    [inbound_ip_usage.rs], [TcpUsage] is [tcp_connection_usage.rs].  Quotas: [QuotaPolicy] is
    [quota_policy.rs], [Cycle] is [cycle.rs], [QuotaEngine] the tick of [quota.rs] and
    [QuotaBudget] its theorems.

    History: [AntiEntropy] is [history_repository/replica] ([anti_entropy.rs], [rendezvous.rs],
    [retention.rs]), [HistorySync] the segments and the receiver of [history_sync/protocol.rs]
    and its checkpoint, [HistoryTransport] the rest of [history_sync].  [Retention],
    [ReplicaReceive] and [Outbox] are the runtime of a repository and of a source
    ([history_repository/replica/runtime]: [retention.rs]; [receive.rs] with [capacity.rs],
    [storage.rs], [helpers.rs]; [source.rs]).

    ** What the theorems show

    - Commands are all or nothing and follow the step relation ([History.apply_simulation]);
      every log leads to a state with the invariant ([History.replay_invariant]).  Over logs,
      join sessions survive, membership operations only move forward, the endpoints of a node
      under removal stay as recorded and mesh generations are never reused ([History]).
      Replacing access is exact, derived server names stay in step, planned relays are accepted
      ([Effects]).
    - The state machine refines an abstract replica, also on disk and across crashes; the log
      store refines a list of entries; an interrupted start is resumed; a snapshot carries a
      replica over, up to records it is shown to drop; upgrades keep access and traffic
      ([StateMachine], [LogStore], [Store], [Migration]).  Four theorems of [StateMachine] show
      where the code falls short: a refused entry stops the node, and a crash, a race and a torn
      snapshot make entries count twice or not at all.
    - The membership guard changes the Raft membership only for the recorded operation
      ([GuardCalls]).  A signature is good for exactly the request it was made for
      ([InternalAuth]), and a signed write reaches Raft at most once ([InternalWrite], with the
      ledger of [Idempotency]).
    - The ledgers refine unbounded ones: traffic against the bytes that passed ([Usage]),
      addresses against sightings ([InboundIp], [InboundView]), connections against samples
      ([TcpUsage]).  Quota windows tile time ([Cycle]), splits are exact and fair
      ([QuotaPolicy]), and ticks on every day of a cycle stay within the quota ([QuotaBudget];
      [missed_days_overspend] there computes that days without a tick may not).
    - Repair plans are exact and deletions are remembered until acknowledged ([AntiEntropy]);
      equal heads mean equal histories ([HistorySync]); a received segment changes rows, receiver
      and deletions together or not at all ([ReplicaReceive]); queued segments arrive in order,
      each once ([Outbox.delivered_exactly_once]), but one that a deletion overtook is refused
      for good ([Outbox.overtaken_segment_refused]); retention accounts for every row
      ([Retention]).

    ** Interfaces

    Code of other crates is a class with the documented facts that are relied on: time stamps
    ([Rfc3339], [TimeFormat]), calendar and zones ([Calendar], [ZoneLaws]), URLs ([UrlParser]),
    JSON ([StateCodec], [StoreCodec], [JsonCodec], [MetaCodec], [WalCodec], [AggregateCodec],
    [SnapshotSize]), hashes, signatures and ciphers ([InternalCrypto], [SyncCrypto], [RelayMac],
    [RelayCipher], [RendezvousScore], [Hrw], [RevisionDigest]), compression ([Zstd]) and header
    values ([HeaderValues]).  No hash is assumed injective: where a theorem needs that certain
    texts are told apart, it says which.  The examples instantiate the ones they need with
    concrete functions.

    ** Bounds and fuel

    Constants are those of the sources.  Recursion that is not structural runs on fuel that is
    enough: a binary search on the length of the vector ([search_loop_window]), stripping white
    space on the length of the text, dropping old buckets on their number ([prune_hours_spec]),
    printing in hexadecimal on the number of digits, and the one recursive call of
    [normalize_accepted_authority] on one level.  Time-stamp arguments are within the [i64]
    nanoseconds that chrono represents.

    ** Not modelled

    HTTP handlers other than the forwarded write, the network layer of Raft and OpenRaft itself,
    the SQLite tables of history (the repository is modelled in the mode that keeps rows in its
    snapshot), node history and telemetry, the proxy client and the supervisors, subscriptions
    and client templates, probes, DNS and geolocation, upgrade jobs, the operator tool, tokens
    and certificates, and the web interface.  They are I/O, rendering, or calls of libraries.
    A failing write of the store is a crash at that write; the two ledger writes whose failure
    is ignored when a snapshot is installed are taken to succeed. *)

From stdpp Require Export base gmap strings list sorting fin_maps sets numbers pretty.
From Stdlib Require Export Lia.
From Stdlib Require Export Ascii.
From Stdlib Require String.

#[global] Set Default Goal Selector "!".

(** ** Fallible computations

    [Result<T, E>] of the Rust sources; [let?] is the [?] operator. *)
Inductive result (A E : Type) : Type :=
| Ok (a : A)
| Err (e : E).
Arguments Ok {A E} a.
Arguments Err {A E} e.

Declare Scope xp_scope.
Delimit Scope xp_scope with xp.
Open Scope xp_scope.

Definition rbind {A B E} (r : result A E) (k : A → result B E) : result B E :=
  match r with
  | Ok a => k a
  | Err e => Err e
  end.

Definition map_err {A E F} (f : E → F) (r : result A E) : result A F :=
  match r with
  | Ok a => Ok a
  | Err e => Err (f e)
  end.

Definition ok_or {A E} (o : option A) (e : E) : result A E :=
  match o with
  | Some a => Ok a
  | None => Err e
  end.

Definition is_ok {A E} (r : result A E) : bool :=
  match r with
  | Ok _ => true
  | Err _ => false
  end.

Notation "'let?' x ':=' e 'in' k" := (rbind e (λ x, k))
  (at level 10, x pattern, e at level 200, k at level 200) : xp_scope.

#[global] Instance result_eq_dec {A E} `{EqDecision A, EqDecision E} : EqDecision (result A E).
Proof. solve_decision. Defined.

(** [for x in l { f(x)?; }]: the first error wins, in list order. *)
Fixpoint try_each {A E} (f : A → result unit E) (l : list A) : result unit E :=
  match l with
  | [] => Ok tt
  | x :: l => let? _ := f x in try_each f l
  end.

(** A fallible accumulation over a list, [for x in l { acc = f(acc, x)?; }]. *)
Fixpoint try_fold {A B E} (f : B → A → result B E) (acc : B) (l : list A) : result B E :=
  match l with
  | [] => Ok acc
  | x :: l => let? acc' := f acc x in try_fold f acc' l
  end.

(** ** Machine integers

    Unsigned integers are [N] and signed ones [Z]; the operations whose
    behaviour at the width matters say so in their name. *)
Definition u8_max : N := 255.
Definition u16_max : N := 65535.
Definition u32_max : N := 4294967295.
Definition u64_max : N := 18446744073709551615.
Definition i64_max : N := 9223372036854775807.
Definition u128_max : N := 340282366920938463463374607431768211455.

Definition sat_add (width_max a b : N) : N := N.min (a + b) width_max.
Definition sat_sub (a b : N) : N := a - b.
Definition wrapping (width_max a : N) : N := a mod (width_max + 1).
Definition checked_sub (a b : N) : option N := if decide (b ≤ a)%N then Some (a - b)%N else None.
Definition checked_add (width_max a b : N) : option N := if decide (a + b ≤ width_max)%N then Some (a + b)%N else None.
Definition checked_div (a b : N) : option N := if decide (b = 0%N) then None else Some (a / b)%N.

#[global] Arguments N.add : simpl never.
#[global] Arguments N.sub : simpl never.
#[global] Arguments N.mul : simpl never.
#[global] Arguments N.div : simpl never.
#[global] Arguments N.modulo : simpl never.
#[global] Arguments N.min : simpl never.
#[global] Arguments N.max : simpl never.

(** Inclusive ranges [a..=b]. *)
Definition range_incl (a b : N) : list N :=
  map N.of_nat (seq (N.to_nat a) (N.to_nat (b + 1 - a))).

Fixpoint sumN (l : list N) : N :=
  match l with
  | [] => 0%N
  | x :: l => (x + sumN l)%N
  end.

(** ** Records

    [r <| p ::= f |>] replaces the field [p] of [r] by its image.  A record
    declares the list of its projections once ([Eta]); the setter of each
    projection is then found by instance search. *)
Class Eta (R : Type) := eta_record : R → R.
Class Setter {R T : Type} (proj : R → T) := update_field : (T → T) → R → R.
Arguments update_field {R T} proj {_} f r : simpl nomatch.

Ltac solve_setter :=
  match goal with
  | |- @Setter ?R ?T ?proj =>
      let e := constr:(_ : Eta R) in
      let e := eval unfold eta_record in e in
      let e := eval hnf in e in
      let f := fresh "f" in
      let r := fresh "r" in
      intros f r;
      let body := eval cbv beta in (e r) in
      let abs := eval pattern (proj r) in body in
      match abs with
      | ?F _ => exact (F (f (proj r)))
      end
  end.
#[export] Hint Extern 1 (Setter _) => solve_setter : typeclass_instances.

Notation "r <| p ::= f |>" := (update_field p f r)
  (at level 1, p at level 99, left associativity, format "r  <| p  ::=  f |>") : xp_scope.
Notation "r <| p := v |>" := (update_field p (λ _, v) r)
  (at level 1, p at level 99, v at level 99, left associativity, format "r  <| p  :=  v |>") : xp_scope.

(** ** Ordered maps and sets

    A [BTreeMap<String, V>] is a [gmap string V]; what iterates over it goes
    through [bt_items], the entries in increasing byte order of the key. *)
Definition key_le {V} (a b : string * V) : Prop := String.le a.1 b.1.
#[global] Instance key_le_dec {V} : RelDecision (@key_le V).
Proof. intros a b. unfold key_le. apply _. Defined.

Definition bt_items {V} (m : gmap string V) : list (string * V) :=
  merge_sort key_le (map_to_list m).
Definition bt_keys {V} (m : gmap string V) : list string := (bt_items m).*1.
Definition bt_values {V} (m : gmap string V) : list V := (bt_items m).*2.
Definition bs_items (s : gset string) : list string := merge_sort String.le (elements s).

(** [map.contains_key(k)] and [set.contains(x)]. *)
Definition contains_key {V} (m : gmap string V) (k : string) : bool :=
  bool_decide (is_Some (m !! k)).

(** The entry API: [map.entry(k).or_insert(d)] followed by a write. *)
Definition entry_update {V} (d : V) (f : V → V) (k : string) (m : gmap string V) : gmap string V :=
  <[k := f (default d (m !! k))]> m.

(** [vec.iter().position(p)]. *)
Fixpoint position {A} (p : A → bool) (l : list A) : option nat :=
  match l with
  | [] => None
  | x :: l => if p x then Some 0%nat else S <$> position p l
  end.

(** * Shared lemmas *)

Create HintDb xp.

Lemma rbind_ok_inv {A B E} (r : result A E) (k : A → result B E) b :
  rbind r k = Ok b → ∃ a, r = Ok a ∧ k a = Ok b.
Proof. destruct r; simpl; [by eauto|done]. Qed.

Section Results.
Context {A B E : Type}.

Lemma ok_or_ok_inv (o : option A) (e : E) a : ok_or o e = Ok a → o = Some a.
Proof. destruct o; simpl; congruence. Qed.

Lemma try_each_ok (f : A → result unit E) l :
  try_each f l = Ok tt ↔ Forall (λ x, f x = Ok tt) l.
Proof.
  induction l as [|x l IH]; simpl; [split; [constructor|done]|].
  rewrite Forall_cons, <-IH. destruct (f x) as [[]|]; simpl; [tauto|]. by split; [|intros []].
Qed.

Lemma try_fold_inv (P : B → Prop) (f : B → A → result B E) l acc r :
  P acc →
  (∀ b x b', x ∈ l → P b → f b x = Ok b' → P b') →
  try_fold f acc l = Ok r → P r.
Proof.
  revert acc; induction l as [|x l IH]; intros acc Hacc Hf; simpl; [by intros [= <-]|].
  intros (b & Hb & Hr)%rbind_ok_inv.
  eapply (IH b); [|intros; eapply Hf; eauto; by right|done].
  eapply Hf; eauto. by left.
Qed.

Lemma try_fold_app (f : B → A → result B E) l k acc :
  try_fold f acc (l ++ k) = let? acc' := try_fold f acc l in try_fold f acc' k.
Proof. revert acc; induction l as [|x l IH]; intros acc; simpl; [done|]. by destruct (f acc x); simpl. Qed.

Lemma try_fold_err (f : B → A → result B E) l acc e :
  try_fold f acc l = Err e → ∃ b x, x ∈ l ∧ f b x = Err e.
Proof.
  revert acc; induction l as [|x l IH]; intros acc; simpl; [done|].
  destruct (f acc x) as [b|e'] eqn:Hf; simpl.
  - intros (b' & y & ? & ?)%IH. exists b', y. by split; [right|].
  - intros [= ->]. exists acc, x. by split; [left|].
Qed.
End Results.

(** Splits a hypothesis that a chain of [let?] succeeded into its steps. *)
Ltac destruct_ok :=
  repeat match goal with
  | H : rbind _ _ = Ok _ |- _ => apply rbind_ok_inv in H as (? & ? & H)
  | H : ok_or _ _ = Ok _ |- _ => apply ok_or_ok_inv in H
  | H : Ok _ = Ok _ |- _ => injection H as H; subst
  | H : Err _ = Ok _ |- _ => discriminate H
  | H : (if ?c then Err _ else _) = Ok _ |- _ => destruct c eqn:?; [discriminate H|]
  | H : (if ?c then _ else Err _) = Ok _ |- _ => destruct c eqn:?; [|discriminate H]
  end.

(** Unfolds saturating and wrapping arithmetic down to linear arithmetic. *)
Ltac int_lia :=
  unfold sat_add, sat_sub, u8_max, u16_max, u32_max, u64_max, u128_max in *; lia.

Lemma wrapping_small m a : (a ≤ m)%N → wrapping m a = a.
Proof. intros. unfold wrapping. apply N.mod_small. lia. Qed.

Lemma sumN_app l k : sumN (l ++ k) = (sumN l + sumN k)%N.
Proof. induction l as [|x l IH]; simpl; [done|]. rewrite IH. lia. Qed.

Lemma sumN_elem_le l x : x ∈ l → (x ≤ sumN l)%N.
Proof. induction 1 as [|y l ? IH]; simpl; lia. Qed.

Lemma NoDup_prefix_take {A} (l : list A) n : NoDup l → NoDup (take n l).
Proof. rewrite <-(take_drop n l) at 1. by intros [? _]%NoDup_app. Qed.

Lemma elem_of_range_incl a b x : x ∈ range_incl a b ↔ (a ≤ x ≤ b)%N.
Proof.
  unfold range_incl. rewrite list_elem_of_In, in_map_iff. split.
  - intros (n & <- & Hn%in_seq). lia.
  - intros Hx. exists (N.to_nat x). split; [lia|]. apply in_seq. lia.
Qed.

Lemma range_incl_empty a b : (b < a)%N → range_incl a b = [].
Proof. intros. unfold range_incl. by replace (N.to_nat (b + 1 - a)) with 0%nat by lia. Qed.

Lemma range_incl_cons a b : (a ≤ b)%N → range_incl a b = a :: range_incl (a + 1) b.
Proof.
  intros. unfold range_incl.
  replace (N.to_nat (b + 1 - a)) with (S (N.to_nat (b + 1 - (a + 1)))) by lia. simpl.
  f_equal; [lia|]. by replace (N.to_nat (a + 1)) with (S (N.to_nat a)) by lia.
Qed.

Lemma range_incl_snoc a b : (a ≤ b + 1)%N → range_incl a (b + 1) = range_incl a b ++ [(b + 1)%N].
Proof.
  intros. unfold range_incl.
  replace (N.to_nat (b + 1 + 1 - a)) with (N.to_nat (b + 1 - a) + 1)%nat by lia.
  rewrite seq_app, map_app. simpl. do 2 f_equal. lia.
Qed.

(** Folds that keep an invariant, and folds that raise a measure by at most a sum. *)
Lemma foldl_inv {A B} (P : A → Prop) (f : A → B → A) l a :
  P a → (∀ a x, x ∈ l → P a → P (f a x)) → P (foldl f a l).
Proof.
  revert a; induction l as [|x l IH]; intros a Ha Hf; cbn [foldl]; [done|].
  apply IH; [apply Hf; [by left|done]|]. intros b y Hy. apply Hf. by right.
Qed.

Lemma foldl_measure {A B} (P : A → Prop) (measure : A → N) (g : B → N) (f : A → B → A) l a :
  P a → (∀ a x, x ∈ l → P a → P (f a x) ∧ (measure (f a x) ≤ measure a + g x)%N) →
  P (foldl f a l) ∧ (measure (foldl f a l) ≤ measure a + sumN (g <$> l))%N.
Proof.
  revert a; induction l as [|x l IH]; intros a Ha Hf; csimpl; [split; [done|lia]|].
  destruct (Hf a x ltac:(by left) Ha) as [H1 H2].
  destruct (IH (f a x) H1) as [H3 H4]; [intros b y Hy; apply Hf; by right|]. split; [done|lia].
Qed.

Lemma elem_of_bs_items x (s : gset string) : x ∈ bs_items s ↔ x ∈ s.
Proof. unfold bs_items. by rewrite merge_sort_Permutation, elem_of_elements. Qed.

Section Ordered.
Context {V : Type}.
Implicit Types m : gmap string V.

Lemma bt_items_perm m : bt_items m ≡ₚ map_to_list m.
Proof. apply merge_sort_Permutation. Qed.

Lemma elem_of_bt_items m k v : (k, v) ∈ bt_items m ↔ m !! k = Some v.
Proof. by rewrite bt_items_perm, elem_of_map_to_list. Qed.

Lemma elem_of_bt_keys m k : k ∈ bt_keys m ↔ is_Some (m !! k).
Proof.
  unfold bt_keys. rewrite list_elem_of_fmap. split.
  - intros ([k' v] & -> & Hk%elem_of_bt_items). by eexists.
  - intros [v Hv]. exists (k, v). by rewrite elem_of_bt_items.
Qed.

Lemma elem_of_bt_values m v : v ∈ bt_values m ↔ ∃ k, m !! k = Some v.
Proof.
  unfold bt_values. rewrite list_elem_of_fmap. split.
  - intros ([k v'] & -> & Hk%elem_of_bt_items). by eexists.
  - intros [k Hk]. exists (k, v). by rewrite elem_of_bt_items.
Qed.

Lemma NoDup_bt_keys m : NoDup (bt_keys m).
Proof. unfold bt_keys. rewrite bt_items_perm. apply NoDup_fst_map_to_list. Qed.

#[global] Instance key_le_total : Total (@key_le V).
Proof. intros a b. apply (total String.le). Qed.
#[global] Instance key_le_trans : Transitive (@key_le V).
Proof. intros a b c. unfold key_le. apply transitivity. Qed.

Lemma bt_keys_sorted m : StronglySorted String.le (bt_keys m).
Proof.
  apply (StronglySorted_fmap _ key_le); [by intros ??|].
  apply StronglySorted_merge_sort; apply _.
Qed.

Lemma length_bt_keys m : length (bt_keys m) = size m.
Proof. unfold bt_keys. by rewrite length_fmap, bt_items_perm, length_map_to_list. Qed.

Lemma contains_key_true m k : contains_key m k = true ↔ is_Some (m !! k).
Proof. apply bool_decide_eq_true. Qed.

Lemma contains_key_false m k : contains_key m k = false ↔ m !! k = None.
Proof. unfold contains_key. rewrite bool_decide_eq_false, eq_None_not_Some. done. Qed.

Lemma position_Some {A} (p : A → bool) l i :
  position p l = Some i ↔
  ∃ x, l !! i = Some x ∧ p x = true ∧ ∀ j y, (j < i)%nat → l !! j = Some y → p y = false.
Proof.
  revert i; induction l as [|y l IH]; intros i; simpl.
  { split; [done|]. intros (x & Hx & _). by rewrite lookup_nil in Hx. }
  destruct (p y) eqn:Hy.
  - split; [intros [= <-]; exists y; repeat split; [done|lia]|].
    intros (x & Hx & Hpx & Hmin). destruct i as [|i]; [done|].
    specialize (Hmin 0%nat y ltac:(lia) eq_refl). congruence.
  - rewrite fmap_Some. setoid_rewrite IH. split.
    + intros (j & (x & Hx & Hp & Hmin) & ->). exists x. split_and!; [done..|].
      intros [|j'] z Hlt Hz; [by simplify_eq/=|]. eapply (Hmin j'); [lia|done].
    + intros (x & Hx & Hp & Hmin). destruct i as [|i]; [by simplify_eq/=; congruence|].
      exists i. split; [|done]. exists x. split_and!; [done..|].
      intros j z Hlt Hz. apply (Hmin (S j) z); [lia|done].
Qed.
End Ordered.

#[export] Hint Resolve NoDup_bt_keys bt_keys_sorted : xp.
