(* ===== verification/Text.v ===== *)
(** * Rust strings

    A [String] is its UTF-8 byte sequence, a Rocq [string].  This file has the
    operations of [str] the sources use: [trim] and [char::is_whitespace] over
    the Unicode [White_Space] characters (by their UTF-8 encodings, which is
    exact because UTF-8 is self-synchronising), ASCII case folding, searching
    and splitting on ASCII separators, and the parsers of [u16], [Ipv4Addr],
    [Ipv6Addr] and [SocketAddr] of the standard library. *)

From S2P Require Import Prelude.
Open Scope string_scope.
Open Scope list_scope.

Notation chars := String.list_ascii_of_string.
Notation of_chars := String.string_of_list_ascii.

Definition code (c : ascii) : N := Ascii.N_of_ascii c.
Definition in_range (lo hi : N) (c : ascii) : bool := ((lo <=? code c) && (code c <=? hi))%N.
Definition is_ascii_digit (c : ascii) : bool := in_range 48 57 c.
Definition is_ascii_upper (c : ascii) : bool := in_range 65 90 c.
Definition is_ascii_lower (c : ascii) : bool := in_range 97 122 c.
Definition is_ascii_alphanumeric (c : ascii) : bool :=
  is_ascii_digit c || is_ascii_upper c || is_ascii_lower c.
Definition is_ascii_hexdigit (c : ascii) : bool :=
  is_ascii_digit c || in_range 65 70 c || in_range 97 102 c.

Definition lower_char (c : ascii) : ascii :=
  if is_ascii_upper c then Ascii.ascii_of_N (code c + 32) else c.
Definition to_ascii_lowercase (s : string) : string := of_chars (map lower_char (chars s)).

(** The UTF-8 encodings of the characters with the [White_Space] property. *)
Definition bytes (l : list N) : list ascii := map Ascii.ascii_of_N l.
Definition ws_seqs : list (list ascii) := map bytes (
  [[9]; [10]; [11]; [12]; [13]; [32]; [194; 133]; [194; 160]; [225; 154; 128]] ++
  map (λ x, [226; 128; x]) [128; 129; 130; 131; 132; 133; 134; 135; 136; 137; 138; 168; 169; 175] ++
  [[226; 129; 159]; [227; 128; 128]])%N.

(** [strip_seq w l] removes the prefix [w]. *)
Fixpoint strip_seq (w l : list ascii) : option (list ascii) :=
  match w, l with
  | [], _ => Some l
  | a :: w, b :: l => if decide (a = b) then strip_seq w l else None
  | _ :: _, [] => None
  end.

Fixpoint strip_any (ws : list (list ascii)) (l : list ascii) : option (list ascii) :=
  match ws with
  | [] => None
  | w :: ws => match strip_seq w l with Some r => Some r | None => strip_any ws l end
  end.

Fixpoint strip_all (ws : list (list ascii)) (fuel : nat) (l : list ascii) : list ascii :=
  match fuel with
  | O => l
  | S fuel => match strip_any ws l with Some r => strip_all ws fuel r | None => l end
  end.

Definition trim_chars (l : list ascii) : list ascii :=
  let front := strip_all ws_seqs (length l) l in
  reverse (strip_all (map reverse ws_seqs) (length front) (reverse front)).
Definition trim (s : string) : string := of_chars (trim_chars (chars s)).

(** [s.chars().any(|c| c.is_whitespace())]. *)
Fixpoint has_ws (l : list ascii) : bool :=
  match l with
  | [] => false
  | _ :: l' => bool_decide (is_Some (strip_any ws_seqs l)) || has_ws l'
  end.
Definition any_whitespace (s : string) : bool := has_ws (chars s).

(** [s.chars().any(char::is_control)]: U+0000 to U+001F and U+007F in one byte, U+0080 to
    U+009F as [C2 80] to [C2 9F]. *)
Fixpoint has_control (l : list ascii) : bool :=
  match l with
  | [] => false
  | c :: l' =>
      in_range 0 31 c || bool_decide (code c = 127%N)
      || (bool_decide (code c = 194%N) && match l' with d :: _ => in_range 128 159 d | [] => false end)
      || has_control l'
  end.
Definition any_control (s : string) : bool := has_control (chars s).

Definition str_is_empty (s : string) : bool := bool_decide (s = "").
Definition contains_char (c : ascii) (s : string) : bool := existsb (λ x, bool_decide (x = c)) (chars s).

Fixpoint contains_str (needle s : string) : bool :=
  String.prefix needle s || match s with EmptyString => false | String _ s' => contains_str needle s' end.

Definition strip_prefix (p s : string) : option string := of_chars <$> strip_seq (chars p) (chars s).
Definition strip_suffix (p s : string) : option string :=
  (λ l, of_chars (reverse l)) <$> strip_seq (reverse (chars p)) (reverse (chars s)).
Definition starts_with (c : ascii) (s : string) : bool := bool_decide (head (chars s) = Some c).
Definition ends_with (c : ascii) (s : string) : bool := bool_decide (last (chars s) = Some c).

(** [s.split(c)]: always at least one part. *)
Fixpoint split_chars (c : ascii) (l : list ascii) : list (list ascii) :=
  match l with
  | [] => [[]]
  | x :: l => if decide (x = c) then [] :: split_chars c l
              else match split_chars c l with p :: ps => (x :: p) :: ps | [] => [[x]] end
  end.
Definition split (c : ascii) (s : string) : list string := map of_chars (split_chars c (chars s)).

(** [s.split_once(c)] and [s.rsplit_once(c)]. *)
Fixpoint split_once_chars (c : ascii) (l : list ascii) : option (list ascii * list ascii) :=
  match l with
  | [] => None
  | x :: l => if decide (x = c) then Some ([], l)
              else match split_once_chars c l with Some (a, b) => Some (x :: a, b) | None => None end
  end.
Definition split_once (c : ascii) (s : string) : option (string * string) :=
  match split_once_chars c (chars s) with Some (a, b) => Some (of_chars a, of_chars b) | None => None end.
Definition rsplit_once (c : ascii) (s : string) : option (string * string) :=
  match split_once_chars c (reverse (chars s)) with
  | Some (a, b) => Some (of_chars (reverse b), of_chars (reverse a))
  | None => None
  end.

(** ** Numbers and addresses *)

Definition digit_value (radix : N) (c : ascii) : option N :=
  let v := if is_ascii_digit c then Some (code c - 48)%N
           else if is_ascii_lower c then Some (code c - 87)%N
           else if is_ascii_upper c then Some (code c - 55)%N else None in
  match v with Some d => if (d <? radix)%N then Some d else None | None => None end.

(** [str::parse] for unsigned integers: an optional [+], at least one digit, no overflow. *)
Fixpoint parse_digits (max acc : N) (l : list ascii) : option N :=
  match l with
  | [] => Some acc
  | c :: l => match digit_value 10 c with
              | Some d => let acc' := (acc * 10 + d)%N in
                          if (acc' <=? max)%N then parse_digits max acc' l else None
              | None => None
              end
  end.
Definition parse_uint (max : N) (s : string) : option N :=
  match chars s with
  | [] => None
  | "+"%char :: [] => None
  | "+"%char :: l => parse_digits max 0 l
  | l => parse_digits max 0 l
  end.
Definition parse_u16 : string → option N := parse_uint u16_max.
Definition parse_u64 : string → option N := parse_uint u64_max.

(** [str::parse::<i64>]: the magnitude is bounded by the sign's extreme. *)
Definition parse_i64 (s : string) : option Z :=
  match chars s with
  | "-"%char :: [] => None
  | "-"%char :: l => (λ n, - Z.of_N n)%Z <$> parse_digits 9223372036854775808 0 l
  | _ => Z.of_N <$> parse_uint 9223372036854775807 s
  end.

(** The recursive-descent parser of [core::net::parser]: a reader consumes a
    prefix and returns its value with the rest, or fails consuming nothing. *)
Fixpoint read_digits (radix max : N) (budget : nat) (acc : N) (count : nat) (l : list ascii) : option (N * nat * list ascii) :=
  match l with
  | c :: l' => match digit_value radix c with
               | Some d => let acc' := (acc * radix + d)%N in
                           match budget with
                           | O => None
                           | S budget => if (acc' <=? max)%N then read_digits radix max budget acc' (S count) l' else None
                           end
               | None => Some (acc, count, l)
               end
  | [] => Some (acc, count, [])
  end.

Definition read_number (radix max : N) (max_digits : option nat) (allow_zero_prefix : bool) (l : list ascii) : option (N * list ascii) :=
  let has_leading_zero := bool_decide (head l = Some "0"%char) in
  match read_digits radix max (default (length l) max_digits) 0 0 l with
  | Some (v, count, rest) =>
      if (count =? 0)%nat then None
      else if negb allow_zero_prefix && has_leading_zero && (1 <? count)%nat then None
      else Some (v, rest)
  | None => None
  end.

Definition read_char (c : ascii) (l : list ascii) : option (list ascii) :=
  match l with x :: l => if decide (x = c) then Some l else None | [] => None end.

(** [read_separator(sep, index, inner)]: the separator precedes every item but the first. *)
Definition read_separator {A} (sep : ascii) (index : nat) (inner : list ascii → option (A * list ascii)) (l : list ascii) : option (A * list ascii) :=
  match index with
  | O => inner l
  | S _ => match read_char sep l with Some l' => inner l' | None => None end
  end.

Fixpoint read_octets (n index : nat) (l : list ascii) : option (list N * list ascii) :=
  match n with
  | O => Some ([], l)
  | S n => match read_separator "."%char index (read_number 10 u8_max (Some 3%nat) false) l with
           | Some (o, l') => match read_octets n (S index) l' with
                             | Some (os, rest) => Some (o :: os, rest)
                             | None => None
                             end
           | None => None
           end
  end.
Definition read_ipv4 (l : list ascii) : option (list N * list ascii) := read_octets 4 0 l.

(** [read_groups]: at most [limit] groups starting at index [i]; returns the
    number read, whether an embedded IPv4 address ended the run, and the rest. *)
Fixpoint read_groups (limit i : nat) (l : list ascii) : nat * bool * list ascii :=
  match limit with
  | O => (i, false, l)
  | S limit' =>
      let v4 := if (1 <=? limit')%nat then read_separator ":"%char i read_ipv4 l else None in
      match v4 with
      | Some (_, rest) => ((i + 2)%nat, true, rest)
      | None => match read_separator ":"%char i (read_number 16 u16_max (Some 4%nat) true) l with
                | Some (_, rest) => read_groups limit' (S i) rest
                | None => (i, false, l)
                end
      end
  end.

Definition read_ipv6 (l : list ascii) : option (list ascii) :=
  let '(head_size, head_ipv4, rest) := read_groups 8 0 l in
  if (head_size =? 8)%nat then Some rest
  else if head_ipv4 then None
  else match read_char ":"%char rest with
       | Some rest => match read_char ":"%char rest with
                      | Some rest => let '(_, _, rest) := read_groups (7 - head_size)%nat 0 rest in Some rest
                      | None => None
                      end
       | None => None
       end.

Definition parse_ipv4_ok (s : string) : bool :=
  (String.length s <=? 15)%nat &&
  match read_ipv4 (chars s) with Some (_, []) => true | _ => false end.
Definition parse_ipv6_ok (s : string) : bool :=
  match read_ipv6 (chars s) with Some [] => true | _ => false end.

Definition read_port (l : list ascii) : option (N * list ascii) :=
  match read_char ":"%char l with Some l => read_number 10 u16_max None true l | None => None end.
Definition read_scope_id (l : list ascii) : list ascii :=
  match read_char "%"%char l with
  | Some l' => match read_number 10 u32_max None true l' with Some (_, rest) => rest | None => l end
  | None => l
  end.

(** [str::parse::<SocketAddr>], keeping only the port. *)
Definition parse_socket_addr_port (s : string) : option N :=
  let v4 := match read_ipv4 (chars s) with
            | Some (_, rest) => read_port rest
            | None => None
            end in
  let v6 := match read_char "["%char (chars s) with
            | Some l => match read_ipv6 l with
                        | Some rest => match read_char "]"%char (read_scope_id rest) with
                                       | Some rest => read_port rest
                                       | None => None
                                       end
                        | None => None
                        end
            | None => None
            end in
  match v4 with
  | Some (p, rest) => match rest with [] => Some p | _ => None end
  | None => match v6 with Some (p, []) => Some p | _ => None end
  end.

(** * Lemmas on trimming and case folding *)

Lemma chars_of_chars l : chars (of_chars l) = l.
Proof. apply String.list_ascii_of_string_of_list_ascii. Qed.
Lemma of_chars_chars s : of_chars (chars s) = s.
Proof. apply String.string_of_list_ascii_of_string. Qed.

#[global] Instance chars_inj : Inj (=) (=) String.list_ascii_of_string.
Proof. intros s t H. by rewrite <-(of_chars_chars s), <-(of_chars_chars t), H. Qed.

Lemma strip_seq_Some w l r : strip_seq w l = Some r ↔ l = w ++ r.
Proof.
  revert l; induction w as [|a w IH]; intros l; simpl; [split; congruence|].
  destruct l as [|b l]; [done|]. case_decide as Hab; [rewrite IH; subst|]; split; congruence.
Qed.

Lemma strip_any_Some ws l r : strip_any ws l = Some r → ∃ w, w ∈ ws ∧ l = w ++ r.
Proof.
  induction ws as [|w ws IH]; simpl; [done|]. destruct (strip_seq w l) as [r'|] eqn:Hw.
  - intros [= ->]. exists w. rewrite <-strip_seq_Some. split; [by left|done].
  - intros (w' & ? & ?)%IH. exists w'. split; [by right|done].
Qed.

Lemma strip_any_None ws l : strip_any ws l = None ↔ ∀ w r, w ∈ ws → l ≠ w ++ r.
Proof.
  induction ws as [|w ws IH]; simpl.
  { split; [|done]. intros _ w r Hw. by apply not_elem_of_nil in Hw. }
  destruct (strip_seq w l) as [r'|] eqn:Hw.
  - split; [done|]. intros H. apply strip_seq_Some in Hw. by destruct (H w r'); [left|].
  - rewrite IH. split.
    + intros H w' r [->|Hin]%elem_of_cons; [|by apply H].
      intros Heq%strip_seq_Some. congruence.
    + intros H w' r Hin. apply H. by right.
Qed.

Section Strip.
Context (ws : list (list ascii)) (Hws : Forall (λ w, w ≠ []) ws).

Lemma strip_any_shorter l r : strip_any ws l = Some r → (length r < length l)%nat.
Proof using Hws.
  intros (w & Hw & ->)%strip_any_Some. rewrite length_app.
  rewrite Forall_forall in Hws. specialize (Hws w Hw). destruct w; simpl; [done|lia].
Qed.

Lemma strip_all_stripped n l : (length l ≤ n)%nat → strip_any ws (strip_all ws n l) = None.
Proof using Hws.
  revert l; induction n as [|n IH]; intros l Hl; simpl.
  - destruct (strip_any ws l) eqn:E; [|done]. apply strip_any_shorter in E. lia.
  - destruct (strip_any ws l) as [r|] eqn:E; [|done].
    apply IH. apply strip_any_shorter in E. lia.
Qed.

Lemma strip_all_id n l : strip_any ws l = None → strip_all ws n l = l.
Proof using Type. intros H. destruct n; simpl; [done|]. by rewrite H. Qed.

Lemma strip_all_suffix n l : ∃ k, l = k ++ strip_all ws n l.
Proof using Type.
  revert l; induction n as [|n IH]; intros l; simpl; [by exists []|].
  destruct (strip_any ws l) as [r|] eqn:E; [|by exists []].
  destruct (IH r) as [k Hk]. apply strip_any_Some in E as (w & _ & ->).
  exists (w ++ k). rewrite <-(assoc_L (++)). by rewrite <-Hk.
Qed.
End Strip.

(** A prefix of a stripped sequence is stripped. *)
Lemma strip_any_prefix ws l k : strip_any ws (l ++ k) = None → strip_any ws l = None.
Proof.
  rewrite !strip_any_None. intros H w r Hw ->. apply (H w (r ++ k) Hw). by rewrite (assoc_L (++)).
Qed.

Lemma ws_seqs_nonempty : Forall (λ w, w ≠ []) ws_seqs.
Proof. vm_compute. repeat constructor; discriminate. Qed.
Lemma ws_seqs_rev_nonempty : Forall (λ w, w ≠ []) (map reverse ws_seqs).
Proof. vm_compute. repeat constructor; discriminate. Qed.

(** [trim] leaves neither leading nor trailing white space. *)
Lemma trim_chars_stripped l :
  strip_any ws_seqs (trim_chars l) = None ∧
  strip_any (map reverse ws_seqs) (reverse (trim_chars l)) = None.
Proof.
  unfold trim_chars. set (front := strip_all ws_seqs (length l) l).
  set (back := strip_all (map reverse ws_seqs) (length front) (reverse front)).
  rewrite reverse_involutive. split.
  - destruct (strip_all_suffix (map reverse ws_seqs) (length front) (reverse front)) as [k Hk].
    fold back in Hk. apply (f_equal reverse) in Hk.
    rewrite reverse_involutive, reverse_app in Hk.
    apply (strip_any_prefix _ _ (reverse k)). rewrite <-Hk.
    apply strip_all_stripped; [apply ws_seqs_nonempty|lia].
  - apply strip_all_stripped; [apply ws_seqs_rev_nonempty|]. by rewrite length_reverse.
Qed.

Lemma trim_chars_id l :
  strip_any ws_seqs l = None → strip_any (map reverse ws_seqs) (reverse l) = None →
  trim_chars l = l.
Proof.
  intros H1 H2. unfold trim_chars. rewrite (strip_all_id _ _ _ H1), (strip_all_id _ _ _ H2).
  apply reverse_involutive.
Qed.

Lemma trim_idemp s : trim (trim s) = trim s.
Proof.
  unfold trim. rewrite chars_of_chars. f_equal.
  destruct (trim_chars_stripped (chars s)). by apply trim_chars_id.
Qed.

Lemma has_ws_false l : has_ws l = false ↔ ∀ k w r, w ∈ ws_seqs → l ≠ k ++ w ++ r.
Proof.
  assert (∀ w, w ∈ ws_seqs → w ≠ []) as Hne by apply Forall_forall, ws_seqs_nonempty.
  induction l as [|x l IH]; cbn [has_ws].
  - split; [|done]. intros _ k w r Hw Heq. destruct k, w; try done. by apply (Hne [] Hw).
  - rewrite orb_false_iff, bool_decide_eq_false, <-eq_None_not_Some, IH.
    rewrite strip_any_None. split.
    + intros [H1 H2] [|y k] w r Hw Heq; [by apply (H1 w r Hw)|].
      simplify_eq/=. by apply (H2 k w r Hw).
    + intros H. split; [by intros w r Hw; apply (H [])|].
      intros k w r Hw ->. by apply (H (x :: k) w r Hw).
Qed.

(** A string without white space is its own trimming. *)
Lemma trim_no_whitespace s : any_whitespace s = false → trim s = s.
Proof.
  unfold any_whitespace, trim. rewrite has_ws_false. intros H.
  rewrite trim_chars_id; [apply of_chars_chars| |].
  - apply strip_any_None. intros w r Hw. by apply (H []).
  - apply strip_any_None. intros w r (w' & -> & Hw)%list_elem_of_fmap Heq.
    apply (f_equal reverse) in Heq. rewrite reverse_app, !reverse_involutive in Heq.
    apply (H (reverse r) w' [] Hw). by rewrite (right_id_L [] (++)).
Qed.

Lemma lower_char_idemp c : lower_char (lower_char c) = lower_char c.
Proof. destruct c as [[] [] [] [] [] [] [] []]; reflexivity. Qed.

Lemma to_ascii_lowercase_idemp s : to_ascii_lowercase (to_ascii_lowercase s) = to_ascii_lowercase s.
Proof.
  unfold to_ascii_lowercase. rewrite chars_of_chars, map_map. f_equal.
  apply map_ext, lower_char_idemp.
Qed.

(** * Lemmas on searching and splitting *)

Lemma split_chars_nonempty c l : split_chars c l ≠ [].
Proof. destruct l as [|x l]; simpl; [done|]. case_decide; [done|]. by destruct (split_chars c l). Qed.

Lemma split_chars_app c a b : split_chars c (a ++ c :: b) = split_chars c a ++ split_chars c b.
Proof.
  induction a as [|x a IH]; simpl; [by rewrite decide_True|].
  case_decide; rewrite IH; [done|]. pose proof (split_chars_nonempty c a). by destruct (split_chars c a).
Qed.

Lemma split_chars_covers c l x : x ∈ l → x ≠ c → ∃ part, part ∈ split_chars c l ∧ x ∈ part.
Proof.
  intros Hx Hne. induction l as [|y l IH]; [by apply not_elem_of_nil in Hx|]. simpl.
  apply elem_of_cons in Hx as [<-|Hx].
  - rewrite decide_False by done. pose proof (split_chars_nonempty c l).
    destruct (split_chars c l) as [|p ps]; [done|]. exists (x :: p). split; left.
  - destruct (IH Hx) as (part & Hp & Hxp). case_decide; [exists part; split; [by right|done]|].
    destruct (split_chars c l) as [|p ps]; [by apply not_elem_of_nil in Hp|].
    apply elem_of_cons in Hp as [->|Hp]; [exists (y :: p); split; [left|by right]|].
    exists part. split; [by right|done].
Qed.

Lemma split_chars_parts c l : Forall (λ part, c ∉ part) (split_chars c l).
Proof.
  induction l as [|x l IH]; simpl; [repeat constructor; apply not_elem_of_nil|].
  case_decide; [constructor; [apply not_elem_of_nil|done]|].
  destruct (split_chars c l) as [|p ps]; [repeat constructor; by apply not_elem_of_cons; split; [|apply not_elem_of_nil]|].
  apply Forall_cons in IH as [Hp IH]. constructor; [by apply not_elem_of_cons|done].
Qed.

Lemma split_chars_elem c l part x : part ∈ split_chars c l → x ∈ part → x ∈ l.
Proof.
  revert part; induction l as [|y l IH]; simpl; intros part Hp Hx.
  { apply list_elem_of_singleton in Hp as ->. by apply not_elem_of_nil in Hx. }
  case_decide.
  - apply elem_of_cons in Hp as [->|Hp]; [by apply not_elem_of_nil in Hx|]. right. by eapply IH.
  - destruct (split_chars c l) as [|p ps] eqn:E.
    + apply list_elem_of_singleton in Hp as ->. apply list_elem_of_singleton in Hx as ->. left.
    + apply elem_of_cons in Hp as [->|Hp].
      * apply elem_of_cons in Hx as [->|Hx]; [left|right]. apply (IH p); [left|done].
      * right. apply (IH part); [by right|done].
Qed.

Lemma prefix_true needle s : String.prefix needle s = true → ∃ b, chars s = chars needle ++ b.
Proof.
  revert s; induction needle as [|d needle IH]; intros [|e s]; simpl; [by eexists..|done|].
  destruct (ascii_dec d e) as [->|]; [|done].
  intros (b & Hb)%IH. exists b. simpl. by rewrite Hb.
Qed.

Lemma contains_str_true needle s : contains_str needle s = true → ∃ a b, chars s = a ++ chars needle ++ b.
Proof.
  induction s as [|c s IH]; cbn [contains_str]; intros [Hp|Hp]%orb_true_iff; [| done | |].
  1, 2: destruct (prefix_true _ _ Hp) as [b Hb]; by exists [], b.
  destruct (IH Hp) as (a & b & Heq). exists (c :: a), b. simpl. by rewrite Heq.
Qed.

Lemma contains_char_true c s : contains_char c s = true ↔ c ∈ chars s.
Proof.
  unfold contains_char. rewrite existsb_exists, list_elem_of_In. split.
  - by intros (x & Hx & ->%bool_decide_eq_true).
  - intros H. exists c. by rewrite bool_decide_eq_true.
Qed.

Lemma chars_nil s : chars s = [] ↔ s = "".
Proof. destruct s; simpl; split; congruence. Qed.

Lemma length_chars s : length (chars s) = String.length s.
Proof. induction s as [|c s IH]; simpl; congruence. Qed.

Lemma forallb_elem {A} (f : A → bool) (l : list A) : forallb f l = true ↔ ∀ x, x ∈ l → f x = true.
Proof. rewrite forallb_forall. by setoid_rewrite list_elem_of_In. Qed.

Lemma chars_app s t : chars (s +:+ t) = chars s ++ chars t.
Proof. induction s as [|c s IH]; simpl; [done|]. by f_equal. Qed.

Lemma has_ws_app l s :
  has_ws l = false → Forall (λ c, Forall (λ w, c ∉ w) ws_seqs) s → has_ws (l ++ s) = false.
Proof.
  intros Hl Hs. apply has_ws_false. intros k w r Hw Heq. rewrite has_ws_false in Hl.
  rewrite (assoc_L (++)) in Heq. apply app_eq_inv in Heq as [(x & Heq & _)|(x & Heq & ->)].
  { apply (Hl k w x Hw). by rewrite Heq, (assoc_L (++)). }
  destruct x as [|c x _] using rev_ind.
  { apply (Hl k w [] Hw). by rewrite app_nil_r, Heq, app_nil_r. }
  rewrite Forall_forall in Hs. specialize (Hs c ltac:(rewrite !elem_of_app, list_elem_of_singleton; tauto)).
  rewrite Forall_forall in Hs. apply (Hs w Hw).
  pose proof ws_seqs_nonempty as Hne. rewrite Forall_forall in Hne. specialize (Hne w Hw).
  destruct w as [|d w _] using rev_ind; [done|].
  rewrite !(assoc_L (++)) in Heq. apply app_inj_tail in Heq as [_ ->].
  apply elem_of_app. right. left.
Qed.

Lemma split_once_chars_is_Some c l : c ∈ l → is_Some (split_once_chars c l).
Proof.
  induction l as [|x l IH]; [by intros ?%not_elem_of_nil|]. simpl.
  destruct (decide (x = c)) as [|Hne]; [eauto|]. intros [->|Hc]%elem_of_cons; [done|].
  destruct (IH Hc) as [[a b] ->]. eauto.
Qed.

Lemma rsplit_once_is_Some c s : c ∈ chars s → is_Some (rsplit_once c s).
Proof.
  intros H. unfold rsplit_once.
  destruct (split_once_chars_is_Some c (reverse (chars s))) as [[a b] ->]; [by apply elem_of_reverse|eauto].
Qed.

(** * Printing and parsing numbers *)

Lemma pretty_N_char_digit d : (d < 10)%N → digit_value 10 (pretty_N_char d) = Some d ∧ is_ascii_digit (pretty_N_char d) = true.
Proof.
  intros Hd. assert (d ∈ range_incl 0 9) as Hin by (apply elem_of_range_incl; lia).
  clear Hd. revert d Hin. apply Forall_forall. vm_compute. by repeat constructor.
Qed.

Lemma parse_pretty_go max x s :
  (x ≤ max)%N → (0 < x)%N → parse_digits max 0 (chars (pretty_N_go x s)) = parse_digits max x (chars s).
Proof.
  revert s. induction (N.lt_wf_0 x) as [x _ IH]; intros s Hx Hpos.
  rewrite pretty_N_go_step by done.
  pose proof (N.Div0.div_mod x 10) as Hdm. pose proof (N.mod_lt x 10 ltac:(lia)) as Hm.
  destruct (pretty_N_char_digit (x `mod` 10) Hm) as [Hd _].
  assert (parse_digits max (x / 10) (chars (String (pretty_N_char (x `mod` 10)) s)) = parse_digits max x (chars s)) as Hstep.
  { cbn [String.list_ascii_of_string parse_digits]. rewrite Hd. cbv zeta.
    replace (x / 10 * 10 + x `mod` 10)%N with x by lia. by rewrite (proj2 (N.leb_le x max)). }
  destruct (decide (x / 10 = 0)%N) as [H0|H0].
  - rewrite H0 in *. by rewrite pretty_N_go_0.
  - pose proof (N.div_lt x 10 ltac:(lia) ltac:(lia)). set (q := (x / 10)%N) in *. clearbody q.
    rewrite IH by lia. done.
Qed.

Lemma pretty_go_digits x s : forallb is_ascii_digit (chars (pretty_N_go x s)) = forallb is_ascii_digit (chars s).
Proof.
  revert s. induction (N.lt_wf_0 x) as [x _ IH]; intros s.
  destruct (decide (x = 0)%N) as [->|Hx]; [by rewrite pretty_N_go_0|].
  rewrite pretty_N_go_step by lia. rewrite IH by (apply N.div_lt; lia). simpl.
  by destruct (pretty_N_char_digit (x `mod` 10) (N.mod_lt x 10 ltac:(lia))) as [_ ->].
Qed.

(** A printed number is a non-empty string of digits. *)
Lemma pretty_N_digits (n : N) : forallb is_ascii_digit (chars (pretty n)) = true ∧ chars (pretty n) ≠ [].
Proof.
  unfold pretty, pretty_N. case_decide as Hn; [done|]. split; [by rewrite pretty_go_digits|].
  rewrite pretty_N_go_step by lia. set (s := String _ _).
  assert (∀ x s, chars s ≠ [] → chars (pretty_N_go x s) ≠ []) as Hne; [|by apply Hne].
  clear. intros x. induction (N.lt_wf_0 x) as [x _ IH]; intros s Hs.
  destruct (decide (x = 0)%N) as [->|Hx]; [by rewrite pretty_N_go_0|].
  rewrite pretty_N_go_step by lia. apply IH; [apply N.div_lt; lia|done].
Qed.

Lemma parse_uint_digits max s l :
  chars s = l → l ≠ [] → forallb is_ascii_digit l = true → parse_uint max s = parse_digits max 0 l.
Proof.
  intros <- Hne Hd. unfold parse_uint. destruct (chars s) as [|c l]; [done|].
  destruct (decide (c = "+"%char)) as [->|Hc]; [done|].
  destruct c as [[] [] [] [] [] [] [] []]; try done; destruct l; done.
Qed.

Lemma parse_digits_pretty max n : (n ≤ max)%N → parse_digits max 0 (chars (pretty n)) = Some n.
Proof.
  intros Hn. unfold pretty, pretty_N. case_decide as H0; [subst; simpl; by destruct max|].
  rewrite parse_pretty_go by lia. done.
Qed.

Lemma parse_uint_pretty max n : (n ≤ max)%N → parse_uint max (pretty n) = Some n.
Proof.
  intros Hn. destruct (pretty_N_digits n) as [Hd Hne].
  by rewrite (parse_uint_digits max _ _ eq_refl Hne Hd), parse_digits_pretty.
Qed.

Lemma parse_i64_pretty z : (- 9223372036854775808 ≤ z < 9223372036854775808)%Z → parse_i64 (pretty z) = Some z.
Proof.
  intros Hz. destruct z as [|p|p]; [done| |].
  - change (pretty (Z.pos p)) with (pretty (N.pos p)). destruct (pretty_N_digits (N.pos p)) as [Hd Hne].
    assert (parse_i64 (pretty (N.pos p)) = Z.of_N <$> parse_uint 9223372036854775807 (pretty (N.pos p))) as ->.
    { unfold parse_i64. destruct (chars (pretty (N.pos p))) as [|c l]; [done|].
      destruct c as [[] [] [] [] [] [] [] []]; try done; destruct l; done. }
    rewrite parse_uint_pretty by lia. done.
  - change (pretty (Z.neg p)) with ("-" +:+ pretty (N.pos p)). destruct (pretty_N_digits (N.pos p)) as [Hd Hne].
    unfold parse_i64. rewrite chars_app. simpl. destruct (chars (pretty (N.pos p))) as [|c l] eqn:Hc; [done|].
    rewrite <-Hc, parse_digits_pretty by lia. done.
Qed.
