(* ===== verification/Search.v ===== *)
(** * Binary search on sorted vectors

    [slice::binary_search_by] of the Rust standard library, the order of its keys (byte
    strings), and what the search finds on a vector sorted without duplicates. *)

From S2P Require Import Prelude.
Open Scope nat_scope.

(** [f] is the comparator of the element with the key searched for. *)
Fixpoint search_loop {A} (f : A → comparison) (l : list A) (fuel size base : nat) : nat :=
  match fuel with
  | O => base
  | S fuel =>
      if size <=? 1 then base
      else
      let half := size / 2 in
      let mid := base + half in
      let base := match f <$> l !! mid with Some Gt => base | _ => mid end in
      search_loop f l fuel (size - half) base
  end.

(** [Ok i] when the element at [i] matches, otherwise [Err i] with the insertion point. *)
Definition binary_search_by {A} (f : A → comparison) (l : list A) : result nat nat :=
  let base := search_loop f l (length l) (length l) 0 in
  match f <$> l !! base with
  | None => Err 0
  | Some Eq => Ok base
  | Some Lt => Err (base + 1)
  | Some Gt => Err base
  end.

(** [vec.insert(i, x)] within bounds. *)
Definition vec_insert {A} (i : nat) (x : A) (l : list A) : list A := take i l ++ x :: drop i l.

(** * The search on a monotone comparator *)

Section Search.
Context {A : Type} (f : A → comparison) (l : list A).
Hypothesis Hmono : ∀ i j x y, i < j → l !! i = Some x → l !! j = Some y → f y ≠ Gt → f x = Lt.

(** The element searched for, if any, is within [base .. base + size]. *)
Definition search_window (base size : nat) : Prop :=
  base + size ≤ length l ∧ 1 ≤ size ∧
  (base = 0 ∨ ∃ x, l !! base = Some x ∧ f x ≠ Gt) ∧
  (∀ j y, base + size ≤ j → l !! j = Some y → f y = Gt).

Lemma search_loop_window fuel size base :
  size ≤ fuel → search_window base size → search_window (search_loop f l fuel size base) 1.
Proof using Hmono.
  revert size base. induction fuel as [|fuel IH]; intros size base Hf (Hlen & Hs & Hb & Hgt); [lia|].
  cbn [search_loop]. destruct (Nat.leb_spec size 1).
  { replace size with 1 in * by lia. by split_and!. }
  pose proof (Nat.div_lt size 2 ltac:(lia) ltac:(lia)).
  assert (1 ≤ size / 2) by (apply Nat.div_le_lower_bound; lia).
  pose proof (Nat.Div0.mul_div_le size 2).
  set (half := size / 2) in *. clearbody half. apply IH; [lia|].
  destruct (lookup_lt_is_Some_2 l (base + half)) as [x Hx]; [lia|]. rewrite Hx. simpl.
  destruct (f x) eqn:Hfx.
  1,2: split_and!; [lia|lia|right; exists x; split; congruence|intros j y Hj; apply Hgt; lia].
  split_and!; [lia|lia|done|]. intros j y Hj Hy.
  destruct (decide (j = base + half)) as [->|]; [congruence|].
  destruct (f y) eqn:Hfy; [| |done]; assert (f x = Lt) by (eapply (Hmono (base + half) j); eauto; [lia|congruence]); congruence.
Qed.

Lemma binary_search_by_spec :
  match binary_search_by f l with
  | Ok i => ∃ x, l !! i = Some x ∧ f x = Eq
  | Err i => i ≤ length l ∧ Forall (λ x, f x = Lt) (take i l) ∧ Forall (λ x, f x = Gt) (drop i l)
  end.
Proof using Hmono.
  unfold binary_search_by. destruct (length l) as [|n] eqn:Hn.
  { apply nil_length_inv in Hn. rewrite Hn. simpl. split_and!; [lia|constructor..]. }
  rewrite <-Hn. assert (1 ≤ length l) by lia. clear n Hn.
  destruct (search_loop_window (length l) (length l) 0) as (Hlen & _ & Hb & Hgt); [done| |].
  { split_and!; [lia|lia|by left|]. intros j y Hj Hy%lookup_lt_Some. lia. }
  set (base := search_loop f l (length l) (length l) 0) in *. clearbody base.
  destruct (lookup_lt_is_Some_2 l base) as [x Hx]; [lia|]. rewrite Hx. simpl.
  assert (∀ k, base + 1 ≤ k → Forall (λ y, f y = Gt) (drop k l)) as Hdrop.
  { intros k Hk. apply Forall_lookup. intros j y. rewrite lookup_drop. apply Hgt. lia. }
  assert (f x ≠ Gt → Forall (λ y, f y = Lt) (take base l)) as Htake.
  { intros Hng. apply Forall_lookup. intros j y [Hy ?]%lookup_take_Some. eapply (Hmono j base); eauto. }
  destruct (f x) eqn:Hfx; [by eauto| |].
  - split_and!; [lia| |by apply Hdrop]. rewrite Nat.add_1_r, (take_S_r _ _ _ Hx).
    apply Forall_app. split; [by apply Htake|by repeat constructor].
  - destruct Hb as [->|(y & Hy & Hng)]; [|congruence].
    split_and!; [lia|constructor|]. rewrite (drop_S _ _ _ Hx). constructor; [done|by apply Hdrop].
Qed.
End Search.

(** * Sorted by string keys *)

Definition str_lt (a b : string) : Prop := String.compare a b = Lt.
Definition str_gt (a b : string) : bool := match String.compare a b with Gt => true | _ => false end.

Lemma compare_refl s : String.compare s s = Eq.
Proof. pose proof (String.compare_antisym s s). by destruct (String.compare s s). Qed.

Lemma str_lt_le a b : str_lt a b ↔ String.le a b ∧ a ≠ b.
Proof.
  unfold str_lt, String.le, String.leb. destruct (String.compare a b) eqn:H; split; try done.
  - intros [_ Hne]. by apply String.compare_eq_iff in H.
  - intros _. split; [done|]. intros ->. by rewrite compare_refl in H.
  - by intros [? _].
Qed.

#[global] Instance str_lt_trans : Transitive str_lt.
Proof.
  intros a b c. rewrite !str_lt_le. intros [Hab Hne] [Hbc Hne']. split; [by etrans|].
  intros ->. apply Hne. by apply (anti_symm String.le).
Qed.

Lemma compare_gt a b : String.compare a b = Gt ↔ str_lt b a.
Proof. unfold str_lt. rewrite (String.compare_antisym a b). by destruct (String.compare b a). Qed.

Section Keyed.
Context {A : Type} (key : A → string).
Implicit Types l : list A.

Definition keyed_sorted l : Prop := StronglySorted str_lt (key <$> l).

Lemma keyed_sorted_lookup l i j x y :
  keyed_sorted l → i < j → l !! i = Some x → l !! j = Some y → str_lt (key x) (key y).
Proof.
  unfold keyed_sorted. revert i j. induction l as [|a l IH]; intros i j Hs Hij Hx Hy; [done|].
  apply StronglySorted_inv in Hs as [Hs Ha]. rewrite Forall_forall in Ha.
  destruct j as [|j]; [lia|]. simpl in Hy. destruct i as [|i]; simplify_eq/=.
  - apply Ha. apply list_elem_of_fmap_2. by eapply list_elem_of_lookup_2.
  - eapply (IH i j); eauto. lia.
Qed.

Lemma keyed_sorted_index l i j x y :
  keyed_sorted l → l !! i = Some x → l !! j = Some y → key x = key y → i = j.
Proof.
  intros Hs Hx Hy Hk. destruct (Nat.lt_trichotomy i j) as [Hlt|[?|Hlt]]; [|done|].
  all: pose proof (keyed_sorted_lookup _ _ _ _ _ Hs Hlt ltac:(eassumption) ltac:(eassumption)) as [_ ?]%str_lt_le; congruence.
Qed.

Lemma keyed_sorted_inj l x y : keyed_sorted l → x ∈ l → y ∈ l → key x = key y → x = y.
Proof.
  intros Hs [i Hi]%list_elem_of_lookup_1 [j Hj]%list_elem_of_lookup_1 Hk.
  pose proof (keyed_sorted_index _ _ _ _ _ Hs Hi Hj Hk). congruence.
Qed.

Lemma search_keyed l k :
  keyed_sorted l →
  match binary_search_by (λ x, String.compare (key x) k) l with
  | Ok i => ∃ x, l !! i = Some x ∧ key x = k
  | Err i => i ≤ length l ∧ Forall (λ x, str_lt (key x) k) (take i l) ∧ Forall (λ x, str_lt k (key x)) (drop i l)
  end.
Proof.
  intros Hs. pose proof (binary_search_by_spec (λ x, String.compare (key x) k) l) as H.
  assert (∀ i j x y, i < j → l !! i = Some x → l !! j = Some y →
          String.compare (key y) k ≠ Gt → String.compare (key x) k = Lt) as Hmono.
  { intros i j x y Hij Hx Hy Hng. pose proof (keyed_sorted_lookup _ _ _ _ _ Hs Hij Hx Hy) as Hlt.
    destruct (String.compare (key y) k) eqn:Hc; [apply String.compare_eq_iff in Hc as <-; done| |done].
    change (str_lt (key x) k). by trans (key y). }
  specialize (H Hmono). destruct (binary_search_by _ l) as [i|i].
  - destruct H as (x & Hx & Hk%String.compare_eq_iff). eauto.
  - destruct H as (Hlen & Ht & Hd). split_and!; [done|done|].
    eapply Forall_impl; [exact Hd|]. intros x. apply compare_gt.
Qed.

Lemma search_keyed_found l x : keyed_sorted l → x ∈ l →
  ∃ i, binary_search_by (λ y, String.compare (key y) (key x)) l = Ok i ∧ l !! i = Some x.
Proof.
  intros Hs Hx. pose proof (search_keyed l (key x) Hs) as H. destruct (binary_search_by _ l) as [i|i].
  - destruct H as (y & Hy & Hk). exists i. split; [done|].
    by rewrite <-(keyed_sorted_inj l y x Hs (list_elem_of_lookup_2 _ _ _ Hy) Hx Hk).
  - destruct H as (_ & Ht & Hd). rewrite Forall_forall in Ht. rewrite Forall_forall in Hd.
    rewrite <-(take_drop i l) in Hx. apply elem_of_app in Hx as [Hx|Hx]; [apply Ht in Hx|apply Hd in Hx].
    all: by apply str_lt_le in Hx as [_ ?].
Qed.

(** Inserting at the point a failed search reports. *)
Lemma keyed_sorted_insert l x i :
  keyed_sorted l → binary_search_by (λ y, String.compare (key y) (key x)) l = Err i → keyed_sorted (vec_insert i x l).
Proof.
  intros Hs Hf. pose proof (search_keyed l (key x) Hs) as H. rewrite Hf in H. destruct H as (_ & Ht & Hd).
  unfold keyed_sorted, vec_insert in *. rewrite fmap_app, fmap_cons.
  rewrite <-(take_drop i l), fmap_app in Hs. apply StronglySorted_app in Hs as (Hcross & Hs1 & Hs2).
  apply StronglySorted_app. split_and!; [|done|].
  - intros a b Ha Hb. apply list_elem_of_fmap in Ha as (x' & -> & Hx'). rewrite Forall_forall in Ht. specialize (Ht x' Hx').
    apply elem_of_cons in Hb as [-> | (y & -> & Hy)%list_elem_of_fmap]; [done|]. rewrite Forall_forall in Hd. specialize (Hd y Hy). by trans (key x).
  - constructor; [done|]. by rewrite Forall_fmap.
Qed.

(** A write that keeps the key keeps the order. *)
Lemma keyed_sorted_write l i x x' : l !! i = Some x → key x' = key x → keyed_sorted l → keyed_sorted (<[i := x']> l).
Proof.
  intros Hx Hk. unfold keyed_sorted. rewrite list_fmap_insert, Hk, list_insert_id; [done|].
  by rewrite list_lookup_fmap, Hx.
Qed.
End Keyed.
