(* ===== verification/Ordered.v ===== *)
(** * Ordered keys

    [derive(Ord)] and the ordered maps it gives rise to: a comparison with the laws of a
    total order, lexicographic on tuples, and the iteration of a [BTreeMap] whose keys are
    not plain strings. *)

From S2P Require Import Prelude Search.
Open Scope N_scope.

(** [Ord]: a total order whose [Equal] is equality. *)
Class Ordered (K : Type) := {
  cmp : K → K → comparison;
  cmp_eq a b : cmp a b = Eq ↔ a = b;
  cmp_antisym a b : cmp b a = CompOpp (cmp a b);
  cmp_trans a b c : cmp a b = Lt → cmp b c = Lt → cmp a c = Lt
}.

#[global] Instance string_ordered : Ordered string.
Proof.
  refine {| cmp := String.compare |}.
  - intros a b. split; [apply String.compare_eq_iff|]. intros ->. apply compare_refl.
  - intros a b. apply String.compare_antisym.
  - intros a b c. fold (str_lt a b) (str_lt b c) (str_lt a c). rewrite !str_lt_le. intros [H1 Hne] [H2 _].
    split; [by etrans|]. intros ->. apply Hne. by apply (anti_symm String.le).
Defined.

#[global] Instance N_ordered : Ordered N.
Proof.
  refine {| cmp := N.compare |}.
  - apply N.compare_eq_iff.
  - intros a b. apply N.compare_antisym.
  - intros a b c. rewrite !N.compare_lt_iff. lia.
Defined.

(** Fields compared one after the other. *)
#[global] Instance prod_ordered {A B} `{Ordered A, Ordered B} : Ordered (A * B).
Proof.
  refine {| cmp := λ a b, match cmp a.1 b.1 with Eq => cmp a.2 b.2 | c => c end |}.
  - intros [a1 a2] [b1 b2]. cbn. destruct (cmp a1 b1) eqn:E.
    + apply cmp_eq in E as ->. rewrite cmp_eq. naive_solver.
    + split; [done|]. intros [= -> ->]. by rewrite (proj2 (cmp_eq b1 b1) eq_refl) in E.
    + split; [done|]. intros [= -> ->]. by rewrite (proj2 (cmp_eq b1 b1) eq_refl) in E.
  - intros [a1 a2] [b1 b2]. cbn. rewrite (cmp_antisym a1 b1). destruct (cmp a1 b1); [apply cmp_antisym|done|done].
  - intros [a1 a2] [b1 b2] [c1 c2]. cbn. destruct (cmp a1 b1) eqn:E1; [| |done].
    + apply cmp_eq in E1 as ->. destruct (cmp b1 c1); [apply cmp_trans|done|done].
    + intros _. destruct (cmp b1 c1) eqn:E2; [| |done].
      * apply cmp_eq in E2 as <-. by rewrite E1.
      * intros _. by rewrite (cmp_trans _ _ _ E1 E2).
Defined.

(** A record compared through the tuple of its fields. *)
Definition ordered_by {A B} `{Ordered B} (f : A → B) (Hinj : ∀ a b, f a = f b → a = b) : Ordered A.
Proof.
  refine {| cmp := λ a b, cmp (f a) (f b) |}.
  - intros a b. rewrite cmp_eq. split; [apply Hinj|congruence].
  - intros a b. apply cmp_antisym.
  - intros a b c. apply cmp_trans.
Defined.

Section Order.
Context {K : Type} `{Ordered K}.
Implicit Types a b c : K.

Definition below a b : Prop := cmp a b = Lt.
Definition upto a b : Prop := cmp a b ≠ Gt.

#[global] Instance below_dec : RelDecision below.
Proof. intros a b. unfold below. destruct (cmp a b); [right|left|right]; done. Defined.
#[global] Instance upto_dec : RelDecision upto.
Proof. intros a b. unfold upto. destruct (cmp a b); [left|left|right]; [done|done|by intros []]. Defined.

Lemma cmp_refl a : cmp a a = Eq.
Proof. by apply cmp_eq. Qed.
Lemma cmp_gt a b : cmp a b = Gt ↔ below b a.
Proof. unfold below. rewrite (cmp_antisym a b). by destruct (cmp a b). Qed.
Lemma below_irrefl a : ¬ below a a.
Proof. unfold below. by rewrite cmp_refl. Qed.
#[global] Instance below_trans : Transitive below.
Proof. intros a b c. apply cmp_trans. Qed.
Lemma upto_below a b : upto a b ↔ a = b ∨ below a b.
Proof.
  unfold upto, below. split.
  - destruct (cmp a b) eqn:E; [left; by apply cmp_eq|by right|done].
  - intros [-> |E]; [by rewrite cmp_refl|by rewrite E].
Qed.
Lemma not_upto a b : ¬ upto a b ↔ below b a.
Proof. unfold upto. rewrite <-cmp_gt. destruct (cmp a b); naive_solver. Qed.
Lemma not_below a b : ¬ below a b ↔ upto b a.
Proof. rewrite <-not_upto. destruct (decide (upto b a)); naive_solver. Qed.
#[global] Instance upto_trans : Transitive upto.
Proof. intros a b c. rewrite !upto_below. intros [-> |?] [-> |?]; [by left|by right|by right|right; by etrans]. Qed.
#[global] Instance upto_total : Total upto.
Proof. intros a b. destruct (decide (upto a b)) as [?|E%not_upto]; [by left|right]. apply upto_below. by right. Qed.
#[global] Instance upto_antisym : AntiSymm (=) upto.
Proof. intros a b [?|?]%upto_below [?|?]%upto_below; try done. exfalso. apply (below_irrefl a). by etrans. Qed.

(** [collect::<BTreeSet<K>>] then iterated, [Vec::sort]. *)
Definition sorted (l : list K) : list K := merge_sort upto l.
Lemma sorted_perm l : sorted l ≡ₚ l.
Proof. apply merge_sort_Permutation. Qed.
Lemma sorted_in l a : a ∈ sorted l ↔ a ∈ l.
Proof. by rewrite sorted_perm. Qed.
Lemma sorted_ascending l : NoDup l → StronglySorted below (sorted l).
Proof.
  intros Hl. assert (NoDup (sorted l)) as Hnd by (by rewrite sorted_perm).
  pose proof (StronglySorted_merge_sort upto l) as Hs. fold (sorted l) in Hs.
  induction Hs as [|a l' Hs IH Ha]; constructor; apply NoDup_cons in Hnd as [Hn Hnd]; [by apply IH|].
  rewrite Forall_forall in Ha |- *. intros b Hb. destruct (proj1 (upto_below a b) (Ha b Hb)) as [-> |?]; done.
Qed.
Lemma sorted_ext l k : l ≡ₚ k → sorted l = sorted k.
Proof.
  intros Hlk. apply (StronglySorted_unique upto); [apply (StronglySorted_merge_sort _)..|]. by rewrite !sorted_perm.
Qed.
Lemma sorted_id l : StronglySorted below l → sorted l = l.
Proof.
  intros Hl. apply (StronglySorted_unique upto); [apply (StronglySorted_merge_sort _)| |apply sorted_perm].
  induction Hl as [|a l Hl IH Ha]; constructor; [done|]. eapply Forall_impl; [exact Ha|]. intros b Hb. apply upto_below. by right.
Qed.

(** A filtered ascending list, cut at a key: the part above it is a suffix. *)
Lemma ascending_split l l1 x l2 :
  StronglySorted below l → l = (l1 ++ x :: l2)%list → filter (λ y, below x y) l = l2.
Proof.
  intros Hl ->. assert (filter (λ y, below x y) l1 = []) as Hl1.
  { assert (∀ y, y ∈ l1 → ¬ below x y) as Hlow.
    { intros y Hy Hin. apply (below_irrefl x). etrans; [exact Hin|].
      eapply (StronglySorted_app_1_elem_of below); [exact Hl|done|left]. }
    clear Hl. induction l1 as [|y l1 IH]; [done|]. rewrite filter_cons_False by (apply Hlow; left).
    apply IH. intros z Hz. apply Hlow. by right. }
  rewrite filter_app, Hl1. cbn [app]. rewrite filter_cons_False by apply below_irrefl.
  apply StronglySorted_app_1_r in Hl. inversion_clear Hl as [|?? _ Hx]. rewrite Forall_forall in Hx. clear Hl1.
  induction l2 as [|y l2 IH]; [done|]. rewrite filter_cons_True by (apply Hx; left). f_equal. apply IH. intros z Hz. apply Hx. by right.
Qed.
End Order.

(** ** Maps with integer keys *)

Section Items.
Context {V : Type}.
Implicit Types (m : gmap N V) (l : list (N * V)).

Definition index_le (a b : N * V) : Prop := a.1 ≤ b.1.
#[global] Instance index_le_dec : RelDecision index_le.
Proof. intros a b. unfold index_le. apply _. Defined.
#[global] Instance index_le_total : Total index_le.
Proof. intros a b. unfold index_le. lia. Qed.
#[global] Instance index_le_trans : Transitive index_le.
Proof. intros a b c. unfold index_le. lia. Qed.

(** A [BTreeMap<u64, V>] in the order of its keys. *)
Definition bn_items (m : gmap N V) : list (N * V) := merge_sort index_le (map_to_list m).

Lemma bn_items_perm m : bn_items m ≡ₚ map_to_list m.
Proof. apply merge_sort_Permutation. Qed.

Lemma bn_items_sorted l : StronglySorted (λ a b, a.1 < b.1) l → bn_items (list_to_map l) = l.
Proof.
  intros Hl. assert (NoDup l.*1) as Hnd.
  { induction Hl as [|a l Hl IH Ha]; cbn; constructor; [|done]. intros (b & Hb & Hin)%list_elem_of_fmap.
    rewrite Forall_forall in Ha. specialize (Ha _ Hin). rewrite Hb in Ha. lia. }
  apply (StronglySorted_unique_strong index_le).
  - intros [i v] [j w] Hi Hj Hij Hji. unfold index_le in *. cbn in *. assert (i = j) as -> by lia. f_equal.
    rewrite bn_items_perm, elem_of_map_to_list in Hi. apply elem_of_list_to_map in Hj; [|done]. congruence.
  - apply (StronglySorted_merge_sort _).
  - clear Hnd. induction Hl as [|a l Hl IH Ha]; constructor; [done|]. eapply Forall_impl; [exact Ha|]. unfold index_le. intros b. cbn. lia.
  - rewrite bn_items_perm. by apply map_to_list_to_map.
Qed.
End Items.

(** ** Ordered maps with other keys *)

Section Entries.
Context {K V E : Type} `{Countable K, !Ordered K}.
Implicit Types (m : gmap K V) (l : list (K * V)).

(** A [BTreeMap<K, V>] in the order of its keys. *)
Definition entries (m : gmap K V) : list (K * V) := omap (λ key, pair key <$> m !! key) (sorted (elements (dom m))).

Lemma entries_perm m : entries m ≡ₚ map_to_list m.
Proof.
  assert (NoDup (sorted (elements (dom m)))) as Hnd by (rewrite sorted_perm; apply NoDup_elements).
  apply NoDup_Permutation; [|apply NoDup_map_to_list|].
  - unfold entries. induction Hnd as [|k ks Hk _ IH]; [constructor|]. cbn. destruct (m !! k); cbn; [|done]. constructor; [|done].
    intros (k' & Hin & Heq)%list_elem_of_omap. destruct (m !! k'); simplify_eq/=; done.
  - intros [k v]. unfold entries. rewrite list_elem_of_omap, elem_of_map_to_list. split.
    + intros (k' & _ & Heq). destruct (m !! k') eqn:Hk; simplify_eq/=. done.
    + intros Hk. exists k. rewrite sorted_in, elem_of_elements, elem_of_dom, Hk. eauto.
Qed.

Lemma entries_length m : length (entries m) = size m.
Proof. by rewrite entries_perm, length_map_to_list. Qed.

(** Reading the entries back with a step that takes every key it has not seen. *)
Lemma try_fold_insert (f : gmap K V → K * V → result (gmap K V) E) m :
  (∀ acc k v, m !! k = Some v → acc !! k = None → f acc (k, v) = Ok (<[k := v]> acc)) →
  try_fold f ∅ (entries m) = Ok m.
Proof.
  intros Hf. pose proof (entries_perm m) as Hp.
  assert (∀ l acc, NoDup l.*1 → (∀ k v, (k, v) ∈ l → m !! k = Some v ∧ acc !! k = None) →
    try_fold f acc l = Ok (list_to_map l ∪ acc)) as Hgen.
  { induction l as [|[k v] l IH]; intros acc Hnd Hl; cbn; [by rewrite (left_id_L ∅ (∪))|].
    apply NoDup_cons in Hnd as [Hk Hnd]. cbn in Hk. destruct (Hl k v) as [Hm Hacc]; [left|]. rewrite (Hf _ _ _ Hm Hacc). cbn.
    rewrite IH; [|done|].
    - f_equal. apply map_eq. intros i. rewrite !lookup_union. destruct (decide (i = k)) as [-> |Hne].
      + rewrite !lookup_insert_eq. rewrite not_elem_of_list_to_map_1 by done. by rewrite Hacc.
      + by rewrite !lookup_insert_ne.
    - intros k' v' Hin. destruct (Hl k' v') as [? ?]; [by right|]. split; [done|]. rewrite lookup_insert_ne; [done|].
      intros ->. apply Hk. apply list_elem_of_fmap. by exists (k', v'). }
  assert (NoDup (entries m).*1) as Hnd by (rewrite Hp; apply NoDup_fst_map_to_list).
  rewrite Hgen; [|done|].
  - rewrite (right_id_L ∅ (∪)). f_equal. rewrite (list_to_map_proper _ _ Hnd Hp). apply list_to_map_to_list.
  - intros k v Hin. rewrite Hp in Hin. by apply elem_of_map_to_list in Hin.
Qed.
End Entries.
