(* ===== verification/Hex.v ===== *)
(** * Bytes in hexadecimal

    [hex::encode] and [hex::decode] of the hex crate, and the big-endian bytes of a [u64]. *)

From S2P Require Import Prelude Text.
Open Scope string_scope.
Open Scope list_scope.
Open Scope N_scope.

(** [hex::encode] *)
Definition hex_digit (n : N) : ascii := Ascii.ascii_of_N (if n <? 10 then 48 + n else 87 + n).
Definition hex_encode (s : string) : string := of_chars (flat_map (λ c, [hex_digit (code c / 16); hex_digit (code c mod 16)]) (chars s)).

(** [hex::decode]: digits of either case, two to a byte. *)
Definition hex_value (c : ascii) : option N :=
  let n := code c in
  if (48 <=? n) && (n <=? 57) then Some (n - 48)
  else if (65 <=? n) && (n <=? 70) then Some (n - 55)
  else if (97 <=? n) && (n <=? 102) then Some (n - 87)
  else None.
Fixpoint hex_bytes (l : list ascii) : option (list ascii) :=
  match l with
  | [] => Some []
  | a :: b :: rest =>
      high ← hex_value a; low ← hex_value b; bytes ← hex_bytes rest;
      Some (Ascii.ascii_of_N (16 * high + low) :: bytes)
  | [_] => None
  end.
Definition hex_decode (s : string) : option string := of_chars <$> hex_bytes (chars s).

(** [u64::to_be_bytes] *)
Definition to_be_bytes (n : N) : string :=
  of_chars (map (λ i, Ascii.ascii_of_N (N.shiftr n (8 * i) mod 256)) [7; 6; 5; 4; 3; 2; 1; 0]).

(** ** Reading back *)

Lemma hex_value_digit n : n < 16 → hex_value (hex_digit n) = Some n.
Proof.
  intros Hn. unfold hex_value, hex_digit, code. rewrite Ascii.N_ascii_embedding by (destruct (N.ltb_spec n 10); lia).
  destruct (N.ltb_spec n 10).
  - rewrite !(proj2 (N.leb_le _ _)) by lia. cbn [andb]. f_equal. lia.
  - assert (87 + n <=? 57 = false) as -> by (apply N.leb_gt; lia). rewrite andb_false_r.
    assert (87 + n <=? 70 = false) as -> by (apply N.leb_gt; lia). rewrite andb_false_r.
    rewrite !(proj2 (N.leb_le _ _)) by lia. cbn [andb]. f_equal. lia.
Qed.

Lemma code_below c : code c < 256.
Proof. destruct c as [[] [] [] [] [] [] [] []]; vm_compute; done. Qed.

Lemma hex_decode_encode s : hex_decode (hex_encode s) = Some s.
Proof.
  unfold hex_decode, hex_encode. rewrite chars_of_chars.
  assert (∀ l, hex_bytes (flat_map (λ c, [hex_digit (code c / 16); hex_digit (code c mod 16)]) l) = Some l) as Hl.
  { induction l as [|c l IH]; [done|]. cbn [flat_map app hex_bytes]. pose proof (code_below c) as Hc.
    assert (code c / 16 < 16) by (apply N.Div0.div_lt_upper_bound; lia). assert (code c mod 16 < 16) by (apply N.mod_lt; lia).
    rewrite !hex_value_digit by done. cbn. rewrite IH. cbn. f_equal. f_equal.
    rewrite <-(N.div_mod (code c) 16) by done. apply Ascii.ascii_N_embedding. }
  rewrite Hl. cbn. by rewrite of_chars_chars.
Qed.
