(* ===== verification/IpText.v ===== *)
(** * Internet addresses

    What [src/inbound_ip_usage.rs] uses of [std::net]: parsing and printing of [IpAddr]
    (the grammar is that of [Text]), the classes of special addresses, and the check that an
    address is globally routable. *)

From S2P Require Import Prelude Text.
Open Scope string_scope.
Open Scope list_scope.
Open Scope N_scope.

(** Four octets, or eight 16-bit segments. *)
Inductive IpAddr : Type :=
| V4 (a b c d : N)
| V6 (segments : list N).
#[global] Instance IpAddr_eq_dec : EqDecision IpAddr.
Proof. solve_decision. Defined.

(** ** Parsing *)

(** [read_groups] with the values it reads; an embedded IPv4 address is two groups. *)
Fixpoint read_group_values (limit i : nat) (l : list ascii) : list N * bool * list ascii :=
  match limit with
  | O => ([], false, l)
  | S limit' =>
      let v4 := if (1 <=? limit')%nat then read_separator ":"%char i read_ipv4 l else None in
      match v4 with
      | Some ([a; b; c; d], rest) => ([a * 256 + b; c * 256 + d], true, rest)
      | Some (_, rest) => ([], true, rest)
      | None => match read_separator ":"%char i (read_number 16 u16_max (Some 4%nat) true) l with
                | Some (g, rest) => let '(gs, v4, rest) := read_group_values limit' (S i) rest in (g :: gs, v4, rest)
                | None => ([], false, l)
                end
      end
  end.

Definition read_ipv6_addr (l : list ascii) : option (list N * list ascii) :=
  let '(front, head_ipv4, rest) := read_group_values 8 0 l in
  if (length front =? 8)%nat then Some (front, rest)
  else if head_ipv4 then None
  else match read_char ":"%char rest with
       | Some rest => match read_char ":"%char rest with
                      | Some rest =>
                          let '(back, _, rest) := read_group_values (7 - length front)%nat 0 rest in
                          Some (front ++ repeat 0 (8 - length front - length back) ++ back, rest)
                      | None => None
                      end
       | None => None
       end.

(** [str::parse::<IpAddr>] *)
Definition parse_ip (s : string) : option IpAddr :=
  match read_ipv4 (chars s) with
  | Some ([a; b; c; d], []) => Some (V4 a b c d)
  | Some _ => None
  | None => match read_ipv6_addr (chars s) with Some (segments, []) => Some (V6 segments) | _ => None end
  end.

(** ** Printing *)

Definition hex_char (d : N) : ascii := ascii_of_N (if d <? 10 then 48 + d else 87 + d).

(** [{:x}] of a 16-bit value: four digits at most. *)
Fixpoint hex_go (fuel : nat) (n : N) (acc : string) : string :=
  match fuel with
  | O => acc
  | S fuel => let acc := String (hex_char (n mod 16)) acc in if n / 16 =? 0 then acc else hex_go fuel (n / 16) acc
  end.
Definition hex_of (n : N) : string := hex_go 4 n EmptyString.

Fixpoint join_colon (l : list string) : string :=
  match l with
  | [] => EmptyString
  | [x] => x
  | x :: l => x +:+ ":" +:+ join_colon l
  end.
Definition fmt_subslice (segments : list N) : string := join_colon (hex_of <$> segments).

Definition show_ipv4 (a b c d : N) : string := pretty a +:+ "." +:+ pretty b +:+ "." +:+ pretty c +:+ "." +:+ pretty d.

(** The first longest run of zero segments, as its start and length. *)
Definition longest_zeroes (segments : list N) : nat * nat :=
  let '(longest, _, _) :=
    foldl (λ '(longest, current, i) segment,
      if segment =? 0 then
        let current := if (current.2 =? 0)%nat then (i, 1%nat) else (current.1, S current.2) in
        (if (longest.2 <? current.2)%nat then current else longest, current, S i)
      else (longest, (0%nat, 0%nat), S i)) ((0%nat, 0%nat), (0%nat, 0%nat), 0%nat) segments in
  longest.

Definition to_ipv4_mapped (segments : list N) : option (N * N * N * N) :=
  match segments with
  | [0; 0; 0; 0; 0; 65535; ab; cd] => Some (ab / 256, ab mod 256, cd / 256, cd mod 256)
  | _ => None
  end.

Definition show_ip (ip : IpAddr) : string :=
  match ip with
  | V4 a b c d => show_ipv4 a b c d
  | V6 segments =>
      match to_ipv4_mapped segments with
      | Some (a, b, c, d) => "::ffff:" +:+ show_ipv4 a b c d
      | None =>
          let '(start, len) := longest_zeroes segments in
          if (1 <? len)%nat
          then fmt_subslice (take start segments) +:+ "::" +:+ fmt_subslice (drop (start + len) segments)
          else fmt_subslice segments
      end
  end.

Definition normalize_ip_string (raw : string) : option string := show_ip <$> parse_ip (trim raw).

(** ** Routable addresses *)

Definition is_private (a b c d : N) : bool :=
  (a =? 10) || ((a =? 172) && (16 <=? b) && (b <=? 31)) || ((a =? 192) && (b =? 168)).
Definition is_loopback_v4 (a b c d : N) : bool := a =? 127.
Definition is_link_local (a b c d : N) : bool := (a =? 169) && (b =? 254).
Definition is_broadcast (a b c d : N) : bool := (a =? 255) && (b =? 255) && (c =? 255) && (d =? 255).
Definition is_documentation_v4 (a b c d : N) : bool :=
  ((a =? 192) && (b =? 0) && (c =? 2)) || ((a =? 198) && (b =? 51) && (c =? 100)) || ((a =? 203) && (b =? 0) && (c =? 113)).
Definition is_unspecified_v4 (a b c d : N) : bool := (a =? 0) && (b =? 0) && (c =? 0) && (d =? 0).
Definition is_multicast_v4 (a b c d : N) : bool := (224 <=? a) && (a <=? 239).

Definition is_public_ipv4 (a b c d : N) : bool :=
  if is_private a b c d || is_loopback_v4 a b c d || is_link_local a b c d || is_broadcast a b c d || is_documentation_v4 a b c d
     || is_unspecified_v4 a b c d || is_multicast_v4 a b c d then false
  else if a =? 0 then false
  else if (a =? 100) && (64 <=? b) && (b <=? 127) then false
  else if (a =? 192) && (b =? 0) && (c =? 0) then false
  else if (a =? 198) && ((b =? 18) || (b =? 19)) then false
  else if 240 <=? a then false
  else true.

(** IPv4-mapped and IPv4-compatible addresses. *)
Definition to_ipv4 (segments : list N) : option (N * N * N * N) :=
  match segments with
  | [0; 0; 0; 0; 0; x; ab; cd] =>
      if (x =? 0) || (x =? 65535) then Some (ab / 256, ab mod 256, cd / 256, cd mod 256) else None
  | _ => None
  end.

Definition segment (segments : list N) (i : nat) : N := nth i segments 0.

Definition is_public_ipv6 (segments : list N) : bool :=
  match to_ipv4 segments with
  | Some (a, b, c, d) => is_public_ipv4 a b c d
  | None =>
      let first := segment segments 0 in
      negb (bool_decide (segments = [0; 0; 0; 0; 0; 0; 0; 1]))
      && negb (bool_decide (segments = repeat 0 8))
      && negb (N.land first 65280 =? 65280)
      && negb (N.land first 65024 =? 64512)
      && negb (N.land first 65472 =? 65152)
      && negb ((first =? 8193) && (segment segments 1 =? 3512))
  end.

Definition is_global_geo_ip (raw : string) : bool :=
  match parse_ip raw with
  | Some (V4 a b c d) => is_public_ipv4 a b c d
  | Some (V6 segments) => is_public_ipv6 segments
  | None => false
  end.

(** * The special ranges *)

(** A block of IPv4 addresses: its network as a 32-bit number and the bits of its prefix. *)
Definition ipv4_number (a b c d : N) : N := a * 2 ^ 24 + b * 2 ^ 16 + c * 2 ^ 8 + d.
Definition in_block (block : N * N) (ip : N) : Prop := ip / 2 ^ (32 - block.2) = block.1 / 2 ^ (32 - block.2).

(** The blocks of the IANA registry that are not globally routable. *)
Definition special_blocks : list (N * N) :=
  [(ipv4_number 0 0 0 0, 8); (ipv4_number 10 0 0 0, 8); (ipv4_number 100 64 0 0, 10); (ipv4_number 127 0 0 0, 8);
   (ipv4_number 169 254 0 0, 16); (ipv4_number 172 16 0 0, 12); (ipv4_number 192 0 0 0, 24); (ipv4_number 192 0 2 0, 24);
   (ipv4_number 192 168 0 0, 16); (ipv4_number 198 18 0 0, 15); (ipv4_number 198 51 100 0, 24); (ipv4_number 203 0 113 0, 24);
   (ipv4_number 224 0 0 0, 4); (ipv4_number 240 0 0 0, 4)].

(** Arithmetic with divisions. *)
Ltac div_N := zify; Z.to_euclidean_division_equations; lia.

Lemma ipv4_number_div a b c d :
  a < 256 → b < 256 → c < 256 → d < 256 →
  ipv4_number a b c d / 2 ^ 24 = a ∧ ipv4_number a b c d / 2 ^ 16 = a * 256 + b ∧ ipv4_number a b c d / 2 ^ 8 = a * 65536 + b * 256 + c ∧
  ipv4_number a b c d / 2 ^ 22 = a * 4 + b / 64 ∧ ipv4_number a b c d / 2 ^ 20 = a * 16 + b / 16 ∧
  ipv4_number a b c d / 2 ^ 17 = a * 128 + b / 2 ∧ ipv4_number a b c d / 2 ^ 28 = a / 16.
Proof.
  intros. unfold ipv4_number. change (2 ^ 24) with 16777216. change (2 ^ 16) with 65536. change (2 ^ 8) with 256.
  change (2 ^ 22) with 4194304. change (2 ^ 20) with 1048576. change (2 ^ 17) with 131072. change (2 ^ 28) with 268435456.
  split_and!; div_N.
Qed.

(** The blocks in terms of octets. *)
Lemma special_blocks_octets a b c d :
  a < 256 → b < 256 → c < 256 → d < 256 →
  (∀ block, block ∈ special_blocks → ¬ in_block block (ipv4_number a b c d)) ↔
  a ≠ 0 ∧ a ≠ 10 ∧ ((a ≠ 100 ∨ b < 64) ∨ 127 < b) ∧ a ≠ 127 ∧ (a ≠ 169 ∨ b ≠ 254) ∧ ((a ≠ 172 ∨ b < 16) ∨ 31 < b) ∧
  ((a ≠ 192 ∨ b ≠ 0) ∨ c ≠ 0) ∧ ((a ≠ 192 ∨ b ≠ 0) ∨ c ≠ 2) ∧ (a ≠ 192 ∨ b ≠ 168) ∧ (a ≠ 198 ∨ b ≠ 18 ∧ b ≠ 19) ∧
  ((a ≠ 198 ∨ b ≠ 51) ∨ c ≠ 100) ∧ ((a ≠ 203 ∨ b ≠ 0) ∨ c ≠ 113) ∧ (a < 224 ∨ 239 < a) ∧ a < 240.
Proof.
  intros Ha Hb Hc Hd. destruct (ipv4_number_div a b c d Ha Hb Hc Hd) as (D24 & D16 & D8 & D22 & D20 & D17 & D28).
  rewrite <-Forall_forall. unfold special_blocks, in_block. rewrite !Forall_cons, Forall_nil. cbn [fst snd].
  change (32 - 8) with 24. change (32 - 10) with 22. change (32 - 12) with 20. change (32 - 15) with 17. change (32 - 16) with 16.
  change (32 - 24) with 8. change (32 - 4) with 28. rewrite D24, D16, D8, D22, D20, D17, D28. clear D24 D16 D8 D22 D20 D17 D28.
  repeat match goal with |- context [ipv4_number ?a ?b ?c ?d / ?e] =>
    let v := eval vm_compute in (ipv4_number a b c d / e) in change (ipv4_number a b c d / e) with v end.
  assert (a * 4 + b / 64 ≠ 401 ↔ (a ≠ 100 ∨ b < 64) ∨ 127 < b) as -> by div_N.
  assert (a * 256 + b ≠ 43518 ↔ a ≠ 169 ∨ b ≠ 254) as -> by lia.
  assert (a * 16 + b / 16 ≠ 2753 ↔ (a ≠ 172 ∨ b < 16) ∨ 31 < b) as -> by div_N.
  assert (a * 65536 + b * 256 + c ≠ 12582912 ↔ (a ≠ 192 ∨ b ≠ 0) ∨ c ≠ 0) as -> by lia.
  assert (a * 65536 + b * 256 + c ≠ 12582914 ↔ (a ≠ 192 ∨ b ≠ 0) ∨ c ≠ 2) as -> by lia.
  assert (a * 256 + b ≠ 49320 ↔ a ≠ 192 ∨ b ≠ 168) as -> by lia.
  assert (a * 128 + b / 2 ≠ 25353 ↔ a ≠ 198 ∨ b ≠ 18 ∧ b ≠ 19) as -> by div_N.
  assert (a * 65536 + b * 256 + c ≠ 12989284 ↔ (a ≠ 198 ∨ b ≠ 51) ∨ c ≠ 100) as -> by lia.
  assert (a * 65536 + b * 256 + c ≠ 13303921 ↔ (a ≠ 203 ∨ b ≠ 0) ∨ c ≠ 113) as -> by lia.
  assert (a / 16 ≠ 14 ↔ a < 224 ∨ 239 < a) as -> by div_N. assert (a / 16 ≠ 15 ↔ a < 240) as -> by div_N.
  split; intros; destruct_and!; split_and!; first [assumption|exact I].
Qed.

(** The lookup of locations is restricted to routable addresses: an IPv4 address passes
    the check exactly when it lies in none of the special-purpose blocks. *)
Theorem is_public_ipv4_spec (a b c d : N) :
  a < 256 → b < 256 → c < 256 → d < 256 →
  is_public_ipv4 a b c d = true ↔ ∀ block, block ∈ special_blocks → ¬ in_block block (ipv4_number a b c d).
Proof.
  intros Ha Hb Hc Hd. rewrite special_blocks_octets by done.
  unfold is_public_ipv4, is_private, is_loopback_v4, is_link_local, is_broadcast, is_documentation_v4, is_unspecified_v4, is_multicast_v4.
  assert (∀ x y : bool, (if x then false else y) = negb x && y) as Hif by (by intros [] []). rewrite !Hif. clear Hif.
  rewrite !andb_true_iff, !negb_true_iff, !orb_false_iff, !andb_false_iff, !N.eqb_neq, !N.leb_gt.
  assert (((b =? 18) || (b =? 19)) = false ↔ b ≠ 18 ∧ b ≠ 19) as -> by (rewrite orb_false_iff, !N.eqb_neq; done).
  split; intros; destruct_and!; split_and!; first [assumption|reflexivity|repeat match goal with H : _ ∨ _ |- _ => clear H end; lia].
Qed.

Lemma is_public_ipv4_spec_witness : is_public_ipv4 8 8 8 8 = true ∧ ∀ block, block ∈ special_blocks → ¬ in_block block (ipv4_number 8 8 8 8).
Proof. split; [done|]. by apply (is_public_ipv4_spec 8 8 8 8). Defined.
