(* ===== verification/Domain.v ===== *)
(** * Domain data

    [src/domain/mod.rs]: the entities the cluster replicates, the validators of
    their scalar fields and the domain errors with their API codes and
    messages.  [i16] fields are [Z], unsigned ones [N]. *)

From S2P Require Import Prelude Text.
Open Scope string_scope.

(** ** Errors *)

Inductive DomainError : Type :=
| InvalidPort (port : N)
| InvalidCycleDayOfMonth (day_of_month : N)
| InvalidTzOffsetMinutes (tz_offset_minutes : Z)
| InvalidNodeQuotaConfig (reason : string)
| MissingUser (user_id : string)
| MissingNode (node_id : string)
| MissingEndpoint (endpoint_id : string)
| EndpointChanged (endpoint_id : string)
| NodeInUse (node_id endpoint_id : string)
| NodeEndpointSetChanged (node_id : string)
| NodeLifecycleOperationActive (node_id : string)
| InvalidRealityServerName (server_name reason : string)
| InvalidAcceptedAuthority (authority reason : string)
| VlessRealityServerNamesEmpty (endpoint_id : string)
| RealityDomainNameConflict (server_name : string)
| RealityDomainNotFound (domain_id : string)
| RealityDomainsReorderInvalid (reason : string)
| RealityDomainsWouldBreakEndpoint (endpoint_id node_id : string).

#[global] Instance DomainError_eq_dec : EqDecision DomainError.
Proof. solve_decision. Defined.

Definition DomainError_code (e : DomainError) : string :=
  match e with
  | InvalidPort _ | InvalidCycleDayOfMonth _ | InvalidTzOffsetMinutes _
  | InvalidNodeQuotaConfig _ | MissingUser _ | MissingNode _ | MissingEndpoint _ => "invalid_request"
  | RealityDomainNotFound _ => "not_found"
  | NodeInUse _ _ | NodeEndpointSetChanged _ | NodeLifecycleOperationActive _ | EndpointChanged _ => "conflict"
  | RealityDomainNameConflict _ => "conflict"
  | InvalidRealityServerName _ _ | InvalidAcceptedAuthority _ _ | VlessRealityServerNamesEmpty _
  | RealityDomainsReorderInvalid _ | RealityDomainsWouldBreakEndpoint _ _ => "invalid_request"
  end.

Definition DomainError_display (e : DomainError) : string :=
  match e with
  | InvalidPort port => "invalid port: " +:+ pretty port
  | InvalidCycleDayOfMonth day => "invalid cycle_day_of_month: " +:+ pretty day
  | InvalidTzOffsetMinutes tz => "invalid tz_offset_minutes: " +:+ pretty tz
  | InvalidNodeQuotaConfig reason => "invalid node quota config: " +:+ reason
  | MissingUser user_id => "user not found: " +:+ user_id
  | MissingNode node_id => "node not found: " +:+ node_id
  | MissingEndpoint endpoint_id => "endpoint not found: " +:+ endpoint_id
  | EndpointChanged endpoint_id => "endpoint changed since the edit started: endpoint_id=" +:+ endpoint_id
  | NodeInUse node_id endpoint_id =>
      "node is still referenced by endpoints: node_id=" +:+ node_id +:+ " endpoint_id=" +:+ endpoint_id
  | NodeEndpointSetChanged node_id => "node endpoint set changed since delete preview: node_id=" +:+ node_id
  | NodeLifecycleOperationActive node_id =>
      "endpoint changes blocked by membership removal: node_id=" +:+ node_id
  | InvalidRealityServerName server_name reason =>
      "invalid reality server_name: " +:+ server_name +:+ " (" +:+ reason +:+ ")"
  | InvalidAcceptedAuthority authority reason =>
      "invalid accepted authority: " +:+ authority +:+ " (" +:+ reason +:+ ")"
  | VlessRealityServerNamesEmpty endpoint_id =>
      "vless reality server_names is empty: endpoint_id=" +:+ endpoint_id
  | RealityDomainNameConflict server_name => "reality domain already exists: " +:+ server_name
  | RealityDomainNotFound domain_id => "reality domain not found: " +:+ domain_id
  | RealityDomainsReorderInvalid reason => "invalid reality domains reorder: " +:+ reason
  | RealityDomainsWouldBreakEndpoint endpoint_id node_id =>
      "reality domains would break global endpoint: endpoint_id=" +:+ endpoint_id +:+ " node_id=" +:+ node_id
  end.

(** ** Scalar validators *)

Definition validate_port (port : N) : result unit DomainError :=
  if bool_decide (port = 0)%N then Err (InvalidPort port) else Ok tt.

Definition validate_cycle_day_of_month (day_of_month : N) : result unit DomainError :=
  if negb ((1 <=? day_of_month) && (day_of_month <=? 31))%N
  then Err (InvalidCycleDayOfMonth day_of_month) else Ok tt.

(** UTC-12 .. UTC+14. *)
Definition validate_tz_offset_minutes (tz_offset_minutes : Z) : result unit DomainError :=
  if negb ((-720 <=? tz_offset_minutes) && (tz_offset_minutes <=? 840))%Z
  then Err (InvalidTzOffsetMinutes tz_offset_minutes) else Ok tt.

(** ** Entities *)

Inductive EndpointKind : Type :=
| VlessRealityVisionTcp
| Ss2022_2022Blake3Aes128Gcm.
#[global] Instance EndpointKind_eq_dec : EqDecision EndpointKind.
Proof. solve_decision. Defined.
#[global] Instance EndpointKind_countable : Countable EndpointKind.
Proof.
  refine (inj_countable' (λ k, match k with VlessRealityVisionTcp => true | _ => false end)
            (λ b : bool, if b then VlessRealityVisionTcp else Ss2022_2022Blake3Aes128Gcm) _).
  by intros [].
Defined.

Inductive QuotaResetSource : Type := ResetByUser | ResetByNode.
#[global] Instance QuotaResetSource_eq_dec : EqDecision QuotaResetSource.
Proof. solve_decision. Defined.
Definition QuotaResetSource_default : QuotaResetSource := ResetByUser.

Inductive UserQuotaReset : Type :=
| UserUnlimited (tz_offset_minutes : Z)
| UserMonthly (day_of_month : N) (tz_offset_minutes : Z).
#[global] Instance UserQuotaReset_eq_dec : EqDecision UserQuotaReset.
Proof. solve_decision. Defined.
Definition UserQuotaReset_default : UserQuotaReset := UserMonthly 1 480.

Inductive NodeQuotaReset : Type :=
| NodeUnlimited (tz_offset_minutes : option Z)
| NodeMonthly (day_of_month : N) (tz_offset_minutes : option Z).
#[global] Instance NodeQuotaReset_eq_dec : EqDecision NodeQuotaReset.
Proof. solve_decision. Defined.
Definition NodeQuotaReset_default : NodeQuotaReset := NodeMonthly 1 None.

Record Node : Type := mkNode {
  n_node_id : string;
  n_node_name : string;
  n_access_host : string;
  n_api_base_url : string;
  n_quota_limit_bytes : N;
  n_quota_reset : NodeQuotaReset;
}.
#[global] Instance Node_eq_dec : EqDecision Node.
Proof. solve_decision. Defined.
#[export] Instance Node_eta : Eta Node := λ r,
  mkNode (n_node_id r) (n_node_name r) (n_access_host r) (n_api_base_url r) (n_quota_limit_bytes r) (n_quota_reset r).

Inductive UserPriorityTier : Type := P1 | P2 | P3.
#[global] Instance UserPriorityTier_eq_dec : EqDecision UserPriorityTier.
Proof. solve_decision. Defined.
Definition UserPriorityTier_default : UserPriorityTier := P2.

Record User : Type := mkUser {
  u_user_id : string;
  u_display_name : string;
  u_subscription_token : string;
  u_credential_epoch : N;
  u_priority_tier : UserPriorityTier;
  u_quota_reset : UserQuotaReset;
}.
#[global] Instance User_eq_dec : EqDecision User.
Proof. solve_decision. Defined.
#[export] Instance User_eta : Eta User := λ r,
  mkUser (u_user_id r) (u_display_name r) (u_subscription_token r) (u_credential_epoch r) (u_priority_tier r) (u_quota_reset r).

Record UserNodeQuota : Type := mkUserNodeQuota {
  unq_user_id : string;
  unq_node_id : string;
  unq_quota_limit_bytes : N;
  unq_quota_reset_source : QuotaResetSource;
}.
#[global] Instance UserNodeQuota_eq_dec : EqDecision UserNodeQuota.
Proof. solve_decision. Defined.

Record RealityDomain : Type := mkRealityDomain {
  d_domain_id : string;
  d_server_name : string;
  d_disabled_node_ids : gset string;
}.
#[global] Instance RealityDomain_eq_dec : EqDecision RealityDomain.
Proof. solve_decision. Defined.
#[export] Instance RealityDomain_eta : Eta RealityDomain := λ r,
  mkRealityDomain (d_domain_id r) (d_server_name r) (d_disabled_node_ids r).

(** ** JSON values

    [serde_json::Value]; objects are maps from keys to values and numbers are
    integers (no endpoint metadata field of the sources is fractional). *)
#[local] Unset Elimination Schemes.
Inductive json : Type :=
| JNull
| JBool (b : bool)
| JNumber (n : Z)
| JString (s : string)
| JArray (l : list json)
| JObject (o : gmap string json).
#[local] Set Elimination Schemes.

#[global] Instance json_eq_dec : EqDecision json.
Proof.
  refine (fix go (x y : json) {struct x} : Decision (x = y) :=
    let _ : EqDecision json := @go in
    match x, y with
    | JNull, JNull => left _
    | JBool a, JBool b => cast_if (decide (a = b))
    | JNumber a, JNumber b => cast_if (decide (a = b))
    | JString a, JString b => cast_if (decide (a = b))
    | JArray a, JArray b => cast_if (decide (a = b))
    | JObject a, JObject b => cast_if (decide (a = b))
    | _, _ => right _
    end); abstract congruence.
Defined.

Definition json_get (k : string) (v : json) : option json :=
  match v with JObject o => o !! k | _ => None end.

(** [if let Some(o) = v.as_object_mut() { o.remove(k); }] *)
Definition json_remove (k : string) (v : json) : json :=
  match v with JObject o => JObject (delete k o) | _ => v end.

Record Endpoint : Type := mkEndpoint {
  e_endpoint_id : string;
  e_node_id : string;
  e_tag : string;
  e_kind : EndpointKind;
  e_port : N;
  e_meta : json;
}.
#[global] Instance Endpoint_eq_dec : EqDecision Endpoint.
Proof. solve_decision. Defined.
#[export] Instance Endpoint_eta : Eta Endpoint := λ r,
  mkEndpoint (e_endpoint_id r) (e_node_id r) (e_tag r) (e_kind r) (e_port r) (e_meta r).

(** * Lemmas *)

Lemma validate_port_ok port : validate_port port = Ok tt ↔ port ≠ 0%N.
Proof. unfold validate_port. case_bool_decide; split; congruence. Qed.

Lemma validate_cycle_day_of_month_ok d : validate_cycle_day_of_month d = Ok tt ↔ (1 ≤ d ≤ 31)%N.
Proof.
  unfold validate_cycle_day_of_month.
  destruct (N.leb_spec 1 d), (N.leb_spec d 31); simpl; split; try done; lia.
Qed.

Lemma validate_tz_offset_minutes_ok tz : validate_tz_offset_minutes tz = Ok tt ↔ (-720 ≤ tz ≤ 840)%Z.
Proof.
  unfold validate_tz_offset_minutes.
  destruct (Z.leb_spec (-720) tz), (Z.leb_spec tz 840); simpl; split; try done; lia.
Qed.

Lemma json_get_remove k v : json_get k (json_remove k v) = None.
Proof. destruct v as [| | | | |o]; simpl; [done..|]. apply lookup_delete_eq. Qed.
Lemma json_get_remove_ne k k' v : k ≠ k' → json_get k' (json_remove k v) = json_get k' v.
Proof. intros. destruct v as [| | | | |o]; simpl; [done..|]. by apply lookup_delete_ne. Qed.
