(* ===== verification/QuotaPolicy.v ===== *)
(** * Quota arithmetic

    [src/quota_policy.rs]: how a node's byte budget is split between users by
    weight, how a user's share is released day by day, and how a token bank is
    replayed over missed days.  All quantities are [u64] (days and weights are
    [u32] and [u16]); the intermediate products are [u128] as in the source. *)

From S2P Require Import Prelude.
Open Scope N_scope.

Definition DEFAULT_USER_NODE_WEIGHT : N := 100.

Definition buffer_bytes (quota_limit_bytes : N) : N :=
  let pct := quota_limit_bytes / 200 in
  N.max (256 * 1024 * 1024) pct.

Definition distributable_bytes (quota_limit_bytes : N) : N :=
  if decide (quota_limit_bytes = 0) then 0
  else sat_sub quota_limit_bytes (buffer_bytes quota_limit_bytes).

(** [iter().sum::<u64>()]; release builds wrap. *)
Definition sum_u64 (l : list N) : N := foldl (λ acc x, wrapping u64_max (acc + x)) 0 l.

(** [*v = v.saturating_add(k)] on [&mut out[idx]]; [idx] is always in range here. *)
Definition add_at {I} (k : N) (out : list (I * N)) (idx : nat) : list (I * N) :=
  alter (λ iv, (iv.1, sat_add u64_max iv.2 k)) idx out.

(** The indices of the positive weights, in order. *)
Fixpoint positive_indices (start : nat) (weights : list N) : list nat :=
  match weights with
  | [] => []
  | w :: weights => (if (0 <? w) then [start] else []) ++ positive_indices (S start) weights
  end.

Definition effective_weights {I} (items : list (I * N)) : list N :=
  let weights := items.*2 in
  if decide (sum_u64 weights = 0) then map (λ _, 1) weights else weights.

Definition allocate_total_by_weight {I} (total : N) (items : list (I * N)) : list (I * N) :=
  if decide (items = []) then [] else
  let weights := effective_weights items in
  let sum_w := sum_u64 weights in
  let shares := map (λ w64, (total * w64) / sum_w) weights in
  let out := zip_with (λ item v128, (item.1, wrapping u64_max v128)) items shares in
  let allocated := foldl (sat_add u128_max) 0 shares in
  let rem := wrapping u64_max (sat_sub total allocated) in
  if (0 <? rem) then
    let eligible := positive_indices 0 weights in
    let n := N.of_nat (length eligible) in
    match checked_div rem n with
    | Some per =>
        let extra := rem mod n in
        let out := if (0 <? per) then foldl (add_at per) out eligible else out in
        foldl (add_at 1) out (take (N.to_nat extra) eligible)
    | None => out
    end
  else out.

Definition daily_credit_bytes (base_quota_bytes cycle_days day_index : N) : N :=
  if decide (cycle_days = 0) then 0 else
  let base := base_quota_bytes / cycle_days in
  let rem := base_quota_bytes mod cycle_days in
  let bump := day_index <? rem in
  wrapping u64_max (base + if bump then 1 else 0).

Definition cap_bytes_for_day (base_quota_bytes cycle_days day_index carry_days : N) : N :=
  if decide (carry_days = 0 ∨ cycle_days = 0) then 0 else
  let start := sat_sub day_index (sat_sub carry_days 1) in
  foldl (λ sum i, sat_add u64_max sum (daily_credit_bytes base_quota_bytes cycle_days i)) 0
    (range_incl start day_index).

(** Returns the bank and what overflowed the cap. *)
Definition apply_daily_rollover (bank_bytes base_quota_bytes cycle_days day_index carry_days : N) : N * N :=
  let credit := daily_credit_bytes base_quota_bytes cycle_days day_index in
  let cap := cap_bytes_for_day base_quota_bytes cycle_days day_index carry_days in
  let next := sat_add u64_max bank_bytes credit in
  if (cap <? next) then (cap, next - cap) else (next, 0).

(** One day of the replay loop: refill, clamp, spend what can be spent. *)
Definition replay_day (base_quota_bytes cycle_days carry_days : N) (st : N * N) (day : N) : N * N :=
  let '(bank, remaining) := st in
  let credit := daily_credit_bytes base_quota_bytes cycle_days day in
  let cap := cap_bytes_for_day base_quota_bytes cycle_days day carry_days in
  let bank := sat_add u64_max bank credit in
  let bank := if (cap <? bank) then cap else bank in
  if decide (remaining = 0) then (bank, remaining) else
  let spend_today := N.min remaining bank in
  (sat_sub bank spend_today, sat_sub remaining spend_today).

(** Returns the bank and the bytes that could not be spent. *)
Definition replay_rollovers_and_spend
    (starting_bank_bytes spend_bytes base_quota_bytes cycle_days day_start day_end carry_days : N) : N * N :=
  if decide (cycle_days = 0 ∨ carry_days = 0 ∨ day_end < day_start)
  then (starting_bank_bytes, spend_bytes)
  else foldl (replay_day base_quota_bytes cycle_days carry_days) (starting_bank_bytes, spend_bytes)
         (range_incl day_start day_end).

Example allocate_examples :
  allocate_total_by_weight 5 [("a", 1); ("b", 1); ("c", 1)] = [("a", 2); ("b", 2); ("c", 1)] ∧
  allocate_total_by_weight 3 [("a", 0); ("b", 0)] = [("a", 2); ("b", 1)] ∧
  allocate_total_by_weight u64_max [("a", u16_max); ("b", u16_max)]
    = [("a", u64_max / 2 + 1); ("b", u64_max / 2)] ∧
  allocate_total_by_weight 1 [("a", 0); ("b", 2); ("c", 1)] = [("a", 0); ("b", 1); ("c", 0)].
Proof. vm_compute. done. Qed.
Example replay_example : replay_rollovers_and_spend 11 21 311 31 1 2 2 = (10, 0).
Proof. reflexivity. Qed.

(** * Splitting a budget by weight *)

Lemma sum_u64_small l : sumN l ≤ u64_max → sum_u64 l = sumN l.
Proof.
  unfold sum_u64. intros H.
  enough (∀ acc, acc + sumN l ≤ u64_max →
    foldl (λ acc x, wrapping u64_max (acc + x)) acc l = acc + sumN l) as Hgen
    by (rewrite Hgen; lia).
  clear H. induction l as [|x l IH]; intros acc Hacc; simpl in *; [lia|].
  rewrite IH; rewrite wrapping_small by lia; lia.
Qed.

Lemma foldl_sat_add_small m l acc : acc + sumN l ≤ m → foldl (sat_add m) acc l = acc + sumN l.
Proof.
  revert acc; induction l as [|x l IH]; intros acc H; simpl in *; [lia|].
  rewrite IH; unfold sat_add; lia.
Qed.

Lemma sumN_const c {A} (l : list A) : sumN (map (λ _, c) l) = c * N.of_nat (length l).
Proof. induction l as [|x l IH]; simpl; lia. Qed.

Lemma sumN_bound c l : Forall (λ x, x ≤ c) l → sumN l ≤ c * N.of_nat (length l).
Proof. induction 1; simpl; lia. Qed.

Lemma positive_indices_lookup ws s i : i ∈ positive_indices s ws ↔ ∃ w, (s ≤ i)%nat ∧ ws !! (i - s)%nat = Some w ∧ 0 < w.
Proof.
  revert s; induction ws as [|w ws IH]; intros s; simpl.
  { rewrite elem_of_nil. split; [done|]. intros (w & _ & Hw & _). by rewrite lookup_nil in Hw. }
  rewrite elem_of_app, IH. destruct (decide (i = s)) as [->|Hne].
  - rewrite Nat.sub_diag. simpl. destruct (N.ltb_spec 0 w) as [H|H].
    + split; [intros _; exists w; split_and!; [lia|done..]|intros _; left; by apply list_elem_of_singleton].
    + split; [intros [Hn|(w' & Hle & _)]|intros (w' & _ & Hw & ?)]; [by apply elem_of_nil in Hn|lia|].
      simplify_eq. lia.
  - split.
    + intros [Hin|(w' & Hle & Hl & Hp)].
      * destruct (0 <? w); [|by apply elem_of_nil in Hin]. by apply list_elem_of_singleton in Hin.
      * exists w'. split_and!; [lia| |done]. by replace (i - s)%nat with (S (i - S s))%nat by lia.
    + intros (w' & Hle & Hl & Hp). right. exists w'. split_and!; [lia| |done].
      by replace (i - s)%nat with (S (i - S s))%nat in Hl by lia.
Qed.

Lemma positive_indices_NoDup ws s : NoDup (positive_indices s ws).
Proof.
  revert s; induction ws as [|w ws IH]; intros s; simpl; [constructor|].
  destruct (0 <? w); simpl; [|apply IH]. constructor; [|apply IH].
  intros (w' & Hle & _)%positive_indices_lookup. lia.
Qed.

Lemma positive_indices_le_length ws s : (length (positive_indices s ws) ≤ length ws)%nat.
Proof.
  revert s; induction ws as [|w ws IH]; intros s; simpl; [lia|]. specialize (IH (S s)).
  rewrite length_app. destruct (0 <? w); simpl; lia.
Qed.

(** Division with remainder, summed over the weights. *)
Lemma floor_sum t S ws s :
  0 < S →
  S * sumN (map (λ w, t * w / S) ws) + sumN (map (λ w, (t * w) mod S) ws) = t * sumN ws ∧
  sumN (map (λ w, (t * w) mod S) ws) ≤ (S - 1) * N.of_nat (length (positive_indices s ws)).
Proof.
  intros HS. revert s; induction ws as [|w ws IH]; intros s; simpl; [nia|].
  destruct (IH (Datatypes.S s)) as [IH1 IH2]. clear IH.
  pose proof (N.div_mod' (t * w) S) as Hdm. pose proof (N.mod_lt (t * w) S ltac:(lia)) as Hlt.
  rewrite length_app. split; [lia|].
  destruct (N.ltb_spec 0 w); simpl.
  - rewrite Nat2N.inj_succ. nia.
  - replace w with 0 by lia. rewrite N.mul_0_r, N.Div0.mod_0_l. lia.
Qed.

Lemma positive_indices_nonempty ws s : 0 < sumN ws → (0 < length (positive_indices s ws))%nat.
Proof.
  revert s; induction ws as [|w ws IH]; intros s Hs; simpl in *; [lia|].
  rewrite length_app. destruct (N.ltb_spec 0 w); simpl; [lia|]. apply IH. lia.
Qed.

Lemma floor_remainder t ws s :
  0 < sumN ws →
  let F := sumN (map (λ w, t * w / sumN ws) ws) in
  F ≤ t ∧ t - F < N.of_nat (length (positive_indices s ws)).
Proof.
  intros HS F. destruct (floor_sum t (sumN ws) ws s HS) as [H1 H2]. fold F in H1.
  pose proof (positive_indices_nonempty ws s HS) as Hn.
  set (R := sumN (map (λ w, (t * w) mod sumN ws) ws)) in *.
  set (n := N.of_nat (length (positive_indices s ws))) in *.
  set (W := sumN ws) in *. clearbody F R. assert (0 < n) by lia. clearbody n W.
  assert (F ≤ t) by (apply (N.mul_le_mono_pos_l F t W); lia). split; [done|].
  apply (N.mul_lt_mono_pos_l W); [done|]. rewrite N.mul_sub_distr_l. nia.
Qed.

Section AddAt.
Context {I : Type}.
Implicit Types out : list (I * N).

Lemma add_at_lookup k out idxs i :
  NoDup idxs →
  foldl (add_at k) out idxs !! i =
  (λ iv, (iv.1, if decide (i ∈ idxs) then sat_add u64_max iv.2 k else iv.2)) <$> out !! i.
Proof.
  intros Hnd. revert out; induction Hnd as [|j js Hj Hnd IH]; intros out; simpl.
  - by destruct (out !! i) as [[]|].
  - rewrite IH. unfold add_at. destruct (decide (i = j)) as [->|Hij].
    + rewrite list_lookup_alter_eq. destruct (out !! j) as [[a v]|]; simpl; [|done].
      rewrite decide_False by done. by rewrite decide_True by (by left).
    + rewrite list_lookup_alter_ne by done. destruct (out !! i) as [[a v]|]; simpl; [|done].
      do 2 f_equal. apply decide_ext. rewrite elem_of_cons. tauto.
Qed.

Lemma add_at_sum_one k out idx :
  (idx < length out)%nat → sumN out.*2 + k ≤ u64_max →
  sumN (add_at k out idx).*2 = sumN out.*2 + k.
Proof.
  revert idx; induction out as [|[a v] out IH]; intros [|idx] Hlt Hs; csimpl in *; [lia..| |].
  - unfold sat_add. lia.
  - change (add_at k ((a, v) :: out) (S idx)) with ((a, v) :: add_at k out idx).
    csimpl. rewrite IH; lia.
Qed.

Lemma add_at_length k out idxs : length (foldl (add_at k) out idxs) = length out.
Proof. revert out; induction idxs as [|i l IH]; intros out; simpl; [done|]. rewrite IH. apply length_alter. Qed.

Lemma add_at_sum k out idxs :
  Forall (λ i, (i < length out)%nat) idxs →
  sumN out.*2 + k * N.of_nat (length idxs) ≤ u64_max →
  sumN (foldl (add_at k) out idxs).*2 = sumN out.*2 + k * N.of_nat (length idxs).
Proof.
  intros Hall. revert out Hall; induction idxs as [|i idxs IH]; intros out Hall Hs; simpl in *; [lia|].
  apply Forall_cons in Hall as [Hi Hall].
  assert (sumN (add_at k out i).*2 = sumN out.*2 + k) as Hsum by (apply add_at_sum_one; [done|nia]).
  rewrite IH; rewrite ?Hsum; [nia| |nia].
  eapply Forall_impl; [done|]. intros j. unfold add_at. by rewrite length_alter.
Qed.
End AddAt.

Lemma zip_ids_values {I} (items : list (I * N)) (vs : list N) :
  length vs = length items → (zip_with (λ item v, (item.1, v)) items vs).*2 = vs.
Proof.
  revert vs; induction items as [|it l IH]; intros [|v vs] Hl; csimpl in *; try done.
  f_equal. apply IH. lia.
Qed.

(** What the callers guarantee: [u16] weights, a [u64] total and a list that fits in memory. *)
Record alloc_pre {I} (total : N) (items : list (I * N)) : Prop := {
  alloc_total : total ≤ u64_max;
  alloc_weights : Forall (λ it, it.2 ≤ u16_max) items;
  alloc_length : N.of_nat (length items) ≤ u32_max;
}.

Section Allocate.
Context {I : Type} (total : N) (items : list (I * N)) (Hpre : alloc_pre total items) (Hne : items ≠ []).

Let ws := effective_weights items.

Lemma items_sum_bound : sumN items.*2 ≤ u64_max.
Proof using Hpre.
  destruct Hpre as [_ Hw Hl]. etrans; [apply (sumN_bound u16_max)|].
  - rewrite Forall_fmap. eapply Forall_impl; [exact Hw|]. by intros [].
  - rewrite length_fmap. unfold u16_max, u32_max, u64_max in *. nia.
Qed.

Lemma effective_weights_length : length ws = length items.
Proof using Type.
  unfold ws, effective_weights. case_decide; rewrite ?length_map, ?length_fmap; done.
Qed.

Lemma effective_weights_sum : 0 < sumN ws ≤ u64_max ∧ sum_u64 ws = sumN ws.
Proof using Hpre Hne.
  pose proof items_sum_bound as Hb.
  assert (0 < sumN ws ≤ u64_max) as Hws; [|split; [done|apply sum_u64_small; lia]].
  unfold ws, effective_weights. rewrite sum_u64_small by done. case_decide; [|lia].
  rewrite sumN_const, length_fmap. destruct Hpre as [_ _ Hl].
  destruct items as [|i l]; [done|]. simpl length in *. unfold u32_max, u64_max in *. lia.
Qed.

Let shares := map (λ w, total * w / sumN ws) ws.

Lemma shares_sum_le : sumN shares ≤ total ∧ total - sumN shares < N.of_nat (length (positive_indices 0 ws)).
Proof using Hpre Hne. apply floor_remainder, effective_weights_sum. Qed.

Let out0 := zip_with (λ (item : I * N) v, (item.1, v)) items shares.

(** The remainder is smaller than the number of positive weights, so the loop that
    hands out [per] bytes each never runs and the first [rem] eligible items get one
    byte more. *)
Lemma allocate_shape :
  allocate_total_by_weight total items =
  foldl (add_at 1) out0 (take (N.to_nat (total - sumN shares)) (positive_indices 0 ws)).
Proof using Hpre Hne.
  destruct effective_weights_sum as [HS Hsum]. destruct shares_sum_le as [Hle Hrem].
  pose proof (alloc_total _ _ Hpre) as Ht.
  unfold allocate_total_by_weight. rewrite decide_False by done. fold ws. rewrite Hsum. fold shares.
  rewrite (foldl_sat_add_small u128_max shares 0) by (unfold u128_max, u64_max in *; lia).
  rewrite N.add_0_l. unfold sat_sub. rewrite (wrapping_small u64_max (total - sumN shares)) by lia.
  assert (zip_with (λ (item : I * N) v128, (item.1, wrapping u64_max v128)) items shares = out0) as ->.
  { unfold out0. apply list_eq. intros i. rewrite !lookup_zip_with.
    destruct (items !! i) as [it|]; simpl; [|done]. destruct (shares !! i) as [v|] eqn:Hv; simpl; [|done].
    rewrite wrapping_small; [done|]. apply list_elem_of_lookup_2, sumN_elem_le in Hv. lia. }
  destruct (N.ltb_spec 0 (total - sumN shares)) as [H0|H0].
  - unfold checked_div. rewrite decide_False by lia.
    rewrite (N.div_small (total - sumN shares)), (N.mod_small (total - sumN shares)) by lia. done.
  - by replace (total - sumN shares) with 0 by lia.
Qed.

Lemma shares_length : length shares = length items.
Proof using Type. unfold shares. rewrite length_map. apply effective_weights_length. Qed.

Lemma out0_values : out0.*2 = shares.
Proof using Type. apply zip_ids_values, shares_length. Qed.

Lemma allocate_sum : sumN (allocate_total_by_weight total items).*2 = total.
Proof using Hpre Hne.
  rewrite allocate_shape. destruct shares_sum_le as [Hle Hrem]. pose proof (alloc_total _ _ Hpre) as Ht.
  rewrite add_at_sum.
  - rewrite out0_values, length_take. lia.
  - apply Forall_take, Forall_forall. intros i (w & _ & Hw & _)%positive_indices_lookup.
    rewrite Nat.sub_0_r in Hw. apply lookup_lt_Some in Hw. unfold out0.
    rewrite length_zip_with, shares_length, effective_weights_length in *. lia.
  - rewrite out0_values, length_take. lia.
Qed.

Lemma allocate_length : length (allocate_total_by_weight total items) = length items.
Proof using Hpre Hne.
  rewrite allocate_shape, add_at_length. unfold out0. rewrite length_zip_with, shares_length. lia.
Qed.

Lemma allocate_lookup i id w :
  items !! i = Some (id, w) →
  ∃ w' v, ws !! i = Some w' ∧ allocate_total_by_weight total items !! i = Some (id, v) ∧
    total * w' / sumN ws ≤ v ≤ total * w' / sumN ws + 1 ∧ (w' = 0 → v = 0).
Proof using Hpre Hne.
  intros Hi. pose proof (alloc_total _ _ Hpre) as Ht. destruct shares_sum_le as [Hle Hrem].
  destruct effective_weights_sum as [HS _].
  assert (is_Some (ws !! i)) as [w' Hw'].
  { apply lookup_lt_is_Some. rewrite effective_weights_length. by eapply lookup_lt_Some. }
  assert (shares !! i = Some (total * w' / sumN ws)) as Hsh.
  { unfold shares. change (map ?f ws) with (f <$> ws). rewrite list_lookup_fmap, Hw'. done. }
  rewrite allocate_shape, add_at_lookup by (apply NoDup_prefix_take, positive_indices_NoDup).
  unfold out0. rewrite lookup_zip_with, Hi. simpl. rewrite Hsh. simpl.
  eexists w', _. split_and!; [done|done| | |].
  - case_decide; [|done]. pose proof (sumN_elem_le _ _ (list_elem_of_lookup_2 _ _ _ Hsh)) as Hb.
    unfold sat_add. lia.
  - case_decide; unfold sat_add; lia.
  - intros ->. rewrite decide_False; [by rewrite N.mul_0_r, N.Div0.div_0_l|].
    intros Hin. apply elem_of_take in Hin as (j & Hj & _). apply list_elem_of_lookup_2 in Hj.
    apply positive_indices_lookup in Hj as (w2 & _ & Hw2 & Hpos).
    rewrite Nat.sub_0_r in Hw2. by simplify_eq.
Qed.

Lemma allocate_ids : (allocate_total_by_weight total items).*1 = items.*1.
Proof using Hpre Hne.
  apply list_eq. intros i. rewrite !list_lookup_fmap.
  destruct (items !! i) as [[id w]|] eqn:Hi.
  - destruct (allocate_lookup i id w Hi) as (w' & v & _ & -> & _). done.
  - assert (allocate_total_by_weight total items !! i = None) as ->; [|done].
    apply lookup_ge_None. apply lookup_ge_None in Hi. rewrite allocate_length. done.
Qed.
End Allocate.

(** * Daily release of a share *)

Lemma daily_credit_eq base days i :
  base ≤ u64_max → days ≠ 0 →
  daily_credit_bytes base days i = base / days + if i <? base mod days then 1 else 0.
Proof.
  intros Hb Hd. unfold daily_credit_bytes. rewrite decide_False by done. apply wrapping_small.
  pose proof (N.div_mod' base days) as H1.
  set (q := base / days) in *. set (r := base mod days) in *. clearbody q r.
  destruct (N.ltb_spec i r); nia.
Qed.

Lemma daily_credit_le base days i : base ≤ u64_max → daily_credit_bytes base days i ≤ base.
Proof.
  intros Hb. destruct (decide (days = 0)) as [->|Hd]; [unfold daily_credit_bytes; simpl; lia|].
  rewrite daily_credit_eq by done. pose proof (N.div_mod' base days).
  set (q := base / days) in *. set (r := base mod days) in *. clearbody q r.
  destruct (N.ltb_spec i r); nia.
Qed.

(** The credits of the first [k] days. *)
Lemma daily_credit_prefix base days k :
  base ≤ u64_max → days ≠ 0 →
  sumN (map (λ i, daily_credit_bytes base days (N.of_nat i)) (seq 0 k)) =
  N.of_nat k * (base / days) + N.min (N.of_nat k) (base mod days).
Proof.
  intros Hb Hd. induction k as [|k IH]; [simpl; by rewrite N.mul_0_l, N.min_0_l|].
  rewrite seq_S, map_app, sumN_app, IH. simpl. rewrite daily_credit_eq by done.
  set (q := base / days). set (r := base mod days). clearbody q r.
  destruct (N.ltb_spec (N.of_nat k) r); nia.
Qed.

Lemma cap_small base days day carry :
  base ≤ u64_max → days ≠ 0 → carry ≠ 0 →
  cap_bytes_for_day base days day carry =
  N.min (sumN (map (daily_credit_bytes base days) (range_incl (day - (carry - 1)) day))) u64_max.
Proof.
  intros Hb Hd Hc. unfold cap_bytes_for_day. rewrite decide_False by tauto. unfold sat_sub.
  set (l := range_incl _ _). clearbody l.
  enough (∀ acc, acc ≤ u64_max →
    foldl (λ sum i, sat_add u64_max sum (daily_credit_bytes base days i)) acc l =
    N.min (acc + sumN (map (daily_credit_bytes base days) l)) u64_max) as Hgen by (rewrite Hgen; lia).
  induction l as [|x l IH]; intros acc Hacc; simpl; [lia|].
  rewrite IH; unfold sat_add; lia.
Qed.

Lemma cap_le_max base days day carry : base ≤ u64_max → cap_bytes_for_day base days day carry ≤ u64_max.
Proof.
  intros Hb. destruct (decide (carry = 0 ∨ days = 0)) as [H|H].
  - unfold cap_bytes_for_day. rewrite decide_True by done. lia.
  - rewrite cap_small by tauto. lia.
Qed.

(** Today's credit is part of today's cap. *)
Lemma credit_le_cap base days day carry :
  base ≤ u64_max → days ≠ 0 → carry ≠ 0 →
  daily_credit_bytes base days day ≤ cap_bytes_for_day base days day carry.
Proof.
  intros Hb Hd Hc. rewrite cap_small by done. pose proof (daily_credit_le base days day Hb).
  apply N.min_glb; [|lia]. apply sumN_elem_le. apply list_elem_of_fmap.
  exists day. split; [done|]. apply elem_of_range_incl. lia.
Qed.

(** * Replay

    A schedule spends [s] bytes on each day of the gap out of that day's bank.  *)
Section Replay.
Context (base days carry : N).

Definition refill (bank day : N) : N :=
  N.min (sat_add u64_max bank (daily_credit_bytes base days day)) (cap_bytes_for_day base days day carry).

Inductive schedule : N → list N → N → N → Prop :=
| schedule_nil bank : schedule bank [] 0 bank
| schedule_day bank day gap s total final :
    s ≤ refill bank day →
    schedule (refill bank day - s) gap total final →
    schedule bank (day :: gap) (s + total) final.

Lemma replay_day_eq bank remaining day :
  replay_day base days carry (bank, remaining) day =
  (refill bank day - N.min remaining (refill bank day), remaining - N.min remaining (refill bank day)).
Proof.
  unfold replay_day, refill, sat_sub.
  destruct (N.ltb_spec (cap_bytes_for_day base days day carry) (sat_add u64_max bank (daily_credit_bytes base days day)));
    case_decide; subst; f_equal; lia.
Qed.

(** The replay is itself a schedule: it spends [spend - remaining]. *)
Lemma replay_is_schedule gap bank spend bank' remaining :
  foldl (replay_day base days carry) (bank, spend) gap = (bank', remaining) →
  remaining ≤ spend ∧ schedule bank gap (spend - remaining) bank'.
Proof.
  revert bank spend; induction gap as [|day gap IH]; intros bank spend; cbn [foldl].
  - intros [= -> ->]. split; [lia|]. replace (remaining - remaining) with 0 by lia. constructor.
  - rewrite replay_day_eq. set (s := N.min spend (refill bank day)). intros (Hle & Hsch)%IH.
    assert (s ≤ spend) by lia. split; [lia|].
    replace (spend - remaining) with (s + (spend - s - remaining)) by lia.
    constructor; [lia|done].
Qed.

Lemma replay_remaining_le gap bank spend bank' remaining :
  foldl (replay_day base days carry) (bank, spend) gap = (bank', remaining) → remaining ≤ spend.
Proof. intros H. by destruct (replay_is_schedule _ _ _ _ _ H). Qed.

Lemma refill_mono b b' day : b ≤ b' → refill b day ≤ refill b' day ∧ refill b' day - refill b day ≤ b' - b.
Proof. unfold refill, sat_add. lia. Qed.

(** Earliest-first spending dominates: while the replay still has bytes left to spend,
    no schedule that starts with a bank of [bs] spends more than the replay does,
    beyond the head start [bs - bg]. *)
Lemma replay_dominates gap bg bs spend t final bank' remaining :
  bg ≤ bs →
  schedule bs gap t final →
  foldl (replay_day base days carry) (bg, spend) gap = (bank', remaining) →
  0 < remaining →
  t ≤ (spend - remaining) + (bs - bg).
Proof.
  intros Hle Hsch. revert bg spend Hle.
  induction Hsch as [bs|bs day gap s t final Hs Hsch IH]; intros bg spend Hle Hrep Hrem; [lia|].
  cbn [foldl] in Hrep. rewrite replay_day_eq in Hrep.
  pose proof (replay_remaining_le _ _ _ _ _ Hrep) as Hrem'.
  destruct (refill_mono bg bs day Hle) as [Hm1 Hm2].
  replace (N.min spend (refill bg day)) with (refill bg day) in * by lia.
  rewrite N.sub_diag in Hrep. specialize (IH 0 (spend - refill bg day) ltac:(lia) Hrep Hrem). lia.
Qed.
End Replay.

(** * Properties *)

(** Every share is within a byte of its proportional part. *)
Lemma allocate_fair {I} (total : N) (items : list (I * N)) i id w :
  alloc_pre total items → items !! i = Some (id, w) →
  let W := sumN items.*2 in
  ∃ v, allocate_total_by_weight total items !! i = Some (id, v) ∧
    (W ≠ 0 → total * w / W ≤ v ≤ total * w / W + 1 ∧ (w = 0 → v = 0)) ∧
    (W = 0 → total / N.of_nat (length items) ≤ v ≤ total / N.of_nat (length items) + 1).
Proof.
  intros Hpre Hi W. assert (items ≠ []) as Hne by (by intros ->).
  destruct (allocate_lookup total items Hpre Hne i id w Hi) as (w' & v & Hw' & Hv & Hbound & Hz).
  exists v. split; [done|]. unfold effective_weights in *.
  rewrite sum_u64_small in * by (by eapply items_sum_bound). fold W in Hw', Hbound.
  case_decide as HW; (split; [intros HW'|intros HW']; try done).
  - rewrite sumN_const, length_fmap, N.mul_1_l in Hbound.
    change (map ?f items.*2) with (f <$> items.*2) in Hw'.
    rewrite !list_lookup_fmap, Hi in Hw'. simpl in Hw'. simplify_eq. by rewrite N.mul_1_r in Hbound.
  - rewrite list_lookup_fmap, Hi in Hw'. simpl in Hw'. by simplify_eq.
Qed.

(** C38: splitting a budget by weight is exact and fair.  The recipients are the input items in
    their order and the shares add up to [total], so no byte of the node quota is lost or
    invented by rounding; and each share is proportional to within one byte: an item of weight
    [w] gets the integer part of [total * w / sum of weights] or one byte more, a zero weight
    gets nothing as long as some weight is positive, and when every weight is zero the budget is
    split equally. *)
Theorem allocate_total_by_weight_spec {I} (total : N) (items : list (I * N)) :
  alloc_pre total items → items ≠ [] →
  (allocate_total_by_weight total items).*1 = items.*1 ∧
  sumN (allocate_total_by_weight total items).*2 = total ∧
  ∀ i id w, items !! i = Some (id, w) →
    let W := sumN items.*2 in
    ∃ v, allocate_total_by_weight total items !! i = Some (id, v) ∧
      (W ≠ 0 → total * w / W ≤ v ≤ total * w / W + 1 ∧ (w = 0 → v = 0)) ∧
      (W = 0 → total / N.of_nat (length items) ≤ v ≤ total / N.of_nat (length items) + 1).
Proof.
  intros Hpre Hne. split_and!; [by apply allocate_ids|by apply allocate_sum|]. intros i id w. by apply allocate_fair.
Qed.

Lemma allocate_total_by_weight_spec_witness :
  let items := [("alice", 3); ("bob", 0); ("carol", 4)] in
  sumN (allocate_total_by_weight 1000 items).*2 = 1000 ∧
  ∃ v, allocate_total_by_weight 1000 items !! 2%nat = Some ("carol", v) ∧ 571 ≤ v ≤ 572.
Proof.
  intros items. destruct (allocate_total_by_weight_spec 1000 items) as (_ & Hsum & Hfair).
  - split; [by vm_compute|repeat constructor; by vm_compute|by vm_compute].
  - discriminate.
  - split; [exact Hsum|]. destruct (Hfair 2%nat "carol" 4 eq_refl) as (v & Hv & Hw & _). exists v. split; [exact Hv|]. by destruct Hw as [Hw _].
Defined.

(** The daily credits of a cycle add up to the user's base quota exactly, and no two
    days differ by more than one byte. *)
Theorem daily_credits_sum_to_base (base cycle_days : N) :
  base ≤ u64_max → cycle_days ≠ 0 →
  sumN (map (daily_credit_bytes base cycle_days) (range_incl 0 (cycle_days - 1))) = base ∧
  ∀ i, base / cycle_days ≤ daily_credit_bytes base cycle_days i ≤ base / cycle_days + 1.
Proof.
  intros Hb Hd. split.
  - unfold range_incl. rewrite map_map.
    replace (N.to_nat (cycle_days - 1 + 1 - 0)) with (N.to_nat cycle_days) by lia.
    change (N.to_nat 0) with 0%nat. rewrite daily_credit_prefix, N2Nat.id by done.
    pose proof (N.mod_lt base cycle_days Hd). pose proof (N.div_mod' base cycle_days).
    rewrite N.min_r by lia. lia.
  - intros i. rewrite daily_credit_eq by done. destruct (i <? base mod cycle_days);
      generalize (base / cycle_days); lia.
Qed.

Lemma daily_credits_sum_to_base_witness :
  sumN (map (daily_credit_bytes 311 31) (range_incl 0 30)) = 311.
Proof. apply (daily_credits_sum_to_base 311 31); by vm_compute. Defined.

(** A daily rollover neither loses nor creates bytes as long as the bank does not
    saturate: what exceeds the carry cap is returned as overflow, the new bank is within
    the cap, and nothing overflows unless the bank is full. *)
Theorem apply_daily_rollover_conserves (bank base cycle_days day carry : N) :
  let '(bank', overflow) := apply_daily_rollover bank base cycle_days day carry in
  let credit := daily_credit_bytes base cycle_days day in
  let cap := cap_bytes_for_day base cycle_days day carry in
  bank' + overflow = N.min (bank + credit) u64_max ∧
  bank' ≤ cap ∧ (0 < overflow → bank' = cap).
Proof.
  unfold apply_daily_rollover, sat_add.
  set (credit := daily_credit_bytes _ _ _). set (cap := cap_bytes_for_day _ _ _ _).
  destruct (N.ltb_spec cap (N.min (bank + credit) u64_max)); lia.
Qed.

(** Replaying missed days spends the delayed traffic completely exactly when some
    day-by-day schedule could have spent it: earliest-first finds a feasible schedule if
    one exists, and what it reports as spent is a feasible schedule. *)
Theorem replay_finds_feasible_schedule (bank spend base cycle_days day_start day_end carry : N) :
  cycle_days ≠ 0 → carry ≠ 0 → day_start ≤ day_end →
  (replay_rollovers_and_spend bank spend base cycle_days day_start day_end carry).2 = 0 ↔
  ∃ final, schedule base cycle_days carry bank (range_incl day_start day_end) spend final.
Proof.
  intros Hd Hc Hle. unfold replay_rollovers_and_spend. rewrite decide_False by lia.
  destruct (foldl _ _ _) as [bank' remaining] eqn:Hrep. simpl.
  destruct (replay_is_schedule _ _ _ _ _ _ _ _ Hrep) as [Hrem Hsch]. split.
  - intros ->. rewrite N.sub_0_r in Hsch. by eexists.
  - intros [final Hf]. destruct (decide (remaining = 0)); [done|exfalso].
    pose proof (replay_dominates _ _ _ _ _ _ _ _ _ _ _ (N.le_refl bank) Hf Hrep). lia.
Qed.

Lemma replay_finds_feasible_schedule_witness :
  ∃ final, schedule 311 31 2 11 (range_incl 1 2) 21 final.
Proof. apply (replay_finds_feasible_schedule 11 21 311 31 1 2 2); by vm_compute. Defined.
