(* ===== verification/Protocol.v ===== *)
(** * Endpoint protocol metadata

    [src/protocol.rs]: the metadata of VLESS-REALITY and Shadowsocks endpoints,
    the validators of the names and addresses in it, and the rotation of REALITY
    short ids.  The URL parser of [reqwest] and the JSON codec [serde] derives
    for the metadata are interfaces ([UrlParser], [MetaCodec]); the random
    short id a rotation draws is an argument. *)

From S2P Require Import Prelude Text Domain.
Open Scope string_scope.
Open Scope list_scope.

(** ** Data *)

Inductive RealityServerNamesSource : Type := Manual | Global.
#[global] Instance RealityServerNamesSource_eq_dec : EqDecision RealityServerNamesSource.
Proof. solve_decision. Defined.

Record RealityConfig : Type := mkRealityConfig {
  rc_dest : string;
  rc_server_names : list string;
  rc_server_names_source : RealityServerNamesSource;
  rc_fingerprint : string;
}.
#[global] Instance RealityConfig_eq_dec : EqDecision RealityConfig.
Proof. solve_decision. Defined.
#[export] Instance RealityConfig_eta : Eta RealityConfig := λ r,
  mkRealityConfig (rc_dest r) (rc_server_names r) (rc_server_names_source r) (rc_fingerprint r).

Inductive CanaryUpstreamMode : Type := Auto | Http1 | H2c.
#[global] Instance CanaryUpstreamMode_eq_dec : EqDecision CanaryUpstreamMode.
Proof. solve_decision. Defined.

Record CanaryUpstreamConfig : Type := mkCanaryUpstreamConfig {
  cu_url : string;
  cu_mode : CanaryUpstreamMode;
}.
#[global] Instance CanaryUpstreamConfig_eq_dec : EqDecision CanaryUpstreamConfig.
Proof. solve_decision. Defined.

Inductive VlessRealityTransport : Type := VisionTcp | Xhttp.
#[global] Instance VlessRealityTransport_eq_dec : EqDecision VlessRealityTransport.
Proof. solve_decision. Defined.

Record MihomoSmuxConfig : Type := mkMihomoSmuxConfig {
  smux_enabled : bool;
  smux_max_connections : N;
  smux_min_streams : N;
  smux_only_tcp : bool;
}.
#[global] Instance MihomoSmuxConfig_eq_dec : EqDecision MihomoSmuxConfig.
Proof. solve_decision. Defined.

Definition MIHOMO_SMUX_DEFAULT_MAX_CONNECTIONS : N := 4.
Definition MIHOMO_SMUX_DEFAULT_MIN_STREAMS : N := 4.
Definition MIHOMO_SMUX_MAX_CONNECTIONS_MAX : N := 16.
Definition MIHOMO_SMUX_MIN_STREAMS_MAX : N := 64.

Definition MihomoSmuxConfig_default : MihomoSmuxConfig :=
  mkMihomoSmuxConfig true MIHOMO_SMUX_DEFAULT_MAX_CONNECTIONS MIHOMO_SMUX_DEFAULT_MIN_STREAMS true.

Definition MihomoSmuxConfig_validate (c : MihomoSmuxConfig) : result unit string :=
  if bool_decide (smux_max_connections c = 0)%N || (MIHOMO_SMUX_MAX_CONNECTIONS_MAX <? smux_max_connections c)%N
  then Err "max_connections must be between 1 and 16"
  else if bool_decide (smux_min_streams c = 0)%N || (MIHOMO_SMUX_MIN_STREAMS_MAX <? smux_min_streams c)%N
  then Err "min_streams must be between 1 and 64"
  else Ok tt.

Record RealityKeys : Type := mkRealityKeys {
  rk_private_key : string;
  rk_public_key : string;
}.
#[global] Instance RealityKeys_eq_dec : EqDecision RealityKeys.
Proof. solve_decision. Defined.

Record VlessRealityVisionTcpEndpointMeta : Type := mkVlessMeta {
  vm_reality : RealityConfig;
  vm_reality_keys : RealityKeys;
  vm_short_ids : list string;
  vm_active_short_id : string;
  vm_canary_upstream : option CanaryUpstreamConfig;
  vm_accepted_authorities : list string;
  vm_mihomo_smux : MihomoSmuxConfig;
  vm_transport : VlessRealityTransport;
  vm_managed_default : bool;
}.
#[global] Instance VlessMeta_eq_dec : EqDecision VlessRealityVisionTcpEndpointMeta.
Proof. solve_decision. Defined.
#[export] Instance VlessMeta_eta : Eta VlessRealityVisionTcpEndpointMeta := λ r,
  mkVlessMeta (vm_reality r) (vm_reality_keys r) (vm_short_ids r) (vm_active_short_id r) (vm_canary_upstream r)
    (vm_accepted_authorities r) (vm_mihomo_smux r) (vm_transport r) (vm_managed_default r).

(** ** Host names *)

Definition hostname_byte (c : ascii) : bool := is_ascii_alphanumeric c || bool_decide (c = "."%char) || bool_decide (c = "-"%char).
Definition label_byte (c : ascii) : bool := is_ascii_alphanumeric c || bool_decide (c = "-"%char).

Definition validate_server_name_label (label : string) : result unit string :=
  if str_is_empty label then Err "server_name contains an empty label"
  else if (63 <? String.length label)%nat then Err "server_name label is too long (max 63)"
  else if starts_with "-"%char label || ends_with "-"%char label then Err "server_name labels must not start/end with '-'"
  else if negb (forallb label_byte (chars label)) then Err "server_name labels must be alnum or '-'"
  else Ok tt.

Definition validate_reality_server_name (host : string) : result unit string :=
  let trimmed := trim host in
  if str_is_empty trimmed then Err "server_name is required"
  else if any_whitespace trimmed then Err "server_name must not contain spaces"
  else if contains_str "://" trimmed then Err "server_name must not include scheme (://)"
  else if contains_char "/"%char trimmed then Err "server_name must not include path (/)"
  else if contains_char ":"%char trimmed then Err "server_name must not include port (:)"
  else if contains_char "*"%char trimmed then Err "server_name must not include wildcard (*)"
  else if (253 <? String.length trimmed)%nat then Err "server_name is too long (max 253)"
  else if starts_with "."%char trimmed || ends_with "."%char trimmed
  then Err "server_name must not start or end with a dot (.)"
  else if contains_str ".." trimmed then Err "server_name must not contain consecutive dots (..)"
  else if negb (forallb hostname_byte (chars trimmed))
  then Err "server_name must be a valid hostname (letters/digits/dots/hyphens)"
  else
  let labels := split "."%char trimmed in
  if (length labels <? 2)%nat then Err "server_name must contain at least one dot (example.com)"
  else
  let tld := default "" (last labels) in
  if (String.length tld <? 2)%nat then Err "server_name TLD is too short (min 2)"
  else try_each validate_server_name_label labels.

Definition validate_authority_label (label : string) : result unit string :=
  if str_is_empty label then Err "accepted_authority host contains an empty label"
  else if (63 <? String.length label)%nat then Err "accepted_authority host label is too long (max 63)"
  else if starts_with "-"%char label || ends_with "-"%char label
  then Err "accepted_authority host labels must not start/end with '-'"
  else if negb (forallb label_byte (chars label)) then Err "accepted_authority host labels must be alnum or '-'"
  else Ok tt.

Definition validate_accepted_authority_host (host : string) : result unit string :=
  let trimmed := trim host in
  if str_is_empty trimmed then Err "accepted_authority host is required"
  else if (253 <? String.length trimmed)%nat then Err "accepted_authority host is too long (max 253)"
  else if starts_with "."%char trimmed || ends_with "."%char trimmed
  then Err "accepted_authority host must not start or end with a dot (.)"
  else if contains_str ".." trimmed then Err "accepted_authority host must not contain consecutive dots (..)"
  else if negb (forallb hostname_byte (chars trimmed)) then Err "accepted_authority host must be a valid hostname"
  else try_each validate_authority_label (split "."%char trimmed).

Definition validate_reality_dest (dest : string) : result unit string :=
  let trimmed := trim dest in
  if str_is_empty trimmed then Err "dest is required"
  else if any_whitespace trimmed then Err "dest must not contain spaces"
  else
  let trimmed := default trimmed (strip_prefix "tcp://" trimmed) in
  let trimmed := default trimmed (strip_prefix "tcp:" trimmed) in
  if contains_char "/"%char trimmed then Err "dest must not include path (/)"
  else
  match parse_socket_addr_port trimmed with
  | Some port => if bool_decide (port = 0)%N then Err "dest port must be 1..65535" else Ok tt
  | None =>
      let? (host, port) := ok_or (rsplit_once ":"%char trimmed) "dest must include port (:)" in
      let? _ := validate_reality_server_name host in
      let? port := ok_or (parse_u16 port) "dest port must be 1..65535" in
      if bool_decide (port = 0)%N then Err "dest port must be 1..65535" else Ok tt
  end.

(** ** Canary upstream: [reqwest::Url] *)

Record Url : Type := mkUrl {
  url_scheme : string;
  url_host : option string;
  url_username : string;
  url_password : option string;
  url_path : string;
  url_query : option string;
  url_fragment : option string;
}.

Class UrlParser := url_parse : string → option Url.

Definition validate_canary_upstream `{UrlParser} (config : CanaryUpstreamConfig) : result unit string :=
  let trimmed := trim (cu_url config) in
  if str_is_empty trimmed then Err "canary_upstream.url is required"
  else if any_whitespace trimmed then Err "canary_upstream.url must not contain spaces"
  else
  let? url := ok_or (url_parse trimmed) "canary_upstream.url must be a URL" in
  if negb (bool_decide (url_scheme url = "http") || bool_decide (url_scheme url = "https"))
  then Err "canary_upstream.url must use http or https"
  else if bool_decide (url_host url = None) then Err "canary_upstream.url must include host"
  else if negb (str_is_empty (url_username url)) || negb (bool_decide (url_password url = None))
  then Err "canary_upstream.url must not include credentials"
  else if negb (bool_decide (url_path url = "/")) || negb (bool_decide (url_query url = None))
          || negb (bool_decide (url_fragment url = None))
  then Err "canary_upstream.url must be an origin without path, query, or fragment"
  else if bool_decide (cu_mode config = H2c) && negb (bool_decide (url_scheme url = "http"))
  then Err "canary_upstream.mode h2c requires http URL"
  else Ok tt.

(** ** Accepted authorities *)

Definition parse_authority_port (port : string) : result N string :=
  let? p := ok_or (parse_u16 port) "accepted_authority port must be 1..65535" in
  if bool_decide (p = 0)%N then Err "accepted_authority port must be 1..65535" else Ok p.

(** What follows once host and port are separated. *)
Definition normalize_authority_host (host : string) (parsed_port : N) (bracketed_host : bool) : result string string :=
  if parse_ipv6_ok host then Ok ("[" +:+ to_ascii_lowercase host +:+ "]:" +:+ pretty parsed_port)
  else if bracketed_host then Err "accepted_authority bracketed host must be IPv6"
  else
  let normalized_host := default host (strip_suffix "." host) in
  if parse_ipv4_ok normalized_host then Ok (normalized_host +:+ ":" +:+ pretty parsed_port)
  else if forallb (λ label, negb (str_is_empty label) && forallb is_ascii_digit (chars label)) (split "."%char normalized_host)
  then Err "accepted_authority must use a valid IPv4, hostname, or [ipv6]"
  else
  let? _ := validate_accepted_authority_host normalized_host in
  Ok (to_ascii_lowercase normalized_host +:+ ":" +:+ pretty parsed_port).

(** The source recurses at most once, on the authority with [:443] appended; the fuel
    counts those calls. *)
Fixpoint normalize_authority_calls (fuel : nat) (authority : string) : result string string :=
  let trimmed := trim authority in
  if str_is_empty trimmed then Err "accepted_authority is required"
  else if any_whitespace trimmed then Err "accepted_authority must not contain spaces"
  else if contains_str "://" trimmed then Err "accepted_authority must not include scheme (://)"
  else if contains_char "/"%char trimmed then Err "accepted_authority must not include path (/)"
  else if contains_char "?"%char trimmed then Err "accepted_authority must not include query (?)"
  else if contains_char "#"%char trimmed then Err "accepted_authority must not include fragment (#)"
  else
  match strip_prefix "[" trimmed with
  | Some bracketed =>
      let? (host, rest) := ok_or (split_once "]"%char bracketed) "accepted_authority IPv6 host must use [addr] or [addr]:port" in
      if str_is_empty rest then normalize_authority_host host 443 true
      else
      let? port := ok_or (strip_prefix ":" rest) "accepted_authority IPv6 host must use [addr] or [addr]:port" in
      let? parsed_port := parse_authority_port port in
      normalize_authority_host host parsed_port true
  | None =>
      match rsplit_once ":"%char trimmed with
      | None =>
          if contains_char ":"%char trimmed then Err "accepted_authority IPv6 host must use [addr] or [addr]:port"
          else match fuel with
               | O => Err "recursion limit"
               | S fuel => normalize_authority_calls fuel (trimmed +:+ ":443")
               end
      | Some (host, port) =>
          if contains_char ":"%char host then Err "accepted_authority IPv6 host must use [addr] or [addr]:port"
          else
          let? parsed_port := parse_authority_port port in
          normalize_authority_host host parsed_port false
      end
  end.

Definition normalize_accepted_authority (authority : string) : result string string :=
  normalize_authority_calls 1 authority.

(** Deduplicates, keeping first occurrences; an error names the offending input. *)
Definition push_authority (acc : list string * gset string) (authority : string) : result (list string * gset string) (string * string) :=
  let '(out, seen) := acc in
  let? normalized := map_err (λ reason, (reason, authority)) (normalize_accepted_authority authority) in
  if bool_decide (normalized ∈ seen) then Ok (out, seen)
  else Ok (out ++ [normalized], {[normalized]} ∪ seen).

Definition normalize_accepted_authorities (authorities : list string) : result (list string) (string * string) :=
  let? (out, _) := try_fold push_authority ([], ∅) authorities in Ok out.

(** ** Short ids *)

Definition validate_short_id (short_id : string) : result unit string :=
  if str_is_empty short_id then Err "short_id must be non-empty"
  else if (16 <? String.length short_id)%nat then Err "short_id length must be <= 16"
  else if negb (Nat.even (String.length short_id)) then Err "short_id length must be even"
  else if negb (forallb is_ascii_hexdigit (chars short_id)) then Err "short_id must be hex"
  else Ok tt.

Record RotateShortIdResult : Type := mkRotateShortIdResult {
  rot_active_short_id : string;
  rot_short_ids : list string;
}.

(** Returns the new [short_ids], the new [active_short_id] and the result. *)
Definition rotate_short_ids_in_place (short_ids : list string) (new_id : string) : list string * string * RotateShortIdResult :=
  let short_ids := short_ids ++ [new_id] in
  let short_ids := if (8 <? length short_ids)%nat then drop (length short_ids - 8)%nat short_ids else short_ids in
  (short_ids, new_id, mkRotateShortIdResult new_id short_ids).

(** [key[0] &= 248; key[31] &= 127; key[31] |= 64]. *)
Definition clamp_x25519_private_key_bytes (key : list N) : list N :=
  alter (λ b, N.lor (N.land b 127) 64)%N 31 (alter (λ b, N.land b 248)%N 0 key).

Definition ss2022_password (server_psk_b64 user_psk_b64 : string) : string :=
  server_psk_b64 +:+ ":" +:+ user_psk_b64.

(** ** The JSON codec of the metadata

    What the sources rely on of the [Serialize] and [Deserialize] instances that serde
    derives: decoding inverts encoding, the encoding is an object, and a missing
    [mihomo_smux] key decodes as the default configuration. *)
Class MetaCodec := {
  vless_of_json : json → result VlessRealityVisionTcpEndpointMeta string;
  vless_to_json : VlessRealityVisionTcpEndpointMeta → json;
  vless_roundtrip : ∀ m, vless_of_json (vless_to_json m) = Ok m;
  vless_object : ∀ m, ∃ o, vless_to_json m = JObject o;
  vless_smux_default : ∀ m,
    vless_of_json (json_remove "mihomo_smux" (vless_to_json m)) = Ok (m <| vm_mihomo_smux := MihomoSmuxConfig_default |>);
}.

(** ** An instance of the codec

    The interface is inhabited: an object per struct, keys as serde names them. *)
Section Codec.
Definition jfield {A} (dec : json → result A string) (k : string) (v : json) : result A string :=
  match json_get k v with Some x => dec x | None => Err ("missing field " +:+ k) end.
Definition jfield_or {A} (d : A) (dec : json → result A string) (k : string) (v : json) : result A string :=
  match json_get k v with Some x => dec x | None => Ok d end.
Definition jstring (v : json) : result string string := match v with JString s => Ok s | _ => Err "expected a string" end.
Definition jbool (v : json) : result bool string := match v with JBool b => Ok b | _ => Err "expected a bool" end.
Definition jnat (v : json) : result N string :=
  match v with JNumber n => if (n <? 0)%Z then Err "expected an unsigned integer" else Ok (Z.to_N n) | _ => Err "expected a number" end.
Fixpoint jstrings_list (l : list json) : result (list string) string :=
  match l with
  | [] => Ok []
  | v :: l => let? s := jstring v in let? r := jstrings_list l in Ok (s :: r)
  end.
Definition jstrings (v : json) : result (list string) string := match v with JArray l => jstrings_list l | _ => Err "expected an array" end.
Definition jobject (l : list (string * json)) : json := JObject (list_to_map l).

Definition source_to_json (s : RealityServerNamesSource) : json := JString (match s with Manual => "manual" | Global => "global" end).
Definition source_of_json (v : json) : result RealityServerNamesSource string :=
  let? s := jstring v in
  if decide (s = "manual") then Ok Manual else if decide (s = "global") then Ok Global else Err "unknown variant".
Definition mode_to_json (m : CanaryUpstreamMode) : json := JString (match m with Auto => "auto" | Http1 => "http1" | H2c => "h2c" end).
Definition mode_of_json (v : json) : result CanaryUpstreamMode string :=
  let? s := jstring v in
  if decide (s = "auto") then Ok Auto else if decide (s = "http1") then Ok Http1
  else if decide (s = "h2c") then Ok H2c else Err "unknown variant".
Definition transport_of_json (v : json) : result VlessRealityTransport string :=
  let? s := jstring v in
  if decide (s = "vision_tcp") then Ok VisionTcp else if decide (s = "xhttp") then Ok Xhttp else Err "unknown variant".

Definition reality_to_json (r : RealityConfig) : json := jobject [
  ("dest", JString (rc_dest r)); ("server_names", JArray (map JString (rc_server_names r)));
  ("server_names_source", source_to_json (rc_server_names_source r)); ("fingerprint", JString (rc_fingerprint r))].
Definition reality_of_json (v : json) : result RealityConfig string :=
  let? dest := jfield jstring "dest" v in
  let? names := jfield jstrings "server_names" v in
  let? source := jfield_or Manual source_of_json "server_names_source" v in
  let? fp := jfield jstring "fingerprint" v in
  Ok (mkRealityConfig dest names source fp).
Definition keys_to_json (k : RealityKeys) : json := jobject [
  ("private_key", JString (rk_private_key k)); ("public_key", JString (rk_public_key k))].
Definition keys_of_json (v : json) : result RealityKeys string :=
  let? a := jfield jstring "private_key" v in let? b := jfield jstring "public_key" v in Ok (mkRealityKeys a b).
Definition canary_to_json (c : CanaryUpstreamConfig) : json := jobject [("url", JString (cu_url c)); ("mode", mode_to_json (cu_mode c))].
Definition canary_of_json (v : json) : result (option CanaryUpstreamConfig) string :=
  match v with
  | JNull => Ok None
  | _ => let? u := jfield jstring "url" v in let? m := jfield_or Auto mode_of_json "mode" v in
         Ok (Some (mkCanaryUpstreamConfig u m))
  end.
Definition smux_to_json (c : MihomoSmuxConfig) : json := jobject [
  ("enabled", JBool (smux_enabled c)); ("max_connections", JNumber (Z.of_N (smux_max_connections c)));
  ("min_streams", JNumber (Z.of_N (smux_min_streams c))); ("only_tcp", JBool (smux_only_tcp c))].
Definition smux_of_json (v : json) : result MihomoSmuxConfig string :=
  let? a := jfield jbool "enabled" v in let? b := jfield jnat "max_connections" v in
  let? c := jfield jnat "min_streams" v in let? d := jfield jbool "only_tcp" v in
  Ok (mkMihomoSmuxConfig a b c d).

Definition serde_vless_to_json (m : VlessRealityVisionTcpEndpointMeta) : json := jobject (
  [("reality", reality_to_json (vm_reality m)); ("reality_keys", keys_to_json (vm_reality_keys m));
   ("short_ids", JArray (map JString (vm_short_ids m))); ("active_short_id", JString (vm_active_short_id m));
   ("mihomo_smux", smux_to_json (vm_mihomo_smux m)); ("managed_default", JBool (vm_managed_default m))] ++
  match vm_canary_upstream m with Some c => [("canary_upstream", canary_to_json c)] | None => [] end ++
  (if decide (vm_accepted_authorities m = []) then []
   else [("accepted_authorities", JArray (map JString (vm_accepted_authorities m)))]) ++
  match vm_transport m with VisionTcp => [] | Xhttp => [("transport", JString "xhttp")] end).
Definition serde_vless_of_json (v : json) : result VlessRealityVisionTcpEndpointMeta string :=
  let? reality := jfield reality_of_json "reality" v in
  let? keys := jfield keys_of_json "reality_keys" v in
  let? ids := jfield jstrings "short_ids" v in
  let? active := jfield jstring "active_short_id" v in
  let? canary := jfield_or None canary_of_json "canary_upstream" v in
  let? auth := jfield_or [] jstrings "accepted_authorities" v in
  let? smux := jfield_or MihomoSmuxConfig_default smux_of_json "mihomo_smux" v in
  let? transport := jfield_or VisionTcp transport_of_json "transport" v in
  let? managed := jfield_or false jbool "managed_default" v in
  Ok (mkVlessMeta reality keys ids active canary auth smux transport managed).

Fixpoint jassoc (k : string) (l : list (string * json)) : option json :=
  match l with [] => None | (k', v) :: l => if decide (k' = k) then Some v else jassoc k l end.

Lemma json_get_jobject k l : json_get k (jobject l) = jassoc k l.
Proof.
  simpl. induction l as [|[k' v] l IH]; simpl; [done|]. case_decide as Hk.
  - subst. apply lookup_insert_eq.
  - by rewrite lookup_insert_ne.
Qed.

Lemma json_get_json_remove k k' v : json_get k (json_remove k' v) = if decide (k' = k) then None else json_get k v.
Proof. case_decide; subst; [apply json_get_remove|by apply json_get_remove_ne]. Qed.

Lemma jstrings_map l : jstrings (JArray (map JString l)) = Ok l.
Proof. simpl. induction l as [|s l IH]; simpl; [done|]. by rewrite IH. Qed.

Lemma jnat_of_N n : jnat (JNumber (Z.of_N n)) = Ok n.
Proof. by destruct n. Qed.

Ltac solve_codec :=
  unfold jfield, jfield_or;
  rewrite ?json_get_json_remove, ?json_get_jobject; simpl jassoc; cbv beta iota;
  rewrite ?jstrings_map, ?jnat_of_N.

Lemma smux_json_roundtrip c : smux_of_json (smux_to_json c) = Ok c.
Proof. destruct c as [a b c d]. unfold smux_of_json, smux_to_json. by solve_codec. Qed.
Lemma reality_json_roundtrip r : reality_of_json (reality_to_json r) = Ok r.
Proof. destruct r as [a b c d]. unfold reality_of_json, reality_to_json. solve_codec. by destruct c. Qed.
Lemma keys_json_roundtrip k : keys_of_json (keys_to_json k) = Ok k.
Proof. destruct k as [a b]. unfold keys_of_json, keys_to_json. by solve_codec. Qed.
Lemma canary_json_roundtrip c : canary_of_json (canary_to_json c) = Ok (Some c).
Proof. destruct c as [u m]. unfold canary_of_json, canary_to_json, jobject. fold (jobject [("url", JString u); ("mode", mode_to_json m)]). solve_codec. by destruct m. Qed.

Lemma serde_vless_get m k :
  json_get k (serde_vless_to_json m) =
  if decide (k = "reality") then Some (reality_to_json (vm_reality m))
  else if decide (k = "reality_keys") then Some (keys_to_json (vm_reality_keys m))
  else if decide (k = "short_ids") then Some (JArray (map JString (vm_short_ids m)))
  else if decide (k = "active_short_id") then Some (JString (vm_active_short_id m))
  else if decide (k = "mihomo_smux") then Some (smux_to_json (vm_mihomo_smux m))
  else if decide (k = "managed_default") then Some (JBool (vm_managed_default m))
  else if decide (k = "canary_upstream") then canary_to_json <$> vm_canary_upstream m
  else if decide (k = "accepted_authorities")
  then (if decide (vm_accepted_authorities m = []) then None else Some (JArray (map JString (vm_accepted_authorities m))))
  else if decide (k = "transport") then (match vm_transport m with VisionTcp => None | Xhttp => Some (JString "xhttp") end)
  else None.
Proof.
  unfold serde_vless_to_json. rewrite json_get_jobject.
  destruct m as [reality keys ids active canary auth smux transport managed]; simpl.
  destruct canary, (decide (auth = [])), transport; simpl; repeat case_decide; congruence.
Qed.

(** Decoding looks only at the known keys. *)
Lemma serde_decode m v smux :
  (∀ k, k ≠ "mihomo_smux" → json_get k v = json_get k (serde_vless_to_json m)) →
  jfield_or MihomoSmuxConfig_default smux_of_json "mihomo_smux" v = Ok smux →
  serde_vless_of_json v = Ok (m <| vm_mihomo_smux := smux |>).
Proof.
  intros Hget Hsmux. unfold serde_vless_of_json. rewrite Hsmux.
  unfold jfield, jfield_or. rewrite !Hget by discriminate. rewrite !serde_vless_get.
  repeat match goal with
  | |- context [decide (?a = ?b :> string)] => destruct (decide (a = b)) as [?|?]; [try discriminate|try congruence]
  end.
  destruct m as [reality keys ids active canary auth smux' transport managed]. cbn [vm_reality vm_reality_keys
    vm_short_ids vm_active_short_id vm_canary_upstream vm_accepted_authorities vm_transport vm_managed_default].
  rewrite reality_json_roundtrip. cbn [rbind]. rewrite keys_json_roundtrip. cbn [rbind].
  rewrite jstrings_map. cbn [rbind jstring]. destruct canary as [c|]; cbn [fmap option_fmap option_map];
    rewrite ?canary_json_roundtrip; cbn [rbind]; case_decide; subst; rewrite ?jstrings_map; by destruct transport.
Qed.

Lemma serde_roundtrip m : serde_vless_of_json (serde_vless_to_json m) = Ok m.
Proof.
  rewrite (serde_decode m _ (vm_mihomo_smux m)); [by destruct m|done|].
  unfold jfield_or. rewrite serde_vless_get. simpl. apply smux_json_roundtrip.
Qed.

Lemma serde_smux_default m :
  serde_vless_of_json (json_remove "mihomo_smux" (serde_vless_to_json m)) = Ok (m <| vm_mihomo_smux := MihomoSmuxConfig_default |>).
Proof.
  apply serde_decode; [intros k Hk; by apply json_get_remove_ne|].
  unfold jfield_or. by rewrite json_get_remove.
Qed.
End Codec.

Definition serde_codec : MetaCodec := {|
  vless_of_json := serde_vless_of_json;
  vless_to_json := serde_vless_to_json;
  vless_roundtrip := serde_roundtrip;
  vless_object m := ex_intro _ _ eq_refl;
  vless_smux_default := serde_smux_default;
|}.

(** * Host names accepted *)

(** The reference definition: dot-separated labels of letters, digits and inner hyphens. *)
Definition hostname_label (label : string) : Prop :=
  (1 ≤ String.length label ≤ 63)%nat ∧ (∀ c, c ∈ chars label → label_byte c = true) ∧
  head (chars label) ≠ Some "-"%char ∧ last (chars label) ≠ Some "-"%char.

Definition hostname (name : string) : Prop :=
  (String.length name ≤ 253)%nat ∧
  (2 ≤ length (split "."%char name))%nat ∧
  (∀ tld, last (split "."%char name) = Some tld → (2 ≤ String.length tld)%nat) ∧
  Forall hostname_label (split "."%char name).

Lemma validate_server_name_label_ok label : validate_server_name_label label = Ok tt ↔ hostname_label label.
Proof.
  unfold validate_server_name_label, hostname_label, str_is_empty, starts_with, ends_with.
  rewrite <-forallb_elem. split.
  - intros H. case_bool_decide as He; [done|].
    destruct (Nat.ltb_spec 63 (String.length label)); [done|].
    repeat (case_bool_decide; [done|]). simpl in H. destruct (forallb label_byte (chars label)); [|done].
    split_and!; try done. destruct label; simpl; [done|lia].
  - intros (Hlen & Hall & Hh & Hl). rewrite bool_decide_false by (intros ->; simpl in Hlen; lia).
    destruct (Nat.ltb_spec 63 (String.length label)); [lia|].
    rewrite !bool_decide_false by done. by rewrite Hall.
Qed.

Lemma ws_seqs_not_hostname : Forall (λ w, existsb (λ c, negb (hostname_byte c)) w = true) ws_seqs.
Proof. vm_compute. repeat constructor. Qed.

(** What the label rules already exclude. *)
Section Hostname.
Context (name : string) (Hlabels : Forall hostname_label (split "."%char name)).

Lemma hostname_parts part : part ∈ split_chars "."%char (chars name) → hostname_label (of_chars part).
Proof using Hlabels.
  intros Hp. rewrite Forall_forall in Hlabels. apply Hlabels, list_elem_of_fmap. by exists part.
Qed.

Lemma hostname_no_empty_part : [] ∉ split_chars "."%char (chars name).
Proof using Hlabels. intros [[? _] _]%hostname_parts. simpl in *. lia. Qed.

Lemma hostname_bytes c : c ∈ chars name → hostname_byte c = true.
Proof using Hlabels.
  intros Hc. unfold hostname_byte. destruct (decide (c = "."%char)) as [->|Hne]; [done|].
  destruct (split_chars_covers _ _ _ Hc Hne) as (part & Hp & Hcp).
  apply hostname_parts in Hp as (_ & Hb & _). rewrite chars_of_chars in Hb.
  specialize (Hb c Hcp). unfold label_byte in Hb. apply orb_true_iff in Hb as [-> | ->]; [done|].
  by rewrite orb_true_r.
Qed.

Lemma hostname_no_char c : hostname_byte c = false → contains_char c name = false.
Proof using Hlabels.
  intros Hc. destruct (contains_char c name) eqn:H; [|done].
  apply contains_char_true, hostname_bytes in H. congruence.
Qed.

Lemma hostname_no_whitespace : any_whitespace name = false.
Proof using Hlabels.
  apply has_ws_false. intros k w r Hw Heq.
  pose proof ws_seqs_not_hostname as Hws. rewrite Forall_forall in Hws.
  apply Hws, existsb_exists in Hw as (c & Hc & Hn).
  assert (hostname_byte c = true) as Hb; [|by rewrite Hb in Hn].
  apply hostname_bytes. rewrite Heq, !elem_of_app, !list_elem_of_In. tauto.
Qed.

Lemma hostname_dots : starts_with "."%char name = false ∧ ends_with "."%char name = false ∧ contains_str ".." name = false.
Proof using Hlabels.
  pose proof hostname_no_empty_part as Hne. unfold starts_with, ends_with. split_and!.
  - apply bool_decide_eq_false. intros Hh. apply Hne.
    destruct (chars name) as [|x l]; [done|]. simpl in Hh. simplify_eq.
    cbn [split_chars]. rewrite decide_True by done. left.
  - apply bool_decide_eq_false. intros [l Hl]%last_Some. apply Hne. rewrite Hl, split_chars_app.
    apply elem_of_app. right. simpl. left.
  - destruct (contains_str ".." name) eqn:H; [|done]. apply contains_str_true in H as (a & b & Heq).
    exfalso. apply Hne. rewrite Heq. simpl. rewrite split_chars_app. apply elem_of_app. right.
    cbn [split_chars]. rewrite decide_True by done. left.
Qed.
End Hostname.

Lemma hostname_no_scheme name : contains_char "/"%char name = false → contains_str "://" name = false.
Proof.
  intros H. destruct (contains_str "://" name) eqn:E; [|done].
  apply contains_str_true in E as (a & b & Heq).
  enough (contains_char "/"%char name = true) by congruence.
  apply contains_char_true. rewrite Heq, !elem_of_app. right. left. simpl. right. left.
Qed.

(** C39: the REALITY server-name validator accepts a name exactly when, after trimming, it
    is a host name of at least two labels with a top-level label of two characters or
    more; in particular nothing with a scheme, path, port, wildcard, white space or
    empty label gets through, and no valid host name is refused. *)
Theorem validate_reality_server_name_spec (host : string) :
  validate_reality_server_name host = Ok tt ↔ hostname (trim host).
Proof.
  unfold validate_reality_server_name, hostname. set (t := trim host). split.
  - intros H. destruct_ok. rewrite try_each_ok in H.
    repeat match goal with Hb : (_ <? _)%nat = false |- _ => apply Nat.ltb_ge in Hb end.
    split_and!; [done|done| |].
    + intros tld Htld. by match goal with Hb : context [default _ _] |- _ => rewrite Htld in Hb end.
    + eapply Forall_impl; [exact H|]. intros l. apply validate_server_name_label_ok.
  - intros (Hlen & Hcount & Htld & Hall).
    destruct (hostname_dots t Hall) as (-> & -> & ->).
    rewrite (hostname_no_whitespace t Hall), (hostname_no_scheme t (hostname_no_char t Hall "/"%char eq_refl)),
      !(hostname_no_char t Hall) by done.
    replace (forallb hostname_byte (chars t)) with true
      by (symmetry; apply forallb_elem; by apply hostname_bytes). simpl.
    unfold str_is_empty. rewrite bool_decide_false; [|intros Ht; rewrite Ht in Hcount; simpl in Hcount; lia].
    destruct (Nat.ltb_spec 253 (String.length t)); [lia|].
    destruct (Nat.ltb_spec (length (split "."%char t)) 2); [lia|].
    destruct (last (split "."%char t)) as [tld|] eqn:Hl; simpl.
    + specialize (Htld tld eq_refl). destruct (Nat.ltb_spec (String.length tld) 2); [lia|].
      apply try_each_ok. eapply Forall_impl; [exact Hall|]. intros l. apply validate_server_name_label_ok.
    + apply last_None in Hl. rewrite Hl in Hcount. simpl in Hcount. lia.
Qed.

(** * Accepted authorities *)

(** The recursion of the source never goes deeper than one call: the appended port
    contains the colon whose absence triggers the call. *)
Lemma normalize_authority_one_call n authority :
  normalize_authority_calls (S n) authority = normalize_accepted_authority authority.
Proof.
  unfold normalize_accepted_authority. cbn [normalize_authority_calls].
  set (t := trim authority). destruct (str_is_empty t); [done|].
  destruct (any_whitespace t) eqn:Hws; [done|]. do 4 (case_match; [done|]).
  destruct (strip_prefix "[" t); [done|]. destruct (rsplit_once ":"%char t); [done|].
  case_match; [done|].
  assert (trim (t +:+ ":443") = t +:+ ":443") as Htrim.
  { apply trim_no_whitespace. unfold any_whitespace. rewrite chars_app. apply has_ws_app; [done|].
    repeat constructor; by apply (bool_decide_unpack _). }
  assert (is_Some (rsplit_once ":"%char (t +:+ ":443"))) as [[h p] Hr].
  { apply rsplit_once_is_Some. rewrite chars_app. apply elem_of_app. right. left. }
  destruct n; cbn [normalize_authority_calls]; rewrite Htrim, Hr; done.
Qed.

Lemma push_authority_inv authorities out seen :
  try_fold push_authority ([], ∅) authorities = Ok (out, seen) →
  NoDup out ∧ (∀ b, b ∈ out ↔ b ∈ seen) ∧
  (∀ b, b ∈ seen ↔ ∃ a, a ∈ authorities ∧ normalize_accepted_authority a = Ok b) ∧
  (∀ a, a ∈ authorities → ∃ b, normalize_accepted_authority a = Ok b).
Proof.
  revert out seen. induction authorities as [|a l IH] using rev_ind; intros out seen H.
  { injection H as <- <-. split_and!; [constructor|set_solver..]. }
  rewrite try_fold_app in H. apply rbind_ok_inv in H as ([out' seen'] & Hl & H).
  apply IH in Hl as (Hnd & Hmem & Hseen & Hall). simpl in H.
  destruct (normalize_accepted_authority a) as [b|] eqn:Hb; simpl in H; [|done].
  assert (∀ x, (x ∈ seen' ∨ x = b) ↔ ∃ a', a' ∈ l ++ [a] ∧ normalize_accepted_authority a' = Ok x) as Hx.
  { intros x. rewrite Hseen. setoid_rewrite elem_of_app. setoid_rewrite list_elem_of_singleton.
    split; [intros [(a' & ? & ?)| ->]; eauto|].
    intros (a' & [?| ->] & ?); [left; eauto|right; congruence]. }
  assert (∀ a', a' ∈ l ++ [a] → ∃ b', normalize_accepted_authority a' = Ok b') as Ha.
  { intros a' [?| ->%list_elem_of_singleton]%elem_of_app; eauto. }
  case_bool_decide as Hin; simpl in H; injection H as <- <-; split_and!; try done.
  - intros x. rewrite <-Hx. split; [by left|]. by intros [?| ->].
  - apply NoDup_app. split_and!; [done| |apply NoDup_singleton]. set_solver.
  - set_solver.
  - intros x. rewrite <-Hx. set_solver.
Qed.

(** Normalising a list of accepted authorities succeeds exactly when every one of them
    normalises, and then yields each normal form exactly once and nothing else. *)
Theorem normalize_accepted_authorities_spec (authorities : list string) :
  match normalize_accepted_authorities authorities with
  | Ok out =>
      NoDup out ∧
      (∀ b, b ∈ out ↔ ∃ a, a ∈ authorities ∧ normalize_accepted_authority a = Ok b) ∧
      (∀ a, a ∈ authorities → ∃ b, normalize_accepted_authority a = Ok b)
  | Err (reason, a) => a ∈ authorities ∧ normalize_accepted_authority a = Err reason
  end.
Proof.
  unfold normalize_accepted_authorities.
  destruct (try_fold push_authority ([], ∅) authorities) as [[out seen]|[reason a]] eqn:H; simpl.
  - apply push_authority_inv in H as (Hnd & Hmem & Hseen & Hall). split_and!; [done| |done].
    intros b. by rewrite Hmem.
  - apply try_fold_err in H as (acc & x & Hx & Hf). destruct acc as [o s']. simpl in Hf.
    destruct (normalize_accepted_authority x) as [b|e] eqn:Hn; simpl in Hf.
    + by case_bool_decide.
    + injection Hf as -> ->. done.
Qed.

(** * Short ids *)

(** A rotation keeps at most eight short ids; the list it leaves is the tail of the
    old list followed by the new id, which becomes the active one; and ids are dropped
    only when there were already eight. *)
Theorem rotate_short_ids_window (short_ids : list string) (new_id : string) :
  let '(ids, active, r) := rotate_short_ids_in_place short_ids new_id in
  (length ids ≤ 8)%nat ∧ active = new_id ∧ last ids = Some active ∧
  r = mkRotateShortIdResult active ids ∧
  ∃ dropped, short_ids ++ [new_id] = dropped ++ ids ∧ (dropped ≠ [] → length ids = 8%nat).
Proof.
  unfold rotate_short_ids_in_place. set (l := short_ids ++ [new_id]).
  assert (last l = Some new_id) as Hlast by apply last_snoc.
  destruct (Nat.ltb_spec 8 (length l)) as [Hlt|Hle]; split_and!; try done.
  - rewrite length_drop. lia.
  - rewrite last_lookup, lookup_drop, length_drop, <-Hlast, last_lookup. f_equal. lia.
  - exists (take (length l - 8) l). rewrite take_drop, length_drop. split; [done|lia].
  - by exists [].
Qed.
