(* ===== verification/Clock.v ===== *)
(** * Time stamps

    The sources keep instants as RFC 3339 strings and read them with
    [chrono::DateTime::parse_from_rfc3339].  The parser is an interface: a string denotes
    an instant (nanoseconds from the epoch; [DateTime] compares instants, whatever the
    offset they were written with) or is not a time stamp.  Nothing else is assumed of
    it.  [digits_clock], which reads plain decimal numbers, is the instance the examples
    use. *)

From S2P Require Import Prelude Text.

Class Rfc3339 := parse_rfc3339 : string → option Z.

Definition digits_clock : Rfc3339 := λ s, Z.of_N <$> parse_u16 s.

(** Writing an instant at an offset from UTC ([DateTime::to_rfc3339]). *)
Class TimeFormat := to_rfc3339 : Z → Z → string.

(** What is written in UTC is read back, for the instants a 64-bit count of nanoseconds
    covers. *)
Definition i64_nanos (t : Z) : Prop := (- 9223372036854775808 ≤ t < 9223372036854775808)%Z.
Class Rfc3339Roundtrip `{Rfc3339, TimeFormat} := parse_to_rfc3339 : ∀ t, i64_nanos t → parse_rfc3339 (to_rfc3339 0 t) = Some t.

(** Decimal nanoseconds. *)
Definition nanos_reader : Rfc3339 := parse_i64.
Definition nanos_writer : TimeFormat := λ _, pretty.
Lemma nanos_roundtrip : @Rfc3339Roundtrip nanos_reader nanos_writer.
Proof. intros t Ht. by apply parse_i64_pretty. Qed.
