(* ===== verification/Cycle.v ===== *)
(** * Quota cycles

    [src/cycle.rs]: the window of the monthly quota cycle that contains an instant.

    Dates and time zones come from the [chrono] crate.  A [NaiveDate] is a day number, an
    instant a number of nanoseconds.  The calendar is an interface with the documented
    facts the code relies on (which dates a month has is not assumed); a time zone is what
    [chrono::TimeZone] offers: the local reading of an instant and the instants a local
    reading may stand for. *)

From S2P Require Import Prelude Domain.
Open Scope Z_scope.

(** ** Calendar *)

Definition prev_year_month (year month : Z) : Z * Z := if decide (month = 1) then (year - 1, 12) else (year, month - 1).
Definition next_year_month (year month : Z) : Z * Z := if decide (month = 12) then (year + 1, 1) else (year, month + 1).

(** The years [NaiveDate] covers. *)
Definition MIN_YEAR : Z := -262143.
Definition MAX_YEAR : Z := 262142.

Class Calendar := {
  from_ymd_opt : Z → Z → Z → option Z;
  date_year : Z → Z;
  date_month : Z → Z;
  from_ymd_month : ∀ y m d n, from_ymd_opt y m d = Some n → date_year n = y ∧ date_month n = m;
  first_exists : ∀ y m, MIN_YEAR ≤ y ≤ MAX_YEAR → 1 ≤ m ≤ 12 → is_Some (from_ymd_opt y m 1);
  month_valid : ∀ n, 1 ≤ date_month n ≤ 12;
  month_order : ∀ a b, date_year a < date_year b ∨ (date_year a = date_year b ∧ date_month a < date_month b) → a < b;
  month_end : ∀ y m k, 1 ≤ m ≤ 12 →
    from_ymd_opt (next_year_month y m).1 (next_year_month y m).2 1 = Some k → date_year (k - 1) = y ∧ date_month (k - 1) = m;
}.

(** ** Time zones *)

Definition DAY_NANOS : Z := 86400 * 1000000000.
Definition HOUR_NANOS : Z := 3600 * 1000000000.

Inductive LocalResult : Type :=
| LocalSingle (dt : Z)
| LocalAmbiguous (earliest latest : Z)
| LocalNone.

Record TimeZone : Type := mkTimeZone {
  tz_offset : Z → Z;              (* the offset in force at an instant *)
  tz_from_local : Z → LocalResult;
}.

Definition local_date (tz : TimeZone) (dt : Z) : Z := (dt + tz_offset tz dt) / DAY_NANOS.

(** [FixedOffset::east_opt(seconds)] *)
Definition fixed_offset (seconds : Z) : option TimeZone :=
  if decide (-86400 < seconds < 86400)
  then Some (mkTimeZone (λ _, seconds * 1000000000) (λ local, LocalSingle (local - seconds * 1000000000)))
  else None.

Inductive CycleWindowError : Type :=
| InvalidCycleTzOffset
| FailedToBuildLocalMidnight
| FailedToBuildLocalOneAm
| FailedToResolveLocalTime.

Definition CycleWindowError_display (e : CycleWindowError) : string :=
  match e with
  | InvalidCycleTzOffset => "invalid tz_offset_minutes"
  | FailedToBuildLocalMidnight => "failed to build local midnight"
  | FailedToBuildLocalOneAm => "failed to build local 01:00"
  | FailedToResolveLocalTime => "failed to resolve local time"
  end.

Inductive CycleTimeZone : Type :=
| FixedOffsetMinutes (tz_offset_minutes : Z)
| Local.
#[global] Instance CycleTimeZone_eq_dec : EqDecision CycleTimeZone.
Proof. solve_decision. Defined.

(** ** Windows *)

Section Windows.
Context `{Calendar}.

(** The requested day, or the last day of a month that does not have it.  The [expect] of
    the source is the [0] no caller reaches. *)
Definition cycle_anchor_date (year month day_of_month : Z) : Z :=
  match from_ymd_opt year month day_of_month with
  | Some date => date
  | None =>
      let '(next_year, next_month) := next_year_month year month in
      match from_ymd_opt next_year next_month 1 with
      | Some first_of_next => first_of_next - 1
      | None => 0
      end
  end.

(** Midnight of a date as a local reading always exists ([and_hms_opt]); where the zone
    skips it, one o'clock is used. *)
Definition at_start_of_day (tz : TimeZone) (date : Z) : result Z CycleWindowError :=
  match tz_from_local tz (date * DAY_NANOS) with
  | LocalSingle dt => Ok dt
  | LocalAmbiguous dt _ => Ok dt
  | LocalNone =>
      match tz_from_local tz (date * DAY_NANOS + HOUR_NANOS) with
      | LocalSingle dt => Ok dt
      | LocalAmbiguous dt _ => Ok dt
      | LocalNone => Err FailedToResolveLocalTime
      end
  end.

Definition cycle_window_at (tz : TimeZone) (now : Z) (day_of_month : Z) : result (Z * Z) CycleWindowError :=
  let today := local_date tz now in
  let anchor_this := cycle_anchor_date (date_year today) (date_month today) day_of_month in
  let? start_this := at_start_of_day tz anchor_this in
  let? start :=
    if start_this <=? now then Ok start_this
    else
      let '(prev_year, prev_month) := prev_year_month (date_year today) (date_month today) in
      at_start_of_day tz (cycle_anchor_date prev_year prev_month day_of_month) in
  let start_date := local_date tz start in
  let '(next_year, next_month) := next_year_month (date_year start_date) (date_month start_date) in
  let? finish := at_start_of_day tz (cycle_anchor_date next_year next_month day_of_month) in
  Ok (start, finish).

(** The zone a node's setting stands for, given the zone of the machine. *)
Definition cycle_zone (machine : TimeZone) (tz : CycleTimeZone) : result TimeZone CycleWindowError :=
  match tz with
  | FixedOffsetMinutes tz_offset_minutes => ok_or (fixed_offset (tz_offset_minutes * 60)) InvalidCycleTzOffset
  | Local => Ok machine
  end.

Definition current_cycle_window_at (machine : TimeZone) (tz : CycleTimeZone) (day_of_month now_utc : Z)
    : result (Z * Z) CycleWindowError :=
  let? tz := cycle_zone machine tz in
  cycle_window_at tz now_utc day_of_month.
End Windows.

(** * Cycles tile time *)

(** Arithmetic with divisions by constants. *)
Ltac div_lia := Z.div_mod_to_equations; lia.

(** What the windows need of a zone: an instant that [from_local_datetime] answers has the local
    reading that was asked for; the local date never goes back; and of midnight and one
    o'clock of a day, not both are skipped.  (A zone that sets its clocks back over midnight
    breaks the second: there the local date goes back.) *)
Class ZoneLaws (tz : TimeZone) : Prop := {
  zone_sound : ∀ l t, (tz_from_local tz l = LocalSingle t ∨ ∃ t', tz_from_local tz l = LocalAmbiguous t t') → t + tz_offset tz t = l;
  zone_dates : ∀ t t', t ≤ t' → local_date tz t ≤ local_date tz t';
  zone_starts : ∀ date, tz_from_local tz (date * DAY_NANOS) ≠ LocalNone ∨ tz_from_local tz (date * DAY_NANOS + HOUR_NANOS) ≠ LocalNone;
}.

(** Fixed offsets have no clock changes. *)
Lemma fixed_offset_laws seconds tz : fixed_offset seconds = Some tz → ZoneLaws tz.
Proof.
  unfold fixed_offset. case_decide; [|done]. intros [= <-]. split; cbn.
  - intros l t [[= <-]|[t' ?]]; [lia|done].
  - intros t t' Hle. unfold local_date. cbn. apply Z.div_le_mono; [done|lia].
  - by left.
Qed.

(** Days begin at an instant of that day. *)
Lemma start_of_day_date tz `{!ZoneLaws tz} date : ∃ t, at_start_of_day tz date = Ok t ∧ local_date tz t = date.
Proof.
  pose proof (zone_sound (tz := tz)) as Hsound. unfold at_start_of_day, local_date.
  assert (∀ n, 0 ≤ n < DAY_NANOS → (date * DAY_NANOS + n) / DAY_NANOS = date) as Hdate.
  { intros n Hn. rewrite Z.add_comm, Z.div_add by done. rewrite Z.div_small by done. lia. }
  assert (0 ≤ HOUR_NANOS < DAY_NANOS) as Hhour by done.
  destruct (tz_from_local tz (date * DAY_NANOS)) as [t|t t'|] eqn:Hm.
  - exists t. split; [done|]. rewrite (Hsound (date * DAY_NANOS) t) by eauto. by apply Z.div_mul.
  - exists t. split; [done|]. rewrite (Hsound (date * DAY_NANOS) t) by eauto. by apply Z.div_mul.
  - destruct (zone_starts (tz := tz) date) as [|Hone]; [done|].
    destruct (tz_from_local tz (date * DAY_NANOS + HOUR_NANOS)) as [t|t t'|] eqn:Ho; [| |done];
      (exists t; split; [done|]; rewrite (Hsound (date * DAY_NANOS + HOUR_NANOS) t) by eauto; by apply Hdate).
Qed.

Section Tiling.
Context `{Calendar} (day_of_month : Z) (tz : TimeZone) `{!ZoneLaws tz}.

(** Months are numbered from year zero. *)
Definition month_index (n : Z) : Z := 12 * date_year n + date_month n - 1.
Definition anchor (i : Z) : Z := cycle_anchor_date (i / 12) (i mod 12 + 1) day_of_month.
Definition starts (i t : Z) : Prop := at_start_of_day tz (anchor i) = Ok t.
Definition months_ok (i : Z) : Prop := 12 * (MIN_YEAR + 1) ≤ i < 12 * MAX_YEAR.

Lemma next_year_month_index i :
  next_year_month (i / 12) (i mod 12 + 1) = ((i + 1) / 12, (i + 1) mod 12 + 1).
Proof. unfold next_year_month. case_decide; f_equal; div_lia. Qed.

Lemma prev_year_month_index i :
  prev_year_month (i / 12) (i mod 12 + 1) = ((i - 1) / 12, (i - 1) mod 12 + 1).
Proof. unfold prev_year_month. case_decide; f_equal; div_lia. Qed.

Lemma month_of n : date_year n = month_index n / 12 ∧ date_month n = month_index n mod 12 + 1.
Proof. pose proof (month_valid n). unfold month_index. split; div_lia. Qed.

Lemma month_index_mono a b : a ≤ b → month_index a ≤ month_index b.
Proof.
  intros Hab. destruct (Z.le_gt_cases (month_index a) (month_index b)) as [|Hlt]; [done|].
  pose proof (month_valid a). pose proof (month_valid b). unfold month_index in Hlt.
  assert (b < a); [|lia]. apply month_order. lia.
Qed.

(** The anchor of a month is a day of that month. *)
Lemma anchor_month i : months_ok i → month_index (anchor i) = i.
Proof.
  intros Hi. unfold anchor, cycle_anchor_date, month_index, months_ok in *.
  destruct (from_ymd_opt _ _ day_of_month) as [n|] eqn:Hn; [apply from_ymd_month in Hn as [-> ->]; div_lia|].
  pose proof (month_end (i / 12) (i mod 12 + 1)) as Hend. rewrite next_year_month_index in *. cbn [fst snd] in Hend.
  destruct (first_exists ((i + 1) / 12) ((i + 1) mod 12 + 1)) as [k Hk]; [unfold MIN_YEAR, MAX_YEAR in *; div_lia..|]. rewrite Hk in *.
  destruct (Hend k) as [-> ->]; [div_lia|done|div_lia].
Qed.

(** The month of an instant; the start of a cycle is an instant of its month. *)
Definition month_at (t : Z) : Z := month_index (local_date tz t).

Lemma month_at_mono t t' : t ≤ t' → month_at t ≤ month_at t'.
Proof. intros Hle. by apply month_index_mono, zone_dates. Qed.
Lemma month_at_before t t' : month_at t < month_at t' → t < t'.
Proof. intros Hlt. destruct (Z.le_gt_cases t' t) as [Hle%month_at_mono|]; lia. Qed.

Lemma starts_exists i : ∃ t, starts i t.
Proof. destruct (start_of_day_date tz (anchor i)) as (t & Ht & _). by exists t. Qed.
Lemma starts_month i t : months_ok i → starts i t → month_at t = i.
Proof.
  intros Hi Ht. destruct (start_of_day_date tz (anchor i)) as (t' & Ht' & Hd). unfold starts in Ht. rewrite Ht' in Ht. injection Ht as <-.
  unfold month_at. rewrite Hd. by apply anchor_month.
Qed.
Lemma starts_strict i j t t' : months_ok i → months_ok j → starts i t → starts j t' → i < j → t < t'.
Proof. intros Hi Hj Ht Ht' Hij. apply month_at_before. by rewrite (starts_month i t), (starts_month j t'). Qed.
Lemma starts_le i j t t' : months_ok i → months_ok j → starts i t → starts j t' → i ≤ j → t ≤ t'.
Proof.
  intros Hi Hj Ht Ht' Hij. destruct (decide (i = j)) as [<-|]; [unfold starts in *; rewrite Ht in Ht'; injection Ht'; lia|].
  assert (t < t'); [|lia]. apply (starts_strict i j); [done..|lia].
Qed.

(** The window an instant finds starts with the month of the instant or with the one before. *)
Lemma cycle_window_index now (i := month_at now) :
  months_ok (i - 1) → months_ok (i + 1) →
  ∃ j start finish, i - 1 ≤ j ≤ i ∧ starts j start ∧ starts (j + 1) finish ∧
    cycle_window_at tz now day_of_month = Ok (start, finish) ∧ start ≤ now < finish.
Proof.
  intros Hlo Hhi. assert (months_ok i) as Hi by (unfold months_ok in *; lia).
  destruct (starts_exists (i - 1)) as [p Hp], (starts_exists i) as [t Ht], (starts_exists (i + 1)) as [n Hn].
  assert (p < now) by (apply month_at_before; rewrite (starts_month (i - 1)) by done; fold i; lia).
  assert (now < n) by (apply month_at_before; rewrite (starts_month (i + 1) n) by done; fold i; lia).
  assert (∀ j start, months_ok j → starts j start →
    next_year_month (date_year (local_date tz start)) (date_month (local_date tz start)) = ((j + 1) / 12, (j + 1) mod 12 + 1)) as Hnext.
  { intros j start Hj Hs. destruct (month_of (local_date tz start)) as [-> ->]. fold (month_at start). rewrite (starts_month j) by done. apply next_year_month_index. }
  unfold cycle_window_at. cbv zeta. destruct (month_of (local_date tz now)) as [-> ->]. fold (month_at now). fold i. fold (anchor i).
  unfold starts in Ht. rewrite Ht. cbn [rbind]. destruct (Z.leb_spec t now) as [Hle|Hgt].
  - exists i, t, n. cbn [rbind]. rewrite (Hnext i t) by done. fold (anchor (i + 1)). unfold starts in Hn. rewrite Hn. split_and!; try done; lia.
  - exists (i - 1), p, t. rewrite prev_year_month_index. fold (anchor (i - 1)). pose proof Hp as Hp'. unfold starts in Hp'. rewrite Hp'. cbn [rbind].
    rewrite (Hnext (i - 1) p) by done. replace (i - 1 + 1) with i by lia. fold (anchor i). rewrite Ht. split_and!; try done; lia.
Qed.

(** Every instant of a window has that window. *)
Lemma window_at_index j now start finish :
  months_ok (j - 1) → months_ok (j + 2) → starts j start → starts (j + 1) finish → start ≤ now < finish →
  cycle_window_at tz now day_of_month = Ok (start, finish).
Proof.
  intros Hlo Hhi Hs Hf [Hnow Hnow']. unfold months_ok in *.
  pose proof (month_at_mono start now Hnow) as Hji. rewrite (starts_month j) in Hji by (done || unfold months_ok; lia).
  pose proof (month_at_mono now finish ltac:(lia)) as Hij. rewrite (starts_month (j + 1) finish) in Hij by (done || unfold months_ok; lia).
  destruct (cycle_window_index now) as (k & s & f & Hk & Hks & Hkf & -> & Hwin); [unfold months_ok; lia..|].
  assert (k = j) as ->.
  { destruct (Z.lt_trichotomy k j) as [Hlt|[|Hlt]]; [|done|]; exfalso.
    - assert (f ≤ start); [|lia]. apply (starts_le (k + 1) j); [unfold months_ok; lia|unfold months_ok; lia|done|done|lia].
    - assert (finish ≤ s); [|lia]. apply (starts_le (j + 1) k); [unfold months_ok; lia|unfold months_ok; lia|done|done|lia]. }
  unfold starts in *. rewrite Hs in Hks. rewrite Hf in Hkf. by injection Hks as ->; injection Hkf as ->.
Qed.
End Tiling.

(** C20: the quota windows of a node tile time, for a fixed offset and for the zone of the machine
    alike (the latter as long as its local date never goes back and no day lacks both midnight
    and one o'clock): every instant, whose local year the calendar covers with some margin, has
    a window that contains it, every instant of that window has the same window, and the next
    window starts exactly where it ends.  A midnight that occurs twice or is skipped by a
    change of the clocks is covered. *)
Theorem cycle_windows_tile `{Calendar} (machine zone : TimeZone) (setting : CycleTimeZone) (day_of_month now : Z)
    (Hzone : cycle_zone machine setting = Ok zone)
    (Hlocal : setting = Local → ZoneLaws machine)
    (Hyear : MIN_YEAR + 3 ≤ date_year (local_date zone now) ≤ MAX_YEAR - 3) :
  let window := current_cycle_window_at machine setting day_of_month in
  ∃ start finish next,
    window now = Ok (start, finish) ∧ start ≤ now < finish ∧
    (∀ now', start ≤ now' < finish → window now' = Ok (start, finish)) ∧
    window finish = Ok (finish, next).
Proof.
  unfold current_cycle_window_at. rewrite Hzone. cbn [rbind].
  assert (ZoneLaws zone) as Hlaws.
  { destruct setting as [minutes|]; cbn in Hzone; [|injection Hzone as <-; by apply Hlocal].
    destruct (fixed_offset (minutes * 60)) as [tz|] eqn:Hfix; [|done]. injection Hzone as <-. by eapply fixed_offset_laws. }
  pose proof (month_valid (local_date zone now)) as Hmonth.
  destruct (cycle_window_index day_of_month zone now) as (j & start & finish & Hj & Hs & Hf & Hwin & Hnow);
    [unfold months_ok, month_at, month_index, MIN_YEAR, MAX_YEAR in *; lia..|].
  assert (∀ k, j - 2 ≤ k ≤ j + 3 → months_ok k) as Hok by (intros k Hk; unfold months_ok, month_at, month_index, MIN_YEAR, MAX_YEAR in *; lia).
  destruct (starts_exists day_of_month zone (j + 2)) as [next Hn].
  exists start, finish, next. split_and!; [done|apply Hnow|apply Hnow| |].
  - intros now' Hnow'. apply (window_at_index day_of_month zone j); [apply Hok; lia..|done|done|done].
  - apply (window_at_index day_of_month zone (j + 1)); [apply Hok; lia..|done|by replace (j + 1 + 1) with (j + 2) by lia|].
    split; [lia|]. apply (starts_strict day_of_month zone (j + 1) (j + 2)); [apply Hok; lia..|done|done|lia].
Qed.

(** A calendar of twelve months of thirty days. *)
Definition even_calendar : Calendar.
Proof.
  refine {| from_ymd_opt y m d := if decide (1 ≤ m ≤ 12 ∧ 1 ≤ d ≤ 30) then Some (360 * y + 30 * (m - 1) + (d - 1)) else None;
            date_year n := n / 360; date_month n := n mod 360 / 30 + 1 |}.
  - intros y m d n. case_decide; [|done]. intros [= <-]. split; div_lia.
  - intros y m _ Hm. rewrite decide_True by lia. eauto.
  - intros n. div_lia.
  - intros a b. intros [?|[? ?]]; div_lia.
  - intros y m k Hm. unfold next_year_month. destruct (decide (m = 12)); cbn; rewrite decide_True by lia; intros [= <-]; split; div_lia.
Defined.

(** A zone that goes from midnight to one o'clock on day 19679 and back from one o'clock to
    midnight on day 19859: the midnight of the one is skipped, that of the other occurs twice. *)
Definition spring : Z := 19679 * DAY_NANOS.
Definition autumn : Z := 19859 * DAY_NANOS.
Definition summer_zone : TimeZone :=
  mkTimeZone (λ t, if (spring <=? t) && (t <? autumn) then HOUR_NANOS else 0)
    (λ l, if l <? spring then LocalSingle l else if l <? spring + HOUR_NANOS then LocalNone
          else if l <? autumn then LocalSingle (l - HOUR_NANOS)
          else if l <? autumn + HOUR_NANOS then LocalAmbiguous (l - HOUR_NANOS) l else LocalSingle l).
Lemma summer_zone_laws : ZoneLaws summer_zone.
Proof.
  split; unfold local_date; cbn.
  - intros l t. unfold spring, autumn, HOUR_NANOS, DAY_NANOS. repeat case_match; intros [?|[? ?]]; simplify_eq; lia.
  - intros t t' Hle. unfold spring, autumn, HOUR_NANOS, DAY_NANOS. repeat case_match; try (apply Z.div_le_mono; lia); div_lia.
  - intros date. unfold spring, autumn, HOUR_NANOS, DAY_NANOS. repeat case_match; try (by left); try (by right); lia.
Qed.

Lemma cycle_windows_tile_witness :
  let window := @current_cycle_window_at even_calendar summer_zone Local 30 in
  ∃ start finish next, window 1700000000000000000 = Ok (start, finish) ∧ start ≤ 1700000000000000000 < finish ∧
    (∀ now', start ≤ now' < finish → window now' = Ok (start, finish)) ∧ window finish = Ok (finish, next).
Proof. apply (@cycle_windows_tile even_calendar summer_zone summer_zone); [done|intros _; apply summer_zone_laws|vm_compute; split; discriminate]. Defined.
