(* ===== verification/Lifecycle.v ===== *)
(** * Join sessions and membership operations

    [src/join_session.rs] and the record of [src/state/membership_operation.rs]: the two
    durable state machines behind cluster membership.  A stored value is replaced only by
    one its [validate_successor] accepts; the histories a store can hold are therefore the
    paths of the relations [session_step] and [operation_step] below. *)

From S2P Require Import Prelude Text Clock.
Open Scope string_scope.

(** ** Join sessions *)

Inductive JoinSessionStatus : Type := Reserved | LearnerRegistered | Consumed | Expired.
#[global] Instance JoinSessionStatus_eq_dec : EqDecision JoinSessionStatus.
Proof. solve_decision. Defined.

Definition JoinSessionStatus_is_pending (s : JoinSessionStatus) : bool :=
  match s with Reserved | LearnerRegistered => true | _ => false end.

Definition JoinSessionStatus_may_transition_to (s next : JoinSessionStatus) : bool :=
  match s, next with
  | Reserved, (Reserved | LearnerRegistered | Expired) => true
  | LearnerRegistered, (LearnerRegistered | Consumed | Expired) => true
  | Consumed, Consumed => true
  | Expired, Expired => true
  | _, _ => false
  end.

Record JoinSession : Type := mkJoinSession {
  js_node_id : string;
  js_request_fingerprint : string;
  js_signed_cert_pem : string;
  js_token_expires_at : string;
  js_activation_deadline : string;
  js_required_log_index : N;
  js_status : JoinSessionStatus;
  js_terminal_at : option string;
}.
#[global] Instance JoinSession_eq_dec : EqDecision JoinSession.
Proof. solve_decision. Defined.
#[export] Instance JoinSession_eta : Eta JoinSession := λ r,
  mkJoinSession (js_node_id r) (js_request_fingerprint r) (js_signed_cert_pem r) (js_token_expires_at r)
    (js_activation_deadline r) (js_required_log_index r) (js_status r) (js_terminal_at r).

Definition learner_registered (s : JoinSession) (required_log_index : N) : JoinSession :=
  s <| js_required_log_index := N.max (js_required_log_index s) required_log_index |>
    <| js_status := LearnerRegistered |>.

Definition JoinSession_validate_successor (s next : JoinSession) : result unit string :=
  if negb (bool_decide (js_node_id s = js_node_id next))
     || negb (bool_decide (js_request_fingerprint s = js_request_fingerprint next))
     || negb (bool_decide (js_signed_cert_pem s = js_signed_cert_pem next))
     || negb (bool_decide (js_token_expires_at s = js_token_expires_at next))
     || negb (bool_decide (js_activation_deadline s = js_activation_deadline next))
  then Err "immutable join session identity changed"
  else if negb (JoinSessionStatus_may_transition_to (js_status s) (js_status next))
  then Err "invalid join session status transition"
  else if (js_required_log_index next <? js_required_log_index s)%N
  then Err "join session required log index moved backwards"
  else Ok tt.

(** ** Membership operations *)

Inductive MembershipOperationKind : Type := Join | Restore | RemoveNode | RepairOrphanVoter.
#[global] Instance MembershipOperationKind_eq_dec : EqDecision MembershipOperationKind.
Proof. solve_decision. Defined.

Inductive MembershipOperationPhase : Type :=
| Prepared
| OpLearnerRegistered
| VoterPromoted
| MembershipRemoved
| Completed
| Blocked
| OpExpired.
#[global] Instance MembershipOperationPhase_eq_dec : EqDecision MembershipOperationPhase.
Proof. solve_decision. Defined.

Definition is_terminal (p : MembershipOperationPhase) : bool :=
  match p with Completed | Blocked | OpExpired => true | _ => false end.

Definition MembershipOperationPhase_may_transition_to (p next : MembershipOperationPhase) : bool :=
  match p, next with
  | Prepared, (Prepared | OpLearnerRegistered | MembershipRemoved | Blocked | OpExpired) => true
  | OpLearnerRegistered, (OpLearnerRegistered | VoterPromoted | Blocked | OpExpired) => true
  | VoterPromoted, (VoterPromoted | Completed | Blocked) => true
  | MembershipRemoved, (MembershipRemoved | Completed | Blocked) => true
  | Completed, Completed => true
  | Blocked, Blocked => true
  | OpExpired, OpExpired => true
  | _, _ => false
  end.

Record MembershipOperation : Type := mkMembershipOperation {
  op_operation_id : string;
  op_kind : MembershipOperationKind;
  op_raft_node_id : N;
  op_node_id : option string;
  op_expected_membership : string;
  op_phase : MembershipOperationPhase;
  op_legacy : bool;
  op_delete_endpoints : bool;
  op_expected_endpoint_ids : list string;
  op_expected_endpoint_tags : list string;
  op_created_at : string;
  op_next_retry_at : option string;
  op_terminal_at : option string;
  op_evidence : option string;
}.
#[global] Instance MembershipOperation_eq_dec : EqDecision MembershipOperation.
Proof. solve_decision. Defined.
#[export] Instance MembershipOperation_eta : Eta MembershipOperation := λ r,
  mkMembershipOperation (op_operation_id r) (op_kind r) (op_raft_node_id r) (op_node_id r) (op_expected_membership r)
    (op_phase r) (op_legacy r) (op_delete_endpoints r) (op_expected_endpoint_ids r) (op_expected_endpoint_tags r)
    (op_created_at r) (op_next_retry_at r) (op_terminal_at r) (op_evidence r).

Definition is_active (op : MembershipOperation) : bool := negb (is_terminal (op_phase op)).

(** [option.is_none_or(p)]. *)
Definition is_none_or {A} (p : A → bool) (o : option A) : bool :=
  match o with Some a => p a | None => true end.

Definition MembershipOperation_validate_successor `{Rfc3339} (op next : MembershipOperation) : result unit string :=
  if negb (bool_decide (op_operation_id op = op_operation_id next))
     || negb (bool_decide (op_kind op = op_kind next))
     || negb (bool_decide (op_raft_node_id op = op_raft_node_id next))
     || negb (bool_decide (op_node_id op = op_node_id next))
     || negb (bool_decide (op_created_at op = op_created_at next))
     || negb (Bool.eqb (op_legacy op) (op_legacy next))
     || negb (Bool.eqb (op_delete_endpoints op) (op_delete_endpoints next))
     || negb (bool_decide (op_expected_endpoint_ids op = op_expected_endpoint_ids next))
     || negb (bool_decide (op_expected_endpoint_tags op = op_expected_endpoint_tags next))
  then Err "immutable membership operation identity changed"
  else if negb (MembershipOperationPhase_may_transition_to (op_phase op) (op_phase next))
  then Err "invalid membership operation phase transition"
  else if negb (Bool.eqb (is_terminal (op_phase next)) (bool_decide (is_Some (op_terminal_at next))))
  then Err "terminal membership operation must have terminal_at"
  else if is_terminal (op_phase next) && is_none_or (λ evidence, str_is_empty (trim evidence)) (op_evidence next)
  then Err "terminal membership operation must have evidence"
  else if is_terminal (op_phase next)
          && is_none_or (λ timestamp, bool_decide (parse_rfc3339 timestamp = None)) (op_terminal_at next)
  then Err "terminal membership operation timestamp is invalid"
  else Ok tt.

(** * Histories of a join session *)

Definition session_step (s next : JoinSession) : Prop := JoinSession_validate_successor s next = Ok tt.

(** The fields a session never changes. *)
Definition session_identity (s : JoinSession) : string * string * string * string * string :=
  (js_node_id s, js_request_fingerprint s, js_signed_cert_pem s, js_token_expires_at s, js_activation_deadline s).

Lemma session_step_iff s next :
  session_step s next ↔
  session_identity s = session_identity next ∧
  JoinSessionStatus_may_transition_to (js_status s) (js_status next) = true ∧
  (js_required_log_index s ≤ js_required_log_index next)%N.
Proof.
  unfold session_step, JoinSession_validate_successor, session_identity.
  destruct s, next; simpl. split.
  - intros H. destruct_ok. rewrite !orb_false_iff, !negb_false_iff, !bool_decide_eq_true, N.ltb_ge in *.
    destruct_and!. split_and!; congruence || done.
  - intros (Hid & -> & Hle). simplify_eq. rewrite !bool_decide_true by done. simpl.
    by rewrite (proj2 (N.ltb_ge _ _)).
Qed.

(** Pending before terminal, reserved before registered. *)
Lemma session_status_forward a b :
  JoinSessionStatus_may_transition_to a b = true →
  (JoinSessionStatus_is_pending a = false → b = a) ∧ (b = Consumed → a = LearnerRegistered ∨ a = Consumed).
Proof. destruct a, b; simpl; intros; split; intros; by auto. Qed.

(** Along any sequence of accepted updates of a join session, its identity (node,
    request fingerprint, certificate and deadlines) stays the same, the log index the node
    has to reach never moves back, and a session that is consumed or expired keeps that
    status; a session that starts out reserved is consumed only after an update that
    registered its learner. *)
Theorem join_session_history (s s' : JoinSession) (Hpath : rtc session_step s s') :
  session_identity s' = session_identity s ∧
  (js_required_log_index s ≤ js_required_log_index s')%N ∧
  (JoinSessionStatus_is_pending (js_status s) = false → js_status s' = js_status s) ∧
  (js_status s' = Consumed → js_status s ≠ Consumed →
   ∃ mid, rtc session_step s mid ∧ rtc session_step mid s' ∧ js_status mid = LearnerRegistered).
Proof.
  induction Hpath as [s|s m s' Hstep Hpath (Hid & Hlog & Hfin & Hcons)]; [split_and!; done|].
  pose proof Hstep as (Hid' & Hstat & Hlog')%session_step_iff.
  apply session_status_forward in Hstat as [Hkeep Hcons']. split_and!; [congruence|lia| |].
  - intros Hp. rewrite <-(Hkeep Hp). apply Hfin. by rewrite (Hkeep Hp).
  - intros Hs' Hs. destruct (decide (js_status m = Consumed)) as [Hm|Hm].
    + destruct (Hcons' Hm) as [Hl|?]; [|done].
      exists s. split_and!; [done|by eapply rtc_l|done].
    + destruct (Hcons Hs' Hm) as (mid & ? & ? & ?). exists mid. split_and!; [by eapply rtc_l|done..].
Qed.

Definition session_example (status : JoinSessionStatus) (index : N) : JoinSession :=
  mkJoinSession "node" "fp" "cert" "t0" "t1" index status None.

Lemma join_session_history_witness :
  session_identity (session_example Consumed 42) = session_identity (session_example Reserved 0) ∧
  ∃ mid, rtc session_step (session_example Reserved 0) mid ∧
         rtc session_step mid (session_example Consumed 42) ∧ js_status mid = LearnerRegistered.
Proof.
  assert (rtc session_step (session_example Reserved 0) (session_example Consumed 42)) as Hpath.
  { eapply (rtc_l _ _ (session_example LearnerRegistered 42)); [|eapply rtc_once]; reflexivity. }
  destruct (join_session_history _ _ Hpath) as (Hid & _ & _ & Hmid).
  exact (conj Hid (Hmid eq_refl ltac:(discriminate))).
Defined.

(** Registering the learner is an accepted update of a session exactly while the
    session is pending, and it never lowers the required log index. *)
Theorem learner_registered_accepted (s : JoinSession) (index : N) :
  JoinSession_validate_successor s (learner_registered s index) = Ok tt ↔
  JoinSessionStatus_is_pending (js_status s) = true.
Proof.
  change (session_step s (learner_registered s index) ↔ JoinSessionStatus_is_pending (js_status s) = true).
  rewrite session_step_iff. destruct s as [? ? ? ? ? i st ?]; simpl. split.
  - intros (_ & Hst & _). by destruct st.
  - intros Hp. split_and!; [done|by destruct st|lia].
Qed.

(** * Histories of a membership operation *)

Section Operations.
Context `{Rfc3339}.

Definition operation_step (op next : MembershipOperation) : Prop := MembershipOperation_validate_successor op next = Ok tt.

Definition operation_identity (op : MembershipOperation) :=
  (op_operation_id op, op_kind op, op_raft_node_id op, op_node_id op, op_created_at op,
   (op_legacy op, op_delete_endpoints op, op_expected_endpoint_ids op, op_expected_endpoint_tags op)).

(** What the record of a terminal operation has to carry. *)
Definition terminal_record (op : MembershipOperation) : Prop :=
  (is_terminal (op_phase op) = true →
   (∃ t, op_terminal_at op = Some t ∧ is_Some (parse_rfc3339 t)) ∧
   (∃ e, op_evidence op = Some e ∧ trim e ≠ "")) ∧
  (is_terminal (op_phase op) = false → op_terminal_at op = None).

Lemma operation_step_inv op next :
  operation_step op next →
  operation_identity op = operation_identity next ∧
  MembershipOperationPhase_may_transition_to (op_phase op) (op_phase next) = true ∧
  terminal_record next.
Proof.
  unfold operation_step, MembershipOperation_validate_successor, operation_identity, terminal_record.
  destruct op, next; simpl. intros Hs. destruct_ok.
  rewrite ?orb_false_iff, ?negb_false_iff, ?bool_decide_eq_true, ?eqb_true_iff in *.
  destruct_and!. split_and!; [congruence|done| |].
  - intros Ht. rewrite Ht in *. simpl in *.
    repeat match goal with H : is_none_or _ ?o = false |- _ => destruct o; [|discriminate H]; simpl in H end.
    unfold str_is_empty in *. rewrite !bool_decide_eq_false in *.
    split; eexists; (split; [done|]); [by apply not_eq_None_Some|done].
  - intros Ht. rewrite Ht in *. destruct op_terminal_at1; [|done]. exfalso.
    match goal with H : false = bool_decide _ |- _ => symmetry in H; apply bool_decide_eq_false in H; apply H; eauto end.
Qed.

Lemma operation_phase_forward a b :
  MembershipOperationPhase_may_transition_to a b = true →
  (is_terminal a = true → b = a) ∧
  (b = Completed → a = VoterPromoted ∨ a = MembershipRemoved ∨ a = Completed).
Proof. destruct a, b; simpl; intros; split; intros; by auto. Qed.

(** Along any sequence of accepted transitions of a membership operation its identity
    and its endpoint snapshot stay the same, a terminal phase is final, and every record
    written carries a parsable end time and non-blank evidence exactly when it is terminal;
    an operation completes only from a recorded promotion or removal. *)
Theorem membership_operation_history (op op' : MembershipOperation) (Hpath : rtc operation_step op op') :
  operation_identity op' = operation_identity op ∧
  (is_terminal (op_phase op) = true → op_phase op' = op_phase op) ∧
  (op' = op ∨ terminal_record op') ∧
  (op_phase op' = Completed → op_phase op ≠ Completed →
   ∃ mid, rtc operation_step op mid ∧ rtc operation_step mid op' ∧
          (op_phase mid = VoterPromoted ∨ op_phase mid = MembershipRemoved)).
Proof.
  induction Hpath as [op|op m op' Hstep Hpath (Hid & Hfin & Hrec & Hcomp)]; [split_and!; auto; done|].
  pose proof Hstep as (Hid' & Hphase & Hrec')%operation_step_inv.
  apply operation_phase_forward in Hphase as [Hkeep Hfrom]. split_and!; [congruence| | |].
  - intros Ht. rewrite <-(Hkeep Ht). apply Hfin. by rewrite (Hkeep Ht).
  - right. destruct Hrec as [-> |]; done.
  - intros Hc Hne. destruct (decide (op_phase m = Completed)) as [Hm|Hm].
    + exists op. split_and!; [done|by eapply rtc_l|]. destruct (Hfrom Hm) as [?|[?|?]]; auto; done.
    + destruct (Hcomp Hc Hm) as (mid & ? & ? & ?). exists mid. split_and!; [by eapply rtc_l|done..].
Qed.
End Operations.

Definition operation_example (phase : MembershipOperationPhase) (terminal_at evidence : option string) : MembershipOperation :=
  mkMembershipOperation "op" RemoveNode 7 (Some "node") "voters=1,7" phase false true ["e"] ["t"] "1" None terminal_at evidence.

Lemma membership_operation_history_witness :
  let op := operation_example Prepared None None in
  let op' := operation_example Completed (Some "9") (Some "removed") in
  operation_identity op' = operation_identity op ∧
  ∃ mid, rtc (@operation_step digits_clock) op mid ∧ rtc (@operation_step digits_clock) mid op' ∧
         (op_phase mid = VoterPromoted ∨ op_phase mid = MembershipRemoved).
Proof.
  intros op op'.
  assert (rtc (@operation_step digits_clock) op op') as Hpath.
  { eapply (rtc_l _ _ (operation_example MembershipRemoved None None)); [|eapply rtc_once]; vm_compute; reflexivity. }
  destruct (@membership_operation_history digits_clock _ _ Hpath) as (Hid & _ & _ & Hmid).
  exact (conj Hid (Hmid eq_refl ltac:(discriminate))).
Defined.
