(* ===== verification/Repository.v ===== *)
(** * History repository membership

    [src/history_repository/identity], [control/capacity.rs] and [control/lifecycle.rs]: the
    members of the history repository, their capacity and their life cycle (syncing, ready,
    retired).  The membership is a vector sorted by node id; a lookup is a binary search. *)

From S2P Require Import Prelude Text Search.
Open Scope string_scope.
Open Scope list_scope.
Open Scope N_scope.

(** ** Identity *)

Inductive RepositoryIdentityError : Type :=
| InvalidNodeId (reason : string)
| InvalidPublicKey (kind reason : string).
#[global] Instance RepositoryIdentityError_eq_dec : EqDecision RepositoryIdentityError.
Proof. solve_decision. Defined.

(** The newtype is its string; [try_from] guards its construction. *)
Notation RepositoryNodeId := string (only parsing).

Definition RepositoryNodeId_try_from (value : string) : result RepositoryNodeId RepositoryIdentityError :=
  if str_is_empty (trim value) then Err (InvalidNodeId "must not be empty")
  else if negb (bool_decide (value = trim value)) then Err (InvalidNodeId "must not have surrounding whitespace")
  else if any_control value then Err (InvalidNodeId "must not contain control characters")
  else Ok value.

Definition PUBLIC_KEY_BYTES : nat := 32.

Definition validate_public_key_bytes (kind : string) (bytes : list N) : result unit RepositoryIdentityError :=
  if forallb (λ b, b =? 0) bytes then Err (InvalidPublicKey kind "must not be all zeroes") else Ok tt.

Record RepositoryNodeIdentity : Type := mkRepositoryNodeIdentity {
  ri_node_id : RepositoryNodeId;
  ri_ed25519_public_key : list N;
  ri_x25519_relay_public_key : list N;
}.
#[global] Instance RepositoryNodeIdentity_eq_dec : EqDecision RepositoryNodeIdentity.
Proof. solve_decision. Defined.

(** ** Capacity *)

Inductive RepositoryCapacityError : Type := ZeroQuota.
#[global] Instance RepositoryCapacityError_eq_dec : EqDecision RepositoryCapacityError.
Proof. solve_decision. Defined.

Definition DEFAULT_HISTORY_REPOSITORY_QUOTA_BYTES : N := 10 * 1024 * 1024 * 1024.
Definition HISTORY_REPOSITORY_LOW_SPACE_GUARD_BYTES : N := 256 * 1024 * 1024.

Inductive HistoryWriteAvailability : Type := Writable | DegradedLowSpace | QuotaReached.
#[global] Instance HistoryWriteAvailability_eq_dec : EqDecision HistoryWriteAvailability.
Proof. solve_decision. Defined.

Definition allows_history_writes (a : HistoryWriteAvailability) : bool :=
  match a with Writable => true | _ => false end.

Record RepositoryCapacity : Type := mkRepositoryCapacity {
  cap_quota_bytes : N;
  cap_used_bytes : N;
  cap_filesystem_available_bytes : N;
}.
#[global] Instance RepositoryCapacity_eq_dec : EqDecision RepositoryCapacity.
Proof. solve_decision. Defined.
#[export] Instance RepositoryCapacity_eta : Eta RepositoryCapacity := λ r,
  mkRepositoryCapacity (cap_quota_bytes r) (cap_used_bytes r) (cap_filesystem_available_bytes r).

Definition unbounded_available_bytes : N := u64_max.

Definition RepositoryCapacity_default : RepositoryCapacity :=
  mkRepositoryCapacity DEFAULT_HISTORY_REPOSITORY_QUOTA_BYTES 0 unbounded_available_bytes.

Definition RepositoryCapacity_validate (c : RepositoryCapacity) : result unit RepositoryCapacityError :=
  if cap_quota_bytes c =? 0 then Err ZeroQuota else Ok tt.

Definition RepositoryCapacity_new (quota_bytes : N) : result RepositoryCapacity RepositoryCapacityError :=
  let capacity := RepositoryCapacity_default <| cap_quota_bytes := quota_bytes |> in
  let? _ := RepositoryCapacity_validate capacity in
  Ok capacity.

Definition record_usage (c : RepositoryCapacity) (used_bytes filesystem_available_bytes : N)
    : result RepositoryCapacity RepositoryCapacityError :=
  let next := mkRepositoryCapacity (cap_quota_bytes c) used_bytes filesystem_available_bytes in
  let? _ := RepositoryCapacity_validate next in
  Ok next.

Definition history_write_availability (c : RepositoryCapacity) : HistoryWriteAvailability :=
  if cap_filesystem_available_bytes c <? HISTORY_REPOSITORY_LOW_SPACE_GUARD_BYTES then DegradedLowSpace
  else if cap_quota_bytes c <=? cap_used_bytes c then QuotaReached
  else Writable.

(** ** Members *)

Definition READY_STABILITY_WINDOW_SECONDS : N := 5 * 60.

Inductive RepositoryLifecycle : Type := Syncing | Ready | Retired.
#[global] Instance RepositoryLifecycle_eq_dec : EqDecision RepositoryLifecycle.
Proof. solve_decision. Defined.

Inductive RepositoryControlError : Type :=
| EmptyMembership
| DuplicateRepositoryMember (node_id : RepositoryNodeId)
| MissingRepository (node_id : RepositoryNodeId)
| InvalidLifecycleTransition (node_id : RepositoryNodeId) (from : RepositoryLifecycle) (action : string)
| CatchUpNotComplete (node_id : RepositoryNodeId)
| StabilityWindowIncomplete (node_id : RepositoryNodeId) (required_seconds elapsed_seconds : N)
| ClockBeforeCatchUp (node_id : RepositoryNodeId)
| NoReadyConvergedReplacement (node_id : RepositoryNodeId)
| LastRepositoryRequiresEmergencyDecision (node_id : RepositoryNodeId)
| EmergencyReasonRequired
| InvalidPersistedMember (node_id : RepositoryNodeId) (reason : string)
| ControlIdentity (e : RepositoryIdentityError)
| ControlCapacity (e : RepositoryCapacityError).
#[global] Instance RepositoryControlError_eq_dec : EqDecision RepositoryControlError.
Proof. solve_decision. Defined.

Definition RepositoryIdentityError_display (e : RepositoryIdentityError) : string :=
  match e with
  | InvalidNodeId reason => "invalid repository node id: " +:+ reason
  | InvalidPublicKey kind reason => "invalid " +:+ kind +:+ " public key: " +:+ reason
  end.

Definition RepositoryLifecycle_debug (l : RepositoryLifecycle) : string :=
  match l with Syncing => "Syncing" | Ready => "Ready" | Retired => "Retired" end.

Definition RepositoryControlError_display (e : RepositoryControlError) : string :=
  match e with
  | EmptyMembership => "repository membership must not be empty"
  | DuplicateRepositoryMember node_id => "duplicate repository member: " +:+ node_id
  | MissingRepository node_id => "repository member not found: " +:+ node_id
  | InvalidLifecycleTransition node_id from action =>
      "repository " +:+ node_id +:+ " cannot " +:+ action +:+ " from lifecycle " +:+ RepositoryLifecycle_debug from
  | CatchUpNotComplete node_id => "repository " +:+ node_id +:+ " has not completed catch-up"
  | StabilityWindowIncomplete node_id required_seconds elapsed_seconds =>
      "repository " +:+ node_id +:+ " stable " +:+ pretty elapsed_seconds +:+ "s; " +:+ pretty required_seconds +:+ "s required"
  | ClockBeforeCatchUp node_id => "ready time precedes catch-up for repository " +:+ node_id
  | NoReadyConvergedReplacement node_id =>
      "repository " +:+ node_id +:+ " needs another ready converged repository before ordinary retirement"
  | LastRepositoryRequiresEmergencyDecision node_id =>
      "repository " +:+ node_id +:+ " is the last active repository and requires an emergency decision"
  | EmergencyReasonRequired => "emergency retirement reason is required"
  | InvalidPersistedMember node_id reason => "invalid persisted repository member " +:+ node_id +:+ ": " +:+ reason
  | ControlIdentity error => RepositoryIdentityError_display error
  | ControlCapacity ZeroQuota => "repository quota must be greater than zero"
  end.

Record RepositoryMember : Type := mkRepositoryMember {
  rm_identity : RepositoryNodeIdentity;
  rm_lifecycle : RepositoryLifecycle;
  rm_catch_up_completed_at : option N;
  rm_ready_at : option N;
  rm_replica_converged : bool;
  rm_capacity : RepositoryCapacity;
}.
#[global] Instance RepositoryMember_eq_dec : EqDecision RepositoryMember.
Proof. solve_decision. Defined.
#[export] Instance RepositoryMember_eta : Eta RepositoryMember := λ r,
  mkRepositoryMember (rm_identity r) (rm_lifecycle r) (rm_catch_up_completed_at r) (rm_ready_at r)
    (rm_replica_converged r) (rm_capacity r).

Definition rm_node_id (m : RepositoryMember) : RepositoryNodeId := ri_node_id (rm_identity m).

Definition ready_at_is_stable (m : RepositoryMember) : bool :=
  match rm_catch_up_completed_at m, rm_ready_at m with
  | Some catch_up_completed_at, Some ready_at =>
      match checked_sub ready_at catch_up_completed_at with
      | Some elapsed_seconds => READY_STABILITY_WINDOW_SECONDS <=? elapsed_seconds
      | None => false
      end
  | _, _ => false
  end.

Definition RepositoryMember_validate (m : RepositoryMember) : result unit RepositoryControlError :=
  let? _ := map_err ControlCapacity (RepositoryCapacity_validate (rm_capacity m)) in
  match rm_lifecycle m with
  | Syncing =>
      if rm_replica_converged m
      then Err (InvalidPersistedMember (rm_node_id m) "syncing repository cannot be converged") else Ok tt
  | Ready =>
      if bool_decide (rm_catch_up_completed_at m = None)
      then Err (InvalidPersistedMember (rm_node_id m) "ready repository requires completed catch-up")
      else if negb (ready_at_is_stable m)
      then Err (InvalidPersistedMember (rm_node_id m) "ready repository requires five stable minutes after catch-up")
      else Ok tt
  | Retired =>
      if rm_replica_converged m
      then Err (InvalidPersistedMember (rm_node_id m) "retired repository cannot be converged")
      else if negb (ready_at_is_stable m)
      then Err (InvalidPersistedMember (rm_node_id m) "retired repository must have been ready after stable catch-up")
      else Ok tt
  end.

Definition RepositoryMember_new (identity : RepositoryNodeIdentity) (capacity : RepositoryCapacity)
    : result RepositoryMember RepositoryControlError :=
  let member := mkRepositoryMember identity Syncing None None false capacity in
  let? _ := RepositoryMember_validate member in
  Ok member.

(** ** Membership

    A [&mut self] method is a function from the members to the members it leaves. *)

Notation RepositoryMembership := (list RepositoryMember) (only parsing).
Implicit Types ms : RepositoryMembership.

Definition member_le (a b : RepositoryMember) : Prop := String.le (rm_node_id a) (rm_node_id b).
#[global] Instance member_le_dec : RelDecision member_le.
Proof. intros a b. unfold member_le. apply _. Defined.

(** [members.windows(2)]: adjacent equal ids. *)
Fixpoint check_adjacent ms : result unit RepositoryControlError :=
  match ms with
  | a :: (b :: _) as rest =>
      if bool_decide (rm_node_id a = rm_node_id b) then Err (DuplicateRepositoryMember (rm_node_id a))
      else check_adjacent rest
  | _ => Ok tt
  end.

Definition RepositoryMembership_new (members : list RepositoryMember) : result RepositoryMembership RepositoryControlError :=
  if bool_decide (members = []) then Err EmptyMembership
  else
  let members := merge_sort member_le members in
  let? _ := try_each RepositoryMember_validate members in
  let? _ := check_adjacent members in
  Ok members.

Definition ready_members ms : list RepositoryMember := filter (λ m, rm_lifecycle m = Ready) ms.

Definition search ms (node_id : RepositoryNodeId) : result nat nat :=
  binary_search_by (λ m, String.compare (rm_node_id m) node_id) ms.

Definition add_repository ms (member : RepositoryMember) : result RepositoryMembership RepositoryControlError :=
  let? _ := RepositoryMember_validate member in
  match search ms (rm_node_id member) with
  | Ok _ => Err (DuplicateRepositoryMember (rm_node_id member))
  | Err index => Ok (vec_insert index member ms)
  end.

Definition repository ms (node_id : RepositoryNodeId) : option RepositoryMember :=
  match search ms node_id with
  | Ok index => ms !! index
  | Err _ => None
  end.

Definition repository_index ms (node_id : RepositoryNodeId) : result nat RepositoryControlError :=
  map_err (λ _, MissingRepository node_id) (search ms node_id).

(** [repository_mut(id)?] followed by a write through the reference. *)
Definition with_member ms (node_id : RepositoryNodeId)
    (f : RepositoryMember → result RepositoryMember RepositoryControlError) : result RepositoryMembership RepositoryControlError :=
  let? index := repository_index ms node_id in
  match ms !! index with
  | Some member => let? member' := f member in Ok (<[index := member']> ms)
  | None => Err (MissingRepository node_id)
  end.

Definition mark_catch_up_complete ms node_id (completed_at : N) : result RepositoryMembership RepositoryControlError :=
  with_member ms node_id (λ member,
    if negb (bool_decide (rm_lifecycle member = Syncing))
    then Err (InvalidLifecycleTransition node_id (rm_lifecycle member) "complete catch-up")
    else if match rm_catch_up_completed_at member with Some previous => completed_at <? previous | None => false end
    then Err (ClockBeforeCatchUp node_id)
    else Ok (member <| rm_catch_up_completed_at := Some completed_at |> <| rm_ready_at := None |>)).

Definition mark_ready ms node_id (ready_at : N) : result RepositoryMembership RepositoryControlError :=
  with_member ms node_id (λ member,
    if negb (bool_decide (rm_lifecycle member = Syncing))
    then Err (InvalidLifecycleTransition node_id (rm_lifecycle member) "become ready")
    else
    let? completed_at := ok_or (rm_catch_up_completed_at member) (CatchUpNotComplete node_id) in
    let? elapsed_seconds := ok_or (checked_sub ready_at completed_at) (ClockBeforeCatchUp node_id) in
    if elapsed_seconds <? READY_STABILITY_WINDOW_SECONDS
    then Err (StabilityWindowIncomplete node_id READY_STABILITY_WINDOW_SECONDS elapsed_seconds)
    else Ok (member <| rm_lifecycle := Ready |> <| rm_ready_at := Some ready_at |>)).

(** The returned flag tells whether a catch-up was discarded. *)
Definition mark_catch_up_incomplete ms node_id : result (RepositoryMembership * bool) RepositoryControlError :=
  let changed := match repository ms node_id with
                 | Some member => negb (bool_decide (rm_catch_up_completed_at member = None))
                                  || negb (bool_decide (rm_ready_at member = None))
                 | None => false
                 end in
  let? ms := with_member ms node_id (λ member,
    if negb (bool_decide (rm_lifecycle member = Syncing))
    then Err (InvalidLifecycleTransition node_id (rm_lifecycle member) "invalidate catch-up")
    else Ok (member <| rm_catch_up_completed_at := None |> <| rm_ready_at := None |>)) in
  Ok (ms, changed).

Definition set_replica_converged ms node_id (replica_converged : bool) : result RepositoryMembership RepositoryControlError :=
  with_member ms node_id (λ member,
    if negb (bool_decide (rm_lifecycle member = Ready))
    then Err (InvalidLifecycleTransition node_id (rm_lifecycle member) "change replica convergence")
    else Ok (member <| rm_replica_converged := replica_converged |>)).

Definition record_capacity ms node_id (used_bytes filesystem_available_bytes : N) : result RepositoryMembership RepositoryControlError :=
  with_member ms node_id (λ member,
    let? capacity := map_err ControlCapacity (record_usage (rm_capacity member) used_bytes filesystem_available_bytes) in
    Ok (member <| rm_capacity := capacity |>)).

Inductive RetirementDecision : Type := Ordinary | ForceEmergency (reason : string).

(** Some member other than the one at [target_index] is ready and converged. *)
Definition replacement_exists ms (target_index : nat) : bool :=
  existsb (λ '(index, member), negb (bool_decide (index = target_index))
                               && bool_decide (rm_lifecycle member = Ready) && rm_replica_converged member)
          (zip (seq 0 (length ms)) ms).

Definition retire ms node_id (decision : RetirementDecision) : result RepositoryMembership RepositoryControlError :=
  let? target_index := repository_index ms node_id in
  match ms !! target_index with
  | None => Err (MissingRepository node_id)
  | Some target =>
      if negb (bool_decide (rm_lifecycle target = Ready))
      then Err (InvalidLifecycleTransition node_id (rm_lifecycle target) "retire")
      else
      let? _ := match decision with
                | Ordinary =>
                    let active_members := length (filter (λ m, rm_lifecycle m ≠ Retired) ms) in
                    if bool_decide (active_members = 1%nat) then Err (LastRepositoryRequiresEmergencyDecision node_id)
                    else if negb (replacement_exists ms target_index) then Err (NoReadyConvergedReplacement node_id)
                    else Ok tt
                | ForceEmergency reason =>
                    if str_is_empty (trim reason) then Err EmergencyReasonRequired else Ok tt
                end in
      Ok (<[target_index := target <| rm_lifecycle := Retired |> <| rm_replica_converged := false |>]> ms)
  end.

(** ** Runtime updates *)

Inductive RepositoryMemberRuntimeUpdate : Type :=
| UpdateCapacity (used_bytes filesystem_available_bytes : N)
| UpdateCatchUpComplete (completed_at : N)
| UpdateCatchUpIncomplete
| UpdateReady (ready_at : N)
| UpdateReplicaConverged (replica_converged : bool).

Record RepositoryMemberRuntimePatch : Type := mkRepositoryMemberRuntimePatch {
  patch_node_id : string;
  patch_update : RepositoryMemberRuntimeUpdate;
}.

(** The state is touched only in its [repository_membership]. *)
Definition apply_repository_member_runtime_update (repository_membership : option RepositoryMembership)
    (patch : RepositoryMemberRuntimePatch) : result (option RepositoryMembership) RepositoryControlError :=
  match RepositoryNodeId_try_from (patch_node_id patch), repository_membership with
  | Err _, _ => Ok repository_membership
  | Ok _, None => Ok None
  | Ok node_id, Some membership =>
      match repository membership node_id with
      | None => Ok (Some membership)
      | Some member =>
          let lifecycle := rm_lifecycle member in
          let catch_up_completed_at := rm_catch_up_completed_at member in
          let current_replica_converged := rm_replica_converged member in
          let? membership' :=
            match patch_update patch with
            | UpdateCapacity used_bytes filesystem_available_bytes =>
                record_capacity membership node_id used_bytes filesystem_available_bytes
            | UpdateCatchUpComplete completed_at =>
                if bool_decide (lifecycle = Syncing)
                   && match catch_up_completed_at with Some current => current <? completed_at | None => true end
                then mark_catch_up_complete membership node_id completed_at
                else Ok membership
            | UpdateCatchUpIncomplete =>
                if bool_decide (lifecycle = Syncing)
                then let? (membership', _) := mark_catch_up_incomplete membership node_id in Ok membership'
                else Ok membership
            | UpdateReady ready_at =>
                if bool_decide (lifecycle = Syncing)
                   && match catch_up_completed_at with
                      | Some completed_at => READY_STABILITY_WINDOW_SECONDS <=? sat_sub ready_at completed_at
                      | None => false
                      end
                then mark_ready membership node_id ready_at
                else Ok membership
            | UpdateReplicaConverged requested_replica_converged =>
                if bool_decide (lifecycle = Ready) && negb (Bool.eqb current_replica_converged requested_replica_converged)
                then set_replica_converged membership node_id requested_replica_converged
                else Ok membership
            end in
          Ok (Some membership')
      end
  end.

(** * Well-formed memberships *)

Definition member_valid (m : RepositoryMember) : Prop := RepositoryMember_validate m = Ok tt.

Record membership_valid (ms : RepositoryMembership) : Prop := {
  mv_nonempty : ms ≠ [];
  mv_sorted : keyed_sorted rm_node_id ms;
  mv_members : Forall member_valid ms;
}.

Lemma stable_iff m :
  ready_at_is_stable m = true ↔
  ∃ c r, rm_catch_up_completed_at m = Some c ∧ rm_ready_at m = Some r ∧ c + READY_STABILITY_WINDOW_SECONDS ≤ r.
Proof.
  unfold ready_at_is_stable, checked_sub. destruct (rm_catch_up_completed_at m) as [c|], (rm_ready_at m) as [r|]; simpl.
  2-4: split; [done|intros (c' & r' & ? & ? & ?); done].
  destruct (decide (c ≤ r)) as [Hle|Hgt].
  - rewrite N.leb_le. split; [intros; exists c, r; split_and!; [done..|lia]|intros (? & ? & [= <-] & [= <-] & ?); lia].
  - split; [done|]. intros (? & ? & [= <-] & [= <-] & ?). lia.
Qed.

Lemma member_valid_iff m :
  member_valid m ↔
  cap_quota_bytes (rm_capacity m) ≠ 0 ∧
  match rm_lifecycle m with
  | Syncing => rm_replica_converged m = false
  | Ready => ready_at_is_stable m = true
  | Retired => rm_replica_converged m = false ∧ ready_at_is_stable m = true
  end.
Proof.
  unfold member_valid, RepositoryMember_validate, RepositoryCapacity_validate.
  destruct (N.eqb_spec (cap_quota_bytes (rm_capacity m)) 0); simpl; [by split; [|intros []]|].
  assert (ready_at_is_stable m = true → rm_catch_up_completed_at m ≠ None) as Hc
    by (intros (? & ? & -> & _)%stable_iff; done).
  destruct (rm_lifecycle m); [| |].
  - destruct (rm_replica_converged m); simpl; split; try done; by intros [].
  - destruct (ready_at_is_stable m); simpl; case_bool_decide; split; try done; [|by intros []..]. intros _. by apply Hc in H.
  - destruct (rm_replica_converged m), (ready_at_is_stable m); simpl; split; try done; by intros (_ & ? & ?).
Qed.

Section Valid.
Context (ms : RepositoryMembership) (Hsorted : keyed_sorted rm_node_id ms).

Lemma search_ok node_id i : search ms node_id = Ok i → ∃ m, ms !! i = Some m ∧ rm_node_id m = node_id.
Proof using Hsorted.
  unfold search. intros H. pose proof (search_keyed rm_node_id ms node_id Hsorted) as Hs. by rewrite H in Hs.
Qed.

Lemma search_member m : m ∈ ms → ∃ i, search ms (rm_node_id m) = Ok i ∧ ms !! i = Some m.
Proof using Hsorted. by apply search_keyed_found. Qed.

Lemma repository_Some node_id m : repository ms node_id = Some m ↔ m ∈ ms ∧ rm_node_id m = node_id.
Proof using Hsorted.
  unfold repository. split.
  - destruct (search ms node_id) as [i|] eqn:Hi; [|done]. intros Hm.
    apply search_ok in Hi as (m' & Hm' & <-). simplify_eq. split; [by eapply list_elem_of_lookup_2|done].
  - intros [(i & Hi & Hm)%search_member <-]. by rewrite Hi.
Qed.

(** A write through [repository_mut]. *)
Lemma with_member_ok node_id f ms' :
  with_member ms node_id f = Ok ms' ↔
  ∃ i m m', ms !! i = Some m ∧ rm_node_id m = node_id ∧ f m = Ok m' ∧ ms' = <[i := m']> ms.
Proof using Hsorted.
  unfold with_member, repository_index. split.
  - destruct (search ms node_id) as [i|] eqn:Hi; simpl; [|done].
    apply search_ok in Hi as (m & Hm & Hid). rewrite Hm. intros H. destruct_ok. eauto 10.
  - intros (i & m & m' & Hm & <- & Hf & ->).
    destruct (search_member m) as (j & -> & Hj); [by eapply list_elem_of_lookup_2|]. simpl. rewrite Hj, Hf. simpl.
    by rewrite (keyed_sorted_index _ _ _ _ _ _ Hsorted Hm Hj eq_refl).
Qed.
End Valid.

(** One call of a mutating method. *)
Inductive repo_step : RepositoryMembership → RepositoryMembership → Prop :=
| step_add ms ms' member : add_repository ms member = Ok ms' → repo_step ms ms'
| step_catch_up_complete ms ms' node_id at_ : mark_catch_up_complete ms node_id at_ = Ok ms' → repo_step ms ms'
| step_ready ms ms' node_id at_ : mark_ready ms node_id at_ = Ok ms' → repo_step ms ms'
| step_catch_up_incomplete ms ms' node_id b : mark_catch_up_incomplete ms node_id = Ok (ms', b) → repo_step ms ms'
| step_converged ms ms' node_id b : set_replica_converged ms node_id b = Ok ms' → repo_step ms ms'
| step_capacity ms ms' node_id used free : record_capacity ms node_id used free = Ok ms' → repo_step ms ms'
| step_retire ms ms' node_id decision : retire ms node_id decision = Ok ms' → repo_step ms ms'.

(** How a member may change: the life cycle only moves forward, the identity stays. *)
Definition lifecycle_rank (l : RepositoryLifecycle) : nat :=
  match l with Syncing => 0 | Ready => 1 | Retired => 2 end.

Record member_update (m m' : RepositoryMember) : Prop := {
  mu_identity : rm_identity m' = rm_identity m;
  mu_lifecycle : (lifecycle_rank (rm_lifecycle m) ≤ lifecycle_rank (rm_lifecycle m'))%nat;
  mu_quota : cap_quota_bytes (rm_capacity m') = cap_quota_bytes (rm_capacity m);
  mu_valid : member_valid m → member_valid m';
}.

(** A step inserts a valid member with a new id, or updates one member in place. *)
Definition step_effect (ms ms' : RepositoryMembership) : Prop :=
  (∃ i m, binary_search_by (λ y, String.compare (rm_node_id y) (rm_node_id m)) ms = Err i ∧
          member_valid m ∧ ms' = vec_insert i m ms) ∨
  (∃ i m m', ms !! i = Some m ∧ member_update m m' ∧ ms' = <[i := m']> ms).

Lemma with_member_effect ms node_id f ms' :
  keyed_sorted rm_node_id ms →
  (∀ m m', f m = Ok m' → member_update m m') →
  with_member ms node_id f = Ok ms' → step_effect ms ms'.
Proof.
  intros Hs Hf (i & m & m' & Hm & _ & Hfm & ->)%with_member_ok; [|done]. right. eauto 10.
Qed.

Ltac solve_update :=
  let m := fresh "m" in let m' := fresh "m'" in let H := fresh "H" in
  intros m m' H; cbv beta in H; destruct_ok; rewrite ?negb_false_iff, ?bool_decide_eq_true in *;
  destruct m as [? ? ? ? ? [? ? ?]]; simpl in *; subst; split; simpl; [done|lia|done|];
  rewrite !member_valid_iff; simpl.

Lemma checked_sub_Some a b c : checked_sub a b = Some c ↔ b ≤ a ∧ c = a - b.
Proof. unfold checked_sub. case_decide; split; try done; [by intros [= <-]|by intros [_ ->]|lia]. Qed.

Lemma repo_step_effect ms ms' : keyed_sorted rm_node_id ms → repo_step ms ms' → step_effect ms ms'.
Proof.
  intros Hs Hstep. destruct Hstep as [ms ms' member H|ms ms' id t H|ms ms' id t H|ms ms' id b H|ms ms' id b H|ms ms' id u f H|ms ms' id d H].
  - left. unfold add_repository in H. destruct_ok. destruct x.
    unfold search in H. destruct (binary_search_by _ ms) as [i|i] eqn:Hi; [done|]. injection H as <-. eauto.
  - eapply with_member_effect; [done| |exact H]. solve_update. done.
  - eapply with_member_effect; [done| |exact H]. solve_update.
    intros [Hq _]. split; [done|]. apply stable_iff. simpl.
    match goal with H : checked_sub _ _ = Some _ |- _ => apply checked_sub_Some in H as [? ->] end.
    rewrite N.ltb_ge in *. eexists _, _. split_and!; [done..|]. lia.
  - unfold mark_catch_up_incomplete in H. destruct_ok. eapply with_member_effect; [done| |eassumption]. solve_update. done.
  - eapply with_member_effect; [done| |exact H]. solve_update. done.
  - eapply with_member_effect; [done| |exact H]. unfold record_usage, RepositoryCapacity_validate.
    intros m m' Hm. destruct m as [id' lc cu ra conv [q us fs]]; simpl in *.
    destruct (N.eqb_spec q 0); simpl in *; [done|]. injection Hm as <-.
    split; simpl; [done|lia|done|]. by rewrite !member_valid_iff.
  - unfold retire, repository_index in H. destruct_ok.
    destruct (search ms id) as [i|] eqn:Hi; [|done]. apply search_ok in Hi as (m & Hm & _); [|done].
    simpl in *. simplify_eq. rewrite Hm in H. destruct_ok.
    rewrite negb_false_iff, bool_decide_eq_true in *. right. eexists _, m, _. split_and!; [done| |done].
    destruct m as [id' lc cu ra conv cap]; simpl in *; subst. split; simpl; [done|lia|done|].
    rewrite !member_valid_iff. simpl. tauto.
Qed.

Lemma step_effect_valid ms ms' : membership_valid ms → step_effect ms ms' → membership_valid ms'.
Proof.
  intros [Hne Hs Hv] [(i & m & Hi & Hm & ->)|(i & m & m' & Hm & [Hid _ _ Hval] & ->)].
  - split; [unfold vec_insert; by destruct (take i ms)|by apply keyed_sorted_insert|].
    unfold vec_insert. rewrite Forall_app, Forall_cons. split_and!; [by apply Forall_take|done|by apply Forall_drop].
  - split.
    + intros Hnil%(f_equal length). rewrite length_insert in Hnil. apply lookup_lt_Some in Hm. simpl in *. lia.
    + eapply keyed_sorted_write; [done| |done]. unfold rm_node_id. by rewrite Hid.
    + apply Forall_insert; [done|]. rewrite Forall_lookup in Hv. eauto.
Qed.

Lemma repo_step_valid ms ms' : membership_valid ms → repo_step ms ms' → membership_valid ms'.
Proof. intros Hv Hstep. eapply step_effect_valid; [done|]. apply repo_step_effect; [apply Hv|done]. Qed.

(** Every member is still there afterwards, with its identity and no earlier life cycle. *)
Definition members_advance (ms ms' : RepositoryMembership) : Prop :=
  ∀ m, m ∈ ms → ∃ m', m' ∈ ms' ∧ rm_identity m' = rm_identity m ∧
                      (lifecycle_rank (rm_lifecycle m) ≤ lifecycle_rank (rm_lifecycle m'))%nat.

Lemma step_effect_advance ms ms' : step_effect ms ms' → members_advance ms ms'.
Proof.
  intros [(i & x & Hi & Hx & ->)|(i & x & x' & Hx & Hu & ->)] m Hm.
  - exists m. split; [|done]. unfold vec_insert. rewrite <-(take_drop i ms) in Hm.
    rewrite elem_of_app in *. rewrite elem_of_cons. tauto.
  - apply list_elem_of_lookup in Hm as [j Hj]. destruct (decide (i = j)) as [->|Hne].
    + simplify_eq. exists x'. split; [|split; apply Hu].
      apply list_elem_of_lookup. exists j. apply list_lookup_insert_eq. by eapply lookup_lt_Some.
    + exists m. split; [|done]. apply list_elem_of_lookup. exists j. by rewrite list_lookup_insert_ne.
Qed.

(** * Building a membership *)

#[global] Instance member_le_total : Total member_le.
Proof. intros a b. apply (total String.le). Qed.
#[global] Instance member_le_trans : Transitive member_le.
Proof. intros a b c. unfold member_le. apply transitivity. Qed.

Lemma check_adjacent_ok ms :
  StronglySorted member_le ms → check_adjacent ms = Ok tt ↔ NoDup (rm_node_id <$> ms).
Proof.
  induction 1 as [|a ms Hs IH Ha]; [split; [constructor|done]|]. csimpl. rewrite NoDup_cons.
  destruct ms as [|b ms]; [simpl; split; [by split; [apply not_elem_of_nil|constructor]|done]|].
  rewrite <-IH. cbn [check_adjacent]. case_bool_decide as Hab.
  - split; [done|]. intros [Hn _]. destruct Hn. rewrite Hab. left.
  - split; [intros Hok; split; [|done]|by intros []].
    apply StronglySorted_inv in Hs as [_ Hb]. rewrite Forall_cons in Ha. destruct Ha as [Hle _].
    csimpl. intros [?|(c & Hc & Hin)%list_elem_of_fmap]%elem_of_cons; [done|].
    rewrite Forall_forall in Hb. specialize (Hb c Hin). unfold member_le in *. apply Hab.
    apply (anti_symm String.le); [done|]. by rewrite Hc.
Qed.

Lemma sorted_nodup_keyed ms : StronglySorted member_le ms → NoDup (rm_node_id <$> ms) → keyed_sorted rm_node_id ms.
Proof.
  unfold keyed_sorted. induction 1 as [|a ms Hs IH Ha]; csimpl; [constructor|].
  intros [Hn Hnd]%NoDup_cons. constructor; [by apply IH|]. apply Forall_fmap. rewrite Forall_forall in *.
  intros b Hb. apply str_lt_le. split; [by apply Ha|]. intros Heq. apply Hn. rewrite Heq. by apply list_elem_of_fmap_2.
Qed.

(** A membership is built from a list of members exactly when the list is non-empty,
    every member is consistent and no node id occurs twice; the result is then a valid
    membership with exactly those members, whatever order they were given in. *)
Theorem repository_membership_new_spec (members : list RepositoryMember) :
  (is_ok (RepositoryMembership_new members) = true ↔
   members ≠ [] ∧ Forall member_valid members ∧ NoDup (rm_node_id <$> members)) ∧
  (∀ ms, RepositoryMembership_new members = Ok ms → membership_valid ms ∧ ms ≡ₚ members).
Proof.
  unfold RepositoryMembership_new. set (l := merge_sort member_le members).
  assert (StronglySorted member_le l) as Hs by (apply StronglySorted_merge_sort; apply _).
  assert (l ≡ₚ members) as Hp by apply merge_sort_Permutation.
  case_bool_decide as Hne; [split; [split; [done|by intros [? _]]|done]|].
  assert (try_each RepositoryMember_validate l = Ok tt ↔ Forall member_valid members) as Hval
    by (rewrite try_each_ok; change (λ x, RepositoryMember_validate x = Ok tt) with member_valid; by rewrite Hp).
  assert (check_adjacent l = Ok tt ↔ NoDup (rm_node_id <$> members)) as Hadj
    by (rewrite check_adjacent_ok by done; by rewrite Hp).
  rewrite <-Hval, <-Hadj. split.
  - destruct (try_each _ l) as [[]|]; simpl; [|by split; [|intros (_ & ? & _)]].
    destruct (check_adjacent l) as [[]|]; simpl; [done|by split; [|intros (_ & _ & ?)]].
  - intros ms H. destruct_ok. destruct x, x0. split; [|done]. split.
    + intros Hnil. rewrite Hnil in Hp. by apply Permutation_nil_l in Hp.
    + apply sorted_nodup_keyed; [done|]. by apply check_adjacent_ok.
    + rewrite Hp. by apply Hval.
Qed.

(** * Retirement *)

Lemma replacement_exists_true ms i :
  replacement_exists ms i = true ↔
  ∃ j m, j ≠ i ∧ ms !! j = Some m ∧ rm_lifecycle m = Ready ∧ rm_replica_converged m = true.
Proof.
  unfold replacement_exists. rewrite existsb_exists. split.
  - intros ([j m] & Hin & Hb). rewrite !andb_true_iff, negb_true_iff, bool_decide_eq_false, bool_decide_eq_true in Hb.
    apply list_elem_of_In, list_elem_of_lookup in Hin as [k Hk]. apply lookup_zip_Some in Hk as [Hk Hm].
    apply lookup_seq in Hk as [-> _]. exists k, m. simpl in *. tauto.
  - intros (j & m & Hne & Hm & Hr & Hc). exists (j, m). split.
    + apply list_elem_of_In, list_elem_of_lookup. exists j. apply lookup_zip_Some. split; [|done].
      apply lookup_seq. split; [done|by eapply lookup_lt_Some].
    + by rewrite Hr, Hc, bool_decide_false, bool_decide_true.
Qed.

(** Looking up after a write through the reference. *)
Lemma repository_write ms i m m' node_id :
  keyed_sorted rm_node_id ms → ms !! i = Some m → rm_node_id m' = rm_node_id m →
  repository (<[i := m']> ms) node_id = if decide (node_id = rm_node_id m) then Some m' else repository ms node_id.
Proof.
  intros Hs Hm Hid. pose proof (keyed_sorted_write _ _ _ _ _ Hm Hid Hs) as Hs'.
  assert (i < length ms)%nat by by eapply lookup_lt_Some.
  case_decide as Hn.
  - apply repository_Some; [done|]. split; [|congruence].
    apply list_elem_of_lookup. exists i. by apply list_lookup_insert_eq.
  - apply option_eq. intros x. rewrite !repository_Some by done. split; intros [Hx Hxid]; (split; [|done]).
    all: apply list_elem_of_lookup in Hx as [j Hj]; apply list_elem_of_lookup; exists j;
      destruct (decide (i = j)) as [->|Hij]; [|by rewrite list_lookup_insert_ne in *].
    + rewrite list_lookup_insert_eq in Hj by done. congruence.
    + congruence.
Qed.

(** Retiring a repository only ever succeeds for a ready one, and leaves it retired and
    every other member as it was; an ordinary retirement moreover leaves another ready
    and converged replica behind, and only an emergency with a stated reason may do
    without. *)
Lemma retire_keeps_a_replica (ms ms' : RepositoryMembership) (node_id : RepositoryNodeId) (decision : RetirementDecision)
  (Hvalid : membership_valid ms) (Hretire : retire ms node_id decision = Ok ms') :
  (∃ m, repository ms node_id = Some m ∧ rm_lifecycle m = Ready ∧
        repository ms' node_id = Some (m <| rm_lifecycle := Retired |> <| rm_replica_converged := false |>)) ∧
  (∀ other, other ≠ node_id → repository ms' other = repository ms other) ∧
  match decision with
  | Ordinary => ∃ m, m ∈ ms' ∧ rm_node_id m ≠ node_id ∧ rm_lifecycle m = Ready ∧ rm_replica_converged m = true
  | ForceEmergency reason => trim reason ≠ ""
  end.
Proof.
  destruct Hvalid as [_ Hs _]. unfold retire, repository_index in Hretire. destruct_ok.
  destruct (search ms node_id) as [i|] eqn:Hi; [|done]. apply search_ok in Hi as (m & Hm & <-); [|done].
  simpl in *. simplify_eq. rewrite Hm in Hretire. destruct_ok. rewrite negb_false_iff, bool_decide_eq_true in *.
  set (m' := m <| rm_lifecycle := Retired |> <| rm_replica_converged := false |>).
  assert (rm_node_id m' = rm_node_id m) as Hid by by destruct m.
  split_and!.
  - exists m. rewrite (repository_write ms x m) by done. rewrite decide_True by done.
    split_and!; [|done|done]. apply repository_Some; [done|]. split; [by eapply list_elem_of_lookup_2|done].
  - intros other Hne. rewrite (repository_write ms x m) by done. by rewrite decide_False.
  - destruct decision as [|reason]; destruct_ok.
    + match goal with H : negb _ = false |- _ => apply negb_false_iff, replacement_exists_true in H as (j & r & Hj & Hr & Hl & Hc) end.
      exists r. split_and!; [|intros Heq|done|done].
      * apply list_elem_of_lookup. exists j. by rewrite list_lookup_insert_ne.
      * by apply Hj, (keyed_sorted_index _ _ _ _ _ _ Hs Hr Hm).
    + unfold str_is_empty in *. by rewrite bool_decide_eq_false in *.
Qed.

(** C40: starting from a valid repository membership (non-empty, sorted by node id without
    duplicates, every member consistent), any sequence of operations leaves a valid one,
    and no operation drops a member, changes its identity or moves its life cycle back; every
    member that is ready or retired waited out the five-minute stability window after its
    catch-up.  And in every membership so reached, retiring a repository only succeeds for a
    ready one, and leaves it retired and every other member as it was; an ordinary retirement
    moreover leaves another ready and converged replica behind, and only an emergency with a
    stated reason may do without. *)
Theorem repository_membership_invariant (ms ms' : RepositoryMembership)
  (Hvalid : membership_valid ms) (Hsteps : rtc repo_step ms ms') :
  membership_valid ms' ∧ members_advance ms ms' ∧
  (∀ m, m ∈ ms' → rm_lifecycle m ≠ Syncing →
   ∃ caught_up ready, rm_catch_up_completed_at m = Some caught_up ∧ rm_ready_at m = Some ready ∧
                      caught_up + READY_STABILITY_WINDOW_SECONDS ≤ ready) ∧
  (∀ node_id decision ms'', retire ms' node_id decision = Ok ms'' →
    (∃ m, repository ms' node_id = Some m ∧ rm_lifecycle m = Ready ∧
          repository ms'' node_id = Some (m <| rm_lifecycle := Retired |> <| rm_replica_converged := false |>)) ∧
    (∀ other, other ≠ node_id → repository ms'' other = repository ms' other) ∧
    match decision with
    | Ordinary => ∃ m, m ∈ ms'' ∧ rm_node_id m ≠ node_id ∧ rm_lifecycle m = Ready ∧ rm_replica_converged m = true
    | ForceEmergency reason => trim reason ≠ ""
    end).
Proof.
  assert (membership_valid ms' ∧ members_advance ms ms') as [Hv' Hadv].
  { induction Hsteps as [ms|ms mid ms' Hstep Hsteps IH]; [split; [done|intros m ?; eauto]|].
    destruct IH as [Hv' Hadv]; [by eapply repo_step_valid|]. split; [done|]. intros m Hm.
    apply (repo_step_effect _ _ (mv_sorted _ Hvalid)), step_effect_advance in Hstep.
    destruct (Hstep m Hm) as (m1 & Hm1 & Hid1 & Hr1). destruct (Hadv m1 Hm1) as (m2 & Hm2 & Hid2 & Hr2).
    exists m2. split_and!; [done|congruence|lia]. }
  split_and!; [done|done| |by intros; apply retire_keeps_a_replica]. intros m Hm Hl. destruct Hv' as [_ _ Hall]. rewrite Forall_forall in Hall.
  apply Hall, member_valid_iff in Hm as [_ Hm]. destruct (rm_lifecycle m); [done|apply stable_iff, Hm|].
  apply stable_iff, Hm.
Qed.

Definition member_example (node_id : string) (lifecycle : RepositoryLifecycle) (caught_up ready : option N) (converged : bool)
    : RepositoryMember :=
  mkRepositoryMember (mkRepositoryNodeIdentity node_id [7] [8]) lifecycle caught_up ready converged RepositoryCapacity_default.

Lemma repository_membership_invariant_witness :
  let ms := [member_example "a" Syncing None None false] in
  let ms' := [member_example "a" Ready (Some 100) (Some 400) false] in
  membership_valid ms' ∧ members_advance ms ms' ∧
  ∃ ms'', retire ms' "a" (ForceEmergency "disk lost") = Ok ms'' ∧ ∃ m, repository ms'' "a" = Some m ∧ rm_lifecycle m = Retired.
Proof.
  intros ms ms'.
  destruct (repository_membership_invariant ms ms') as (Hv & Ha & _ & Hr); [| |split_and!; [exact Hv|exact Ha|]].
  - split; [discriminate|repeat constructor|repeat constructor].
  - eapply (rtc_l _ _ [member_example "a" Syncing (Some 100) None false]); [|apply rtc_once].
    + by apply (step_catch_up_complete _ _ "a" 100).
    + by apply (step_ready _ _ "a" 400).
  - eexists. split; [by vm_compute|]. destruct (Hr "a" (ForceEmergency "disk lost") _ ltac:(by vm_compute)) as [(m & _ & _ & Hm) _]. eexists. split; [exact Hm|done].
Defined.

(** * Runtime updates *)

Lemma with_member_found ms node_id m :
  keyed_sorted rm_node_id ms → repository ms node_id = Some m →
  ∃ i, ms !! i = Some m ∧ ∀ f, with_member ms node_id f = let? m' := f m in Ok (<[i := m']> ms).
Proof.
  intros Hs [Hin <-]%repository_Some; [|done]. destruct (search_member _ Hs _ Hin) as (i & Hi & Hm).
  exists i. split; [done|]. intros f. unfold with_member, repository_index. rewrite Hi. simpl. by rewrite Hm.
Qed.

(** The member a patch addresses, as the patch leaves it. *)
Definition patched_member (u : RepositoryMemberRuntimeUpdate) (m : RepositoryMember) : RepositoryMember :=
  match u with
  | UpdateCapacity used free => m <| rm_capacity := mkRepositoryCapacity (cap_quota_bytes (rm_capacity m)) used free |>
  | UpdateCatchUpComplete t =>
      if bool_decide (rm_lifecycle m = Syncing) && match rm_catch_up_completed_at m with Some c => c <? t | None => true end
      then m <| rm_catch_up_completed_at := Some t |> <| rm_ready_at := None |> else m
  | UpdateCatchUpIncomplete =>
      if bool_decide (rm_lifecycle m = Syncing)
      then m <| rm_catch_up_completed_at := None |> <| rm_ready_at := None |> else m
  | UpdateReady t =>
      if bool_decide (rm_lifecycle m = Syncing)
         && match rm_catch_up_completed_at m with Some c => READY_STABILITY_WINDOW_SECONDS <=? t - c | None => false end
      then m <| rm_lifecycle := Ready |> <| rm_ready_at := Some t |> else m
  | UpdateReplicaConverged b => if bool_decide (rm_lifecycle m = Ready) then m <| rm_replica_converged := b |> else m
  end.

Lemma patched_member_identity u m : rm_identity (patched_member u m) = rm_identity m.
Proof. destruct u, m; simpl; repeat case_match; done. Qed.

Lemma patched_member_valid u m : member_valid m → member_valid (patched_member u m).
Proof.
  destruct u as [u f|t| |t|b], m as [id lc cu ra conv [q us fs]]; rewrite !member_valid_iff; simpl; [done|..].
  - case_bool_decide; simpl; [|done]. subst. by destruct cu; [destruct (_ <? t)|]; simpl.
  - case_bool_decide; simpl; by subst.
  - case_bool_decide; simpl; [|done]. subst. destruct cu as [c|]; [|done].
    destruct (N.leb_spec READY_STABILITY_WINDOW_SECONDS (t - c)); [|done]. simpl. intros [Hq _]. split; [done|].
    apply stable_iff. exists c, t. split_and!; [done..|]. unfold READY_STABILITY_WINDOW_SECONDS in *. lia.
  - case_bool_decide; simpl; by subst.
Qed.

(** The dispatch on the update is a write of the patched member. *)
Lemma runtime_dispatch ms patch node_id m :
  keyed_sorted rm_node_id ms → member_valid m →
  RepositoryNodeId_try_from (patch_node_id patch) = Ok node_id → repository ms node_id = Some m →
  ∃ i, ms !! i = Some m ∧
       apply_repository_member_runtime_update (Some ms) patch = Ok (Some (<[i := patched_member (patch_update patch) m]> ms)).
Proof.
  intros Hs Hv Hid Hm. unfold apply_repository_member_runtime_update. rewrite Hid, Hm.
  destruct (with_member_found ms node_id m) as (i & Hi & Hw); [done..|]. exists i. split; [done|].
  pose proof (list_insert_id ms i m Hi) as Hsame.
  destruct (patch_update patch) as [u f|t| |t|b]; cbn [patched_member].
  - unfold record_capacity, record_usage, RepositoryCapacity_validate. rewrite Hw.
    apply member_valid_iff in Hv as [Hq _]. simpl. by apply N.eqb_neq in Hq as ->.
  - case_bool_decide as Hl; simpl; [|by rewrite Hsame].
    destruct (match rm_catch_up_completed_at m with Some c => c <? t | None => true end) eqn:Hc; simpl; [|by rewrite Hsame].
    unfold mark_catch_up_complete. rewrite Hw, bool_decide_true by done. simpl.
    destruct (rm_catch_up_completed_at m) as [c|]; [|done]. apply N.ltb_lt in Hc. by rewrite (proj2 (N.ltb_ge t c)) by lia.
  - case_bool_decide as Hl; simpl; [|by rewrite Hsame].
    unfold mark_catch_up_incomplete. by rewrite Hw, bool_decide_true.
  - case_bool_decide as Hl; simpl; [|by rewrite Hsame].
    destruct (rm_catch_up_completed_at m) as [c|] eqn:Hc; [|by rewrite Hsame]. unfold sat_sub.
    destruct (N.leb_spec READY_STABILITY_WINDOW_SECONDS (t - c)) as [Hle|]; [|by rewrite Hsame].
    unfold mark_ready. rewrite Hw, bool_decide_true, Hc by done. simpl.
    unfold checked_sub. rewrite decide_True by (unfold READY_STABILITY_WINDOW_SECONDS in Hle; lia). simpl.
    by rewrite (proj2 (N.ltb_ge _ _)).
  - case_bool_decide as Hl; simpl; [|by rewrite Hsame].
    destruct (Bool.eqb (rm_replica_converged m) b) eqn:Hb; simpl.
    + apply eqb_prop in Hb as <-. rewrite <-Hsame at 1. by destruct m.
    + unfold set_replica_converged. by rewrite Hw, bool_decide_true.
Qed.

(** A write that keeps the identity and leaves a consistent member. *)
Lemma membership_write_valid ms i m m' :
  membership_valid ms → ms !! i = Some m → rm_identity m' = rm_identity m → member_valid m' → membership_valid (<[i := m']> ms).
Proof.
  intros [Hne Hs Hall] Hi Hid Hv. split.
  - intros Hnil%(f_equal length). rewrite length_insert in Hnil. apply lookup_lt_Some in Hi. simpl in *. lia.
  - eapply keyed_sorted_write; [done| |done]. unfold rm_node_id. by rewrite Hid.
  - by apply Forall_insert.
Qed.

(** What a patch does: nothing, or a write of the patched member. *)
Lemma runtime_update_cases ms patch :
  membership_valid ms →
  (apply_repository_member_runtime_update (Some ms) patch = Ok (Some ms) ∧
   ∀ node_id, RepositoryNodeId_try_from (patch_node_id patch) = Ok node_id → repository ms node_id = None) ∨
  ∃ i m, RepositoryNodeId_try_from (patch_node_id patch) = Ok (rm_node_id m) ∧ ms !! i = Some m ∧ member_valid m ∧
         apply_repository_member_runtime_update (Some ms) patch = Ok (Some (<[i := patched_member (patch_update patch) m]> ms)).
Proof.
  intros [_ Hs Hall]. destruct (RepositoryNodeId_try_from (patch_node_id patch)) as [id|e] eqn:Hid.
  2: { left. unfold apply_repository_member_runtime_update. by rewrite Hid. }
  destruct (repository ms id) as [m|] eqn:Hm.
  2: { left. unfold apply_repository_member_runtime_update. rewrite Hid, Hm. split; [done|]. by intros ? [= <-]. }
  right. pose proof Hm as [Hin <-]%repository_Some; [|done].
  rewrite Forall_forall in Hall. pose proof (Hall m Hin) as Hvm.
  destruct (runtime_dispatch ms patch (rm_node_id m) m) as (i & Hi & Hrun); [done..|]. by exists i, m.
Qed.

Lemma runtime_update_valid ms patch membership ms' :
  membership_valid ms → apply_repository_member_runtime_update (Some ms) patch = Ok membership → membership = Some ms' →
  membership_valid ms'.
Proof.
  intros Hv Hrun ->. destruct (runtime_update_cases ms patch Hv) as [[Heq _]|(i & m & _ & Hi & Hm & Heq)].
  - congruence.
  - rewrite Heq in Hrun. injection Hrun as <-.
    by eapply membership_write_valid; [|done|apply patched_member_identity|apply patched_member_valid].
Qed.

(** On a valid membership a runtime patch never fails; it changes at most the member it
    names, in the way [patched_member] says, and leaves the membership valid.  A patch for
    an unknown or malformed node id changes nothing. *)
Theorem runtime_update_total (ms : RepositoryMembership) (patch : RepositoryMemberRuntimePatch)
  (Hvalid : membership_valid ms) :
  ∃ ms', apply_repository_member_runtime_update (Some ms) patch = Ok (Some ms') ∧ membership_valid ms' ∧
  ∀ node_id, repository ms' node_id =
    if decide (RepositoryNodeId_try_from (patch_node_id patch) = Ok node_id)
    then patched_member (patch_update patch) <$> repository ms node_id
    else repository ms node_id.
Proof.
  destruct (runtime_update_cases ms patch Hvalid) as [[-> Hnone]|(i & m & Hid & Hi & Hm & ->)].
  - exists ms. split_and!; [done|done|]. intros n. case_decide as Hn; [|done]. by rewrite (Hnone n Hn).
  - set (m' := patched_member (patch_update patch) m).
    assert (rm_node_id m' = rm_node_id m) as Hid' by (unfold rm_node_id, m'; by rewrite patched_member_identity).
    eexists. split_and!; [done| |].
    + by eapply membership_write_valid; [|done|apply patched_member_identity|apply patched_member_valid].
    + intros n. rewrite (repository_write ms i m) by (done || apply Hvalid). rewrite Hid.
      destruct (decide (n = rm_node_id m)) as [->|Hn]; [rewrite decide_True by done|rewrite decide_False by congruence; done].
      assert (repository ms (rm_node_id m) = Some m) as ->; [|done].
      apply repository_Some; [apply Hvalid|]. split; [by eapply list_elem_of_lookup_2|done].
Qed.

Lemma runtime_update_total_witness :
  ∃ ms', apply_repository_member_runtime_update (Some [member_example "a" Syncing (Some 100) None false])
           (mkRepositoryMemberRuntimePatch "a" (UpdateReady 400)) = Ok (Some ms') ∧ membership_valid ms'.
Proof.
  destruct (runtime_update_total [member_example "a" Syncing (Some 100) None false]
    (mkRepositoryMemberRuntimePatch "a" (UpdateReady 400))) as (ms' & Heq & Hv & _).
  - split; [discriminate|repeat constructor|repeat constructor].
  - exact (ex_intro _ ms' (conj Heq Hv)).
Defined.
