(* ===== verification/ReverseMesh.v ===== *)
(** * Reverse mesh relays

    [src/reverse_mesh.rs]: the assignment of rendezvous nodes to the targets of the reverse
    mesh (links and envelopes are in [Relay]).  The rendezvous score, a SHA-256 digest, is an
    interface. *)

From S2P Require Import Prelude Text Search Domain.
Open Scope string_scope.
Open Scope list_scope.
Open Scope N_scope.

(** ** Assignments *)

Record ReverseMeshAssignment : Type := mkReverseMeshAssignment {
  ra_target_node_id : string;
  ra_generation : N;
  ra_membership_revision : N;
  ra_primary_node_id : string;
  ra_standby_node_id : option string;
  ra_credential_epoch : N;
}.
#[global] Instance ReverseMeshAssignment_eq_dec : EqDecision ReverseMeshAssignment.
Proof. solve_decision. Defined.
#[export] Instance ReverseMeshAssignment_eta : Eta ReverseMeshAssignment := λ r,
  mkReverseMeshAssignment (ra_target_node_id r) (ra_generation r) (ra_membership_revision r) (ra_primary_node_id r)
    (ra_standby_node_id r) (ra_credential_epoch r).

Definition rendezvous_ids (a : ReverseMeshAssignment) : list string :=
  ra_primary_node_id a :: option_list (ra_standby_node_id a).

Definition contains_rendezvous (a : ReverseMeshAssignment) (node_id : string) : bool :=
  existsb (λ id, bool_decide (id = node_id)) (rendezvous_ids a).

Definition assignment_is_valid (a : ReverseMeshAssignment) : bool :=
  negb (str_is_empty (ra_target_node_id a))
  && negb (str_is_empty (ra_primary_node_id a))
  && negb (bool_decide (ra_target_node_id a = ra_primary_node_id a))
  && match ra_standby_node_id a with
     | None => true
     | Some standby =>
         negb (str_is_empty standby) && negb (bool_decide (standby = ra_primary_node_id a))
         && negb (bool_decide (standby = ra_target_node_id a))
     end.

Record ReverseMeshCandidate : Type := mkReverseMeshCandidate {
  rmc_node_id : string;
  rmc_assignment_capable : bool;
  rmc_relay_capable : bool;
  rmc_signed_xray_ready : bool;
  rmc_managed_vless_endpoint : bool;
}.

Definition eligible (c : ReverseMeshCandidate) : bool :=
  negb (str_is_empty (rmc_node_id c)) && rmc_assignment_capable c && rmc_relay_capable c
  && rmc_signed_xray_ready c && rmc_managed_vless_endpoint c.

(** The highest-random-weight score of a candidate for a target. *)
Class Hrw := hrw_score : N → string → string → N.

(** [vec.dedup()]: drops repeats of the element before. *)
Fixpoint dedup (l : list string) : list string :=
  match l with
  | a :: (b :: _) as rest => if bool_decide (a = b) then dedup rest else a :: dedup rest
  | _ => l
  end.

(** [iter.min_by(cmp)]: the first of the least elements. *)
Definition min_by {A} (cmp : A → A → comparison) (l : list A) : option A :=
  match l with
  | [] => None
  | x :: l => Some (foldl (λ acc y, match cmp acc y with Gt => y | _ => acc end) x l)
  end.

Definition eligible_ids (candidates : list ReverseMeshCandidate) : list string :=
  dedup (merge_sort String.le (rmc_node_id <$> filter (λ c, eligible c = true) candidates)).

(** How many assignments use a rendezvous node. *)
Definition initial_load (eligible : list string) (current : gmap string ReverseMeshAssignment) : gmap string N :=
  list_to_map ((λ id, (id, N.of_nat (length (filter (λ a, contains_rendezvous a id = true) (bt_values current))))) <$> eligible).

Section Assign.
Context `{Hrw}.
Context (candidates : list ReverseMeshCandidate) (current : gmap string ReverseMeshAssignment)
  (generation_floors : gmap string N) (membership_revision epoch : N).

(** Least loaded first, then highest score. *)
Definition candidate_cmp (load : gmap string N) (target left right : string) : comparison :=
  match default 0 (load !! left) ?= default 0 (load !! right) with
  | Eq => CompOpp (hrw_score epoch target left ?= hrw_score epoch target right)
  | c => c
  end.

Definition pick (load : gmap string N) (target : string) (choices : list string) (excluded : gset string) : option string :=
  min_by (candidate_cmp load target) (filter (λ c, c ∉ excluded) choices).

(** The current assignment of a target, when it can be kept. *)
Definition existing_assignment (target : string) (choices : list string) : option ReverseMeshAssignment :=
  match current !! target with
  | Some a =>
      if bool_decide (ra_credential_epoch a = epoch) && assignment_is_valid a
         && bool_decide (ra_primary_node_id a ∈ choices)
         && match ra_standby_node_id a with Some standby => bool_decide (standby ∈ choices) | None => true end
      then Some a else None
  | None => None
  end.

Definition next_generation (target : string) (existing : option ReverseMeshAssignment) : N :=
  let prior_generation :=
    N.max (match current !! target with Some a => ra_generation a | None => 0 end)
          (default 0 (generation_floors !! target)) in
  match existing with
  | Some a =>
      if bool_decide (ra_membership_revision a = membership_revision) then N.max (ra_generation a) 1
      else N.max (sat_add u64_max prior_generation 1) 1
  | None => N.max (sat_add u64_max prior_generation 1) 1
  end.

(** One iteration of the loop over the targets; the primary is always found when there are
    choices (the [expect] of the source, by [pick_spec] below). *)
Definition assign_target (acc : gmap string N * gmap string ReverseMeshAssignment) (target : string)
    : gmap string N * gmap string ReverseMeshAssignment :=
  let '(load, result) := acc in
  let choices := filter (λ c, c ≠ target) (eligible_ids candidates) in
  if bool_decide (choices = []) then acc else
  let existing := existing_assignment target choices in
  match (match existing with Some a => Some (ra_primary_node_id a) | None => pick load target choices ∅ end) with
  | None => (load, result)
  | Some primary =>
      let standby := match existing ≫= ra_standby_node_id with
                     | Some s => Some s
                     | None => if (2 <=? length choices)%nat then pick load target choices {[primary]} else None
                     end in
      let load := entry_update 0 (λ n, n + 1) primary load in
      let load := match standby with Some s => entry_update 0 (λ n, n + 1) s load | None => load end in
      (load, <[target := mkReverseMeshAssignment target (next_generation target existing) membership_revision
                           primary standby epoch]> result)
  end.

Definition assign_reverse_mesh_with_generation_floors (target_node_ids : list string) : gmap string ReverseMeshAssignment :=
  let targets := merge_sort String.le target_node_ids in
  let load := initial_load (eligible_ids candidates) current in
  (foldl assign_target (load, ∅) targets).2.
End Assign.

Definition assign_reverse_mesh `{Hrw} (target_node_ids : list string) (candidates : list ReverseMeshCandidate)
    (current : gmap string ReverseMeshAssignment) (membership_revision epoch : N) : gmap string ReverseMeshAssignment :=
  assign_reverse_mesh_with_generation_floors candidates current ∅ membership_revision epoch target_node_ids.

Definition reverse_mesh_generation_after_failures (current_generation consecutive_failures : N) : option N :=
  if 3 <=? consecutive_failures then Some (N.max (sat_add u64_max current_generation 1) 1) else None.

(** Seconds. *)
Definition reverse_backoff (attempt : nat) : option N := [30; 60; 120; 240; 300] !! Nat.min attempt 4.

(** * Selection *)

Section MinBy.
Context {A : Type} (cmp : A → A → comparison).
Hypothesis cmp_antisym : ∀ x y, cmp y x = CompOpp (cmp x y).
Hypothesis cmp_trans : ∀ x y z, cmp x y ≠ Gt → cmp y z ≠ Gt → cmp x z ≠ Gt.

Lemma min_by_fold l x :
  let r := foldl (λ acc y, match cmp acc y with Gt => y | _ => acc end) x l in
  r ∈ x :: l ∧ ∀ y, y ∈ x :: l → cmp r y ≠ Gt.
Proof using cmp_antisym cmp_trans.
  assert (∀ x, cmp x x ≠ Gt) as Hrefl by (intros z Hz; pose proof (cmp_antisym z z) as Ha; rewrite Hz in Ha; done).
  revert x. induction l as [|y l IH]; intros x; cbn [foldl].
  { split; [left|]. intros y ->%list_elem_of_singleton. apply Hrefl. }
  set (z := match cmp x y with Gt => y | _ => x end). destruct (IH z) as [Hin Hmin]. cbv zeta in *.
  assert (z = x ∨ z = y) as Hz by (unfold z; destruct (cmp x y); auto).
  assert (cmp z x ≠ Gt ∧ cmp z y ≠ Gt) as [Hzx Hzy].
  { unfold z. destruct (cmp x y) eqn:Hxy; split; try done; try apply Hrefl; try congruence.
    rewrite cmp_antisym, Hxy. done. }
  set (r := foldl _ z l) in *. clearbody r. split.
  - apply elem_of_cons in Hin as [->|?]; [|by do 2 right]. destruct Hz as [-> | ->]; [left|right; left].
  - assert (cmp r z ≠ Gt) by (apply Hmin; left).
    intros w [->|[->|Hw]%elem_of_cons]%elem_of_cons; [by eapply cmp_trans..|]. apply Hmin. by right.
Qed.

Lemma min_by_spec l r : min_by cmp l = Some r → r ∈ l ∧ ∀ y, y ∈ l → cmp r y ≠ Gt.
Proof using cmp_antisym cmp_trans. destruct l as [|x l]; [done|]. intros [= <-]. apply min_by_fold. Qed.
End MinBy.

Lemma min_by_is_Some {A} cmp (l : list A) : l ≠ [] → is_Some (min_by cmp l).
Proof. destruct l; [done|]. simpl. eauto. Qed.

Section Selection.
Context `{Hrw} (epoch : N).

Lemma candidate_cmp_gt load target a b :
  candidate_cmp epoch load target a b ≠ Gt ↔
  default 0 (load !! a) < default 0 (load !! b) ∨
  (default 0 (load !! a) = default 0 (load !! b) ∧ hrw_score epoch target b ≤ hrw_score epoch target a).
Proof.
  unfold candidate_cmp. destruct (N.compare_spec (default 0 (load !! a)) (default 0 (load !! b))).
  - destruct (N.compare_spec (hrw_score epoch target a) (hrw_score epoch target b)); simpl; split; try done; lia.
  - split; [by left|done].
  - split; [done|lia].
Qed.

Lemma candidate_cmp_antisym load target a b :
  candidate_cmp epoch load target b a = CompOpp (candidate_cmp epoch load target a b).
Proof.
  unfold candidate_cmp. rewrite (N.compare_antisym (default 0 (load !! a))).
  rewrite (N.compare_antisym (hrw_score epoch target a)).
  by destruct (default 0 (load !! a) ?= _), (hrw_score epoch target a ?= _).
Qed.

(** The node picked carries the least load among the choices not excluded and has the
    highest score among those with that load; some node is picked as soon as one is left. *)
Lemma pick_spec (load : gmap string N) (target : string) (choices : list string) (excluded : gset string) :
  match pick epoch load target choices excluded with
  | Some p =>
      p ∈ choices ∧ p ∉ excluded ∧
      ∀ c, c ∈ choices → c ∉ excluded →
        default 0 (load !! p) < default 0 (load !! c) ∨
        (default 0 (load !! p) = default 0 (load !! c) ∧ hrw_score epoch target c ≤ hrw_score epoch target p)
  | None => ∀ c, c ∈ choices → c ∈ excluded
  end.
Proof.
  unfold pick. destruct (min_by _ _) as [p|] eqn:Hp.
  - apply min_by_spec in Hp as [Hin Hmin];
      [|intros; apply candidate_cmp_antisym|intros x y z; rewrite !candidate_cmp_gt; lia].
    apply list_elem_of_filter in Hin as [Hex Hin]. split_and!; [done|done|].
    intros c Hc Hce. apply candidate_cmp_gt, Hmin. by apply list_elem_of_filter.
  - intros c Hc. destruct (decide (c ∈ excluded)) as [|Hn]; [done|].
    assert (filter (λ c, c ∉ excluded) choices ≠ []) as Hne.
    { intros Hnil. by eapply (not_elem_of_nil c); rewrite <-Hnil; apply list_elem_of_filter. }
    apply (min_by_is_Some (candidate_cmp epoch load target)) in Hne as [r Hr]. by rewrite Hr in Hp.
Qed.
End Selection.

(** * Eligible nodes *)

Lemma elem_of_dedup l x : x ∈ dedup l ↔ x ∈ l.
Proof.
  induction l as [|a [|b l] IH]; [done..|]. cbn [dedup]. case_bool_decide as Hab.
  - rewrite IH, !elem_of_cons. subst. tauto.
  - rewrite elem_of_cons, IH, !elem_of_cons. tauto.
Qed.

Lemma dedup_sorted l : StronglySorted String.le l → StronglySorted str_lt (dedup l).
Proof.
  induction 1 as [|a l Hs IH Ha]; [constructor|]. destruct l as [|b l]; [repeat constructor|].
  cbn [dedup]. case_bool_decide as Hab; [done|]. constructor; [done|].
  rewrite Forall_forall in Ha. apply Forall_forall. intros x Hx%(elem_of_dedup (b :: l)). apply str_lt_le.
  split; [by apply Ha|]. intros ->. apply Hab. apply (anti_symm String.le); [apply Ha; left|].
  apply StronglySorted_inv in Hs as [_ Hb]. rewrite Forall_forall in Hb.
  apply elem_of_cons in Hx as [->|Hx]; [done|by apply Hb].
Qed.

Lemma str_sorted_NoDup l : StronglySorted str_lt l → NoDup l.
Proof.
  induction 1 as [|a l Hs IH Ha]; constructor; [|done]. rewrite Forall_forall in Ha.
  intros [_ ?]%Ha%str_lt_le. done.
Qed.

Lemma elem_of_eligible_ids candidates x :
  x ∈ eligible_ids candidates ↔ ∃ c, c ∈ candidates ∧ eligible c = true ∧ rmc_node_id c = x.
Proof.
  unfold eligible_ids. rewrite elem_of_dedup, merge_sort_Permutation, list_elem_of_fmap.
  setoid_rewrite list_elem_of_filter. split; intros (c & ?); exists c; naive_solver.
Qed.

Lemma NoDup_eligible_ids candidates : NoDup (eligible_ids candidates).
Proof. apply str_sorted_NoDup, dedup_sorted, StronglySorted_merge_sort; apply _. Qed.

(** * Assignments made *)

Lemma bumped_generation g prior :
  g = N.max (sat_add u64_max prior 1) 1 → 1 ≤ g ∧ (g = u64_max ∨ prior < g).
Proof. intros ->. int_lia. Qed.

Section Assigned.
Context `{Hrw} (candidates : list ReverseMeshCandidate) (current : gmap string ReverseMeshAssignment)
  (generation_floors : gmap string N) (membership_revision epoch : N).

(** The rendezvous nodes a target may be given. *)
Definition choices (target : string) : list string := filter (λ c, c ≠ target) (eligible_ids candidates).

(** The current assignment of [target] stays: its nodes are still eligible, and neither the
    credential epoch nor the membership changed. *)
Definition kept (target : string) (a : ReverseMeshAssignment) : Prop :=
  ∃ old, current !! target = Some old ∧ ra_primary_node_id a = ra_primary_node_id old ∧
         (∀ s, ra_standby_node_id old = Some s → ra_standby_node_id a = Some s) ∧
         ra_membership_revision old = membership_revision ∧ ra_credential_epoch old = epoch ∧
         ra_generation a = N.max (ra_generation old) 1.

Definition fresh_generation (target : string) (a : ReverseMeshAssignment) : Prop :=
  ra_generation a = u64_max ∨
  ((∀ old, current !! target = Some old → ra_generation old < ra_generation a) ∧
   (∀ floor, generation_floors !! target = Some floor → floor < ra_generation a)).

Record good_assignment (target : string) (a : ReverseMeshAssignment) : Prop := {
  ga_target : ra_target_node_id a = target;
  ga_revision : ra_membership_revision a = membership_revision;
  ga_epoch : ra_credential_epoch a = epoch;
  ga_generation : 1 ≤ ra_generation a;
  ga_primary : ra_primary_node_id a ∈ choices target;
  ga_standby : ∀ s, ra_standby_node_id a = Some s → s ∈ choices target ∧ s ≠ ra_primary_node_id a;
  ga_redundant : (2 ≤ length (choices target))%nat → is_Some (ra_standby_node_id a);
  ga_fresh : kept target a ∨ fresh_generation target a;
}.

Notation existing target := (existing_assignment current epoch target (choices target)).

Lemma existing_spec target a :
  existing target = Some a →
  current !! target = Some a ∧ ra_credential_epoch a = epoch ∧ ra_primary_node_id a ∈ choices target ∧
  ∀ s, ra_standby_node_id a = Some s → s ∈ choices target ∧ s ≠ ra_primary_node_id a.
Proof.
  unfold existing_assignment. destruct (current !! target) as [a'|]; [|done].
  destruct (_ && _) eqn:Hb; [|done]. intros [= ->]. unfold assignment_is_valid in Hb.
  rewrite !andb_true_iff, !negb_true_iff, !bool_decide_eq_true in Hb. destruct_and!. split_and!; try done.
  intros s Hs. rewrite Hs in *. rewrite !andb_true_iff, !negb_true_iff, !bool_decide_eq_false, ?bool_decide_eq_true in *.
  tauto.
Qed.

Lemma next_generation_fresh target a e :
  e = existing target →
  ra_generation a = next_generation current generation_floors membership_revision target e →
  ra_primary_node_id a = match e with Some old => ra_primary_node_id old | None => ra_primary_node_id a end →
  (∀ s, e ≫= ra_standby_node_id = Some s → ra_standby_node_id a = Some s) →
  1 ≤ ra_generation a ∧ (kept target a ∨ fresh_generation target a).
Proof.
  intros -> Hg Hp Hs. unfold next_generation in Hg. cbv zeta in Hg.
  assert (ra_generation a = N.max (sat_add u64_max (N.max (match current !! target with Some a => ra_generation a | None => 0 end)
            (default 0 (generation_floors !! target))) 1) 1 → 1 ≤ ra_generation a ∧ fresh_generation target a) as Hfresh.
  { clear Hg. intros [Hge Hgen]%bumped_generation. split; [done|]. destruct Hgen as [?|[Hc Hf]%N.max_lub_lt_iff]; [by left|right].
    split; [intros old Ho; by rewrite Ho in Hc|intros floor Ho; by rewrite Ho in Hf]. }
  destruct (existing target) as [old|] eqn:He; [|destruct (Hfresh Hg); auto].
  case_bool_decide as Hrev; [|destruct (Hfresh Hg); auto]. clear Hfresh. split; [lia|]. left.
  apply existing_spec in He as (Hcur & Hep & _ & _). exists old. by split_and!.
Qed.

Lemma another_choice target primary :
  (2 ≤ length (choices target))%nat → ∃ c, c ∈ choices target ∧ c ≠ primary.
Proof.
  intros Hlen. assert (NoDup (choices target)) as Hnd by (apply NoDup_filter, NoDup_eligible_ids).
  destruct (choices target) as [|x [|y l]]; simpl in Hlen; [lia..|].
  apply NoDup_cons in Hnd as [Hx _]. destruct (decide (x = primary)) as [->|]; [|exists x; split; [left|done]].
  exists y. split; [right; left|]. intros ->. apply Hx. left.
Qed.

Lemma assign_target_entry load result target :
  if decide (choices target = [])
  then assign_target candidates current generation_floors membership_revision epoch (load, result) target = (load, result)
  else ∃ load' a,
    assign_target candidates current generation_floors membership_revision epoch (load, result) target = (load', <[target := a]> result)
    ∧ good_assignment target a.
Proof.
  unfold assign_target. fold (choices target). case_decide as Hne; [by rewrite bool_decide_true|].
  rewrite bool_decide_false by done. set (e := existing target). cbv zeta.
  set (p := match e with Some a => Some (ra_primary_node_id a) | None => pick epoch load target (choices target) ∅ end).
  assert (∃ primary, p = Some primary ∧ primary ∈ choices target ∧
          primary = match e with Some old => ra_primary_node_id old | None => primary end) as (primary & -> & Hin & Hprim).
  { unfold p. destruct e as [a|] eqn:He; [exists (ra_primary_node_id a); apply existing_spec in He; tauto|].
    pose proof (pick_spec epoch load target (choices target) ∅) as Hpick. destruct (pick _ _ _ _ _) as [r|]; [naive_solver|].
    destruct (choices target) as [|c l]; [done|]. by specialize (Hpick c ltac:(left)). }
  set (st := match e ≫= ra_standby_node_id with Some s => Some s | None => _ end).
  assert (∀ s, e ≫= ra_standby_node_id = Some s → st = Some s) as Hkeep by (intros s Hs; unfold st; by rewrite Hs).
  assert ((∀ s, st = Some s → s ∈ choices target ∧ s ≠ primary) ∧ ((2 ≤ length (choices target))%nat → is_Some st)) as [Hst Hred].
  { unfold st. destruct (e ≫= ra_standby_node_id) as [s|] eqn:Hs.
    - split; [|eauto]. intros ? [= <-]. destruct e as [a|] eqn:He; [|done]. apply existing_spec in He as (_ & _ & _ & Hst).
      rewrite Hprim. by apply Hst.
    - destruct (Nat.leb_spec 2 (length (choices target))) as [Hlen|Hlen]; [|split; [done|lia]].
      pose proof (pick_spec epoch load target (choices target) {[primary]}) as Hpick.
      destruct (pick _ _ _ _ _) as [r|]; [split; [|eauto]; intros ? [= <-]; set_solver|].
      destruct (another_choice target primary Hlen) as (c & Hc & Hcp). set_solver. }
  eexists _, (mkReverseMeshAssignment target _ membership_revision primary st epoch). split; [done|].
  set (a := mkReverseMeshAssignment _ _ _ _ _ _).
  destruct (next_generation_fresh target a e eq_refl eq_refl Hprim Hkeep) as [H1 Hf]. by split.
Qed.

Lemma assign_reverse_mesh_good (targets : list string) :
  let result := assign_reverse_mesh_with_generation_floors candidates current generation_floors membership_revision epoch targets in
  (∀ t, is_Some (result !! t) ↔ t ∈ targets ∧ choices t ≠ []) ∧
  (∀ t a, result !! t = Some a → good_assignment t a).
Proof.
  unfold assign_reverse_mesh_with_generation_floors. cbv zeta.
  assert (∀ t, t ∈ targets ↔ t ∈ merge_sort String.le targets) as Hl by (intros t; by rewrite merge_sort_Permutation).
  setoid_rewrite Hl. generalize (merge_sort String.le targets). clear targets Hl. intros l.
  set (load := initial_load _ _). clearbody load.
  induction l as [|t l [IHd IHg]] using rev_ind.
  { split; [|done]. intros t. split; [by intros []|]. by intros [?%not_elem_of_nil ?]. }
  rewrite foldl_snoc. destruct (foldl _ _ l) as [load' result] eqn:Hf. simpl in IHd, IHg.
  pose proof (assign_target_entry load' result t) as Hentry. destruct (decide (choices t = [])) as [Hc|Hc].
  - rewrite Hentry. simpl. split; [|done]. intros t'. rewrite IHd, elem_of_app, list_elem_of_singleton.
    split; [tauto|]. by intros [[?| ->] ?].
  - destruct Hentry as (load'' & a & -> & Ha). simpl. split.
    + intros t'. rewrite elem_of_app, list_elem_of_singleton. destruct (decide (t' = t)) as [->|Hne].
      * rewrite lookup_insert_eq. split; [by auto|eauto].
      * rewrite lookup_insert_ne by done. rewrite IHd. tauto.
    + intros t' a' [[<- <-]|[Hne Hl]]%lookup_insert_Some; [done|by apply IHg].
Qed.

(** The planner gives an assignment to exactly those targets for which some other eligible
    node exists.  Each assignment relays through eligible nodes other than the target, has
    a standby distinct from the primary whenever two nodes are available, carries the
    current epoch and membership revision and a non-zero generation; and either it keeps
    the previous nodes and generation, which happens only when neither epoch nor
    membership changed, or its generation is above both the previous one and the durable
    floor (unless the counter is exhausted). *)
Theorem assign_reverse_mesh_sound (targets : list string) :
  let result := assign_reverse_mesh_with_generation_floors candidates current generation_floors membership_revision epoch targets in
  (∀ t, is_Some (result !! t) ↔ t ∈ targets ∧ choices t ≠ []) ∧
  (∀ t a, result !! t = Some a → good_assignment t a).
Proof. apply assign_reverse_mesh_good. Qed.
End Assigned.

Lemma merge_sort_perm l l' : l ≡ₚ l' → merge_sort String.le l = merge_sort String.le l'.
Proof.
  intros Hp. apply (StronglySorted_unique String.le); [apply StronglySorted_merge_sort; apply _..|].
  by rewrite !merge_sort_Permutation.
Qed.

(** The plan does not depend on the order in which targets and candidates are listed. *)
Theorem assign_reverse_mesh_order_independent `{Hrw} candidates candidates' current floors revision epoch targets targets'
  (Hcandidates : candidates ≡ₚ candidates') (Htargets : targets ≡ₚ targets') :
  assign_reverse_mesh_with_generation_floors candidates current floors revision epoch targets =
  assign_reverse_mesh_with_generation_floors candidates' current floors revision epoch targets'.
Proof.
  assert (eligible_ids candidates = eligible_ids candidates') as Hel.
  { unfold eligible_ids. f_equal. apply merge_sort_perm. by rewrite Hcandidates. }
  unfold assign_reverse_mesh_with_generation_floors, assign_target. by rewrite Hel, (merge_sort_perm _ _ Htargets).
Qed.

Definition candidate_example (node_id : string) : ReverseMeshCandidate := mkReverseMeshCandidate node_id true true true true.

Lemma assign_reverse_mesh_order_independent_witness :
  let score : Hrw := λ _ t c, N.of_nat (String.length t + String.length c) in
  assign_reverse_mesh_with_generation_floors [candidate_example "a"; candidate_example "bb"] ∅ ∅ 1 1 ["t"; "s"] =
  assign_reverse_mesh_with_generation_floors [candidate_example "bb"; candidate_example "a"] ∅ ∅ 1 1 ["s"; "t"].
Proof.
  intros score. apply (@assign_reverse_mesh_order_independent score); apply perm_swap.
Defined.
