(* ===== verification/Relay.v ===== *)
(** * Reverse links and relay envelopes

    [src/reverse_mesh.rs]: the life cycle of a reverse link, the tombstones of retired tags,
    and the signed envelope that crosses a relay as HTTP headers.  The message
    authentication code and the header values of the HTTP library are interfaces
    ([RelayMac], [HeaderValues]). *)

From S2P Require Import Prelude Text ReverseMesh.
Open Scope string_scope.
Open Scope list_scope.
Open Scope N_scope.

(** ** Links *)

Inductive ReverseLinkState : Type :=
| Desired
| Connecting
| HealthVerified
| Active
| Draining
| Closed
| RetiredPendingRestart
| Failed.
#[global] Instance ReverseLinkState_eq_dec : EqDecision ReverseLinkState.
Proof. solve_decision. Defined.

Inductive ReverseRole : Type := Primary | Standby | Bootstrap.
#[global] Instance ReverseRole_eq_dec : EqDecision ReverseRole.
Proof. solve_decision. Defined.

Definition ReverseRole_as_str (r : ReverseRole) : string :=
  match r with Primary => "primary" | Standby => "standby" | Bootstrap => "bootstrap" end.

(** Instants and durations in nanoseconds. *)
Definition REVERSE_DRAIN : N := 120 * 1000000000.
Definition REVERSE_MAX_TOMBSTONES : nat := 2.
Definition REVERSE_NORMAL_BODY_LIMIT : N := 2 ^ 20.
Definition REVERSE_RAFT_BODY_LIMIT : N := 8 * 2 ^ 20.
Definition REVERSE_VERSION : string := "reverse-mesh-v1".

Record ReverseLink : Type := mkReverseLink {
  link_assignment : ReverseMeshAssignment;
  link_rendezvous_node_id : string;
  link_role : ReverseRole;
  link_state : ReverseLinkState;
  link_drain_deadline : option N;
}.
#[export] Instance ReverseLink_eta : Eta ReverseLink := λ r,
  mkReverseLink (link_assignment r) (link_rendezvous_node_id r) (link_role r) (link_state r) (link_drain_deadline r).

Definition reverse_assignment_role (assignment : ReverseMeshAssignment) (rendezvous_node_id : string) (bootstrap_target : bool)
    : option ReverseRole :=
  if bootstrap_target then if contains_rendezvous assignment rendezvous_node_id then Some Bootstrap else None
  else if bool_decide (ra_primary_node_id assignment = rendezvous_node_id) then Some Primary
  else if bool_decide (ra_standby_node_id assignment = Some rendezvous_node_id) then Some Standby
  else None.

Definition link_allowed (from next : ReverseLinkState) : bool :=
  match from, next with
  | Desired, Connecting => true
  | Connecting, (HealthVerified | Failed) => true
  | HealthVerified, (Active | Failed) => true
  | Active, Draining => true
  | Draining, (Closed | RetiredPendingRestart | Failed) => true
  | RetiredPendingRestart, Closed => true
  | _, _ => false
  end.

Definition transition (l : ReverseLink) (next : ReverseLinkState) (now : N) : ReverseLink * bool :=
  if negb (link_allowed (link_state l) next) then (l, false)
  else
  let l := l <| link_state := next |> in
  let l := if bool_decide (next = Draining) then l <| link_drain_deadline := Some (now + REVERSE_DRAIN) |> else l in
  (l, true).

Definition accepts_new_request (l : ReverseLink) : bool := bool_decide (link_state l = Active).

Definition drain_expired (l : ReverseLink) (now : N) : bool :=
  bool_decide (link_state l = Draining)
  && match link_drain_deadline l with Some deadline => deadline <=? now | None => false end.

(** ** Tombstones *)

Inductive TombstoneDecision : Type := Retain | RestartRequired.
#[global] Instance TombstoneDecision_eq_dec : EqDecision TombstoneDecision.
Proof. solve_decision. Defined.

(** The tags of the deque, oldest first. *)
Definition tombstone_record (tags : list string) (tag : string) : list string * TombstoneDecision :=
  if existsb (λ existing, bool_decide (existing = tag)) tags then (tags, Retain)
  else if (REVERSE_MAX_TOMBSTONES <=? length tags)%nat then (tags, RestartRequired)
  else (tags ++ [tag], Retain).

Definition clear_after_restart (tags : list string) : list string := [].

(** ** Names derived from an assignment *)

Definition derive_reverse_tag (cluster_epoch : N) (target rendezvous : string) (role : ReverseRole) (generation : N) : string :=
  "xp-reverse-" +:+ pretty cluster_epoch +:+ "-" +:+ target +:+ "-" +:+ rendezvous +:+ "-"
  +:+ ReverseRole_as_str role +:+ "-" +:+ pretty generation.

(** ** Envelopes *)

Record ReverseRelayEnvelope : Type := mkReverseRelayEnvelope {
  env_version : string;
  env_assignment_generation : N;
  env_target_node_id : string;
  env_method : string;
  env_uri : string;
  env_content_type : string;
  env_route : string;
  env_sender_node_id : string;
  env_request_id : string;
  env_issued_at : Z;
  env_content_length : N;
  env_inner_signature : string;
  env_outer_signature : string;
}.
#[global] Instance ReverseRelayEnvelope_eq_dec : EqDecision ReverseRelayEnvelope.
Proof. solve_decision. Defined.
#[export] Instance ReverseRelayEnvelope_eta : Eta ReverseRelayEnvelope := λ r,
  mkReverseRelayEnvelope (env_version r) (env_assignment_generation r) (env_target_node_id r) (env_method r) (env_uri r)
    (env_content_type r) (env_route r) (env_sender_node_id r) (env_request_id r) (env_issued_at r) (env_content_length r)
    (env_inner_signature r) (env_outer_signature r).

Definition newline : ascii := Ascii.ascii_of_N 10.

(** [parts.join("\n")]. *)
Fixpoint join_lines (parts : list string) : string :=
  match parts with
  | [] => ""
  | [p] => p
  | p :: rest => p +:+ String newline (join_lines rest)
  end.

Definition canonical_parts (e : ReverseRelayEnvelope) : list string :=
  [REVERSE_VERSION; pretty (env_assignment_generation e); env_target_node_id e; env_method e; env_uri e; env_content_type e;
   env_route e; env_sender_node_id e; env_request_id e; pretty (env_issued_at e); pretty (env_content_length e);
   env_inner_signature e].

Definition canonical (e : ReverseRelayEnvelope) : string := join_lines (canonical_parts e).

(** The base64url text of HMAC-SHA256 under a key. *)
Class RelayMac := relay_mac : string → string → string.

Definition sign_relay_value `{RelayMac} (cluster_key canonical : string) : string :=
  "v1:" +:+ relay_mac cluster_key ("outer-relay" +:+ String newline canonical).

(** The bytes are compared without an early exit: the differences are or-ed together. *)
Definition constant_time_equal (left right : string) : bool :=
  (String.length left =? String.length right)%nat
  && (foldl (λ acc '(a, b), N.lor acc (N.lxor (code a) (code b))) 0 (zip (chars left) (chars right)) =? 0).

Definition sign `{RelayMac} (e : ReverseRelayEnvelope) (cluster_key : string) : ReverseRelayEnvelope :=
  let e := e <| env_version := REVERSE_VERSION |> in
  e <| env_outer_signature := sign_relay_value cluster_key (canonical e) |>.

Definition verify `{RelayMac} (e : ReverseRelayEnvelope) (cluster_key : string) : bool :=
  bool_decide (env_version e = REVERSE_VERSION)
  && negb (str_is_empty (env_target_node_id e))
  && negb (str_is_empty (env_sender_node_id e))
  && negb (str_is_empty (env_request_id e))
  && (env_content_length e <=? REVERSE_RAFT_BODY_LIMIT)
  && constant_time_equal (env_outer_signature e) (sign_relay_value cluster_key (canonical e)).

(** ** Envelopes as headers

    A header value is built from a string, which may be refused, and read back as one if it
    has visible characters only. *)
Class HeaderValues := {
  header_value : Type;
  header_value_from_str : string → option header_value;
  header_value_to_str : header_value → option string;
  header_value_roundtrip : ∀ s v, header_value_from_str s = Some v → header_value_to_str v = Some s;
  header_value_one_line : ∀ s v, header_value_to_str v = Some s → newline ∉ chars s;
}.

Definition RELAY_VERSION_HEADER : string := "x-xp-relay-version".
Definition RELAY_GENERATION_HEADER : string := "x-xp-relay-generation".
Definition RELAY_TARGET_HEADER : string := "x-xp-relay-target".
Definition RELAY_METHOD_HEADER : string := "x-xp-relay-method".
Definition RELAY_URI_HEADER : string := "x-xp-relay-uri".
Definition RELAY_CONTENT_TYPE_HEADER : string := "x-xp-relay-content-type".
Definition RELAY_ROUTE_HEADER : string := "x-xp-relay-route".
Definition RELAY_SENDER_HEADER : string := "x-xp-relay-sender".
Definition RELAY_REQUEST_ID_HEADER : string := "x-xp-relay-request-id".
Definition RELAY_ISSUED_AT_HEADER : string := "x-xp-relay-issued-at".
Definition RELAY_CONTENT_LENGTH_HEADER : string := "x-xp-relay-content-length".
Definition RELAY_INNER_SIGNATURE_HEADER : string := "x-xp-relay-inner-signature".
Definition RELAY_OUTER_SIGNATURE_HEADER : string := "x-xp-relay-outer-signature".

Definition header_fields (e : ReverseRelayEnvelope) : list (string * string) :=
  [(RELAY_VERSION_HEADER, env_version e);
   (RELAY_GENERATION_HEADER, pretty (env_assignment_generation e));
   (RELAY_TARGET_HEADER, env_target_node_id e);
   (RELAY_METHOD_HEADER, env_method e);
   (RELAY_URI_HEADER, env_uri e);
   (RELAY_CONTENT_TYPE_HEADER, env_content_type e);
   (RELAY_ROUTE_HEADER, env_route e);
   (RELAY_SENDER_HEADER, env_sender_node_id e);
   (RELAY_REQUEST_ID_HEADER, env_request_id e);
   (RELAY_ISSUED_AT_HEADER, pretty (env_issued_at e));
   (RELAY_CONTENT_LENGTH_HEADER, pretty (env_content_length e));
   (RELAY_INNER_SIGNATURE_HEADER, env_inner_signature e);
   (RELAY_OUTER_SIGNATURE_HEADER, env_outer_signature e)].

Section Headers.
Context `{HeaderValues}.

Definition insert_header (headers : gmap string header_value) (field : string * string)
    : result (gmap string header_value) string :=
  let '(name, value) := field in
  let? value := ok_or (header_value_from_str value) "invalid relay header value" in
  Ok (<[name := value]> headers).

Definition insert_headers (e : ReverseRelayEnvelope) (headers : gmap string header_value)
    : result (gmap string header_value) string :=
  try_fold insert_header headers (header_fields e).

Definition required (headers : gmap string header_value) (name : string) : result string string :=
  ok_or (headers !! name ≫= header_value_to_str) "missing relay header".

Definition from_headers (headers : gmap string header_value) : result ReverseRelayEnvelope string :=
  let? version := required headers RELAY_VERSION_HEADER in
  let? generation := required headers RELAY_GENERATION_HEADER in
  let? generation := ok_or (parse_u64 generation) "invalid relay generation" in
  let? target := required headers RELAY_TARGET_HEADER in
  let? method := required headers RELAY_METHOD_HEADER in
  let? uri := required headers RELAY_URI_HEADER in
  let? content_type := required headers RELAY_CONTENT_TYPE_HEADER in
  let? route := required headers RELAY_ROUTE_HEADER in
  let? sender := required headers RELAY_SENDER_HEADER in
  let? request_id := required headers RELAY_REQUEST_ID_HEADER in
  let? issued_at := required headers RELAY_ISSUED_AT_HEADER in
  let? issued_at := ok_or (parse_i64 issued_at) "invalid relay issued-at" in
  let? content_length := required headers RELAY_CONTENT_LENGTH_HEADER in
  let? content_length := ok_or (parse_u64 content_length) "invalid relay content length" in
  let? inner_signature := required headers RELAY_INNER_SIGNATURE_HEADER in
  let? outer_signature := required headers RELAY_OUTER_SIGNATURE_HEADER in
  Ok (mkReverseRelayEnvelope version generation target method uri content_type route sender request_id issued_at
        content_length inner_signature outer_signature).
End Headers.

Definition relay_body_limit (path : string) : N :=
  if String.prefix "/raft/" path || contains_str "snapshot" path then REVERSE_RAFT_BODY_LIMIT else REVERSE_NORMAL_BODY_LIMIT.

(** Nanoseconds; [total / 3] clamped to half a second .. five seconds. *)
Definition route_budget (total : N) : N := N.min (N.max (total / 3) 500000000) 5000000000.

(** * Link histories *)

Definition link_step (l l' : ReverseLink) : Prop := ∃ next now, transition l next now = (l', true).

Definition link_rank (s : ReverseLinkState) : nat :=
  match s with
  | Desired => 0 | Connecting => 1 | HealthVerified => 2 | Active => 3
  | Draining => 4 | RetiredPendingRestart => 5 | Closed | Failed => 6
  end.

Lemma link_step_inv l l' :
  link_step l l' →
  link_allowed (link_state l) (link_state l') = true ∧
  link_assignment l' = link_assignment l ∧ link_rendezvous_node_id l' = link_rendezvous_node_id l ∧ link_role l' = link_role l.
Proof.
  intros (next & now & Ht). unfold transition in Ht. destruct (link_allowed (link_state l) next) eqn:Ha; [|done].
  simpl in Ht. destruct l; case_bool_decide; simplify_eq/=; done.
Qed.

Lemma link_allowed_rank a b : link_allowed a b = true → (link_rank a < link_rank b)%nat.
Proof. destruct a, b; simpl; intros; try done; lia. Qed.

(** A reverse link makes at most six transitions in its life, and they only lead forward:
    whatever it did before, it accepts requests only while active, it becomes active only
    from a verified health check, and once it has left the active state it never accepts a
    request again. *)
Theorem link_history (l l' : ReverseLink) (n : nat) (Hrun : nsteps link_step n l l') :
  (n ≤ 6)%nat ∧ (link_rank (link_state l) + n ≤ link_rank (link_state l'))%nat ∧
  link_assignment l' = link_assignment l ∧
  (accepts_new_request l' = true → accepts_new_request l = false →
   ∃ mid, rtc link_step l mid ∧ rtc link_step mid l' ∧ link_state mid = HealthVerified) ∧
  ((link_rank Active < link_rank (link_state l))%nat → accepts_new_request l' = false).
Proof.
  assert (∀ s, link_rank s ≤ 6)%nat as Hmax by (intros []; simpl; lia).
  assert ((link_rank (link_state l) + n ≤ link_rank (link_state l'))%nat ∧ link_assignment l' = link_assignment l ∧
    (link_state l' = Active → link_state l ≠ Active →
     ∃ mid, rtc link_step l mid ∧ rtc link_step mid l' ∧ link_state mid = HealthVerified)) as (Hr & Ha & Hmid).
  { induction Hrun as [l|n l m l' Hstep Hrun (IHr & IHa & IHm)]; [split_and!; [lia|done|done]|].
    pose proof Hstep as (Hal & Has & _ & _)%link_step_inv. pose proof (link_allowed_rank _ _ Hal).
    split_and!; [lia|congruence|]. intros Hl' Hl.
    assert (rtc link_step m l') by (apply rtc_nsteps; eauto).
    destruct (decide (link_state m = Active)) as [Hm|Hm].
    - exists l. split_and!; [done|by eapply rtc_l|]. rewrite Hm in Hal. by destruct (link_state l).
    - destruct (IHm Hl' Hm) as (mid & ? & ? & ?). exists mid. split_and!; [by eapply rtc_l|done..]. }
  pose proof (Hmax (link_state l')). unfold accepts_new_request. split_and!; [lia|done|done| |].
  - rewrite bool_decide_eq_true, bool_decide_eq_false. done.
  - intros Hlt. apply bool_decide_eq_false. intros Heq. rewrite Heq in Hr. simpl in *. lia.
Qed.

Definition link_example (s : ReverseLinkState) (deadline : option N) : ReverseLink :=
  mkReverseLink (mkReverseMeshAssignment "t" 1 1 "p" None 1) "p" Primary s deadline.

Lemma link_history_witness :
  accepts_new_request (link_example Active None) = true ∧
  ∃ mid, rtc link_step (link_example Desired None) mid ∧ rtc link_step mid (link_example Active None) ∧ link_state mid = HealthVerified.
Proof.
  assert (nsteps link_step 3 (link_example Desired None) (link_example Active None)) as Hrun.
  { apply (nsteps_l _ 2 _ (link_example Connecting None)); [exists Connecting, 0; reflexivity|].
    apply (nsteps_l _ 1 _ (link_example HealthVerified None)); [exists HealthVerified, 0; reflexivity|].
    apply nsteps_once. exists Active, 0. reflexivity. }
  destruct (link_history _ _ _ Hrun) as (_ & _ & _ & Hmid & _).
  exact (conj eq_refl (Hmid eq_refl eq_refl)).
Defined.

(** * Tombstones *)

(** Tags recorded one after the other, from a worker that has just restarted. *)
Definition record_all (tags : list string) : list string := foldl (λ ts tag, (tombstone_record ts tag).1) [] tags.

Lemma tombstone_record_cases ts tag :
  (tag ∈ ts ∧ tombstone_record ts tag = (ts, Retain)) ∨
  (tag ∉ ts ∧ (REVERSE_MAX_TOMBSTONES ≤ length ts)%nat ∧ tombstone_record ts tag = (ts, RestartRequired)) ∨
  (tag ∉ ts ∧ (length ts < REVERSE_MAX_TOMBSTONES)%nat ∧ tombstone_record ts tag = (ts ++ [tag], Retain)).
Proof.
  assert (existsb (λ e, bool_decide (e = tag)) ts = true ↔ tag ∈ ts) as Hex.
  { rewrite existsb_exists. split; [intros (x & ? & ->%bool_decide_eq_true); by apply list_elem_of_In|].
    intros. exists tag. by rewrite bool_decide_true, <-list_elem_of_In. }
  unfold tombstone_record. destruct (existsb _ ts); [left; tauto|]. right.
  assert (tag ∉ ts) by (rewrite <-Hex; done). destruct (Nat.leb_spec REVERSE_MAX_TOMBSTONES (length ts)); auto.
Qed.

(** Between two restarts of the worker at most two distinct tags are kept, none is ever
    forgotten, and a further tag is refused with a restart request exactly when two others
    are already there. *)
Theorem tombstones_bounded (tags : list string) (tag : string) :
  let kept := record_all tags in
  NoDup kept ∧ (length kept ≤ REVERSE_MAX_TOMBSTONES)%nat ∧ (∀ t, t ∈ kept → t ∈ tags) ∧
  (∀ t, t ∈ kept → t ∈ (tombstone_record kept tag).1) ∧
  ((tombstone_record kept tag).2 = Retain ↔ tag ∈ (tombstone_record kept tag).1) ∧
  ((tombstone_record kept tag).2 = RestartRequired ↔ tag ∉ kept ∧ length kept = REVERSE_MAX_TOMBSTONES).
Proof.
  intros kept. assert (NoDup kept ∧ (length kept ≤ REVERSE_MAX_TOMBSTONES)%nat ∧ ∀ t, t ∈ kept → t ∈ tags) as (Hnd & Hlen & Hsub).
  { unfold kept, record_all. induction tags as [|t tags (IHn & IHl & IHs)] using rev_ind; [split_and!; [constructor|simpl; lia|done]|].
    rewrite foldl_snoc. set (ts := foldl _ [] tags) in *. clearbody ts.
    destruct (tombstone_record_cases ts t) as [(Hin & ->)|[(Hn & Hl & ->)|(Hn & Hl & ->)]]; cbn [fst].
    1,2: split_and!; [done..|intros t' ?; apply elem_of_app; auto].
    rewrite length_app. cbn [length]. split_and!; [|lia|intros t'; rewrite !elem_of_app; naive_solver].
    apply NoDup_app. split_and!; [done|intros ? ? ->%list_elem_of_singleton; done|apply NoDup_singleton]. }
  clearbody kept. destruct (tombstone_record_cases kept tag) as [(Hin & ->)|[(Hn & Hl & ->)|(Hn & Hl & ->)]]; cbn [fst snd].
  - split_and!; try done; split; intros; by destruct_and?.
  - split_and!; try done. split; [|done]. intros _. split; [done|lia].
  - split_and!; try done; [by intros; apply elem_of_app; left| |split; [done|lia]].
    split; [|done]. intros _. apply elem_of_app. right. left.
Qed.

(** * Canonical text and signatures *)

Lemma split_chars_single c l : c ∉ l → split_chars c l = [l].
Proof.
  induction l as [|x l IH]; intros Hc; [done|]. apply not_elem_of_cons in Hc as [Hx Hl].
  cbn [split_chars]. rewrite decide_False by congruence. by rewrite IH.
Qed.

Lemma split_join_lines parts :
  parts ≠ [] → Forall (λ p, newline ∉ chars p) parts → split_chars newline (chars (join_lines parts)) = chars <$> parts.
Proof.
  intros Hne Hall. induction Hall as [|p parts Hp Hall IH]; [done|]. destruct parts as [|q parts].
  - simpl. by apply split_chars_single.
  - change (join_lines (p :: q :: parts)) with (p +:+ String newline (join_lines (q :: parts))).
    rewrite chars_app. cbn [String.list_ascii_of_string]. rewrite split_chars_app, IH by done.
    by rewrite split_chars_single.
Qed.

Lemma join_lines_inj parts parts' :
  parts ≠ [] → parts' ≠ [] → Forall (λ p, newline ∉ chars p) parts → Forall (λ p, newline ∉ chars p) parts' →
  join_lines parts = join_lines parts' → parts = parts'.
Proof.
  intros H1 H2 Hf1 Hf2 Heq. assert (chars <$> parts = chars <$> parts') as Hc.
  { rewrite <-!split_join_lines by done. by rewrite Heq. }
  by apply (inj (fmap chars)) in Hc.
Qed.

Lemma pretty_N_no_newline (n : N) : newline ∉ chars (pretty n).
Proof.
  destruct (pretty_N_digits n) as [Hd _]. intros Hin. rewrite forallb_elem in Hd. by specialize (Hd _ Hin).
Qed.

Lemma pretty_Z_no_newline (z : Z) : newline ∉ chars (pretty z).
Proof.
  destruct z as [|p|p]; [by apply (bool_decide_unpack _)|apply (pretty_N_no_newline (N.pos p))|].
  change (pretty (Z.neg p)) with ("-" +:+ pretty (N.pos p)). rewrite chars_app. intros [Hin|Hin]%elem_of_app.
  - apply list_elem_of_singleton in Hin. done.
  - by apply pretty_N_no_newline in Hin.
Qed.

(** The free-text fields of an envelope are single lines, as header values are. *)
Definition single_line (e : ReverseRelayEnvelope) : Prop :=
  Forall (λ s, newline ∉ chars s)
    [env_target_node_id e; env_method e; env_uri e; env_content_type e; env_route e; env_sender_node_id e;
     env_request_id e; env_inner_signature e].

(** What the outer signature covers. *)
Definition signed_content (e : ReverseRelayEnvelope) :=
  (env_assignment_generation e, env_target_node_id e, env_method e, env_uri e, env_content_type e,
   (env_route e, env_sender_node_id e, env_request_id e, env_issued_at e, env_content_length e, env_inner_signature e)).

(** The text an envelope is signed under determines everything it covers: two envelopes
    whose fields are single lines have the same canonical text only if they agree on the
    generation, target, request line, sender, request id, time, length and inner
    signature. *)
Theorem canonical_injective (e e' : ReverseRelayEnvelope)
  (He : single_line e) (He' : single_line e') (Heq : canonical e = canonical e') :
  signed_content e = signed_content e'.
Proof.
  assert (∀ e, single_line e → Forall (λ p, newline ∉ chars p) (canonical_parts e)) as Hparts.
  { clear. intros e He. unfold single_line in He. rewrite !Forall_cons in He. destruct_and!. unfold canonical_parts.
    repeat (constructor; [first [done|apply pretty_N_no_newline|apply pretty_Z_no_newline|by apply (bool_decide_unpack _)]|]).
    constructor. }
  apply join_lines_inj in Heq; [|done..|by apply Hparts|by apply Hparts].
  unfold canonical_parts in Heq. unfold signed_content. simplify_eq.
  repeat match goal with H : pretty _ = pretty _ |- _ => apply (inj pretty) in H end. congruence.
Qed.

Definition envelope_example (outer : string) : ReverseRelayEnvelope :=
  mkReverseRelayEnvelope REVERSE_VERSION 3 "target" "POST" "/raft/append" "application/json" "r" "sender" "req-1" (-5) 42 "inner" outer.

Lemma canonical_injective_witness : signed_content (envelope_example "a") = signed_content (envelope_example "b").
Proof.
  apply canonical_injective.
  1,2: apply (bool_decide_unpack _); vm_compute; exact I.
  reflexivity.
Defined.

Lemma xor_fold_zero l acc :
  foldl (λ acc '(a, b), N.lor acc (N.lxor (code a) (code b))) acc l = 0 ↔
  acc = 0 ∧ Forall (λ '(a, b), a = b) l.
Proof.
  revert acc. induction l as [|[a b] l IH]; intros acc; cbn [foldl].
  { split; [intros ->; split; [done|constructor]|by intros [-> _]]. }
  rewrite IH, Forall_cons, N.lor_eq_0_iff, N.lxor_eq_0_iff. unfold code. split.
  - intros [[-> Hab] Hl]. split_and!; [done| |done].
    by rewrite <-(ascii_N_embedding a), <-(ascii_N_embedding b), Hab.
  - by intros (-> & -> & Hl).
Qed.

Lemma constant_time_equal_spec a b : constant_time_equal a b = true ↔ a = b.
Proof.
  unfold constant_time_equal. rewrite andb_true_iff, Nat.eqb_eq, N.eqb_eq, xor_fold_zero, <-!length_chars. split.
  - intros (Hlen & _ & Hall). apply (inj String.list_ascii_of_string).
    revert Hlen Hall. generalize (chars a), (chars b). clear. intros l. induction l as [|x l IH]; intros [|y k] Hlen Hall; try done.
    simpl in *. rewrite Forall_cons in Hall. destruct Hall as [-> Hall]. f_equal. apply IH; [lia|done].
  - intros ->. split_and!; [done..|]. generalize (chars b). clear. intros l. induction l as [|x l IH]; constructor; done.
Qed.

(** A signed envelope verifies under the same key exactly when it names a target, a sender
    and a request and stays within the body limit; and an envelope verifies only with
    the signature that signing it again would produce. *)
Theorem verify_spec `{RelayMac} (e : ReverseRelayEnvelope) (key : string) :
  (verify (sign e key) key = true ↔
   env_target_node_id e ≠ "" ∧ env_sender_node_id e ≠ "" ∧ env_request_id e ≠ "" ∧
   env_content_length e ≤ REVERSE_RAFT_BODY_LIMIT) ∧
  (verify e key = true → sign e key = e).
Proof.
  unfold verify, str_is_empty.
  rewrite !andb_true_iff, !negb_true_iff, !bool_decide_eq_false, !bool_decide_eq_true, !N.leb_le, !constant_time_equal_spec.
  split.
  - destruct e; unfold sign, canonical, canonical_parts; simpl. tauto.
  - intros (((((Hv & _) & _) & _) & _) & Hs). unfold sign. destruct e; simpl in *; subst. by rewrite Hs at 2.
Qed.

(** * Header round trip *)

Ltac get_header Hget := erewrite Hget by (rewrite !elem_of_cons; tauto); cbn [rbind].

Section RoundTrip.
Context `{HeaderValues}.

Lemma insert_headers_lookup fields headers headers' name value :
  NoDup fields.*1 → try_fold insert_header headers fields = Ok headers' → (name, value) ∈ fields →
  required headers' name = Ok value.
Proof.
  revert headers. induction fields as [|[n v] fields IH]; intros headers Hnd Hins Hin; [by apply not_elem_of_nil in Hin|].
  csimpl in *. apply NoDup_cons in Hnd as [Hn Hnd]. apply rbind_ok_inv in Hins as (h & Hh & Hins).
  unfold insert_header in Hh. destruct_ok. apply elem_of_cons in Hin as [[= -> ->]|Hin]; [|by eapply IH].
  assert (headers' !! n = Some x) as Hl.
  { apply (try_fold_inv (λ h, h !! n = Some x) _ _ _ _ (lookup_insert_eq headers n x)) in Hins; [done|].
    intros b [n' v'] b' Hin' Hb Hb'. unfold insert_header in Hb'. destruct_ok.
    rewrite lookup_insert_ne; [done|]. intros ->. apply Hn, list_elem_of_fmap. by exists (n, v'). }
  unfold required. rewrite Hl. simpl. erewrite header_value_roundtrip; done.
Qed.

(** An envelope written into headers is read back unchanged, provided its numbers are of
    their machine width. *)
Theorem envelope_header_roundtrip (e : ReverseRelayEnvelope) (headers headers' : gmap string header_value)
  (Hgeneration : env_assignment_generation e ≤ u64_max) (Hlength : env_content_length e ≤ u64_max)
  (Hissued : (- 2 ^ 63 ≤ env_issued_at e < 2 ^ 63)%Z)
  (Hinsert : insert_headers e headers = Ok headers') :
  from_headers headers' = Ok e.
Proof.
  assert (∀ name value, (name, value) ∈ header_fields e → required headers' name = Ok value) as Hget.
  { intros name value Hin. eapply insert_headers_lookup; [|exact Hinsert|done].
    apply (bool_decide_unpack _). vm_compute. exact I. }
  unfold header_fields in Hget.
  unfold from_headers. do 2 get_header Hget. unfold parse_u64. rewrite parse_uint_pretty by done. cbn [ok_or rbind].
  do 8 get_header Hget. rewrite parse_i64_pretty by lia. cbn [ok_or rbind].
  get_header Hget. rewrite parse_uint_pretty by done. cbn [ok_or rbind]. do 2 get_header Hget. by destruct e.
Qed.
End RoundTrip.

(** Header values that are strings of visible ASCII characters. *)
#[refine] Definition ascii_headers : HeaderValues := {|
  header_value := string;
  header_value_from_str s := if forallb (in_range 32 126) (chars s) then Some s else None;
  header_value_to_str s := if forallb (in_range 32 126) (chars s) then Some s else None;
|}.
Proof.
  - intros s v. destruct (forallb _ _) eqn:Hs; intros [= ->]. by rewrite Hs.
  - intros s v. destruct (forallb _ _) eqn:Hs; intros [= ->]. rewrite forallb_elem in Hs. intros Hin. by specialize (Hs _ Hin).
Defined.

Lemma envelope_header_roundtrip_witness :
  ∃ headers, @insert_headers ascii_headers (envelope_example "outer") ∅ = Ok headers ∧
             @from_headers ascii_headers headers = Ok (envelope_example "outer").
Proof.
  eexists. split; [vm_compute; reflexivity|].
  eapply (@envelope_header_roundtrip ascii_headers (envelope_example "outer") ∅); [vm_compute; discriminate..| |].
  - vm_compute. split; [discriminate|reflexivity].
  - vm_compute. reflexivity.
Defined.
