(* ===== verification/State.v ===== *)
(** * The replicated state

    The data of [src/state.rs]: [PersistedState] and what it holds, the membership index
    that links users to endpoints and how it is kept in step with them, and the pruning of
    probe history. *)

From S2P Require Import Prelude Text Search Domain Protocol Clock Lifecycle Repository ReverseMesh.
Open Scope string_scope.
Open Scope list_scope.
Open Scope N_scope.

Definition SCHEMA_VERSION : N := 13.
Definition ENDPOINT_PROBE_HOUR_BUCKET_LIMIT : nat := 24.

(** ** Errors

    The errors of the file system and of the JSON codec carry the message they display. *)
Inductive StoreError : Type :=
| Io (message : string)
| SerdeJson (message : string)
| StoreDomain (e : DomainError)
| MigrationError (message : string)
| SchemaVersionMismatch (expected got : N)
| InvalidJoinSession (message : string)
| InvalidMembershipOperation (message : string).

Definition StoreError_display (e : StoreError) : string :=
  match e with
  | Io m => "io error: " +:+ m
  | SerdeJson m => "json error: " +:+ m
  | StoreDomain e => DomainError_display e
  | MigrationError m => "migration error: " +:+ m
  | SchemaVersionMismatch expected got =>
      "schema_version mismatch: expected " +:+ pretty expected +:+ ", got " +:+ pretty got
  | InvalidJoinSession m => "invalid join session: " +:+ m
  | InvalidMembershipOperation m => "invalid membership operation: " +:+ m
  end.

(** ** Settings *)

Record GeoDbUpdateSettingsCompat : Type := mkGeoDbUpdateSettingsCompat {
  geo_provider : string;
  geo_auto_update_enabled : bool;
  geo_update_interval_days : N;
}.
#[global] Instance GeoDbUpdateSettingsCompat_eq_dec : EqDecision GeoDbUpdateSettingsCompat.
Proof. solve_decision. Defined.
Definition GeoDbUpdateSettingsCompat_default : GeoDbUpdateSettingsCompat := mkGeoDbUpdateSettingsCompat "dbip_lite" false 1.

Inductive MihomoDeliveryMode : Type := DeliveryLegacy | DeliveryProvider.
#[global] Instance MihomoDeliveryMode_eq_dec : EqDecision MihomoDeliveryMode.
Proof. solve_decision. Defined.

(** ** Probes *)

Record EndpointProbeNodeSample : Type := mkEndpointProbeNodeSample {
  pns_ok : bool;
  pns_skipped : bool;
  pns_checked_at : string;
  pns_latency_ms : option N;
  pns_target_id : option string;
  pns_target_url : option string;
  pns_error : option string;
  pns_config_hash : string;
}.
#[global] Instance EndpointProbeNodeSample_eq_dec : EqDecision EndpointProbeNodeSample.
Proof. solve_decision. Defined.

Record EndpointProbeHour : Type := mkEndpointProbeHour { by_node : gmap string EndpointProbeNodeSample }.
#[global] Instance EndpointProbeHour_eq_dec : EqDecision EndpointProbeHour.
Proof. solve_decision. Defined.

Record EndpointProbeHistory : Type := mkEndpointProbeHistory { hours : gmap string EndpointProbeHour }.
#[global] Instance EndpointProbeHistory_eq_dec : EqDecision EndpointProbeHistory.
Proof. solve_decision. Defined.

Record EndpointProbeAppendSample : Type := mkEndpointProbeAppendSample {
  pas_endpoint_id : string;
  pas_ok : bool;
  pas_skipped : bool;
  pas_checked_at : string;
  pas_latency_ms : option N;
  pas_target_id : option string;
  pas_target_url : option string;
  pas_error : option string;
  pas_config_hash : string;
}.

Inductive NodeSubscriptionRegion : Type := Japan | HongKong | Taiwan | Korea | Singapore | Us | Other.
#[global] Instance NodeSubscriptionRegion_eq_dec : EqDecision NodeSubscriptionRegion.
Proof. solve_decision. Defined.

Definition NodeSubscriptionRegion_label (r : NodeSubscriptionRegion) : string :=
  match r with
  | Japan => "Japan" | HongKong => "HongKong" | Taiwan => "Taiwan" | Korea => "Korea"
  | Singapore => "Singapore" | Us => "US" | Other => "Other"
  end.

Record PersistedInboundIpGeo : Type := mkPersistedInboundIpGeo {
  geo_country : string;
  geo_region : string;
  geo_city : string;
  geo_operator : string;
}.
#[global] Instance PersistedInboundIpGeo_eq_dec : EqDecision PersistedInboundIpGeo.
Proof. solve_decision. Defined.

Record NodeEgressProbeState : Type := mkNodeEgressProbeState {
  ep_public_ipv4 : option string;
  ep_public_ipv6 : option string;
  ep_selected_public_ip : option string;
  ep_geo : PersistedInboundIpGeo;
  ep_subscription_region : NodeSubscriptionRegion;
  ep_checked_at : string;
  ep_last_success_at : option string;
  ep_classification_invalidated_at : option string;
  ep_error_summary : option string;
}.
#[global] Instance NodeEgressProbeState_eq_dec : EqDecision NodeEgressProbeState.
Proof. solve_decision. Defined.

(** ** Per-user configuration *)

Record UserNodeQuotaConfig : Type := mkUserNodeQuotaConfig {
  unqc_quota_limit_bytes : option N;
  unqc_quota_reset_source : QuotaResetSource;
}.
#[global] Instance UserNodeQuotaConfig_eq_dec : EqDecision UserNodeQuotaConfig.
Proof. solve_decision. Defined.

Record UserNodeWeightConfig : Type := mkUserNodeWeightConfig { unw_weight : N }.
#[global] Instance UserNodeWeightConfig_eq_dec : EqDecision UserNodeWeightConfig.
Proof. solve_decision. Defined.
Record UserGlobalWeightConfig : Type := mkUserGlobalWeightConfig { ugw_weight : N }.
#[global] Instance UserGlobalWeightConfig_eq_dec : EqDecision UserGlobalWeightConfig.
Proof. solve_decision. Defined.
Record NodeWeightPolicyConfig : Type := mkNodeWeightPolicyConfig { inherit_global : bool }.
#[global] Instance NodeWeightPolicyConfig_eq_dec : EqDecision NodeWeightPolicyConfig.
Proof. solve_decision. Defined.
Definition NodeWeightPolicyConfig_default : NodeWeightPolicyConfig := mkNodeWeightPolicyConfig true.

Record UserMihomoProfile : Type := mkUserMihomoProfile {
  mp_mixin_yaml : string;
  mp_extra_proxies_yaml : string;
  mp_extra_proxy_providers_yaml : string;
}.
#[global] Instance UserMihomoProfile_eq_dec : EqDecision UserMihomoProfile.
Proof. solve_decision. Defined.

Record NodeUserEndpointMembership : Type := mkMembership {
  m_user_id : string;
  m_node_id : string;
  m_endpoint_id : string;
}.
#[global] Instance NodeUserEndpointMembership_eq_dec : EqDecision NodeUserEndpointMembership.
Proof. solve_decision. Defined.
#[global] Instance NodeUserEndpointMembership_countable : Countable NodeUserEndpointMembership.
Proof.
  refine (inj_countable' (λ m, (m_user_id m, m_node_id m, m_endpoint_id m)) (λ '(u, n, e), mkMembership u n e) _).
  by intros [].
Defined.

Definition membership_key (user_id endpoint_id : string) : string := user_id +:+ "::" +:+ endpoint_id.
Definition membership_xray_email (user_id endpoint_id : string) : string := "m:" +:+ membership_key user_id endpoint_id.

(** ** The state *)

Record PersistedState : Type := mkPersistedState {
  ps_schema_version : N;
  ps_mihomo_resource_revision : N;
  ps_mihomo_resource_allow_private_targets : bool;
  ps_nodes : gmap string Node;
  ps_join_sessions : gmap string JoinSession;
  ps_membership_operations : gmap string MembershipOperation;
  ps_endpoints : gmap string Endpoint;
  ps_endpoint_probe_history : gmap string EndpointProbeHistory;
  ps_endpoint_probe_participants_by_hour : gmap string (gset string);
  ps_node_egress_probes : gmap string NodeEgressProbeState;
  ps_users : gmap string User;
  ps_reality_domains : list RealityDomain;
  ps_user_node_quotas : gmap string (gmap string UserNodeQuotaConfig);
  ps_user_node_weights : gmap string (gmap string UserNodeWeightConfig);
  ps_user_global_weights : gmap string UserGlobalWeightConfig;
  ps_node_weight_policies : gmap string NodeWeightPolicyConfig;
  ps_node_user_endpoint_memberships : gset NodeUserEndpointMembership;
  ps_user_auto_assign_endpoint_kinds : gmap string (gset EndpointKind);
  ps_user_mihomo_profiles : gmap string UserMihomoProfile;
  ps_mihomo_delivery_mode : MihomoDeliveryMode;
  ps_repository_membership : option RepositoryMembership;
  ps_reverse_mesh_epoch : N;
  ps_reverse_mesh_assignments : gmap string ReverseMeshAssignment;
  ps_reverse_mesh_generation_counters : gmap string N;
  ps_geo_db_update_settings_compat : GeoDbUpdateSettingsCompat;
}.
#[export] Instance PersistedState_eta : Eta PersistedState := λ r,
  mkPersistedState (ps_schema_version r) (ps_mihomo_resource_revision r) (ps_mihomo_resource_allow_private_targets r)
    (ps_nodes r) (ps_join_sessions r) (ps_membership_operations r) (ps_endpoints r) (ps_endpoint_probe_history r)
    (ps_endpoint_probe_participants_by_hour r) (ps_node_egress_probes r) (ps_users r) (ps_reality_domains r)
    (ps_user_node_quotas r) (ps_user_node_weights r) (ps_user_global_weights r) (ps_node_weight_policies r)
    (ps_node_user_endpoint_memberships r) (ps_user_auto_assign_endpoint_kinds r) (ps_user_mihomo_profiles r)
    (ps_mihomo_delivery_mode r) (ps_repository_membership r) (ps_reverse_mesh_epoch r) (ps_reverse_mesh_assignments r)
    (ps_reverse_mesh_generation_counters r) (ps_geo_db_update_settings_compat r).

Definition PersistedState_empty : PersistedState :=
  mkPersistedState SCHEMA_VERSION 0 false ∅ ∅ ∅ ∅ ∅ ∅ ∅ ∅ [] ∅ ∅ ∅ ∅ ∅ ∅ ∅ DeliveryLegacy None 0 ∅ ∅
    GeoDbUpdateSettingsCompat_default.

(** The first active operation in key order. *)
Definition active_membership_operation (st : PersistedState) : option MembershipOperation :=
  List.find is_active (bt_values (ps_membership_operations st)).

(** ** The membership index *)

Definition normalize_membership (st : PersistedState) (m : NodeUserEndpointMembership) : option NodeUserEndpointMembership :=
  if negb (contains_key (ps_users st) (m_user_id m)) then None
  else match ps_endpoints st !! m_endpoint_id m with
       | None => None
       | Some endpoint => Some (mkMembership (m_user_id m) (e_node_id endpoint) (m_endpoint_id m))
       end.

Definition normalize_node_user_endpoint_memberships (st : PersistedState) (memberships : gset NodeUserEndpointMembership)
    : gset NodeUserEndpointMembership :=
  list_to_set (omap (normalize_membership st) (elements memberships)).

(** The memberships the automatic assignment of one user yields. *)
Definition auto_assigned (st : PersistedState) (user_kinds : string * gset EndpointKind) : list NodeUserEndpointMembership :=
  let '(user_id, kinds) := user_kinds in
  if negb (contains_key (ps_users st) user_id) then []
  else (λ endpoint, mkMembership user_id (e_node_id endpoint) (e_endpoint_id endpoint))
       <$> filter (λ endpoint, e_kind endpoint ∈ kinds) (bt_values (ps_endpoints st)).

Definition build_node_user_endpoint_memberships (st : PersistedState) : gset NodeUserEndpointMembership :=
  let out := normalize_node_user_endpoint_memberships st (ps_node_user_endpoint_memberships st) in
  out ∪ list_to_set (bt_items (ps_user_auto_assign_endpoint_kinds st) ≫= auto_assigned st).

Definition normalize_user_auto_assign_endpoint_kinds (st : PersistedState) (auto_assign : gmap string (gset EndpointKind))
    : gmap string (gset EndpointKind) :=
  filter (λ '(user_id, kinds), is_Some (ps_users st !! user_id) ∧ kinds ≠ ∅) auto_assign.

Definition infer_auto_assign_endpoint_kinds_for_user (st : PersistedState) (endpoint_ids : gset string) : gset EndpointKind :=
  let endpoint_ids_by_kind : gmap EndpointKind (gset string) :=
    foldl (λ acc endpoint, <[e_kind endpoint := {[e_endpoint_id endpoint]} ∪ default ∅ (acc !! e_kind endpoint)]> acc)
          ∅ (bt_values (ps_endpoints st)) in
  dom (filter (λ '(_, kind_endpoint_ids), kind_endpoint_ids ≠ ∅ ∧ kind_endpoint_ids ⊆ endpoint_ids) endpoint_ids_by_kind).

Definition infer_user_auto_assign_endpoint_kinds (st : PersistedState) : gmap string (gset EndpointKind) :=
  let endpoint_ids user_id : gset string :=
    list_to_set (m_endpoint_id <$> filter (λ m, m_user_id m = user_id) (elements (ps_node_user_endpoint_memberships st))) in
  filter (λ '(_, kinds), kinds ≠ ∅)
    (map_imap (λ user_id _, Some (infer_auto_assign_endpoint_kinds_for_user st (endpoint_ids user_id))) (ps_users st)).

Definition sync_node_user_endpoint_memberships (st : PersistedState) : PersistedState :=
  let st := st <| ps_user_auto_assign_endpoint_kinds :=
                    normalize_user_auto_assign_endpoint_kinds st (ps_user_auto_assign_endpoint_kinds st) |> in
  st <| ps_node_user_endpoint_memberships := build_node_user_endpoint_memberships st |>.

(** ** Probe history *)

(** Drops the oldest buckets until the limit is met; the fuel is the number of buckets. *)
Fixpoint prune_hours {T} (fuel : nat) (hours : gmap string T) : gmap string T :=
  match fuel with
  | O => hours
  | S fuel =>
      if (ENDPOINT_PROBE_HOUR_BUCKET_LIMIT <? size hours)%nat
      then match bt_keys hours with
           | oldest :: _ => prune_hours fuel (delete oldest hours)
           | [] => hours
           end
      else hours
  end.
Definition prune_endpoint_probe_hour_map {T} (hours : gmap string T) : gmap string T := prune_hours (size hours) hours.

(** Probe records of nodes that no longer exist, and the buckets they leave empty; the flag
    tells whether anything was dropped. *)
Definition prune_bucket (known_node_ids : gset string) (bucket : EndpointProbeHour) : EndpointProbeHour :=
  mkEndpointProbeHour (filter (λ '(node_id, _), node_id ∈ known_node_ids) (by_node bucket)).

Definition prune_history (known_node_ids : gset string) (history : EndpointProbeHistory) : EndpointProbeHistory :=
  mkEndpointProbeHistory (filter (λ '(_, bucket), by_node bucket ≠ ∅) (prune_bucket known_node_ids <$> hours history)).

Definition history_changed (known_node_ids : gset string) (history : EndpointProbeHistory) : bool :=
  existsb (λ bucket, negb (size (by_node bucket) =? size (by_node (prune_bucket known_node_ids bucket)))%nat)
          (bt_values (hours history))
  || negb (size (hours history) =? size (hours (prune_history known_node_ids history)))%nat.

Definition prune_deleted_nodes_from_endpoint_probe_tracking (st : PersistedState) : PersistedState * bool :=
  let known_node_ids : gset string := dom (ps_nodes st) in
  let histories := prune_history known_node_ids <$> ps_endpoint_probe_history st in
  let histories' := filter (λ '(_, history), hours history ≠ ∅) histories in
  let participants := (λ ids : gset string, ids ∩ known_node_ids) <$> ps_endpoint_probe_participants_by_hour st in
  let participants' := filter (λ '(_, ids), ids ≠ ∅) participants in
  let changed :=
    existsb (history_changed known_node_ids) (bt_values (ps_endpoint_probe_history st))
    || negb (size histories =? size histories')%nat
    || existsb (λ ids : gset string, negb (size ids =? size (ids ∩ known_node_ids))%nat)
               (bt_values (ps_endpoint_probe_participants_by_hour st))
    || negb (size participants =? size participants')%nat in
  (st <| ps_endpoint_probe_history := histories' |> <| ps_endpoint_probe_participants_by_hour := participants' |>, changed).

(** * The membership index is in step *)

(** Every map is keyed by the id of what it holds. *)
Record keyed_state (st : PersistedState) : Prop := {
  ks_users : ∀ k u, ps_users st !! k = Some u → u_user_id u = k;
  ks_nodes : ∀ k n, ps_nodes st !! k = Some n → n_node_id n = k;
  ks_endpoints : ∀ k e, ps_endpoints st !! k = Some e → e_endpoint_id e = k;
}.

(** A membership names an existing user and an existing endpoint, and the node is that
    endpoint's node. *)
Definition membership_ok (st : PersistedState) (m : NodeUserEndpointMembership) : Prop :=
  is_Some (ps_users st !! m_user_id m) ∧
  ∃ e, ps_endpoints st !! m_endpoint_id m = Some e ∧ m_node_id m = e_node_id e.

Record index_in_step (st : PersistedState) : Prop := {
  is_sound : ∀ m, m ∈ ps_node_user_endpoint_memberships st → membership_ok st m;
  is_complete : ∀ u kinds k e, ps_user_auto_assign_endpoint_kinds st !! u = Some kinds →
    ps_endpoints st !! k = Some e → e_kind e ∈ kinds → mkMembership u (e_node_id e) k ∈ ps_node_user_endpoint_memberships st;
  is_auto : ∀ u kinds, ps_user_auto_assign_endpoint_kinds st !! u = Some kinds → is_Some (ps_users st !! u) ∧ kinds ≠ ∅;
}.

Lemma elem_of_normalize st memberships m :
  m ∈ normalize_node_user_endpoint_memberships st memberships ↔
  membership_ok st m ∧ ∃ n, mkMembership (m_user_id m) n (m_endpoint_id m) ∈ memberships.
Proof.
  unfold normalize_node_user_endpoint_memberships, membership_ok. rewrite elem_of_list_to_set, list_elem_of_omap. split.
  - intros (x & Hx%elem_of_elements & Hn). unfold normalize_membership in Hn.
    destruct (contains_key _ _) eqn:Hu; [|done]. apply contains_key_true in Hu. simpl in Hn.
    destruct (ps_endpoints st !! m_endpoint_id x) as [e|] eqn:He; [|done]. injection Hn as <-.
    destruct x as [u n k]; simpl in *. split; [|by eexists]. split; [done|]. by exists e.
  - intros [[Hu (e & He & Hn)] [n Hm]]. exists (mkMembership (m_user_id m) n (m_endpoint_id m)).
    split; [by apply elem_of_elements|]. unfold normalize_membership. simpl.
    rewrite (proj2 (contains_key_true _ _) Hu), He. simpl. destruct m; simpl in *. by subst.
Qed.

Lemma elem_of_build st m :
  keyed_state st →
  m ∈ build_node_user_endpoint_memberships st ↔
  membership_ok st m ∧
  ((∃ n, mkMembership (m_user_id m) n (m_endpoint_id m) ∈ ps_node_user_endpoint_memberships st) ∨
   ∃ kinds e, ps_user_auto_assign_endpoint_kinds st !! m_user_id m = Some kinds ∧
              ps_endpoints st !! m_endpoint_id m = Some e ∧ e_kind e ∈ kinds).
Proof.
  intros [_ _ Hkey]. unfold build_node_user_endpoint_memberships. rewrite elem_of_union, elem_of_normalize.
  rewrite elem_of_list_to_set, list_elem_of_bind. split.
  - intros [[Hok Hn]|([u kinds] & Hm & Hin%elem_of_bt_items)]; [by auto|]. unfold auto_assigned in Hm.
    destruct (contains_key _ _) eqn:Hu; [|by apply not_elem_of_nil in Hm]. apply contains_key_true in Hu. simpl in Hm.
    apply list_elem_of_fmap in Hm as (e & -> & Hf). apply list_elem_of_filter in Hf as [Hk [k He]%elem_of_bt_values].
    pose proof (Hkey _ _ He) as <-. simpl. split; [split; [done|by exists e]|]. right. by exists kinds, e.
  - intros [Hok [Hn|(kinds & e & Ha & He & Hk)]]; [by auto|]. right.
    exists (m_user_id m, kinds). rewrite elem_of_bt_items. split; [|done]. unfold auto_assigned.
    destruct Hok as [Hu (e' & He' & Hn)]. rewrite He in He'. injection He' as <-. rewrite (proj2 (contains_key_true _ _) Hu). simpl.
    apply list_elem_of_fmap. exists e. split; [rewrite (Hkey _ _ He), <-Hn; by destruct m|].
    apply list_elem_of_filter. split; [done|]. apply elem_of_bt_values. eauto.
Qed.

Lemma normalize_auto_lookup st auto u kinds :
  normalize_user_auto_assign_endpoint_kinds st auto !! u = Some kinds ↔
  auto !! u = Some kinds ∧ is_Some (ps_users st !! u) ∧ kinds ≠ ∅.
Proof. apply map_lookup_filter_Some. Qed.

(** Nothing but the two fields of the index changes. *)
Lemma sync_frame st (st' := sync_node_user_endpoint_memberships st) :
  ps_users st' = ps_users st ∧ ps_nodes st' = ps_nodes st ∧ ps_endpoints st' = ps_endpoints st.
Proof. by destruct st. Qed.

Lemma sync_auto st :
  ps_user_auto_assign_endpoint_kinds (sync_node_user_endpoint_memberships st) =
  normalize_user_auto_assign_endpoint_kinds st (ps_user_auto_assign_endpoint_kinds st).
Proof. by destruct st. Qed.

Lemma elem_of_sync st m :
  keyed_state st →
  m ∈ ps_node_user_endpoint_memberships (sync_node_user_endpoint_memberships st) ↔
  membership_ok st m ∧
  ((∃ n, mkMembership (m_user_id m) n (m_endpoint_id m) ∈ ps_node_user_endpoint_memberships st) ∨
   ∃ kinds e, ps_user_auto_assign_endpoint_kinds st !! m_user_id m = Some kinds ∧
              ps_endpoints st !! m_endpoint_id m = Some e ∧ e_kind e ∈ kinds).
Proof.
  intros Hkey. set (st1 := st <| ps_user_auto_assign_endpoint_kinds :=
    normalize_user_auto_assign_endpoint_kinds st (ps_user_auto_assign_endpoint_kinds st) |>).
  transitivity (m ∈ build_node_user_endpoint_memberships st1); [by destruct st|].
  rewrite elem_of_build by (destruct st, Hkey; by split).
  change (membership_ok st1 m) with (membership_ok st m).
  change (ps_node_user_endpoint_memberships st1) with (ps_node_user_endpoint_memberships st).
  change (ps_endpoints st1) with (ps_endpoints st).
  change (ps_user_auto_assign_endpoint_kinds st1) with (normalize_user_auto_assign_endpoint_kinds st (ps_user_auto_assign_endpoint_kinds st)).
  setoid_rewrite normalize_auto_lookup. split; intros [Hok [Hn|(kinds & e & ?)]]; split; [done|by left|done| |done|by left|done|]; right; exists kinds, e.
  - tauto.
  - destruct Hok as [Hu _]. split_and!; try tauto. set_solver.
Qed.

Lemma keyed_state_sync st : keyed_state st → keyed_state (sync_node_user_endpoint_memberships st).
Proof. intros [H1 H2 H3]. destruct (sync_frame st) as (Hu & Hn & He). split; by rewrite ?Hu, ?Hn, ?He. Qed.

Lemma sync_in_step st : keyed_state st → index_in_step (sync_node_user_endpoint_memberships st).
Proof.
  intros Hkey. destruct (sync_frame st) as (Hu & Hn & He). split.
  - intros m [Hok _]%elem_of_sync; [|done]. unfold membership_ok. by rewrite Hu, He.
  - intros u kinds k e Ha Hk Hkind. rewrite sync_auto in Ha. apply normalize_auto_lookup in Ha as (Ha & Hus & _).
    rewrite He in Hk. apply elem_of_sync; [done|]. split; [split; [done|by exists e]|]. right. by exists kinds, e.
  - intros u kinds Ha. rewrite sync_auto in Ha. apply normalize_auto_lookup in Ha as (_ & ? & ?). by rewrite Hu.
Qed.

(** A state whose index is in step is left alone. *)
Lemma sync_fixed st : keyed_state st → index_in_step st → sync_node_user_endpoint_memberships st = st.
Proof.
  intros Hkey [Hs Hc Ha].
  assert (ps_user_auto_assign_endpoint_kinds (sync_node_user_endpoint_memberships st) = ps_user_auto_assign_endpoint_kinds st) as Hauto.
  { rewrite sync_auto. apply map_eq. intros u. apply option_eq. intros kinds. rewrite normalize_auto_lookup.
    split; [tauto|]. intros Hk. destruct (Ha u kinds Hk). tauto. }
  assert (ps_node_user_endpoint_memberships (sync_node_user_endpoint_memberships st) = ps_node_user_endpoint_memberships st) as Hm.
  { apply set_eq. intros m. rewrite elem_of_sync by done. split.
    - intros [Hok [[n Hn]|(kinds & e & Hk & He & Hkind)]].
      + destruct Hok as [_ (e & He & Hnode)]. destruct (Hs _ Hn) as [_ (e' & He' & Hnode')]. simpl in *. simplify_eq.
        by destruct m; simpl in *; subst.
      + destruct Hok as [_ (e' & He' & Hnode')]. specialize (Hc _ _ _ _ Hk He Hkind). simplify_eq. rewrite <-Hnode' in Hc.
        by destruct m.
    - intros Hin. split; [by apply Hs|]. left. exists (m_node_id m). by destruct m. }
  transitivity (st <| ps_user_auto_assign_endpoint_kinds := ps_user_auto_assign_endpoint_kinds (sync_node_user_endpoint_memberships st) |>
                   <| ps_node_user_endpoint_memberships := ps_node_user_endpoint_memberships (sync_node_user_endpoint_memberships st) |>);
    [by destruct st|]. rewrite Hauto, Hm. by destruct st.
Qed.

(** C37: after a synchronisation every membership names an existing user and an existing
    endpoint with that endpoint's node, every user has a membership for each endpoint of
    the kinds assigned to it automatically, and no kinds remain for unknown users; a
    membership is there exactly when it was before (up to the node it names) or is due to
    automatic assignment; and synchronising again changes nothing. *)
Theorem sync_memberships_spec (st : PersistedState) (Hkey : keyed_state st) :
  let st' := sync_node_user_endpoint_memberships st in
  index_in_step st' ∧ sync_node_user_endpoint_memberships st' = st' ∧
  ∀ m, m ∈ ps_node_user_endpoint_memberships st' ↔
    membership_ok st m ∧
    ((∃ n, mkMembership (m_user_id m) n (m_endpoint_id m) ∈ ps_node_user_endpoint_memberships st) ∨
     ∃ kinds e, ps_user_auto_assign_endpoint_kinds st !! m_user_id m = Some kinds ∧
                ps_endpoints st !! m_endpoint_id m = Some e ∧ e_kind e ∈ kinds).
Proof.
  split_and!; [by apply sync_in_step| |intros m; by apply elem_of_sync].
  apply sync_fixed; [by apply keyed_state_sync|by apply sync_in_step].
Qed.

Definition user_example : User := mkUser "u" "User" "token" 0 P2 UserQuotaReset_default.
Definition endpoint_example (id node : string) : Endpoint := mkEndpoint id node "tag" VlessRealityVisionTcp 443 JNull.

Lemma sync_memberships_spec_witness :
  let st := PersistedState_empty <| ps_users := {["u" := user_example]} |>
              <| ps_endpoints := {["e" := endpoint_example "e" "n"]} |>
              <| ps_user_auto_assign_endpoint_kinds := {["u" := {[VlessRealityVisionTcp]}]} |> in
  index_in_step (sync_node_user_endpoint_memberships st).
Proof.
  intros st. refine (proj1 (sync_memberships_spec st _)).
  split; intros k x Hk; unfold st in Hk; simpl in Hk.
  1,3: apply lookup_singleton_Some in Hk as [<- <-]; reflexivity.
  by rewrite lookup_empty in Hk.
Defined.

(** * Pruned probe history *)

Lemma bt_keys_head {T} (hours : gmap string T) oldest rest :
  bt_keys hours = oldest :: rest →
  is_Some (hours !! oldest) ∧ ∀ k, is_Some (hours !! k) → k ≠ oldest → str_lt oldest k.
Proof.
  intros Hk. pose proof (bt_keys_sorted hours) as Hs. rewrite Hk in Hs.
  apply StronglySorted_inv in Hs as [_ Hs]. rewrite Forall_forall in Hs. split.
  - apply elem_of_bt_keys. rewrite Hk. left.
  - intros k Hin Hne. apply elem_of_bt_keys in Hin. rewrite Hk in Hin. apply elem_of_cons in Hin as [?|Hin]; [done|].
    apply str_lt_le. auto.
Qed.

Lemma prune_hours_spec {T} fuel (hours : gmap string T) :
  (size hours ≤ fuel)%nat →
  let hours' := prune_hours fuel hours in
  hours' ⊆ hours ∧ size hours' = Nat.min (size hours) ENDPOINT_PROBE_HOUR_BUCKET_LIMIT ∧
  ∀ k k', is_Some (hours' !! k) → is_Some (hours !! k') → hours' !! k' = None → str_lt k' k.
Proof.
  revert hours. induction fuel as [|fuel IH]; intros hours Hf; cbn [prune_hours].
  { split_and!; [done|lia|]. intros k k' _ [x Hx] Hn. congruence. }
  destruct (Nat.ltb_spec ENDPOINT_PROBE_HOUR_BUCKET_LIMIT (size hours)) as [Hlt|Hge].
  2: { split_and!; [done|lia|]. intros k k' _ [x Hx] Hn. congruence. }
  destruct (bt_keys hours) as [|oldest rest] eqn:Hk.
  { pose proof (length_bt_keys hours) as Hl. rewrite Hk in Hl. simpl in Hl. lia. }
  apply bt_keys_head in Hk as [[v Hv] Hmin].
  assert (size (delete oldest hours) = pred (size hours)) as Hsize by (apply map_size_delete_Some; eauto).
  destruct (IH (delete oldest hours)) as (Hsub & Hsz & Hord); [lia|].
  split_and!; [etrans; [done|apply delete_subseteq]|lia|].
  intros k k' Hk [x Hx] Hn. destruct (decide (k' = oldest)) as [->|Hne].
  - destruct Hk as [y Hy]. pose proof (lookup_weaken _ _ _ _ Hy Hsub) as Hd.
    apply lookup_delete_Some in Hd as [Hne Hd]. apply Hmin; [eauto|done].
  - apply (Hord k k'); [done| |done]. rewrite lookup_delete_ne by done. eauto.
Qed.

(** Pruning keeps the most recent probe buckets (hour keys sort by time): at most
    twenty-four of them, all of them while there are no more, and every bucket it drops is
    older than every bucket it keeps. *)
Theorem prune_endpoint_probe_hour_map_spec {T} (hours : gmap string T) :
  let hours' := prune_endpoint_probe_hour_map hours in
  hours' ⊆ hours ∧ size hours' = Nat.min (size hours) ENDPOINT_PROBE_HOUR_BUCKET_LIMIT ∧
  ∀ k k', is_Some (hours' !! k) → is_Some (hours !! k') → hours' !! k' = None → str_lt k' k.
Proof. apply prune_hours_spec. done. Qed.
