(* ===== verification/Command.v ===== *)
(** * Desired-state commands

    [DesiredStateCommand::apply] of [src/state.rs] with [src/state_join_command.rs] and
    [src/state/membership_operation.rs]: what every replicated command does to the state.
    A command runs in a monad of state and errors; as in the source, what was written
    before an error stays written (that nothing ever was is a theorem of [Apply]). *)

From S2P Require Import Prelude Text Search Domain Protocol Clock Lifecycle Repository ReverseMesh State.
Open Scope string_scope.
Open Scope list_scope.
Open Scope N_scope.

(** ** The monad of a command *)

Definition M (A : Type) : Type := PersistedState → PersistedState * result A StoreError.

#[global] Instance M_ret : MRet M := λ A a st, (st, Ok a).
#[global] Instance M_bind : MBind M := λ A B k m st,
  match m st with
  | (st', Ok a) => k a st'
  | (st', Err e) => (st', Err e)
  end.

Definition fail {A} (e : StoreError) : M A := λ st, (st, Err e).
Definition fail_domain {A} (e : DomainError) : M A := fail (StoreDomain e).
Definition get : M PersistedState := λ st, (st, Ok st).
Definition modify (f : PersistedState → PersistedState) : M unit := λ st, (f st, Ok tt).
Definition lift {A} (r : result A StoreError) : M A := λ st, (st, r).
Definition lift_domain {A} (r : result A DomainError) : M A := lift (map_err StoreDomain r).
(** [if b { return Err(e); }] *)
Definition refuse (b : bool) (e : StoreError) : M unit := if b then fail e else mret tt.
Definition refuse_domain (b : bool) (e : DomainError) : M unit := refuse b (StoreDomain e).

(** ** Commands *)

Inductive DesiredStateCommand : Type :=
| UpsertNode (node : Node) (join_session : option JoinSession)
| DeleteNode (node_id : string) (delete_endpoints : bool) (expected_endpoint_ids : list string)
    (join_session : option JoinSession)
| BeginMembershipOperation (operation : MembershipOperation) (node : option Node) (join_session : option JoinSession)
| TransitionMembershipOperation (operation : MembershipOperation)
| PruneMembershipOperations (terminal_before : string)
| UpsertEndpoint (endpoint : Endpoint) (expected : option Endpoint)
| DeleteEndpoint (endpoint_id : string)
| CreateRealityDomain (domain : RealityDomain)
| PatchRealityDomain (domain_id : string) (server_name : option string) (disabled_node_ids : option (gset string))
| DeleteRealityDomain (domain_id : string)
| ReorderRealityDomains (domain_ids : list string)
| UpsertUser (user : User)
| DeleteUser (user_id : string)
| ResetUserSubscriptionToken (user_id subscription_token : string)
| SetUserNodeQuota (user_id node_id : string) (quota_limit_bytes : N) (quota_reset_source : QuotaResetSource)
| SetUserNodeWeight (user_id node_id : string) (weight : N)
| SetUserGlobalWeight (user_id : string) (weight : N)
| SetNodeWeightPolicy (node_id : string) (inherit_global : bool)
| SetUserMihomoProfile (user_id : string) (profile : UserMihomoProfile)
| SetMihomoDeliveryMode (mode : MihomoDeliveryMode)
| SetMihomoResourceAllowPrivateTargets (allow : bool)
| SetGeoDbUpdateSettings (settings : GeoDbUpdateSettingsCompat)
| ReplaceUserAccess (user_id : string) (endpoint_ids : list string)
| EnsureMembership (user_id endpoint_id : string)
| BumpUserCredentialEpoch (user_id : string)
| CompatNoop (note : string)
| AppendEndpointProbeSamples (hour from_node_id : string) (samples : list EndpointProbeAppendSample)
| ReplaceRepositoryMembership (membership : RepositoryMembership)
| UpdateRepositoryMemberRuntime (patch : RepositoryMemberRuntimePatch)
| SetReverseMeshEpoch (epoch : N)
| UpsertReverseMeshAssignment (assignment : ReverseMeshAssignment) (expected_generation : option N)
| DeleteReverseMeshAssignment (target_node_id : string) (expected_generation : option N).

Inductive DesiredStateApplyResult : Type :=
| Applied
| MembershipOperationResult (operation : MembershipOperation)
| NodeDeleted (deleted : bool) (deleted_endpoint_tags : list string)
| EndpointDeleted (deleted : bool)
| UserDeleted (deleted : bool)
| UserTokenReset (applied : bool)
| UserNodeQuotaSet (quota : UserNodeQuota)
| UserAccessReplaced (created deleted : nat)
| UserCredentialEpochBumped (user_id : string) (credential_epoch : N).

(** ** Validators *)

Definition validate_user_quota_reset (reset : UserQuotaReset) : result unit DomainError :=
  match reset with
  | UserUnlimited tz_offset_minutes => validate_tz_offset_minutes tz_offset_minutes
  | UserMonthly day_of_month tz_offset_minutes =>
      let? _ := validate_cycle_day_of_month day_of_month in
      validate_tz_offset_minutes tz_offset_minutes
  end.

Definition validate_opt_tz (tz_offset_minutes : option Z) : result unit DomainError :=
  match tz_offset_minutes with Some tz => validate_tz_offset_minutes tz | None => Ok tt end.

Definition validate_node_quota_reset (reset : NodeQuotaReset) : result unit DomainError :=
  match reset with
  | NodeUnlimited tz_offset_minutes => validate_opt_tz tz_offset_minutes
  | NodeMonthly day_of_month tz_offset_minutes =>
      let? _ := validate_cycle_day_of_month day_of_month in
      validate_opt_tz tz_offset_minutes
  end.

Definition validate_node_quota_config (node : Node) : result unit DomainError :=
  if (0 <? n_quota_limit_bytes node) && match n_quota_reset node with NodeUnlimited _ => true | _ => false end
  then Err (InvalidNodeQuotaConfig "quota_limit_bytes > 0 requires quota_reset policy monthly")
  else Ok tt.

(** ** REALITY server names *)

(** Trims, drops blanks and keeps the first of names equal up to case. *)
Definition push_server_name (acc : list string * gset string) (raw : string) : list string * gset string :=
  let '(out, seen) := acc in
  let trimmed := trim raw in
  if str_is_empty trimmed then acc
  else
  let key := to_ascii_lowercase trimmed in
  if bool_decide (key ∈ seen) then acc else (out ++ [trimmed], {[key]} ∪ seen).

Definition normalize_reality_server_names (input : list string) : list string :=
  (foldl push_server_name ([], ∅) input).1.

Definition derive_global_reality_server_names (domains : list RealityDomain) (node_id : string) : list string :=
  (foldl push_server_name ([], ∅) (d_server_name <$> filter (λ d, node_id ∉ d_disabled_node_ids d) domains)).1.

(** ** Notes that carry an egress probe

    The JSON codec of the payload. *)
Class EgressNotes := egress_payload_from_str : string → option (string * NodeEgressProbeState).

Definition NODE_EGRESS_PROBE_COMPAT_NOOP_PREFIX : string := "node_egress_probe_state:".

Definition decode_node_egress_probe_compat_note `{EgressNotes} (note : string) : option (string * NodeEgressProbeState) :=
  strip_prefix NODE_EGRESS_PROBE_COMPAT_NOOP_PREFIX note ≫= egress_payload_from_str.

Section Arms.
Context `{MetaCodec} `{UrlParser} `{Rfc3339} `{EgressNotes}.

(** ** VLESS metadata *)

Definition serialize_vless_meta_preserving_smux (meta : VlessRealityVisionTcpEndpointMeta) (had_mihomo_smux : bool) : json :=
  let value := vless_to_json meta in
  if had_mihomo_smux then value else json_remove "mihomo_smux" value.

Definition had_mihomo_smux (meta : json) : bool := bool_decide (is_Some (json_get "mihomo_smux" meta)).

(** [server_names[0].trim()] with the port. *)
Definition default_dest (server_names : list string) : string := trim (default "" (head server_names)) +:+ ":443".

Definition global_meta_update (domains : list RealityDomain) (endpoint_id : string) (endpoint : Endpoint)
    : result (option json) StoreError :=
  if negb (bool_decide (e_kind endpoint = VlessRealityVisionTcp)) then Ok None
  else
  let had := had_mihomo_smux (e_meta endpoint) in
  let? meta := map_err SerdeJson (vless_of_json (e_meta endpoint)) in
  if negb (bool_decide (rc_server_names_source (vm_reality meta) = Global)) then Ok None
  else
  let derived := derive_global_reality_server_names domains (e_node_id endpoint) in
  if bool_decide (derived = []) then Err (StoreDomain (RealityDomainsWouldBreakEndpoint endpoint_id (e_node_id endpoint)))
  else
  let meta := meta <| vm_reality ::= λ r, r <| rc_server_names := derived |> |> in
  let meta := if negb (vm_managed_default meta) then meta <| vm_reality ::= λ r, r <| rc_dest := default_dest derived |> |> else meta in
  Ok (Some (serialize_vless_meta_preserving_smux meta had)).

Definition build_global_vless_meta_updates (endpoints : gmap string Endpoint) (domains : list RealityDomain)
    : result (gmap string json) StoreError :=
  try_fold (λ out '(endpoint_id, endpoint),
    let? update := global_meta_update domains endpoint_id endpoint in
    Ok (match update with Some meta => <[endpoint_id := meta]> out | None => out end))
    ∅ (bt_items endpoints).

Definition apply_vless_meta_updates (endpoints : gmap string Endpoint) (updates : gmap string json) : gmap string Endpoint :=
  map_imap (λ endpoint_id endpoint,
    Some (match updates !! endpoint_id with Some meta => endpoint <| e_meta := meta |> | None => endpoint end)) endpoints.

(** ** Nodes and join sessions *)

Definition validate_session (session : option JoinSession) : M unit :=
  st ← get;
  match session with
  | None => mret tt
  | Some session =>
      match ps_join_sessions st !! js_node_id session with
      | Some current => lift (map_err InvalidJoinSession (JoinSession_validate_successor current session))
      | None => mret tt
      end
  end.

Definition commit_session (session : option JoinSession) : M unit :=
  match session with
  | None => mret tt
  | Some session => modify (λ st, st <| ps_join_sessions ::= <[js_node_id session := session]> |>)
  end.

Definition apply_upsert_node (node : Node) (session : option JoinSession) : M DesiredStateApplyResult :=
  _ ← validate_session session;
  _ ← lift_domain (validate_node_quota_reset (n_quota_reset node));
  _ ← lift_domain (validate_node_quota_config node);
  _ ← modify (λ st, st <| ps_nodes ::= <[n_node_id node := node]> |>);
  _ ← commit_session session;
  _ ← modify sync_node_user_endpoint_memberships;
  mret Applied.

(** The endpoints of a node, in key order. *)
Definition endpoints_of (st : PersistedState) (node_id : string) : list Endpoint :=
  filter (λ e, e_node_id e = node_id) (bt_values (ps_endpoints st)).

(** [map.iter_mut()] removing a node from every inner map, then [retain] of the non-empty ones. *)
Definition remove_inner {V} (node_id : string) (m : gmap string (gmap string V)) : gmap string (gmap string V) :=
  filter (λ '(_, inner), inner ≠ ∅) (delete node_id <$> m).

Definition remove_probe_node (node_id : string) (m : gmap string EndpointProbeHistory) : gmap string EndpointProbeHistory :=
  filter (λ '(_, history), hours history ≠ ∅)
    ((λ history, mkEndpointProbeHistory
        (filter (λ '(_, bucket), by_node bucket ≠ ∅)
          ((λ bucket, mkEndpointProbeHour (delete node_id (by_node bucket))) <$> hours history))) <$> m).

Definition remove_participant (node_id : string) (m : gmap string (gset string)) : gmap string (gset string) :=
  filter (λ '(_, ids), ids ≠ ∅) ((λ ids : gset string, ids ∖ {[node_id]}) <$> m).

Definition delete_node_cleanup (node_id : string) (st : PersistedState) : PersistedState :=
  st <| ps_reality_domains ::= fmap (λ d, d <| d_disabled_node_ids ::= λ ids, ids ∖ {[node_id]} |>) |>
     <| ps_user_node_quotas ::= remove_inner node_id |>
     <| ps_user_node_weights ::= remove_inner node_id |>
     <| ps_node_weight_policies ::= delete node_id |>
     <| ps_endpoint_probe_history ::= remove_probe_node node_id |>
     <| ps_endpoint_probe_participants_by_hour ::= remove_participant node_id |>
     <| ps_node_egress_probes ::= delete node_id |>
     <| ps_reverse_mesh_assignments ::= filter (λ '(target_id, assignment),
          target_id ≠ node_id ∧ ra_target_node_id assignment ≠ node_id ∧ contains_rendezvous assignment node_id = false) |>.

Definition delete_endpoints_of (endpoint_ids : list string) (st : PersistedState) : PersistedState :=
  foldl (λ st endpoint_id, st <| ps_endpoints ::= delete endpoint_id |> <| ps_endpoint_probe_history ::= delete endpoint_id |>)
        st endpoint_ids.

Definition apply_delete_node (node_id : string) (delete_endpoints : bool) (expected_endpoint_ids : list string)
    (join_session : option JoinSession) : M DesiredStateApplyResult :=
  _ ← validate_session join_session;
  st ← get;
  if negb (contains_key (ps_nodes st) node_id) then
    _ ← commit_session join_session;
    mret (NodeDeleted false [])
  else
  let endpoint_refs := endpoints_of st node_id in
  _ ← refuse_domain (negb (bool_decide (endpoint_refs = [])) && negb delete_endpoints)
        (NodeInUse node_id (default "" (e_endpoint_id <$> head endpoint_refs)));
  _ ← refuse_domain (delete_endpoints
                     && negb (bool_decide ((list_to_set (e_endpoint_id <$> endpoint_refs) : gset string) = list_to_set expected_endpoint_ids)))
        (NodeEndpointSetChanged node_id);
  _ ← modify (delete_endpoints_of (e_endpoint_id <$> endpoint_refs));
  _ ← modify (λ st, st <| ps_nodes ::= delete node_id |>);
  _ ← commit_session join_session;
  _ ← modify (delete_node_cleanup node_id);
  _ ← modify sync_node_user_endpoint_memberships;
  mret (NodeDeleted true (e_tag <$> endpoint_refs)).

(** ** Membership operations *)

Definition invalid_operation (message : string) : StoreError := InvalidMembershipOperation message.

Definition remove_node_target (operation : MembershipOperation) : result string StoreError :=
  match op_node_id operation with
  | Some node_id =>
      if str_is_empty (trim node_id) then Err (invalid_operation "remove-node operation must include desired node") else Ok node_id
  | None => Err (invalid_operation "remove-node operation must include desired node")
  end.

Definition validate_remove_node_endpoint_snapshot (st : PersistedState) (operation : MembershipOperation) : result unit StoreError :=
  if negb (bool_decide (op_kind operation = RemoveNode)) then Ok tt
  else
  let? node_id := remove_node_target operation in
  let actual_endpoint_ids : gset string := list_to_set (e_endpoint_id <$> endpoints_of st node_id) in
  let actual_endpoint_tags : gset string := list_to_set (e_tag <$> endpoints_of st node_id) in
  let expected_endpoint_ids : gset string := list_to_set (op_expected_endpoint_ids operation) in
  let expected_endpoint_tags : gset string := list_to_set (op_expected_endpoint_tags operation) in
  let snapshot_matches := bool_decide (actual_endpoint_ids = expected_endpoint_ids)
                          && bool_decide (actual_endpoint_tags = expected_endpoint_tags) in
  if (negb (op_delete_endpoints operation) && negb (bool_decide (actual_endpoint_ids = ∅))) || negb snapshot_matches
  then Err (StoreDomain (NodeEndpointSetChanged node_id))
  else Ok tt.

Definition on_node (node_id : string) (endpoint : option Endpoint) : bool :=
  match endpoint with Some e => bool_decide (e_node_id e = node_id) | None => false end.

Definition ensure_endpoint_mutation_is_allowed (st : PersistedState) (current next : option Endpoint) : result unit StoreError :=
  match active_membership_operation st with
  | None => Ok tt
  | Some operation =>
      if negb (bool_decide (op_kind operation = RemoveNode)) then Ok tt
      else
      let? node_id := remove_node_target operation in
      if on_node node_id current || on_node node_id next
      then Err (StoreDomain (NodeLifecycleOperationActive node_id))
      else Ok tt
  end.

(** The next state is built on a copy and replaces the state only when every part of it was
    accepted. *)
Definition begin_on_copy (operation : MembershipOperation) (node : option Node) (join_session : option JoinSession) : M unit :=
  λ st,
  let next := match node with
              | Some node => apply_upsert_node node join_session st
              | None => (st, Ok Applied)
              end in
  match next with
  | (next, Ok _) => (next <| ps_membership_operations ::= <[op_operation_id operation := operation]> |>, Ok tt)
  | (_, Err e) => (st, Err e)
  end.

Definition apply_begin_membership_operation (operation : MembershipOperation) (node : option Node)
    (join_session : option JoinSession) : M DesiredStateApplyResult :=
  _ ← refuse (str_is_empty (trim (op_operation_id operation)) || str_is_empty (trim (op_expected_membership operation))
              || str_is_empty (trim (op_created_at operation)))
        (invalid_operation "membership operation identity is empty");
  _ ← refuse (negb (bool_decide (op_phase operation = Prepared))) (invalid_operation "membership operation must begin prepared");
  st ← get;
  _ ← refuse (contains_key (ps_membership_operations st) (op_operation_id operation))
        (invalid_operation "membership operation id already exists");
  _ ← refuse (bool_decide (is_Some (active_membership_operation st))) (invalid_operation "another membership operation is active");
  _ ← refuse (bool_decide (op_kind operation = Join) && negb (op_legacy operation)
              && (bool_decide (node = None) || bool_decide (join_session = None)))
        (invalid_operation "join operation must atomically persist node and session");
  _ ← refuse (negb (Bool.eqb (bool_decide (is_Some node)) (bool_decide (is_Some join_session))))
        (invalid_operation "membership operation node and join session must be paired");
  _ ← lift (validate_remove_node_endpoint_snapshot st operation);
  _ ← begin_on_copy operation node join_session;
  mret (MembershipOperationResult operation).

Definition apply_transition_membership_operation (operation : MembershipOperation) : M DesiredStateApplyResult :=
  st ← get;
  current ← lift (ok_or (ps_membership_operations st !! op_operation_id operation)
                        (invalid_operation "membership operation does not exist"));
  _ ← lift (map_err invalid_operation (MembershipOperation_validate_successor current operation));
  _ ← modify (λ st, st <| ps_membership_operations ::= <[op_operation_id operation := operation]> |>);
  mret (MembershipOperationResult operation).

(** A terminal operation is kept while it ended after the given time. *)
Definition operation_retained (terminal_before : Z) (operation : MembershipOperation) : bool :=
  is_none_or (λ terminal_at,
    match parse_rfc3339 terminal_at with Some t => (terminal_before <? t)%Z | None => true end) (op_terminal_at operation).

Definition apply_prune_membership_operations (terminal_before : string) : M DesiredStateApplyResult :=
  terminal_before ← lift (ok_or (parse_rfc3339 terminal_before) (invalid_operation "membership operation prune time is invalid"));
  _ ← modify (λ st, st <| ps_membership_operations ::=
        filter (λ '(_, operation), operation_retained terminal_before operation = true) |>);
  mret Applied.

(** ** Endpoints *)

Definition validate_server_names (names : list string) : result unit StoreError :=
  try_each (λ name, map_err (λ reason, StoreDomain (InvalidRealityServerName name reason)) (validate_reality_server_name name)) names.

Definition upsert_server_names (st : PersistedState) (endpoint : Endpoint) (meta : VlessRealityVisionTcpEndpointMeta)
    : result (list string) StoreError :=
  match rc_server_names_source (vm_reality meta) with
  | Manual =>
      let normalized := normalize_reality_server_names (rc_server_names (vm_reality meta)) in
      if bool_decide (normalized = []) then Err (StoreDomain (VlessRealityServerNamesEmpty (e_endpoint_id endpoint)))
      else let? _ := validate_server_names normalized in Ok normalized
  | Global =>
      let derived := derive_global_reality_server_names (ps_reality_domains st) (e_node_id endpoint) in
      if bool_decide (derived = [])
      then Err (StoreDomain (RealityDomainsWouldBreakEndpoint (e_endpoint_id endpoint) (e_node_id endpoint)))
      else let? _ := validate_server_names derived in Ok derived
  end.

Definition upsert_dest (meta : VlessRealityVisionTcpEndpointMeta) (server_names : list string) : result string StoreError :=
  let dest := rc_dest (vm_reality meta) in
  match rc_server_names_source (vm_reality meta) with
  | Global => Ok (if negb (vm_managed_default meta) then default_dest server_names else dest)
  | Manual => let? _ := map_err (λ reason, StoreDomain (InvalidRealityServerName dest reason)) (validate_reality_dest dest) in Ok dest
  end.

Definition validate_upstream (meta : VlessRealityVisionTcpEndpointMeta) : result unit StoreError :=
  match vm_canary_upstream meta with
  | None => Ok tt
  | Some upstream => map_err (λ reason, StoreDomain (InvalidRealityServerName (cu_url upstream) reason)) (validate_canary_upstream upstream)
  end.

(** The metadata a VLESS endpoint is stored with. *)
Definition upsert_vless_meta (st : PersistedState) (endpoint : Endpoint) : result json StoreError :=
  let had := had_mihomo_smux (e_meta endpoint) in
  let? meta := map_err SerdeJson (vless_of_json (e_meta endpoint)) in
  let? server_names := upsert_server_names st endpoint meta in
  let meta := meta <| vm_reality ::= λ r, r <| rc_server_names := server_names |> |> in
  let? dest := upsert_dest meta server_names in
  let meta := meta <| vm_reality ::= λ r, r <| rc_dest := dest |> |> in
  let? _ := validate_upstream meta in
  let? authorities := map_err (λ '(reason, authority), StoreDomain (InvalidAcceptedAuthority authority reason))
                              (normalize_accepted_authorities (vm_accepted_authorities meta)) in
  let meta := meta <| vm_accepted_authorities := authorities |> in
  if negb (vm_managed_default meta) && negb (bool_decide (authorities = []))
  then Err (StoreDomain (InvalidAcceptedAuthority (default "" (head authorities))
              "accepted_authorities is only supported for managed VLESS endpoints"))
  else Ok (serialize_vless_meta_preserving_smux meta had).

Definition apply_upsert_endpoint (endpoint : Endpoint) (expected : option Endpoint) : M DesiredStateApplyResult :=
  st ← get;
  let current := ps_endpoints st !! e_endpoint_id endpoint in
  _ ← lift (ensure_endpoint_mutation_is_allowed st current (Some endpoint));
  _ ← refuse_domain (match expected with Some expected => negb (bool_decide (current = Some expected)) | None => false end)
        (EndpointChanged (e_endpoint_id endpoint));
  _ ← lift_domain (validate_port (e_port endpoint));
  meta ← lift (if bool_decide (e_kind endpoint = VlessRealityVisionTcp) then upsert_vless_meta st endpoint else Ok (e_meta endpoint));
  _ ← modify (λ st, st <| ps_endpoints ::= <[e_endpoint_id endpoint := endpoint <| e_meta := meta |>]> |>);
  _ ← modify sync_node_user_endpoint_memberships;
  mret Applied.

Definition apply_delete_endpoint (endpoint_id : string) : M DesiredStateApplyResult :=
  st ← get;
  let current := ps_endpoints st !! endpoint_id in
  _ ← lift (ensure_endpoint_mutation_is_allowed st current None);
  _ ← modify (λ st, st <| ps_endpoints ::= delete endpoint_id |> <| ps_endpoint_probe_history ::= delete endpoint_id |>);
  _ ← modify sync_node_user_endpoint_memberships;
  mret (EndpointDeleted (bool_decide (is_Some current))).

(** ** REALITY domains *)

Definition check_nodes_exist (st : PersistedState) (node_ids : gset string) : result unit StoreError :=
  try_each (λ node_id, if contains_key (ps_nodes st) node_id then Ok tt else Err (StoreDomain (MissingNode node_id))) (bs_items node_ids).

(** The derived metadata of every endpoint is recomputed before anything is written. *)
Definition commit_domains (next_domains : list RealityDomain) : M DesiredStateApplyResult :=
  st ← get;
  updates ← lift (build_global_vless_meta_updates (ps_endpoints st) next_domains);
  _ ← modify (λ st, st <| ps_reality_domains := next_domains |>);
  _ ← modify (λ st, st <| ps_endpoints ::= λ endpoints, apply_vless_meta_updates endpoints updates |>);
  mret Applied.

Definition name_taken (domains : list RealityDomain) (except : RealityDomain → bool) (server_name : string) : bool :=
  existsb (λ d, negb (except d) && bool_decide (to_ascii_lowercase (d_server_name d) = to_ascii_lowercase server_name)) domains.

Definition apply_create_reality_domain (domain : RealityDomain) : M DesiredStateApplyResult :=
  let server_name := trim (d_server_name domain) in
  let domain := domain <| d_server_name := server_name |> in
  _ ← lift_domain (map_err (InvalidRealityServerName server_name) (validate_reality_server_name server_name));
  st ← get;
  _ ← refuse_domain (name_taken (ps_reality_domains st) (λ _, false) server_name) (RealityDomainNameConflict server_name);
  _ ← lift (check_nodes_exist st (d_disabled_node_ids domain));
  commit_domains (ps_reality_domains st ++ [domain]).

Definition patch_server_name (domains : list RealityDomain) (next : RealityDomain) (server_name : option string)
    : result RealityDomain StoreError :=
  match server_name with
  | None => Ok next
  | Some server_name =>
      let trimmed := trim server_name in
      let? _ := map_err (λ reason, StoreDomain (InvalidRealityServerName trimmed reason)) (validate_reality_server_name trimmed) in
      if name_taken domains (λ d, bool_decide (d_domain_id d = d_domain_id next)) trimmed
      then Err (StoreDomain (RealityDomainNameConflict trimmed))
      else Ok (next <| d_server_name := trimmed |>)
  end.

Definition patch_disabled (st : PersistedState) (next : RealityDomain) (disabled_node_ids : option (gset string))
    : result RealityDomain StoreError :=
  match disabled_node_ids with
  | None => Ok next
  | Some disabled => let? _ := check_nodes_exist st disabled in Ok (next <| d_disabled_node_ids := disabled |>)
  end.

Definition apply_patch_reality_domain (domain_id : string) (server_name : option string) (disabled_node_ids : option (gset string))
    : M DesiredStateApplyResult :=
  st ← get;
  let domains := ps_reality_domains st in
  existing_idx ← lift (ok_or (position (λ d, bool_decide (d_domain_id d = domain_id)) domains)
                             (StoreDomain (RealityDomainNotFound domain_id)));
  next ← lift (ok_or (domains !! existing_idx) (StoreDomain (RealityDomainNotFound domain_id)));
  next ← lift (patch_server_name domains next server_name);
  next ← lift (patch_disabled st next disabled_node_ids);
  commit_domains (<[existing_idx := next]> domains).

Definition apply_delete_reality_domain (domain_id : string) : M DesiredStateApplyResult :=
  st ← get;
  let domains := ps_reality_domains st in
  _ ← refuse_domain (negb (existsb (λ d, bool_decide (d_domain_id d = domain_id)) domains)) (RealityDomainNotFound domain_id);
  let next_domains := filter (λ d, d_domain_id d ≠ domain_id) domains in
  _ ← refuse_domain (length next_domains =? length domains)%nat (RealityDomainNotFound domain_id);
  commit_domains next_domains.

Definition check_distinct_ids (domain_ids : list string) : result unit StoreError :=
  let? _ := try_fold (λ (seen : gset string) id,
              if bool_decide (id ∈ seen)
              then Err (StoreDomain (RealityDomainsReorderInvalid ("duplicate domain_id: " +:+ id)))
              else Ok ({[id]} ∪ seen)) ∅ domain_ids in
  Ok tt.

Definition take_domain (acc : gmap string RealityDomain * list RealityDomain) (id : string)
    : result (gmap string RealityDomain * list RealityDomain) StoreError :=
  let '(by_id, next_domains) := acc in
  match by_id !! id with
  | Some domain => Ok (delete id by_id, next_domains ++ [domain])
  | None => Err (StoreDomain (RealityDomainsReorderInvalid ("unknown domain_id: " +:+ id)))
  end.

Definition reorder_domains (domains : list RealityDomain) (domain_ids : list string) : result (list RealityDomain) StoreError :=
  if negb (length domain_ids =? length domains)%nat
  then Err (StoreDomain (RealityDomainsReorderInvalid
              ("length mismatch: expected " +:+ pretty (length domains) +:+ " got " +:+ pretty (length domain_ids))))
  else
  let? _ := check_distinct_ids domain_ids in
  let by_id := foldl (λ m d, <[d_domain_id d := d]> m) (∅ : gmap string RealityDomain) domains in
  let? (by_id, next_domains) := try_fold take_domain (by_id, []) domain_ids in
  if negb (bool_decide (by_id = ∅))
  then Err (StoreDomain (RealityDomainsReorderInvalid "missing some domain_ids in reorder payload"))
  else Ok next_domains.

Definition apply_reorder_reality_domains (domain_ids : list string) : M DesiredStateApplyResult :=
  st ← get;
  next_domains ← lift (reorder_domains (ps_reality_domains st) domain_ids);
  commit_domains next_domains.

(** ** Users *)

Definition require_user (user_id : string) : M unit :=
  st ← get; refuse_domain (negb (contains_key (ps_users st) user_id)) (MissingUser user_id).
Definition require_node (node_id : string) : M unit :=
  st ← get; refuse_domain (negb (contains_key (ps_nodes st) node_id)) (MissingNode node_id).

Definition apply_upsert_user (user : User) : M DesiredStateApplyResult :=
  _ ← lift_domain (validate_user_quota_reset (u_quota_reset user));
  _ ← modify (λ st, st <| ps_users ::= <[u_user_id user := user]> |>);
  mret Applied.

Definition bump_revision (st : PersistedState) : PersistedState :=
  st <| ps_mihomo_resource_revision ::= λ r, wrapping u64_max (r + 1) |>.

Definition apply_delete_user (user_id : string) : M DesiredStateApplyResult :=
  st ← get;
  _ ← modify bump_revision;
  _ ← modify (λ st, st <| ps_users ::= delete user_id |> <| ps_user_node_quotas ::= delete user_id |>
                       <| ps_user_node_weights ::= delete user_id |> <| ps_user_global_weights ::= delete user_id |>
                       <| ps_user_mihomo_profiles ::= delete user_id |>);
  _ ← modify sync_node_user_endpoint_memberships;
  mret (UserDeleted (contains_key (ps_users st) user_id)).

Definition apply_reset_user_subscription_token (user_id subscription_token : string) : M DesiredStateApplyResult :=
  st ← get;
  match ps_users st !! user_id with
  | None => mret (UserTokenReset false)
  | Some user =>
      _ ← modify (λ st, st <| ps_users ::= <[user_id := user <| u_subscription_token := subscription_token |>]> |>);
      mret (UserTokenReset true)
  end.

Definition apply_set_user_node_quota (user_id node_id : string) (quota_limit_bytes : N) (quota_reset_source : QuotaResetSource)
    : M DesiredStateApplyResult :=
  _ ← require_user user_id;
  _ ← require_node node_id;
  _ ← modify (λ st, st <| ps_user_node_quotas ::=
        entry_update ∅ <[node_id := mkUserNodeQuotaConfig (Some quota_limit_bytes) quota_reset_source]> user_id |>);
  mret (UserNodeQuotaSet (mkUserNodeQuota user_id node_id quota_limit_bytes quota_reset_source)).

Definition apply_set_user_node_weight (user_id node_id : string) (weight : N) : M DesiredStateApplyResult :=
  _ ← require_user user_id;
  _ ← require_node node_id;
  _ ← modify (λ st, st <| ps_user_node_weights ::= entry_update ∅ <[node_id := mkUserNodeWeightConfig weight]> user_id |>);
  _ ← modify (λ st, st <| ps_node_weight_policies ::= <[node_id := mkNodeWeightPolicyConfig false]> |>);
  mret Applied.

Definition apply_set_user_global_weight (user_id : string) (weight : N) : M DesiredStateApplyResult :=
  _ ← require_user user_id;
  _ ← modify (λ st, st <| ps_user_global_weights ::= <[user_id := mkUserGlobalWeightConfig weight]> |>);
  mret Applied.

Definition apply_set_node_weight_policy (node_id : string) (inherit_global : bool) : M DesiredStateApplyResult :=
  _ ← require_node node_id;
  _ ← modify (λ st, st <| ps_node_weight_policies ::= <[node_id := mkNodeWeightPolicyConfig inherit_global]> |>);
  mret Applied.

Definition apply_set_user_mihomo_profile (user_id : string) (profile : UserMihomoProfile) : M DesiredStateApplyResult :=
  _ ← require_user user_id;
  _ ← modify bump_revision;
  _ ← modify (λ st, st <| ps_user_mihomo_profiles ::= <[user_id := profile]> |>);
  mret Applied.

(** ** Access *)

(** The endpoints a user has a membership for. *)
Definition user_endpoint_ids (st : PersistedState) (user_id : string) : gset string :=
  list_to_set (m_endpoint_id <$> filter (λ m, m_user_id m = user_id) (elements (ps_node_user_endpoint_memberships st))).

Definition check_endpoints_exist (st : PersistedState) (endpoint_ids : gset string) : result unit StoreError :=
  try_each (λ endpoint_id, if contains_key (ps_endpoints st) endpoint_id then Ok tt
                           else Err (StoreDomain (MissingEndpoint endpoint_id))) (bs_items endpoint_ids).

(** The user's memberships are dropped and replaced by one for each of the endpoints. *)
Definition replace_memberships (user_id : string) (endpoint_ids : gset string) (st : PersistedState) : PersistedState :=
  st <| ps_node_user_endpoint_memberships ::= λ ms,
    filter (λ m, m_user_id m ≠ user_id) ms
    ∪ list_to_set (omap (λ endpoint_id,
        (λ endpoint, mkMembership user_id (e_node_id endpoint) (e_endpoint_id endpoint)) <$> ps_endpoints st !! endpoint_id)
        (bs_items endpoint_ids)) |>.

Definition infer_user_kinds (user_id : string) (st : PersistedState) : PersistedState :=
  let auto_assign_kinds := infer_auto_assign_endpoint_kinds_for_user st (user_endpoint_ids st user_id) in
  if bool_decide (auto_assign_kinds = ∅)
  then st <| ps_user_auto_assign_endpoint_kinds ::= delete user_id |>
  else st <| ps_user_auto_assign_endpoint_kinds ::= <[user_id := auto_assign_kinds]> |>.

Definition apply_replace_user_access (user_id : string) (endpoint_ids : list string) : M DesiredStateApplyResult :=
  _ ← require_user user_id;
  st ← get;
  let desired_endpoint_ids : gset string := list_to_set endpoint_ids in
  _ ← lift (check_endpoints_exist st desired_endpoint_ids);
  let existing_endpoint_ids := user_endpoint_ids st user_id in
  _ ← modify (replace_memberships user_id desired_endpoint_ids);
  _ ← modify (infer_user_kinds user_id);
  _ ← modify sync_node_user_endpoint_memberships;
  mret (UserAccessReplaced (size (desired_endpoint_ids ∖ existing_endpoint_ids)) (size (existing_endpoint_ids ∖ desired_endpoint_ids))).

Definition apply_ensure_membership (user_id endpoint_id : string) : M DesiredStateApplyResult :=
  _ ← require_user user_id;
  st ← get;
  endpoint ← lift (ok_or (ps_endpoints st !! endpoint_id) (StoreDomain (MissingEndpoint endpoint_id)));
  _ ← modify (λ st, st <| ps_node_user_endpoint_memberships ::=
        λ ms, {[mkMembership user_id (e_node_id endpoint) (e_endpoint_id endpoint)]} ∪ ms |>);
  _ ← modify sync_node_user_endpoint_memberships;
  mret Applied.

Definition apply_bump_user_credential_epoch (user_id : string) : M DesiredStateApplyResult :=
  st ← get;
  user ← lift (ok_or (ps_users st !! user_id) (StoreDomain (MissingUser user_id)));
  let credential_epoch := sat_add u32_max (u_credential_epoch user) 1 in
  _ ← modify (λ st, st <| ps_users ::= <[user_id := user <| u_credential_epoch := credential_epoch |>]> |>);
  mret (UserCredentialEpochBumped user_id credential_epoch).

(** ** Probes *)

Definition apply_compat_noop (note : string) : M DesiredStateApplyResult :=
  st ← get;
  match decode_node_egress_probe_compat_note note with
  | Some (node_id, probe) =>
      if negb (contains_key (ps_nodes st) node_id) then mret Applied
      else
      _ ← modify (λ st, st <| ps_node_egress_probes ::= <[node_id := probe]> |>);
      mret Applied
  | None => mret Applied
  end.

Definition node_sample (sample : EndpointProbeAppendSample) : EndpointProbeNodeSample :=
  mkEndpointProbeNodeSample (pas_ok sample) (pas_skipped sample) (pas_checked_at sample) (pas_latency_ms sample)
    (pas_target_id sample) (pas_target_url sample) (pas_error sample) (pas_config_hash sample).

(** One sample into the bucket of its hour; samples of unknown endpoints are ignored. *)
Definition append_sample (hour from_node_id : string) (st : PersistedState) (sample : EndpointProbeAppendSample) : PersistedState :=
  if negb (contains_key (ps_endpoints st) (pas_endpoint_id sample)) then st
  else st <| ps_endpoint_probe_history ::=
    entry_update (mkEndpointProbeHistory ∅)
      (λ history, mkEndpointProbeHistory (prune_endpoint_probe_hour_map
        (entry_update (mkEndpointProbeHour ∅)
          (λ bucket, mkEndpointProbeHour (<[from_node_id := node_sample sample]> (by_node bucket))) hour (hours history))))
      (pas_endpoint_id sample) |>.

Definition apply_append_endpoint_probe_samples (hour from_node_id : string) (samples : list EndpointProbeAppendSample)
    : M DesiredStateApplyResult :=
  _ ← modify (λ st, st <| ps_endpoint_probe_participants_by_hour ::=
        λ m, prune_endpoint_probe_hour_map (entry_update ∅ (λ ids, {[from_node_id]} ∪ ids) hour m) |>);
  _ ← modify (λ st, foldl (append_sample hour from_node_id) st samples);
  mret Applied.

(** ** Repository and reverse mesh *)

Definition apply_repository_membership (membership : RepositoryMembership) : M unit :=
  st ← get;
  match List.find (λ node_id, negb (contains_key (ps_nodes st) node_id)) (rm_node_id <$> membership) with
  | Some node_id => fail_domain (MissingNode node_id)
  | None => modify (λ st, st <| ps_repository_membership := Some membership |>)
  end.

Definition apply_update_repository_member_runtime (patch : RepositoryMemberRuntimePatch) : M DesiredStateApplyResult :=
  st ← get;
  membership ← lift (map_err (λ error, MigrationError (RepositoryControlError_display error))
                             (apply_repository_member_runtime_update (ps_repository_membership st) patch));
  _ ← modify (λ st, st <| ps_repository_membership := membership |>);
  mret Applied.

Definition apply_set_reverse_mesh_epoch (epoch : N) : M DesiredStateApplyResult :=
  st ← get;
  _ ← refuse (epoch <? ps_reverse_mesh_epoch st)
        (MigrationError ("reverse mesh epoch cannot move backwards: current=" +:+ pretty (ps_reverse_mesh_epoch st)
                         +:+ ", requested=" +:+ pretty epoch));
  _ ← modify (λ st, st <| ps_reverse_mesh_epoch := epoch |>);
  mret Applied.

(** The assignment names nodes of the cluster, all distinct. *)
Definition assignment_nodes_ok (st : PersistedState) (assignment : ReverseMeshAssignment) : bool :=
  contains_key (ps_nodes st) (ra_target_node_id assignment)
  && contains_key (ps_nodes st) (ra_primary_node_id assignment)
  && negb (bool_decide (ra_target_node_id assignment = ra_primary_node_id assignment))
  && match ra_standby_node_id assignment with
     | Some standby => contains_key (ps_nodes st) standby && negb (bool_decide (standby = ra_target_node_id assignment))
                       && negb (bool_decide (standby = ra_primary_node_id assignment))
     | None => true
     end.

(** [expected_generation.is_some_and(|expected| current != Some(expected))] *)
Definition generation_mismatch (current : option ReverseMeshAssignment) (expected_generation : option N) : bool :=
  match expected_generation with
  | Some expected => negb (bool_decide (ra_generation <$> current = Some expected))
  | None => false
  end.

Definition apply_upsert_reverse_mesh_assignment (assignment : ReverseMeshAssignment) (expected_generation : option N)
    : M DesiredStateApplyResult :=
  _ ← refuse (negb (assignment_is_valid assignment) || (ra_generation assignment =? 0) || (ra_membership_revision assignment =? 0))
        (MigrationError "invalid reverse mesh assignment");
  st ← get;
  _ ← refuse (negb (assignment_nodes_ok st assignment))
        (MigrationError "reverse mesh assignment references an invalid cluster node");
  _ ← refuse (negb (ra_credential_epoch assignment =? ps_reverse_mesh_epoch st))
        (MigrationError ("reverse mesh assignment credential epoch " +:+ pretty (ra_credential_epoch assignment)
                         +:+ " does not match state epoch " +:+ pretty (ps_reverse_mesh_epoch st)));
  let target := ra_target_node_id assignment in
  let current := ps_reverse_mesh_assignments st !! target in
  _ ← refuse (generation_mismatch current expected_generation) (MigrationError "reverse mesh assignment generation CAS failed");
  let generation_floor := default 0 (ps_reverse_mesh_generation_counters st !! target) in
  let is_same_current_generation := match current with Some c => ra_generation c =? ra_generation assignment | None => false end in
  _ ← refuse ((ra_generation assignment <? generation_floor)
              || (negb is_same_current_generation && (ra_generation assignment <=? generation_floor)))
        (MigrationError ("reverse mesh assignment generation " +:+ pretty (ra_generation assignment)
                         +:+ " is below durable floor " +:+ pretty generation_floor));
  _ ← modify (λ st, st <| ps_reverse_mesh_assignments ::= <[target := assignment]> |>);
  _ ← modify (λ st, st <| ps_reverse_mesh_generation_counters ::=
        entry_update (ra_generation assignment) (λ generation, N.max generation (ra_generation assignment)) target |>);
  mret Applied.

Definition apply_delete_reverse_mesh_assignment (target_node_id : string) (expected_generation : option N) : M DesiredStateApplyResult :=
  st ← get;
  _ ← refuse (generation_mismatch (ps_reverse_mesh_assignments st !! target_node_id) expected_generation)
        (MigrationError "reverse mesh assignment deletion CAS failed");
  _ ← modify (λ st, st <| ps_reverse_mesh_assignments ::= delete target_node_id |>);
  mret Applied.

(** ** Dispatch *)

Definition apply (command : DesiredStateCommand) : M DesiredStateApplyResult :=
  match command with
  | BeginMembershipOperation operation node join_session => apply_begin_membership_operation operation node join_session
  | TransitionMembershipOperation operation => apply_transition_membership_operation operation
  | PruneMembershipOperations terminal_before => apply_prune_membership_operations terminal_before
  | UpsertNode node join_session => apply_upsert_node node join_session
  | DeleteNode node_id delete_endpoints expected_endpoint_ids join_session =>
      apply_delete_node node_id delete_endpoints expected_endpoint_ids join_session
  | UpsertEndpoint endpoint expected => apply_upsert_endpoint endpoint expected
  | SetReverseMeshEpoch epoch => apply_set_reverse_mesh_epoch epoch
  | UpsertReverseMeshAssignment assignment expected_generation => apply_upsert_reverse_mesh_assignment assignment expected_generation
  | DeleteReverseMeshAssignment target_node_id expected_generation =>
      apply_delete_reverse_mesh_assignment target_node_id expected_generation
  | DeleteEndpoint endpoint_id => apply_delete_endpoint endpoint_id
  | CreateRealityDomain domain => apply_create_reality_domain domain
  | PatchRealityDomain domain_id server_name disabled_node_ids => apply_patch_reality_domain domain_id server_name disabled_node_ids
  | DeleteRealityDomain domain_id => apply_delete_reality_domain domain_id
  | ReorderRealityDomains domain_ids => apply_reorder_reality_domains domain_ids
  | UpsertUser user => apply_upsert_user user
  | DeleteUser user_id => apply_delete_user user_id
  | ResetUserSubscriptionToken user_id subscription_token => apply_reset_user_subscription_token user_id subscription_token
  | SetUserNodeQuota user_id node_id quota_limit_bytes quota_reset_source =>
      apply_set_user_node_quota user_id node_id quota_limit_bytes quota_reset_source
  | SetUserNodeWeight user_id node_id weight => apply_set_user_node_weight user_id node_id weight
  | SetUserGlobalWeight user_id weight => apply_set_user_global_weight user_id weight
  | SetNodeWeightPolicy node_id inherit_global => apply_set_node_weight_policy node_id inherit_global
  | SetUserMihomoProfile user_id profile => apply_set_user_mihomo_profile user_id profile
  | SetMihomoDeliveryMode mode => _ ← modify (λ st, st <| ps_mihomo_delivery_mode := mode |>); mret Applied
  | SetMihomoResourceAllowPrivateTargets allow =>
      _ ← modify (λ st, st <| ps_mihomo_resource_allow_private_targets := allow |>); mret Applied
  | SetGeoDbUpdateSettings _ => mret Applied
  | ReplaceUserAccess user_id endpoint_ids => apply_replace_user_access user_id endpoint_ids
  | EnsureMembership user_id endpoint_id => apply_ensure_membership user_id endpoint_id
  | BumpUserCredentialEpoch user_id => apply_bump_user_credential_epoch user_id
  | CompatNoop note => apply_compat_noop note
  | AppendEndpointProbeSamples hour from_node_id samples => apply_append_endpoint_probe_samples hour from_node_id samples
  | ReplaceRepositoryMembership membership => _ ← apply_repository_membership membership; mret Applied
  | UpdateRepositoryMemberRuntime patch => apply_update_repository_member_runtime patch
  end.
End Arms.
