(* ===== verification/Apply.v ===== *)
(** * Applying a command

    A command either fails and leaves the state as it was, or takes one step of the relation
    [step] below, which lists for every command what must hold before and what the state is
    afterwards.  The invariants of the replicated state are proved on that relation
    ([Invariant]). *)

From S2P Require Import Prelude Text Search Domain Protocol Clock Lifecycle Repository ReverseMesh State Command.
Open Scope string_scope.
Open Scope list_scope.
Open Scope N_scope.

(** ** Running a command *)

Section Run.
Context {A B : Type}.
Implicit Types (k : A → M B) (st : PersistedState).

Lemma run_ret (a : A) k st : (mret a ≫= k) st = k a st.
Proof. done. Qed.
Lemma run_lift (r : result A StoreError) k st :
  (lift r ≫= k) st = match r with Ok a => k a st | Err e => (st, Err e) end.
Proof. by destruct r. Qed.
Lemma run_lift_domain (r : result A DomainError) k st :
  (lift_domain r ≫= k) st = match r with Ok a => k a st | Err e => (st, Err (StoreDomain e)) end.
Proof. by destruct r. Qed.
End Run.

Lemma run_get {B} (k : PersistedState → M B) st : (get ≫= k) st = k st st.
Proof. done. Qed.
Lemma run_modify {B} f (k : unit → M B) st : (modify f ≫= k) st = k tt (f st).
Proof. done. Qed.
Lemma run_refuse {B} b e (k : unit → M B) st : (refuse b e ≫= k) st = if b then (st, Err e) else k tt st.
Proof. by destruct b. Qed.
Lemma run_refuse_domain {B} b e (k : unit → M B) st :
  (refuse_domain b e ≫= k) st = if b then (st, Err (StoreDomain e)) else k tt st.
Proof. by destruct b. Qed.

Lemma run_assoc {A B C} (m : M A) (f : A → M B) (k : B → M C) st : ((m ≫= f) ≫= k) st = (m ≫= λ a, f a ≫= k) st.
Proof. unfold mbind, M_bind. by destruct (m st) as [? []]. Qed.

Lemma run_done {A} (a : A) st : mret (M := M) a st = (st, Ok a).
Proof. done. Qed.

Create HintDb run.
#[export] Hint Rewrite @run_done @run_assoc @run_ret @run_lift @run_lift_domain @run_get @run_modify @run_refuse @run_refuse_domain : run.

(** The state a session leaves. *)
Definition with_session (session : option JoinSession) (st : PersistedState) : PersistedState :=
  match session with
  | None => st
  | Some s => st <| ps_join_sessions ::= <[js_node_id s := s]> |>
  end.

Definition session_accepted (st : PersistedState) (session : option JoinSession) : Prop :=
  ∀ s current, session = Some s → ps_join_sessions st !! js_node_id s = Some current → session_step current s.

Lemma run_validate_session {B} session (k : unit → M B) st :
  (∃ e, (validate_session session ≫= k) st = (st, Err e)) ∨
  (session_accepted st session ∧ (validate_session session ≫= k) st = k tt st).
Proof.
  unfold validate_session, session_accepted. destruct session as [s|]; [|right; split; [intros ? ? [=]|done]].
  rewrite run_assoc, run_get. destruct (ps_join_sessions st !! js_node_id s) as [current|] eqn:Hc.
  - rewrite run_lift. destruct (JoinSession_validate_successor current s) as [[]|e] eqn:Hv; simpl; [right|by left; eexists].
    split; [|done]. intros ? ? [= <-] Hc'. by simplify_eq.
  - right. split; [|done]. intros ? ? [= <-] ?. congruence.
Qed.

Lemma run_commit_session {B} session (k : unit → M B) st : (commit_session session ≫= k) st = k tt (with_session session st).
Proof. by destruct session. Qed.

Lemma run_require_user {B} user_id (k : unit → M B) st :
  (require_user user_id ≫= k) st = if contains_key (ps_users st) user_id then k tt st else (st, Err (StoreDomain (MissingUser user_id))).
Proof. unfold require_user. rewrite run_assoc, run_get, run_refuse_domain. by destruct (contains_key _ _). Qed.

Lemma run_require_node {B} node_id (k : unit → M B) st :
  (require_node node_id ≫= k) st = if contains_key (ps_nodes st) node_id then k tt st else (st, Err (StoreDomain (MissingNode node_id))).
Proof. unfold require_node. rewrite run_assoc, run_get, run_refuse_domain. by destruct (contains_key _ _). Qed.

#[export] Hint Rewrite @run_commit_session @run_require_user @run_require_node : run.

(** ** Steps *)

Section Step.
Context `{MetaCodec} `{UrlParser} `{Rfc3339} `{EgressNotes}.

Definition node_accepted (node : Node) : Prop :=
  validate_node_quota_reset (n_quota_reset node) = Ok tt ∧ validate_node_quota_config node = Ok tt.

Definition with_node (node : Node) (session : option JoinSession) (st : PersistedState) : PersistedState :=
  sync_node_user_endpoint_memberships (with_session session (st <| ps_nodes ::= <[n_node_id node := node]> |>)).

Definition without_node (node_id : string) (session : option JoinSession) (st : PersistedState) : PersistedState :=
  sync_node_user_endpoint_memberships (delete_node_cleanup node_id (with_session session
    ((delete_endpoints_of (e_endpoint_id <$> endpoints_of st node_id) st) <| ps_nodes ::= delete node_id |>))).

Definition with_operation (operation : MembershipOperation) (st : PersistedState) : PersistedState :=
  st <| ps_membership_operations ::= <[op_operation_id operation := operation]> |>.

Definition with_domains (domains : list RealityDomain) (updates : gmap string json) (st : PersistedState) : PersistedState :=
  st <| ps_reality_domains := domains |> <| ps_endpoints ::= λ endpoints, apply_vless_meta_updates endpoints updates |>.

(** The lists of domains a domain command may leave. *)
Inductive domains_step (st : PersistedState) : DesiredStateCommand → list RealityDomain → Prop :=
| domains_create domain (server_name := trim (d_server_name domain)) :
    validate_reality_server_name server_name = Ok tt →
    name_taken (ps_reality_domains st) (λ _, false) server_name = false →
    (∀ n, n ∈ d_disabled_node_ids domain → is_Some (ps_nodes st !! n)) →
    domains_step st (CreateRealityDomain domain) (ps_reality_domains st ++ [domain <| d_server_name := server_name |>])
| domains_patch domain_id server_name disabled i d d1 d2 :
    position (λ d, bool_decide (d_domain_id d = domain_id)) (ps_reality_domains st) = Some i →
    ps_reality_domains st !! i = Some d →
    patch_server_name (ps_reality_domains st) d server_name = Ok d1 →
    patch_disabled st d1 disabled = Ok d2 →
    domains_step st (PatchRealityDomain domain_id server_name disabled) (<[i := d2]> (ps_reality_domains st))
| domains_delete domain_id :
    existsb (λ d, bool_decide (d_domain_id d = domain_id)) (ps_reality_domains st) = true →
    domains_step st (DeleteRealityDomain domain_id) (filter (λ d, d_domain_id d ≠ domain_id) (ps_reality_domains st))
| domains_reorder domain_ids domains :
    reorder_domains (ps_reality_domains st) domain_ids = Ok domains →
    domains_step st (ReorderRealityDomains domain_ids) domains.

Inductive step (st : PersistedState) : DesiredStateCommand → PersistedState → Prop :=
| step_upsert_node node session :
    session_accepted st session → node_accepted node →
    step st (UpsertNode node session) (with_node node session st)
| step_delete_unknown_node node_id delete_endpoints expected session :
    session_accepted st session → ps_nodes st !! node_id = None →
    step st (DeleteNode node_id delete_endpoints expected session) (with_session session st)
| step_delete_node node_id (delete_endpoints : bool) expected session :
    session_accepted st session → is_Some (ps_nodes st !! node_id) →
    (if delete_endpoints then (list_to_set (e_endpoint_id <$> endpoints_of st node_id) : gset string) = list_to_set expected
     else endpoints_of st node_id = []) →
    step st (DeleteNode node_id delete_endpoints expected session) (without_node node_id session st)
| step_begin operation node session st' :
    op_phase operation = Prepared → ps_membership_operations st !! op_operation_id operation = None →
    active_membership_operation st = None → validate_remove_node_endpoint_snapshot st operation = Ok tt →
    (is_Some node ↔ is_Some session) →
    match node with
    | Some node => session_accepted st session ∧ node_accepted node ∧ st' = with_node node session st
    | None => st' = st
    end →
    step st (BeginMembershipOperation operation node session) (with_operation operation st')
| step_transition operation current :
    ps_membership_operations st !! op_operation_id operation = Some current → operation_step current operation →
    step st (TransitionMembershipOperation operation) (with_operation operation st)
| step_prune terminal_before t :
    parse_rfc3339 terminal_before = Some t →
    step st (PruneMembershipOperations terminal_before)
      (st <| ps_membership_operations ::= filter (λ '(_, operation), operation_retained t operation = true) |>)
| step_upsert_endpoint endpoint expected meta :
    ensure_endpoint_mutation_is_allowed st (ps_endpoints st !! e_endpoint_id endpoint) (Some endpoint) = Ok tt →
    (∀ e, expected = Some e → ps_endpoints st !! e_endpoint_id endpoint = Some e) →
    e_port endpoint ≠ 0 →
    (if bool_decide (e_kind endpoint = VlessRealityVisionTcp) then upsert_vless_meta st endpoint else Ok (e_meta endpoint)) = Ok meta →
    step st (UpsertEndpoint endpoint expected)
      (sync_node_user_endpoint_memberships (st <| ps_endpoints ::= <[e_endpoint_id endpoint := endpoint <| e_meta := meta |>]> |>))
| step_delete_endpoint endpoint_id :
    ensure_endpoint_mutation_is_allowed st (ps_endpoints st !! endpoint_id) None = Ok tt →
    step st (DeleteEndpoint endpoint_id)
      (sync_node_user_endpoint_memberships
         (st <| ps_endpoints ::= delete endpoint_id |> <| ps_endpoint_probe_history ::= delete endpoint_id |>))
| step_domains command domains updates :
    domains_step st command domains →
    build_global_vless_meta_updates (ps_endpoints st) domains = Ok updates →
    step st command (with_domains domains updates st)
| step_upsert_user user :
    validate_user_quota_reset (u_quota_reset user) = Ok tt →
    step st (UpsertUser user) (st <| ps_users ::= <[u_user_id user := user]> |>)
| step_delete_user user_id :
    step st (DeleteUser user_id)
      (sync_node_user_endpoint_memberships
        ((bump_revision st) <| ps_users ::= delete user_id |> <| ps_user_node_quotas ::= delete user_id |>
           <| ps_user_node_weights ::= delete user_id |> <| ps_user_global_weights ::= delete user_id |>
           <| ps_user_mihomo_profiles ::= delete user_id |>))
| step_touch_user command user_id user user' :
    (∃ token, command = ResetUserSubscriptionToken user_id token ∧ user' = user <| u_subscription_token := token |>) ∨
    (command = BumpUserCredentialEpoch user_id ∧ user' = user <| u_credential_epoch ::= λ c, sat_add u32_max c 1 |>) →
    ps_users st !! user_id = Some user →
    step st command (st <| ps_users ::= <[user_id := user']> |>)
| step_set_quota user_id node_id limit source :
    is_Some (ps_users st !! user_id) → is_Some (ps_nodes st !! node_id) →
    step st (SetUserNodeQuota user_id node_id limit source)
      (st <| ps_user_node_quotas ::= entry_update ∅ <[node_id := mkUserNodeQuotaConfig (Some limit) source]> user_id |>)
| step_set_weight user_id node_id weight :
    is_Some (ps_users st !! user_id) → is_Some (ps_nodes st !! node_id) →
    step st (SetUserNodeWeight user_id node_id weight)
      (st <| ps_user_node_weights ::= entry_update ∅ <[node_id := mkUserNodeWeightConfig weight]> user_id |>
          <| ps_node_weight_policies ::= <[node_id := mkNodeWeightPolicyConfig false]> |>)
| step_set_global_weight user_id weight :
    is_Some (ps_users st !! user_id) →
    step st (SetUserGlobalWeight user_id weight) (st <| ps_user_global_weights ::= <[user_id := mkUserGlobalWeightConfig weight]> |>)
| step_set_policy node_id inherit :
    is_Some (ps_nodes st !! node_id) →
    step st (SetNodeWeightPolicy node_id inherit) (st <| ps_node_weight_policies ::= <[node_id := mkNodeWeightPolicyConfig inherit]> |>)
| step_set_profile user_id profile :
    is_Some (ps_users st !! user_id) →
    step st (SetUserMihomoProfile user_id profile) ((bump_revision st) <| ps_user_mihomo_profiles ::= <[user_id := profile]> |>)
| step_set_delivery mode :
    step st (SetMihomoDeliveryMode mode) (st <| ps_mihomo_delivery_mode := mode |>)
| step_set_private allow :
    step st (SetMihomoResourceAllowPrivateTargets allow) (st <| ps_mihomo_resource_allow_private_targets := allow |>)
| step_noop command :
    match command with
    | SetGeoDbUpdateSettings _ => True
    | ResetUserSubscriptionToken user_id _ => ps_users st !! user_id = None
    | CompatNoop note => ∀ n p, decode_node_egress_probe_compat_note note = Some (n, p) → ps_nodes st !! n = None
    | _ => False
    end →
    step st command st
| step_replace_access user_id endpoint_ids (desired := list_to_set endpoint_ids : gset string) :
    is_Some (ps_users st !! user_id) → (∀ e, e ∈ desired → is_Some (ps_endpoints st !! e)) →
    step st (ReplaceUserAccess user_id endpoint_ids)
      (sync_node_user_endpoint_memberships (infer_user_kinds user_id (replace_memberships user_id desired st)))
| step_ensure_membership user_id endpoint_id e :
    is_Some (ps_users st !! user_id) → ps_endpoints st !! endpoint_id = Some e →
    step st (EnsureMembership user_id endpoint_id)
      (sync_node_user_endpoint_memberships
        (st <| ps_node_user_endpoint_memberships ::= λ ms, {[mkMembership user_id (e_node_id e) (e_endpoint_id e)]} ∪ ms |>))
| step_egress_probe note node_id probe :
    decode_node_egress_probe_compat_note note = Some (node_id, probe) → is_Some (ps_nodes st !! node_id) →
    step st (CompatNoop note) (st <| ps_node_egress_probes ::= <[node_id := probe]> |>)
| step_append_samples hour from_node_id samples :
    step st (AppendEndpointProbeSamples hour from_node_id samples)
      (foldl (append_sample hour from_node_id)
         (st <| ps_endpoint_probe_participants_by_hour ::=
            λ m, prune_endpoint_probe_hour_map (entry_update ∅ (λ ids, {[from_node_id]} ∪ ids) hour m) |>) samples)
| step_replace_repository membership :
    Forall (λ m, is_Some (ps_nodes st !! rm_node_id m)) membership →
    step st (ReplaceRepositoryMembership membership) (st <| ps_repository_membership := Some membership |>)
| step_repository_runtime patch membership :
    apply_repository_member_runtime_update (ps_repository_membership st) patch = Ok membership →
    step st (UpdateRepositoryMemberRuntime patch) (st <| ps_repository_membership := membership |>)
| step_set_epoch epoch :
    ps_reverse_mesh_epoch st ≤ epoch →
    step st (SetReverseMeshEpoch epoch) (st <| ps_reverse_mesh_epoch := epoch |>)
| step_upsert_assignment a expected (target := ra_target_node_id a) (floor := default 0 (ps_reverse_mesh_generation_counters st !! target)) :
    assignment_is_valid a = true → 1 ≤ ra_generation a → assignment_nodes_ok st a = true →
    ra_credential_epoch a = ps_reverse_mesh_epoch st →
    floor < ra_generation a ∨
      (floor ≤ ra_generation a ∧ ra_generation <$> ps_reverse_mesh_assignments st !! target = Some (ra_generation a)) →
    step st (UpsertReverseMeshAssignment a expected)
      (st <| ps_reverse_mesh_assignments ::= <[target := a]> |>
          <| ps_reverse_mesh_generation_counters ::= entry_update (ra_generation a) (λ g, N.max g (ra_generation a)) target |>)
| step_delete_assignment target expected :
    step st (DeleteReverseMeshAssignment target expected) (st <| ps_reverse_mesh_assignments ::= delete target |>).

(** What applying a command may do. *)
Definition refines (st : PersistedState) (command : DesiredStateCommand) (outcome : PersistedState * result DesiredStateApplyResult StoreError) : Prop :=
  match outcome with
  | (st', Ok _) => step st command st'
  | (st', Err _) => st' = st
  end.

Lemma refines_ok st command st' r : step st command st' → refines st command (st', Ok r).
Proof. done. Qed.

(** Runs one check: a failing one ends the command with the state unchanged. *)
Ltac run_check :=
  match goal with
  | |- refines _ _ (if ?c then (_, Err _) else _) => destruct c eqn:?; [reflexivity|]
  | |- refines _ _ (if ?c then _ else (_, Err _)) => destruct c eqn:?; [|reflexivity]
  | |- refines _ _ (match ?r with Ok _ => _ | Err _ => _ end) => destruct r eqn:?; [|reflexivity]
  end.
Ltac run := autorewrite with run; repeat (run_check; autorewrite with run); try apply refines_ok.
Ltac props :=
  repeat match goal with
  | u : unit |- _ => destruct u
  | H : negb _ = false |- _ => apply negb_false_iff in H
  | H : negb _ = true |- _ => apply negb_true_iff in H
  | H : bool_decide _ = true |- _ => apply bool_decide_eq_true in H
  | H : bool_decide _ = false |- _ => apply bool_decide_eq_false in H
  | H : contains_key _ _ = true |- _ => apply contains_key_true in H
  | H : contains_key _ _ = false |- _ => apply contains_key_false in H
  | H : _ || _ = false |- _ => apply orb_false_iff in H as [? ?]
  | H : _ && _ = true |- _ => apply andb_true_iff in H as [? ?]
  | H : ok_or _ _ = Ok _ |- _ => apply ok_or_ok_inv in H
  | H : map_err _ ?r = Ok _ |- _ => destruct r eqn:?; [|discriminate H]; injection H as H; subst
  end.

Lemma run_upsert_node node session st :
  (∃ e, apply_upsert_node node session st = (st, Err e)) ∨
  (session_accepted st session ∧ node_accepted node ∧ apply_upsert_node node session st = (with_node node session st, Ok Applied)).
Proof.
  unfold apply_upsert_node. edestruct @run_validate_session as [[e ->]|[Hs ->]]; [by left; eexists|].
  autorewrite with run. unfold node_accepted.
  destruct (validate_node_quota_reset _) as [[]|]; [|by left; eexists].
  autorewrite with run. destruct (validate_node_quota_config _) as [[]|]; [|by left; eexists].
  autorewrite with run. by right.
Qed.

Lemma refines_upsert_node node session st : refines st (UpsertNode node session) (apply_upsert_node node session st).
Proof.
  destruct (run_upsert_node node session st) as [[e ->]|(Hs & Hn & ->)]; [done|]. by apply step_upsert_node.
Qed.

Lemma refines_delete_node node_id del expected session st :
  refines st (DeleteNode node_id del expected session) (apply_delete_node node_id del expected session st).
Proof.
  unfold apply_delete_node. edestruct @run_validate_session as [[e ->]|[Hs ->]]; [done|]. autorewrite with run.
  destruct (contains_key (ps_nodes st) node_id) eqn:Hn; cbn [negb]; autorewrite with run.
  - run. apply contains_key_true in Hn. apply step_delete_node; [done..|]. destruct del; props.
    + rewrite andb_true_l in *. by props.
    + by destruct (decide (endpoints_of st node_id = [])) as [?|Hne]; [|rewrite bool_decide_false in * by done].
  - apply refines_ok, step_delete_unknown_node; [done|]. by apply contains_key_false.
Qed.

Lemma refines_begin operation node session st :
  refines st (BeginMembershipOperation operation node session) (apply_begin_membership_operation operation node session st).
Proof.
  unfold apply_begin_membership_operation. run.
  match goal with H : negb (Bool.eqb _ _) = false |- _ => apply negb_false_iff, eqb_prop in H; rename H into Hpair end.
  assert (is_Some node ↔ is_Some session) as Hboth.
  { destruct node, session; simpl in Hpair; try done; split; by intros []. }
  props. apply eq_None_not_Some in Heqb2. unfold mbind, M_bind, begin_on_copy. destruct node as [node|].
  - destruct (run_upsert_node node session st) as [[e ->]|(Hs & Hn & ->)]; [done|]. by apply step_begin.
  - by apply (step_begin st operation None session st).
Qed.

Lemma refines_transition operation st :
  refines st (TransitionMembershipOperation operation) (apply_transition_membership_operation operation st).
Proof. unfold apply_transition_membership_operation. run. props. by eapply step_transition. Qed.

Lemma refines_prune terminal_before st :
  refines st (PruneMembershipOperations terminal_before) (apply_prune_membership_operations terminal_before st).
Proof. unfold apply_prune_membership_operations. run. props. by apply step_prune. Qed.

Lemma refines_upsert_endpoint endpoint expected st :
  refines st (UpsertEndpoint endpoint expected) (apply_upsert_endpoint endpoint expected st).
Proof.
  unfold apply_upsert_endpoint. run. props. apply step_upsert_endpoint; [done| |by apply validate_port_ok|done].
  intros e ->. by props.
Qed.

Lemma refines_delete_endpoint endpoint_id st : refines st (DeleteEndpoint endpoint_id) (apply_delete_endpoint endpoint_id st).
Proof. unfold apply_delete_endpoint. run. props. by apply step_delete_endpoint. Qed.

Lemma refines_commit command domains st : domains_step st command domains → refines st command (commit_domains domains st).
Proof. intros Hd. unfold commit_domains. run. by eapply step_domains. Qed.

Lemma check_nodes_exist_ok st ids : check_nodes_exist st ids = Ok tt → ∀ n, n ∈ ids → is_Some (ps_nodes st !! n).
Proof.
  unfold check_nodes_exist. rewrite try_each_ok, Forall_forall. intros Hall n Hn.
  specialize (Hall n (proj2 (elem_of_bs_items _ _) Hn)). destruct (contains_key _ n) eqn:Hc; [|done]. by apply contains_key_true.
Qed.

Lemma refines_create_domain domain st : refines st (CreateRealityDomain domain) (apply_create_reality_domain domain st).
Proof.
  unfold apply_create_reality_domain. run. props. apply refines_commit, domains_create; [done..|].
  intros n Hn. eapply check_nodes_exist_ok; [done|]. by destruct domain.
Qed.

Lemma refines_patch_domain domain_id server_name disabled st :
  refines st (PatchRealityDomain domain_id server_name disabled) (apply_patch_reality_domain domain_id server_name disabled st).
Proof. unfold apply_patch_reality_domain. run. props. apply refines_commit. by eapply domains_patch. Qed.

Lemma refines_delete_domain domain_id st : refines st (DeleteRealityDomain domain_id) (apply_delete_reality_domain domain_id st).
Proof. unfold apply_delete_reality_domain. run. props. apply refines_commit. by apply domains_delete. Qed.

Lemma refines_reorder_domains domain_ids st : refines st (ReorderRealityDomains domain_ids) (apply_reorder_reality_domains domain_ids st).
Proof. unfold apply_reorder_reality_domains. run. apply refines_commit. by apply domains_reorder. Qed.

Lemma refines_reset_token user_id token st :
  refines st (ResetUserSubscriptionToken user_id token) (apply_reset_user_subscription_token user_id token st).
Proof.
  unfold apply_reset_user_subscription_token. run. destruct (ps_users st !! user_id) as [user|] eqn:Hu; run.
  - eapply step_touch_user; [left; by exists token|done].
  - by apply step_noop.
Qed.

Lemma refines_bump_epoch user_id st : refines st (BumpUserCredentialEpoch user_id) (apply_bump_user_credential_epoch user_id st).
Proof.
  unfold apply_bump_user_credential_epoch. run. props. eapply step_touch_user; [right; split; [done|]|done]. by destruct a.
Qed.

Lemma refines_users command st :
  match command with
  | UpsertUser _ | DeleteUser _ | SetUserNodeQuota _ _ _ _ | SetUserNodeWeight _ _ _ | SetUserGlobalWeight _ _
  | SetNodeWeightPolicy _ _ | SetUserMihomoProfile _ _ => True
  | _ => False
  end → refines st command (apply command st).
Proof.
  destruct command; try done; intros _; cbn [apply].
  - unfold apply_upsert_user. run. props. by apply step_upsert_user.
  - unfold apply_delete_user. run. apply step_delete_user.
  - unfold apply_set_user_node_quota. run. props. by apply step_set_quota.
  - unfold apply_set_user_node_weight. run. props. by apply step_set_weight.
  - unfold apply_set_user_global_weight. run. props. by apply step_set_global_weight.
  - unfold apply_set_node_weight_policy. run. props. by apply step_set_policy.
  - unfold apply_set_user_mihomo_profile. run. props. by apply step_set_profile.
Qed.

Lemma refines_replace_access user_id endpoint_ids st :
  refines st (ReplaceUserAccess user_id endpoint_ids) (apply_replace_user_access user_id endpoint_ids st).
Proof.
  unfold apply_replace_user_access. run. props. apply step_replace_access; [done|].
  unfold check_endpoints_exist in *. rewrite try_each_ok, Forall_forall in *. intros e He.
  match goal with Hall : ∀ x, _ → _ = Ok tt |- _ => specialize (Hall e (proj2 (elem_of_bs_items _ _) He)) end.
  destruct (contains_key _ e) eqn:Hc; [|done]. by apply contains_key_true.
Qed.

Lemma refines_ensure_membership user_id endpoint_id st :
  refines st (EnsureMembership user_id endpoint_id) (apply_ensure_membership user_id endpoint_id st).
Proof. unfold apply_ensure_membership. run. props. by apply step_ensure_membership. Qed.

Lemma refines_compat_noop note st : refines st (CompatNoop note) (apply_compat_noop note st).
Proof.
  unfold apply_compat_noop. run. destruct (decode_node_egress_probe_compat_note note) as [[node_id probe]|] eqn:Hd.
  - destruct (contains_key (ps_nodes st) node_id) eqn:Hn; cbn [negb]; run; props.
    + by apply step_egress_probe.
    + apply step_noop. intros n p Hd'. by simplify_eq.
  - run. apply step_noop. intros n p Hd'. by simplify_eq.
Qed.

Lemma refines_replace_repository membership st :
  refines st (ReplaceRepositoryMembership membership) (apply (ReplaceRepositoryMembership membership) st).
Proof.
  cbn [apply]. unfold apply_repository_membership. run. destruct (List.find _ _) as [n|] eqn:Hf; [done|]. run.
  apply step_replace_repository, Forall_forall. intros m Hm.
  pose proof (find_none _ _ Hf (rm_node_id m)) as Hn. apply contains_key_true, negb_false_iff, Hn.
  apply list_elem_of_In. by apply list_elem_of_fmap_2.
Qed.

Lemma refines_upsert_assignment a expected st :
  refines st (UpsertReverseMeshAssignment a expected) (apply_upsert_reverse_mesh_assignment a expected st).
Proof.
  unfold apply_upsert_reverse_mesh_assignment. run. props. rewrite N.eqb_neq, N.eqb_eq, N.ltb_ge in *.
  apply step_upsert_assignment; [done|lia|done|done|].
  destruct (ps_reverse_mesh_assignments st !! ra_target_node_id a) as [c|]; simpl in *.
  - destruct (N.eqb_spec (ra_generation c) (ra_generation a)) as [->|]; [by right|].
    left. simpl in *. by rewrite N.leb_gt in *.
  - left. by rewrite N.leb_gt in *.
Qed.

(** A command that fails leaves the state untouched; one that succeeds takes a step. *)
Lemma apply_refines command st : refines st command (apply command st).
Proof.
  destruct command; try (by apply refines_users); cbn [apply].
  - apply refines_upsert_node.
  - apply refines_delete_node.
  - apply refines_begin.
  - apply refines_transition.
  - apply refines_prune.
  - apply refines_upsert_endpoint.
  - apply refines_delete_endpoint.
  - apply refines_create_domain.
  - apply refines_patch_domain.
  - apply refines_delete_domain.
  - apply refines_reorder_domains.
  - apply refines_reset_token.
  - apply step_set_delivery.
  - apply step_set_private.
  - by apply step_noop.
  - apply refines_replace_access.
  - apply refines_ensure_membership.
  - apply refines_bump_epoch.
  - apply refines_compat_noop.
  - apply step_append_samples.
  - apply refines_replace_repository.
  - unfold apply_update_repository_member_runtime. run. props. by apply step_repository_runtime.
  - unfold apply_set_reverse_mesh_epoch. run. apply step_set_epoch. by rewrite N.ltb_ge in *.
  - apply refines_upsert_assignment.
  - unfold apply_delete_reverse_mesh_assignment. run. apply step_delete_assignment.
Qed.
End Step.
