(* ===== verification/Invariant.v ===== *)
(** * Invariants of the replicated state

    What holds in every state that a sequence of commands can produce from the empty
    state: maps are keyed by the ids of their values, entities are valid, the membership
    index is in step with users and endpoints, nothing refers to a user, node or endpoint
    that is gone, at most one membership operation is active, and the reverse mesh
    assignments are valid and below their generation counters. *)

From S2P Require Import Prelude Text Search Domain Protocol Clock Lifecycle Repository ReverseMesh State Command Apply.
Open Scope string_scope.
Open Scope list_scope.
Open Scope N_scope.

(** ** The parts of the invariant *)

Record entities_ok (st : PersistedState) : Prop := {
  eo_nodes : ∀ k n, ps_nodes st !! k = Some n → node_accepted n;
  eo_users : ∀ k u, ps_users st !! k = Some u → validate_user_quota_reset (u_quota_reset u) = Ok tt;
  eo_ports : ∀ k e, ps_endpoints st !! k = Some e → e_port e ≠ 0;
}.

(** Nothing dangles. *)
Record references_ok (st : PersistedState) : Prop := {
  ro_quotas : ∀ u inner n, ps_user_node_quotas st !! u = Some inner → is_Some (inner !! n) →
              is_Some (ps_users st !! u) ∧ is_Some (ps_nodes st !! n);
  ro_weights : ∀ u inner n, ps_user_node_weights st !! u = Some inner → is_Some (inner !! n) →
               is_Some (ps_users st !! u) ∧ is_Some (ps_nodes st !! n);
  ro_global_weights : ∀ u, is_Some (ps_user_global_weights st !! u) → is_Some (ps_users st !! u);
  ro_policies : ∀ n, is_Some (ps_node_weight_policies st !! n) → is_Some (ps_nodes st !! n);
  ro_profiles : ∀ u, is_Some (ps_user_mihomo_profiles st !! u) → is_Some (ps_users st !! u);
  ro_egress : ∀ n, is_Some (ps_node_egress_probes st !! n) → is_Some (ps_nodes st !! n);
  ro_disabled : ∀ d n, d ∈ ps_reality_domains st → n ∈ d_disabled_node_ids d → is_Some (ps_nodes st !! n);
  ro_history : ∀ e, is_Some (ps_endpoint_probe_history st !! e) → is_Some (ps_endpoints st !! e);
}.

Record operations_ok (operations : gmap string MembershipOperation) : Prop := {
  oo_keyed : ∀ k op, operations !! k = Some op → op_operation_id op = k;
  oo_single : ∀ k k' op op', operations !! k = Some op → operations !! k' = Some op' →
              is_active op = true → is_active op' = true → k = k';
}.

Record assignment_ok (nodes : gmap string Node) (counters : gmap string N) (epoch : N) (target : string) (a : ReverseMeshAssignment)
    : Prop := {
  ao_target : ra_target_node_id a = target;
  ao_valid : assignment_is_valid a = true;
  ao_nodes : is_Some (nodes !! target) ∧ ∀ r, r ∈ rendezvous_ids a → is_Some (nodes !! r);
  ao_generation : 1 ≤ ra_generation a ∧ counters !! target = Some (ra_generation a);
  ao_epoch : ra_credential_epoch a ≤ epoch;
}.

Definition mesh_ok (st : PersistedState) : Prop :=
  ∀ t a, ps_reverse_mesh_assignments st !! t = Some a →
         assignment_ok (ps_nodes st) (ps_reverse_mesh_generation_counters st) (ps_reverse_mesh_epoch st) t a.

Definition sessions_ok (st : PersistedState) : Prop := ∀ k s, ps_join_sessions st !! k = Some s → js_node_id s = k.

Definition repository_ok (st : PersistedState) : Prop := ∀ ms, ps_repository_membership st = Some ms → membership_valid ms.

Record state_inv (st : PersistedState) : Prop := {
  si_keyed : keyed_state st;
  si_entities : entities_ok st;
  si_index : index_in_step st;
  si_references : references_ok st;
  si_operations : operations_ok (ps_membership_operations st);
  si_sessions : sessions_ok st;
  si_mesh : mesh_ok st;
  si_repository : repository_ok st;
}.

(** A repository membership is a value of a type whose constructor validates it. *)
Definition command_ok (command : DesiredStateCommand) : Prop :=
  match command with
  | ReplaceRepositoryMembership membership => membership_valid membership
  | _ => True
  end.

(** ** Composite updates *)

Definition delete_all {V} (ids : list string) (m : gmap string V) : gmap string V := foldl (λ m id, delete id m) m ids.

Lemma lookup_delete_all {V} ids (m : gmap string V) k :
  delete_all ids m !! k = if decide (k ∈ ids) then None else m !! k.
Proof.
  unfold delete_all. revert m. induction ids as [|id ids IH]; intros m; cbn [foldl].
  { by rewrite decide_False by apply not_elem_of_nil. }
  rewrite IH. destruct (decide (k = id)) as [->|Hne].
  - rewrite (decide_True (P := id ∈ id :: ids)) by left. case_decide; [done|]. apply lookup_delete_eq.
  - rewrite lookup_delete_ne by done. apply decide_ext. rewrite elem_of_cons. tauto.
Qed.

Lemma delete_endpoints_of_eq ids st :
  delete_endpoints_of ids st = st <| ps_endpoints ::= delete_all ids |> <| ps_endpoint_probe_history ::= delete_all ids |>.
Proof.
  unfold delete_endpoints_of, delete_all. revert st. induction ids as [|id ids IH]; intros st; simpl; [by destruct st|].
  rewrite IH. by destruct st.
Qed.

(** Appending samples touches only the history of known endpoints. *)
Lemma append_samples_eq hour from samples st :
  ∃ history, foldl (append_sample hour from) st samples = st <| ps_endpoint_probe_history := history |> ∧
             ∀ e, is_Some (history !! e) → is_Some (ps_endpoint_probe_history st !! e) ∨ is_Some (ps_endpoints st !! e).
Proof.
  revert st. induction samples as [|s samples IH]; intros st; cbn [foldl].
  { exists (ps_endpoint_probe_history st). split; [by destruct st|by left]. }
  unfold append_sample at 2. destruct (contains_key _ _) eqn:Hc; cbn [negb]; [|apply IH].
  apply contains_key_true in Hc. set (st1 := st <| ps_endpoint_probe_history ::= _ |>).
  destruct (IH st1) as (h & -> & Hh). exists h. split; [by destruct st|]. intros e He. apply Hh in He as [He|He]; [|by right].
  unfold st1, entry_update in He. cbn in He. rewrite lookup_insert_is_Some in He.
  destruct He as [<-|[_ ?]]; [by right|by left].
Qed.

Ltac appended :=
  match goal with
  | |- context [foldl (append_sample ?h ?f) ?s ?l] => destruct (append_samples_eq h f l s) as (history & -> & Hhistory)
  end.

Lemma meta_updates_lookup endpoints updates k e :
  apply_vless_meta_updates endpoints updates !! k = Some e →
  ∃ e0, endpoints !! k = Some e0 ∧ e = match updates !! k with Some m => e0 <| e_meta := m |> | None => e0 end.
Proof.
  unfold apply_vless_meta_updates. rewrite map_lookup_imap. destruct (endpoints !! k) as [e0|]; simpl; [|done].
  intros [= <-]. eauto.
Qed.

Lemma meta_updates_is_Some endpoints updates k :
  is_Some (apply_vless_meta_updates endpoints updates !! k) ↔ is_Some (endpoints !! k).
Proof. unfold apply_vless_meta_updates. rewrite map_lookup_imap. by destruct (endpoints !! k). Qed.

Lemma endpoint_meta_frame (e : Endpoint) m (e' := e <| e_meta := m |>) :
  e_endpoint_id e' = e_endpoint_id e ∧ e_node_id e' = e_node_id e ∧ e_tag e' = e_tag e ∧ e_kind e' = e_kind e ∧ e_port e' = e_port e.
Proof. by destruct e. Qed.

Section Preserved.
Context `{MetaCodec} `{UrlParser} `{Rfc3339} `{EgressNotes}.
Implicit Types (st : PersistedState) (command : DesiredStateCommand).

(** ** Keys and entities *)

Lemma keyed_frame st st' :
  ps_users st' = ps_users st → ps_nodes st' = ps_nodes st → ps_endpoints st' = ps_endpoints st → keyed_state st → keyed_state st'.
Proof. intros Hu Hn He [H1' H2' H3']. split; by rewrite ?Hu, ?Hn, ?He. Qed.

Lemma keyed_with_session session st : keyed_state st → keyed_state (with_session session st).
Proof. by destruct session; [apply keyed_frame|]. Qed.

Lemma keyed_with_node node session st : keyed_state st → keyed_state (with_node node session st).
Proof.
  intros [Hu Hn He]. apply keyed_state_sync, keyed_with_session. split; [done| |done].
  intros k n. cbn. rewrite lookup_insert_Some. intros [[<- <-]|[_ ?]]; [done|by apply Hn].
Qed.

Lemma keyed_cleaned node_id session st ids :
  keyed_state st →
  keyed_state (delete_node_cleanup node_id (with_session session ((delete_endpoints_of ids st) <| ps_nodes ::= delete node_id |>))).
Proof.
  intros [Hu Hn He]. rewrite delete_endpoints_of_eq.
  assert (keyed_state (with_session session
    (st <| ps_endpoints ::= delete_all ids |> <| ps_endpoint_probe_history ::= delete_all ids |> <| ps_nodes ::= delete node_id |>))) as Hk.
  { apply keyed_with_session. split; [done| |].
    - intros k n. cbn. rewrite lookup_delete_Some. intros [_ ?]. by apply Hn.
    - intros k e. cbn. rewrite lookup_delete_all. case_decide; [done|]. apply He. }
  by eapply keyed_frame; [..|exact Hk].
Qed.

Lemma keyed_pre_access user_id desired st :
  keyed_state st → keyed_state (infer_user_kinds user_id (replace_memberships user_id desired st)).
Proof. intros Hk. unfold infer_user_kinds. case_bool_decide; by apply (keyed_frame st). Qed.

Lemma keyed_step st command st' : keyed_state st → step st command st' → keyed_state st'.
Proof.
  intros Hk Hstep. pose proof Hk as [Hu Hn He]. destruct Hstep; try (by apply (keyed_frame st)).
  - by apply keyed_with_node.
  - by apply keyed_with_session.
  - by apply keyed_state_sync, keyed_cleaned.
  - destruct node as [node|]; destruct_and?; subst; [|by apply (keyed_frame st)].
    by apply (keyed_frame (with_node node session st)), keyed_with_node.
  - apply keyed_state_sync. split; [done..|]. intros k e. cbn. rewrite lookup_insert_Some. intros [[<- <-]|[_ ?]]; [|by apply He].
    by destruct endpoint.
  - apply keyed_state_sync. split; [done..|]. intros k e. cbn. rewrite lookup_delete_Some. intros [_ ?]. by apply He.
  - split; [done..|]. intros k e (e0 & He0%He & ->)%meta_updates_lookup. case_match; [|done]. by destruct e0.
  - split; [|done..]. intros k u. cbn. rewrite lookup_insert_Some. intros [[<- <-]|[_ ?]]; [done|by apply Hu].
  - apply keyed_state_sync. split; [|done..]. intros k u. cbn. rewrite lookup_delete_Some. intros [_ ?]. by apply Hu.
  - split; [|done..]. intros k u. cbn. rewrite lookup_insert_Some. intros [[<- <-]|[_ ?]]; [|by apply Hu].
    match goal with H : ps_users st !! _ = Some _ |- _ => apply Hu in H as <- end.
    match goal with H : _ ∨ _ |- _ => destruct H as [(? & _ & ->)|[_ ->]] end; by destruct user.
  - by apply keyed_state_sync, keyed_pre_access.
  - appended.
    by apply (keyed_frame st).
Qed.

Lemma entities_frame st st' :
  ps_users st' = ps_users st → ps_nodes st' = ps_nodes st → ps_endpoints st' = ps_endpoints st → entities_ok st → entities_ok st'.
Proof. intros Hu Hn He [? ? ?]. split; by rewrite ?Hu, ?Hn, ?He. Qed.

Lemma entities_with_node node session st : node_accepted node → entities_ok st → entities_ok (with_node node session st).
Proof.
  intros Hok [Hn Hu He].
  split; [|by destruct session..]. intros k n Hk.
  assert (<[n_node_id node := node]> (ps_nodes st) !! k = Some n) as Hk' by (by destruct session).
  apply lookup_insert_Some in Hk' as [[_ <-]|[_ ?]]; [done|by eapply Hn].
Qed.

Lemma entities_step st command st' : entities_ok st → step st command st' → entities_ok st'.
Proof.
  intros Hk Hstep. pose proof Hk as [Hn Hu He]. destruct Hstep; try (by apply (entities_frame st)).
  - by apply entities_with_node.
  - by destruct session; [apply (entities_frame st)|].
  - unfold without_node. rewrite delete_endpoints_of_eq. split; [|by destruct session|].
    + intros k n Hk'. assert (delete node_id (ps_nodes st) !! k = Some n) as Hd by (by destruct session).
      apply lookup_delete_Some in Hd as [_ ?]. by eapply Hn.
    + intros k e Hk'. assert (delete_all (e_endpoint_id <$> endpoints_of st node_id) (ps_endpoints st) !! k = Some e) as Hd
        by (by destruct session). rewrite lookup_delete_all in Hd. case_decide; [done|]. by eapply He.
  - destruct node as [node|]; destruct_and?; subst; [|by apply (entities_frame st)].
    by apply (entities_frame (with_node node session st)), entities_with_node.
  - split; [done..|]. intros k e. cbn. rewrite lookup_insert_Some. intros [[_ <-]|[_ ?]]; [|by eapply He]. by destruct endpoint.
  - split; [done..|]. intros k e. cbn. rewrite lookup_delete_Some. intros [_ ?]. by eapply He.
  - split; [done..|]. intros k e (e0 & He0%He & ->)%meta_updates_lookup. case_match; [|done]. by destruct e0.
  - split; [done| |done]. intros k u. cbn. rewrite lookup_insert_Some. intros [[_ <-]|[_ ?]]; [done|by eapply Hu].
  - split; [done| |done]. intros k u. cbn. rewrite lookup_delete_Some. intros [_ ?]. by eapply Hu.
  - split; [done| |done]. intros k u. cbn. rewrite lookup_insert_Some. intros [[_ <-]|[_ ?]]; [|by eapply Hu].
    match goal with H : ps_users st !! _ = Some _ |- _ => apply Hu in H end.
    match goal with H : _ ∨ _ |- _ => destruct H as [(? & _ & ->)|[_ ->]] end; by destruct user.
  - unfold infer_user_kinds. case_bool_decide; by apply (entities_frame st).
  - appended.
    by apply (entities_frame st).
Qed.

(** ** The membership index *)

(** Growing or rewriting users and endpoints without moving them keeps the index in step. *)
Lemma index_frame st st' :
  (∀ u, is_Some (ps_users st !! u) → is_Some (ps_users st' !! u)) →
  (∀ k, ps_endpoints st' !! k = None ↔ ps_endpoints st !! k = None) →
  (∀ k e e', ps_endpoints st !! k = Some e → ps_endpoints st' !! k = Some e' → e_node_id e' = e_node_id e ∧ e_kind e' = e_kind e) →
  ps_node_user_endpoint_memberships st' = ps_node_user_endpoint_memberships st →
  ps_user_auto_assign_endpoint_kinds st' = ps_user_auto_assign_endpoint_kinds st →
  index_in_step st → index_in_step st'.
Proof.
  intros Hu Hdom He Hm Ha [Hs Hc Hauto]. split.
  - intros m Hin. rewrite Hm in Hin. apply Hs in Hin as [Hus (e & Hke & Hn)]. split; [by apply Hu|].
    destruct (ps_endpoints st' !! m_endpoint_id m) as [e'|] eqn:Hke'; [|apply Hdom in Hke'; congruence].
    destruct (He _ _ _ Hke Hke') as [Hnode _]. exists e'. split; [done|congruence].
  - intros u kinds k e'. rewrite Ha, Hm. intros Hk Hke' Hkind.
    destruct (ps_endpoints st !! k) as [e|] eqn:Hke; [|apply Hdom in Hke; congruence].
    destruct (He _ _ _ Hke Hke') as [Hnode Hkd]. rewrite Hnode. eapply Hc; [done..|]. by rewrite <-Hkd.
  - intros u kinds. rewrite Ha. intros Hk. destruct (Hauto _ _ Hk). split; [by apply Hu|done].
Qed.

Lemma index_same st st' :
  ps_users st' = ps_users st → ps_endpoints st' = ps_endpoints st →
  ps_node_user_endpoint_memberships st' = ps_node_user_endpoint_memberships st →
  ps_user_auto_assign_endpoint_kinds st' = ps_user_auto_assign_endpoint_kinds st →
  index_in_step st → index_in_step st'.
Proof. intros Hu He Hm Ha. apply index_frame; try done; rewrite ?Hu, ?He; [done..|]. intros k e e' ? ?. by simplify_eq. Qed.

Lemma index_synced st : keyed_state (sync_node_user_endpoint_memberships st) → index_in_step (sync_node_user_endpoint_memberships st).
Proof. intros Hk. apply sync_in_step. by eapply keyed_frame; [..|exact Hk]. Qed.

Lemma index_step st command st' : keyed_state st → index_in_step st → step st command st' → index_in_step st'.
Proof.
  intros Hk Hi Hstep. pose proof (keyed_step _ _ _ Hk Hstep) as Hk'.
  destruct Hstep; try (by apply (index_same st)); try (by apply index_synced).
  - by destruct session; [apply (index_same st)|].
  - destruct node as [node|]; destruct_and?; subst; [|by apply (index_same st)].
    apply (index_same (with_node node session st)); [done..|]. by apply index_synced, keyed_with_node.
  - apply (index_frame st); [done| | |done..|done].
    + intros k. rewrite !eq_None_not_Some. cbn. by rewrite meta_updates_is_Some.
    + intros k e e' Hke (e0 & He0 & ->)%meta_updates_lookup. change (ps_endpoints st !! k = Some e0) in He0.
      rewrite Hke in He0. injection He0 as <-.
      destruct (updates !! k); [|done]. by destruct e.
  - apply (index_frame st); [|done| |done..|done].
    + intros u Hus. cbn. apply lookup_insert_is_Some. destruct (decide (u_user_id user = u)); [by left|by right].
    + intros k e e' ? ?. by simplify_eq/=.
  - apply (index_frame st); [|done| |done..|done].
    + intros u Hus. cbn. apply lookup_insert_is_Some. destruct (decide (user_id = u)); [by left|by right].
    + intros k e e' ? ?. by simplify_eq/=.
  - appended.
    by apply (index_same st).
Qed.

(** ** Operations, sessions, repository *)

Lemma sessions_with_session session st : sessions_ok st → sessions_ok (with_session session st).
Proof.
  intros Hs. destruct session as [s|]; [|done]. intros k s'. cbn. rewrite lookup_insert_Some. intros [[<- <-]|[_ ?]]; [done|by apply Hs].
Qed.

Lemma sessions_step st command st' : sessions_ok st → step st command st' → sessions_ok st'.
Proof.
  intros Hs Hstep. destruct Hstep; try exact Hs; try by apply sessions_with_session.
  - apply (sessions_with_session session st) in Hs. intros k s Hk. apply Hs. unfold without_node in Hk.
    rewrite delete_endpoints_of_eq in Hk. by destruct session.
  - destruct node as [node|]; destruct_and?; subst; [|done].
    apply (sessions_with_session session st) in Hs. intros k s Hk. apply Hs. by destruct session.
  - unfold infer_user_kinds. by case_bool_decide.
  - appended. done.
Qed.

Lemma repository_step st command st' : repository_ok st → command_ok command → step st command st' → repository_ok st'.
Proof.
  intros Hr Hc Hstep. destruct Hstep; try exact Hr; try (by destruct session).
  - unfold without_node. rewrite delete_endpoints_of_eq. by destruct session.
  - destruct node as [node|]; destruct_and?; subst; [|done]. by destruct session.
  - unfold infer_user_kinds. by case_bool_decide.
  - appended. done.
  - intros ms. cbn. by intros [= <-].
  - intros ms. cbn. intros ->. unfold repository_ok in Hr.
    destruct (ps_repository_membership st) as [ms0|].
    + eapply runtime_update_valid; [by apply Hr|done|done].
    + unfold apply_repository_member_runtime_update in *. by destruct (RepositoryNodeId_try_from _).
Qed.

Lemma no_active_operation st k op :
  active_membership_operation st = None → ps_membership_operations st !! k = Some op → is_active op = false.
Proof.
  unfold active_membership_operation. intros Hf Hk. apply (find_none _ _ Hf), list_elem_of_In, elem_of_bt_values. eauto.
Qed.

Lemma operations_insert_begin st operation :
  operations_ok (ps_membership_operations st) → active_membership_operation st = None →
  operations_ok (<[op_operation_id operation := operation]> (ps_membership_operations st)).
Proof.
  intros [Hkey Hone] Hnone. split.
  - intros k op [[<- <-]|[_ ?]]%lookup_insert_Some; [done|by apply Hkey].
  - intros k k' op op' Hop Hop' Ha Ha'. rewrite lookup_insert_Some in Hop, Hop'.
    pose proof (λ k op, no_active_operation st k op Hnone) as Hidle.
    destruct Hop as [[<- <-]|[_ Hop]], Hop' as [[<- <-]|[_ Hop']]; [done|..].
    + apply Hidle in Hop'. congruence.
    + apply Hidle in Hop. congruence.
    + apply Hidle in Hop. congruence.
Qed.

Lemma operations_insert_transition st operation current :
  operations_ok (ps_membership_operations st) →
  ps_membership_operations st !! op_operation_id operation = Some current → operation_step current operation →
  operations_ok (<[op_operation_id operation := operation]> (ps_membership_operations st)).
Proof.
  intros [Hkey Hone] Hcur (_ & Hphase & _)%operation_step_inv. apply operation_phase_forward in Hphase as [Hfinal _].
  assert (is_active operation = true → is_active current = true) as Hact.
  { unfold is_active. destruct (is_terminal (op_phase current)) eqn:Ht; [|done]. rewrite (Hfinal eq_refl), Ht. done. }
  split.
  - intros k op [[<- <-]|[_ ?]]%lookup_insert_Some; [done|by apply Hkey].
  - intros k k' op op' Hop Hop' Ha Ha'. rewrite lookup_insert_Some in Hop, Hop'.
    destruct Hop as [[<- <-]|[Hne Hop]], Hop' as [[<- <-]|[Hne' Hop']]; [done|eapply Hone; eauto..].
Qed.

Lemma operations_step st command st' :
  operations_ok (ps_membership_operations st) → step st command st' → operations_ok (ps_membership_operations st').
Proof.
  intros Ho Hstep. destruct Hstep; try exact Ho; try (by destruct session).
  - unfold without_node. rewrite delete_endpoints_of_eq. by destruct session.
  - assert (ps_membership_operations st' = ps_membership_operations st) as Hops
      by (destruct node; destruct_and?; subst; [by destruct session|done]).
    cbn. rewrite Hops. by apply operations_insert_begin.
  - by eapply operations_insert_transition.
  - destruct Ho as [Hkey Hone]. split.
    + intros k op [Hop _]%map_lookup_filter_Some. by apply Hkey.
    + intros k k' op op' [Hop _]%map_lookup_filter_Some [Hop' _]%map_lookup_filter_Some. by apply Hone.
  - unfold infer_user_kinds. by case_bool_decide.
  - by appended.
Qed.

(** ** The reverse mesh *)

Lemma assignment_mono nodes nodes' counters counters' epoch epoch' t a :
  (∀ n, is_Some (nodes !! n) → is_Some (nodes' !! n)) → counters' !! t = counters !! t → epoch ≤ epoch' →
  assignment_ok nodes counters epoch t a → assignment_ok nodes' counters' epoch' t a.
Proof. intros Hn Hc He [Ht Hv [Hn1 Hn2] Hg Hep]. split; [done|done|split; auto|by rewrite Hc|lia]. Qed.

Lemma contains_rendezvous_elem a n : contains_rendezvous a n = true ↔ n ∈ rendezvous_ids a.
Proof.
  unfold contains_rendezvous. rewrite existsb_exists. split.
  - intros (x & Hx & ->%bool_decide_eq_true). by apply list_elem_of_In.
  - intros Hn. exists n. by rewrite <-list_elem_of_In, bool_decide_true.
Qed.

Lemma assignment_nodes_ok_spec st a :
  assignment_nodes_ok st a = true →
  is_Some (ps_nodes st !! ra_target_node_id a) ∧ ∀ r, r ∈ rendezvous_ids a → is_Some (ps_nodes st !! r).
Proof.
  unfold assignment_nodes_ok, rendezvous_ids. rewrite !andb_true_iff, !contains_key_true. intros (((Ht & Hp) & _) & Hs).
  split; [done|]. intros r [->|Hr]%elem_of_cons; [done|]. destruct (ra_standby_node_id a) as [s|]; simpl in Hr.
  - apply list_elem_of_singleton in Hr as ->. rewrite !andb_true_iff, contains_key_true in Hs. tauto.
  - by apply not_elem_of_nil in Hr.
Qed.

Lemma with_node_nodes node session st n : is_Some (ps_nodes st !! n) → is_Some (ps_nodes (with_node node session st) !! n).
Proof.
  intros Hn. assert (ps_nodes (with_node node session st) = <[n_node_id node := node]> (ps_nodes st)) as -> by (by destruct session).
  apply lookup_insert_is_Some. destruct (decide (n_node_id node = n)); [by left|by right].
Qed.

Lemma mesh_without_node node_id session st : mesh_ok st → mesh_ok (without_node node_id session st).
Proof.
  intros Hm t a Ha. unfold without_node in *. rewrite delete_endpoints_of_eq in *.
  match type of Ha with ps_reverse_mesh_assignments ?s !! _ = _ =>
    assert (ps_reverse_mesh_assignments s = filter (λ '(target_id, assignment), target_id ≠ node_id ∧
      ra_target_node_id assignment ≠ node_id ∧ contains_rendezvous assignment node_id = false) (ps_reverse_mesh_assignments st)) as Heq
      by (by destruct session); rewrite Heq in Ha end.
  apply map_lookup_filter_Some in Ha as [Ha (Ht & _ & Hr)]. destruct (Hm _ _ Ha) as [? ? [Hn1 Hn2] ? ?].
  match goal with |- assignment_ok (ps_nodes ?s) _ _ _ _ => assert (ps_nodes s = delete node_id (ps_nodes st)) as Hd by (by destruct session) end.
  split; [done|done| |by destruct session..].
  rewrite Hd. split; [by rewrite lookup_delete_ne|]. intros r Hin. rewrite lookup_delete_ne; [auto|]. intros <-.
  apply contains_rendezvous_elem in Hin. congruence.
Qed.

Lemma mesh_step st command st' : mesh_ok st → step st command st' → mesh_ok st'.
Proof.
  intros Hm Hstep. destruct Hstep; try exact Hm.
  - intros t a Ha. eapply assignment_mono; [by apply with_node_nodes|..|apply Hm]; by destruct session.
  - by destruct session.
  - by apply mesh_without_node.
  - destruct node as [node|]; destruct_and?; subst; [|done].
    intros t a Ha. eapply assignment_mono; [by apply (with_node_nodes node session st)|..|apply Hm]; by destruct session.
  - unfold infer_user_kinds. by case_bool_decide.
  - by appended.
  - intros t a Ha. eapply assignment_mono; [done..| |by apply Hm]. done.
  - intros t a' Ha'. cbn in Ha'. apply lookup_insert_Some in Ha' as [[<- <-]|[Hne Ha']].
    + split; [done|done|by apply assignment_nodes_ok_spec| |cbn; lia].
      cbn. unfold entry_update. rewrite lookup_insert_eq. split; [done|]. f_equal.
      unfold floor in *. destruct (_ !! target) in *; cbn in *; lia.
    + eapply assignment_mono; [done| |done|by apply Hm]. cbn. unfold entry_update. by rewrite lookup_insert_ne.
  - intros t a Ha. cbn in Ha. apply lookup_delete_Some in Ha as [_ Ha]. by apply Hm.
Qed.

(** ** References *)

Lemma references_frame st st' :
  (∀ u, is_Some (ps_users st !! u) → is_Some (ps_users st' !! u)) →
  (∀ n, is_Some (ps_nodes st !! n) → is_Some (ps_nodes st' !! n)) →
  (∀ e, is_Some (ps_endpoints st !! e) → is_Some (ps_endpoints st' !! e)) →
  ps_user_node_quotas st' = ps_user_node_quotas st → ps_user_node_weights st' = ps_user_node_weights st →
  ps_user_global_weights st' = ps_user_global_weights st → ps_node_weight_policies st' = ps_node_weight_policies st →
  ps_user_mihomo_profiles st' = ps_user_mihomo_profiles st → ps_node_egress_probes st' = ps_node_egress_probes st →
  ps_reality_domains st' = ps_reality_domains st → ps_endpoint_probe_history st' = ps_endpoint_probe_history st →
  references_ok st → references_ok st'.
Proof.
  intros Hu Hn He E1 E2 E3 E4 E5 E6 E7 E8 [R1 R2 R3 R4 R5 R6 R7 R8].
  split; rewrite ?E1, ?E2, ?E3, ?E4, ?E5, ?E6, ?E7, ?E8; eauto.
  - intros u inner n Hi Hin. destruct (R1 u inner n Hi Hin). auto.
  - intros u inner n Hi Hin. destruct (R2 u inner n Hi Hin). auto.
Qed.

Lemma reorder_elem domains domain_ids domains' d : reorder_domains domains domain_ids = Ok domains' → d ∈ domains' → d ∈ domains.
Proof.
  unfold reorder_domains. intros Hr Hd. destruct_ok. set (by_id := foldl _ _ domains) in *. destruct x0 as [rest next].
  assert (∀ k d, by_id !! k = Some d → d ∈ domains) as Hby.
  { unfold by_id. clear. induction domains as [|x l IH] using rev_ind; [by intros k d ?|].
    intros k d. rewrite foldl_snoc, lookup_insert_Some, elem_of_app, list_elem_of_singleton. intros [[_ <-]|[_ ?]]; [by right|left; eauto]. }
  destruct_ok. match goal with Hf : try_fold take_domain _ _ = Ok _ |- _ => rename Hf into Hfold end.
  apply (try_fold_inv (λ '(m, l), (∀ k d, m !! k = Some d → d ∈ domains) ∧ ∀ d, d ∈ l → d ∈ domains)) in Hfold as [_ Hl].
  - by apply Hl.
  - split; [done|]. by intros ? ?%not_elem_of_nil.
  - intros [m l] id [m' l'] _ [Hm Hl] Ht. unfold take_domain in Ht. destruct (m !! id) as [z|] eqn:Hz; [|done]. injection Ht as <- <-. split.
    + intros k y [_ Hy]%lookup_delete_Some. eauto.
    + intros y [?| ->%list_elem_of_singleton]%elem_of_app; eauto.
Qed.

Lemma patch_server_name_disabled domains d name d' :
  patch_server_name domains d name = Ok d' → d_disabled_node_ids d' = d_disabled_node_ids d ∧ d_domain_id d' = d_domain_id d.
Proof. unfold patch_server_name. destruct name; [|by intros [= <-]]. intros Hp. destruct_ok. by destruct d. Qed.

Lemma domains_disabled st command domains :
  (∀ d n, d ∈ ps_reality_domains st → n ∈ d_disabled_node_ids d → is_Some (ps_nodes st !! n)) →
  domains_step st command domains →
  ∀ d n, d ∈ domains → n ∈ d_disabled_node_ids d → is_Some (ps_nodes st !! n).
Proof.
  intros Hold Hstep d n Hd Hn. destruct Hstep as [domain sn _ _ Hnew|id sn dis i d0 d1 d2 _ Hi H1' H2'|id _|ids ds Hr].
  - apply elem_of_app in Hd as [Hd| ->%list_elem_of_singleton]; [by eapply Hold|]. apply Hnew. by destruct domain.
  - apply list_elem_of_lookup in Hd as [j Hj]. apply list_lookup_insert_Some in Hj as [(-> & <- & _)|[_ Hj]].
    2: { eapply Hold; [by eapply list_elem_of_lookup_2|done]. }
    apply patch_server_name_disabled in H1' as [Hdis _]. unfold patch_disabled in H2'. destruct dis as [dis|]; destruct_ok.
    + destruct x. eapply check_nodes_exist_ok; [done|]. by destruct d1.
    + rewrite Hdis in Hn. eapply Hold; [by eapply list_elem_of_lookup_2|done].
  - apply list_elem_of_filter in Hd as [_ Hd]. by eapply Hold.
  - eapply Hold; [by eapply reorder_elem|done].
Qed.

Lemma remove_inner_Some {V} node_id (m : gmap string (gmap string V)) u inner n :
  remove_inner node_id m !! u = Some inner → is_Some (inner !! n) → n ≠ node_id ∧ ∃ inner0, m !! u = Some inner0 ∧ is_Some (inner0 !! n).
Proof.
  unfold remove_inner. intros [Hm _]%map_lookup_filter_Some Hin. rewrite lookup_fmap in Hm.
  destruct (m !! u) as [inner0|]; [|done]. injection Hm as <-. rewrite lookup_delete_is_Some in Hin. destruct Hin. eauto.
Qed.

Lemma references_without_node node_id session st :
  references_ok st → references_ok (without_node node_id session st).
Proof.
  intros [R1 R2 R3 R4 R5 R6 R7 R8]. unfold without_node. rewrite delete_endpoints_of_eq.
  set (ids := e_endpoint_id <$> endpoints_of st node_id). clearbody ids.
  match goal with |- references_ok ?s => set (st' := s) end.
  assert (ps_nodes st' = delete node_id (ps_nodes st)) as Hn by (by destruct session).
  assert (ps_users st' = ps_users st) as Hu by (by destruct session).
  assert (ps_endpoints st' = delete_all ids (ps_endpoints st)) as He by (by destruct session).
  assert (∀ n, n ≠ node_id → is_Some (ps_nodes st !! n) → is_Some (ps_nodes st' !! n)) as Hkeep
    by (intros n Hne; rewrite Hn, lookup_delete_ne; done).
  split.
  - intros u inner n Hi Hin. assert (remove_inner node_id (ps_user_node_quotas st) !! u = Some inner) as Hi' by (by destruct session).
    destruct (remove_inner_Some _ _ _ _ _ Hi' Hin) as (Hne & i0 & Hi0 & Hin0). destruct (R1 _ _ _ Hi0 Hin0). rewrite Hu. auto.
  - intros u inner n Hi Hin. assert (remove_inner node_id (ps_user_node_weights st) !! u = Some inner) as Hi' by (by destruct session).
    destruct (remove_inner_Some _ _ _ _ _ Hi' Hin) as (Hne & i0 & Hi0 & Hin0). destruct (R2 _ _ _ Hi0 Hin0). rewrite Hu. auto.
  - intros u Hi. rewrite Hu. apply R3. by destruct session.
  - intros n Hi. assert (is_Some (delete node_id (ps_node_weight_policies st) !! n)) as Hi' by (by destruct session).
    apply lookup_delete_is_Some in Hi' as [? ?]. apply Hkeep; [done|by apply R4].
  - intros u Hi. rewrite Hu. apply R5. by destruct session.
  - intros n Hi. assert (is_Some (delete node_id (ps_node_egress_probes st) !! n)) as Hi' by (by destruct session).
    apply lookup_delete_is_Some in Hi' as [? ?]. apply Hkeep; [done|by apply R6].
  - intros d n Hd Hin.
    assert (d ∈ (λ d, d <| d_disabled_node_ids ::= λ ids, ids ∖ {[node_id]} |>) <$> ps_reality_domains st) as Hd' by (by destruct session).
    apply list_elem_of_fmap in Hd' as (d0 & -> & Hd0). assert (n ∈ d_disabled_node_ids d0 ∖ {[node_id]}) as Hn0 by (by destruct d0).
    apply elem_of_difference in Hn0 as [Hn0 Hne]. apply Hkeep; [set_solver|by eapply R7].
  - intros e Hi. rewrite He, lookup_delete_all.
    assert (is_Some (remove_probe_node node_id (delete_all ids (ps_endpoint_probe_history st)) !! e)) as [h Hh] by (by destruct session).
    unfold remove_probe_node in Hh. apply map_lookup_filter_Some in Hh as [Hh _]. rewrite lookup_fmap, lookup_delete_all in Hh.
    case_decide; [done|]. apply R8. by destruct (ps_endpoint_probe_history st !! e).
Qed.

Lemma entry_inner {V} (m : gmap string (gmap string V)) u0 n0 v u inner n :
  entry_update ∅ <[n0 := v]> u0 m !! u = Some inner → is_Some (inner !! n) →
  (u = u0 ∧ n = n0) ∨ ∃ inner0, m !! u = Some inner0 ∧ is_Some (inner0 !! n).
Proof.
  unfold entry_update. rewrite lookup_insert_Some. intros [[<- <-]|[_ Hm]] Hin; [|by eauto].
  apply lookup_insert_is_Some in Hin as [<-|[_ Hin]]; [by left|]. right.
  destruct (m !! u0) as [i|]; [eauto|]. simpl in Hin. rewrite lookup_empty in Hin. by destruct Hin.
Qed.

Lemma references_with_session session st : references_ok st → references_ok (with_session session st).
Proof. by destruct session; [apply references_frame|]. Qed.

Lemma references_with_node node session st : references_ok st → references_ok (with_node node session st).
Proof.
  intros Hr. apply (references_frame st); try done; [|by apply with_node_nodes|..]; by destruct session.
Qed.

Lemma references_delete_user user_id st st' :
  (∀ u, u ≠ user_id → is_Some (ps_users st !! u) → is_Some (ps_users st' !! u)) →
  ps_nodes st' = ps_nodes st → ps_endpoints st' = ps_endpoints st →
  ps_user_node_quotas st' = delete user_id (ps_user_node_quotas st) → ps_user_node_weights st' = delete user_id (ps_user_node_weights st) →
  ps_user_global_weights st' = delete user_id (ps_user_global_weights st) → ps_node_weight_policies st' = ps_node_weight_policies st →
  ps_user_mihomo_profiles st' = delete user_id (ps_user_mihomo_profiles st) → ps_node_egress_probes st' = ps_node_egress_probes st →
  ps_reality_domains st' = ps_reality_domains st → ps_endpoint_probe_history st' = ps_endpoint_probe_history st →
  references_ok st → references_ok st'.
Proof.
  intros Hu Hn He E1 E2 E3 E4 E5 E6 E7 E8 [R1 R2 R3 R4 R5 R6 R7 R8].
  split; rewrite ?E1, ?E2, ?E3, ?E4, ?E5, ?E6, ?E7, ?E8, ?Hn, ?He; try done.
  - intros u inner n [Hne Hi]%lookup_delete_Some Hin. destruct (R1 u inner n Hi Hin). auto.
  - intros u inner n [Hne Hi]%lookup_delete_Some Hin. destruct (R2 u inner n Hi Hin). auto.
  - intros u [Hne Hi]%lookup_delete_is_Some. auto.
  - intros u [Hne Hi]%lookup_delete_is_Some. auto.
Qed.

Lemma insert_keeps {V} (m : gmap string V) k v x : is_Some (m !! x) → is_Some (<[k := v]> m !! x).
Proof. intros. apply lookup_insert_is_Some. destruct (decide (k = x)); [by left|by right]. Qed.

Lemma references_step st command st' : references_ok st → step st command st' → references_ok st'.
Proof.
  intros Hr Hstep. pose proof Hr as [R1 R2 R3 R4 R5 R6 R7 R8]. destruct Hstep; try exact Hr; try (by apply (references_frame st)).
  - by apply references_with_node.
  - by apply references_with_session.
  - by apply references_without_node.
  - destruct node as [node|]; destruct_and?; subst; [|by apply (references_frame st)].
    by apply (references_frame (with_node node session st)), references_with_node.
  - apply (references_frame st); try done. intros e'. apply insert_keeps.
  - split; try done. intros e. cbn. rewrite !lookup_delete_is_Some. intros [? ?]. auto.
  - split; try done; [by apply (domains_disabled st command)|]. intros e He. cbn. apply meta_updates_is_Some. by apply R8.
  - apply (references_frame st); try done. intros u. apply insert_keeps.
  - apply (references_delete_user user_id st); try done. intros u Hne Hu. cbn. by rewrite lookup_delete_ne.
  - apply (references_frame st); try done. intros u. apply insert_keeps.
  - split; try done. intros u inner n Hi Hin. cbn in Hi. apply (entry_inner _ _ _ _ _ _ n) in Hi as [[-> ->]|(i0 & ? & ?)]; eauto.
  - split; try done.
    + intros u inner n Hi Hin. cbn in Hi. apply (entry_inner _ _ _ _ _ _ n) in Hi as [[-> ->]|(i0 & ? & ?)]; eauto.
    + intros n. cbn. rewrite lookup_insert_is_Some. intros [<-|[_ ?]]; auto.
  - split; try done. intros u. cbn. rewrite lookup_insert_is_Some. intros [<-|[_ ?]]; auto.
  - split; try done. intros n. cbn. rewrite lookup_insert_is_Some. intros [<-|[_ ?]]; auto.
  - split; try done. intros u. cbn. rewrite lookup_insert_is_Some. intros [<-|[_ ?]]; auto.
  - unfold infer_user_kinds. case_bool_decide; by apply (references_frame st).
  - split; try done. intros n. cbn. rewrite lookup_insert_is_Some. intros [<-|[_ ?]]; auto.
  - appended. split; try done. intros e. cbn. intros [?|?]%Hhistory; [by apply R8|done].
Qed.

(** ** Every reachable state *)

Lemma state_inv_step st command st' : state_inv st → command_ok command → step st command st' → state_inv st'.
Proof.
  intros [? ? ? ? ? ? ? ?] Hc Hstep. split.
  - by eapply keyed_step.
  - by eapply entities_step.
  - by eapply index_step.
  - by eapply references_step.
  - by eapply operations_step.
  - by eapply sessions_step.
  - by eapply mesh_step.
  - by eapply repository_step.
Qed.

Lemma state_inv_empty : state_inv PersistedState_empty.
Proof. split; try split; cbn; try done; try set_solver; intros; by rewrite ?lookup_empty in *. Qed.

(** Applying the commands of a log in order; failed commands leave the state as it is. *)
Definition replay (st : PersistedState) (log : list DesiredStateCommand) : PersistedState :=
  foldl (λ st command, (apply command st).1) st log.

Lemma state_inv_apply st command : state_inv st → command_ok command → state_inv (apply command st).1.
Proof.
  intros Hi Hc. pose proof (apply_refines command st) as Href. destruct (apply command st) as [st' [r|e]]; cbn in *.
  - by eapply state_inv_step.
  - by subst.
Qed.

Lemma state_inv_replay st log : state_inv st → Forall command_ok log → state_inv (replay st log).
Proof.
  intros Hi Hlog. revert st Hi. induction Hlog as [|c log Hc Hlog IH]; intros st Hi; [done|].
  apply IH. by apply state_inv_apply.
Qed.

(** No command changes the version of the schema. *)
Lemma schema_version_step st command st' : step st command st' → ps_schema_version st' = ps_schema_version st.
Proof.
  intros Hstep. destruct Hstep; try done; try (by destruct session).
  - unfold without_node. rewrite delete_endpoints_of_eq. by destruct session.
  - destruct node as [node|]; destruct_and?; subst; [by destruct session|done].
  - unfold infer_user_kinds. by case_bool_decide.
  - by appended.
Qed.
Lemma schema_version_replay st log : ps_schema_version (replay st log) = ps_schema_version st.
Proof.
  revert st. induction log as [|c log IH]; intros st; [done|]. unfold replay in *. cbn [foldl]. rewrite IH.
  pose proof (apply_refines c st) as Href. destruct (apply c st) as [st' [r|e]]; cbn in *; [by eapply schema_version_step|by subst].
Qed.

(** What the empty state has and every step keeps holds in every reachable state. *)
Lemma replay_ind (P : PersistedState → Prop) log :
  P PersistedState_empty → (∀ st command st', state_inv st → P st → step st command st' → P st') → Forall command_ok log →
  P (replay PersistedState_empty log).
Proof.
  intros HP Hstep Hlog. pose proof state_inv_empty as Hinv. revert Hinv HP. generalize PersistedState_empty.
  induction Hlog as [|command log Hc _ IH]; intros st Hinv HP; [done|].
  apply IH; [by apply state_inv_apply|]. pose proof (apply_refines command st) as Href.
  destruct (apply command st) as [st' [r|e]]; cbn in *; [by eapply Hstep|by subst].
Qed.
End Preserved.
