(* ===== verification/History.v ===== *)
(** * What a log of commands can do

    The properties of the replicated state over whole logs of commands: the invariant of
    [Invariant] holds in every reachable state; join sessions and membership operations
    only move forward; the endpoints of a node under removal stay as they were recorded;
    the generations of reverse mesh assignments are never reused. *)

From S2P Require Import Prelude Text Search Domain Protocol Clock Lifecycle Repository ReverseMesh State Command Apply Invariant.
Open Scope string_scope.
Open Scope list_scope.
Open Scope N_scope.

Section Histories.
Context `{MetaCodec} `{UrlParser} `{Rfc3339} `{EgressNotes}.
Implicit Types (st : PersistedState) (command : DesiredStateCommand) (log : list DesiredStateCommand).

(** Lifts a property of single commands to logs. *)
Lemma replay_rtc (R : PersistedState → PersistedState → Prop) st log :
  (∀ st command st', state_inv st → step st command st' → R st st') →
  state_inv st → Forall command_ok log → rtc (λ a b, state_inv a ∧ R a b) st (replay st log).
Proof.
  intros HR Hinv Hlog. revert st Hinv. induction Hlog as [|command log Hc _ IH]; intros st Hinv; [done|].
  unfold replay. cbn [foldl]. pose proof (apply_refines command st) as Href. pose proof (state_inv_apply st command Hinv Hc) as Hinv'.
  destruct (apply command st) as [st' [r|e]]; cbn in *; [|subst; by apply IH].
  eapply rtc_l; [|by apply IH]. eauto.
Qed.

(** ** Join sessions *)

Lemma session_kept session st k s :
  session_accepted st session → ps_join_sessions st !! k = Some s →
  ∃ s', ps_join_sessions (with_session session st) !! k = Some s' ∧ rtc session_step s s'.
Proof.
  intros Ha Hk. destruct session as [new|]; [|by exists s]. cbn. destruct (decide (js_node_id new = k)) as [<-|Hne].
  - exists new. rewrite lookup_insert_eq. split; [done|]. apply rtc_once. by apply Ha.
  - exists s. by rewrite lookup_insert_ne.
Qed.

Lemma session_step_command st command st' k s :
  step st command st' → ps_join_sessions st !! k = Some s →
  ∃ s', ps_join_sessions st' !! k = Some s' ∧ rtc session_step s s'.
Proof.
  intros Hstep Hk. destruct Hstep; try (by exists s); try (by apply session_kept).
  - destruct (session_kept session st k s) as (s' & Hs' & ?); [done..|]. exists s'. split; [|done].
    unfold without_node. rewrite delete_endpoints_of_eq. by destruct session.
  - destruct node as [node|]; destruct_and?; subst; [|by exists s].
    destruct (session_kept session st k s) as (s' & Hs' & ?); [done..|]. exists s'. split; [|done]. by destruct session.
  - exists s. unfold infer_user_kinds. by case_bool_decide.
  - appended. by exists s.
Qed.

(** ** Membership operations *)

(** What a command may do to a recorded operation: leave it, take one accepted
    transition, or drop it when it ended before the given time. *)
Definition operation_moves (command : DesiredStateCommand) (op : MembershipOperation) (next : option MembershipOperation) : Prop :=
  match next with
  | Some op' => op' = op ∨ (command = TransitionMembershipOperation op' ∧ operation_step op op')
  | None => ∃ cutoff t terminal_at ended,
      command = PruneMembershipOperations cutoff ∧ parse_rfc3339 cutoff = Some t ∧
      op_terminal_at op = Some terminal_at ∧ parse_rfc3339 terminal_at = Some ended ∧ (ended ≤ t)%Z
  end.

Lemma operation_not_retained t op :
  operation_retained t op = false →
  ∃ terminal_at ended, op_terminal_at op = Some terminal_at ∧ parse_rfc3339 terminal_at = Some ended ∧ (ended ≤ t)%Z.
Proof.
  unfold operation_retained. destruct (op_terminal_at op) as [terminal_at|]; simpl; [|done].
  destruct (parse_rfc3339 terminal_at) as [ended|] eqn:Hp; [|done]. intros Hlt%Z.ltb_ge. eauto.
Qed.

Lemma operation_step_command st command st' k op :
  operations_ok (ps_membership_operations st) →
  step st command st' → ps_membership_operations st !! k = Some op →
  operation_moves command op (ps_membership_operations st' !! k).
Proof.
  intros [Hkey _] Hstep Hk.
  destruct Hstep; try (rewrite Hk; by left); try (cbn; rewrite Hk; by left);
    try (by replace (ps_membership_operations _) with (ps_membership_operations st) by (by destruct session); rewrite Hk; left).
  - replace (ps_membership_operations _) with (ps_membership_operations st); [rewrite Hk; by left|].
    unfold without_node. rewrite delete_endpoints_of_eq. by destruct session.
  - assert (ps_membership_operations st' = ps_membership_operations st) as Heq.
    { destruct node as [node|]; destruct_and?; subst; [by destruct session|done]. }
    cbn. rewrite Heq, lookup_insert_ne by (intros <-; congruence). rewrite Hk. by left.
  - cbn. destruct (decide (op_operation_id operation = k)) as [<-|Hne]; [|rewrite lookup_insert_ne, Hk by done; by left].
    rewrite lookup_insert_eq. right. simplify_eq. done.
  - cbn. destruct (operation_retained t op) eqn:Hret.
    + rewrite (map_lookup_filter_Some_2 _ _ _ op); [by left|done..].
    + rewrite map_lookup_filter_None_2; [|right; intros ? ?; simplify_eq; by rewrite Hret].
      apply operation_not_retained in Hret as (ta & ended & ? & ? & ?). by exists terminal_before, t, ta, ended.
  - unfold infer_user_kinds. case_bool_decide; cbn; rewrite Hk; by left.
  - appended. cbn. rewrite Hk. by left.
Qed.
(** ** Reverse mesh generations *)

Definition generation_floor (st : PersistedState) (target : string) : N :=
  default 0 (ps_reverse_mesh_generation_counters st !! target).

(** How the assignment of a target may differ between two moments: it is unchanged, or its
    generation is above everything recorded before, or it restates the latest generation. *)
Definition generation_moves (st st' : PersistedState) (target : string) (a' : ReverseMeshAssignment) : Prop :=
  ps_reverse_mesh_assignments st !! target = Some a' ∨
  generation_floor st target < ra_generation a' ∨
  ∃ a, ps_reverse_mesh_assignments st !! target = Some a ∧ ra_generation a = ra_generation a' ∧
       ra_generation a' = generation_floor st target.

Record mesh_history (st st' : PersistedState) : Prop := {
  mh_epoch : ps_reverse_mesh_epoch st ≤ ps_reverse_mesh_epoch st';
  mh_floor : ∀ t, generation_floor st t ≤ generation_floor st' t;
  mh_moves : ∀ t a', ps_reverse_mesh_assignments st' !! t = Some a' → generation_moves st st' t a';
}.

Lemma mesh_history_same st st' :
  ps_reverse_mesh_epoch st' = ps_reverse_mesh_epoch st → ps_reverse_mesh_generation_counters st' = ps_reverse_mesh_generation_counters st →
  (∀ t a, ps_reverse_mesh_assignments st' !! t = Some a → ps_reverse_mesh_assignments st !! t = Some a) → mesh_history st st'.
Proof. intros He Hc Ha. split; unfold generation_floor; rewrite ?He, ?Hc; [done..|]. intros t a ?. left. auto. Qed.

(** The counter of a target stands at the generation of its assignment. *)
Lemma floor_current st t a : mesh_ok st → ps_reverse_mesh_assignments st !! t = Some a → generation_floor st t = ra_generation a.
Proof. intros Hm Ha. unfold generation_floor. by rewrite (proj2 (ao_generation _ _ _ _ _ (Hm t a Ha))). Qed.

Lemma mesh_history_trans st st1 st2 : mesh_ok st → mesh_history st st1 → mesh_history st1 st2 → mesh_history st st2.
Proof.
  intros Hm [E1 F1 M1] [E2 F2 M2]. split; [lia|intros t; specialize (F1 t); specialize (F2 t); lia|].
  intros t a2 H2'. specialize (F1 t). destruct (M2 t a2 H2') as [Hs|[Hlt|(a1 & Ha1 & Hg & Hf)]].
  - by destruct (M1 t a2 Hs) as [?|[?|?]]; [left|right; left|right; right].
  - right; left. lia.
  - destruct (M1 t a1 Ha1) as [Hs|[Hlt|(a & Ha & Hg' & Hf')]].
    + right; right. exists a1. split_and!; [done..|]. pose proof (floor_current st t a1 Hm Hs). lia.
    + right; left. lia.
    + right; right. exists a. split_and!; [done|lia|lia].
Qed.

Lemma mesh_history_assign st a (target := ra_target_node_id a) :
  mesh_ok st →
  generation_floor st target < ra_generation a ∨
    (generation_floor st target ≤ ra_generation a ∧ ra_generation <$> ps_reverse_mesh_assignments st !! target = Some (ra_generation a)) →
  mesh_history st (st <| ps_reverse_mesh_assignments ::= <[target := a]> |>
                      <| ps_reverse_mesh_generation_counters ::= entry_update (ra_generation a) (λ g, N.max g (ra_generation a)) target |>).
Proof.
  intros Hm Hgen. split; [done| |].
  - intros t. unfold generation_floor, entry_update. cbn. destruct (decide (target = t)) as [<-|Hne]; [|by rewrite lookup_insert_ne].
    rewrite lookup_insert_eq. destruct (ps_reverse_mesh_generation_counters st !! target); cbn; lia.
  - intros t a'. cbn. intros [[<- <-]|[_ ?]]%lookup_insert_Some; [|by left]. right.
    destruct Hgen as [?|[Hle Hcur]]; [by left|]. right. apply fmap_Some in Hcur as (c & Hc & Hg).
    exists c. split_and!; [done..|]. pose proof (floor_current st target c Hm Hc). lia.
Qed.

Lemma mesh_history_step st command st' : state_inv st → step st command st' → mesh_history st st'.
Proof.
  intros [_ _ _ _ _ _ Hm _] Hstep.
  destruct Hstep; try (by apply mesh_history_same); try (by destruct session; apply mesh_history_same).
  - unfold without_node. rewrite delete_endpoints_of_eq.
    destruct session; apply mesh_history_same; try done; intros t a; cbn; rewrite !map_lookup_filter_Some; tauto.
  - destruct node as [node|]; destruct_and?; subst; [|by apply mesh_history_same]. by destruct session; apply mesh_history_same.
  - unfold infer_user_kinds. by case_bool_decide; apply mesh_history_same.
  - appended. by apply mesh_history_same.
  - split; [done|done|by left].
  - by apply mesh_history_assign.
  - apply mesh_history_same; try done. intros t a. cbn. intros [_ ?]%lookup_delete_Some. done.
Qed.
(** ** The endpoints of a node under removal *)

(** The tag of an endpoint of the node, when the endpoint is there and on that node. *)
Definition node_tag (st : PersistedState) (node_id endpoint_id : string) : option string :=
  ps_endpoints st !! endpoint_id ≫= λ e, if decide (e_node_id e = node_id) then Some (e_tag e) else None.

Definition snapshot_intact (st : PersistedState) (op : MembershipOperation) (node_id : string) : Prop :=
  (∀ id, is_Some (node_tag st node_id id) ↔ id ∈ op_expected_endpoint_ids op) ∧
  (∀ tag, (∃ id, node_tag st node_id id = Some tag) ↔ tag ∈ op_expected_endpoint_tags op).

Definition removal_frozen (st : PersistedState) : Prop :=
  ∀ k op node_id, ps_membership_operations st !! k = Some op → is_active op = true → op_kind op = RemoveNode →
    op_node_id op = Some node_id → snapshot_intact st op node_id ∨ ∀ id, node_tag st node_id id = None.

Lemma node_tag_Some st node_id id tag :
  node_tag st node_id id = Some tag ↔ ∃ e, ps_endpoints st !! id = Some e ∧ e_node_id e = node_id ∧ e_tag e = tag.
Proof.
  unfold node_tag. destruct (ps_endpoints st !! id) as [e|]; simpl; [|by split; [|intros (? & ? & ?)]].
  case_decide; split; [intros [= <-]; eauto|by intros (? & [= <-] & _ & <-)|done|by intros (? & [= <-] & ? & _)].
Qed.

Lemma elem_of_endpoints_of st node_id e :
  e ∈ endpoints_of st node_id ↔ (∃ id, ps_endpoints st !! id = Some e) ∧ e_node_id e = node_id.
Proof. unfold endpoints_of. rewrite list_elem_of_filter, elem_of_bt_values. tauto. Qed.

(** An accepted removal records the endpoints its node has. *)
Lemma snapshot_recorded st op node_id :
  keyed_state st → validate_remove_node_endpoint_snapshot st op = Ok tt → op_kind op = RemoveNode → op_node_id op = Some node_id →
  snapshot_intact st op node_id.
Proof.
  intros [_ _ Hkey]. unfold validate_remove_node_endpoint_snapshot, remove_node_target. intros Hv Hkind Hn.
  rewrite Hn in Hv. rewrite bool_decide_true in Hv by done. cbn [negb] in Hv. destruct (str_is_empty _); [done|]. cbn in Hv.
  destruct_ok. rewrite orb_false_iff, negb_false_iff, andb_true_iff, !bool_decide_eq_true in *. destruct_and!.
  assert (∀ e id, ps_endpoints st !! id = Some e ∧ e_node_id e = node_id ↔ e ∈ endpoints_of st node_id ∧ e_endpoint_id e = id) as Hof.
  { intros e id. rewrite elem_of_endpoints_of. split.
    - intros [He ?]. split_and!; [by eexists|done|by eapply Hkey].
    - intros [[[id' He] ?] <-]. by rewrite (Hkey _ _ He). }
  split.
  - intros id. rewrite <-(elem_of_list_to_set (C := gset string)). match goal with E : list_to_set _ = list_to_set (op_expected_endpoint_ids op) |- _ => rewrite <-E end.
    rewrite elem_of_list_to_set, list_elem_of_fmap. unfold is_Some. setoid_rewrite node_tag_Some. split.
    + intros (_ & e & He & Hnode & _). exists e. destruct (proj1 (Hof e id)); auto.
    + intros (e & -> & He). exists (e_tag e), e. destruct (proj2 (Hof e (e_endpoint_id e))); auto.
  - intros tag. rewrite <-(elem_of_list_to_set (C := gset string)). match goal with E : list_to_set _ = list_to_set (op_expected_endpoint_tags op) |- _ => rewrite <-E end.
    rewrite elem_of_list_to_set, list_elem_of_fmap. setoid_rewrite node_tag_Some. split.
    + intros (id & e & He & Hnode & <-). exists e. destruct (proj1 (Hof e id)); auto.
    + intros (e & -> & He). exists (e_endpoint_id e), e. destruct (proj2 (Hof e (e_endpoint_id e))); auto.
Qed.

Lemma active_operation_found st k op :
  operations_ok (ps_membership_operations st) → ps_membership_operations st !! k = Some op → is_active op = true →
  active_membership_operation st = Some op.
Proof.
  intros [_ Hone] Hk Ha. unfold active_membership_operation. destruct (List.find _ _) as [op'|] eqn:Hf.
  - apply find_some in Hf as [Hin Ha']. apply list_elem_of_In, elem_of_bt_values in Hin as [k' Hk'].
    rewrite (Hone k k' op op' Hk Hk' Ha Ha') in Hk. congruence.
  - pose proof (no_active_operation st k op Hf Hk). congruence.
Qed.

(** Writes to single endpoints miss the node under removal. *)
Lemma mutation_elsewhere st op node_id current next :
  active_membership_operation st = Some op → op_kind op = RemoveNode → op_node_id op = Some node_id →
  ensure_endpoint_mutation_is_allowed st current next = Ok tt → on_node node_id current = false ∧ on_node node_id next = false.
Proof.
  unfold ensure_endpoint_mutation_is_allowed, remove_node_target. intros -> Hkind ->. rewrite bool_decide_true by done. cbn [negb].
  destruct (str_is_empty _); [done|]. cbn. destruct (_ || _) eqn:Ho; [done|]. by apply orb_false_iff in Ho.
Qed.
Lemma on_node_tag st node_id id : on_node node_id (ps_endpoints st !! id) = false → node_tag st node_id id = None.
Proof. unfold node_tag, on_node. destruct (_ !! id); simpl; [|done]. intros ?%bool_decide_eq_false. by rewrite decide_False. Qed.

Lemma node_tag_without_node st removed session node_id :
  keyed_state st →
  (∀ id, node_tag (without_node removed session st) node_id id = node_tag st node_id id) ∨
  (∀ id, node_tag (without_node removed session st) node_id id = None).
Proof.
  intros Hkey. pose proof (ks_endpoints _ Hkey) as Hke.
  assert (ps_endpoints (without_node removed session st) = delete_all (e_endpoint_id <$> endpoints_of st removed) (ps_endpoints st)) as Heq.
  { unfold without_node. rewrite delete_endpoints_of_eq. by destruct session. }
  assert (∀ id e, ps_endpoints st !! id = Some e → id ∈ e_endpoint_id <$> endpoints_of st removed ↔ e_node_id e = removed) as Hof.
  { intros id e He. rewrite list_elem_of_fmap. setoid_rewrite elem_of_endpoints_of. split.
    - intros (e' & -> & [id' He'] & ?). rewrite (Hke _ _ He') in He. congruence.
    - intros ?. exists e. split; [symmetry; by apply Hke|]. split; [by exists id|done]. }
  unfold node_tag. rewrite Heq. destruct (decide (node_id = removed)) as [->|Hne]; [right|left]; intros id; rewrite lookup_delete_all;
    (destruct (ps_endpoints st !! id) as [e|] eqn:He; [|by case_decide]); pose proof (Hof id e He); case_decide; cbn; try done.
  - rewrite decide_False; [done|tauto].
  - rewrite decide_False; [done|]. intros <-. tauto.
Qed.

Lemma node_tag_step st command st' k op node_id :
  state_inv st → step st command st' →
  ps_membership_operations st !! k = Some op → is_active op = true → op_kind op = RemoveNode → op_node_id op = Some node_id →
  (∀ id, node_tag st' node_id id = node_tag st node_id id) ∨ (∀ id, node_tag st' node_id id = None).
Proof.
  intros Hinv Hstep Hk Ha Hkind Hn. pose proof (active_operation_found st k op (si_operations _ Hinv) Hk Ha) as Hact.
  pose proof (mutation_elsewhere st op node_id) as Hmut.
  destruct Hstep; try (by left); try (by left; destruct session).
  - apply node_tag_without_node, Hinv.
  - left. destruct node as [node|]; destruct_and?; subst; [by destruct session|done].
  - left. intros id. edestruct Hmut as [Hc%on_node_tag Hnew]; [done..|].
    destruct (decide (e_endpoint_id endpoint = id)) as [<-|Hne].
    + rewrite Hc. unfold node_tag. cbn. rewrite lookup_insert_eq. cbn. rewrite decide_False; [done|].
      by apply bool_decide_eq_false in Hnew.
    + unfold node_tag. cbn. by rewrite lookup_insert_ne.
  - left. intros id. edestruct Hmut as [Hc%on_node_tag _]; [done..|].
    destruct (decide (endpoint_id = id)) as [<-|Hne]; unfold node_tag; cbn.
    + by rewrite lookup_delete_eq.
    + by rewrite lookup_delete_ne.
  - left. intros id. unfold node_tag, apply_vless_meta_updates. cbn. unfold apply_vless_meta_updates. rewrite map_lookup_imap.
    destruct (ps_endpoints st !! id) as [e|]; cbn; [|done]. by destruct (updates !! id); destruct e.
  - left. unfold infer_user_kinds. by case_bool_decide.
  - left. appended. done.
Qed.

Lemma snapshot_same st st' op op' node_id :
  (∀ id, node_tag st' node_id id = node_tag st node_id id) → operation_identity op' = operation_identity op →
  snapshot_intact st op node_id → snapshot_intact st' op' node_id.
Proof.
  intros Heq Hid [Hids Htags]. unfold operation_identity in Hid. unfold snapshot_intact.
  replace (op_expected_endpoint_ids op') with (op_expected_endpoint_ids op) by congruence.
  replace (op_expected_endpoint_tags op') with (op_expected_endpoint_tags op) by congruence.
  split; [intros id; by rewrite Heq|]. intros tag. rewrite <-Htags. by setoid_rewrite Heq.
Qed.

Lemma operation_recorded st command st' k op :
  step st command st' → ps_membership_operations st !! k = None → ps_membership_operations st' !! k = Some op →
  validate_remove_node_endpoint_snapshot st op = Ok tt ∧ ps_endpoints st' = ps_endpoints st.
Proof.
  intros Hstep Hk Hk'. destruct Hstep; try (cbn in Hk'; congruence); try (destruct session; cbn in Hk'; congruence).
  - replace (ps_membership_operations _) with (ps_membership_operations st) in Hk'; [congruence|].
    unfold without_node. rewrite delete_endpoints_of_eq. by destruct session.
  - assert (ps_membership_operations st' = ps_membership_operations st ∧ ps_endpoints st' = ps_endpoints st) as [Heq Heq'].
    { destruct node as [node|]; destruct_and?; subst; [by destruct session|done]. }
    cbn in Hk'. rewrite Heq in Hk'. apply lookup_insert_Some in Hk' as [[_ <-]|[_ ?]]; [done|congruence].
  - cbn in Hk'. apply lookup_insert_Some in Hk' as [[<- <-]|[_ ?]]; congruence.
  - cbn in Hk'. apply map_lookup_filter_Some in Hk' as [? _]. congruence.
  - unfold infer_user_kinds in Hk'. case_bool_decide; cbn in Hk'; congruence.
  - revert Hk'. appended. cbn. congruence.
Qed.

Lemma removal_frozen_step st command st' : state_inv st → removal_frozen st → step st command st' → removal_frozen st'.
Proof.
  intros Hinv Hf Hstep k op' node_id Hk' Ha' Hkind' Hn'.
  destruct (ps_membership_operations st !! k) as [op|] eqn:Hk.
  - pose proof (operation_step_command st command st' k op (si_operations _ Hinv) Hstep Hk) as Hmoves. rewrite Hk' in Hmoves. cbn in Hmoves.
    assert (operation_identity op' = operation_identity op ∧ is_active op = true) as [Hid Ha].
    { destruct Hmoves as [-> |[_ (Hid & Hphase & _)%operation_step_inv]]; [done|]. split; [done|].
      apply operation_phase_forward in Hphase as [Hfinal _]. unfold is_active in *.
      destruct (is_terminal (op_phase op)) eqn:Ht; [|done]. by rewrite (Hfinal eq_refl), Ht in Ha'. }
    pose proof Hid as Hid0. unfold operation_identity in Hid0.
    destruct (node_tag_step st command st' k op node_id) as [Hsame|Hnone]; [done..|congruence|congruence| |by right].
    destruct (Hf k op node_id) as [Hsnap|Hnone]; [done..|congruence|congruence| |].
    + left. by eapply snapshot_same.
    + right. intros id. by rewrite Hsame.
  - destruct (operation_recorded st command st' k op') as [Hv Hsame]; [done..|].
    left. eapply (snapshot_same st _ op'); [|done|by apply snapshot_recorded; [apply Hinv|..]].
    intros id. unfold node_tag. by rewrite Hsame.
Qed.

(** ** Theorems on logs *)

(** C2: applying a command is all or nothing and follows the step relation: an error leaves
    the whole state as it was, and success takes exactly one step, whose guards held before. *)
Theorem apply_simulation (command : DesiredStateCommand) (st : PersistedState) :
  match apply command st with
  | (st', Ok _) => step st command st'
  | (st', Err _) => st' = st
  end.
Proof. apply apply_refines. Qed.

(** C1: every state a log of commands produces from the empty state satisfies the invariant:
    maps are keyed by the ids of what they hold, stored entities passed validation, the
    membership index is in step with users and endpoints, no quota, weight, policy, profile,
    probe or disabled node refers to something that is gone, at most one membership operation
    is active, reverse mesh assignments are valid, name existing nodes and stay below their
    generation counters, and the repository membership is a valid one. *)
Theorem replay_invariant (log : list DesiredStateCommand) (Hlog : Forall command_ok log) :
  state_inv (replay PersistedState_empty log).
Proof. by apply state_inv_replay; [apply state_inv_empty|]. Qed.

(** C35: no log of commands loses a join session: it stays recorded under its node and only
    takes updates that its previous state accepted. *)
Theorem join_session_survives (st : PersistedState) (log : list DesiredStateCommand) (node_id : string) (s : JoinSession)
    (Hs : ps_join_sessions st !! node_id = Some s) :
  ∃ s', ps_join_sessions (replay st log) !! node_id = Some s' ∧ rtc session_step s s'.
Proof.
  revert st s Hs. induction log as [|command log IH]; intros st s Hs; [by exists s|].
  unfold replay. cbn [foldl]. pose proof (apply_refines command st) as Href.
  destruct (apply command st) as [st' [r|e]]; cbn in *; [|subst; by apply IH].
  destruct (session_step_command st command st' node_id s Href Hs) as (s1 & Hs1 & Hpath).
  destruct (IH st' s1 Hs1) as (s2 & ? & ?). exists s2. split; [done|]. by etrans.
Qed.

(** C36: in a state that satisfies the invariant, a command leaves a recorded membership
    operation alone, takes one transition the operation accepts, or drops it; it is dropped
    only by a prune whose cut-off is not before the end the operation recorded. *)
Theorem membership_operation_moves (st : PersistedState) (command : DesiredStateCommand) (k : string) (op : MembershipOperation)
    (Hinv : state_inv st) (Hop : ps_membership_operations st !! k = Some op) :
  operation_moves command op (ps_membership_operations (apply command st).1 !! k).
Proof.
  pose proof (apply_refines command st) as Href. destruct (apply command st) as [st' [r|e]]; cbn in *.
  - by eapply operation_step_command; [apply Hinv|..].
  - subst. rewrite Hop. by left.
Qed.

(** C32: in every reachable state, a node whose removal is under way has exactly the endpoints
    and tags the removal recorded when it began, or none at all. *)
Theorem removal_snapshot_frozen (log : list DesiredStateCommand) (Hlog : Forall command_ok log) :
  removal_frozen (replay PersistedState_empty log).
Proof.
  apply replay_ind; [|apply removal_frozen_step|done]. intros k ? **. cbn in *. by rewrite lookup_empty in *.
Qed.

(** C34: over any log of commands the credential epoch and the generation counters of the
    reverse mesh never move back, and an assignment found later is the one found before, or
    carries a generation above every generation its target had, or restates the latest one;
    deleting an assignment or its node does not free its generations. *)
Theorem reverse_mesh_generations (st : PersistedState) (log : list DesiredStateCommand)
    (Hinv : state_inv st) (Hlog : Forall command_ok log) :
  mesh_history st (replay st log).
Proof.
  pose proof (replay_rtc mesh_history st log mesh_history_step Hinv Hlog) as Hpath. clear Hinv.
  induction Hpath as [st|st st1 st2 [Hinv Hstep] _ IH]; [by apply mesh_history_same|].
  eapply mesh_history_trans; [apply Hinv|done|done].
Qed.
End Histories.

(** ** A log *)

Module Example.
#[local] Existing Instances serde_codec digits_clock.
#[local] Instance no_urls : UrlParser := λ _, None.
#[local] Instance no_notes : EgressNotes := λ _, None.

Definition node (id : string) : Node := mkNode id id "host" "https://host" 0 NodeQuotaReset_default.
Definition endpoint : Endpoint := mkEndpoint "e" "n1" "t" Ss2022_2022Blake3Aes128Gcm 8443 JNull.
Definition session (status : JoinSessionStatus) (index : N) : JoinSession :=
  mkJoinSession "n1" "fp" "cert" "t0" "t1" index status None.
Definition removal (phase : MembershipOperationPhase) (terminal_at evidence : option string) : MembershipOperation :=
  mkMembershipOperation "op" RemoveNode 7 (Some "n1") "voters=1,7" phase false true ["e"] ["t"] "1" None terminal_at evidence.
Definition assignment (generation : N) : ReverseMeshAssignment :=
  mkReverseMeshAssignment "n1" generation 1 "n2" None 0.

(** A node joins with a session, gets an endpoint and a reverse mesh assignment, and its
    removal begins; a change of its endpoint is then refused. *)
Definition setup : list DesiredStateCommand :=
  [UpsertNode (node "n1") (Some (session Reserved 0)); UpsertNode (node "n2") None; UpsertEndpoint endpoint None;
   UpsertReverseMeshAssignment (assignment 3) None; BeginMembershipOperation (removal Prepared None None) None None;
   DeleteEndpoint "e"].
Definition removed : list DesiredStateCommand :=
  [UpsertNode (node "n1") (Some (session LearnerRegistered 42)); TransitionMembershipOperation (removal MembershipRemoved None None);
   DeleteNode "n1" true ["e"] None; TransitionMembershipOperation (removal Completed (Some "9") (Some "removed"));
   PruneMembershipOperations "10"; UpsertNode (node "n1") None; UpsertReverseMeshAssignment (assignment 4) None].

Lemma replay_invariant_witness :
  state_inv (replay PersistedState_empty (setup ++ removed)) ∧
  ps_nodes (replay PersistedState_empty (setup ++ removed)) !! "n1" = Some (node "n1").
Proof.
  split; [apply (replay_invariant (setup ++ removed)); repeat constructor|]. vm_compute. reflexivity.
Defined.

Lemma join_session_survives_witness :
  ∃ s', ps_join_sessions (replay (replay PersistedState_empty setup) removed) !! "n1" = Some s' ∧ rtc session_step (session Reserved 0) s'.
Proof. apply (join_session_survives (replay PersistedState_empty setup) removed "n1"). vm_compute. reflexivity. Defined.

Lemma membership_operation_moves_witness :
  let st := replay PersistedState_empty (setup ++ take 4 removed) in
  let st' := (apply (PruneMembershipOperations "10") st).1 in
  operation_moves (PruneMembershipOperations "10") (removal Completed (Some "9") (Some "removed")) (ps_membership_operations st' !! "op") ∧
  ps_membership_operations st' !! "op" = None.
Proof.
  intros st st'. split; [|vm_compute; reflexivity].
  apply (membership_operation_moves st (PruneMembershipOperations "10") "op").
  - apply state_inv_replay; [apply state_inv_empty|repeat constructor].
  - vm_compute. reflexivity.
Defined.

Lemma removal_snapshot_frozen_witness :
  removal_frozen (replay PersistedState_empty setup) ∧
  is_active <$> ps_membership_operations (replay PersistedState_empty setup) !! "op" = Some true ∧
  node_tag (replay PersistedState_empty setup) "n1" "e" = Some "t".
Proof.
  split; [apply (removal_snapshot_frozen setup); repeat constructor|]. vm_compute. split; reflexivity.
Defined.

Lemma reverse_mesh_generations_witness :
  let st := replay PersistedState_empty setup in
  mesh_history st (replay st removed) ∧
  ra_generation <$> ps_reverse_mesh_assignments (replay st removed) !! "n1" = Some 4.
Proof.
  intros st. split; [|vm_compute; reflexivity].
  apply (reverse_mesh_generations st removed); [|repeat constructor].
  apply state_inv_replay; [apply state_inv_empty|repeat constructor].
Defined.
End Example.
