(* ===== verification/Effects.v ===== *)
(** * Effects of single commands

    What the commands with derived data achieve: replacing the access of a user leaves
    exactly the endpoints asked for; the server names of VLESS endpoints that follow the
    REALITY domains are the ones derived from the domains; the assignments the reverse mesh
    planner proposes are accepted. *)

From S2P Require Import Prelude Text Search Domain Protocol Clock Lifecycle Repository ReverseMesh State Command Apply Invariant History.
Open Scope string_scope.
Open Scope list_scope.
Open Scope N_scope.

(** ** Access *)

Lemma by_kind_fold (l : list Endpoint) (acc : gmap EndpointKind (gset string)) kind :
  default ∅ (foldl (λ acc e, <[e_kind e := {[e_endpoint_id e]} ∪ default ∅ (acc !! e_kind e)]> acc) acc l !! kind)
  = default ∅ (acc !! kind) ∪ list_to_set (e_endpoint_id <$> filter (λ e, e_kind e = kind) l).
Proof.
  revert acc. induction l as [|e l IH]; intros acc; cbn [foldl]; [csimpl; set_solver|].
  rewrite IH. destruct (decide (e_kind e = kind)) as [<-|Hne].
  - rewrite lookup_insert_eq, filter_cons_True by done. csimpl. set_solver.
  - by rewrite lookup_insert_ne, filter_cons_False by done.
Qed.

(** A kind is inferred when there are endpoints of it and all of them are in the set. *)
Lemma elem_of_infer_kinds st endpoint_ids kind :
  keyed_state st →
  kind ∈ infer_auto_assign_endpoint_kinds_for_user st endpoint_ids ↔
  (∃ k e, ps_endpoints st !! k = Some e ∧ e_kind e = kind) ∧
  (∀ k e, ps_endpoints st !! k = Some e → e_kind e = kind → k ∈ endpoint_ids).
Proof.
  intros [_ _ Hkey]. unfold infer_auto_assign_endpoint_kinds_for_user. set (by_kind := foldl _ _ _).
  assert (default ∅ (by_kind !! kind) = list_to_set (e_endpoint_id <$> filter (λ e, e_kind e = kind) (bt_values (ps_endpoints st)))) as Hby.
  { unfold by_kind. rewrite by_kind_fold, lookup_empty. cbn. apply (left_id_L ∅ _). }
  assert (∀ k, k ∈ (default ∅ (by_kind !! kind) : gset string) ↔ ∃ e, ps_endpoints st !! k = Some e ∧ e_kind e = kind) as Hin.
  { intros k. rewrite Hby, elem_of_list_to_set, list_elem_of_fmap. setoid_rewrite list_elem_of_filter. setoid_rewrite elem_of_bt_values. split.
    - intros (e & -> & Hk & [k' He]). exists e. by rewrite (Hkey _ _ He).
    - intros (e & He & Hk). exists e. split; [symmetry; by apply Hkey|eauto]. }
  rewrite elem_of_dom. unfold is_Some. setoid_rewrite map_lookup_filter_Some. split.
  - intros (ids & Hids & Hne & Hsub). rewrite Hids in Hin. cbn in Hin. split.
    + destruct (set_choose_L ids Hne) as [k (e & He & Hk)%Hin]. eauto.
    + intros k e He Hk. apply Hsub, Hin. eauto.
  - intros [(k & e & He & Hk) Hall]. destruct (by_kind !! kind) as [ids|]; cbn in Hin; [|exfalso; apply (not_elem_of_empty (C := gset string) k), Hin; eauto].
    exists ids. split_and!; [done| |].
    + pose proof (proj2 (Hin k)). set_solver.
    + intros k' (e' & He' & Hk')%Hin. by eapply Hall.
Qed.

Lemma elem_of_replace_memberships st user_id (ids : gset string) m :
  keyed_state st → (∀ e, e ∈ ids → is_Some (ps_endpoints st !! e)) →
  m ∈ ps_node_user_endpoint_memberships (replace_memberships user_id ids st) ↔
  (m_user_id m ≠ user_id ∧ m ∈ ps_node_user_endpoint_memberships st) ∨
  (m_user_id m = user_id ∧ m_endpoint_id m ∈ ids ∧ ∃ e, ps_endpoints st !! m_endpoint_id m = Some e ∧ m_node_id m = e_node_id e).
Proof.
  intros [_ _ Hkey] Hids. unfold replace_memberships. cbn. rewrite elem_of_union, elem_of_filter, elem_of_list_to_set, list_elem_of_omap.
  apply or_iff_compat_l. split.
  - intros (id & Hid%elem_of_bs_items & Hm). apply fmap_Some in Hm as (e & He & ->). cbn. rewrite (Hkey _ _ He). eauto.
  - intros (Hu & Hid & e & He & Hn). exists (m_endpoint_id m). rewrite elem_of_bs_items. split; [done|]. rewrite He. cbn.
    rewrite (Hkey _ _ He), <-Hn, <-Hu. by destruct m.
Qed.

Lemma user_endpoint_ids_spec st user_id id :
  id ∈ user_endpoint_ids st user_id ↔ ∃ n, mkMembership user_id n id ∈ ps_node_user_endpoint_memberships st.
Proof.
  unfold user_endpoint_ids. rewrite elem_of_list_to_set, list_elem_of_fmap. setoid_rewrite list_elem_of_filter. setoid_rewrite elem_of_elements.
  split.
  - intros ([u n id'] & -> & <- & Hm). by exists n.
  - intros (n & Hm). by exists (mkMembership user_id n id).
Qed.

Section Effects.
Context `{MetaCodec} `{UrlParser} `{Rfc3339} `{EgressNotes}.
Implicit Types (st : PersistedState).

Lemma elem_of_replaced st user_id (ids : gset string) m :
  keyed_state st → index_in_step st → is_Some (ps_users st !! user_id) → (∀ e, e ∈ ids → is_Some (ps_endpoints st !! e)) →
  m ∈ ps_node_user_endpoint_memberships
        (sync_node_user_endpoint_memberships (infer_user_kinds user_id (replace_memberships user_id ids st))) ↔
  (m_user_id m ≠ user_id ∧ m ∈ ps_node_user_endpoint_memberships st) ∨
  (m_user_id m = user_id ∧ m_endpoint_id m ∈ ids ∧ ∃ e, ps_endpoints st !! m_endpoint_id m = Some e ∧ m_node_id m = e_node_id e).
Proof.
  intros Hkey Hidx Hu Hids. set (st1 := replace_memberships user_id ids st). set (st2 := infer_user_kinds user_id st1).
  assert (keyed_state st1 ∧ keyed_state st2) as [Hkey1 Hkey2] by (unfold st2, infer_user_kinds; destruct Hkey; case_bool_decide; by split).
  assert (∀ id, id ∈ user_endpoint_ids st1 user_id ↔ id ∈ ids) as Hown.
  { intros id. rewrite user_endpoint_ids_spec. split.
    - intros (n & [[? _]|(_ & ? & _)]%elem_of_replace_memberships); done.
    - intros Hid. destruct (Hids id Hid) as [e He]. exists (e_node_id e). apply elem_of_replace_memberships; [done..|]. right. eauto. }
  assert (ps_endpoints st2 = ps_endpoints st ∧ ps_users st2 = ps_users st ∧
          ps_node_user_endpoint_memberships st2 = ps_node_user_endpoint_memberships st1) as (He2 & Hu2 & Hm2).
  { unfold st2, infer_user_kinds. by case_bool_decide. }
  assert (∀ u kinds, ps_user_auto_assign_endpoint_kinds st2 !! u = Some kinds →
          (u ≠ user_id ∧ ps_user_auto_assign_endpoint_kinds st !! u = Some kinds) ∨
          (u = user_id ∧ kinds = infer_auto_assign_endpoint_kinds_for_user st1 (user_endpoint_ids st1 user_id))) as Hkinds.
  { intros u kinds. unfold st2, infer_user_kinds. case_bool_decide; cbn.
    - intros [? ?]%lookup_delete_Some. auto.
    - intros [[<- <-]|[? ?]]%lookup_insert_Some; auto. }
  rewrite elem_of_sync by done. unfold membership_ok. rewrite He2, Hu2, Hm2. rewrite <-(elem_of_replace_memberships st) by done. fold st1. split.
  - intros [[_ (e & He & Hn)] [[n Hm]|(kinds & e' & Hk & He' & Hkind)]].
    + apply elem_of_replace_memberships in Hm as [[Hne Hm]|(Heq & Hid & _)]; [| |done..]; cbn in *; apply elem_of_replace_memberships; try done.
      * left. split; [done|]. destruct (is_sound _ Hidx _ Hm) as [_ (e' & He' & Hn')]. cbn in *. simplify_eq. by destruct m; cbn in *; subst.
      * right. eauto.
    + apply elem_of_replace_memberships; [done..|]. simplify_eq. apply Hkinds in Hk as [[Hne Hk]|[Heq ->]].
      * left. split; [done|]. pose proof (is_complete _ Hidx _ _ _ _ Hk He Hkind) as Hc. rewrite <-Hn in Hc. by destruct m.
      * right. split_and!; [done| |eauto]. apply elem_of_infer_kinds in Hkind as [_ Hall]; [|done]. by eapply Hown, Hall.
  - intros Hm. split; [|left; exists (m_node_id m); by destruct m]. apply elem_of_replace_memberships in Hm as [[_ Hm]|(-> & _ & ?)]; [by apply Hidx|done..].
Qed.

Lemma check_endpoints_exist_iff st (ids : gset string) :
  check_endpoints_exist st ids = Ok tt ↔ ∀ e, e ∈ ids → is_Some (ps_endpoints st !! e).
Proof.
  unfold check_endpoints_exist. rewrite try_each_ok, Forall_forall. setoid_rewrite elem_of_bs_items. split; intros Hall e He; specialize (Hall e He).
  - destruct (contains_key _ e) eqn:Hc; [|done]. by apply contains_key_true.
  - by rewrite (proj2 (contains_key_true _ _) Hall).
Qed.

(** C8: replacing the access of a user is refused, with nothing changed, exactly when the
    user or one of the endpoints does not exist; otherwise the user ends up with a
    membership for each requested endpoint, on that endpoint's node, and for no other
    (inferred automatic assignment adds none), every other user keeps theirs, and the
    reported counts are the sizes of the two differences. *)
Theorem replace_user_access_exact (st : PersistedState) (user_id : string) (endpoint_ids : list string) (Hinv : state_inv st) :
  let desired : gset string := list_to_set endpoint_ids in
  let existing := user_endpoint_ids st user_id in
  match apply (ReplaceUserAccess user_id endpoint_ids) st with
  | (st', Ok r) =>
      is_Some (ps_users st !! user_id) ∧ (∀ e, e ∈ endpoint_ids → is_Some (ps_endpoints st !! e)) ∧
      r = UserAccessReplaced (size (desired ∖ existing)) (size (existing ∖ desired)) ∧
      (∀ m, m ∈ ps_node_user_endpoint_memberships st' ↔
        (m_user_id m ≠ user_id ∧ m ∈ ps_node_user_endpoint_memberships st) ∨
        (m_user_id m = user_id ∧ m_endpoint_id m ∈ endpoint_ids ∧
         ∃ e, ps_endpoints st !! m_endpoint_id m = Some e ∧ m_node_id m = e_node_id e))
  | (st', Err _) =>
      st' = st ∧ (ps_users st !! user_id = None ∨ ∃ e, e ∈ endpoint_ids ∧ ps_endpoints st !! e = None)
  end.
Proof.
  intros desired existing. cbn [apply]. unfold apply_replace_user_access. autorewrite with run. fold desired. fold existing.
  destruct (contains_key _ _) eqn:Hu; [apply contains_key_true in Hu|apply contains_key_false in Hu; auto].
  destruct (check_endpoints_exist st desired) as [[]|err] eqn:Hc.
  - rewrite check_endpoints_exist_iff in Hc. cbn beta iota. split_and!; [done| |done|].
    + intros e He. apply Hc. by apply elem_of_list_to_set.
    + intros m. rewrite elem_of_replaced; [|apply Hinv|apply Hinv|done|done]. unfold desired. by rewrite elem_of_list_to_set.
  - split; [done|]. right. destruct (decide (Exists (λ e, ps_endpoints st !! e = None) endpoint_ids)) as [He|He].
    + by apply Exists_exists in He.
    + exfalso. enough (check_endpoints_exist st desired = Ok tt) by congruence. apply check_endpoints_exist_iff.
      intros e Hin%elem_of_list_to_set. apply not_eq_None_Some. intros ?. apply He, Exists_exists. eauto.
Qed.

(** ** Server names derived from the REALITY domains *)

(** The metadata of a VLESS endpoint decodes, and one that follows the domains has the
    names derived for its node. *)
Definition follows_domains (domains : list RealityDomain) (e : Endpoint) : Prop :=
  e_kind e = VlessRealityVisionTcp →
  ∃ meta, vless_of_json (e_meta e) = Ok meta ∧
    (rc_server_names_source (vm_reality meta) = Global →
     let names := derive_global_reality_server_names domains (e_node_id e) in
     names ≠ [] ∧ rc_server_names (vm_reality meta) = names ∧
     (vm_managed_default meta = false → rc_dest (vm_reality meta) = default_dest names)).

Definition names_in_step (st : PersistedState) : Prop :=
  ∀ k e, ps_endpoints st !! k = Some e → follows_domains (ps_reality_domains st) e.

Lemma serialize_decodes meta had :
  ∃ meta', vless_of_json (serialize_vless_meta_preserving_smux meta had) = Ok meta' ∧
           vm_reality meta' = vm_reality meta ∧ vm_managed_default meta' = vm_managed_default meta.
Proof.
  unfold serialize_vless_meta_preserving_smux. destruct had.
  - exists meta. by rewrite vless_roundtrip.
  - eexists. rewrite vless_smux_default. split; [done|]. by destruct meta.
Qed.

(** Recomputing the metadata of one endpoint. *)
Lemma global_meta_update_follows domains id e update :
  (e_kind e = VlessRealityVisionTcp → ∃ meta, vless_of_json (e_meta e) = Ok meta) →
  global_meta_update domains id e = Ok update →
  follows_domains domains (match update with Some m => e <| e_meta := m |> | None => e end).
Proof.
  intros Hdec Hu. unfold global_meta_update in Hu. unfold follows_domains.
  case_bool_decide as Hk; cbn [negb] in Hu; [|injection Hu as <-; done].
  destruct (Hdec Hk) as [meta Hm]. rewrite Hm in Hu. cbn in Hu. case_bool_decide as Hg; cbn [negb] in Hu.
  2: { injection Hu as <-. intros _. exists meta. split; [done|]. done. }
  case_bool_decide as Hne; [done|]. cbn in Hu. destruct (vm_managed_default meta) eqn:Hmd; cbn in Hu; injection Hu as <-;
    intros _; cbn; match goal with |- context [serialize_vless_meta_preserving_smux ?m ?h] => destruct (serialize_decodes m h) as (m' & -> & Hr & Hd) end;
    exists m'; (split; [done|]); intros _; rewrite Hr, Hd; destruct meta; cbn in *; by rewrite ?Hmd.
Qed.

Lemma build_updates_lookup endpoints domains updates k e :
  build_global_vless_meta_updates endpoints domains = Ok updates → endpoints !! k = Some e →
  global_meta_update domains k e = Ok (updates !! k).
Proof.
  unfold build_global_vless_meta_updates. intros Hb Hk%elem_of_bt_items. pose proof (NoDup_bt_keys endpoints) as Hnd. unfold bt_keys in Hnd.
  set (f := λ out '(endpoint_id, endpoint), _) in Hb.
  assert (∀ l acc, NoDup l.*1 → (∀ x, x ∈ l.*1 → acc !! x = None) → try_fold f acc l = Ok updates →
          (∀ x, x ∉ l.*1 → updates !! x = acc !! x) ∧
          ∀ x e, (x, e) ∈ l → global_meta_update domains x e = Ok (updates !! x)) as Hall.
  2: { apply (Hall (bt_items endpoints) ∅); [done| |done|done]. intros x _. apply lookup_empty. }
  clear Hb Hk Hnd. induction l as [|[x ex] l IH]; intros acc Hnd Hfresh Hf; cbn in Hf.
  { injection Hf as <-. split; [done|]. by intros ? ? ?%not_elem_of_nil. }
  destruct_ok. csimpl in *. apply NoDup_cons in Hnd as [Hx Hnd].
  match goal with Hg : global_meta_update _ _ _ = Ok ?u |- _ => destruct u as [m|] end.
  - destruct (IH (<[x := m]> acc)) as [Hout Hin]; [done| |done|].
    { intros y Hy. rewrite lookup_insert_ne by (by intros ->). apply Hfresh. by right. }
    split.
    + intros y Hy. rewrite Hout by (intros ?; apply Hy; by right). apply lookup_insert_ne. intros ->. apply Hy. by left.
    + intros y ey [[= -> ->]|Hy]%elem_of_cons; [|by apply Hin]. rewrite Hout by done. by rewrite lookup_insert_eq.
  - destruct (IH acc) as [Hout Hin]; [done| |done|].
    { intros y Hy. apply Hfresh. by right. }
    split.
    + intros y Hy. apply Hout. intros ?. apply Hy. by right.
    + intros y ey [[= -> ->]|Hy]%elem_of_cons; [|by apply Hin]. rewrite Hout by done. rewrite Hfresh by by left. done.
Qed.

Lemma upsert_meta_follows st e meta :
  (if bool_decide (e_kind e = VlessRealityVisionTcp) then upsert_vless_meta st e else Ok (e_meta e)) = Ok meta →
  follows_domains (ps_reality_domains st) (e <| e_meta := meta |>).
Proof.
  intros Hu Hk. change (e_kind e = VlessRealityVisionTcp) in Hk. rewrite bool_decide_true in Hu by done.
  unfold upsert_vless_meta in Hu. destruct_ok. rename x0 into names.
  match goal with |- context [serialize_vless_meta_preserving_smux ?m ?h] => destruct (serialize_decodes m h) as (m' & Hm' & Hr & Hd) end.
  exists m'. split; [exact Hm'|]. rewrite Hr, Hd. cbn. intros Hg.
  match goal with Hn : upsert_server_names _ _ _ = Ok _ |- _ => unfold upsert_server_names in Hn; rewrite Hg in Hn; destruct_ok end.
  match goal with Hn : bool_decide (_ = []) = false |- _ => apply bool_decide_eq_false in Hn end.
  split_and!; [done..|]. intros Hmd.
  match goal with Hn : upsert_dest _ _ = Ok _ |- _ => unfold upsert_dest in Hn; cbn in Hn; rewrite Hg, Hmd in Hn; cbn in Hn; by injection Hn as <- end.
Qed.

(** Forgetting a deleted node does not change what the other nodes derive. *)
Lemma derive_without_node domains removed node_id :
  node_id ≠ removed →
  derive_global_reality_server_names ((λ d, d <| d_disabled_node_ids ::= λ ids, ids ∖ {[removed]} |>) <$> domains) node_id
  = derive_global_reality_server_names domains node_id.
Proof.
  intros Hne. unfold derive_global_reality_server_names. do 2 f_equal. induction domains as [|d domains IH]; [done|]. csimpl.
  destruct (decide (node_id ∈ d_disabled_node_ids d)) as [Hin|Hnin].
  - rewrite !filter_cons_False; [done|by intros ?|]. cbn. set_solver.
  - rewrite !filter_cons_True; [|done|cbn; set_solver]. csimpl. by rewrite IH.
Qed.

Lemma names_frame st st' : ps_endpoints st' = ps_endpoints st → ps_reality_domains st' = ps_reality_domains st → names_in_step st → names_in_step st'.
Proof. unfold names_in_step. by intros -> ->. Qed.

Lemma names_without_node st removed session : keyed_state st → names_in_step st → names_in_step (without_node removed session st).
Proof.
  intros Hkey Hn k e. pose proof (ks_endpoints _ Hkey) as Hke.
  assert (ps_endpoints (without_node removed session st) = delete_all (e_endpoint_id <$> endpoints_of st removed) (ps_endpoints st) ∧
          ps_reality_domains (without_node removed session st)
          = (λ d, d <| d_disabled_node_ids ::= λ ids, ids ∖ {[removed]} |>) <$> ps_reality_domains st) as [-> ->].
  { unfold without_node. rewrite delete_endpoints_of_eq. by destruct session. }
  rewrite lookup_delete_all. case_decide as Hin; [done|]. intros Hk.
  unfold follows_domains. rewrite derive_without_node; [by apply (Hn k)|].
  intros <-. apply Hin, list_elem_of_fmap. exists e. rewrite elem_of_endpoints_of. split; [symmetry; by apply Hke|]. split; [by exists k|done].
Qed.

Lemma names_step st command st' : state_inv st → names_in_step st → step st command st' → names_in_step st'.
Proof.
  intros Hinv Hn Hstep. destruct Hstep; try exact Hn; try (by apply (names_frame st)); try (by destruct session; apply (names_frame st)).
  - apply names_without_node; [apply Hinv|done].
  - destruct node as [node|]; destruct_and?; subst; [by destruct session; apply (names_frame st)|done].
  - intros k e. cbn. intros [[<- <-]|[_ Hk]]%lookup_insert_Some; [by apply upsert_meta_follows|by apply (Hn k)].
  - intros k e. cbn. intros [_ Hk]%lookup_delete_Some. by apply (Hn k).
  - intros k e (e0 & Hk & ->)%meta_updates_lookup. cbn. apply (global_meta_update_follows _ k).
    + intros Hkind. destruct (Hn k e0 Hk Hkind) as (m & ? & _). eauto.
    + by eapply build_updates_lookup.
  - unfold infer_user_kinds. by case_bool_decide; apply (names_frame st).
  - appended. by apply (names_frame st).
Qed.

(** C31: in every reachable state the metadata of each VLESS endpoint decodes, and each VLESS
    endpoint that follows the REALITY domains carries exactly the server names the domains
    give for its node, at least one, with the first of them as its destination unless it is
    a managed endpoint: whatever edits domains, nodes or endpoints keeps them in step. *)
Theorem reality_names_in_step (log : list DesiredStateCommand) (Hlog : Forall command_ok log) :
  names_in_step (replay PersistedState_empty log).
Proof.
  apply replay_ind; [|apply names_step|done]. intros k ? **. cbn in *. by rewrite lookup_empty in *.
Qed.

(** ** Planned assignments are accepted *)

Section Plan.
Context `{Hrw} (st : PersistedState) (candidates : list ReverseMeshCandidate) (revision : N).

Definition plan (targets : list string) : gmap string ReverseMeshAssignment :=
  assign_reverse_mesh_with_generation_floors candidates (ps_reverse_mesh_assignments st)
    (ps_reverse_mesh_generation_counters st) revision (ps_reverse_mesh_epoch st) targets.

Notation good := (good_assignment candidates (ps_reverse_mesh_assignments st) (ps_reverse_mesh_generation_counters st)
                    revision (ps_reverse_mesh_epoch st)).

(** Ids of nodes are not empty. *)
Definition known (id : string) : Prop := is_Some (ps_nodes st !! id) ∧ id ≠ "".

Lemma choice_known target id : Forall (λ c, known (rmc_node_id c)) candidates → id ∈ choices candidates target → known id ∧ id ≠ target.
Proof.
  intros Hc Hid. unfold choices in Hid. apply list_elem_of_filter in Hid as [Hne Hid]. split; [|done].
  apply elem_of_eligible_ids in Hid as (c & Hin & _ & <-). rewrite Forall_forall in Hc. by apply Hc.
Qed.

Lemma good_valid target a :
  Forall (λ c, known (rmc_node_id c)) candidates → known target → good target a →
  assignment_is_valid a = true ∧ assignment_nodes_ok st a = true.
Proof.
  intros Hc [Ht Ht'] [<- _ _ _ Hp Hs _ _]. apply choice_known in Hp as [[Hp Hp'] Hpt]; [|done].
  unfold assignment_is_valid, assignment_nodes_ok, str_is_empty. rewrite !andb_true_iff, !negb_true_iff, !bool_decide_eq_false, !contains_key_true.
  destruct (ra_standby_node_id a) as [s|]; [|by split_and!].
  destruct (Hs s eq_refl) as [[[Hk Hk'] Hst]%choice_known Hsp]; [|done].
  rewrite !andb_true_iff, !negb_true_iff, !bool_decide_eq_false, !contains_key_true. by split_and!.
Qed.

Lemma good_generation target a :
  mesh_ok st → generation_floor st target < u64_max → good target a →
  let floor := generation_floor st target in
  let current := ps_reverse_mesh_assignments st !! target in
  floor < ra_generation a ∨ (floor = ra_generation a ∧ ra_generation <$> current = Some (ra_generation a)).
Proof.
  intros Hm Hmax [_ _ _ Hg _ _ _ Hf]. destruct Hf as [(old & Hcur & _ & _ & _ & _ & Hgen)|[Hgen|[_ Hfloor]]].
  - right. pose proof (floor_current st target old Hm Hcur) as Hfl. destruct (ao_generation _ _ _ _ _ (Hm _ _ Hcur)) as [H1' _].
    cbv zeta. rewrite Hcur, Hfl. cbn. split; [lia|f_equal; lia].
  - left. lia.
  - left. unfold generation_floor in *. destruct (ps_reverse_mesh_generation_counters st !! target) as [floor|] eqn:Hc; cbn in *.
    + by apply Hfloor.
    + lia.
Qed.

Lemma no_mismatch current : generation_mismatch current (ra_generation <$> current) = false.
Proof. destruct current; cbn; [by rewrite bool_decide_true|done]. Qed.

(** C33: every assignment the planner proposes from the replicated state, with candidates and
    targets that are nodes of the cluster and a non-zero membership revision, is accepted by
    the command that stores it with the generation it replaces as the expected one, as long
    as the generation counter of its target is not exhausted. *)
Theorem planned_assignment_accepted (targets : list string) (target : string) (a : ReverseMeshAssignment)
    (Hinv : state_inv st) (Hcand : Forall (λ c, known (rmc_node_id c)) candidates) (Hrev : 1 ≤ revision)
    (Htarget : known target) (Hmax : generation_floor st target < u64_max) (Hplan : plan targets !! target = Some a) :
  let expected := ra_generation <$> ps_reverse_mesh_assignments st !! target in
  let '(st', r) := apply (UpsertReverseMeshAssignment a expected) st in
  r = Ok Applied ∧ ps_reverse_mesh_assignments st' !! target = Some a.
Proof.
  assert (good target a) as Hgood by (by eapply assign_reverse_mesh_good).
  destruct (good_valid target a Hcand Htarget Hgood) as [Hv Hn]. pose proof (good_generation target a (si_mesh _ Hinv) Hmax Hgood) as Hgen.
  destruct Hgood as [Ht Hr He Hg _ _ _ _]. cbv zeta. cbn [apply]. unfold apply_upsert_reverse_mesh_assignment.
  autorewrite with run. rewrite Hv, Hn, Hr, He, Ht. fold (generation_floor st target).
  rewrite !(proj2 (N.eqb_neq _ _)) by lia. rewrite N.eqb_refl, no_mismatch. cbn [negb orb].
  match goal with |- context [if ?c then _ else _] => replace c with false end; [split; [done|cbn; apply lookup_insert_eq]|].
  symmetry. apply orb_false_iff. destruct Hgen as [Hlt|[-> Hcur]].
  - split; [apply N.ltb_ge; lia|]. apply andb_false_iff. right. apply N.leb_gt. lia.
  - split; [apply N.ltb_ge; lia|]. apply andb_false_iff. left. apply fmap_Some in Hcur as (c & -> & ->). by rewrite N.eqb_refl.
Qed.
End Plan.
End Effects.

(** ** Instances *)

Module Samples.
Import History.Example.
#[local] Existing Instances serde_codec digits_clock no_urls no_notes.
#[local] Instance flat_hrw : Hrw := λ _ _ _, 0.

Definition user : User := mkUser "u" "User" "token" 0 P2 UserQuotaReset_default.
Definition domain (id name : string) : RealityDomain := mkRealityDomain id name ∅.
Definition vless : Endpoint :=
  mkEndpoint "v" "n1" "tv" VlessRealityVisionTcp 443
    (serde_vless_to_json (mkVlessMeta (mkRealityConfig "old.example.com:443" ["old.example.com"] Global "chrome")
       (mkRealityKeys "priv" "pub") ["aa"] "aa" None [] MihomoSmuxConfig_default VisionTcp false)).

(** A node with two endpoints, one of them following the domains, which then change. *)
Definition log : list DesiredStateCommand :=
  [UpsertNode (node "n1") None; UpsertNode (node "n2") None; UpsertUser user; UpsertEndpoint endpoint None;
   CreateRealityDomain (domain "d1" "a.example.com"); UpsertEndpoint vless None;
   CreateRealityDomain (domain "d2" "b.example.com"); DeleteRealityDomain "d1"].
Definition st : PersistedState := replay PersistedState_empty log.

Lemma st_inv : state_inv st.
Proof. apply state_inv_replay; [apply state_inv_empty|repeat constructor]. Defined.

Lemma replace_user_access_exact_witness :
  let '(st', r) := apply (ReplaceUserAccess "u" ["v"; "v"]) st in
  r = Ok (UserAccessReplaced 1 0) ∧ mkMembership "u" "n1" "v" ∈ ps_node_user_endpoint_memberships st'.
Proof.
  pose proof (replace_user_access_exact st "u" ["v"; "v"] st_inv) as Hexact.
  assert ((apply (ReplaceUserAccess "u" ["v"; "v"]) st).2 = Ok (UserAccessReplaced 1 0)) as Hr by (vm_compute; reflexivity).
  destruct (apply (ReplaceUserAccess "u" ["v"; "v"]) st) as [st' r]. cbn in Hr. subst r. split; [done|].
  destruct Hexact as (_ & _ & _ & Hm). apply Hm. right. split; [reflexivity|]. split; [left|].
  eexists. split; vm_compute; reflexivity.
Defined.

Lemma reality_names_in_step_witness :
  names_in_step st ∧
  (λ e, match vless_of_json (e_meta e) with Ok m => rc_server_names (vm_reality m) | Err _ => [] end) <$> ps_endpoints st !! "v"
  = Some ["b.example.com"].
Proof.
  unfold st. split; [apply (reality_names_in_step log); repeat constructor|]. vm_compute. reflexivity.
Defined.

Lemma planned_assignment_accepted_witness :
  let candidates := [candidate_example "n1"; candidate_example "n2"] in
  let a := mkReverseMeshAssignment "n1" 1 5 "n2" None 0 in
  plan st candidates 5 ["n1"; "n2"] !! "n1" = Some a ∧
  (apply (UpsertReverseMeshAssignment a None) st).2 = Ok Applied.
Proof.
  intros candidates a.
  assert (plan st candidates 5 ["n1"; "n2"] !! "n1" = Some a) as Hplan by (vm_compute; reflexivity). split; [done|].
  pose proof (planned_assignment_accepted st candidates 5 ["n1"; "n2"] "n1" a st_inv) as Hok.
  assert (known st "n1") as Hn1 by (split; [vm_compute; eexists; reflexivity|discriminate]).
  assert (known st "n2") as Hn2 by (split; [vm_compute; eexists; reflexivity|discriminate]).
  assert (Forall (λ c, known st (rmc_node_id c)) candidates) as Hc.
  { apply Forall_cons_2; [exact Hn1|]. apply Forall_cons_2; [exact Hn2|apply Forall_nil_2]. }
  specialize (Hok Hc ltac:(lia) Hn1 ltac:(vm_compute; reflexivity) Hplan).
  replace (ra_generation <$> ps_reverse_mesh_assignments st !! "n1") with (None (A := N)) in Hok by (vm_compute; reflexivity).
  cbv zeta in Hok. destruct (apply _ st) as [st' r]. exact (proj1 Hok).
Defined.
End Samples.
