(* ===== verification/RaftTypes.v ===== *)
(** * Raft types

    [src/raft/types.rs], and what the sources use of OpenRaft's: node metadata, log ids,
    entries, memberships, metrics, the responses of the state machine, and the Raft id of a
    node. *)

From S2P Require Import Prelude Text Domain Lifecycle State Command.
Open Scope string_scope.
Open Scope list_scope.
Open Scope N_scope.

Record NodeMeta : Type := mkNodeMeta { nm_name : string; nm_api_base_url : string; nm_raft_endpoint : string }.
Record LogId : Type := mkLogId { lid_term : N; lid_node_id : N; lid_index : N }.
(** [openraft::Membership] and [openraft::StoredMembership]. *)
Record Membership : Type := mkMembershipConfig { mb_joint_config : list (gset N); mb_nodes : gmap N NodeMeta }.
Record StoredMembership : Type := mkStoredMembership { sm_log_id : option LogId; sm_membership : Membership }.
Definition StoredMembership_default : StoredMembership := mkStoredMembership None (mkMembershipConfig [] ∅).

(** [openraft::Entry], for an application's commands; the log store does not look into them. *)
Inductive EntryPayload (C : Type) : Type :=
| Blank
| Normal (command : C)
| MembershipChange (membership : Membership).
#[global] Arguments Blank {C}.
#[global] Arguments Normal {C} command.
#[global] Arguments MembershipChange {C} membership.
Record RaftEntry (C : Type) : Type := mkEntry { en_log_id : LogId; en_payload : EntryPayload C }.
#[global] Arguments mkEntry {C}.
#[global] Arguments en_log_id {C}.
#[global] Arguments en_payload {C}.
Notation Entry := (RaftEntry DesiredStateCommand).

Inductive ServerState : Type := Learner | Follower | Candidate | Leader | Shutdown.
#[global] Instance ServerState_eq_dec : EqDecision ServerState.
Proof. solve_decision. Defined.
Record RaftMetrics : Type := mkRaftMetrics {
  rx_id : N;
  rx_state : ServerState;
  rx_current_leader : option N;
  rx_last_log_index : option N;
  rx_membership_config : StoredMembership;
}.

Definition voter_ids (m : StoredMembership) : gset N := ⋃ mb_joint_config (sm_membership m).
Definition get_node (m : StoredMembership) (id : N) : option NodeMeta := mb_nodes (sm_membership m) !! id.
Definition member_ids (m : StoredMembership) : gset N := dom (mb_nodes (sm_membership m)).

Inductive ClientResponse : Type :=
| RespOk (result : DesiredStateApplyResult)
| RespErr (status : N) (code message : string).

(** The Crockford base-32 reader of the [ulid] crate, as a 128-bit number. *)
Class UlidParser := ulid_from_string : string → result N string.

Definition raft_node_id_from_ulid `{UlidParser} (node_id : string) : result N string :=
  match ulid_from_string node_id with
  | Ok v => Ok (N.land v u64_max)
  | Err e => Err ("invalid ulid node_id=" +:+ node_id +:+ ": " +:+ e)
  end.
(** [.ok()] *)
Definition ok {A E} (r : result A E) : option A := match r with Ok a => Some a | Err _ => None end.
