(* ===== verification/Guard.v ===== *)
(** * The membership guard

    [src/raft_membership_guard.rs] and [src/raft_membership_cleanup.rs]: the audit that
    compares the Raft membership with the nodes of the replicated state, and the code that
    drives a recorded membership operation - removing a node, restoring one, repairing an
    orphan voter - through its phases, resuming after crashes and uncertain answers.

    The code talks to the outside through the facade of [src/raft/app.rs], the store, the
    clock and two local queues.  It is modelled as a program: a tree of calls, each with a
    continuation for every answer.  What the calls do is not part of the program; the
    theorems of [GuardCalls] quantify over the answers. *)

From S2P Require Import Prelude Text Domain Clock Lifecycle State Command RaftTypes.
Open Scope string_scope.
Open Scope list_scope.
Open Scope N_scope.

(** What the revision of a membership is computed from; serialising it and hashing the
    bytes is left to a parameter. *)
Record RevisionFields : Type := mkRevisionFields {
  rf_log_id : option LogId;
  rf_voters : gset N;
  rf_joint_configs : list (gset N);
  rf_nodes : list (N * NodeMeta);
}.
Class RevisionDigest := revision_digest : RevisionFields → result string string.

Definition id_le (a b : N * NodeMeta) : Prop := a.1 ≤ b.1.
#[global] Instance id_le_dec : RelDecision id_le.
Proof. intros a b. unfold id_le. apply _. Defined.

Definition membership_revision `{RevisionDigest} (metrics : RaftMetrics) : result string string :=
  let config := rx_membership_config metrics in
  revision_digest (mkRevisionFields (sm_log_id config) (voter_ids config) (mb_joint_config (sm_membership config))
                     (merge_sort id_le (map_to_list (mb_nodes (sm_membership config))))).

(** ** The audit *)

Record MembershipAudit : Type := mkMembershipAudit {
  orphan_voters : gset N;
  duplicate_desired_members : gset N;
  unexpected_learners : gset N;
  missing_desired_members : gset N;
}.
#[export] Instance MembershipAudit_eta : Eta MembershipAudit := λ r,
  mkMembershipAudit (orphan_voters r) (duplicate_desired_members r) (unexpected_learners r) (missing_desired_members r).

Definition is_clean (audit : MembershipAudit) : bool :=
  bool_decide (orphan_voters audit = ∅) && bool_decide (duplicate_desired_members audit = ∅)
  && bool_decide (unexpected_learners audit = ∅) && bool_decide (missing_desired_members audit = ∅).

Section Audit.
Context `{UlidParser}.

Definition raft_ids (st : PersistedState) : list N := omap (λ node_id, ok (raft_node_id_from_ulid node_id)) (bt_keys (ps_nodes st)).
Definition desired_nodes (st : PersistedState) : gset N := list_to_set (raft_ids st).
Definition desired_member_counts (st : PersistedState) : gmap N nat :=
  foldl (λ counts node_id, <[node_id := S (default 0%nat (counts !! node_id))]> counts) ∅ (raft_ids st).
Definition pending_join_nodes (st : PersistedState) : gset N :=
  list_to_set (omap (λ session, ok (raft_node_id_from_ulid (js_node_id session)))
    (filter (λ session, JoinSessionStatus_is_pending (js_status session) = true) (bt_values (ps_join_sessions st)))).

(** The learner the active operation accounts for. *)
Definition permitted_learner (st : PersistedState) : option N :=
  operation ← active_membership_operation st;
  let phase_allows_learner := match op_phase operation with Prepared | OpLearnerRegistered => true | _ => false end in
  match op_kind operation with
  | Join => if phase_allows_learner && bool_decide (op_raft_node_id operation ∈ pending_join_nodes st)
            then Some (op_raft_node_id operation) else None
  | Restore => if phase_allows_learner then Some (op_raft_node_id operation) else None
  | _ => None
  end.

(** Whether the active operation accounts for a desired node that is not a member. *)
Definition absence_excused (st : PersistedState) (node_id : N) : bool :=
  match active_membership_operation st with
  | None => false
  | Some operation =>
      bool_decide (op_raft_node_id operation = node_id)
      && match op_kind operation, op_phase operation with
         | (Join | Restore), Prepared => true
         | RemoveNode, MembershipRemoved => true
         | _, _ => false
         end
  end.

Definition audit (metrics : RaftMetrics) (st : PersistedState) : MembershipAudit :=
  let config := rx_membership_config metrics in
  let voters := voter_ids config in
  mkMembershipAudit
    (filter (λ node_id, node_id ∉ desired_nodes st) voters)
    (dom (filter (λ '(_, count), (1 < count)%nat) (desired_member_counts st)))
    (filter (λ node_id, node_id ∉ voters ∧ permitted_learner st ≠ Some node_id) (member_ids config))
    (filter (λ node_id, node_id ∉ member_ids config ∧ absence_excused st node_id = false) (desired_nodes st)).
End Audit.

(** [{:?}] of a set of numbers, and the error a failed audit is reported with. *)
Fixpoint join_comma (l : list string) : string :=
  match l with
  | [] => EmptyString
  | [x] => x
  | x :: l => x +:+ ", " +:+ join_comma l
  end.
Definition debug_set (s : gset N) : string := "{" +:+ join_comma (pretty <$> merge_sort N.le (elements s)) +:+ "}".
Definition membership_invariant_error (audit : MembershipAudit) : string :=
  "membership_invariant_violation: orphan_voters=" +:+ debug_set (orphan_voters audit)
  +:+ ", duplicate_desired_members=" +:+ debug_set (duplicate_desired_members audit)
  +:+ ", unexpected_learners=" +:+ debug_set (unexpected_learners audit)
  +:+ ", missing_desired_members=" +:+ debug_set (missing_desired_members audit).

(** ** Programs *)

Inductive call : Type :=
| Metrics
| EnsureLinearizable
| ClientWrite (command : DesiredStateCommand)
| AddLearner (node_id : N) (node : NodeMeta)
| WaitLearnerCaughtUp (node_id : N) (required_log_index : N) (timeout_seconds : N)
| AddVoters (node_ids : gset N)
| RemoveVoters (node_ids : gset N) (retain : bool)
| ReadState
| Now
| NewUuid
| LockGate
| TryLockGate
| RequestRemoveInbound (tag : string)
| ClearNodeHistory (node_id : string)
| QueueNodeHistoryCleanup (destination node_id : string)
| RequestFullReconcile.

Definition answer (c : call) : Type :=
  match c with
  | Metrics => RaftMetrics
  | ClientWrite _ => result ClientResponse string
  | EnsureLinearizable | AddLearner _ _ | WaitLearnerCaughtUp _ _ _ | AddVoters _ | RemoveVoters _ _ => result unit string
  | ReadState => PersistedState
  | Now => Z
  | NewUuid => string
  | TryLockGate => bool
  | LockGate | RequestRemoveInbound _ | ClearNodeHistory _ | QueueNodeHistoryCleanup _ _ | RequestFullReconcile => unit
  end.

Inductive prog (A : Type) : Type :=
| Ret (a : A)
| Call (c : call) (k : answer c → prog A).
Arguments Ret {A} a.
Arguments Call {A} c k.

Fixpoint prog_bind {A B} (p : prog A) (f : A → prog B) : prog B :=
  match p with
  | Ret a => f a
  | Call c k => Call c (λ r, prog_bind (k r) f)
  end.
#[global] Instance prog_ret : MRet prog := λ A a, Ret a.
#[global] Instance prog_mbind : MBind prog := λ A B f p, prog_bind p f.
Definition do_call (c : call) : prog (answer c) := Call c Ret.

(** [p?] *)
Definition try {A B} (p : prog (result A string)) (f : A → prog (result B string)) : prog (result B string) :=
  prog_bind p (λ r, match r with Ok a => f a | Err e => Ret (Err e) end).
Notation "x ←? p ; q" := (try p (λ x, q)) (at level 20, p at level 100, q at level 200) : xp_scope.
Definition bail {A} (message : string) : prog (result A string) := Ret (Err message).
Definition fine : prog (result unit string) := Ret (Ok tt).

Section Guard.
Context `{UlidParser} `{RevisionDigest} `{TimeFormat}.

Definition audit_membership : prog MembershipAudit :=
  metrics ← do_call Metrics;
  st ← do_call ReadState;
  mret (audit metrics st).

Definition require_clean_membership_for_write : prog (result unit string) :=
  _ ←? do_call EnsureLinearizable;
  found ← audit_membership;
  if is_clean found then fine else bail (membership_invariant_error found).

Definition require_clean_membership_for_remove_node : prog (result unit string) := require_clean_membership_for_write.

Definition require_clean_membership_for_restore_node (raft_node_id : N) : prog (result unit string) :=
  _ ←? do_call EnsureLinearizable;
  found ← audit_membership;
  let found := found <| missing_desired_members ::= λ ids, ids ∖ {[raft_node_id]} |> in
  if is_clean found then fine else bail (membership_invariant_error found).

(** ** Writing operations *)

Definition write_operation (command : DesiredStateCommand) : prog (result unit string) :=
  response ←? do_call (ClientWrite command);
  match response with
  | RespOk _ => fine
  | RespErr _ code message => bail ("membership operation state write rejected: " +:+ code +:+ ": " +:+ message)
  end.

Definition transition_operation (operation : MembershipOperation) (phase : MembershipOperationPhase) (evidence : string)
    : prog (result MembershipOperation string) :=
  metrics ← do_call Metrics;
  revision ←? Ret (membership_revision metrics);
  let operation := operation <| op_expected_membership := revision |> <| op_phase := phase |> <| op_evidence := Some evidence |> in
  operation ← (if is_terminal phase
               then now ← do_call Now; mret (operation <| op_terminal_at := Some (to_rfc3339 0 now) |>)
               else mret operation);
  _ ←? write_operation (TransitionMembershipOperation operation);
  Ret (Ok operation).

Definition block_membership_operation (operation : MembershipOperation) (evidence : string) : prog (result unit string) :=
  now ← do_call Now;
  write_operation (TransitionMembershipOperation
    (operation <| op_phase := Blocked |> <| op_terminal_at := Some (to_rfc3339 0 now) |> <| op_evidence := Some evidence |>)).

Definition require_expected_membership (operation : MembershipOperation) : prog (result RaftMetrics string) :=
  _ ←? do_call EnsureLinearizable;
  metrics ← do_call Metrics;
  current ←? Ret (membership_revision metrics);
  if negb (bool_decide (current = op_expected_membership operation))
  then bail ("membership revision changed for operation " +:+ op_operation_id operation)
  else Ret (Ok metrics).

(** [if let Err(error) = require_expected_membership(..) { block(..)?; return Ok(()) }] *)
Definition unless_moved (operation : MembershipOperation) (continue : RaftMetrics → prog (result unit string)) : prog (result unit string) :=
  checked ← require_expected_membership operation;
  match checked with
  | Ok metrics => continue metrics
  | Err error => block_membership_operation operation error
  end.

(** [let _ = transition_operation(..).await?; Ok(())] *)
Definition advance (operation : MembershipOperation) (phase : MembershipOperationPhase) (evidence : string) : prog (result unit string) :=
  _ ←? transition_operation operation phase evidence;
  fine.

Definition is_local_leader (metrics : RaftMetrics) : bool :=
  bool_decide (rx_state metrics = Leader) && bool_decide (rx_current_leader metrics = Some (rx_id metrics)).

Definition in_joint_consensus (metrics : RaftMetrics) : bool :=
  (1 <? length (mb_joint_config (sm_membership (rx_membership_config metrics))))%nat.

Definition is_voter (metrics : RaftMetrics) (node_id : N) : bool := bool_decide (node_id ∈ voter_ids (rx_membership_config metrics)).
Definition is_member (metrics : RaftMetrics) (node_id : N) : bool := bool_decide (is_Some (get_node (rx_membership_config metrics) node_id)).

(** The voters no desired node stands for. *)
Definition orphans (metrics : RaftMetrics) (st : PersistedState) : gset N :=
  filter (λ node_id, node_id ∉ desired_nodes st) (voter_ids (rx_membership_config metrics)).

(** ** Orphan voters *)

Definition validate_orphan_voter_repair (metrics : RaftMetrics) (raft_node_id : N) (expected_membership : option string)
    : prog (result unit string) :=
  if negb (is_local_leader metrics) then bail "orphan voter repair must run on the current local leader"
  else if in_joint_consensus metrics then bail "orphan voter repair is forbidden during joint consensus"
  else if rx_id metrics =? raft_node_id then bail "orphan voter repair cannot remove the current leader"
  else if negb (is_voter metrics raft_node_id) then bail "repair target is not a current voter"
  else
  _ ←? match expected_membership with
       | None => fine
       | Some expected =>
           revision ←? Ret (membership_revision metrics);
           if negb (bool_decide (revision = expected)) then bail "membership revision changed since dry-run" else fine
       end;
  st ← do_call ReadState;
  if bool_decide (is_Some (active_membership_operation st)) then bail "another membership operation is active"
  else if bool_decide (raft_node_id ∈ desired_nodes st) then bail "repair target is represented by desired state"
  else if negb (bool_decide (orphans metrics st = {[raft_node_id]})) then bail "repair target must be the unique orphan voter"
  else if bool_decide (raft_node_id ∈ pending_join_nodes st) then bail "repair target has a pending join session"
  else fine.

Definition preview_orphan_voter_repair (raft_node_id : N) : prog (result (N * string) string) :=
  _ ←? do_call EnsureLinearizable;
  metrics ← do_call Metrics;
  _ ←? validate_orphan_voter_repair metrics raft_node_id None;
  revision ←? Ret (membership_revision metrics);
  Ret (Ok (raft_node_id, revision)).

Definition repair_orphan_voter (raft_node_id : N) (expected_membership : string) : prog (result MembershipOperation string) :=
  _ ← do_call LockGate;
  _ ←? do_call EnsureLinearizable;
  metrics ← do_call Metrics;
  _ ←? validate_orphan_voter_repair metrics raft_node_id (Some expected_membership);
  operation_id ← do_call NewUuid;
  now ← do_call Now;
  let operation := mkMembershipOperation operation_id RepairOrphanVoter raft_node_id None expected_membership Prepared false false [] []
                     (to_rfc3339 0 now) None None (Some "manual orphan voter repair") in
  _ ←? write_operation (BeginMembershipOperation operation None None);
  checked ← require_expected_membership operation;
  match checked with
  | Err error =>
      _ ←? block_membership_operation operation error;
      bail "membership revision changed before orphan voter repair"
  | Ok _ =>
      _ ←? do_call (RemoveVoters {[raft_node_id]} false);
      after ← do_call Metrics;
      if is_member after raft_node_id then bail "orphan voter removal did not remove node from membership"
      else
      revision ←? Ret (membership_revision after);
      let removed := operation <| op_expected_membership := revision |> <| op_phase := MembershipRemoved |>
                               <| op_evidence := Some "orphan voter removed with RemoveVoters retain=false" |> in
      _ ←? write_operation (TransitionMembershipOperation removed);
      now ← do_call Now;
      let completed := removed <| op_phase := Completed |> <| op_terminal_at := Some (to_rfc3339 0 now) |>
                               <| op_evidence := Some "orphan voter repair completed" |> in
      _ ←? write_operation (TransitionMembershipOperation completed);
      Ret (Ok completed)
  end.

Definition resume_orphan_voter_repair_operation (operation : MembershipOperation) : prog (result unit string) :=
  let target := op_raft_node_id operation in
  metrics ← do_call Metrics;
  if negb (is_local_leader metrics) then fine
  else if in_joint_consensus metrics then block_membership_operation operation "orphan voter repair cannot resume during joint consensus"
  else if bool_decide (op_phase operation = MembershipRemoved)
  then advance operation Completed "orphan voter repair completed after recovery"
  else if negb (bool_decide (op_phase operation = Prepared))
  then block_membership_operation operation "orphan voter repair has an invalid resumable phase"
  else if rx_id metrics =? target
  then block_membership_operation operation "orphan voter repair target became the current leader"
  else
  st ← do_call ReadState;
  if bool_decide (target ∈ desired_nodes st) || bool_decide (target ∈ pending_join_nodes st)
  then block_membership_operation operation "orphan voter repair target gained desired-state ownership"
  else if negb (is_member metrics target) then
    operation ←? transition_operation operation MembershipRemoved "orphan voter absent after uncertain RemoveVoters request";
    advance operation Completed "orphan voter repair completed after uncertain request"
  else if negb (is_voter metrics target)
  then block_membership_operation operation "orphan voter repair target is an unexpected learner"
  else if negb (bool_decide (orphans metrics st = {[target]}))
  then block_membership_operation operation "orphan voter repair target is no longer the unique orphan voter"
  else
  unless_moved operation (λ _,
    _ ←? do_call (RemoveVoters {[target]} false);
    after ← do_call Metrics;
    if is_member after target then bail "orphan voter repair did not make target absent"
    else
    operation ←? transition_operation operation MembershipRemoved "orphan voter removed with RemoveVoters retain=false";
    advance operation Completed "orphan voter repair completed").

(** ** Restoring a node *)

Definition resume_restore_operation (operation : MembershipOperation) : prog (result unit string) :=
  let target := op_raft_node_id operation in
  match op_node_id operation with
  | None => bail "restore operation is missing node_id"
  | Some node_id =>
  st ← do_call ReadState;
  match ps_nodes st !! node_id with
  | None => bail "restore operation node is missing"
  | Some node =>
  metrics ← do_call Metrics;
  if negb (is_local_leader metrics) then fine
  else
  match op_phase operation with
  | Prepared =>
      if is_voter metrics target
      then block_membership_operation operation "restore target unexpectedly became voter before learner phase"
      else if is_member metrics target
      then advance operation OpLearnerRegistered "restore learner observed after uncertain request"
      else
      unless_moved operation (λ _,
        _ ←? do_call (AddLearner target (mkNodeMeta (n_node_name node) (n_api_base_url node) (n_api_base_url node)));
        after ← do_call Metrics;
        if negb (is_member after target) then fine
        else advance operation OpLearnerRegistered "restore learner registered")
  | OpLearnerRegistered =>
      if is_voter metrics target
      then advance operation VoterPromoted "restore voter observed after uncertain request"
      else if negb (is_member metrics target)
      then block_membership_operation operation "restore learner disappeared before promotion"
      else
      unless_moved operation (λ metrics,
        let required_log_index := default 0 (rx_last_log_index metrics) in
        caught_up ← do_call (WaitLearnerCaughtUp target required_log_index 30);
        match caught_up with
        | Err _ => fine
        | Ok _ =>
            _ ←? do_call (AddVoters {[target]});
            after ← do_call Metrics;
            if negb (is_voter after target) then fine
            else advance operation VoterPromoted "restore voter promoted"
        end)
  | VoterPromoted =>
      if negb (is_voter metrics target)
      then block_membership_operation operation "restore voter disappeared before completion"
      else advance operation Completed "restore completed"
  | _ => fine
  end
  end
  end.

(** ** Removing a node *)

Definition resume_remove_node_operation (operation : MembershipOperation) : prog (result unit string) :=
  let target := op_raft_node_id operation in
  match op_node_id operation with
  | None => bail "remove-node operation is missing node_id"
  | Some node_id =>
  match op_phase operation with
  | Prepared =>
      metrics ← do_call Metrics;
      if negb (is_member metrics target)
      then advance operation MembershipRemoved "target absent after uncertain remove-voters request"
      else if negb (is_voter metrics target)
      then block_membership_operation operation "delete target is learner; remove-voters cannot safely make it absent"
      else
      unless_moved operation (λ _,
        _ ←? do_call (RemoveVoters {[target]} false);
        after ← do_call Metrics;
        if is_member after target then bail "remove-node operation did not make target absent"
        else advance operation MembershipRemoved "target made absent from Raft membership")
  | MembershipRemoved =>
      st ← do_call ReadState;
      match ps_nodes st !! node_id with
      | None => fine
      | Some _ =>
      unless_moved operation (λ _,
        out ←? do_call (ClientWrite (DeleteNode node_id (op_delete_endpoints operation) (op_expected_endpoint_ids operation) None));
        match out with
        | RespOk (NodeDeleted _ _) => fine
        | RespOk _ => bail "remove-node operation received unexpected desired-state result"
        | RespErr _ code message =>
            block_membership_operation operation ("remove-node desired-state delete rejected: " +:+ code +:+ ": " +:+ message)
        end)
      end
  | _ => fine
  end
  end.

Definition HOUR_NANOS : Z := 3600 * 1000000000.

Definition prune_terminal_operations : prog (result unit string) :=
  st ← do_call ReadState;
  if negb (existsb (λ operation, is_terminal (op_phase operation)) (bt_values (ps_membership_operations st))) then fine
  else
  metrics ← do_call Metrics;
  if negb (is_local_leader metrics) then fine
  else
  _ ←? do_call EnsureLinearizable;
  now ← do_call Now;
  write_operation (PruneMembershipOperations (to_rfc3339 0 (now - 24 * HOUR_NANOS))).

Definition resume_membership_operations_once : prog (result unit string) :=
  free ← do_call TryLockGate;
  if negb free then fine
  else
  st ← do_call ReadState;
  match active_membership_operation st with
  | None => prune_terminal_operations
  | Some operation =>
      match op_kind operation with
      | Restore => resume_restore_operation operation
      | RepairOrphanVoter => resume_orphan_voter_repair_operation operation
      | RemoveNode => resume_remove_node_operation operation
      | Join => fine
      end
  end.

(** The local clean-up of a removal: sequential requests to two queues. *)
Fixpoint in_order (calls : list (prog unit)) : prog unit :=
  match calls with
  | [] => Ret tt
  | p :: calls => prog_bind p (λ _, in_order calls)
  end.

Definition finalize_remove_node_cleanup_once (local_raft_node_id : N) (local_node_id : string) : prog (result bool string) :=
  free ← do_call TryLockGate;
  if negb free then Ret (Ok false)
  else
  st ← do_call ReadState;
  match active_membership_operation st with
  | None => Ret (Ok false)
  | Some operation =>
      if negb (bool_decide (op_kind operation = RemoveNode)) || negb (bool_decide (op_phase operation = MembershipRemoved)) then Ret (Ok false)
      else
      match op_node_id operation with
      | None => bail "remove-node operation is missing node_id"
      | Some node_id =>
      st ← do_call ReadState;
      if bool_decide (is_Some (ps_nodes st !! node_id)) then Ret (Ok false)
      else
      metrics ← do_call Metrics;
      if negb (bool_decide (rx_current_leader metrics = Some local_raft_node_id)) then Ret (Ok false)
      else
      checked ← require_expected_membership operation;
      match checked with
      | Err error => _ ←? block_membership_operation operation error; Ret (Ok false)
      | Ok _ =>
          _ ← in_order ((λ tag, do_call (RequestRemoveInbound tag) : prog unit) <$> op_expected_endpoint_tags operation);
          _ ← do_call (ClearNodeHistory node_id);
          st ← do_call ReadState;
          _ ← in_order ((λ destination, do_call (QueueNodeHistoryCleanup (n_node_id destination) node_id) : prog unit) <$>
                filter (λ destination, n_node_id destination ≠ local_node_id ∧ n_node_id destination ≠ node_id) (bt_values (ps_nodes st)));
          _ ← do_call RequestFullReconcile;
          _ ←? transition_operation operation Completed "desired node deleted and cleanup requested";
          Ret (Ok true)
      end
      end
  end.

(** One round of the periodic task; its errors and the audit are logged. *)
Definition membership_voter_guard_round (local_raft_node_id : N) (local_node_id : string) : prog unit :=
  _ ← resume_membership_operations_once;
  _ ← finalize_remove_node_cleanup_once local_raft_node_id local_node_id;
  _ ← audit_membership;
  mret tt.
End Guard.

(** The commands a follower does not forward to the leader ([src/raft/app.rs]). *)
Definition lifecycle_command_requires_local_leader (command : DesiredStateCommand) : bool :=
  match command with
  | UpsertNode _ _ | DeleteNode _ _ _ _ | BeginMembershipOperation _ _ _ | TransitionMembershipOperation _ | PruneMembershipOperations _ => true
  | _ => false
  end.
