(* ===== verification/GuardCalls.v ===== *)
(** * What the membership guard may do

    Whatever the outside answers - stale metrics, lost responses, another leader - a round
    of the guard changes the Raft membership only for the operation recorded in the
    replicated state, and only right after it confirmed the quorum and the membership
    revision the operation expects.  Histories are the calls made so far with their
    answers; nothing is assumed of the answers. *)

From S2P Require Import Prelude Text Domain Clock Lifecycle State Command RaftTypes Guard.
Open Scope string_scope.
Open Scope list_scope.
Open Scope N_scope.

Definition event : Type := {c : call & answer c}.
Definition ev (c : call) (r : answer c) : event := existT c r.

(** After the history [h] the program makes the call [c]. *)
Inductive issues {A} : prog A → list event → call → Prop :=
| issues_now c k : issues (Call c k) [] c
| issues_later c k r h c' : issues (k r) h c' → issues (Call c k) (ev c r :: h) c'.

(** Every call of a program is allowed by [Q], whatever the answers, and the program ends
    in [post]. *)
Fixpoint calls_ok {A} (Q : list event → call → Prop) (h : list event) (p : prog A) (post : list event → A → Prop) : Prop :=
  match p with
  | Ret a => post h a
  | Call c k => Q h c ∧ ∀ r, calls_ok Q (h ++ [ev c r]) (k r) post
  end.

Lemma calls_ok_issues {A} (Q : list event → call → Prop) (p : prog A) post h0 h c :
  calls_ok Q h0 p post → issues p h c → Q (h0 ++ h) c.
Proof.
  intros Hok Hi. revert h0 Hok. induction Hi as [c k|c k r h c' Hi IH]; intros h0 [Hq Hk].
  - by rewrite app_nil_r.
  - specialize (IH _ (Hk r)). by rewrite <-app_assoc in IH.
Qed.

Lemma calls_ok_mono {A} Q (p : prog A) h (post post' : list event → A → Prop) :
  (∀ h' a, post h' a → post' h' a) → calls_ok Q h p post → calls_ok Q h p post'.
Proof. intros Hpost. revert h; induction p as [a|c k IH]; intros h; cbn; [apply Hpost|]. intros [Hq Hk]. eauto. Qed.

Lemma calls_ok_bind {A B} Q (p : prog A) (f : A → prog B) h post :
  calls_ok Q h p (λ h' a, calls_ok Q h' (f a) post) → calls_ok Q h (prog_bind p f) post.
Proof. revert h; induction p as [a|c k IH]; intros h; cbn; [done|]. intros [Hq Hk]. eauto. Qed.

(** ** The rules *)

Definition is_change (c : call) : bool := match c with AddLearner _ _ | AddVoters _ | RemoveVoters _ _ => true | _ => false end.

Section Rules.
Context `{UlidParser} `{RevisionDigest} `{TimeFormat}.

(** The operation the replicated state had as the active one when it was read. *)
Definition acting_on (h : list event) (op : MembershipOperation) : Prop :=
  ∃ st, ev ReadState st ∈ h ∧ active_membership_operation st = Some op.
Definition observed (h : list event) (m : RaftMetrics) : Prop := ev Metrics m ∈ h.

(** The last things done were to confirm the quorum and to find the expected revision. *)
Definition confirmed (h : list event) (op : MembershipOperation) : Prop :=
  ∃ h0 m, h = h0 ++ [ev EnsureLinearizable (Ok tt); ev Metrics m] ∧ membership_revision m = Ok (op_expected_membership op).

(** ... and, before a promotion, to wait for the learner to reach the log of that moment. *)
Definition confirmed_caught_up (h : list event) (op : MembershipOperation) : Prop :=
  ∃ h0 m, h = h0 ++ [ev EnsureLinearizable (Ok tt); ev Metrics m;
                     ev (WaitLearnerCaughtUp (op_raft_node_id op) (default 0 (rx_last_log_index m)) 30) (Ok tt)] ∧
          membership_revision m = Ok (op_expected_membership op).

Definition removal_allowed (h : list event) (op : MembershipOperation) : Prop :=
  (∃ m, observed h m ∧ is_voter m (op_raft_node_id op) = true) ∧
  (op_kind op = RemoveNode ∨
   (op_kind op = RepairOrphanVoter ∧
    ∃ m st, observed h m ∧ ev ReadState st ∈ h ∧ is_local_leader m = true ∧ in_joint_consensus m = false ∧
            rx_id m ≠ op_raft_node_id op ∧ op_raft_node_id op ∉ pending_join_nodes st ∧ orphans m st = {[op_raft_node_id op]})).

Definition write_allowed (h : list event) (command : DesiredStateCommand) : Prop :=
  match command with
  | TransitionMembershipOperation op' => ∃ op, acting_on h op ∧ operation_identity op' = operation_identity op
  | DeleteNode node_id delete_endpoints expected session =>
      ∃ op, acting_on h op ∧ op_kind op = RemoveNode ∧ op_phase op = MembershipRemoved ∧ op_node_id op = Some node_id ∧
            delete_endpoints = op_delete_endpoints op ∧ expected = op_expected_endpoint_ids op ∧ session = None ∧ confirmed h op
  | PruneMembershipOperations _ => ∃ st, ev ReadState st ∈ h ∧ active_membership_operation st = None
  | _ => False
  end.

Definition allowed (h : list event) (c : call) : Prop :=
  (is_change c = true → Forall (λ e, is_change (projT1 e) = false) h) ∧
  match c with
  | RemoveVoters ids retain =>
      ∃ op, acting_on h op ∧ op_phase op = Prepared ∧ ids = {[op_raft_node_id op]} ∧ retain = false ∧ confirmed h op ∧ removal_allowed h op
  | AddLearner id _ =>
      ∃ op, acting_on h op ∧ op_kind op = Restore ∧ op_phase op = Prepared ∧ id = op_raft_node_id op ∧ confirmed h op ∧
            ∃ m, observed h m ∧ is_local_leader m = true ∧ is_member m (op_raft_node_id op) = false
  | AddVoters ids =>
      ∃ op, acting_on h op ∧ op_kind op = Restore ∧ op_phase op = OpLearnerRegistered ∧ ids = {[op_raft_node_id op]} ∧ confirmed_caught_up h op ∧
            ∃ m, observed h m ∧ is_local_leader m = true ∧ is_member m (op_raft_node_id op) = true
  | ClientWrite command => write_allowed h command
  | _ => True
  end.
End Rules.

(** ** The guard keeps them *)

(** Calls that never need permission. *)
Definition is_quiet (c : call) : bool := match c with ClientWrite _ => false | _ => negb (is_change c) end.

Definition ext (h h' : list event) : Prop := ∃ l, h' = h ++ l ∧ Forall (λ e, is_change (projT1 e) = false) l.
#[local] Instance ext_refl : Reflexive ext.
Proof. intros h. exists []. by rewrite app_nil_r. Qed.
#[local] Instance ext_trans : Transitive ext.
Proof. intros h1 h2 h3 (l & -> & Hl) (l' & -> & Hl'). exists (l ++ l'). rewrite app_assoc. split; [done|]. by apply Forall_app. Qed.

Lemma ext_snoc h c r : is_change c = false → ext h (h ++ [ev c r]).
Proof. intros Hc. exists [ev c r]. split; [done|]. by constructor. Qed.

Lemma ext_elem h h' e : ext h h' → e ∈ h → e ∈ h'.
Proof. intros (l & -> & _) He. apply elem_of_app. by left. Qed.

Section Facts.
Context `{UlidParser} `{RevisionDigest} `{TimeFormat}.
Implicit Types (h : list event) (op : MembershipOperation).

Lemma quiet_allowed h c : is_quiet c = true → allowed h c.
Proof. intros Hq. split; [by destruct c|]. by destruct c. Qed.

Lemma do_call_ok {A} h c (k : answer c → prog A) post :
  is_quiet c = true → (∀ r, calls_ok allowed (h ++ [ev c r]) (k r) post) → calls_ok allowed h (prog_bind (do_call c) k) post.
Proof. intros Hq Hk. split; [by apply quiet_allowed|done]. Qed.

Lemma acting_on_ext h h' op : ext h h' → acting_on h op → acting_on h' op.
Proof. intros He (st & Hin & Hst). exists st. split; [by eapply ext_elem|done]. Qed.

Lemma write_ok h command :
  write_allowed h command → calls_ok allowed h (write_operation command) (λ h' _, ext h h').
Proof.
  intros Hw. split; [by split|]. intros r. cbn. destruct r as [[res|status code message]|e]; cbn; by apply ext_snoc.
Qed.

Lemma block_ok h op0 op evidence :
  acting_on h op0 → operation_identity op = operation_identity op0 →
  calls_ok allowed h (block_membership_operation op evidence) (λ h' _, ext h h').
Proof.
  intros Ha Hid. apply do_call_ok; [done|]. intros now. eapply calls_ok_mono; [|apply write_ok].
  - intros h' a He. etrans; [by apply (ext_snoc h Now now)|done].
  - exists op0. split; [by eapply acting_on_ext; [by apply (ext_snoc h Now now)|]|done].
Qed.

Lemma transition_ok h op0 op phase evidence :
  acting_on h op0 → operation_identity op = operation_identity op0 →
  calls_ok allowed h (transition_operation op phase evidence)
    (λ h' r, ext h h' ∧ ∀ op', r = Ok op' → operation_identity op' = operation_identity op0).
Proof.
  intros Ha Hid. apply do_call_ok; [done|]. intros m. unfold try. cbn [prog_bind].
  pose proof (ext_snoc h Metrics m eq_refl) as Hm. destruct (membership_revision m) as [revision|e]; [|by split].
  destruct (is_terminal phase); cbn [prog_bind mbind prog_mbind mret prog_ret].
  - apply do_call_ok; [done|]. intros now. pose proof (ext_snoc (h ++ [ev Metrics m]) Now now eq_refl) as Hn.
    cbn [prog_bind mret prog_ret]. apply calls_ok_bind. eapply calls_ok_mono; [|apply write_ok].
    + intros h' [[]|e] He; cbn; (split; [by do 2 (etrans; [done|])|]); [by intros op' [= <-]|done].
    + exists op0. split; [by eapply acting_on_ext; [|eapply acting_on_ext]|done].
  - apply calls_ok_bind. eapply calls_ok_mono; [|apply write_ok].
    + intros h' [[]|e] He; cbn; (split; [by etrans|]); [by intros op' [= <-]|done].
    + exists op0. split; [by eapply acting_on_ext|done].
Qed.

Lemma advance_calls_ok h op0 op phase evidence :
  acting_on h op0 → operation_identity op = operation_identity op0 →
  calls_ok allowed h (advance op phase evidence) (λ h' _, ext h h').
Proof.
  intros Ha Hid. apply calls_ok_bind. eapply calls_ok_mono; [|by apply (transition_ok h op0)].
  intros h' [op'|e] [He _]; done.
Qed.

Lemma require_ok h op post :
  (∀ m, membership_revision m = Ok (op_expected_membership op) → post (h ++ [ev EnsureLinearizable (Ok tt); ev Metrics m]) (Ok m)) →
  (∀ h' e, ext h h' → post h' (Err e)) →
  calls_ok allowed h (require_expected_membership op) post.
Proof.
  intros Hok Herr. split; [by apply quiet_allowed|]. intros [[]|e]; cbn; [|by apply Herr, ext_snoc].
  split; [by apply quiet_allowed|]. intros m. rewrite <-app_assoc. cbn.
  assert (ext h (h ++ [ev EnsureLinearizable (Ok tt); ev Metrics m])) as He by (eexists; split; [done|]; by repeat constructor).
  destruct (membership_revision m) as [revision|e] eqn:Hrev; cbn; [|by apply Herr].
  destruct (bool_decide (revision = op_expected_membership op)) eqn:Heq; cbn; [|by apply Herr].
  apply bool_decide_eq_true in Heq. subst. by apply Hok.
Qed.

(** The shape every step of the guard has: check the revision, or block the operation. *)
Lemma unless_moved_ok h op k :
  acting_on h op →
  (∀ m, membership_revision m = Ok (op_expected_membership op) →
        calls_ok allowed (h ++ [ev EnsureLinearizable (Ok tt); ev Metrics m]) (k m) (λ _ _, True)) →
  calls_ok allowed h (unless_moved op k) (λ _ _, True).
Proof.
  intros Ha Hk. apply calls_ok_bind. apply require_ok.
  - exact Hk.
  - intros h' e He. eapply calls_ok_mono; [|by eapply (block_ok h' op); [by eapply acting_on_ext|]]. done.
Qed.

#[local] Arguments advance : simpl never.
#[local] Arguments block_membership_operation : simpl never.
#[local] Arguments transition_operation : simpl never.

(** No change of the membership was asked for yet. *)
Definition no_change (h : list event) : Prop := Forall (λ e, is_change (projT1 e) = false) h.
Lemma no_change_ext h h' : ext h h' → no_change h → no_change h'.
Proof. intros (l & -> & Hl) Hh. by apply Forall_app. Qed.
Lemma no_change_confirmed h m : no_change h → no_change (h ++ [ev EnsureLinearizable (Ok tt); ev Metrics m]).
Proof. intros Hh. apply Forall_app. split; [done|]. by repeat constructor. Qed.

(** What is known once the revision was confirmed. *)
Ltac confirmed_facts :=
  repeat match goal with
  | H : ?e ∈ ?h |- ?e ∈ ?h ++ _ => apply elem_of_app; left; exact H
  | |- ?e ∈ ?h ++ [?e] => apply elem_of_app; right; apply list_elem_of_singleton; reflexivity
  | |- ?e ∈ (?h ++ _) ++ _ => apply elem_of_app; left
  end.

Lemma acting_on_app h l op : acting_on h op → acting_on (h ++ l) op.
Proof. intros (st & Hin & Hst). exists st. split; [apply elem_of_app; by left|done]. Qed.

Lemma advance_true h op phase evidence : acting_on h op → calls_ok allowed h (advance op phase evidence) (λ _ _, True).
Proof. intros Ha. eapply calls_ok_mono; [|by apply (advance_calls_ok h op)]. done. Qed.
Lemma block_true h op evidence : acting_on h op → calls_ok allowed h (block_membership_operation op evidence) (λ _ _, True).
Proof. intros Ha. eapply calls_ok_mono; [|by apply (block_ok h op)]. done. Qed.

(** Recording the removal and completing it at once. *)
Lemma removed_and_completed h op phase evidence phase' evidence' :
  acting_on h op →
  calls_ok allowed h (operation ←? transition_operation op phase evidence; advance operation phase' evidence') (λ _ _, True).
Proof.
  intros Ha. apply calls_ok_bind. eapply calls_ok_mono; [|by apply (transition_ok h op)].
  intros h' [op'|e] [He Hid]; [|done]. eapply calls_ok_mono; [|apply (advance_calls_ok h' op); [by eapply acting_on_ext|by apply Hid]]. done.
Qed.

Lemma resume_remove_ok h op :
  no_change h → acting_on h op → op_kind op = RemoveNode → calls_ok allowed h (resume_remove_node_operation op) (λ _ _, True).
Proof.
  intros Hn Ha Hkind. unfold resume_remove_node_operation. destruct (op_node_id op) as [node_id|] eqn:Hnode; [|done].
  destruct (op_phase op) eqn:Hphase; try done.
  - apply do_call_ok; [done|]. intros m. set (h1 := h ++ [ev Metrics m]).
    assert (acting_on h1 op) as Ha1 by (by apply acting_on_app).
    destruct (negb (is_member m _)); [by apply advance_true|]. destruct (is_voter m (op_raft_node_id op)) eqn:Hvoter; cbn [negb]; [|by apply block_true].
    apply unless_moved_ok; [done|]. intros m1 Hrev. set (h2 := h1 ++ _). assert (confirmed h2 op) as Hconf by (by exists h1, m1). assert (acting_on h2 op) as Ha2 by (by apply acting_on_app). split.
    { split; [intros _; apply no_change_confirmed, (no_change_ext h); [by apply ext_snoc|done]|]. exists op. split_and!; try done.
      split; [|by left]. exists m. split; [|done]. unfold observed, h2, h1. confirmed_facts. }
    intros [[]|e]; cbn; [|done]. split; [by apply quiet_allowed|]. intros m2.
    destruct (is_member m2 _); [done|]. apply advance_true. by do 2 apply acting_on_app.
  - apply do_call_ok; [done|]. intros st. set (h1 := h ++ _). assert (acting_on h1 op) as Ha1 by (by apply acting_on_app).
    destruct (ps_nodes st !! node_id); [|done].
    apply unless_moved_ok; [done|]. intros m1 Hrev. set (h2 := h1 ++ _). assert (confirmed h2 op) as Hconf by (by exists h1, m1). assert (acting_on h2 op) as Ha2 by (by apply acting_on_app). split.
    { split; [done|]. exists op. split_and!; done. }
    intros [[[]|status code message]|e]; cbn; try done. by apply block_true, acting_on_app.
Qed.

Lemma resume_restore_ok h op :
  no_change h → acting_on h op → op_kind op = Restore → calls_ok allowed h (resume_restore_operation op) (λ _ _, True).
Proof.
  intros Hn Ha Hkind. unfold resume_restore_operation. destruct (op_node_id op) as [node_id|] eqn:Hnode; [|done].
  apply do_call_ok; [done|]. intros st. destruct (ps_nodes st !! node_id) as [node|]; [|done]. set (h0 := h ++ _).
  apply do_call_ok; [done|]. intros m. set (h1 := h0 ++ _).
  assert (acting_on h1 op) as Ha1 by (by do 2 apply acting_on_app).
  assert (no_change h1) as Hn1 by (do 2 (eapply no_change_ext; [by apply ext_snoc|]); done).
  destruct (is_local_leader m) eqn:Hlead; cbn [negb]; [|done]. destruct (op_phase op) eqn:Hphase; try done.
  - destruct (is_voter m _); [by apply block_true|]. destruct (is_member m (op_raft_node_id op)) eqn:Hmem; [by apply advance_true|].
    apply unless_moved_ok; [done|]. intros m1 Hrev. set (h2 := h1 ++ _). assert (confirmed h2 op) as Hconf by (by exists h1, m1). split.
    { split; [intros _; by apply no_change_confirmed|]. exists op. split_and!; try done; [by apply acting_on_app|].
      exists m. split; [|done]. unfold observed, h2, h1. confirmed_facts. }
    intros [[]|e]; cbn; [|done]. split; [by apply quiet_allowed|]. intros m2.
    destruct (negb (is_member m2 _)); [done|]. apply advance_true. by do 3 apply acting_on_app.
  - destruct (is_voter m _); [by apply advance_true|]. destruct (is_member m (op_raft_node_id op)) eqn:Hmem; cbn [negb]; [|by apply block_true].
    apply unless_moved_ok; [done|]. intros m1 Hrev. apply do_call_ok; [done|]. intros [[]|e]; [|done].
    set (h2 := (h1 ++ _) ++ _). assert (acting_on h2 op) as Ha2 by (by do 2 apply acting_on_app). split.
    { split; [intros _; eapply no_change_ext; [by apply ext_snoc|]; by apply no_change_confirmed|]. exists op. split_and!; try done.
      - exists h1, m1. unfold h2. by rewrite <-app_assoc.
      - exists m. split; [|done]. unfold observed, h2, h1. confirmed_facts. }
    intros [[]|e]; cbn; [|done]. split; [by apply quiet_allowed|]. intros m2.
    destruct (negb (is_voter m2 _)); [done|]. apply advance_true. by do 2 apply acting_on_app.
  - destruct (negb (is_voter m _)); [by apply block_true|]. by apply advance_true.
Qed.

Lemma resume_orphan_ok h op :
  no_change h → acting_on h op → op_kind op = RepairOrphanVoter → calls_ok allowed h (resume_orphan_voter_repair_operation op) (λ _ _, True).
Proof.
  intros Hn Ha Hkind. unfold resume_orphan_voter_repair_operation. apply do_call_ok; [done|]. intros m. set (h0 := h ++ _).
  assert (acting_on h0 op) as Ha0 by (by apply acting_on_app).
  destruct (is_local_leader m) eqn:Hlead; cbn [negb]; [|done]. destruct (in_joint_consensus m) eqn:Hjoint; [by apply block_true|].
  case_bool_decide; [by apply advance_true|]. case_bool_decide as Hphase; cbn [negb]; [|by apply block_true].
  destruct (N.eqb_spec (rx_id m) (op_raft_node_id op)) as [|Hid]; [by apply block_true|].
  apply do_call_ok; [done|]. intros st. set (h1 := h0 ++ _). assert (acting_on h1 op) as Ha1 by (by apply acting_on_app).
  assert (no_change h1) as Hn1 by (do 2 (eapply no_change_ext; [by apply ext_snoc|]); done).
  destruct (_ || _) eqn:Hown; [by apply block_true|]. apply orb_false_iff in Hown as [_ Hpend%bool_decide_eq_false].
  destruct (negb (is_member m _)); [by apply removed_and_completed|].
  destruct (is_voter m (op_raft_node_id op)) eqn:Hvoter; cbn [negb]; [|by apply block_true].
  case_bool_decide as Horph; cbn [negb]; [|by apply block_true].
  apply unless_moved_ok; [done|]. intros m1 Hrev. set (h2 := h1 ++ _). assert (confirmed h2 op) as Hconf by (by exists h1, m1). split.
  { split; [intros _; by apply no_change_confirmed|]. exists op.
    assert (observed h2 m) as Hobs by (unfold observed, h2, h1, h0; confirmed_facts).
    split_and!; try done; [by apply acting_on_app|]. split; [by exists m|]. right. split; [done|]. exists m, st. split_and!; try done.
    unfold h2, h1. confirmed_facts. }
  intros [[]|e]; cbn; [|done]. split; [by apply quiet_allowed|]. intros m2.
  destruct (is_member m2 _); [done|]. apply removed_and_completed. by do 3 apply acting_on_app.
Qed.

Lemma prune_ok h st : ev ReadState st ∈ h → active_membership_operation st = None → calls_ok allowed h prune_terminal_operations (λ _ _, True).
Proof.
  intros Hin Hst. apply do_call_ok; [done|]. intros st'. destruct (negb _); [done|]. apply do_call_ok; [done|]. intros m.
  destruct (negb _); [done|]. split; [by apply quiet_allowed|]. intros [[]|e]; [|done].
  split; [by apply quiet_allowed|]. intros now. eapply calls_ok_mono; [|apply write_ok]; [done|]. exists st. split; [|done]. confirmed_facts.
Qed.

Lemma resume_ok h : no_change h → calls_ok allowed h resume_membership_operations_once (λ _ _, True).
Proof.
  intros Hn. apply do_call_ok; [done|]. intros [|]; [|done]. cbn [negb]. apply do_call_ok; [done|]. intros st. set (h1 := _ ++ [ev ReadState st]).
  assert (no_change h1) as Hn1 by (do 2 (eapply no_change_ext; [by apply ext_snoc|]); done).
  assert (ev ReadState st ∈ h1) as Hin by (unfold h1; confirmed_facts).
  destruct (active_membership_operation st) as [op|] eqn:Hst; [|by eapply prune_ok].
  assert (acting_on h1 op) as Ha by (by exists st).
  destruct (op_kind op) eqn:Hkind; [done|by apply resume_restore_ok|by apply resume_remove_ok|by apply resume_orphan_ok].
Qed.

Lemma in_order_ok h (calls : list (prog unit)) :
  Forall (λ p, ∀ h, calls_ok allowed h p (λ h' _, ext h h')) calls → calls_ok allowed h (in_order calls) (λ h' _, ext h h').
Proof.
  intros Hall. revert h; induction Hall as [|p calls Hp _ IH]; intros h; [by apply ext_refl|]. apply calls_ok_bind.
  eapply calls_ok_mono; [|apply Hp]. intros h' [] He. eapply calls_ok_mono; [|apply IH]. intros h2 [] He2. by etrans.
Qed.

Lemma finalize_ok h local local_id : calls_ok allowed h (finalize_remove_node_cleanup_once local local_id) (λ _ _, True).
Proof.
  apply do_call_ok; [done|]. intros [|]; [|done]. cbn [negb]. apply do_call_ok; [done|]. intros st. set (h1 := _ ++ [ev ReadState st]).
  destruct (active_membership_operation st) as [op|] eqn:Hst; [|done].
  assert (acting_on h1 op) as Ha by (exists st; split; [unfold h1; confirmed_facts|done]).
  destruct (_ || _); [done|]. destruct (op_node_id op) as [node_id|]; [|done]. apply do_call_ok; [done|]. intros st'.
  case_bool_decide; [done|]. apply do_call_ok; [done|]. intros m. destruct (negb _); [done|]. set (h2 := (h1 ++ _) ++ _).
  assert (acting_on h2 op) as Ha2 by (by do 2 apply acting_on_app). apply calls_ok_bind, require_ok.
  - intros m1 Hrev. set (h3 := h2 ++ _). assert (acting_on h3 op) as Ha3 by (by apply acting_on_app). apply calls_ok_bind.
    eapply calls_ok_mono; [|apply in_order_ok].
    2: { apply Forall_fmap, Forall_true. intros tag h'. split; [by apply quiet_allowed|]. intros []. by apply ext_snoc. }
    intros h4 [] H4. apply do_call_ok; [done|]. intros []. apply do_call_ok; [done|]. intros st2. apply calls_ok_bind.
    eapply calls_ok_mono; [|apply in_order_ok].
    2: { apply Forall_fmap, Forall_true. intros d h'. split; [by apply quiet_allowed|]. intros []. by apply ext_snoc. }
    intros h5 [] H5. apply do_call_ok; [done|]. intros []. apply calls_ok_bind.
    eapply calls_ok_mono; [|apply (transition_ok _ op); [|done]].
    + intros h' [op'|e] _; done.
    + apply acting_on_app. eapply acting_on_ext; [exact H5|]. do 2 apply acting_on_app. by eapply acting_on_ext.
  - intros h' e He. apply calls_ok_bind. eapply calls_ok_mono; [|apply (block_ok h' op); [by eapply acting_on_ext|done]].
    intros h'' [[]|e'] _; done.
Qed.

Lemma round_ok local local_id : calls_ok allowed [] (membership_voter_guard_round local local_id) (λ _ _, True).
Proof.
  apply calls_ok_bind. eapply calls_ok_mono; [|apply resume_ok; constructor]. intros h r _. apply calls_ok_bind.
  eapply calls_ok_mono; [|apply finalize_ok]. intros h' r' _. apply do_call_ok; [done|]. intros m. apply do_call_ok; [done|]. done.
Qed.

(** C9: whatever the outside answers, a round of the membership guard only carries out the
    operation recorded in the replicated state.  It asks for at most one change of the
    Raft membership; it removes a voter only if a removal or an orphan repair of exactly
    that voter is the active operation, still prepared, and after the quorum and the
    operation's membership revision were confirmed by the last two calls; an orphan
    repair in addition runs on the leader, never removes it, and only removes the one
    voter without a desired node.  Learners are added, and promoted after they caught up,
    only for the active restore.  Every command it writes belongs to the active operation
    (or prunes ended ones while none is active), and none of them is forwarded to another
    leader. *)
Theorem guard_only_acts_on_record local_raft_node_id local_node_id h c :
  issues (membership_voter_guard_round local_raft_node_id local_node_id) h c →
  allowed h c ∧ (∀ command, c = ClientWrite command → lifecycle_command_requires_local_leader command = true).
Proof.
  intros Hi. pose proof (calls_ok_issues _ _ _ [] _ _ (round_ok local_raft_node_id local_node_id) Hi) as Hall. cbn [app] in Hall.
  split; [done|]. intros command ->. destruct Hall as [_ Hw]. by destruct command.
Qed.
End Facts.

(** ** Example *)

Module GuardSample.
#[local] Instance ulids : UlidParser := λ s, match parse_u64 s with Some v => Ok v | None => Err "not a number" end.
#[local] Instance digest : RevisionDigest := λ fields, Ok (pretty (size (rf_voters fields))).
#[local] Existing Instance nanos_writer.

Definition removal : MembershipOperation :=
  mkMembershipOperation "op1" RemoveNode 2 (Some "2") "2" Prepared false false [] [] "0" None None None.
Definition recorded : PersistedState := PersistedState_empty <| ps_membership_operations := {["op1" := removal]} |>.
Definition meta (name : string) : NodeMeta := mkNodeMeta name EmptyString EmptyString.
Definition two_voters : RaftMetrics :=
  mkRaftMetrics 1 Leader (Some 1) (Some 5)
    (mkStoredMembership None (mkMembershipConfig [{[1; 2]}] {[1 := meta "a"; 2 := meta "b"]})).

Definition answers : list event :=
  [ev TryLockGate true; ev ReadState recorded; ev Metrics two_voters; ev EnsureLinearizable (Ok tt); ev Metrics two_voters].

Lemma guard_only_acts_on_record_witness :
  issues (membership_voter_guard_round 1 "1") answers (RemoveVoters {[2]} false) ∧ allowed answers (RemoveVoters {[2]} false).
Proof.
  assert (issues (membership_voter_guard_round 1 "1") answers (RemoveVoters {[2]} false)) as Hi.
  { apply (issues_later TryLockGate _ true). apply (issues_later ReadState _ recorded).
    replace (active_membership_operation recorded) with (Some removal) by (by vm_compute).
    apply (issues_later Metrics _ two_voters). replace (is_member two_voters _) with true by (by vm_compute).
    replace (is_voter two_voters _) with true by (by vm_compute). cbn [negb].
    apply (issues_later EnsureLinearizable _ (Ok tt)). apply (issues_later Metrics _ two_voters).
    unfold try. cbn [prog_bind].
    replace (membership_revision two_voters) with (Ok "2" : result string string) by (by vm_compute). apply issues_now. }
  split; [exact Hi|]. by apply (guard_only_acts_on_record 1 "1").
Defined.
End GuardSample.
