(* ===== verification/Usage.v ===== *)
(** * The usage ledger

    The local accounting of [src/state.rs]: what a node knows of the traffic of each
    membership, the quota bans, the token banks of the quota engine and the markers of what
    was applied to the proxy.  The operations are those of [JsonSnapshotStore] on its
    [usage] field; writing the ledger to disk after each of them is not modelled. *)

From S2P Require Import Prelude Text Search Domain QuotaPolicy State.
Open Scope string_scope.
Open Scope list_scope.
Open Scope N_scope.

Definition USAGE_SCHEMA_VERSION : N := 2.

Record UserNodePacing : Type := mkUserNodePacing {
  unp_bank_bytes : N;
  unp_last_total_used_bytes : N;
  unp_last_base_quota_bytes : N;
  unp_last_priority_tier : UserPriorityTier;
}.
#[global] Instance UserNodePacing_eq_dec : EqDecision UserNodePacing.
Proof. solve_decision. Defined.
#[export] Instance UserNodePacing_eta : Eta UserNodePacing := λ r,
  mkUserNodePacing (unp_bank_bytes r) (unp_last_total_used_bytes r) (unp_last_base_quota_bytes r) (unp_last_priority_tier r).

Record NodePacing : Type := mkNodePacing {
  np_cycle_start_at : string;
  np_cycle_end_at : string;
  np_last_day_index : Z;
}.
#[global] Instance NodePacing_eq_dec : EqDecision NodePacing.
Proof. solve_decision. Defined.
#[export] Instance NodePacing_eta : Eta NodePacing := λ r,
  mkNodePacing (np_cycle_start_at r) (np_cycle_end_at r) (np_last_day_index r).

Record MembershipUsage : Type := mkMembershipUsage {
  mu_cycle_start_at : string;
  mu_cycle_end_at : string;
  mu_used_bytes : N;
  mu_last_uplink_total : N;
  mu_last_downlink_total : N;
  mu_last_seen_at : string;
  mu_quota_banned : bool;
  mu_quota_banned_at : option string;
}.
#[global] Instance MembershipUsage_eq_dec : EqDecision MembershipUsage.
Proof. solve_decision. Defined.
#[export] Instance MembershipUsage_eta : Eta MembershipUsage := λ r,
  mkMembershipUsage (mu_cycle_start_at r) (mu_cycle_end_at r) (mu_used_bytes r) (mu_last_uplink_total r)
    (mu_last_downlink_total r) (mu_last_seen_at r) (mu_quota_banned r) (mu_quota_banned_at r).

Record PersistedUsage : Type := mkPersistedUsage {
  pu_schema_version : N;
  pu_memberships : gmap string MembershipUsage;
  pu_user_node_pacing : gmap string (gmap string UserNodePacing);
  pu_node_pacing : gmap string NodePacing;
  pu_user_credential_epochs_applied : gmap string N;
  pu_endpoint_users_applied : gmap string (gset string);
}.
#[export] Instance PersistedUsage_eta : Eta PersistedUsage := λ r,
  mkPersistedUsage (pu_schema_version r) (pu_memberships r) (pu_user_node_pacing r) (pu_node_pacing r)
    (pu_user_credential_epochs_applied r) (pu_endpoint_users_applied r).

Definition PersistedUsage_empty : PersistedUsage := mkPersistedUsage USAGE_SCHEMA_VERSION ∅ ∅ ∅ ∅ ∅.

Record UsageSnapshot : Type := mkUsageSnapshot {
  us_cycle_start_at : string;
  us_cycle_end_at : string;
  us_used_bytes : N;
}.

(** ** Membership usage *)

Definition get_membership_usage (usage : PersistedUsage) (membership_key : string) : option MembershipUsage :=
  pu_memberships usage !! membership_key.

Definition clear_membership_usage (usage : PersistedUsage) (membership_key : string) : PersistedUsage :=
  usage <| pu_memberships ::= delete membership_key |>.

Definition set_quota_banned (usage : PersistedUsage) (membership_key banned_at : string) : PersistedUsage :=
  let entry := default (mkMembershipUsage banned_at banned_at 0 0 0 banned_at false None) (pu_memberships usage !! membership_key) in
  usage <| pu_memberships ::= <[membership_key := entry <| mu_quota_banned := true |> <| mu_quota_banned_at := Some banned_at |>]> |>.

Definition unban (u : MembershipUsage) : MembershipUsage := u <| mu_quota_banned := false |> <| mu_quota_banned_at := None |>.

Definition clear_quota_banned (usage : PersistedUsage) (membership_key : string) : PersistedUsage :=
  usage <| pu_memberships ::= alter unban membership_key |>.

(** One reading of the proxy's counters. *)
Record UsageSample : Type := mkUsageSample {
  s_cycle_start_at : string;
  s_cycle_end_at : string;
  s_uplink_total : N;
  s_downlink_total : N;
  s_seen_at : string;
}.

(** How a reading updates the entry it finds. *)
Definition sample_entry (s : UsageSample) (entry : MembershipUsage) : MembershipUsage :=
  let entry' := entry <| mu_last_uplink_total := s_uplink_total s |> <| mu_last_downlink_total := s_downlink_total s |>
                      <| mu_last_seen_at := s_seen_at s |> in
  if negb (bool_decide (mu_cycle_start_at entry = s_cycle_start_at s)) || negb (bool_decide (mu_cycle_end_at entry = s_cycle_end_at s))
  then entry' <| mu_cycle_start_at := s_cycle_start_at s |> <| mu_cycle_end_at := s_cycle_end_at s |> <| mu_used_bytes := 0 |>
  else if (s_uplink_total s <? mu_last_uplink_total entry) || (s_downlink_total s <? mu_last_downlink_total entry)
  then entry'
  else
    let delta_up := s_uplink_total s - mu_last_uplink_total entry in
    let delta_down := s_downlink_total s - mu_last_downlink_total entry in
    entry' <| mu_used_bytes := sat_add u64_max (mu_used_bytes entry) (sat_add u64_max delta_up delta_down) |>.

(** The entry of a membership that had none: what the counters show counts in full. *)
Definition fresh_entry (s : UsageSample) : MembershipUsage :=
  mkMembershipUsage (s_cycle_start_at s) (s_cycle_end_at s) (sat_add u64_max (s_uplink_total s) (s_downlink_total s))
    (s_uplink_total s) (s_downlink_total s) (s_seen_at s) false None.

Definition apply_membership_usage_sample (usage : PersistedUsage) (membership_key : string) (s : UsageSample)
    : PersistedUsage * UsageSnapshot :=
  let entry := sample_entry s (default (fresh_entry s) (pu_memberships usage !! membership_key)) in
  (usage <| pu_memberships ::= <[membership_key := entry]> |>,
   mkUsageSnapshot (s_cycle_start_at s) (s_cycle_end_at s) (mu_used_bytes entry)).

(** ** Markers and pacing *)

Definition get_user_credential_epoch_applied (usage : PersistedUsage) (user_id : string) : N :=
  default 0 (pu_user_credential_epochs_applied usage !! user_id).
Definition set_user_credential_epoch_applied (usage : PersistedUsage) (user_id : string) (credential_epoch : N) : PersistedUsage :=
  usage <| pu_user_credential_epochs_applied ::= <[user_id := credential_epoch]> |>.
Definition get_endpoint_users_applied (usage : PersistedUsage) (endpoint_id : string) : gset string :=
  default ∅ (pu_endpoint_users_applied usage !! endpoint_id).

Definition get_node_pacing (usage : PersistedUsage) (node_id : string) : option NodePacing := pu_node_pacing usage !! node_id.
Definition set_node_pacing (usage : PersistedUsage) (node_id : string) (pacing : NodePacing) : PersistedUsage :=
  usage <| pu_node_pacing ::= <[node_id := pacing]> |>.
Definition clear_node_pacing (usage : PersistedUsage) (node_id : string) : PersistedUsage :=
  usage <| pu_node_pacing ::= delete node_id |>.

Definition get_user_node_pacing (usage : PersistedUsage) (user_id node_id : string) : option UserNodePacing :=
  pu_user_node_pacing usage !! user_id ≫= lookup node_id.
Definition set_user_node_pacing (usage : PersistedUsage) (user_id node_id : string) (pacing : UserNodePacing) : PersistedUsage :=
  usage <| pu_user_node_pacing ::= entry_update ∅ <[node_id := pacing]> user_id |>.

(** Every user's pacing on the node goes, and with it the users left without any. *)
Definition clear_user_node_pacing_for_node (usage : PersistedUsage) (node_id : string) : PersistedUsage :=
  usage <| pu_user_node_pacing ::= λ m, filter (λ '(_, nodes), nodes ≠ ∅) (delete node_id <$> m) |>.

(** ** Weights *)

Definition get_user_node_weight (st : PersistedState) (user_id node_id : string) : option N :=
  ps_user_node_weights st !! user_id ≫= λ m, unw_weight <$> m !! node_id.
Definition get_user_global_weight (st : PersistedState) (user_id : string) : option N :=
  ugw_weight <$> ps_user_global_weights st !! user_id.
Definition resolve_user_global_weight (st : PersistedState) (user_id : string) : N :=
  default DEFAULT_USER_NODE_WEIGHT (get_user_global_weight st user_id).
Definition is_node_weight_inherit_global (st : PersistedState) (node_id : string) : bool :=
  default true (inherit_global <$> ps_node_weight_policies st !! node_id).
Definition resolve_user_node_weight (st : PersistedState) (user_id node_id : string) : N :=
  let global_weight := resolve_user_global_weight st user_id in
  if is_node_weight_inherit_global st node_id then global_weight
  else default global_weight (get_user_node_weight st user_id node_id).

(** * What the ledger counts

    Bytes pass through the proxy, whose two counters grow with them and start again from zero
    when it is restarted; now and then the counters are read and the reading is recorded for
    the quota cycle of the moment. *)

Inductive MeterEvent : Type :=
| BytesPassed (up down : N)
| ProxyRestarted
| CountersRead (cycle_start_at cycle_end_at seen_at : string).

(** The counters of the proxy and the ledger. *)
Record Meter : Type := mkMeter { mt_up : N; mt_down : N; mt_usage : PersistedUsage }.

Definition meter_step (membership_key : string) (mt : Meter) (ev : MeterEvent) : Meter :=
  match ev with
  | BytesPassed up down => mkMeter (mt_up mt + up) (mt_down mt + down) (mt_usage mt)
  | ProxyRestarted => mkMeter 0 0 (mt_usage mt)
  | CountersRead start finish seen_at =>
      mkMeter (mt_up mt) (mt_down mt)
        (apply_membership_usage_sample (mt_usage mt) membership_key (mkUsageSample start finish (mt_up mt) (mt_down mt) seen_at)).1
  end.

(** What really passed, told without the counters: the bytes since the proxy was started; the
    cycle of the last reading; the bytes of that cycle, which begins with its first reading
    (for a membership read for the first time, with the start of the proxy), up to now and up
    to the last reading; whether the proxy was restarted since that reading; and the bytes of
    the cycle that passed between two readings with a restart in between. *)
Record Traffic : Type := mkTraffic {
  tr_since_start : N;
  tr_cycle : option (string * string);
  tr_passed : N;
  tr_read : N;
  tr_restarted : bool;
  tr_around_restarts : N;
}.

Definition traffic_step (tr : Traffic) (ev : MeterEvent) : Traffic :=
  match ev with
  | BytesPassed up down =>
      mkTraffic (tr_since_start tr + (up + down)) (tr_cycle tr) (tr_passed tr + (up + down)) (tr_read tr) (tr_restarted tr) (tr_around_restarts tr)
  | ProxyRestarted => mkTraffic 0 (tr_cycle tr) (tr_passed tr) (tr_read tr) true (tr_around_restarts tr)
  | CountersRead start finish _ =>
      match tr_cycle tr with
      | None => mkTraffic (tr_since_start tr) (Some (start, finish)) (tr_since_start tr) (tr_since_start tr) false 0
      | Some cycle =>
          if bool_decide (cycle = (start, finish))
          then mkTraffic (tr_since_start tr) (Some cycle) (tr_passed tr) (tr_passed tr) false
                 (tr_around_restarts tr + if tr_restarted tr then tr_passed tr - tr_read tr else 0)
          else mkTraffic (tr_since_start tr) (Some (start, finish)) 0 0 false 0
      end
  end.

Definition no_traffic : Traffic := mkTraffic 0 None 0 0 false 0.

(** What the ledger has of the traffic. *)
Record counted (tr : Traffic) (entry : MembershipUsage) : Prop := {
  co_cycle : tr_cycle tr = Some (mu_cycle_start_at entry, mu_cycle_end_at entry);
  co_least : N.min u64_max (tr_read tr - tr_around_restarts tr) ≤ mu_used_bytes entry;
  co_most : mu_used_bytes entry ≤ N.min u64_max (tr_read tr);
}.

(** The counters against the last reading: as long as there was no restart they show what has
    passed since, and in any case not more. *)
Record metered (up down : N) (tr : Traffic) (entry : MembershipUsage) : Prop := {
  me_counted : counted tr entry;
  me_around : tr_around_restarts tr ≤ tr_read tr ≤ tr_passed tr;
  me_most : (up - mu_last_uplink_total entry) + (down - mu_last_downlink_total entry) ≤ tr_passed tr - tr_read tr;
  me_exact : tr_restarted tr = false → mu_last_uplink_total entry ≤ up ∧ mu_last_downlink_total entry ≤ down ∧
    (up - mu_last_uplink_total entry) + (down - mu_last_downlink_total entry) = tr_passed tr - tr_read tr;
}.

Definition meter_ok (membership_key : string) (mt : Meter) (tr : Traffic) : Prop :=
  match pu_memberships (mt_usage mt) !! membership_key with
  | None => tr_cycle tr = None ∧ mt_up mt + mt_down mt = tr_since_start tr
  | Some entry => metered (mt_up mt) (mt_down mt) tr entry
  end.

(** A first reading counts once. *)
Lemma sample_fresh s : sample_entry s (fresh_entry s) = fresh_entry s.
Proof.
  unfold sample_entry, fresh_entry. cbn. rewrite !bool_decide_true, !N.ltb_irrefl by done. cbn. rewrite !N.sub_diag.
  unfold update_field, fresh_entry. cbn. f_equal. int_lia.
Qed.

(** A reading of the cycle it finds. *)
Lemma read_same_cycle up down tr entry seen_at :
  metered up down tr entry →
  let start := mu_cycle_start_at entry in
  let finish := mu_cycle_end_at entry in
  metered up down (traffic_step tr (CountersRead start finish seen_at)) (sample_entry (mkUsageSample start finish up down seen_at) entry).
Proof.
  intros [[Hc Hl Hm] Ha Hmost Hex]. cbn zeta. cbn [traffic_step]. rewrite Hc, bool_decide_true by done. unfold sample_entry. cbn [s_cycle_start_at s_cycle_end_at s_uplink_total s_downlink_total].
  rewrite !bool_decide_true by done. cbn [negb orb].
  destruct (N.ltb_spec (up) (mu_last_uplink_total entry)) as [Hu|Hu], (N.ltb_spec (down) (mu_last_downlink_total entry)) as [Hd|Hd]; cbn [orb];
    (split; [split|..]); cbn; unfold sat_add in *; try done; try lia; destruct (tr_restarted tr); try (specialize (Hex eq_refl)); lia.
Qed.

(** A reading of another cycle. *)
Lemma read_next_cycle up down tr entry start finish seen_at :
  metered up down tr entry → (mu_cycle_start_at entry, mu_cycle_end_at entry) ≠ (start, finish) →
  metered up down (traffic_step tr (CountersRead start finish seen_at)) (sample_entry (mkUsageSample start finish up down seen_at) entry).
Proof.
  intros [[Hc _ _] _ _ _] Hne. cbn [traffic_step]. rewrite Hc, bool_decide_false by done. unfold sample_entry. cbn [s_cycle_start_at s_cycle_end_at s_uplink_total s_downlink_total].
  assert (negb (bool_decide (mu_cycle_start_at entry = start)) || negb (bool_decide (mu_cycle_end_at entry = finish)) = true) as ->.
  { do 2 case_bool_decide; cbn; [congruence|done..]. }
  (split; [split|..]); cbn; try done; lia.
Qed.

Lemma meter_step_ok key mt tr ev : meter_ok key mt tr → meter_ok key (meter_step key mt ev) (traffic_step tr ev).
Proof.
  unfold meter_ok. destruct ev as [up down| |start finish seen_at]; cbn [meter_step mt_usage mt_up mt_down].
  - destruct (pu_memberships (mt_usage mt) !! key) as [entry|]; [|cbn; intuition lia]. intros [[Hc Hl Hm] Ha Hmost Hex].
    (split; [split|..]); cbn; try done; try lia. intros Hr. specialize (Hex Hr). lia.
  - destruct (pu_memberships (mt_usage mt) !! key) as [entry|]; [|cbn; intuition lia]. intros [[Hc Hl Hm] Ha Hmost Hex].
    (split; [split|..]); cbn; done || lia.
  - unfold apply_membership_usage_sample. cbn. rewrite lookup_insert_eq. destruct (pu_memberships (mt_usage mt) !! key) as [entry|]; cbn [default from_option id].
    + intros Hme. pose proof (co_cycle _ _ (me_counted _ _ _ _ Hme)) as Hc.
      destruct (decide ((mu_cycle_start_at entry, mu_cycle_end_at entry) = (start, finish))) as [[= <- <-]|Hne].
      * by apply read_same_cycle.
      * by apply read_next_cycle.
    + intros [-> Hs]. rewrite sample_fresh. unfold sat_add. (split; [split|..]); cbn; unfold sat_add; done || lia.
Qed.

Lemma meter_run_ok key evs mt tr : meter_ok key mt tr → meter_ok key (foldl (meter_step key) mt evs) (foldl traffic_step tr evs).
Proof. revert mt tr. induction evs as [|ev evs IH]; intros mt tr Hok; [done|]. by apply IH, meter_step_ok. Qed.

Lemma meter_other key evs mt k : k ≠ key → pu_memberships (mt_usage (foldl (meter_step key) mt evs)) !! k = pu_memberships (mt_usage mt) !! k.
Proof.
  intros Hk. revert mt. induction evs as [|ev evs IH]; intros mt; [done|]. cbn [foldl]. rewrite IH. destruct ev; [done..|].
  unfold meter_step, apply_membership_usage_sample. cbn. by rewrite lookup_insert_ne.
Qed.


