(* ===== verification/InboundIp.v ===== *)
(** * Inbound addresses

    [src/inbound_ip_usage.rs]: which addresses each membership was used from, minute by
    minute over a sliding window of seven days, kept as one bitmap per address; and the
    views built from it.

    Instants are nanoseconds; a [DateTime] of this file is always UTC.  The resolver of
    locations ([GeoLookup]) is an argument. *)

From S2P Require Import Prelude Text Search IpText Domain Clock State.
Open Scope string_scope.
Open Scope list_scope.
Open Scope N_scope.

Definition INBOUND_IP_USAGE_SCHEMA_VERSION : N := 1.
Definition MINUTES_WINDOW : nat := 7 * 24 * 60.
Definition BITMAP_BYTES : nat := 1260.
Definition TOP_TIMELINE_ROWS : nat := 20.

Inductive InboundIpUsageWindow : Type := Hours24 | Days7.
Definition window_minutes (w : InboundIpUsageWindow) : nat := match w with Hours24 => 24 * 60 | Days7 => 7 * 24 * 60 end.
Definition window_as_str (w : InboundIpUsageWindow) : string := match w with Hours24 => "24h" | Days7 => "7d" end.
Definition window_parse (raw : option string) : result InboundIpUsageWindow string :=
  let s := default "24h" raw in
  if bool_decide (s = "24h") then Ok Hours24
  else if bool_decide (s = "7d") then Ok Days7
  else Err "invalid window, expected 24h or 7d".

(** ** Bitmaps *)

Definition zero_bitmap : list N := replicate BITMAP_BYTES 0.

Definition normalize_bitmap (bitmap : list N) : list N := resize BITMAP_BYTES 0 bitmap.

Definition get_bit (bitmap : list N) (index : nat) : bool :=
  match bitmap !! (index / 8)%nat with
  | Some value => negb (N.land value (N.shiftl 1 (N.of_nat (index mod 8))) =? 0)
  | None => false
  end.

Definition set_bit (bitmap : list N) (index : nat) (value : bool) : list N :=
  let mask := N.shiftl 1 (N.of_nat (index mod 8)) in
  alter (λ byte, if value then N.lor byte mask else N.land byte (N.lxor u8_max mask)) (index / 8)%nat bitmap.

(** [u8::count_ones] *)
Definition count_ones (byte : N) : nat := length (filter (λ i, N.testbit byte (N.of_nat i) = true) (seq 0 8)).
Definition count_bitmap_bits (bitmap : list N) : nat := foldr plus 0%nat (count_ones <$> bitmap).

Definition bitmap_has_any_bit_after_shift (bitmap : list N) (shift : nat) : bool :=
  if (shift =? 0)%nat then existsb (λ byte, negb (byte =? 0)) bitmap
  else if (MINUTES_WINDOW <=? shift)%nat then false
  else
    let start_byte := (shift / 8)%nat in
    let start_bit := (shift mod 8)%nat in
    existsb (λ '(index, byte),
      let value := if (index =? start_byte)%nat && negb (start_bit =? 0)%nat
                   then N.land byte (N.lxor u8_max (N.shiftl 1 (N.of_nat start_bit) - 1)) else byte in
      negb (value =? 0)) (drop start_byte (imap pair bitmap)).

Definition shift_bitmap (bitmap : list N) (shift : nat) : list N :=
  let bitmap := normalize_bitmap bitmap in
  if (shift =? 0)%nat then bitmap
  else if (MINUTES_WINDOW <=? shift)%nat then (λ _, 0) <$> bitmap
  else
    foldl (λ out index, if get_bit bitmap index then set_bit out (index - shift) true else out) ((λ _, 0) <$> bitmap)
      (seq shift (MINUTES_WINDOW - shift)).

Definition extract_window_flags (bitmap : list N) (start_index len : nat) : list bool :=
  (λ offset, get_bit bitmap (start_index + offset)) <$> seq 0 len.

Definition union_flags (target source : list bool) : list bool :=
  imap (λ i t, match source !! i with Some s => t || s | None => t end) target.

(** ** What is kept *)

Definition geo_is_default (geo : PersistedInboundIpGeo) : bool :=
  str_is_empty (geo_country geo) && str_is_empty (geo_region geo) && str_is_empty (geo_city geo) && str_is_empty (geo_operator geo).
Definition geo_default : PersistedInboundIpGeo := mkPersistedInboundIpGeo EmptyString EmptyString EmptyString EmptyString.

Record PersistedInboundIpRecord : Type := mkPersistedInboundIpRecord {
  ir_bitmap : list N;
  ir_minutes : N;
  ir_first_seen_at : string;
  ir_last_seen_at : string;
  ir_geo : PersistedInboundIpGeo;
}.
#[export] Instance PersistedInboundIpRecord_eta : Eta PersistedInboundIpRecord := λ r,
  mkPersistedInboundIpRecord (ir_bitmap r) (ir_minutes r) (ir_first_seen_at r) (ir_last_seen_at r) (ir_geo r).
Definition PersistedInboundIpRecord_default : PersistedInboundIpRecord :=
  mkPersistedInboundIpRecord zero_bitmap 0 EmptyString EmptyString geo_default.

Record PersistedInboundIpMembership : Type := mkPersistedInboundIpMembership {
  im_user_id : string;
  im_node_id : string;
  im_endpoint_id : string;
  im_endpoint_tag : string;
  im_ips : gmap string PersistedInboundIpRecord;
}.
#[export] Instance PersistedInboundIpMembership_eta : Eta PersistedInboundIpMembership := λ r,
  mkPersistedInboundIpMembership (im_user_id r) (im_node_id r) (im_endpoint_id r) (im_endpoint_tag r) (im_ips r).

Record PersistedInboundIpUsage : Type := mkPersistedInboundIpUsage {
  iu_schema_version : N;
  iu_generated_at : string;
  iu_minutes_window : nat;
  iu_latest_minute : option string;
  iu_online_stats_unavailable : bool;
  iu_memberships : gmap string PersistedInboundIpMembership;
}.
#[export] Instance PersistedInboundIpUsage_eta : Eta PersistedInboundIpUsage := λ r,
  mkPersistedInboundIpUsage (iu_schema_version r) (iu_generated_at r) (iu_minutes_window r) (iu_latest_minute r)
    (iu_online_stats_unavailable r) (iu_memberships r).
Definition PersistedInboundIpUsage_default : PersistedInboundIpUsage :=
  mkPersistedInboundIpUsage INBOUND_IP_USAGE_SCHEMA_VERSION EmptyString MINUTES_WINDOW None false ∅.

Record InboundIpMinuteSample : Type := mkInboundIpMinuteSample {
  is_membership_key : string;
  is_user_id : string;
  is_node_id : string;
  is_endpoint_id : string;
  is_endpoint_tag : string;
  is_ips : list string;
}.

Record InboundIpUsageSeriesPoint : Type := mkInboundIpUsageSeriesPoint { sp_minute : string; sp_count : N }.

(** Drops addresses without minutes and memberships without addresses. *)
Definition drop_empty (memberships : gmap string PersistedInboundIpMembership) : gmap string PersistedInboundIpMembership :=
  filter (λ '(_, m), im_ips m ≠ ∅) ((λ m, m <| im_ips ::= filter (λ '(_, r), ir_minutes r ≠ 0) |>) <$> memberships).

Definition normalize_record (r : PersistedInboundIpRecord) : PersistedInboundIpRecord :=
  let bitmap := normalize_bitmap (ir_bitmap r) in
  r <| ir_bitmap := bitmap |> <| ir_minutes := N.of_nat (count_bitmap_bits bitmap) |>.

(** The flag reports a corrected count or a dropped address, not a dropped membership. *)
Definition normalize (usage : PersistedInboundIpUsage) (allowed_membership_keys : gset string) : PersistedInboundIpUsage * bool :=
  let kept := filter (λ '(key, _), key ∈ allowed_membership_keys) (iu_memberships usage) in
  let fixed := (λ m, m <| im_ips ::= fmap normalize_record |>) <$> kept in
  let changed :=
    negb (iu_schema_version usage =? INBOUND_IP_USAGE_SCHEMA_VERSION) || negb (iu_minutes_window usage =? MINUTES_WINDOW)%nat
    || negb (size kept =? size (iu_memberships usage))%nat
    || existsb (λ m, existsb (λ r, negb (ir_minutes (normalize_record r) =? ir_minutes r) || (ir_minutes (normalize_record r) =? 0))
                       (bt_values (im_ips m))) (bt_values kept) in
  (usage <| iu_schema_version := INBOUND_IP_USAGE_SCHEMA_VERSION |> <| iu_minutes_window := MINUTES_WINDOW |>
         <| iu_memberships := drop_empty fixed |>, changed).

Definition clear_membership (usage : PersistedInboundIpUsage) (membership_key : string) : PersistedInboundIpUsage * bool :=
  (usage <| iu_memberships ::= delete membership_key |>, contains_key (iu_memberships usage) membership_key).

(** ** Minutes *)

Definition MINUTE_NANOS : Z := 60 * 1000000000.
Definition floor_minute (t : Z) : Z := (t / MINUTE_NANOS * MINUTE_NANOS)%Z.
(** [TimeDelta::num_minutes] *)
Definition num_minutes (delta : Z) : Z := Z.quot delta MINUTE_NANOS.

Section Record.
Context `{Rfc3339, TimeFormat} (lookup_geo : string → PersistedInboundIpGeo).

Definition rfc3339_minute (t : Z) : string := to_rfc3339 0 (floor_minute t).
Definition parse_minute (raw : string) : option Z := floor_minute <$> parse_rfc3339 raw.
Definition latest_minute_dt (usage : PersistedInboundIpUsage) : option Z := iu_latest_minute usage ≫= parse_minute.

Definition shift_record (shift : nat) (r : PersistedInboundIpRecord) : PersistedInboundIpRecord :=
  let bitmap := shift_bitmap (ir_bitmap r) shift in
  r <| ir_bitmap := bitmap |> <| ir_minutes := N.of_nat (count_bitmap_bits bitmap) |>.

Definition advance_to_minute (usage : PersistedInboundIpUsage) (minute : Z) : PersistedInboundIpUsage * bool :=
  match latest_minute_dt usage with
  | None => (usage <| iu_latest_minute := Some (rfc3339_minute minute) |>, true)
  | Some previous =>
      let shift := num_minutes (minute - previous) in
      if (shift <=? 0)%Z then (usage, false)
      else
        let shift := Z.to_nat shift in
        let memberships :=
          if (MINUTES_WINDOW <=? shift)%nat then ∅
          else drop_empty ((λ m, m <| im_ips ::= fmap (shift_record shift) |>) <$> iu_memberships usage) in
        (usage <| iu_memberships := memberships |> <| iu_latest_minute := Some (rfc3339_minute minute) |>, true)
  end.

Definition collect_known_geo_by_ip_surviving_shift (usage : PersistedInboundIpUsage) (shift : nat) : gmap string PersistedInboundIpGeo :=
  foldl (λ out '(ip, r),
    if geo_is_default (ir_geo r) || negb (bitmap_has_any_bit_after_shift (ir_bitmap r) shift) then out
    else match out !! ip with Some _ => out | None => <[ip := ir_geo r]> out end) ∅
    (bt_values (iu_memberships usage) ≫= λ m, bt_items (im_ips m)).
Definition collect_known_geo_by_ip (usage : PersistedInboundIpUsage) : gmap string PersistedInboundIpGeo :=
  collect_known_geo_by_ip_surviving_shift usage 0.

Definition unique_ips (raw : list string) : list string := bs_items (list_to_set (omap normalize_ip_string raw)).

(** What recording an address carries along: its record, the locations known so far and
    whether anything changed. *)
Definition mark_seen (minute_str : string) (r : PersistedInboundIpRecord) : PersistedInboundIpRecord * bool :=
  let r := r <| ir_bitmap ::= normalize_bitmap |> in
  let was_empty := ir_minutes r =? 0 in
  let already_present := get_bit (ir_bitmap r) (MINUTES_WINDOW - 1) in
  let changed := negb already_present || was_empty || str_is_empty (ir_first_seen_at r) || negb (bool_decide (ir_last_seen_at r = minute_str)) in
  let r := if already_present then r
           else r <| ir_bitmap ::= λ b, set_bit b (MINUTES_WINDOW - 1) true |> <| ir_minutes ::= λ n, sat_add u32_max n 1 |> in
  let r := if was_empty || str_is_empty (ir_first_seen_at r) then r <| ir_first_seen_at := minute_str |> else r in
  (r <| ir_last_seen_at := minute_str |>, changed).

Definition record_ip (allow_geo_reuse : bool) (minute_str : string) (acc : gmap string PersistedInboundIpRecord * gmap string PersistedInboundIpGeo * bool)
    (ip : string) : gmap string PersistedInboundIpRecord * gmap string PersistedInboundIpGeo * bool :=
  let '(ips, known, changed) := acc in
  let '(r, seen_changed) := mark_seen minute_str (default PersistedInboundIpRecord_default (ips !! ip)) in
  let changed := changed || seen_changed in
  if negb (geo_is_default (ir_geo r)) then (<[ip := r]> ips, known, changed)
  else match (if allow_geo_reuse then known !! ip else None) with
       | Some existing => (<[ip := r <| ir_geo := existing |>]> ips, known, true)
       | None =>
           let geo := lookup_geo ip in
           if bool_decide (geo = ir_geo r) then (<[ip := r]> ips, known, changed)
           else (<[ip := r <| ir_geo := geo |>]> ips, if geo_is_default geo then known else <[ip := geo]> known, true)
       end.

Definition record_sample (allow_geo_reuse : bool) (minute_str : string)
    (acc : gmap string PersistedInboundIpMembership * gmap string PersistedInboundIpGeo * bool) (sample : InboundIpMinuteSample)
    : gmap string PersistedInboundIpMembership * gmap string PersistedInboundIpGeo * bool :=
  let '(memberships, known, changed) := acc in
  match unique_ips (is_ips sample) with
  | [] => acc
  | ips =>
      let fresh := mkPersistedInboundIpMembership (is_user_id sample) (is_node_id sample) (is_endpoint_id sample) (is_endpoint_tag sample) ∅ in
      let m := default fresh (memberships !! is_membership_key sample) in
      let changed := changed || negb (bool_decide (im_user_id m = is_user_id sample)) || negb (bool_decide (im_node_id m = is_node_id sample))
        || negb (bool_decide (im_endpoint_id m = is_endpoint_id sample)) || negb (bool_decide (im_endpoint_tag m = is_endpoint_tag sample)) in
      let '(records, known, changed) := foldl (record_ip allow_geo_reuse minute_str) (im_ips m, known, changed) ips in
      (<[is_membership_key sample :=
           mkPersistedInboundIpMembership (is_user_id sample) (is_node_id sample) (is_endpoint_id sample) (is_endpoint_tag sample) records]> memberships,
       known, changed)
  end.

Definition record_minute_samples (usage : PersistedInboundIpUsage) (minute : Z) (online_stats_unavailable : bool)
    (samples : list InboundIpMinuteSample) (allow_geo_reuse : bool) : PersistedInboundIpUsage * bool :=
  let minute := floor_minute minute in
  let minute_str := rfc3339_minute minute in
  let changed :=
    negb (iu_schema_version usage =? INBOUND_IP_USAGE_SCHEMA_VERSION) || negb (iu_minutes_window usage =? MINUTES_WINDOW)%nat
    || negb (Bool.eqb (iu_online_stats_unavailable usage) online_stats_unavailable) in
  let usage := usage <| iu_schema_version := INBOUND_IP_USAGE_SCHEMA_VERSION |> <| iu_minutes_window := MINUTES_WINDOW |>
                     <| iu_online_stats_unavailable := online_stats_unavailable |> in
  let '(usage, advanced) := advance_to_minute usage minute in
  let known := if allow_geo_reuse then collect_known_geo_by_ip usage else ∅ in
  let '(memberships, _, changed) := foldl (record_sample allow_geo_reuse minute_str) (iu_memberships usage, known, changed || advanced) samples in
  let changed := changed || negb (bool_decide (iu_generated_at usage = minute_str)) in
  (usage <| iu_memberships := memberships |> <| iu_generated_at := minute_str |>, changed).
(** Whether a lookup of the address could still add something. *)
Definition needs_lookup (existing : option PersistedInboundIpMembership) (shift : nat) (ip : string) : bool :=
  match existing ≫= (λ m, im_ips m !! ip) with
  | None => true
  | Some r => geo_is_default (ir_geo r) || negb (bitmap_has_any_bit_after_shift (ir_bitmap r) shift)
  end.

Definition collect_lookup_candidates (usage : PersistedInboundIpUsage) (minute : Z) (samples : list InboundIpMinuteSample) : list string :=
  let minute := floor_minute minute in
  let shift := from_option (λ previous, num_minutes (minute - previous)) 0%Z (latest_minute_dt usage) in
  let shift := Z.to_nat (Z.max shift 0) in
  let known := collect_known_geo_by_ip_surviving_shift usage shift in
  bs_items (list_to_set (samples ≫= λ sample,
    filter (λ ip, is_global_geo_ip ip && negb (contains_key known ip)
                  && needs_lookup (iu_memberships usage !! is_membership_key sample) shift ip = true)
      (omap normalize_ip_string (is_ips sample)))).

Definition collect_missing_geo_for_ips (usage : PersistedInboundIpUsage) (ips : list string) : list string :=
  let candidates : gset string := list_to_set (omap normalize_ip_string ips) in
  bs_items (list_to_set (bt_values (iu_memberships usage) ≫= λ m,
    (filter (λ '(ip, r), ip ∈ candidates ∧ geo_is_default (ir_geo r) = true) (bt_items (im_ips m))).*1)).

Definition backfill_record (candidates : gset string) (ip : string) (r : PersistedInboundIpRecord) : PersistedInboundIpRecord :=
  if bool_decide (ip ∈ candidates) && geo_is_default (ir_geo r) && negb (geo_is_default (lookup_geo ip))
  then r <| ir_geo := lookup_geo ip |> else r.
Definition backfill_changes (candidates : gset string) (ip : string) (r : PersistedInboundIpRecord) : bool :=
  bool_decide (ip ∈ candidates) && geo_is_default (ir_geo r) && negb (geo_is_default (lookup_geo ip)).

Definition backfill_geo_for_ips (usage : PersistedInboundIpUsage) (ips : list string) : PersistedInboundIpUsage * bool :=
  let candidates : gset string := list_to_set (omap normalize_ip_string ips) in
  (usage <| iu_memberships ::= fmap (λ m, m <| im_ips ::= map_imap (λ ip r, Some (backfill_record candidates ip r)) |>) |>,
   existsb (λ m, existsb (λ '(ip, r), backfill_changes candidates ip r) (bt_items (im_ips m))) (bt_values (iu_memberships usage))).

(** The minute window as points: how many addresses of the node's memberships were seen. *)
Definition repository_samples_for_node (usage : PersistedInboundIpUsage) (node_id : string) : list InboundIpUsageSeriesPoint :=
  match latest_minute_dt usage with
  | None => []
  | Some latest =>
      (λ index,
        let records := filter (λ m, im_node_id m = node_id) (bt_values (iu_memberships usage)) ≫= λ m, bt_values (im_ips m) in
        let count := length (filter (λ r, default false (head (extract_window_flags (ir_bitmap r) index 1)) = true) records) in
        mkInboundIpUsageSeriesPoint (rfc3339_minute (latest - Z.of_nat (MINUTES_WINDOW - 1 - index) * MINUTE_NANOS)) (N.min (N.of_nat count) u32_max))
      <$> seq 0 MINUTES_WINDOW
  end.
End Record.

(** * The window *)

(** ** Bits *)

Lemma get_bit_testbit bitmap i :
  get_bit bitmap i = match bitmap !! (i / 8)%nat with Some v => N.testbit v (N.of_nat (i mod 8)) | None => false end.
Proof.
  unfold get_bit. destruct (bitmap !! _) as [v|]; [|done]. rewrite N.shiftl_1_l.
  destruct (N.testbit v (N.of_nat (i mod 8))) eqn:Hb.
  - apply negb_true_iff, N.eqb_neq. intros Heq. apply (f_equal (λ n, N.testbit n (N.of_nat (i mod 8)))) in Heq.
    rewrite N.land_spec, Hb, N.pow2_bits_true, N.bits_0 in Heq. done.
  - apply negb_false_iff, N.eqb_eq. apply N.bits_inj. intros k. rewrite N.land_spec, N.pow2_bits_eqb, N.bits_0.
    destruct (N.eqb_spec (N.of_nat (i mod 8)) k) as [<-|]; [by rewrite Hb|apply andb_false_r].
Qed.

Lemma set_bit_length bitmap j v : length (set_bit bitmap j v) = length bitmap.
Proof. apply length_alter. Qed.

Lemma div_mod_8 i j : (i / 8 = j / 8 → i mod 8 = j mod 8 → i = j)%nat.
Proof. intros Hd Hm. rewrite (Nat.div_mod_eq i 8), (Nat.div_mod_eq j 8). congruence. Qed.

Lemma get_set_bit bitmap i j :
  (j < 8 * length bitmap)%nat → get_bit (set_bit bitmap j true) i = bool_decide (i = j) || get_bit bitmap i.
Proof.
  intros Hj. rewrite !get_bit_testbit. unfold set_bit.
  assert (j / 8 < length bitmap)%nat as Hlt by (apply Nat.Div0.div_lt_upper_bound; lia).
  destruct (lookup_lt_is_Some_2 _ _ Hlt) as [v Hv]. destruct (decide (i / 8 = j / 8)%nat) as [Heq|Hne].
  - rewrite Heq, list_lookup_alter_eq, Hv. cbn. rewrite N.lor_spec, N.shiftl_1_l, N.pow2_bits_eqb, orb_comm. f_equal.
    destruct (decide (i = j)) as [->|Hij]; [by rewrite bool_decide_true, N.eqb_refl|]. rewrite bool_decide_false by done.
    apply N.eqb_neq. intros Hm%Nat2N.inj. by apply Hij, div_mod_8.
  - rewrite list_lookup_alter_ne by done. by rewrite bool_decide_false by (by intros ->).
Qed.

(** Counting bytewise is counting bits. *)
Lemma get_bit_cons v bitmap i : get_bit (v :: bitmap) (8 + i) = get_bit bitmap i.
Proof.
  rewrite !get_bit_testbit. replace (8 + i)%nat with (i + 1 * 8)%nat by lia.
  rewrite Nat.div_add, Nat.Div0.mod_add, Nat.add_1_r by done. done.
Qed.

Lemma get_bit_head v bitmap i : (i < 8)%nat → get_bit (v :: bitmap) i = N.testbit v (N.of_nat i).
Proof. intros Hi. rewrite get_bit_testbit, Nat.div_small, Nat.mod_small by done. done. Qed.

Definition present (bitmap : list N) (n : nat) : list nat := filter (λ i, get_bit bitmap i = true) (seq 0 n).

Lemma filter_ext_in {A} (P Q : A → Prop) `{∀ x, Decision (P x), ∀ x, Decision (Q x)} (l : list A) :
  (∀ x, x ∈ l → P x ↔ Q x) → filter P l = filter Q l.
Proof.
  intros Hpq. induction l as [|x l IH]; [done|]. rewrite !filter_cons, IH by (intros y Hy; apply Hpq; by right).
  pose proof (Hpq x ltac:(by left)). destruct (decide (P x)), (decide (Q x)); tauto.
Qed.

Lemma filter_all {A} (P : A → Prop) `{∀ x, Decision (P x)} (l : list A) : (∀ x, P x) → filter P l = l.
Proof. intros HP. induction l as [|x l IH]; [done|]. by rewrite filter_cons_True, IH. Qed.

Lemma count_bitmap_bits_present bitmap : count_bitmap_bits bitmap = length (present bitmap (8 * length bitmap)).
Proof.
  induction bitmap as [|v bitmap IH]; [done|]. unfold count_bitmap_bits, present in *. cbn [fmap list_fmap foldr length]. rewrite IH.
  replace (8 * S (length bitmap))%nat with (8 + 8 * length bitmap)%nat by lia. rewrite seq_app, filter_app, length_app. f_equal.
  - unfold count_ones. f_equal. apply filter_ext_in. intros i Hi%elem_of_seq. by rewrite get_bit_head by lia.
  - change (0 + 8)%nat with (8 + 0)%nat. rewrite <-fmap_add_seq. generalize (seq 0 (8 * length bitmap)). intros l.
    induction l as [|i l IHl]; [done|]. rewrite fmap_cons, !filter_cons, get_bit_cons. destruct (decide _); cbn [length]; by rewrite IHl.
Qed.

Lemma present_empty bitmap n : length (present bitmap n) = 0%nat ↔ ∀ i, (i < n)%nat → get_bit bitmap i = false.
Proof.
  unfold present. rewrite length_zero_iff_nil. split.
  - intros Hnil i Hi. destruct (get_bit bitmap i) eqn:Hb; [|done]. assert (i ∈ filter (λ i, get_bit bitmap i = true) (seq 0 n)) as Hin.
    { apply list_elem_of_filter. split; [done|]. apply elem_of_seq. lia. } rewrite Hnil in Hin. by apply elem_of_nil in Hin.
  - intros Hall. destruct (filter _ _) as [|i l] eqn:Hf; [done|]. assert (i ∈ filter (λ i, get_bit bitmap i = true) (seq 0 n)) as Hin
      by (rewrite Hf; by left). apply list_elem_of_filter in Hin as [Hb Hi%elem_of_seq]. rewrite Hall in Hb by lia. done.
Qed.

Lemma filter_one_more (P Q : nat → Prop) `{∀ x, Decision (P x), ∀ x, Decision (Q x)} (j : nat) (l : list nat) :
  NoDup l → j ∈ l → ¬ P j → (∀ i, Q i ↔ i = j ∨ P i) → length (filter Q l) = S (length (filter P l)).
Proof.
  intros Hnd Hj HP HQ. induction Hnd as [|x l Hx Hnd IH]; [by apply elem_of_nil in Hj|]. rewrite !filter_cons.
  apply elem_of_cons in Hj as [->|Hj].
  - rewrite decide_True by (apply HQ; by left). rewrite decide_False by done. cbn [length]. do 2 f_equal.
    apply filter_ext_in. intros i Hi. rewrite HQ. split; [|by right]. by intros [->|].
  - assert (x ≠ j) by (by intros ->). destruct (decide (Q x)) as [Hq|Hq], (decide (P x)) as [Hp|Hp]; cbn [length]; rewrite IH by done; try done.
    + apply HQ in Hq as [?|?]; done.
    + destruct Hq. apply HQ. by right.
Qed.

Lemma count_set_bit bitmap j :
  (j < 8 * length bitmap)%nat → get_bit bitmap j = false → count_bitmap_bits (set_bit bitmap j true) = S (count_bitmap_bits bitmap).
Proof.
  intros Hj Hb. rewrite !count_bitmap_bits_present, set_bit_length. apply (filter_one_more _ _ j).
  - apply NoDup_seq.
  - apply elem_of_seq. lia.
  - by rewrite Hb.
  - intros i. rewrite get_set_bit, orb_true_iff, bool_decide_eq_true by done. done.
Qed.

Lemma bitmap_covers_window : (8 * BITMAP_BYTES = MINUTES_WINDOW)%nat.
Proof. by vm_compute. Qed.

Lemma count_le bitmap : (count_bitmap_bits bitmap ≤ 8 * length bitmap)%nat.
Proof.
  rewrite count_bitmap_bits_present. unfold present.
  etrans; [apply length_filter|]. by rewrite length_seq.
Qed.

Lemma normalize_bitmap_id bitmap : length bitmap = BITMAP_BYTES → normalize_bitmap bitmap = bitmap.
Proof. unfold normalize_bitmap. intros <-. apply resize_all. Qed.

Lemma normalize_bitmap_length bitmap : length (normalize_bitmap bitmap) = BITMAP_BYTES.
Proof. apply length_resize. Qed.

Lemma zeroes_get_bit (bitmap : list N) i : get_bit ((λ _, 0) <$> bitmap) i = false.
Proof. rewrite get_bit_testbit, list_lookup_fmap. by destruct (bitmap !! _). Qed.

(** Shifting copies bits; the fold sets the bits of the indices seen so far. *)
Lemma shift_fold bitmap out shift l :
  length out = BITMAP_BYTES → Forall (λ i, (i < MINUTES_WINDOW)%nat) l → Forall (λ i, (shift ≤ i)%nat) l →
  let r := foldl (λ out index, if get_bit bitmap index then set_bit out (index - shift) true else out) out l in
  length r = BITMAP_BYTES ∧ ∀ i, get_bit r i = get_bit out i || (bool_decide ((i + shift)%nat ∈ l) && get_bit bitmap (i + shift)).
Proof.
  revert out; induction l as [|x l IH]; intros out Hlen Hw Hs; cbn [foldl].
  { split; [done|]. intros i. rewrite bool_decide_false by apply not_elem_of_nil. by rewrite orb_false_r. }
  apply Forall_cons in Hw as [Hx Hw]. apply Forall_cons in Hs as [Hsx Hs].
  set (out1 := if get_bit bitmap x then set_bit out (x - shift) true else out).
  assert (length out1 = BITMAP_BYTES) as Hlen1 by (unfold out1; case_match; [by rewrite set_bit_length|done]).
  destruct (IH out1 Hlen1 Hw Hs) as [I1 I2]. cbn zeta. split; [done|]. intros i. rewrite I2.
  assert (get_bit out1 i = get_bit out i || (bool_decide (i + shift = x)%nat && get_bit bitmap x)) as ->.
  { unfold out1. destruct (get_bit bitmap x) eqn:Hb; [|by rewrite andb_false_r, orb_false_r].
    rewrite get_set_bit by (rewrite Hlen, bitmap_covers_window; lia). rewrite andb_true_r, orb_comm. f_equal. apply bool_decide_ext. lia. }
  destruct (decide (i + shift = x)%nat) as [<-|Hne].
  - rewrite (bool_decide_true (i + shift = i + shift)%nat), (bool_decide_true ((i + shift)%nat ∈ (i + shift)%nat :: l)) by (done || by left). cbn.
    destruct (get_bit bitmap (i + shift)); rewrite ?andb_false_r, ?orb_true_r, ?orb_false_r; done.
  - rewrite (bool_decide_false (i + shift = x)%nat) by done. cbn. rewrite orb_false_r. f_equal. f_equal. apply bool_decide_ext. set_solver.
Qed.

Lemma shift_bitmap_ok bitmap shift :
  length bitmap = BITMAP_BYTES →
  length (shift_bitmap bitmap shift) = BITMAP_BYTES ∧
  ∀ i, (i < MINUTES_WINDOW)%nat →
    get_bit (shift_bitmap bitmap shift) i = bool_decide (i + shift < MINUTES_WINDOW)%nat && get_bit bitmap (i + shift).
Proof.
  intros Hlen. unfold shift_bitmap. rewrite normalize_bitmap_id by done. destruct (Nat.eqb_spec shift 0) as [->|Hne].
  { split; [done|]. intros i Hi. by rewrite Nat.add_0_r, bool_decide_true by done. }
  destruct (Nat.leb_spec MINUTES_WINDOW shift) as [Hbig|Hsmall].
  { split; [by rewrite length_fmap|]. intros i Hi. rewrite zeroes_get_bit, bool_decide_false by lia. done. }
  destruct (shift_fold bitmap ((λ _, 0) <$> bitmap) shift (seq shift (MINUTES_WINDOW - shift))) as [S1 S2].
  - by rewrite length_fmap.
  - apply Forall_seq. intros; lia.
  - apply Forall_seq. intros; lia.
  - split; [done|]. intros i Hi. rewrite S2, zeroes_get_bit. cbn. f_equal. apply bool_decide_ext. rewrite elem_of_seq. lia.
Qed.

(** ** Records *)

(** A record counts the bits of a bitmap that covers the window. *)
Definition record_ok (r : PersistedInboundIpRecord) : Prop :=
  length (ir_bitmap r) = BITMAP_BYTES ∧ ir_minutes r = N.of_nat (count_bitmap_bits (ir_bitmap r)).

Definition records_ok (ips : gmap string PersistedInboundIpRecord) : Prop := ∀ ip r, ips !! ip = Some r → record_ok r ∧ ir_minutes r ≠ 0.
Definition usage_ok (memberships : gmap string PersistedInboundIpMembership) : Prop :=
  ∀ key m, memberships !! key = Some m → im_ips m ≠ ∅ ∧ records_ok (im_ips m).

(** Whether the bit of an address of a membership is set. *)
Definition record_bit (r : option PersistedInboundIpRecord) (i : nat) : bool := match r with Some r => get_bit (ir_bitmap r) i | None => false end.
Definition bit (memberships : gmap string PersistedInboundIpMembership) (key ip : string) (i : nat) : bool :=
  record_bit (memberships !! key ≫= λ m, im_ips m !! ip) i.

Lemma record_empty r : record_ok r → ir_minutes r = 0 → ∀ i, (i < MINUTES_WINDOW)%nat → get_bit (ir_bitmap r) i = false.
Proof.
  intros [Hlen Hcount] Hz. rewrite Hcount, count_bitmap_bits_present, Hlen, bitmap_covers_window in Hz. apply present_empty. lia.
Qed.

Lemma drop_empty_ok memberships :
  (∀ key m ip r, memberships !! key = Some m → im_ips m !! ip = Some r → record_ok r) →
  usage_ok (drop_empty memberships) ∧
  ∀ key ip i, (i < MINUTES_WINDOW)%nat → bit (drop_empty memberships) key ip i = bit memberships key ip i.
Proof.
  intros Hok. unfold drop_empty, bit. split.
  - intros key m [Hm Hne]%map_lookup_filter_Some. split; [done|]. rewrite lookup_fmap in Hm.
    destruct (memberships !! key) as [m0|] eqn:Hm0; [|done]. injection Hm as <-. intros ip r Hr. cbn in Hr.
    apply map_lookup_filter_Some in Hr as [Hr Hmin]. split; [by eapply Hok|done].
  - intros key ip i Hi. rewrite map_lookup_filter, lookup_fmap. destruct (memberships !! key) as [m|] eqn:Hm; [|done]. cbn.
    assert (record_bit (filter (λ '(_, r), ir_minutes r ≠ 0) (im_ips m) !! ip) i = record_bit (im_ips m !! ip) i) as Hbit.
    { rewrite map_lookup_filter. destruct (im_ips m !! ip) as [r|] eqn:Hr; [|done]. cbn. case_guard as Hz; [done|]. cbn.
      symmetry. apply record_empty; [by eapply Hok| |done].
      destruct (N.eq_dec (ir_minutes r) 0) as [|Hnz]; [done|]. by destruct Hz. }
    case_guard as Hne; cbn; [done|]. rewrite <-Hbit.
    destruct (decide (filter (λ '(_, r), ir_minutes r ≠ 0) (im_ips m) = ∅)) as [->|Hnz]; [by rewrite lookup_empty|]. by destruct Hne.
Qed.

Lemma shift_record_ok shift r :
  record_ok r → record_ok (shift_record shift r) ∧
  ∀ i, (i < MINUTES_WINDOW)%nat → get_bit (ir_bitmap (shift_record shift r)) i = bool_decide (i + shift < MINUTES_WINDOW)%nat && get_bit (ir_bitmap r) (i + shift).
Proof. intros [Hlen _]. destruct (shift_bitmap_ok (ir_bitmap r) shift Hlen) as [H1 H2]. by split; [split|]. Qed.

Lemma mark_seen_ok minute_str r :
  record_ok r → record_ok (mark_seen minute_str r).1 ∧ ir_minutes (mark_seen minute_str r).1 ≠ 0 ∧
  ∀ i, get_bit (ir_bitmap (mark_seen minute_str r).1) i = bool_decide (i = MINUTES_WINDOW - 1)%nat || get_bit (ir_bitmap r) i.
Proof.
  intros [Hlen Hcount]. unfold mark_seen. cbn [fst].
  set (r0 := r <| ir_bitmap ::= normalize_bitmap |>).
  assert (ir_bitmap r0 = ir_bitmap r) as Hb0 by (apply normalize_bitmap_id, Hlen). assert (ir_minutes r0 = ir_minutes r) as Hm0 by done.
  set (r1 := if get_bit (ir_bitmap r0) (MINUTES_WINDOW - 1) then r0 else _).
  assert (record_ok r1 ∧ ir_minutes r1 ≠ 0 ∧ ∀ i, get_bit (ir_bitmap r1) i = bool_decide (i = MINUTES_WINDOW - 1)%nat || get_bit (ir_bitmap r) i) as H.
  { assert (MINUTES_WINDOW - 1 < 8 * length (ir_bitmap r))%nat as Hlt by (rewrite Hlen, bitmap_covers_window; unfold MINUTES_WINDOW; lia).
    unfold r1. rewrite Hb0. destruct (get_bit (ir_bitmap r) (MINUTES_WINDOW - 1)) eqn:Hlast.
    - split_and!; [split; [by rewrite Hb0|by rewrite Hb0, Hm0]| |].
      + rewrite Hm0, Hcount, count_bitmap_bits_present, Hlen, bitmap_covers_window. intros Hz.
        assert (length (present (ir_bitmap r) MINUTES_WINDOW) = 0%nat) as Hp by lia. rewrite present_empty in Hp.
        rewrite Hp in Hlast by (unfold MINUTES_WINDOW; lia). done.
      + intros i. rewrite Hb0. destruct (decide (i = MINUTES_WINDOW - 1)%nat) as [->|]; [by rewrite Hlast, orb_true_r|by rewrite bool_decide_false].
    - pose proof (count_set_bit _ _ Hlt Hlast) as Hset. pose proof (count_le (ir_bitmap r)) as Hle. rewrite Hlen, bitmap_covers_window in Hle.
      set (r2 := r0 <| ir_bitmap ::= _ |> <| ir_minutes ::= _ |>).
      assert (ir_bitmap r2 = set_bit (ir_bitmap r) (MINUTES_WINDOW - 1) true) as Hb2
        by (change (set_bit (ir_bitmap r0) (MINUTES_WINDOW - 1) true = set_bit (ir_bitmap r) (MINUTES_WINDOW - 1) true); by rewrite Hb0).
      assert (ir_minutes r2 = N.of_nat (S (count_bitmap_bits (ir_bitmap r)))) as Hm2.
      { change (sat_add u32_max (ir_minutes r0) 1 = N.of_nat (S (count_bitmap_bits (ir_bitmap r)))). rewrite Hm0, Hcount.
        unfold sat_add. unfold MINUTES_WINDOW, u32_max in *. lia. }
      split_and!; [split; [by rewrite Hb2, set_bit_length|by rewrite Hb2, Hm2, Hset]|rewrite Hm2; lia|].
      intros i. rewrite Hb2. by apply get_set_bit. }
  clearbody r1. destruct (_ || _); exact H.
Qed.

Notation LAST := (MINUTES_WINDOW - 1)%nat.

Lemma default_record_ok : record_ok PersistedInboundIpRecord_default.
Proof. split; by vm_compute. Qed.

Lemma default_record_bit i : get_bit (ir_bitmap PersistedInboundIpRecord_default) i = false.
Proof. change (get_bit (replicate BITMAP_BYTES 0) i = false). generalize BITMAP_BYTES. intros n. rewrite get_bit_testbit. destruct (_ !! _) as [v|] eqn:Hv; [|done]. by apply lookup_replicate in Hv as [-> _]. Qed.

(** The addresses a sample names. *)
Definition sample_pairs (s : InboundIpMinuteSample) : list (string * string) :=
  (λ ip, (is_membership_key s, ip)) <$> omap normalize_ip_string (is_ips s).

Lemma elem_of_sample_pairs s key ip : (key, ip) ∈ sample_pairs s ↔ key = is_membership_key s ∧ ip ∈ unique_ips (is_ips s).
Proof.
  unfold sample_pairs, unique_ips. rewrite elem_of_bs_items, elem_of_list_to_set, list_elem_of_fmap. split.
  - intros (ip' & [= -> ->] & Hin). done.
  - intros [-> Hin]. by exists ip.
Qed.

Section Facts.
Context (lookup_geo : string → PersistedInboundIpGeo) (allow_geo_reuse : bool) (minute_str : string).

Lemma record_ip_ok ips known changed ip :
  records_ok ips →
  let ips' := (record_ip lookup_geo allow_geo_reuse minute_str (ips, known, changed) ip).1.1 in
  records_ok ips' ∧ ips' ≠ ∅ ∧
  ∀ ip' i, record_bit (ips' !! ip') i = true ↔ (i = LAST ∧ ip' = ip) ∨ record_bit (ips !! ip') i = true.
Proof.
  intros Hok. set (r := default PersistedInboundIpRecord_default (ips !! ip)).
  assert (record_ok r ∧ ∀ i, get_bit (ir_bitmap r) i = record_bit (ips !! ip) i) as [Hr Hrb].
  { unfold r. destruct (ips !! ip) as [r0|] eqn:Hr0; [split; [by eapply Hok|done]|].
    split; [apply default_record_ok|intros i; by apply default_record_bit]. }
  destruct (mark_seen_ok minute_str r Hr) as (M1 & M2 & M3).
  assert (∃ r', (record_ip lookup_geo allow_geo_reuse minute_str (ips, known, changed) ip).1.1 = <[ip := r']> ips
    ∧ ir_bitmap r' = ir_bitmap (mark_seen minute_str r).1 ∧ ir_minutes r' = ir_minutes (mark_seen minute_str r).1) as (r' & E1 & E2 & E3).
  { unfold record_ip. fold r. destruct (mark_seen minute_str r) as [r1 c]. cbn [fst].
    destruct (negb _); [by exists r1|]. destruct (if allow_geo_reuse then _ else None) as [g|]; [by eexists|].
    destruct (bool_decide _); by eexists. }
  cbn zeta. rewrite E1. split_and!.
  - intros ip' r1. rewrite lookup_insert_Some. intros [[<- <-]|[_ Hin]]; [|by apply (Hok ip')].
    unfold record_ok. rewrite E2, E3. done.
  - apply insert_non_empty.
  - intros ip' i. destruct (decide (ip' = ip)) as [->|Hne].
    + rewrite lookup_insert_eq. cbn. rewrite E2, M3, Hrb, orb_true_iff, bool_decide_eq_true. assert (ip = ip) by reflexivity. tauto.
    + rewrite lookup_insert_ne by done. tauto.
Qed.

Lemma record_ips_ok l ips known changed :
  records_ok ips →
  let ips' := (foldl (record_ip lookup_geo allow_geo_reuse minute_str) (ips, known, changed) l).1.1 in
  records_ok ips' ∧ (l ≠ [] → ips' ≠ ∅) ∧
  ∀ ip i, record_bit (ips' !! ip) i = true ↔ (i = LAST ∧ ip ∈ l) ∨ record_bit (ips !! ip) i = true.
Proof.
  revert ips known changed; induction l as [|x l IH]; intros ips known changed Hok; cbn [foldl fst].
  { split_and!; [done|done|]. intros ip i. rewrite elem_of_nil. tauto. }
  destruct (record_ip_ok ips known changed x Hok) as (R1 & R2 & R3).
  destruct (record_ip _ _ _ _ x) as [[ips1 known1] changed1]. cbn [fst] in *.
  destruct (IH ips1 known1 changed1 R1) as (I1 & I2 & I3). split_and!; [done| |].
  - intros _. destruct l; [done|]. by apply I2.
  - intros ip i. rewrite I3, R3, elem_of_cons. tauto.
Qed.

Lemma record_sample_ok memberships known changed s :
  usage_ok memberships →
  let ms := (record_sample lookup_geo allow_geo_reuse minute_str (memberships, known, changed) s).1.1 in
  usage_ok ms ∧
  ∀ key ip i, bit ms key ip i = true ↔ (i = LAST ∧ (key, ip) ∈ sample_pairs s) ∨ bit memberships key ip i = true.
Proof.
  intros Hok. unfold record_sample. setoid_rewrite elem_of_sample_pairs.
  destruct (unique_ips (is_ips s)) as [|x l] eqn:Hips.
  { split; [done|]. intros key ip i. rewrite elem_of_nil. cbn [fst]. tauto. }
  set (m := default _ (memberships !! is_membership_key s)). set (ch := changed || _ || _ || _ || _).
  assert (records_ok (im_ips m)) as Hm.
  { unfold m. destruct (memberships !! _) as [m0|] eqn:Hm0; [by eapply Hok|]. intros ip r. cbn. by rewrite lookup_empty. }
  assert (∀ ip i, record_bit (im_ips m !! ip) i = bit memberships (is_membership_key s) ip i) as Hb.
  { intros ip i. unfold bit, m. destruct (memberships !! _) as [m0|]; [done|]. cbn. by rewrite lookup_empty. }
  destruct (record_ips_ok (x :: l) (im_ips m) known ch Hm) as (R1 & R2 & R3).
  destruct (foldl _ _ _) as [[records known1] changed1]. cbn [fst] in *. split.
  - intros key m'. rewrite lookup_insert_Some. intros [[<- <-]|[_ Hin]]; [by split; [apply R2|]|by eapply Hok].
  - intros key ip i. unfold bit at 1. destruct (decide (key = is_membership_key s)) as [->|Hne].
    + rewrite lookup_insert_eq. cbn. rewrite R3, Hb. tauto.
    + rewrite lookup_insert_ne by done. fold (bit memberships key ip i). tauto.
Qed.

Lemma record_samples_ok samples memberships known changed :
  usage_ok memberships →
  let ms := (foldl (record_sample lookup_geo allow_geo_reuse minute_str) (memberships, known, changed) samples).1.1 in
  usage_ok ms ∧
  ∀ key ip i, bit ms key ip i = true ↔ (i = LAST ∧ (key, ip) ∈ samples ≫= sample_pairs) ∨ bit memberships key ip i = true.
Proof.
  revert memberships known changed; induction samples as [|s samples IH]; intros ms known changed Hok; cbn [foldl fst].
  { split; [done|]. intros key ip i. rewrite elem_of_nil. tauto. }
  destruct (record_sample_ok ms known changed s Hok) as [R1 R2].
  destruct (record_sample _ _ _ _ s) as [[ms1 known1] changed1]. cbn [fst] in *.
  destruct (IH ms1 known1 changed1 R1) as [I1 I2]. split; [done|].
  intros key ip i. rewrite I2, R2, bind_cons, elem_of_app. tauto.
Qed.
End Facts.

(** ** Advancing *)

(** The minute a bit stands for. *)
Definition minute_at (latest : Z) (i : nat) : Z := (latest - Z.of_nat (LAST - i) * MINUTE_NANOS)%Z.

Lemma floor_minute_idem t : floor_minute (floor_minute t) = floor_minute t.
Proof. unfold floor_minute, MINUTE_NANOS. Z.div_mod_to_equations. lia. Qed.

Lemma minutes_apart l m : floor_minute l = l → floor_minute m = m → (m - l = num_minutes (m - l) * MINUTE_NANOS)%Z.
Proof. unfold floor_minute, num_minutes, MINUTE_NANOS. intros Hl Hm. Z.to_euclidean_division_equations. lia. Qed.

Section Advance.
Context `{Rfc3339Roundtrip}.

Lemma parse_rfc3339_minute m : i64_nanos (floor_minute m) → parse_minute (rfc3339_minute m) = Some (floor_minute m).
Proof. intros Hm. unfold parse_minute, rfc3339_minute. rewrite parse_to_rfc3339 by done. cbn. by rewrite floor_minute_idem. Qed.

Lemma shift_memberships_ok shift memberships :
  usage_ok memberships →
  let ms := if (MINUTES_WINDOW <=? shift)%nat then ∅ else drop_empty ((λ m, m <| im_ips ::= fmap (shift_record shift) |>) <$> memberships) in
  usage_ok ms ∧
  ∀ key ip i, (i < MINUTES_WINDOW)%nat → bit ms key ip i = bool_decide (i + shift < MINUTES_WINDOW)%nat && bit memberships key ip (i + shift).
Proof.
  intros Hok. destruct (Nat.leb_spec MINUTES_WINDOW shift) as [Hbig|Hsmall]; cbn zeta.
  { split; [intros key m; by rewrite lookup_empty|]. intros key ip i Hi. rewrite bool_decide_false by lia.
    unfold bit. by rewrite lookup_empty. }
  destruct (drop_empty_ok ((λ m, m <| im_ips ::= fmap (shift_record shift) |>) <$> memberships)) as [D1 D2].
  { intros key m ip r. rewrite lookup_fmap. destruct (memberships !! key) as [m0|] eqn:Hm0; [|done]. intros [= <-]. cbn.
    rewrite lookup_fmap. destruct (im_ips m0 !! ip) as [r0|] eqn:Hr0; [|done]. intros [= <-]. apply shift_record_ok.
    destruct (Hok key m0 Hm0) as [_ Hrec]. by destruct (Hrec ip r0 Hr0). }
  split; [done|]. intros key ip i Hi. rewrite D2 by done. unfold bit. rewrite lookup_fmap.
  destruct (memberships !! key) as [m0|] eqn:Hm0; cbn; [|by rewrite andb_false_r]. rewrite lookup_fmap.
  destruct (im_ips m0 !! ip) as [r0|] eqn:Hr0; cbn; [|by rewrite andb_false_r]. apply shift_record_ok; [|done].
  destruct (Hok key m0 Hm0) as [_ Hrec]. by destruct (Hrec ip r0 Hr0).
Qed.

Lemma advance_ok usage l m :
  usage_ok (iu_memberships usage) → latest_minute_dt usage = Some l → floor_minute l = l → floor_minute m = m → i64_nanos m →
  let usage' := (advance_to_minute usage m).1 in
  latest_minute_dt usage' = Some (Z.max l m) ∧ usage_ok (iu_memberships usage') ∧
  ∀ key ip i, (i < MINUTES_WINDOW)%nat → bit (iu_memberships usage') key ip i = true ↔
    ∃ j, (j < MINUTES_WINDOW)%nat ∧ minute_at l j = minute_at (Z.max l m) i ∧ bit (iu_memberships usage) key ip j = true.
Proof.
  intros Hok Hlatest Hl Hm Hi64. pose proof (minutes_apart l m Hl Hm) as Hap. unfold advance_to_minute. rewrite Hlatest.
  destruct (Z.leb_spec (num_minutes (m - l)) 0) as [Hle|Hgt]; cbn zeta.
  - assert (Z.max l m = l) as -> by (unfold MINUTE_NANOS in *; lia). split_and!; [done|done|]. intros key ip i Hi. split.
    + intros Hb. by exists i.
    + intros (j & Hj & Heq & Hb). assert (i = j) as -> by (unfold minute_at, MINUTE_NANOS in Heq; lia). done.
  - assert (Z.max l m = m) as -> by (unfold MINUTE_NANOS in *; lia). set (s := Z.to_nat (num_minutes (m - l))).
    destruct (shift_memberships_ok s (iu_memberships usage) Hok) as [S1 S2]. split_and!; [|exact S1|].
    + change (parse_minute (rfc3339_minute m) = Some m). rewrite parse_rfc3339_minute; by rewrite Hm.
    + intros key ip i Hi. etrans; [by rewrite S2|]. rewrite andb_true_iff, bool_decide_eq_true.
      assert (∀ j, (j < MINUTES_WINDOW)%nat → minute_at l j = minute_at m i ↔ j = (i + s)%nat) as Hj
        by (intros j Hj; unfold minute_at, MINUTE_NANOS in *; lia).
      split.
      * intros [Hlt Hb]. exists (i + s)%nat. split_and!; [done|by apply Hj|done].
      * intros (j & Hlt & Heq & Hb). apply Hj in Heq as ->; done.
Qed.
End Advance.

(** ** Refinement *)

(** The specification: a set of sightings (a membership, an address, a minute), never
    forgotten, and the latest minute.  A sample late by minutes counts for the latest
    minute. *)
Record Sightings : Type := mkSightings {
  sg_latest : option Z;
  sg_seen : list (string * string * Z);
}.

Inductive UsageOp : Type :=
| RecordMinute (minute : Z) (online_stats_unavailable : bool) (samples : list InboundIpMinuteSample)
    (lookup_geo : string → PersistedInboundIpGeo) (allow_geo_reuse : bool)
| BackfillGeo (ips : list string) (lookup_geo : string → PersistedInboundIpGeo)
| ClearMembership (membership_key : string)
| NormalizeUsage (allowed_membership_keys : gset string).

Definition spec_op (sg : Sightings) (op : UsageOp) : Sightings :=
  match op with
  | RecordMinute minute _ samples _ _ =>
      let latest := from_option (Z.max (floor_minute minute)) (floor_minute minute) (sg_latest sg) in
      mkSightings (Some latest) (((λ p, (p, latest)) <$> (samples ≫= sample_pairs)) ++ sg_seen sg)
  | BackfillGeo _ _ => sg
  | ClearMembership key => mkSightings (sg_latest sg) (filter (λ '(k, _, _), k ≠ key) (sg_seen sg))
  | NormalizeUsage allowed => mkSightings (sg_latest sg) (filter (λ '(k, _, _), k ∈ allowed) (sg_seen sg))
  end.

Definition usage_op `{Rfc3339, TimeFormat} (usage : PersistedInboundIpUsage) (op : UsageOp) : PersistedInboundIpUsage :=
  match op with
  | RecordMinute minute unavailable samples lookup_geo reuse => (record_minute_samples lookup_geo usage minute unavailable samples reuse).1
  | BackfillGeo ips lookup_geo => (backfill_geo_for_ips lookup_geo usage ips).1
  | ClearMembership key => (clear_membership usage key).1
  | NormalizeUsage allowed => (normalize usage allowed).1
  end.

(** Minutes RFC 3339 can write back and forth. *)
Definition op_in_range (op : UsageOp) : Prop := match op with RecordMinute minute _ _ _ _ => i64_nanos (floor_minute minute) | _ => True end.

Definition refines_sightings `{Rfc3339, TimeFormat} (usage : PersistedInboundIpUsage) (sg : Sightings) : Prop :=
  latest_minute_dt usage = sg_latest sg ∧ usage_ok (iu_memberships usage) ∧
  match sg_latest sg with
  | None => sg_seen sg = [] ∧ iu_memberships usage = ∅
  | Some latest =>
      floor_minute latest = latest ∧ Forall (λ s, (s.2 ≤ latest)%Z) (sg_seen sg) ∧
      ∀ key ip i, (i < MINUTES_WINDOW)%nat → bit (iu_memberships usage) key ip i = true ↔ (key, ip, minute_at latest i) ∈ sg_seen sg
  end.

Section Refinement.
Context `{Rfc3339Roundtrip}.

(** Restricting memberships restricts sightings. *)
Lemma refines_restrict usage sg (P : string → Prop) `{∀ k, Decision (P k)} memberships :
  refines_sightings usage sg → usage_ok memberships →
  (∀ key ip i, (i < MINUTES_WINDOW)%nat → bit memberships key ip i = true ↔ P key ∧ bit (iu_memberships usage) key ip i = true) →
  (iu_memberships usage = ∅ → memberships = ∅) →
  ∀ usage', iu_memberships usage' = memberships → iu_latest_minute usage' = iu_latest_minute usage →
  refines_sightings usage' (mkSightings (sg_latest sg) (filter (λ '(k, _, _), P k) (sg_seen sg))).
Proof.
  intros (R1 & R2 & R3) Hok Hbit Hempty usage' Hms Hlat. unfold refines_sightings. cbn [sg_latest sg_seen]. split_and!.
  - unfold latest_minute_dt in *. by rewrite Hlat.
  - by rewrite Hms.
  - destruct (sg_latest sg) as [latest|].
    + destruct R3 as (F1 & F2 & F3). split_and!; [done| |].
      { rewrite Forall_forall in *. intros s [_ Hs]%list_elem_of_filter. by apply F2. }
      intros key ip i Hi.      rewrite Hms, Hbit, F3, list_elem_of_filter by done. done.
    + destruct R3 as [E1 E2]. rewrite E1, Hms. split; [done|by apply Hempty].
Qed.

Lemma refines_clear usage sg key : refines_sightings usage sg → refines_sightings (usage_op usage (ClearMembership key)) (spec_op sg (ClearMembership key)).
Proof.
  intros HR. pose proof HR as (_ & Hok & _). eapply (refines_restrict usage sg (λ k, k ≠ key) (delete key (iu_memberships usage))); try done.
  - intros k m. rewrite lookup_delete_Some. intros [_ Hm]. by eapply Hok.
  - intros k ip i Hi. unfold bit. destruct (decide (k = key)) as [->|Hne]; [rewrite lookup_delete_eq|rewrite lookup_delete_ne by done].
    + cbn. split; [done|]. by intros [[] _].
    + tauto.
  - intros ->. apply delete_empty.
Qed.

Lemma normalize_record_id r : record_ok r → normalize_record r = r.
Proof.
  intros [Hlen Hmin]. destruct r as [b n f l g]. cbn in *. unfold normalize_record. cbn [ir_bitmap]. rewrite normalize_bitmap_id by done.
  by rewrite Hmin.
Qed.

Lemma refines_normalize usage sg allowed :
  refines_sightings usage sg → refines_sightings (usage_op usage (NormalizeUsage allowed)) (spec_op sg (NormalizeUsage allowed)).
Proof.
  intros HR. pose proof HR as (_ & Hok & _).
  set (kept := filter (λ '(key, _), key ∈ allowed) (iu_memberships usage)).
  assert (((λ m, m <| im_ips ::= fmap normalize_record |>) <$> kept) = kept) as Hid.
  { apply map_eq. intros k. rewrite lookup_fmap. destruct (kept !! k) as [m|] eqn:Hm; [|done]. cbn. f_equal.
    apply map_lookup_filter_Some in Hm as [Hm _]. destruct (Hok k m Hm) as [_ Hrec]. destruct m as [u n e t ips]. unfold update_field. cbn in *. f_equal.
    apply map_eq. intros ip. rewrite lookup_fmap. destruct (ips !! ip) as [r|] eqn:Hr; [|done]. cbn. f_equal.
    apply normalize_record_id. by destruct (Hrec ip r Hr). }
  destruct (drop_empty_ok kept) as [D1 D2].
  { intros key m ip r [Hm _]%map_lookup_filter_Some Hr. destruct (Hok key m Hm) as [_ Hrec]. by destruct (Hrec ip r Hr). }
  eapply (refines_restrict usage sg (λ k, k ∈ allowed) (drop_empty kept)); [done|done| | | |done].
  - intros k ip i Hi. rewrite D2 by done. unfold bit, kept. rewrite map_lookup_filter. destruct (iu_memberships usage !! k) as [m|]; cbn.
    + case_guard as Hin; cbn; [tauto|]. split; [done|]. by intros [? _].
    + split; [done|]. by intros [_ ?].
  - intros He. unfold drop_empty, kept. by rewrite He.
  - exact (f_equal drop_empty Hid).
Qed.

Lemma refines_backfill usage sg ips lookup_geo :
  refines_sightings usage sg → refines_sightings (usage_op usage (BackfillGeo ips lookup_geo)) (spec_op sg (BackfillGeo ips lookup_geo)).
Proof.
  intros HR. pose proof HR as (_ & Hok & _). destruct sg as [latest seen]. set (c := list_to_set (omap normalize_ip_string ips) : gset string).
  assert (∀ ip r, ir_bitmap (backfill_record lookup_geo c ip r) = ir_bitmap r ∧ ir_minutes (backfill_record lookup_geo c ip r) = ir_minutes r) as Hr
    by (intros ip r; unfold backfill_record; by destruct (_ && _)). subst c.
  assert (seen = filter (λ '(k, _, _), True) seen) as Hseen by (symmetry; apply filter_all; intros [[]]; done).
  cbn [spec_op]. rewrite Hseen.
  eapply (refines_restrict usage (mkSightings latest seen) (λ _, True)); [done| | | |done|done].
  - intros k m. cbn. rewrite lookup_fmap. destruct (iu_memberships usage !! k) as [m0|] eqn:Hm0; [|done]. intros [= <-].
    destruct (Hok k m0 Hm0) as [Hne Hrec]. cbn. split.
    + apply map_choose in Hne as (ip & r & Hip). intros Hz. apply (f_equal (lookup ip)) in Hz. by rewrite map_lookup_imap, Hip, lookup_empty in Hz.
    + intros ip r. rewrite map_lookup_imap. destruct (im_ips m0 !! ip) as [r0|] eqn:Hr0; [|done]. intros [= <-].
      unfold record_ok. destruct (Hr ip r0) as [-> ->]. by apply (Hrec ip).
  - intros k ip i Hi. unfold bit. cbn. rewrite lookup_fmap. destruct (iu_memberships usage !! k) as [m0|]; [|naive_solver]. cbn.
    rewrite map_lookup_imap. destruct (im_ips m0 !! ip) as [r0|]; [|naive_solver]. cbn. destruct (Hr ip r0) as [-> _]. tauto.
  - intros He. cbn. by rewrite He, fmap_empty.
Qed.

Lemma refines_advance usage sg m :
  refines_sightings usage sg → floor_minute m = m → i64_nanos m →
  refines_sightings (advance_to_minute usage m).1 (mkSightings (Some (from_option (Z.max m) m (sg_latest sg))) (sg_seen sg)).
Proof.
  intros (R1 & R2 & R3) Hm Hi64. destruct (sg_latest sg) as [l|]; cbn [from_option].
  - destruct R3 as (F1 & F2 & F3). destruct (advance_ok usage l m R2 R1 F1 Hm Hi64) as (A1 & A2 & A3). cbn zeta in *. rewrite (Z.max_comm m l).
    split_and!; [done|done|]. cbn [sg_latest sg_seen]. split_and!.
    + destruct (Z.max_spec l m) as [[_ ->]|[_ ->]]; done.
    + eapply Forall_impl; [exact F2|]. cbn. lia.
    + intros key ip i Hi. rewrite A3 by done. split.
      * intros (j & Hj & <- & Hb). by apply F3.
      * intros Hin. rewrite Forall_forall in F2. pose proof (F2 _ Hin) as Hle. cbn in Hle.
        assert (∃ j, (j < MINUTES_WINDOW)%nat ∧ minute_at l j = minute_at (Z.max l m) i) as (j & Hj & Heq).
        { exists (i + Z.to_nat (num_minutes (Z.max l m - l)))%nat. pose proof (minutes_apart l m F1 Hm) as Hap.
          unfold minute_at in *. destruct (Z.max_spec l m) as [[Hlt Hmax]|[Hge Hmax]]; rewrite Hmax in *.
          - unfold MINUTE_NANOS in *. lia.
          - rewrite Z.sub_diag, Nat.add_0_r. done. }
        exists j. split_and!; [done|done|]. apply F3; [done|]. by rewrite Heq.
  - destruct R3 as [E1 E2]. unfold advance_to_minute. rewrite R1. cbn [fst]. split_and!; [|done|].
    + change (parse_minute (rfc3339_minute m) = Some m). rewrite parse_rfc3339_minute; by rewrite Hm.
    + cbn [sg_latest sg_seen]. rewrite E1. split_and!; [done|done|]. intros key ip i Hi. cbn. rewrite E2, elem_of_nil. unfold bit. by rewrite lookup_empty.
Qed.

Lemma refines_record usage sg minute unavailable samples lookup_geo reuse :
  let op := RecordMinute minute unavailable samples lookup_geo reuse in
  op_in_range op → refines_sightings usage sg → refines_sightings (usage_op usage op) (spec_op sg op).
Proof.
  intros op Hrange HR. cbn in Hrange. cbn [usage_op spec_op op]. unfold record_minute_samples.
  set (m := floor_minute minute) in *. set (u1 := usage <| iu_schema_version := _ |> <| iu_minutes_window := _ |> <| iu_online_stats_unavailable := _ |>).
  assert (refines_sightings u1 sg) as HR1 by exact HR.
  assert (floor_minute m = m) as Hm by apply floor_minute_idem. pose proof (refines_advance u1 sg m HR1 Hm Hrange) as HR2.
  destruct (advance_to_minute u1 m) as [u2 advanced]. cbn [fst] in HR2. destruct HR2 as (A1 & A2 & A3).
  set (latest := from_option (Z.max m) m (sg_latest sg)) in *. cbn [sg_latest sg_seen] in *. destruct A3 as (F1 & F2 & F3).
  set (known := if reuse then _ else _). set (ch := _ || advanced).
  destruct (record_samples_ok lookup_geo reuse (rfc3339_minute m) samples (iu_memberships u2) known ch A2) as [S1 S2].
  destruct (foldl _ _ samples) as [[ms known'] ch']. cbn [fst] in *. split_and!; [exact A1|exact S1|]. cbn [sg_latest sg_seen]. split_and!.
  - done.
  - apply Forall_app. split; [|done]. apply Forall_fmap, Forall_true. intros p. apply Z.le_refl.
  - intros key ip i Hi. etrans; [apply S2|]. rewrite F3, elem_of_app, list_elem_of_fmap by done.
    assert (minute_at latest i = latest ↔ i = LAST) as Hlast by (unfold minute_at, MINUTE_NANOS; lia).
    split; (intros [Hn|Hs]; [left|by right]).
    + destruct Hn as [Hi' Hin]. exists (key, ip). apply Hlast in Hi' as ->. done.
    + destruct Hn as ([k' ip'] & [= <- <- Heq] & Hin). by apply Hlast in Heq.
Qed.

Lemma refines_default : refines_sightings PersistedInboundIpUsage_default (mkSightings None []).
Proof. split_and!; [done| |done]. intros key m. cbn. by rewrite lookup_empty. Qed.

Lemma refines_history ops usage sg :
  Forall op_in_range ops → refines_sightings usage sg → refines_sightings (foldl usage_op usage ops) (foldl spec_op sg ops).
Proof.
  intros Hrange. revert usage sg. induction Hrange as [|op ops Hop _ IH]; intros usage sg HR; [done|]. cbn [foldl]. apply IH.
  destruct op; [by apply refines_record|by apply refines_backfill|by apply refines_clear|by apply refines_normalize].
Qed.

(** What the refinement says of bits. *)
Lemma refines_bits usage sg :
  refines_sightings usage sg →
  latest_minute_dt usage = sg_latest sg ∧ usage_ok (iu_memberships usage) ∧
  ∀ key ip i, (i < MINUTES_WINDOW)%nat →
    bit (iu_memberships usage) key ip i = true ↔ ∃ latest, sg_latest sg = Some latest ∧ (key, ip, minute_at latest i) ∈ sg_seen sg.
Proof.
  intros (R1 & R2 & R3). split_and!; [done|done|]. intros key ip i Hi. destruct (sg_latest sg) as [latest|].
  - destruct R3 as (_ & _ & F3). rewrite F3 by done. split; [by eexists|]. by intros (? & [= <-] & ?).
  - destruct R3 as [_ ->]. split; [unfold bit; by rewrite lookup_empty|]. by intros (? & ? & _).
Qed.

Lemma refines_none usage sg : refines_sightings usage sg → sg_latest sg = None → sg_seen sg = [].
Proof. intros (_ & _ & R3) Hn. rewrite Hn in R3. by destruct R3. Qed.

(** C16: the seven-day bitmaps refine an unbounded ledger of sightings.  Start from the
    empty file and run any sequence of operations - recording minutes (with late, empty
    or repeated samples, gaps of any length, any resolver of locations), filling in
    locations, clearing a membership, normalizing against the memberships that exist.
    The file then knows the latest minute of the ledger, and for every membership, every
    address and each of the 10,080 minutes of the window, the bit is set exactly when the
    ledger has the sighting; every record kept has a bitmap of the right size, its
    [minutes] counts its bits and is not zero, and no membership is kept without
    addresses. *)
Theorem bitmaps_refine_sightings ops :
  Forall op_in_range ops →
  let usage := foldl usage_op PersistedInboundIpUsage_default ops in
  let sg := foldl spec_op (mkSightings None []) ops in
  latest_minute_dt usage = sg_latest sg ∧ usage_ok (iu_memberships usage) ∧
  ∀ key ip i, (i < MINUTES_WINDOW)%nat →
    bit (iu_memberships usage) key ip i = true ↔ ∃ latest, sg_latest sg = Some latest ∧ (key, ip, minute_at latest i) ∈ sg_seen sg.
Proof. intros Hrange. apply refines_bits, refines_history; [done|apply refines_default]. Qed.
End Refinement.

(** ** Example *)

Module Sample.
Definition sample (key : string) (ips : list string) : InboundIpMinuteSample :=
  mkInboundIpMinuteSample key "u1" "n1" "e1" "vless-e1" ips.
Definition no_geo (_ : string) : PersistedInboundIpGeo := geo_default.

(** Two addresses, one of them written twice; three minutes later one of them again; the
    second membership cleared. *)
Definition ops : list UsageOp :=
  [ RecordMinute (1000 * MINUTE_NANOS + 17) false [sample "u1:e1" ["203.0.113.7"; " 203.0.113.7"; "2001:DB8:0::1"]; sample "u1:e2" ["198.51.100.1"]] no_geo true;
    RecordMinute (1003 * MINUTE_NANOS) false [sample "u1:e1" ["203.0.113.7"; "not an address"]] no_geo true;
    ClearMembership "u1:e2" ].

Lemma bitmaps_refine_sightings_witness :
  let usage := foldl (@usage_op nanos_reader nanos_writer) PersistedInboundIpUsage_default ops in
  bit (iu_memberships usage) "u1:e1" "203.0.113.7" LAST = true ∧
  bit (iu_memberships usage) "u1:e1" "2001:db8::1" (LAST - 3) = true ∧
  bit (iu_memberships usage) "u1:e1" "2001:db8::1" LAST ≠ true ∧
  bit (iu_memberships usage) "u1:e2" "198.51.100.1" (LAST - 3) ≠ true.
Proof.
  pose proof (@bitmaps_refine_sightings nanos_reader nanos_writer nanos_roundtrip ops) as H. cbn zeta in H.
  destruct H as (_ & _ & H).
  { repeat constructor; vm_compute; congruence. }
  assert (∀ i, (i <= LAST)%nat → (i < MINUTES_WINDOW)%nat) as Hlt by (intros i; unfold MINUTES_WINDOW; lia). cbn zeta.
  split_and!.
  - apply H; [apply Hlt; lia|]. exists (1003 * MINUTE_NANOS)%Z. split; [by vm_compute|]. apply (bool_decide_unpack _). by vm_compute.
  - apply H; [apply Hlt; lia|]. exists (1003 * MINUTE_NANOS)%Z. split; [by vm_compute|]. apply (bool_decide_unpack _). by vm_compute.
  - rewrite H by (apply Hlt; lia). intros (latest & Hl & Hin). vm_compute in Hl. injection Hl as <-.
    revert Hin. apply (bool_decide_unpack (¬ _)). by vm_compute.
  - rewrite H by (apply Hlt; lia). intros (latest & Hl & Hin). vm_compute in Hl. injection Hl as <-.
    revert Hin. apply (bool_decide_unpack (¬ _)). by vm_compute.
Defined.
End Sample.
