(* ===== verification/InboundView.v ===== *)
(** * Views of inbound addresses

    [build_window_view] of [src/inbound_ip_usage.rs]: what the administration pages show of
    the addresses of some memberships over the last day or week - the number of distinct
    addresses per minute, the busiest lanes (an address on an endpoint) as segments of
    consecutive minutes, and the addresses with where they are. *)

From S2P Require Import Prelude Text Search IpText Domain Clock State InboundIp.
Open Scope string_scope.
Open Scope list_scope.
Open Scope N_scope.

Record InboundIpUsageWarning : Type := mkInboundIpUsageWarning { uw_code : string; uw_message : string }.
Record InboundIpUsageTimelineSegment : Type := mkInboundIpUsageTimelineSegment { ts_start_minute : string; ts_end_minute : string }.
Record InboundIpUsageTimelineLane : Type := mkInboundIpUsageTimelineLane {
  tl_lane_key : string;
  tl_endpoint_id : string;
  tl_endpoint_tag : string;
  tl_ip : string;
  tl_minutes : N;
  tl_segments : list InboundIpUsageTimelineSegment;
}.
Record InboundIpUsageListItem : Type := mkInboundIpUsageListItem {
  li_ip : string;
  li_minutes : N;
  li_endpoint_tags : list string;
  li_region : string;
  li_operator : string;
  li_last_seen_at : string;
}.
#[export] Instance InboundIpUsageListItem_eta : Eta InboundIpUsageListItem := λ r,
  mkInboundIpUsageListItem (li_ip r) (li_minutes r) (li_endpoint_tags r) (li_region r) (li_operator r) (li_last_seen_at r).
Record InboundIpUsageWindowView : Type := mkInboundIpUsageWindowView {
  wv_window_start : string;
  wv_window_end : string;
  wv_warnings : list InboundIpUsageWarning;
  wv_unique_ip_series : list InboundIpUsageSeriesPoint;
  wv_timeline : list InboundIpUsageTimelineLane;
  wv_ips : list InboundIpUsageListItem;
}.
Record InboundIpUsageMembershipView : Type := mkInboundIpUsageMembershipView {
  mv_membership_key : string;
  mv_endpoint_id : string;
  mv_endpoint_tag : string;
}.

Record AggregatedIp : Type := mkAggregatedIp {
  ai_flags : list bool;
  ai_endpoint_tags : gset string;
  ai_last_seen_at : string;
  ai_geo : PersistedInboundIpGeo;
}.
Record AggregatedLane : Type := mkAggregatedLane {
  al_lane_key : string;
  al_endpoint_id : string;
  al_endpoint_tag : string;
  al_ip : string;
  al_flags : list bool;
}.
#[export] Instance AggregatedLane_eta : Eta AggregatedLane := λ r,
  mkAggregatedLane (al_lane_key r) (al_endpoint_id r) (al_endpoint_tag r) (al_ip r) (al_flags r).

Definition scrub_geo_fields (items : list InboundIpUsageListItem) : list InboundIpUsageListItem :=
  (λ item, item <| li_region := EmptyString |> <| li_operator := EmptyString |>) <$> items.

Definition build_warnings (online_stats_unavailable : bool) : list InboundIpUsageWarning :=
  if online_stats_unavailable
  then [mkInboundIpUsageWarning "online_stats_unavailable"
          "Xray online IP stats are unavailable; enable statsUserOnline to collect inbound IP usage."]
  else [].

Definition looks_like_subdivision_code (raw : string) : bool :=
  let raw := trim raw in
  let len := String.length raw in
  if negb ((2 <=? len)%nat && (len <=? 3)%nat) then false
  else forallb (λ c, is_ascii_upper c || is_ascii_digit c) (chars raw).

Definition format_region (geo : PersistedInboundIpGeo) : string :=
  let parts := if str_is_empty (geo_country geo) then [] else [geo_country geo] in
  let parts :=
    if negb (str_is_empty (geo_region geo)) then
      parts ++ [if looks_like_subdivision_code (geo_region geo) && negb (str_is_empty (geo_city geo))
                then geo_city geo +:+ " (" +:+ geo_region geo +:+ ")" else geo_region geo]
    else if bool_decide (parts = []) && negb (str_is_empty (geo_city geo)) then parts ++ [geo_city geo]
    else parts in
  String.concat " " parts.

Definition count_flags (flags : list bool) : nat := length (filter (λ b, b = true) flags).
(** [as u32] *)
Definition as_u32 (n : nat) : N := wrapping u32_max (N.of_nat n).

(** The runs of set flags, as pairs of indices; [start] is where the current run began. *)
Fixpoint runs (index : nat) (start : option nat) (flags : list bool) : list (nat * nat) :=
  match flags with
  | [] => match start with Some s => [(s, (index - 1)%nat)] | None => [] end
  | present :: flags =>
      match start, present with
      | None, true => runs (S index) (Some index) flags
      | Some s, false => (s, (index - 1)%nat) :: runs (S index) None flags
      | _, _ => runs (S index) start flags
      end
  end.

(** [sort_by] of the lanes and of the addresses: most minutes first. *)
Definition lane_le (a b : InboundIpUsageTimelineLane) : Prop :=
  tl_minutes b < tl_minutes a ∨
  (tl_minutes b = tl_minutes a ∧ (str_gt (tl_endpoint_tag b) (tl_endpoint_tag a) = true ∨
                                  (tl_endpoint_tag a = tl_endpoint_tag b ∧ String.le (tl_ip a) (tl_ip b)))).
#[export] Instance lane_le_dec : RelDecision lane_le.
Proof. intros a b. unfold lane_le. apply _. Defined.
Definition item_le (a b : InboundIpUsageListItem) : Prop :=
  li_minutes b < li_minutes a ∨ (li_minutes b = li_minutes a ∧ String.le (li_ip a) (li_ip b)).
#[export] Instance item_le_dec : RelDecision item_le.
Proof. intros a b. unfold item_le. apply _. Defined.

Section View.
Context `{Rfc3339, TimeFormat}.

Definition minute_label (window_start_dt : Z) (index : nat) : string := rfc3339_minute (window_start_dt + Z.of_nat index * MINUTE_NANOS).

Definition build_segments (flags : list bool) (window_start_dt : Z) : list InboundIpUsageTimelineSegment :=
  (λ '(s, e), mkInboundIpUsageTimelineSegment (minute_label window_start_dt s) (minute_label window_start_dt e)) <$> runs 0 None flags.

Definition aggregate_ip (window_minutes : nat) (membership : InboundIpUsageMembershipView) (flags : list bool) (r : PersistedInboundIpRecord)
    (entry : option AggregatedIp) : AggregatedIp :=
  let entry := default (mkAggregatedIp (replicate window_minutes false) ∅ (ir_last_seen_at r) (ir_geo r)) entry in
  mkAggregatedIp (union_flags (ai_flags entry) flags) ({[mv_endpoint_tag membership]} ∪ ai_endpoint_tags entry)
    (if str_gt (ir_last_seen_at r) (ai_last_seen_at entry) then ir_last_seen_at r else ai_last_seen_at entry)
    (if geo_is_default (ai_geo entry) && negb (geo_is_default (ir_geo r)) then ir_geo r else ai_geo entry).

Definition aggregate_lane (window_minutes : nat) (membership : InboundIpUsageMembershipView) (flags : list bool) (ip : string)
    (lane : option AggregatedLane) : AggregatedLane :=
  let lane_key := mv_endpoint_tag membership +:+ "|" +:+ ip in
  let lane := default (mkAggregatedLane lane_key (mv_endpoint_id membership) (mv_endpoint_tag membership) ip (replicate window_minutes false)) lane in
  lane <| al_flags ::= λ target, union_flags target flags |>.

Definition aggregate_record (window_minutes start_index : nat) (membership : InboundIpUsageMembershipView)
    (acc : gmap string AggregatedIp * gmap string AggregatedLane) (item : string * PersistedInboundIpRecord)
    : gmap string AggregatedIp * gmap string AggregatedLane :=
  let '(by_ip, lanes) := acc in
  let '(ip, r) := item in
  if ir_minutes r =? 0 then acc
  else
    let flags := extract_window_flags (ir_bitmap r) start_index window_minutes in
    if as_u32 (count_flags flags) =? 0 then acc
    else
      let lane_key := mv_endpoint_tag membership +:+ "|" +:+ ip in
      (<[ip := aggregate_ip window_minutes membership flags r (by_ip !! ip)]> by_ip,
       <[lane_key := aggregate_lane window_minutes membership flags ip (lanes !! lane_key)]> lanes).

Definition aggregate_membership (usage : PersistedInboundIpUsage) (window_minutes start_index : nat)
    (acc : gmap string AggregatedIp * gmap string AggregatedLane) (membership : InboundIpUsageMembershipView)
    : gmap string AggregatedIp * gmap string AggregatedLane :=
  match iu_memberships usage !! mv_membership_key membership with
  | None => acc
  | Some persisted => foldl (aggregate_record window_minutes start_index membership) acc (bt_items (im_ips persisted))
  end.

Definition build_window_view (usage : PersistedInboundIpUsage) (now : Z) (window : InboundIpUsageWindow)
    (memberships : list InboundIpUsageMembershipView) (warnings : list InboundIpUsageWarning) : InboundIpUsageWindowView :=
  let window_minutes := window_minutes window in
  let latest := default (floor_minute now) (latest_minute_dt usage) in
  let requested_start_index := (MINUTES_WINDOW - window_minutes)%nat in
  let window_start_dt := (latest - Z.of_nat (window_minutes - 1) * MINUTE_NANOS)%Z in
  let '(by_ip, lanes) := foldl (aggregate_membership usage window_minutes requested_start_index) (∅, ∅) memberships in
  let unique_ip_series :=
    (λ index, mkInboundIpUsageSeriesPoint (minute_label window_start_dt index)
                (as_u32 (length (filter (λ entry, ai_flags entry !! index = Some true) (bt_values by_ip))))) <$> seq 0 window_minutes in
  let timeline :=
    filter (λ lane, 0 < tl_minutes lane)
      ((λ lane, mkInboundIpUsageTimelineLane (al_lane_key lane) (al_endpoint_id lane) (al_endpoint_tag lane) (al_ip lane)
                  (as_u32 (count_flags (al_flags lane))) (build_segments (al_flags lane) window_start_dt)) <$> bt_values lanes) in
  let timeline := take TOP_TIMELINE_ROWS (merge_sort lane_le timeline) in
  let ips :=
    filter (λ item, 0 < li_minutes item)
      ((λ '(ip, entry), mkInboundIpUsageListItem ip (as_u32 (count_flags (ai_flags entry))) (bs_items (ai_endpoint_tags entry))
                          (format_region (ai_geo entry)) (geo_operator (ai_geo entry)) (ai_last_seen_at entry)) <$> bt_items by_ip) in
  let ips := merge_sort item_le ips in
  mkInboundIpUsageWindowView (rfc3339_minute window_start_dt) (rfc3339_minute latest) warnings unique_ip_series timeline ips.
End View.

(** * Facts *)

(** ** Segments *)

(** A flag from [index] on is the next one or a later one. *)
Lemma flag_step (present : bool) (flags : list bool) (index i : nat) :
  (index ≤ i)%nat ∧ (present :: flags) !! (i - index)%nat = Some true ↔
  (i = index ∧ present = true) ∨ ((S index ≤ i)%nat ∧ flags !! (i - S index)%nat = Some true).
Proof.
  destruct (decide (i = index)) as [->|Hne].
  - rewrite Nat.sub_diag. cbn. split; [intros [_ [= ->]]; by left|]. intros [[_ ->]|[? _]]; [done|lia].
  - split; intros Hcase.
    + destruct Hcase as [Hle Hl]. right. replace (i - index)%nat with (S (i - S index)) in Hl by lia. split; [lia|done].
    + destruct Hcase as [[? _]|[Hle Hl]]; [done|]. replace (i - index)%nat with (S (i - S index)) by lia. split; [lia|done].
Qed.

(** The runs after [index], the open one included, cover exactly the set flags, in order
    and with a gap between any two. *)
Lemma runs_spec flags index start :
  (match start with Some s => (s < index)%nat | None => True end) →
  let l := runs index start flags in
  (∀ i, (∃ r, r ∈ l ∧ (r.1 ≤ i ≤ r.2)%nat) ↔
     (∃ s, start = Some s ∧ (s ≤ i < index)%nat) ∨ ((index ≤ i)%nat ∧ flags !! (i - index)%nat = Some true)) ∧
  Forall (λ r, (r.1 ≤ r.2)%nat ∧ (default index start ≤ r.1)%nat) l ∧
  StronglySorted (λ a b, (a.2 + 1 < b.1)%nat) l.
Proof.
  revert index start; induction flags as [|present flags IH]; intros index start Hs; cbn [runs].
  { destruct start as [s|]; cbn zeta.
    - split_and!; [|repeat constructor; cbn; lia|repeat constructor]. intros i. split.
      + intros (r & ->%list_elem_of_singleton & Hr). cbn in Hr. left. exists s. split; [done|lia].
      + intros [(s' & [= <-] & Hi)|[_ ?]]; [|done]. exists (s, (index - 1)%nat). split; [by left|cbn; lia].
    - split_and!; [|constructor|constructor]. intros i. split; [by intros (r & ?%elem_of_nil & _)|].
      intros [(s & ? & _)|[_ ?]]; done. }
  destruct start as [s|], present; cbn zeta.
  - destruct (IH (S index) (Some s) (Nat.lt_lt_succ_r _ _ Hs)) as (I1 & I2 & I3). split_and!; [|done|done].
    intros i. rewrite I1, flag_step. split.
    + intros [(s' & [= <-] & Hi)|Hr]; [|by right; right]. destruct (decide (i = index)); [by right; left|left; exists s; split; [done|lia]].
    + intros [(s' & [= <-] & Hi)|[[-> _]|Hr]]; [left|left|by right]; exists s; split; (done || lia).
  - destruct (IH (S index) None I) as (I1 & I2 & I3). cbn [default] in I2. split_and!.
    + intros i. rewrite flag_step. split.
      * intros (r & [->|Hr]%elem_of_cons & Hi).
        { cbn in Hi. left. exists s. split; [done|lia]. }
        destruct (proj1 (I1 i)) as [(s' & ? & _)|?]; [by exists r|done|by right; right].
      * intros [(s' & [= <-] & Hi)|[[_ ?]|Hr]]; [|done|].
        { exists (s, (index - 1)%nat). split; [by left|cbn; lia]. }
        destruct (proj2 (I1 i)) as (r & Hr1 & Hr2); [by right|]. exists r. split; [by right|done].
    + constructor; [cbn; lia|]. eapply Forall_impl; [exact I2|]. cbn. lia.
    + constructor; [done|]. eapply Forall_impl; [exact I2|]. cbn. lia.
  - destruct (IH (S index) (Some index) (Nat.lt_succ_diag_r index)) as (I1 & I2 & I3). split_and!; [|exact I2|done].
    intros i. rewrite I1, flag_step. split.
    + intros [(s' & [= <-] & Hi)|Hr]; [right; left; split; [lia|done]|by right; right].
    + intros [(s' & ? & _)|[[-> _]|Hr]]; [done|left; exists index; split; [done|lia]|by right].
  - destruct (IH (S index) None I) as (I1 & I2 & I3). split_and!; [| |done].
    + intros i. rewrite I1, flag_step. split; [intros [(? & ? & _)|Hr]; [done|by right; right]|].
      intros [(? & ? & _)|[[_ ?]|Hr]]; [done|done|by right].
    + eapply Forall_impl; [exact I2|]. cbn. lia.
Qed.

(** A lane's segments are its activity: the segments [build_segments] writes are, in
    order, the maximal runs of consecutive minutes in which the address was seen - every
    such minute is inside a segment, no other minute is, and two segments are never
    adjacent. *)
Theorem segments_are_maximal_runs `{Rfc3339, TimeFormat} flags window_start_dt :
  ∃ l : list (nat * nat),
    build_segments flags window_start_dt =
      (λ r, mkInboundIpUsageTimelineSegment (minute_label window_start_dt r.1) (minute_label window_start_dt r.2)) <$> l ∧
    (∀ i, (∃ r, r ∈ l ∧ (r.1 ≤ i ≤ r.2)%nat) ↔ flags !! i = Some true) ∧
    Forall (λ r, (r.1 ≤ r.2)%nat) l ∧ StronglySorted (λ a b, (a.2 + 1 < b.1)%nat) l.
Proof.
  exists (runs 0 None flags). destruct (runs_spec flags 0 None I) as (R1 & R2 & R3). split_and!; [| | |done].
  - apply list_fmap_ext. by intros i [].
  - intros i. rewrite R1, Nat.sub_0_r. split; [by intros [(? & ? & _)|[_ ?]]|]. intros ?. right. split; [lia|done].
  - eapply Forall_impl; [exact R2|]. by intros r [].
Qed.

(** ** Counting addresses *)

(** Whether the entry of an address has the flag of a minute. *)
Definition flagged (by_ip : gmap string AggregatedIp) (ip : string) (i : nat) : Prop := (by_ip !! ip ≫= λ e, ai_flags e !! i) = Some true.

Lemma extract_lookup bitmap start len i :
  (i < len)%nat → extract_window_flags bitmap start len !! i = Some (get_bit bitmap (start + i)).
Proof. intros Hi. unfold extract_window_flags. by rewrite list_lookup_fmap, lookup_seq_lt. Qed.

Lemma extract_length bitmap start len : length (extract_window_flags bitmap start len) = len.
Proof. unfold extract_window_flags. by rewrite length_fmap, length_seq. Qed.

Lemma union_lookup target source i b c : target !! i = Some b → source !! i = Some c → union_flags target source !! i = Some (b || c).
Proof. intros Ht Hs. unfold union_flags. by rewrite list_lookup_imap, Ht, Hs. Qed.

Lemma union_length target source : length (union_flags target source) = length target.
Proof. apply length_imap. Qed.

Lemma count_flags_zero flags i : as_u32 (count_flags flags) = 0 → (length flags ≤ MINUTES_WINDOW)%nat → flags !! i ≠ Some true.
Proof.
  unfold as_u32, count_flags. intros Hz Hlen Hi. pose proof (length_filter (λ b, b = true) flags) as Hle.
  rewrite wrapping_small in Hz by (unfold MINUTES_WINDOW, u32_max in *; lia).
  assert (true ∈ filter (λ b, b = true) flags) as Hin by (apply list_elem_of_filter; split; [done|by eapply list_elem_of_lookup_2]).
  destruct (filter _ flags); [by apply elem_of_nil in Hin|]. cbn in Hz. lia.
Qed.

Section Counting.
Context (wm start : nat) (Hwm : (start + wm = MINUTES_WINDOW)%nat).

Definition entries_ok (by_ip : gmap string AggregatedIp) : Prop := ∀ ip e, by_ip !! ip = Some e → length (ai_flags e) = wm.

Lemma aggregate_record_ok mv by_ip lanes ip r :
  record_ok r → entries_ok by_ip →
  let by_ip' := (aggregate_record wm start mv (by_ip, lanes) (ip, r)).1 in
  entries_ok by_ip' ∧
  ∀ ip' i, (i < wm)%nat → flagged by_ip' ip' i ↔ flagged by_ip ip' i ∨ (ip' = ip ∧ get_bit (ir_bitmap r) (start + i) = true).
Proof using Hwm.
  intros Hr He. unfold aggregate_record. cbn zeta.
  destruct (N.eqb_spec (ir_minutes r) 0) as [Hz|_]; cbn [fst].
  { split; [done|]. intros ip' i Hi. rewrite (record_empty r Hr Hz) by lia. naive_solver. }
  set (flags := extract_window_flags (ir_bitmap r) start wm).
  assert (∀ i, (i < wm)%nat → flags !! i = Some (get_bit (ir_bitmap r) (start + i))) as Hf by (intros; by apply extract_lookup).
  destruct (N.eqb_spec (as_u32 (count_flags flags)) 0) as [Hz|_]; cbn [fst].
  { split; [done|]. intros ip' i Hi. apply (count_flags_zero _ i) in Hz; [|unfold flags; rewrite extract_length; lia].
    rewrite Hf in Hz by done. destruct (get_bit (ir_bitmap r) (start + i)); [done|]. split; [by left|]. by intros [?|[_ ?]]. }
  unfold aggregate_ip.
  set (e0 := default (mkAggregatedIp (replicate wm false) ∅ (ir_last_seen_at r) (ir_geo r)) (by_ip !! ip)).
  assert (length (ai_flags e0) = wm) as Hlen.
  { unfold e0. destruct (by_ip !! ip) as [e1|] eqn:He1; [by eapply He|]. apply length_replicate. }
  assert (∀ i, (i < wm)%nat → ai_flags e0 !! i = Some true ↔ flagged by_ip ip i) as He0.
  { intros i Hi. unfold flagged, e0. destruct (by_ip !! ip) as [e1|]; [done|]. cbn. rewrite lookup_replicate_2 by done. done. }
  split.
  - intros ip' e1. rewrite lookup_insert_Some. intros [[<- <-]|[_ ?]]; [|by eapply He]. cbn. by rewrite union_length.
  - intros ip' i Hi. unfold flagged at 1. destruct (decide (ip' = ip)) as [->|Hne].
    + rewrite lookup_insert_eq. cbn. destruct (lookup_lt_is_Some_2 (ai_flags e0) i) as [b Hb]; [lia|].
      rewrite (union_lookup _ _ _ _ _ Hb (Hf i Hi)), <-He0, Hb by done. destruct b, (get_bit _ _); naive_solver.
    + rewrite lookup_insert_ne by done. unfold flagged. naive_solver.
Qed.

Lemma aggregate_records_ok mv items by_ip lanes :
  Forall (λ item, record_ok item.2) items → entries_ok by_ip →
  let by_ip' := (foldl (aggregate_record wm start mv) (by_ip, lanes) items).1 in
  entries_ok by_ip' ∧
  ∀ ip i, (i < wm)%nat → flagged by_ip' ip i ↔ flagged by_ip ip i ∨ ∃ r, (ip, r) ∈ items ∧ get_bit (ir_bitmap r) (start + i) = true.
Proof using Hwm.
  intros Hall. revert by_ip lanes. induction Hall as [|[x r] items Hr _ IH]; intros by_ip lanes He; cbn [foldl].
  { split; [done|]. intros ip i Hi. split; [by left|]. by intros [?|(? & ?%elem_of_nil & _)]. }
  destruct (aggregate_record_ok mv by_ip lanes x r Hr He) as [A1 A2].
  destruct (aggregate_record wm start mv (by_ip, lanes) (x, r)) as [by1 lanes1]. cbn [fst] in *.
  destruct (IH by1 lanes1 A1) as [I1 I2]. split; [done|]. intros ip i Hi. rewrite I2, A2 by done. setoid_rewrite elem_of_cons. naive_solver.
Qed.

Lemma aggregate_membership_ok usage mv by_ip lanes :
  usage_ok (iu_memberships usage) → entries_ok by_ip →
  let by_ip' := (aggregate_membership usage wm start (by_ip, lanes) mv).1 in
  entries_ok by_ip' ∧
  ∀ ip i, (i < wm)%nat → flagged by_ip' ip i ↔ flagged by_ip ip i ∨ bit (iu_memberships usage) (mv_membership_key mv) ip (start + i) = true.
Proof using Hwm.
  intros Hok He. unfold aggregate_membership, bit. destruct (iu_memberships usage !! _) as [m|] eqn:Hm; cbn zeta.
  - destruct (Hok _ _ Hm) as [_ Hrec]. destruct (aggregate_records_ok mv (bt_items (im_ips m)) by_ip lanes) as [A1 A2]; [|done|].
    { apply Forall_forall. intros [ip r] Hin%elem_of_bt_items. by destruct (Hrec ip r Hin). }
    split; [done|]. intros ip i Hi. rewrite A2 by done. setoid_rewrite elem_of_bt_items. cbn.
    destruct (im_ips m !! ip) as [r|]; cbn; naive_solver.
  - split; [done|]. intros ip i Hi. cbn. naive_solver.
Qed.

Lemma aggregate_ok usage memberships by_ip lanes :
  usage_ok (iu_memberships usage) → entries_ok by_ip →
  let by_ip' := (foldl (aggregate_membership usage wm start) (by_ip, lanes) memberships).1 in
  entries_ok by_ip' ∧
  ∀ ip i, (i < wm)%nat → flagged by_ip' ip i ↔
    flagged by_ip ip i ∨ ∃ mv, mv ∈ memberships ∧ bit (iu_memberships usage) (mv_membership_key mv) ip (start + i) = true.
Proof using Hwm.
  intros Hok. revert by_ip lanes. induction memberships as [|mv memberships IH]; intros by_ip lanes He; cbn [foldl].
  { split; [done|]. intros ip i Hi. split; [by left|]. by intros [?|(? & ?%elem_of_nil & _)]. }
  destruct (aggregate_membership_ok usage mv by_ip lanes Hok He) as [A1 A2].
  destruct (aggregate_membership usage wm start (by_ip, lanes) mv) as [by1 lanes1]. cbn [fst] in *.
  destruct (IH by1 lanes1 A1) as [I1 I2]. split; [done|]. intros ip i Hi. rewrite I2, A2 by done. setoid_rewrite elem_of_cons. naive_solver.
Qed.
End Counting.

(** Counting entries is counting addresses. *)
Lemma count_entries (by_ip : gmap string AggregatedIp) i (s : gset string) :
  (∀ ip, ip ∈ s ↔ flagged by_ip ip i) →
  length (filter (λ e, ai_flags e !! i = Some true) (bt_values by_ip)) = size s.
Proof.
  intros Hs. unfold bt_values.
  assert (∀ l : list (string * AggregatedIp), length (filter (λ e, ai_flags e !! i = Some true) l.*2) = length (filter (λ p, ai_flags p.2 !! i = Some true) l).*1) as ->.
  { induction l as [|[ip e] l IH]; [done|]. rewrite fmap_cons, !filter_cons. cbn [snd]. case_decide; cbn; by rewrite IH. }
  unfold size, set_size. cbn. apply Permutation_length, NoDup_Permutation.
  - apply (sublist_NoDup _ (bt_keys by_ip)); [apply NoDup_bt_keys|]. unfold bt_keys. apply fmap_sublist, sublist_filter.
  - apply NoDup_elements.
  - intros ip. rewrite elem_of_elements, Hs, list_elem_of_fmap. unfold flagged. split.
    + intros ([ip' e] & -> & [He Hin%elem_of_bt_items]%list_elem_of_filter). cbn in *. by rewrite Hin.
    + destruct (by_ip !! ip) as [e|] eqn:He; [|done]. cbn. intros Hf. exists (ip, e). split; [done|].
      apply list_elem_of_filter. split; [done|]. by apply elem_of_bt_items.
Qed.

(** The addresses the ledger saw on some memberships in a minute. *)
Definition seen_at (sg : Sightings) (keys : list string) (minute : Z) : gset string :=
  list_to_set ((filter (λ '(key, _, t), key ∈ keys ∧ t = minute) (sg_seen sg)).*1.*2).

Lemma elem_of_seen_at sg keys minute ip : ip ∈ seen_at sg keys minute ↔ ∃ key, key ∈ keys ∧ (key, ip, minute) ∈ sg_seen sg.
Proof.
  unfold seen_at. rewrite elem_of_list_to_set. do 2 setoid_rewrite list_elem_of_fmap. split.
  - intros ([k ip'] & -> & ([[k' ip''] t] & [= -> ->] & [[Hk ->] Hin]%list_elem_of_filter)). by exists k'.
  - intros (key & Hk & Hin). exists (key, ip). split; [done|]. exists (key, ip, minute). by rewrite list_elem_of_filter.
Qed.

(** C23: the chart counts what was seen.  After any sequence of operations from the empty
    file, the view of any memberships over the
    last day or week has one point per minute, up to the latest minute recorded; the
    point of a minute is labelled with that minute and counts the distinct addresses the
    ledger saw on those memberships in it, once each however many of the memberships they
    used. *)
Theorem view_counts_sightings `{Rfc3339Roundtrip} ops now window memberships warnings index :
  Forall op_in_range ops → (index < window_minutes window)%nat →
  let usage := foldl usage_op PersistedInboundIpUsage_default ops in
  let sg := foldl spec_op (mkSightings None []) ops in
  let latest := default (floor_minute now) (sg_latest sg) in
  let minute := (latest - Z.of_nat (window_minutes window - 1 - index) * MINUTE_NANOS)%Z in
  wv_unique_ip_series (build_window_view usage now window memberships warnings) !! index =
    Some (mkInboundIpUsageSeriesPoint (rfc3339_minute minute) (as_u32 (size (seen_at sg (mv_membership_key <$> memberships) minute)))).
Proof.
  intros Hrange Hi usage sg latest minute.
  pose proof (refines_history ops _ _ Hrange refines_default) as HR. fold usage sg in HR.
  destruct (refines_bits _ _ HR) as (R1 & R2 & R3). clearbody usage sg. unfold build_window_view. rewrite R1. fold latest. set (wm := window_minutes window) in *.
  assert (MINUTES_WINDOW - wm + wm = MINUTES_WINDOW)%nat as Hwm by (unfold wm; by destruct window).
  destruct (aggregate_ok wm _ Hwm usage memberships ∅ ∅ R2) as [_ A2]; [intros ip e; by rewrite lookup_empty|].
  destruct (foldl (aggregate_membership _ _ _) _ memberships) as [by_ip lanes]. cbn [fst wv_unique_ip_series] in *.
  rewrite list_lookup_fmap, lookup_seq_lt by done. cbn [fmap option_fmap option_map]. do 2 f_equal.
  - unfold minute_label. f_equal. unfold minute, MINUTE_NANOS. lia.
  - f_equal. apply count_entries. intros ip. rewrite A2, elem_of_seen_at by done. cbn [Nat.add].
    assert (∀ l, minute_at l (MINUTES_WINDOW - wm + index) = (l - Z.of_nat (wm - 1 - index) * MINUTE_NANOS)%Z) as Hat
      by (intros l; unfold minute_at; do 2 f_equal; lia).
    split.
    + intros (key & (mv & -> & Hmv)%list_elem_of_fmap & Hin). right. exists mv. split; [done|]. apply R3; [lia|].
      destruct (sg_latest sg) as [l|] eqn:Hl; [exists l; split; [done|by rewrite Hat]|].
      rewrite (refines_none _ _ HR Hl) in Hin. by apply elem_of_nil in Hin.
    + intros [Hf|(mv & Hmv & Hb)]; [unfold flagged in Hf; by rewrite lookup_empty in Hf|].
      apply R3 in Hb as (l & Hl & Hin); [|lia]. exists (mv_membership_key mv). split; [by apply list_elem_of_fmap_2|].
      rewrite Hat in Hin. unfold minute, latest. by rewrite Hl.
Qed.

(** ** Example *)

Module ViewSample.
(** The same address on two endpoints in one minute counts once. *)
Definition view_ops : list UsageOp :=
  [ RecordMinute (1000 * MINUTE_NANOS) false
      [InboundIp.Sample.sample "u1:e1" ["203.0.113.7"; "198.51.100.1"]; InboundIp.Sample.sample "u1:e2" ["203.0.113.7"]] InboundIp.Sample.no_geo true;
    RecordMinute (1002 * MINUTE_NANOS) false [InboundIp.Sample.sample "u1:e1" ["203.0.113.7"]] InboundIp.Sample.no_geo true ].
Definition both : list InboundIpUsageMembershipView :=
  [mkInboundIpUsageMembershipView "u1:e1" "e1" "vless-e1"; mkInboundIpUsageMembershipView "u1:e2" "e2" "vless-e2"].

Lemma view_counts_sightings_witness :
  let view := @build_window_view nanos_reader nanos_writer
    (foldl (@usage_op nanos_reader nanos_writer) PersistedInboundIpUsage_default view_ops) 0 Hours24 both [] in
  sp_count <$> (wv_unique_ip_series view !! 1437%nat) = Some 2 ∧ sp_count <$> (wv_unique_ip_series view !! 1439%nat) = Some 1.
Proof.
  assert (Forall op_in_range view_ops) as Hrange by (repeat constructor; vm_compute; congruence).
  assert (∀ i, (i < 1440)%nat → (i < window_minutes Hours24)%nat) as Hlt by (intros i; cbn; lia). cbn zeta. split.
  - rewrite (@view_counts_sightings nanos_reader nanos_writer nanos_roundtrip view_ops 0 Hours24 both [] 1437 Hrange (Hlt 1437%nat ltac:(lia))).
    by vm_compute.
  - rewrite (@view_counts_sightings nanos_reader nanos_writer nanos_roundtrip view_ops 0 Hours24 both [] 1439 Hrange (Hlt 1439%nat ltac:(lia))).
    by vm_compute.
Defined.
End ViewSample.
