(* ===== verification/TcpUsage.v ===== *)
(** * Connections per endpoint

    [src/tcp_connection_usage.rs]: how many connections each endpoint had, minute by minute
    over a sliding window of seven days, kept as one vector of 16-bit counts per endpoint,
    and the views built from it.  The reader of the kernel's connection tables is not modelled.

    Instants are nanoseconds.  The resolution of the stored instants is the second
    ([to_rfc3339_opts(Secs, true)]); reading and writing them is an interface. *)

From S2P Require Import Prelude Text Search IpText Domain Clock State InboundIp.
Open Scope string_scope.
Open Scope list_scope.
Open Scope N_scope.

(** [DateTime::to_rfc3339_opts(SecondsFormat::Secs, true)] *)
Class TimeFormatSecs := to_rfc3339_secs : Z → string.
Definition whole_seconds (t : Z) : Prop := (t mod 1000000000 = 0)%Z.
Class SecsRoundtrip `{Rfc3339, TimeFormatSecs} :=
  parse_to_rfc3339_secs : ∀ t, i64_nanos t → whole_seconds t → parse_rfc3339 (to_rfc3339_secs t) = Some t.
Definition nanos_secs : TimeFormatSecs := pretty.
Lemma nanos_secs_roundtrip : @SecsRoundtrip nanos_reader nanos_secs.
Proof. intros t Ht _. by apply parse_i64_pretty. Qed.

Definition TCP_CONNECTION_USAGE_SCHEMA_VERSION : N := 1.
Definition TCP_MINUTES_WINDOW : nat := 7 * 24 * 60.

Inductive TcpConnectionUsageWindow : Type := TcpHours24 | TcpDays7.
Definition tcp_window_minutes (w : TcpConnectionUsageWindow) : nat := match w with TcpHours24 => 24 * 60 | TcpDays7 => 7 * 24 * 60 end.
Definition tcp_window_as_str (w : TcpConnectionUsageWindow) : string := match w with TcpHours24 => "24h" | TcpDays7 => "7d" end.
Definition tcp_window_parse (raw : option string) : result TcpConnectionUsageWindow string :=
  let s := default "24h" raw in
  if bool_decide (s = "24h") then Ok TcpHours24
  else if bool_decide (s = "7d") then Ok TcpDays7
  else Err "invalid window, expected 24h or 7d".

Record TcpConnectionUsageWarning : Type := mkTcpConnectionUsageWarning { tw_code : string; tw_message : string }.
#[global] Instance TcpConnectionUsageWarning_eq_dec : EqDecision TcpConnectionUsageWarning.
Proof. solve_decision. Defined.
Record TcpConnectionUsageEndpointOption : Type := mkTcpConnectionUsageEndpointOption {
  to_endpoint_id : string;
  to_endpoint_tag : string;
  to_port : N;
}.
Record TcpConnectionUsageSeriesPoint : Type := mkTcpConnectionUsageSeriesPoint { tp_minute : string; tp_count : N }.
Record TcpConnectionUsageEndpointSeries : Type := mkTcpConnectionUsageEndpointSeries {
  te_endpoint_id : string;
  te_endpoint_tag : string;
  te_port : N;
  te_series : list TcpConnectionUsageSeriesPoint;
}.
Record TcpConnectionUsageWindowView : Type := mkTcpConnectionUsageWindowView {
  tv_window_start : string;
  tv_window_end : string;
  tv_warnings : list TcpConnectionUsageWarning;
  tv_endpoints : list TcpConnectionUsageEndpointOption;
  tv_per_endpoint_series : list TcpConnectionUsageEndpointSeries;
}.
Record PersistedTcpConnectionEndpointUsage : Type := mkPersistedTcpConnectionEndpointUsage {
  tu_node_id : string;
  tu_endpoint_id : string;
  tu_endpoint_tag : string;
  tu_port : N;
  tu_counts : list N;
}.
#[export] Instance PersistedTcpConnectionEndpointUsage_eta : Eta PersistedTcpConnectionEndpointUsage := λ r,
  mkPersistedTcpConnectionEndpointUsage (tu_node_id r) (tu_endpoint_id r) (tu_endpoint_tag r) (tu_port r) (tu_counts r).
Record PersistedTcpConnectionUsage : Type := mkPersistedTcpConnectionUsage {
  tc_schema_version : N;
  tc_generated_at : string;
  tc_minutes_window : nat;
  tc_latest_minute : option string;
  tc_linux_only : bool;
  tc_last_warning : option TcpConnectionUsageWarning;
  tc_endpoints : gmap string PersistedTcpConnectionEndpointUsage;
}.
#[export] Instance PersistedTcpConnectionUsage_eta : Eta PersistedTcpConnectionUsage := λ r,
  mkPersistedTcpConnectionUsage (tc_schema_version r) (tc_generated_at r) (tc_minutes_window r) (tc_latest_minute r) (tc_linux_only r)
    (tc_last_warning r) (tc_endpoints r).
Definition PersistedTcpConnectionUsage_default : PersistedTcpConnectionUsage :=
  mkPersistedTcpConnectionUsage TCP_CONNECTION_USAGE_SCHEMA_VERSION EmptyString TCP_MINUTES_WINDOW None true None ∅.
Record TcpConnectionMinuteSample : Type := mkTcpConnectionMinuteSample {
  tm_node_id : string;
  tm_endpoint_id : string;
  tm_endpoint_tag : string;
  tm_port : N;
  tm_count : N;
}.
Record TcpConnectionEndpointView : Type := mkTcpConnectionEndpointView {
  tn_node_id : string;
  tn_endpoint_id : string;
  tn_endpoint_tag : string;
  tn_port : N;
}.

Definition tcp_build_warnings (linux_only : bool) (last_warning : option TcpConnectionUsageWarning) : list TcpConnectionUsageWarning :=
  (if linux_only then []
   else [mkTcpConnectionUsageWarning "unsupported_platform" "TCP connection count history is currently only supported on Linux nodes."])
  ++ option_list last_warning.

(** ** Vectors of counts *)

Definition zero_counts : list N := replicate TCP_MINUTES_WINDOW 0.

(** Too short a vector is padded at its recent end, too long a one loses its oldest counts. *)
Definition normalize_counts (counts : list N) : list N :=
  if (length counts <? TCP_MINUTES_WINDOW)%nat then resize TCP_MINUTES_WINDOW 0 counts
  else drop (length counts - TCP_MINUTES_WINDOW) counts.

Definition rotate_left {A} (n : nat) (l : list A) : list A := drop n l ++ take n l.

Definition shift_counts (shift : nat) (counts : list N) : list N :=
  if (TCP_MINUTES_WINDOW <=? shift)%nat then (λ _, 0) <$> counts
  else
    let counts := rotate_left shift counts in
    take (TCP_MINUTES_WINDOW - shift) counts ++ ((λ _, 0) <$> drop (TCP_MINUTES_WINDOW - shift) counts).

(** The records are cleared with the endpoint, or with the node they belong to. *)
Definition tcp_clear_endpoint (usage : PersistedTcpConnectionUsage) (endpoint_id : string) : PersistedTcpConnectionUsage * bool :=
  (usage <| tc_endpoints ::= delete endpoint_id |>, contains_key (tc_endpoints usage) endpoint_id).

Definition tcp_clear_node (usage : PersistedTcpConnectionUsage) (node_id : string) : PersistedTcpConnectionUsage * bool :=
  let kept := filter (λ '(_, r), tu_node_id r ≠ node_id) (tc_endpoints usage) in
  (usage <| tc_endpoints := kept |>, negb (size kept =? size (tc_endpoints usage))%nat).

(** A record brought in line with the endpoint as it is. *)
Definition tcp_align (expected : TcpConnectionEndpointView) (r : PersistedTcpConnectionEndpointUsage) : PersistedTcpConnectionEndpointUsage :=
  mkPersistedTcpConnectionEndpointUsage (tn_node_id expected) (tu_endpoint_id r) (tn_endpoint_tag expected) (tn_port expected) (normalize_counts (tu_counts r)).
Definition tcp_differs (expected : TcpConnectionEndpointView) (r : PersistedTcpConnectionEndpointUsage) : bool :=
  negb (bool_decide (tu_node_id r = tn_node_id expected)) || negb (bool_decide (tu_endpoint_tag r = tn_endpoint_tag expected))
  || negb (tu_port r =? tn_port expected).

Definition tcp_normalize (usage : PersistedTcpConnectionUsage) (allowed_endpoints : gmap string TcpConnectionEndpointView) : PersistedTcpConnectionUsage * bool :=
  let kept := filter (λ '(endpoint_id, _), is_Some (allowed_endpoints !! endpoint_id)) (tc_endpoints usage) in
  let changed :=
    negb (tc_schema_version usage =? TCP_CONNECTION_USAGE_SCHEMA_VERSION) || negb (tc_minutes_window usage =? TCP_MINUTES_WINDOW)%nat
    || negb (size kept =? size (tc_endpoints usage))%nat
    || existsb (λ '(endpoint_id, r), match allowed_endpoints !! endpoint_id with Some expected => tcp_differs expected r | None => false end) (bt_items kept) in
  (usage <| tc_schema_version := TCP_CONNECTION_USAGE_SCHEMA_VERSION |> <| tc_minutes_window := TCP_MINUTES_WINDOW |>
         <| tc_endpoints := map_imap (λ endpoint_id r,
              Some match allowed_endpoints !! endpoint_id with
                   | Some expected => tcp_align expected r
                   | None => r <| tu_counts ::= normalize_counts |>
                   end) kept |>, changed).

Section Record.
Context `{Rfc3339, TimeFormatSecs}.

Definition tcp_rfc3339_minute (t : Z) : string := to_rfc3339_secs (floor_minute t).
Definition tcp_parse_minute (raw : string) : option Z := floor_minute <$> parse_rfc3339 raw.
Definition tcp_latest_minute_dt (usage : PersistedTcpConnectionUsage) : option Z := tc_latest_minute usage ≫= tcp_parse_minute.

Definition tcp_advance_to_minute (usage : PersistedTcpConnectionUsage) (minute : Z) : PersistedTcpConnectionUsage * bool :=
  match tcp_latest_minute_dt usage with
  | None =>
      (usage <| tc_latest_minute := Some (tcp_rfc3339_minute minute) |>
             <| tc_endpoints ::= fmap (λ r, r <| tu_counts ::= normalize_counts |>) |>, true)
  | Some previous =>
      let shift := num_minutes (minute - previous) in
      if (shift <=? 0)%Z then (usage, false)
      else
        let shift := Z.to_nat shift in
        (usage <| tc_endpoints ::= fmap (λ r, r <| tu_counts ::= λ counts,
                    if (TCP_MINUTES_WINDOW <=? shift)%nat then zero_counts else shift_counts shift (normalize_counts counts) |>) |>
               <| tc_latest_minute := Some (tcp_rfc3339_minute minute) |>, true)
  end.

(** [counts[MINUTES_WINDOW - 1] = value] *)
Definition set_latest (value : N) (counts : list N) : list N := <[(TCP_MINUTES_WINDOW - 1)%nat := value]> counts.
Definition latest_count (counts : list N) : N := default 0 (counts !! (TCP_MINUTES_WINDOW - 1)%nat).

Definition tcp_record_sample (acc : gmap string PersistedTcpConnectionEndpointUsage * bool) (sample : TcpConnectionMinuteSample)
    : gmap string PersistedTcpConnectionEndpointUsage * bool :=
  let '(endpoints, changed) := acc in
  let fresh := mkPersistedTcpConnectionEndpointUsage (tm_node_id sample) (tm_endpoint_id sample) (tm_endpoint_tag sample) (tm_port sample) zero_counts in
  let r := default fresh (endpoints !! tm_endpoint_id sample) in
  let counts := normalize_counts (tu_counts r) in
  let clamped := N.min (tm_count sample) u16_max in
  let changed := changed || negb (bool_decide (tu_node_id r = tm_node_id sample)) || negb (bool_decide (tu_endpoint_tag r = tm_endpoint_tag sample))
    || negb (tu_port r =? tm_port sample) || negb (latest_count counts =? clamped) in
  (<[tm_endpoint_id sample :=
       mkPersistedTcpConnectionEndpointUsage (tm_node_id sample) (tu_endpoint_id r) (tm_endpoint_tag sample) (tm_port sample) (set_latest clamped counts)]> endpoints,
   changed).

(** Endpoints without a sample had no connections. *)
Definition tcp_zero_others (sampled : gset string) (endpoints : gmap string PersistedTcpConnectionEndpointUsage)
    : gmap string PersistedTcpConnectionEndpointUsage :=
  map_imap (λ endpoint_id r,
    Some (if bool_decide (endpoint_id ∈ sampled) then r else r <| tu_counts ::= λ counts, set_latest 0 (normalize_counts counts) |>)) endpoints.

Definition tcp_record_minute_samples (usage : PersistedTcpConnectionUsage) (minute : Z) (linux_only : bool)
    (warning : option TcpConnectionUsageWarning) (samples : list TcpConnectionMinuteSample) : PersistedTcpConnectionUsage * bool :=
  let minute := floor_minute minute in
  let minute_str := tcp_rfc3339_minute minute in
  let changed :=
    negb (tc_schema_version usage =? TCP_CONNECTION_USAGE_SCHEMA_VERSION) || negb (tc_minutes_window usage =? TCP_MINUTES_WINDOW)%nat
    || negb (Bool.eqb (tc_linux_only usage) linux_only) || negb (bool_decide (tc_last_warning usage = warning)) in
  let usage := usage <| tc_schema_version := TCP_CONNECTION_USAGE_SCHEMA_VERSION |> <| tc_minutes_window := TCP_MINUTES_WINDOW |>
                     <| tc_linux_only := linux_only |> <| tc_last_warning := warning |> in
  let '(usage, advanced) := tcp_advance_to_minute usage minute in
  let '(endpoints, changed) := foldl tcp_record_sample (tc_endpoints usage, changed || advanced) samples in
  let sampled : gset string := list_to_set (tm_endpoint_id <$> samples) in
  let changed := changed
    || existsb (λ '(endpoint_id, r), negb (bool_decide (endpoint_id ∈ sampled)) && negb (latest_count (normalize_counts (tu_counts r)) =? 0)) (bt_items endpoints)
    || negb (bool_decide (tc_generated_at usage = minute_str)) in
  (usage <| tc_endpoints := tcp_zero_others sampled endpoints |> <| tc_generated_at := minute_str |>, changed).

(** ** Views *)

Definition tcp_point (counts : option (list N)) (window_minutes : nat) (window_start_dt : Z) (index : nat) : TcpConnectionUsageSeriesPoint :=
  mkTcpConnectionUsageSeriesPoint (tcp_rfc3339_minute (window_start_dt + Z.of_nat index * MINUTE_NANOS))
    (default 0 (counts ≫= λ counts, counts !! (TCP_MINUTES_WINDOW - window_minutes + index)%nat)).

Definition tcp_option_le (a b : TcpConnectionUsageEndpointOption) : Prop :=
  str_gt (to_endpoint_tag b) (to_endpoint_tag a) = true ∨
  (to_endpoint_tag a = to_endpoint_tag b ∧
   (to_port a < to_port b ∨ (to_port a = to_port b ∧ String.le (to_endpoint_id a) (to_endpoint_id b)))).
#[export] Instance tcp_option_le_dec : RelDecision tcp_option_le.
Proof. intros a b. unfold tcp_option_le. apply _. Defined.

Definition tcp_build_window_view (usage : PersistedTcpConnectionUsage) (now : Z) (window : TcpConnectionUsageWindow)
    (endpoints : list TcpConnectionEndpointView) : TcpConnectionUsageWindowView :=
  let latest := default (floor_minute now) (tcp_latest_minute_dt usage) in
  let window_minutes := tcp_window_minutes window in
  let window_start_dt := (latest - Z.of_nat (window_minutes - 1) * MINUTE_NANOS)%Z in
  let options := merge_sort tcp_option_le ((λ e, mkTcpConnectionUsageEndpointOption (tn_endpoint_id e) (tn_endpoint_tag e) (tn_port e)) <$> endpoints) in
  let series := (λ o,
    let counts := tu_counts <$> tc_endpoints usage !! to_endpoint_id o in
    mkTcpConnectionUsageEndpointSeries (to_endpoint_id o) (to_endpoint_tag o) (to_port o)
      (tcp_point counts window_minutes window_start_dt <$> seq 0 window_minutes)) <$> options in
  mkTcpConnectionUsageWindowView (tcp_rfc3339_minute window_start_dt) (tcp_rfc3339_minute latest)
    (tcp_build_warnings (tc_linux_only usage) (tc_last_warning usage)) options series.

Definition tcp_repository_samples_for_node (usage : PersistedTcpConnectionUsage) (node_id : string) : list TcpConnectionUsageEndpointSeries :=
  match tcp_latest_minute_dt usage with
  | None => []
  | Some latest =>
      (λ r, mkTcpConnectionUsageEndpointSeries (tu_endpoint_id r) (tu_endpoint_tag r) (tu_port r)
        ((λ index, mkTcpConnectionUsageSeriesPoint
            (tcp_rfc3339_minute (latest - Z.of_nat (TCP_MINUTES_WINDOW - 1 - index) * MINUTE_NANOS)) (default 0 (tu_counts r !! index)))
          <$> seq 0 TCP_MINUTES_WINDOW))
      <$> filter (λ r, tu_node_id r = node_id) (bt_values (tc_endpoints usage))
  end.
End Record.

(** * The window *)

Lemma tcp_window_eq : TCP_MINUTES_WINDOW = MINUTES_WINDOW.
Proof. reflexivity. Qed.

Lemma normalize_counts_id counts : length counts = TCP_MINUTES_WINDOW → normalize_counts counts = counts.
Proof.
  intros Hlen. unfold normalize_counts. destruct (Nat.ltb_spec (length counts) TCP_MINUTES_WINDOW) as [Hlt|_]; [lia|].
  by rewrite Hlen, Nat.sub_diag, drop_0.
Qed.

Lemma normalize_counts_length counts : length (normalize_counts counts) = TCP_MINUTES_WINDOW.
Proof.
  unfold normalize_counts. destruct (Nat.ltb_spec (length counts) TCP_MINUTES_WINDOW); [apply length_resize|]. rewrite length_drop. lia.
Qed.

Lemma shift_counts_app shift counts :
  length counts = TCP_MINUTES_WINDOW → (shift < TCP_MINUTES_WINDOW)%nat → shift_counts shift counts = drop shift counts ++ replicate shift 0.
Proof.
  intros Hlen Hs. unfold shift_counts, rotate_left. destruct (Nat.leb_spec TCP_MINUTES_WINDOW shift) as [|_]; [lia|].
  assert (length (drop shift counts) = (TCP_MINUTES_WINDOW - shift)%nat) as Hd by (rewrite length_drop; lia).
  rewrite take_app_length' by done. rewrite drop_app_length' by done. f_equal.
  assert (shift = length (take shift counts)) as Hlt by (rewrite length_take; lia). rewrite Hlt at 2. generalize (take shift counts).
  intros l. induction l as [|x l IH]; [done|]. cbn. by f_equal.
Qed.

Lemma shift_counts_lookup shift counts i :
  length counts = TCP_MINUTES_WINDOW → (shift < TCP_MINUTES_WINDOW)%nat → (i < TCP_MINUTES_WINDOW)%nat →
  shift_counts shift counts !! i = if decide (i + shift < TCP_MINUTES_WINDOW)%nat then counts !! (i + shift)%nat else Some 0.
Proof.
  intros Hlen Hs Hi. rewrite shift_counts_app by done. case_decide as Hc.
  - rewrite lookup_app_l by (rewrite length_drop; lia). rewrite lookup_drop. f_equal. lia.
  - rewrite lookup_app_r by (rewrite length_drop; lia). rewrite lookup_replicate, length_drop. split; [done|lia].
Qed.

Lemma shift_counts_length shift counts :
  length counts = TCP_MINUTES_WINDOW → (shift < TCP_MINUTES_WINDOW)%nat → length (shift_counts shift counts) = TCP_MINUTES_WINDOW.
Proof. intros Hlen Hs. rewrite shift_counts_app, length_app, length_drop, length_replicate by done. lia. Qed.

(** ** The specification

    A table of counts by endpoint and minute, never forgotten, the node of every endpoint
    known, and the latest minute.  [tcp_table_op] is what the table should be: samples
    recorded at a minute are the column of that minute.  [tcp_spec_op] is what the code keeps:
    a recording that comes late replaces the column of the latest minute. *)
Record TcpLedger : Type := mkTcpLedger {
  tl_latest : option Z;
  tl_counts : gmap (string * Z) N;
  tl_nodes : gmap string string;
}.

Inductive TcpOp : Type :=
| TcpRecord (minute : Z) (linux_only : bool) (warning : option TcpConnectionUsageWarning) (samples : list TcpConnectionMinuteSample)
| TcpClearEndpoint (endpoint_id : string)
| TcpClearNode (node_id : string)
| TcpNormalize (allowed_endpoints : gmap string TcpConnectionEndpointView).

Definition tcp_column (latest : Z) (counts : gmap (string * Z) N) (s : TcpConnectionMinuteSample) : gmap (string * Z) N :=
  <[(tm_endpoint_id s, latest) := N.min (tm_count s) u16_max]> counts.
Definition tcp_node (nodes : gmap string string) (s : TcpConnectionMinuteSample) : gmap string string := <[tm_endpoint_id s := tm_node_id s]> nodes.

(** The endpoints [P] keeps. *)
Definition tcp_keep (P : string → Prop) `{∀ e, Decision (P e)} (lg : TcpLedger) : TcpLedger :=
  mkTcpLedger (tl_latest lg) (filter (λ '(k, _), P k.1) (tl_counts lg)) (filter (λ '(e, _), P e) (tl_nodes lg)).

Definition tcp_spec_op (lg : TcpLedger) (op : TcpOp) : TcpLedger :=
  match op with
  | TcpRecord minute _ _ samples =>
      let latest := from_option (Z.max (floor_minute minute)) (floor_minute minute) (tl_latest lg) in
      mkTcpLedger (Some latest) (foldl (tcp_column latest) (filter (λ '(k, _), k.2 ≠ latest) (tl_counts lg)) samples)
        (foldl tcp_node (tl_nodes lg) samples)
  | TcpClearEndpoint endpoint_id => tcp_keep (λ e, e ≠ endpoint_id) lg
  | TcpClearNode node_id => tcp_keep (λ e, tl_nodes lg !! e ≠ Some node_id) lg
  | TcpNormalize allowed =>
      let kept := tcp_keep (λ e, is_Some (allowed !! e)) lg in
      mkTcpLedger (tl_latest kept) (tl_counts kept)
        (map_imap (λ e n, Some (from_option tn_node_id n (allowed !! e))) (tl_nodes kept))
  end.

Definition tcp_table_op (lg : TcpLedger) (op : TcpOp) : TcpLedger :=
  match op with
  | TcpRecord minute _ _ samples =>
      let column := floor_minute minute in
      mkTcpLedger (Some column) (foldl (tcp_column column) (filter (λ '(k, _), k.2 ≠ column) (tl_counts lg)) samples)
        (foldl tcp_node (tl_nodes lg) samples)
  | _ => tcp_spec_op lg op
  end.

(** No recording is of a minute before the latest one. *)
Fixpoint tcp_in_order (latest : option Z) (ops : list TcpOp) : Prop :=
  match ops with
  | [] => True
  | TcpRecord minute _ _ _ :: ops => from_option (λ l, (l ≤ floor_minute minute)%Z) True latest ∧ tcp_in_order (Some (floor_minute minute)) ops
  | _ :: ops => tcp_in_order latest ops
  end.

Definition tcp_op `{Rfc3339, TimeFormatSecs} (usage : PersistedTcpConnectionUsage) (op : TcpOp) : PersistedTcpConnectionUsage :=
  match op with
  | TcpRecord minute linux_only warning samples => (tcp_record_minute_samples usage minute linux_only warning samples).1
  | TcpClearEndpoint endpoint_id => (tcp_clear_endpoint usage endpoint_id).1
  | TcpClearNode node_id => (tcp_clear_node usage node_id).1
  | TcpNormalize allowed => (tcp_normalize usage allowed).1
  end.

Definition tcp_op_in_range (op : TcpOp) : Prop := match op with TcpRecord minute _ _ _ => i64_nanos (floor_minute minute) | _ => True end.

(** A vector holds the row of the table: the minutes before the latest one, and all of them. *)
Definition row_before (counts : gmap (string * Z) N) (latest : Z) (endpoint_id : string) (l : list N) : Prop :=
  length l = TCP_MINUTES_WINDOW ∧
  ∀ i, (i < TCP_MINUTES_WINDOW - 1)%nat → l !! i = Some (default 0 (counts !! (endpoint_id, minute_at latest i))).
Definition row (counts : gmap (string * Z) N) (latest : Z) (endpoint_id : string) (l : list N) : Prop :=
  length l = TCP_MINUTES_WINDOW ∧
  ∀ i, (i < TCP_MINUTES_WINDOW)%nat → l !! i = Some (default 0 (counts !! (endpoint_id, minute_at latest i))).

(** The records of the endpoints against the table. *)
Definition tcp_known (endpoints : gmap string PersistedTcpConnectionEndpointUsage) (counts : gmap (string * Z) N) (nodes : gmap string string) (latest : Z) : Prop :=
  (∀ e, tu_node_id <$> endpoints !! e = nodes !! e) ∧
  (∀ e t, is_Some (counts !! (e, t)) → (t ≤ latest)%Z ∧ is_Some (nodes !! e)).
Definition tcp_rows (endpoints : gmap string PersistedTcpConnectionEndpointUsage) (counts : gmap (string * Z) N) (nodes : gmap string string) (latest : Z) : Prop :=
  tcp_known endpoints counts nodes latest ∧ ∀ e r, endpoints !! e = Some r → row counts latest e (tu_counts r).

Definition tcp_refines `{Rfc3339, TimeFormatSecs} (usage : PersistedTcpConnectionUsage) (lg : TcpLedger) : Prop :=
  tcp_latest_minute_dt usage = tl_latest lg ∧
  match tl_latest lg with
  | None => tc_endpoints usage = ∅ ∧ tl_counts lg = ∅ ∧ tl_nodes lg = ∅
  | Some latest => floor_minute latest = latest ∧ tcp_rows (tc_endpoints usage) (tl_counts lg) (tl_nodes lg) latest
  end.

Lemma minute_at_last l : minute_at l (TCP_MINUTES_WINDOW - 1) = l.
Proof. unfold minute_at. rewrite tcp_window_eq. rewrite Nat.sub_diag. lia. Qed.

Lemma row_split counts latest e l :
  row counts latest e l ↔ row_before counts latest e l ∧ l !! (TCP_MINUTES_WINDOW - 1)%nat = Some (default 0 (counts !! (e, latest))).
Proof.
  split.
  - intros [Hlen Hrow]. split; [split; [done|]; intros i Hi; apply Hrow; lia|]. rewrite Hrow by (unfold TCP_MINUTES_WINDOW; lia). by rewrite minute_at_last.
  - intros [[Hlen Hrow] Hlast]. split; [done|]. intros i Hi. destruct (decide (i = TCP_MINUTES_WINDOW - 1)%nat) as [->|]; [by rewrite minute_at_last|].
    apply Hrow. lia.
Qed.

(** Moving the window on: the row of the later window. *)
Lemma row_shift counts l m e v :
  (∀ t, is_Some (counts !! (e, t)) → (t ≤ l)%Z) → floor_minute l = l → floor_minute m = m → (0 < num_minutes (m - l))%Z → row counts l e v →
  row counts m e (if (TCP_MINUTES_WINDOW <=? Z.to_nat (num_minutes (m - l)))%nat then zero_counts else shift_counts (Z.to_nat (num_minutes (m - l))) (normalize_counts v)).
Proof.
  intros Hpast Hl Hm Hs [Hlen Hrow]. pose proof (minutes_apart l m Hl Hm) as Hd. set (s := Z.to_nat (num_minutes (m - l))) in *.
  assert (m - l = Z.of_nat s * MINUTE_NANOS)%Z as Hds by (unfold s; rewrite Z2Nat.id by lia; done).
  assert (0 < s)%nat as Hs0 by (unfold s; lia). clearbody s. clear Hd Hs.
  assert (∀ i, (i < TCP_MINUTES_WINDOW)%nat → (TCP_MINUTES_WINDOW ≤ i + s)%nat → default 0 (counts !! (e, minute_at m i)) = 0) as Hnew.
  { intros i Hi Hover. destruct (counts !! (e, minute_at m i)) as [c|] eqn:Hc; [|done]. pose proof (Hpast _ (mk_is_Some _ _ Hc)) as Hle.
    unfold minute_at, MINUTE_NANOS in *. rewrite tcp_window_eq in *. lia. }
  destruct (Nat.leb_spec TCP_MINUTES_WINDOW s) as [Hbig|Hsmall].
  - split; [apply length_replicate|]. intros i Hi. rewrite Hnew by lia. apply lookup_replicate. done.
  - rewrite normalize_counts_id by done. split; [by apply shift_counts_length|]. intros i Hi. rewrite shift_counts_lookup by done. case_decide as Hc.
    + rewrite Hrow by done. do 4 f_equal. unfold minute_at, MINUTE_NANOS in *. rewrite tcp_window_eq in *. lia.
    + rewrite Hnew by lia. done.
Qed.

Section Refinement.
Context `{SecsRoundtrip}.

Lemma floor_minute_seconds t : whole_seconds (floor_minute t).
Proof. unfold whole_seconds, floor_minute, MINUTE_NANOS. Z.div_mod_to_equations. lia. Qed.

Lemma tcp_parse_rfc3339_minute m : i64_nanos (floor_minute m) → tcp_parse_minute (tcp_rfc3339_minute m) = Some (floor_minute m).
Proof.
  intros Hm. unfold tcp_parse_minute, tcp_rfc3339_minute. rewrite parse_to_rfc3339_secs by (done || apply floor_minute_seconds).
  cbn. by rewrite floor_minute_idem.
Qed.

Lemma tcp_known_later eps counts nodes l l' : (l ≤ l')%Z → tcp_known eps counts nodes l → tcp_known eps counts nodes l'.
Proof. intros Hle [Hn Hs]. split; [done|]. intros e t Ht. destruct (Hs e t Ht). split; [lia|done]. Qed.

Lemma tcp_known_fmap (f : PersistedTcpConnectionEndpointUsage → PersistedTcpConnectionEndpointUsage) eps counts nodes l :
  (∀ r, tu_node_id (f r) = tu_node_id r) → tcp_known eps counts nodes l → tcp_known (f <$> eps) counts nodes l.
Proof. intros Hf [Hn Hs]. split; [|done]. intros e. rewrite <- Hn, lookup_fmap. destruct (eps !! e); cbn; by rewrite ?Hf. Qed.

Lemma tcp_refines_advance usage lg minute :
  tcp_refines usage lg → floor_minute minute = minute → i64_nanos minute →
  tcp_refines (tcp_advance_to_minute usage minute).1
    (mkTcpLedger (Some (from_option (Z.max minute) minute (tl_latest lg))) (tl_counts lg) (tl_nodes lg)).
Proof.
  intros [Hl HR] Hm Hr. unfold tcp_advance_to_minute. rewrite Hl.
  assert (tcp_parse_minute (tcp_rfc3339_minute minute) = Some minute) as Hp by (rewrite tcp_parse_rfc3339_minute; rewrite Hm; done).
  destruct (tl_latest lg) as [l|] eqn:Hlg; cbn [from_option].
  - destruct HR as (Hfl & Hk & Hrow). pose proof (minutes_apart l minute Hfl Hm) as Happart.
    destruct (Z.leb_spec (num_minutes (minute - l)) 0) as [Hle|Hgt].
    + rewrite Z.max_r by (unfold MINUTE_NANOS in Happart; lia). split; [done|]. split; [done|]. by split.
    + assert (l ≤ minute)%Z as Hlm by (unfold MINUTE_NANOS in Happart; lia). rewrite Z.max_l by done. split; [done|]. split; [done|]. cbn. split.
      * apply tcp_known_fmap; [done|]. by apply (tcp_known_later _ _ _ l).
      * intros e r. rewrite lookup_fmap. intros (r0 & Hr0 & ->)%fmap_Some. cbn. apply row_shift; auto. intros t Ht. by apply (proj2 Hk e t).
  - destruct HR as (He & Hc & Hn). split; [done|]. split; [done|]. cbn. rewrite He, Hc, Hn. split; [split|].
    + intros e. done.
    + intros e t []. done.
    + intros e r. rewrite fmap_empty, lookup_empty. done.
Qed.

(** What holds while the samples of a minute are recorded, [seen] being the endpoints done. *)
Definition tcp_recording (eps : gmap string PersistedTcpConnectionEndpointUsage) (counts : gmap (string * Z) N) (nodes : gmap string string)
    (latest : Z) (seen : gset string) : Prop :=
  tcp_known eps counts nodes latest ∧
  (∀ e r, eps !! e = Some r → row_before counts latest e (tu_counts r) ∧
     (e ∈ seen → tu_counts r !! (TCP_MINUTES_WINDOW - 1)%nat = Some (default 0 (counts !! (e, latest))))) ∧
  (∀ e, e ∉ seen → counts !! (e, latest) = None).

Lemma minute_before latest i : (i < TCP_MINUTES_WINDOW - 1)%nat → minute_at latest i ≠ latest.
Proof. intros Hi. unfold minute_at, MINUTE_NANOS. rewrite tcp_window_eq in Hi. lia. Qed.

Lemma row_before_ext counts counts' latest e l :
  (∀ t, t ≠ latest → counts' !! (e, t) = counts !! (e, t)) → row_before counts latest e l → row_before counts' latest e l.
Proof. intros Hc [Hlen Hrow]. split; [done|]. intros i Hi. rewrite Hc by (by apply minute_before). by apply Hrow. Qed.

Lemma row_before_set_latest counts latest e v l : row_before counts latest e l → row_before counts latest e (set_latest v l).
Proof.
  intros [Hlen Hrow]. unfold set_latest. split; [by rewrite length_insert|]. intros i Hi. rewrite list_lookup_insert_ne by lia. by apply Hrow.
Qed.

Lemma set_latest_lookup v l : length l = TCP_MINUTES_WINDOW → set_latest v l !! (TCP_MINUTES_WINDOW - 1)%nat = Some v.
Proof. intros Hlen. unfold set_latest. apply list_lookup_insert_eq. rewrite Hlen. unfold TCP_MINUTES_WINDOW. lia. Qed.

(** The vector a sample finds, its endpoint's or a fresh one, holds the minutes before. *)
Lemma sampled_row_before eps counts nodes latest seen e fresh :
  tcp_recording eps counts nodes latest seen → tu_counts fresh = zero_counts → row_before counts latest e (tu_counts (default fresh (eps !! e))).
Proof.
  intros ((Hn & Hs) & Hrow & _) Hf. destruct (eps !! e) as [r|] eqn:He; cbn [default from_option id]; [by apply Hrow|]. rewrite Hf. split; [apply length_replicate|].
  intros i Hi. destruct (counts !! (e, minute_at latest i)) as [c|] eqn:Hc.
  - destruct (Hs _ _ (mk_is_Some _ _ Hc)) as [_ [n Hne]]. rewrite <- Hn, He in Hne. done.
  - apply lookup_replicate. split; [done|lia].
Qed.

Lemma tcp_record_sample_step eps counts nodes latest seen b s :
  tcp_recording eps counts nodes latest seen →
  tcp_recording (tcp_record_sample (eps, b) s).1 (tcp_column latest counts s) (tcp_node nodes s) latest (seen ∪ {[tm_endpoint_id s]}).
Proof.
  intros HR. unfold tcp_record_sample, tcp_column, tcp_node. cbn [fst]. set (fresh := mkPersistedTcpConnectionEndpointUsage _ _ _ _ zero_counts).
  pose proof (sampled_row_before _ _ _ _ _ (tm_endpoint_id s) fresh HR eq_refl) as Hrb.
  set (r := default fresh (eps !! tm_endpoint_id s)) in *. set (e := tm_endpoint_id s) in *. destruct HR as ((Hn & Hs) & Hrow & Hnone).
  pose proof (proj1 Hrb) as Hlen. rewrite (normalize_counts_id (tu_counts r)) by done.
  assert (∀ e' t, t ≠ latest → <[(e, latest):=N.min (tm_count s) u16_max]> counts !! (e', t) = counts !! (e', t)) as Hold
    by (intros; rewrite lookup_insert_ne by congruence; done).
  split_and!; [split|..].
  - intros e'. destruct (decide (e' = e)) as [->|]; [by rewrite !lookup_insert_eq|]. by rewrite !lookup_insert_ne by done.
  - intros e' t. destruct (decide ((e', t) = (e, latest))) as [[= -> ->]|Hne].
    + intros _. split; [lia|]. rewrite lookup_insert_eq. by eexists.
    + rewrite lookup_insert_ne by done. intros Ht. destruct (Hs e' t Ht) as [? [n Hne']]. split; [done|].
      apply lookup_insert_is_Some'. right. by eexists.
  - intros e' r'. destruct (decide (e' = e)) as [->|Hne].
    + rewrite lookup_insert_eq. intros [= <-]. cbn. split.
      * apply row_before_set_latest. by apply (row_before_ext counts); [intros; apply Hold|].
      * intros _. rewrite set_latest_lookup by done. by rewrite lookup_insert_eq.
    + rewrite lookup_insert_ne by done. intros Hr'. destruct (Hrow e' r' Hr') as [Hb Hl]. split.
      * by apply (row_before_ext counts); [intros; apply Hold|].
      * intros [Hin|Hin%elem_of_singleton]%elem_of_union; [|done]. rewrite Hl by done. rewrite lookup_insert_ne by congruence. done.
  - intros e' [Hn1 Hn2]%not_elem_of_union. rewrite lookup_insert_ne; [by apply Hnone|]. intros [= ->]. by apply Hn2, elem_of_singleton.
Qed.

Lemma tcp_record_samples_fold samples latest eps counts nodes seen b :
  tcp_recording eps counts nodes latest seen →
  tcp_recording (foldl tcp_record_sample (eps, b) samples).1 (foldl (tcp_column latest) counts samples) (foldl tcp_node nodes samples) latest
    (seen ∪ list_to_set (tm_endpoint_id <$> samples)).
Proof.
  revert eps counts nodes seen b. induction samples as [|s samples IH]; intros eps counts nodes seen b HR; cbn [foldl fmap list_fmap list_to_set foldr].
  - by rewrite (right_id_L ∅ _).
  - pose proof (tcp_record_sample_step _ _ _ _ _ b s HR) as HR'. destruct (tcp_record_sample (eps, b) s) as [eps' b'].
    rewrite (assoc_L _). apply IH. exact HR'.
Qed.

(** The endpoints without a sample count nothing in the latest minute. *)
Lemma tcp_zero_others_rows eps counts nodes latest seen :
  tcp_recording eps counts nodes latest seen → tcp_rows (tcp_zero_others seen eps) counts nodes latest.
Proof.
  intros ((Hn & Hs) & Hrow & Hnone). unfold tcp_zero_others. split; [split; [|done]|].
  - intros e. rewrite map_lookup_imap, <- Hn. destruct (eps !! e); cbn; [|done]. by case_bool_decide.
  - intros e r. rewrite map_lookup_imap. destruct (eps !! e) as [r0|] eqn:He; cbn; [|done]. intros [= <-].
    destruct (Hrow e r0 He) as [Hb Hl]. apply row_split. pose proof (proj1 Hb) as Hlen. case_bool_decide as Hin; [by split; [|apply Hl]|]. cbn.
    rewrite normalize_counts_id by done. split; [by apply row_before_set_latest|]. by rewrite set_latest_lookup, Hnone.
Qed.

(** Forgetting the latest column. *)
Lemma tcp_recording_start eps counts nodes latest :
  tcp_rows eps counts nodes latest → tcp_recording eps (filter (λ '(k, _), k.2 ≠ latest) counts) nodes latest ∅.
Proof.
  intros [[Hn Hs] Hrow]. split_and!; [split; [done|]|..].
  - intros e t [c [Hc _]%map_lookup_filter_Some]. apply Hs. by exists c.
  - intros e r Hr. apply Hrow, row_split in Hr as [Hb _]. split; [|done]. apply (row_before_ext counts); [|done].
    intros t Ht. rewrite map_lookup_filter. destruct (counts !! (e, t)); cbn; [|done]. by rewrite option_guard_True.
  - intros e _. apply map_lookup_filter_None. right. intros c _ Hne. by apply Hne.
Qed.

Lemma tcp_refines_record usage lg minute linux_only warning samples :
  tcp_refines usage lg → i64_nanos (floor_minute minute) →
  tcp_refines (tcp_record_minute_samples usage minute linux_only warning samples).1 (tcp_spec_op lg (TcpRecord minute linux_only warning samples)).
Proof.
  intros HR Hr. unfold tcp_record_minute_samples. cbn [tcp_spec_op]. set (m := floor_minute minute) in *.
  set (u1 := usage <| tc_schema_version := _ |> <| tc_minutes_window := _ |> <| tc_linux_only := _ |> <| tc_last_warning := _ |>).
  assert (tcp_refines u1 lg) as HR1 by exact HR. pose proof (tcp_refines_advance u1 lg m HR1 (floor_minute_idem _) Hr) as HR2.
  destruct (tcp_advance_to_minute u1 m) as [u2 advanced]. cbn [fst] in HR2. destruct HR2 as [Hl HR2]. cbn [tl_latest tl_counts tl_nodes] in *.
  set (latest := from_option (Z.max m) m (tl_latest lg)) in *. destruct HR2 as [Hfl Hrows].
  set (b := _ || advanced). clearbody b. pose proof (tcp_record_samples_fold samples latest _ _ _ _ b (tcp_recording_start _ _ _ _ Hrows)) as HR3.
  rewrite (left_id_L ∅ _) in HR3. destruct (foldl tcp_record_sample (tc_endpoints u2, b) samples) as [eps b']. cbn [fst] in *.
  split; [done|]. split; [done|]. by apply tcp_zero_others_rows.
Qed.

(** Dropping the endpoints outside [P] on both sides. *)
Lemma tcp_rows_keep (P : string → Prop) `{∀ e, Decision (P e)} eps counts nodes latest :
  tcp_rows eps counts nodes latest →
  tcp_rows (filter (λ '(e, _), P e) eps) (filter (λ '(k, _), P k.1) counts) (filter (λ '(e, _), P e) nodes) latest.
Proof.
  intros [[Hn Hs] Hrow]. split; [split|].
  - intros e. rewrite !map_lookup_filter, <- Hn. destruct (eps !! e); cbn; [|done]. by case_guard.
  - intros e t [c [Hc HP]%map_lookup_filter_Some]. destruct (Hs e t (mk_is_Some _ _ Hc)) as [Ht [n Hne]]. split; [done|].
    exists n. by apply map_lookup_filter_Some.
  - intros e r [Hr HP]%map_lookup_filter_Some. destruct (Hrow e r Hr) as [Hlen Hi]. split; [done|]. intros i Hlt. rewrite (Hi i Hlt). do 2 f_equal.
    rewrite map_lookup_filter. destruct (counts !! (e, minute_at latest i)); cbn; [|done]. by rewrite option_guard_True.
Qed.

Lemma tcp_refines_keep (P : string → Prop) `{∀ e, Decision (P e)} usage lg eps :
  tcp_refines usage lg → eps = filter (λ '(e, _), P e) (tc_endpoints usage) →
  tcp_refines (usage <| tc_endpoints := eps |>) (tcp_keep P lg).
Proof.
  intros [Hl HR] ->. split; [done|]. cbn [tcp_keep tl_latest tl_counts tl_nodes]. destruct (tl_latest lg).
  - destruct HR as [Hfl Hrows]. split; [done|]. by apply tcp_rows_keep.
  - destruct HR as (He & Hc & Hn). cbn. rewrite He, Hc, Hn. split_and!; apply map_filter_empty.
Qed.

Lemma tcp_refines_nodes usage lg : tcp_refines usage lg → ∀ e, tu_node_id <$> tc_endpoints usage !! e = tl_nodes lg !! e.
Proof. intros [_ HR]. destruct (tl_latest lg); [by destruct HR as (_ & [Hn _] & _)|]. destruct HR as (-> & _ & ->). done. Qed.

Lemma tcp_refines_normalize usage lg allowed :
  tcp_refines usage lg → tcp_refines (tcp_normalize usage allowed).1 (tcp_spec_op lg (TcpNormalize allowed)).
Proof.
  intros HR. unfold tcp_normalize. cbn [fst tcp_spec_op]. set (eps := filter _ _).
  pose proof (tcp_refines_keep (λ e, is_Some (allowed !! e)) usage lg eps HR eq_refl) as [Hl HR']. split; [done|]. cbn [tl_latest tl_counts tl_nodes] in *.
  destruct (tl_latest (tcp_keep _ lg)).
  - destruct HR' as (Hfl & (Hn & Hs) & Hrow). split; [done|]. split; [split|].
    + intros e. cbn. rewrite !map_lookup_imap, <- Hn. cbn. destruct (eps !! e) as [r|]; cbn; [|done]. by destruct (allowed !! e).
    + intros e t Ht. destruct (Hs e t Ht) as [? [n Hne]]. split; [done|]. eexists. rewrite map_lookup_imap, Hne. reflexivity.
    + intros e r. cbn. rewrite map_lookup_imap. destruct (eps !! e) as [r0|] eqn:He; cbn; [|done]. intros [= <-].
      pose proof (Hrow e r0 He) as Hr0. pose proof (proj1 Hr0) as Hlen. destruct (allowed !! e); cbn; by rewrite normalize_counts_id.
  - destruct HR' as (He & Hc & Hn'). cbn in He, Hn' |- *. rewrite He, Hn'. split_and!; [apply map_imap_empty|done|apply map_imap_empty].
Qed.

Lemma tcp_refines_op usage lg op : tcp_refines usage lg → tcp_op_in_range op → tcp_refines (tcp_op usage op) (tcp_spec_op lg op).
Proof.
  intros HR Hr. destruct op as [minute linux_only warning samples|endpoint_id|node_id|allowed]; cbn [tcp_op].
  - by apply tcp_refines_record.
  - unfold tcp_clear_endpoint. cbn [fst]. apply tcp_refines_keep; [done|]. apply map_eq. intros e. cbn. rewrite map_lookup_filter.
    destruct (decide (e = endpoint_id)) as [->|]; [rewrite lookup_delete_eq; destruct (_ !! _); cbn; [by rewrite option_guard_False by tauto|done]|rewrite lookup_delete_ne by done].
    destruct (tc_endpoints usage !! e); cbn; [by rewrite option_guard_True|done].
  - unfold tcp_clear_node. cbn [fst]. apply tcp_refines_keep; [done|]. apply map_eq. intros e. rewrite !map_lookup_filter.
    destruct (tc_endpoints usage !! e) as [r|] eqn:He; cbn; [|done]. pose proof (tcp_refines_nodes usage lg HR e) as Hn. rewrite He in Hn. cbn in Hn.
    destruct (decide (tu_node_id r = node_id)) as [Heq|Hne].
    + rewrite !option_guard_False; [done|intros HP; apply HP; congruence|tauto].
    + rewrite !option_guard_True; [done|congruence|done].
  - by apply tcp_refines_normalize.
Qed.

Definition tcp_ledger_default : TcpLedger := mkTcpLedger None ∅ ∅.

Lemma tcp_refines_history ops usage lg : tcp_refines usage lg → Forall tcp_op_in_range ops → tcp_refines (foldl tcp_op usage ops) (foldl tcp_spec_op lg ops).
Proof.
  revert usage lg. induction ops as [|op ops IH]; intros usage lg HR; [done|]. intros [Hop Hops]%Forall_cons. cbn.
  apply IH; [|done]. by apply tcp_refines_op.
Qed.

Lemma tcp_refines_default : tcp_refines PersistedTcpConnectionUsage_default tcp_ledger_default.
Proof. done. Qed.

Lemma tcp_point_ledger usage lg now window endpoint_id index :
  tcp_refines usage lg → (index < tcp_window_minutes window)%nat →
  let latest := default (floor_minute now) (tl_latest lg) in
  let minute := (latest - Z.of_nat (tcp_window_minutes window - 1 - index) * MINUTE_NANOS)%Z in
  tcp_point (tu_counts <$> tc_endpoints usage !! endpoint_id) (tcp_window_minutes window)
    (latest - Z.of_nat (tcp_window_minutes window - 1) * MINUTE_NANOS) index =
  mkTcpConnectionUsageSeriesPoint (tcp_rfc3339_minute minute) (default 0 (tl_counts lg !! (endpoint_id, minute))).
Proof.
  intros [Hl HR] Hi latest minute. unfold tcp_point. f_equal; [unfold minute, MINUTE_NANOS; f_equal; lia|].
  assert (tcp_window_minutes window ≤ TCP_MINUTES_WINDOW)%nat as Hw by (unfold TCP_MINUTES_WINDOW; destruct window; cbn [tcp_window_minutes]; lia).
  destruct (tl_latest lg) as [l|] eqn:Hlg; cbn in latest; subst latest.
  - destruct HR as (_ & (Hn & Hs) & Hrow). assert (minute_at l (TCP_MINUTES_WINDOW - tcp_window_minutes window + index) = minute) as Hat.
    { unfold minute_at, minute, MINUTE_NANOS. rewrite tcp_window_eq in *. clear -Hi Hw. lia. }
    destruct (tc_endpoints usage !! endpoint_id) as [r|] eqn:He; cbn [fmap option_fmap option_map mbind option_bind].
    + destruct (Hrow endpoint_id r He) as [_ Hr]. rewrite Hr by (clear -Hi Hw; lia). by rewrite Hat.
    + destruct (tl_counts lg !! (endpoint_id, minute)) as [c|] eqn:Hc; [|done]. destruct (Hs _ _ (mk_is_Some _ _ Hc)) as [_ [n Hne]].
      rewrite <- Hn, He in Hne. done.
  - destruct HR as (-> & -> & _). done.
Qed.

Lemma tcp_in_order_table ops lg : tcp_in_order (tl_latest lg) ops → foldl tcp_spec_op lg ops = foldl tcp_table_op lg ops.
Proof.
  revert lg. induction ops as [|op ops IH]; intros lg Hord; [done|]. cbn [foldl].
  destruct op as [minute linux_only warning samples|e|n|allowed]; cbn [tcp_in_order] in Hord; [|by apply IH..].
  destruct Hord as [Hle Hord]. assert (tcp_spec_op lg (TcpRecord minute linux_only warning samples) = tcp_table_op lg (TcpRecord minute linux_only warning samples)) as ->; [|by apply IH].
  cbn. destruct (tl_latest lg) as [l|]; cbn in *; [|done]. by rewrite (Z.max_l _ _ Hle).
Qed.

(** The series of a view. *)
Definition tcp_series (ops : list TcpOp) (now : Z) (window : TcpConnectionUsageWindow) (endpoints : list TcpConnectionEndpointView) : list TcpConnectionUsageEndpointSeries :=
  tv_per_endpoint_series (tcp_build_window_view (foldl tcp_op PersistedTcpConnectionUsage_default ops) now window endpoints).
(** The series that report a table. *)
Definition tcp_table_series (lg : TcpLedger) (now : Z) (window : TcpConnectionUsageWindow) (options : list TcpConnectionUsageEndpointOption)
    : list TcpConnectionUsageEndpointSeries :=
  let latest := default (floor_minute now) (tl_latest lg) in
  (λ o, mkTcpConnectionUsageEndpointSeries (to_endpoint_id o) (to_endpoint_tag o) (to_port o)
     ((λ index, let minute := (latest - Z.of_nat (tcp_window_minutes window - 1 - index) * MINUTE_NANOS)%Z in
        mkTcpConnectionUsageSeriesPoint (tcp_rfc3339_minute minute) (default 0 (tl_counts lg !! (to_endpoint_id o, minute))))
      <$> seq 0 (tcp_window_minutes window))) <$> options.

Lemma tcp_series_ledger ops now window endpoints :
  Forall tcp_op_in_range ops →
  tcp_series ops now window endpoints =
    tcp_table_series (foldl tcp_spec_op tcp_ledger_default ops) now window
      (tv_endpoints (tcp_build_window_view (foldl tcp_op PersistedTcpConnectionUsage_default ops) now window endpoints)).
Proof.
  intros Hops. pose proof (tcp_refines_history ops _ _ tcp_refines_default Hops) as HR. unfold tcp_series, tcp_table_series.
  set (lg := foldl tcp_spec_op _ ops) in *. set (usage := foldl tcp_op _ ops) in *. clearbody lg usage. unfold tcp_build_window_view. cbn [tv_per_endpoint_series tv_endpoints].
  rewrite (proj1 HR). apply list_fmap_ext. intros _ o _. f_equal. apply list_fmap_ext. intros i index Hi.
  apply lookup_seq in Hi as [-> Hi]. by apply (tcp_point_ledger usage lg now).
Qed.

(** C24: the view of the connection counts reports what was sampled.  After any sequence of
    recordings in order of time, clears and normalizations from the empty file, every point of
    every series the view returns, for either window, is the count last recorded for that
    endpoint at that minute, clamped to [u16], and 0 where nothing was recorded or the endpoint
    was cleared since; gaps longer than the window included.  A recording that comes late,
    after any sequence, is not kept at its own minute: the view is the same as if its samples
    had been taken at the latest minute, whose counts they replace. *)
Theorem tcp_view_reports_samples (ops : list TcpOp) (now : Z) (window : TcpConnectionUsageWindow) (endpoints : list TcpConnectionEndpointView) :
  Forall tcp_op_in_range ops →
  (tcp_in_order None ops →
    tcp_series ops now window endpoints =
      tcp_table_series (foldl tcp_table_op tcp_ledger_default ops) now window
        (tv_endpoints (tcp_build_window_view (foldl tcp_op PersistedTcpConnectionUsage_default ops) now window endpoints))) ∧
  (∀ minute latest linux_only warning samples, i64_nanos (floor_minute minute) →
    tcp_latest_minute_dt (foldl tcp_op PersistedTcpConnectionUsage_default ops) = Some latest → (floor_minute minute < latest)%Z → i64_nanos latest →
    tcp_series (ops ++ [TcpRecord minute linux_only warning samples]) now window endpoints =
    tcp_series (ops ++ [TcpRecord latest linux_only warning samples]) now window endpoints).
Proof.
  intros Hops. split.
  - intros Hord. rewrite tcp_series_ledger by done. by rewrite (tcp_in_order_table ops tcp_ledger_default Hord).
  - intros minute latest linux_only warning samples Hm Hl Hlate Hr. pose proof (tcp_refines_history ops _ _ tcp_refines_default Hops) as [Hlg HR].
    rewrite Hl in Hlg. rewrite <-Hlg in HR. destruct HR as [Hfl _].
    rewrite !tcp_series_ledger by (apply Forall_app; split; [done|]; apply Forall_singleton; cbn; by rewrite ?Hfl).
    rewrite !foldl_snoc. cbn [tcp_spec_op]. rewrite <-Hlg. cbn [from_option]. rewrite Hfl, Z.max_id, Z.max_r by lia. done.
Qed.
End Refinement.

(** ** Example *)

Module TcpSample.
Definition sample (endpoint_id : string) (count : N) : TcpConnectionMinuteSample := mkTcpConnectionMinuteSample "n1" endpoint_id "vless" 443 count.
Definition view : TcpConnectionEndpointView := mkTcpConnectionEndpointView "n1" "e1" "vless" 443.

(** Two endpoints, a minute without a recording, a count past [u16], and one endpoint cleared. *)
Definition ops : list TcpOp :=
  [ TcpRecord (1000 * MINUTE_NANOS + 17) true None [sample "e1" 3; sample "e2" 5];
    TcpRecord (1002 * MINUTE_NANOS) true None [sample "e1" 70000];
    TcpClearEndpoint "e2" ].
Definition counts_of (l : list TcpConnectionUsageEndpointSeries) : list (string * list N) := (λ s, (te_endpoint_id s, tp_count <$> drop 1436 (te_series s))) <$> l.

(** The sample of minute 1001 that comes after that of minute 1002 replaces it. *)
Lemma tcp_view_reports_samples_witness :
  let series ops := counts_of (@tcp_series nanos_reader nanos_secs ops (1005 * MINUTE_NANOS) TcpHours24 [view]) in
  series ops = [("e1", [0; 3; 0; 65535])] ∧ series (ops ++ [TcpRecord (1001 * MINUTE_NANOS) true None [sample "e1" 9]]) = [("e1", [0; 3; 0; 9])].
Proof.
  assert (Forall tcp_op_in_range ops) as Hops by (repeat constructor; vm_compute; congruence).
  destruct (@tcp_view_reports_samples nanos_reader nanos_secs nanos_secs_roundtrip ops (1005 * MINUTE_NANOS) TcpHours24 [view] Hops) as [Hin Hlate].
  cbv zeta. split.
  - rewrite Hin by (vm_compute; repeat split; congruence). by vm_compute.
  - rewrite (Hlate (1001 * MINUTE_NANOS)%Z (1002 * MINUTE_NANOS)%Z) by (vm_compute; try split; congruence). by vm_compute.
Defined.
End TcpSample.
