(* ===== verification/Migration.v ===== *)
(** * Upgrading stored data

    The migrations of [src/state.rs]: historical state documents to the latest schema
    ([migrate_state_value_to_latest], used for snapshots, and the loading path of
    [JsonSnapshotStore::load_or_init]) and the usage file from grants to memberships.

    Decoding a JSON document into a typed state is [serde]'s work and an interface here; its
    one law is that the schema version of what is decoded is the one the document states. *)

From S2P Require Import Prelude Text Search Domain State Usage.
Open Scope string_scope.
Open Scope list_scope.
Open Scope N_scope.

Definition SCHEMA_VERSION_V12 : N := 12.
Definition SCHEMA_VERSION_V11 : N := 11.
Definition SCHEMA_VERSION_V10 : N := 10.
Definition SCHEMA_VERSION_V9 : N := 9.
Definition SCHEMA_VERSION_V8 : N := 8.
Definition SCHEMA_VERSION_V7 : N := 7.
Definition SCHEMA_VERSION_V6 : N := 6.
Definition SCHEMA_VERSION_V5 : N := 5.
Definition SCHEMA_VERSION_V4 : N := 4.
Definition USAGE_SCHEMA_VERSION_V1 : N := 1.

(** ** Historical documents *)

Inductive CyclePolicyDefaultV2 : Type := DefaultByUser | DefaultByNode.
Inductive CyclePolicyV2 : Type := InheritUser | PolicyByUser | PolicyByNode.

Record UserV2 : Type := mkUserV2 {
  u2_user_id : string;
  u2_display_name : string;
  u2_subscription_token : string;
  u2_cycle_policy_default : CyclePolicyDefaultV2;
  u2_cycle_day_of_month_default : N;
}.

Record GrantV2 : Type := mkGrantV2 {
  g2_grant_id : string;
  g2_user_id : string;
  g2_endpoint_id : string;
  g2_group_name : option string;
  g2_enabled : bool;
  g2_quota_limit_bytes : N;
  g2_cycle_policy : CyclePolicyV2;
  g2_cycle_day_of_month : option N;
  g2_note : option string;
  g2_credentials : json;
}.

Record PersistedStateV2Like : Type := mkPersistedStateV2Like {
  v2_schema_version : N;
  v2_nodes : gmap string Node;
  v2_endpoints : gmap string Endpoint;
  v2_users : gmap string UserV2;
  v2_grants : gmap string GrantV2;
  v2_user_node_quotas : gmap string (gmap string N);
}.

Record LegacyGrantCompat : Type := mkLegacyGrantCompat {
  lg_grant_id : string;
  lg_user_id : string;
  lg_endpoint_id : string;
  lg_enabled : bool;
}.

Record PersistedStateV9Compat : Type := mkPersistedStateV9Compat {
  v9_schema_version : N;
  v9_nodes : gmap string Node;
  v9_endpoints : gmap string Endpoint;
  v9_endpoint_probe_history : gmap string EndpointProbeHistory;
  v9_users : gmap string User;
  v9_grants : gmap string LegacyGrantCompat;
  v9_reality_domains : list RealityDomain;
  v9_user_node_quotas : gmap string (gmap string UserNodeQuotaConfig);
  v9_user_node_weights : gmap string (gmap string UserNodeWeightConfig);
  v9_user_global_weights : gmap string UserGlobalWeightConfig;
  v9_node_weight_policies : gmap string NodeWeightPolicyConfig;
  v9_node_user_endpoint_memberships : gset NodeUserEndpointMembership;
}.
#[export] Instance PersistedStateV9Compat_eta : Eta PersistedStateV9Compat := λ r,
  mkPersistedStateV9Compat (v9_schema_version r) (v9_nodes r) (v9_endpoints r) (v9_endpoint_probe_history r) (v9_users r)
    (v9_grants r) (v9_reality_domains r) (v9_user_node_quotas r) (v9_user_node_weights r) (v9_user_global_weights r)
    (v9_node_weight_policies r) (v9_node_user_endpoint_memberships r).

Definition empty_with_version (schema_version : N) : PersistedStateV9Compat :=
  mkPersistedStateV9Compat schema_version ∅ ∅ ∅ ∅ ∅ [] ∅ ∅ ∅ ∅ ∅.

(** ** Versions one and two *)

Definition QuotaResetSource_debug (s : QuotaResetSource) : string := match s with ResetByUser => "User" | ResetByNode => "Node" end.

Definition migrate_user_v2 (user : UserV2) : User :=
  mkUser (u2_user_id user) (u2_display_name user) (u2_subscription_token user) 0 UserPriorityTier_default
    (UserMonthly (u2_cycle_day_of_month_default user) 480).

(** What the loop over the grants carries along. *)
Record V2Acc : Type := mkV2Acc {
  va_seen_pairs : gset (string * string);
  va_node_day_by_node_id : gmap string N;
  va_user_node_quotas : gmap string (gmap string UserNodeQuotaConfig);
  va_grants : gmap string LegacyGrantCompat;
}.

Definition effective_cycle (users_v2 : gmap string UserV2) (grant : GrantV2) : result (QuotaResetSource * N) StoreError :=
  match g2_cycle_policy grant with
  | InheritUser =>
      let? user := ok_or (users_v2 !! g2_user_id grant) (MigrationError ("missing user for grant_id=" +:+ g2_grant_id grant)) in
      Ok (match u2_cycle_policy_default user with DefaultByUser => ResetByUser | DefaultByNode => ResetByNode end,
          u2_cycle_day_of_month_default user)
  | PolicyByUser =>
      let? day := ok_or (g2_cycle_day_of_month grant)
        (MigrationError ("missing cycle_day_of_month for grant_id=" +:+ g2_grant_id grant +:+ " (cycle_policy=by_user)")) in
      Ok (ResetByUser, day)
  | PolicyByNode =>
      let? day := ok_or (g2_cycle_day_of_month grant)
        (MigrationError ("missing cycle_day_of_month for grant_id=" +:+ g2_grant_id grant +:+ " (cycle_policy=by_node)")) in
      Ok (ResetByNode, day)
  end.

Definition note_node_day (days : gmap string N) (node_id : string) (source : QuotaResetSource) (day : N) : result (gmap string N) StoreError :=
  if bool_decide (source = ResetByNode) then
    match days !! node_id with
    | Some existing =>
        if bool_decide (existing = day) then Ok days
        else Err (MigrationError ("conflicting node day_of_month for node_id=" +:+ node_id +:+ ": " +:+ pretty existing +:+ " vs " +:+ pretty day))
    | None => Ok (<[node_id := day]> days)
    end
  else Ok days.

Definition note_reset_source (quotas : gmap string (gmap string UserNodeQuotaConfig)) (user_id node_id : string) (source : QuotaResetSource)
    : result (gmap string (gmap string UserNodeQuotaConfig)) StoreError :=
  let nodes := default ∅ (quotas !! user_id) in
  let cfg := default (mkUserNodeQuotaConfig None source) (nodes !! node_id) in
  let cfg :=
    if bool_decide (is_Some (unqc_quota_limit_bytes cfg)) && bool_decide (unqc_quota_reset_source cfg = ResetByUser)
    then mkUserNodeQuotaConfig (unqc_quota_limit_bytes cfg) source else cfg in
  if negb (bool_decide (unqc_quota_reset_source cfg = source))
  then Err (MigrationError ("conflicting quota_reset_source for user_id=" +:+ user_id +:+ " node_id=" +:+ node_id +:+ ": "
              +:+ QuotaResetSource_debug (unqc_quota_reset_source cfg) +:+ " vs " +:+ QuotaResetSource_debug source))
  else Ok (<[user_id := <[node_id := cfg]> nodes]> quotas).

Definition migrate_grant_v2 (endpoints : gmap string Endpoint) (users_v2 : gmap string UserV2) (acc : V2Acc) (item : string * GrantV2)
    : result V2Acc StoreError :=
  let grant := item.2 in
  let? endpoint := ok_or (endpoints !! g2_endpoint_id grant) (MigrationError ("missing endpoint for grant_id=" +:+ g2_grant_id grant)) in
  let node_id := e_node_id endpoint in
  let? cycle := effective_cycle users_v2 grant in
  let '(source, day) := cycle in
  let? _ := map_err StoreDomain (validate_cycle_day_of_month day) in
  let? days := note_node_day (va_node_day_by_node_id acc) node_id source day in
  let pair := (g2_user_id grant, g2_endpoint_id grant) in
  if bool_decide (pair ∈ va_seen_pairs acc)
  then Err (MigrationError ("duplicate (user_id, endpoint_id) detected: user_id=" +:+ pair.1 +:+ " endpoint_id=" +:+ pair.2))
  else
    let? quotas := note_reset_source (va_user_node_quotas acc) (g2_user_id grant) node_id source in
    Ok (mkV2Acc ({[pair]} ∪ va_seen_pairs acc) days quotas
          (<[g2_grant_id grant := mkLegacyGrantCompat (g2_grant_id grant) (g2_user_id grant) (g2_endpoint_id grant) (g2_enabled grant)]>
             (va_grants acc))).

Definition set_monthly (days : gmap string N) (node_id : string) (node : Node) : Node :=
  node <| n_quota_reset := NodeMonthly (default 1 (days !! node_id)) None |>.

Definition migrate_v2_like_to_v3 (input : PersistedStateV2Like) : result PersistedStateV9Compat StoreError :=
  let? _ := try_each (λ item, map_err StoreDomain (validate_cycle_day_of_month (u2_cycle_day_of_month_default item.2)))
              (bt_items (v2_users input)) in
  let quotas : gmap string (gmap string UserNodeQuotaConfig) :=
    (λ nodes : gmap string N, (λ quota_limit_bytes, mkUserNodeQuotaConfig (Some quota_limit_bytes) ResetByUser) <$> nodes)
      <$> filter (λ user_nodes, user_nodes.2 ≠ ∅) (v2_user_node_quotas input) in
  let? acc := try_fold (migrate_grant_v2 (v2_endpoints input) (v2_users input)) (mkV2Acc ∅ ∅ quotas ∅) (bt_items (v2_grants input)) in
  Ok ((empty_with_version SCHEMA_VERSION_V4)
        <| v9_nodes := map_imap (λ node_id node, Some (set_monthly (va_node_day_by_node_id acc) node_id node)) (v2_nodes input) |>
        <| v9_endpoints := v2_endpoints input |>
        <| v9_users := migrate_user_v2 <$> v2_users input |>
        <| v9_user_node_quotas := va_user_node_quotas acc |>
        <| v9_grants := va_grants acc |>).

(** ** Versions three to nine *)

Definition unexpected_version (step : string) (got : N) : StoreError :=
  MigrationError ("unexpected schema version for " +:+ step +:+ " migration: " +:+ pretty got).

Definition migrate_v3_to_v4 (input : PersistedStateV9Compat) : result PersistedStateV9Compat StoreError :=
  if negb (v9_schema_version input =? 3) then Err (unexpected_version "v3->v4" (v9_schema_version input))
  else Ok (input <| v9_schema_version := SCHEMA_VERSION_V4 |>).

Definition default_seed_reality_domains : list RealityDomain :=
  [mkRealityDomain "seed_cdn_a_example_test" "cdn-a.example.test" ∅;
   mkRealityDomain "seed_cdn_b_example_test" "cdn-b.example.test" ∅;
   mkRealityDomain "seed_download_example_com" "download.example.com" ∅].

Definition migrate_v4_to_v5 (input : PersistedStateV9Compat) : result PersistedStateV9Compat StoreError :=
  if negb (v9_schema_version input =? SCHEMA_VERSION_V4) then Err (unexpected_version "v4->v5" (v9_schema_version input))
  else
    let input := input <| v9_schema_version := SCHEMA_VERSION_V5 |> in
    Ok (if bool_decide (v9_reality_domains input = []) then input <| v9_reality_domains := default_seed_reality_domains |> else input).

Definition migrate_v5_to_v6 (input : PersistedStateV9Compat) : result PersistedStateV9Compat StoreError :=
  if negb (v9_schema_version input =? SCHEMA_VERSION_V5) then Err (unexpected_version "v5->v6" (v9_schema_version input))
  else Ok (input <| v9_schema_version := SCHEMA_VERSION_V6 |>).

Definition membership_of_grant (users : gmap string User) (endpoints : gmap string Endpoint) (grant : LegacyGrantCompat)
    : option NodeUserEndpointMembership :=
  match endpoints !! lg_endpoint_id grant with
  | None => None
  | Some endpoint =>
      if negb (contains_key users (lg_user_id grant)) then None
      else Some (mkMembership (lg_user_id grant) (e_node_id endpoint) (e_endpoint_id endpoint))
  end.

Definition build_node_user_endpoint_memberships_from_legacy_grants (st : PersistedStateV9Compat) : gset NodeUserEndpointMembership :=
  list_to_set (omap (membership_of_grant (v9_users st) (v9_endpoints st)) (bt_values (v9_grants st))).

Definition migrate_v6_to_v7 (input : PersistedStateV9Compat) : result PersistedStateV9Compat StoreError :=
  if negb (v9_schema_version input =? SCHEMA_VERSION_V6) then Err (unexpected_version "v6->v7" (v9_schema_version input))
  else
    let input := input <| v9_schema_version := SCHEMA_VERSION_V7 |> in
    Ok (input <| v9_node_user_endpoint_memberships := build_node_user_endpoint_memberships_from_legacy_grants input |>).

(** Nodes with an explicit weight of some user override the global weights. *)
Definition override_policy (policies : gmap string NodeWeightPolicyConfig) (node_id : string) : gmap string NodeWeightPolicyConfig :=
  match policies !! node_id with Some _ => policies | None => <[node_id := mkNodeWeightPolicyConfig false]> policies end.

Definition migrate_v7_to_v8 (input : PersistedStateV9Compat) : result PersistedStateV9Compat StoreError :=
  if negb (v9_schema_version input =? SCHEMA_VERSION_V7) then Err (unexpected_version "v7->v8" (v9_schema_version input))
  else
    let input := input <| v9_schema_version := SCHEMA_VERSION_V8 |> in
    Ok (input <| v9_node_weight_policies ::= λ policies,
          foldl override_policy policies (bt_values (v9_user_node_weights input) ≫= bt_keys) |>).

(** ** To version ten: grants become memberships *)

Record MigrateV9ToV10Stats : Type := mkMigrateV9ToV10Stats {
  s10_grants_total : nat;
  s10_grants_orphan_dropped : nat;
  s10_memberships_created : nat;
  s10_memberships_deduped : nat;
  s10_user_node_quotas_cleared : nat;
}.
#[export] Instance MigrateV9ToV10Stats_eta : Eta MigrateV9ToV10Stats := λ r,
  mkMigrateV9ToV10Stats (s10_grants_total r) (s10_grants_orphan_dropped r) (s10_memberships_created r) (s10_memberships_deduped r)
    (s10_user_node_quotas_cleared r).

(** The memberships by user and endpoint, the key of each grant's membership, the counts. *)
Record V10Acc : Type := mkV10Acc {
  v10_mapping : gmap string string;
  v10_by_pair : gmap (string * string) NodeUserEndpointMembership;
  v10_stats : MigrateV9ToV10Stats;
}.

Definition migrate_grant_v10 (users : gmap string User) (endpoints : gmap string Endpoint) (acc : V10Acc) (item : string * LegacyGrantCompat) : V10Acc :=
  let '(grant_id, grant) := item in
  let dropped := mkV10Acc (v10_mapping acc) (v10_by_pair acc) ((v10_stats acc) <| s10_grants_orphan_dropped ::= S |>) in
  if negb (contains_key users (lg_user_id grant)) then dropped
  else match endpoints !! lg_endpoint_id grant with
       | None => dropped
       | Some endpoint =>
           let pair := (lg_user_id grant, lg_endpoint_id grant) in
           let mapping := <[grant_id := membership_key (lg_user_id grant) (lg_endpoint_id grant)]> (v10_mapping acc) in
           match v10_by_pair acc !! pair with
           | Some _ => mkV10Acc mapping (v10_by_pair acc) ((v10_stats acc) <| s10_memberships_deduped ::= S |>)
           | None => mkV10Acc mapping (<[pair := mkMembership (lg_user_id grant) (e_node_id endpoint) (lg_endpoint_id grant)]> (v10_by_pair acc))
                       (v10_stats acc)
           end
       end.

Definition migrate_v9_compat_to_v10 (input : PersistedStateV9Compat)
    : result (PersistedState * gmap string string * MigrateV9ToV10Stats) StoreError :=
  let stats := mkMigrateV9ToV10Stats (size (v9_grants input)) 0 0 0
                 (foldr plus 0%nat (size <$> (bt_values (v9_user_node_quotas input)))) in
  let out := PersistedState_empty
    <| ps_schema_version := SCHEMA_VERSION_V10 |> <| ps_nodes := v9_nodes input |> <| ps_endpoints := v9_endpoints input |>
    <| ps_endpoint_probe_history := v9_endpoint_probe_history input |> <| ps_users := v9_users input |>
    <| ps_reality_domains := v9_reality_domains input |> <| ps_user_node_quotas := ∅ |>
    <| ps_user_node_weights := v9_user_node_weights input |> <| ps_user_global_weights := v9_user_global_weights input |>
    <| ps_node_weight_policies := v9_node_weight_policies input |> in
  let acc := foldl (migrate_grant_v10 (ps_users out) (ps_endpoints out)) (mkV10Acc ∅ ∅ stats) (bt_items (v9_grants input)) in
  let memberships : gset NodeUserEndpointMembership := list_to_set (snd <$> map_to_list (v10_by_pair acc)) in
  let out := out <| ps_node_user_endpoint_memberships := memberships |> in
  Ok (sync_node_user_endpoint_memberships out, v10_mapping acc, (v10_stats acc) <| s10_memberships_created := size memberships |>).

Definition expected_version (version : string) (got : N) : StoreError :=
  MigrationError ("expected " +:+ version +:+ " state during migration, got schema_version " +:+ pretty got).

Definition migrate_v10_to_v11 (input : PersistedState) : result PersistedState StoreError :=
  if negb (ps_schema_version input =? SCHEMA_VERSION_V10) then Err (expected_version "v10" (ps_schema_version input))
  else Ok (input <| ps_schema_version := SCHEMA_VERSION_V11 |>).

Definition migrate_v11_to_v12 (input : PersistedState) : result PersistedState StoreError :=
  if negb (ps_schema_version input =? SCHEMA_VERSION_V11) then Err (expected_version "v11" (ps_schema_version input))
  else
    let input := input <| ps_node_user_endpoint_memberships :=
                   normalize_node_user_endpoint_memberships input (ps_node_user_endpoint_memberships input) |> in
    let input := input <| ps_user_auto_assign_endpoint_kinds := infer_user_auto_assign_endpoint_kinds input |> in
    let input := input <| ps_schema_version := SCHEMA_VERSION_V12 |> in
    Ok (sync_node_user_endpoint_memberships input).

Definition migrate_v12_to_v13 (input : PersistedState) : result PersistedState StoreError :=
  if negb (ps_schema_version input =? SCHEMA_VERSION_V12) then Err (expected_version "v12" (ps_schema_version input))
  else Ok (input <| ps_schema_version := SCHEMA_VERSION |>).

(** ** Cleanups of a loaded state *)

Definition normalize_user_global_weights (st : PersistedState) (global_weights : gmap string UserGlobalWeightConfig) : gmap string UserGlobalWeightConfig :=
  filter (λ '(user_id, _), is_Some (ps_users st !! user_id)) global_weights.

Definition normalize_node_weight_policies (st : PersistedState) (node_policies : gmap string NodeWeightPolicyConfig) : gmap string NodeWeightPolicyConfig :=
  filter (λ '(node_id, _), is_Some (ps_nodes st !! node_id)) node_policies.

Definition drop_public_domain (endpoint : Endpoint) : Endpoint :=
  if bool_decide (e_kind endpoint = VlessRealityVisionTcp) then endpoint <| e_meta ::= json_remove "public_domain" |> else endpoint.

(** The weights, the automatic assignment and the membership index, in the order of both
    loading paths. *)
Definition normalize_indexes (st : PersistedState) : PersistedState :=
  let st := st <| ps_user_global_weights := normalize_user_global_weights st (ps_user_global_weights st) |> in
  let st := st <| ps_node_weight_policies := normalize_node_weight_policies st (ps_node_weight_policies st) |> in
  let st := st <| ps_user_auto_assign_endpoint_kinds :=
                    normalize_user_auto_assign_endpoint_kinds st (ps_user_auto_assign_endpoint_kinds st) |> in
  let st := st <| ps_node_user_endpoint_memberships :=
                    normalize_node_user_endpoint_memberships st (ps_node_user_endpoint_memberships st) |> in
  st <| ps_node_user_endpoint_memberships := build_node_user_endpoint_memberships st |>.

(** [raw.get("schema_version").and_then(as_u64).unwrap_or(0) as u32] *)
Definition raw_schema_version (raw : json) : N :=
  match json_get "schema_version" raw with
  | Some (JNumber n) => if ((0 <=? n) && (n <=? Z.of_N u64_max))%Z then wrapping u32_max (Z.to_N n) else 0
  | _ => 0
  end.

Class StateCodec := {
  decode_state : json → result PersistedState string;
  decode_v9 : json → result PersistedStateV9Compat string;
  decode_v2 : json → result PersistedStateV2Like string;
  decode_state_version : ∀ raw st, decode_state raw = Ok st → ps_schema_version st = raw_schema_version raw;
  decode_v9_version : ∀ raw st, decode_v9 raw = Ok st → v9_schema_version st = raw_schema_version raw;
}.

Section Load.
Context `{StateCodec}.

Definition upgrade_if (version : N) (step : PersistedStateV9Compat → result PersistedStateV9Compat StoreError) (legacy : PersistedStateV9Compat)
    : result PersistedStateV9Compat StoreError :=
  if v9_schema_version legacy =? version then step legacy else Ok legacy.

Definition upgrade_legacy (schema_version : N) (legacy : PersistedStateV9Compat) : result PersistedStateV9Compat StoreError :=
  let? legacy := if schema_version =? 3 then migrate_v3_to_v4 legacy else Ok legacy in
  let? legacy := upgrade_if SCHEMA_VERSION_V4 migrate_v4_to_v5 legacy in
  let? legacy := upgrade_if SCHEMA_VERSION_V5 migrate_v5_to_v6 legacy in
  let? legacy := upgrade_if SCHEMA_VERSION_V6 migrate_v6_to_v7 legacy in
  upgrade_if SCHEMA_VERSION_V7 migrate_v7_to_v8 legacy.

Definition upgrade_v10 (v10 : PersistedState) : result PersistedState StoreError :=
  let? v11 := migrate_v10_to_v11 v10 in
  let? v12 := migrate_v11_to_v12 v11 in
  migrate_v12_to_v13 v12.

(** The state of a document and, where it had grants, the membership key of each. *)
Definition upgrade_document (raw : json) : result (PersistedState * option (gmap string string)) StoreError :=
  let version := raw_schema_version raw in
  let current st := (st, None) : PersistedState * option (gmap string string) in
  if version =? SCHEMA_VERSION then
    let? st := map_err SerdeJson (decode_state raw) in Ok (current st)
  else if version =? SCHEMA_VERSION_V12 then
    let? st := map_err SerdeJson (decode_state raw) in
    let? st := migrate_v12_to_v13 st in Ok (current st)
  else if version =? SCHEMA_VERSION_V11 then
    let? st := map_err SerdeJson (decode_state raw) in
    let? st := migrate_v11_to_v12 st in
    let? st := migrate_v12_to_v13 st in Ok (current st)
  else if version =? SCHEMA_VERSION_V10 then
    let? st := map_err SerdeJson (decode_state raw) in
    let? st := upgrade_v10 st in Ok (current st)
  else if (3 <=? version) && (version <=? SCHEMA_VERSION_V9) then
    let? legacy := map_err SerdeJson (decode_v9 raw) in
    let? legacy := upgrade_legacy version legacy in
    let? v10 := migrate_v9_compat_to_v10 legacy in
    let? st := upgrade_v10 v10.1.1 in
    Ok (st, Some v10.1.2)
  else if (1 <=? version) && (version <=? 2) then
    let? v2 := map_err SerdeJson (decode_v2 raw) in
    let? v4 := migrate_v2_like_to_v3 v2 in
    let? v5 := migrate_v4_to_v5 v4 in
    let? v6 := migrate_v5_to_v6 v5 in
    let? v7 := migrate_v6_to_v7 v6 in
    let? v8 := migrate_v7_to_v8 v7 in
    let? v10 := migrate_v9_compat_to_v10 v8 in
    let? st := upgrade_v10 v10.1.1 in
    Ok (st, Some v10.1.2)
  else Err (SchemaVersionMismatch SCHEMA_VERSION version).

Definition check_latest (st : PersistedState) : result unit StoreError :=
  if negb (ps_schema_version st =? SCHEMA_VERSION) then Err (SchemaVersionMismatch SCHEMA_VERSION (ps_schema_version st)) else Ok tt.

Definition clean_endpoints_and_probes (st : PersistedState) : PersistedState :=
  (prune_deleted_nodes_from_endpoint_probe_tracking (st <| ps_endpoints ::= fmap drop_public_domain |>)).1.

Definition migrate_state_value_to_latest (raw : json) : result PersistedState StoreError :=
  let? upgraded := upgrade_document raw in
  let st := upgraded.1 in
  let? _ := check_latest st in
  let st := clean_endpoints_and_probes st in
  let st := st <| ps_node_egress_probes ::= filter (λ '(node_id, _), is_Some (ps_nodes st !! node_id)) |> in
  Ok (normalize_indexes st).

End Load.

(** ** The usage file *)

Record GrantUsageV1Compat : Type := mkGrantUsageV1Compat {
  gu_cycle_start_at : string;
  gu_cycle_end_at : string;
  gu_used_bytes : N;
  gu_last_uplink_total : N;
  gu_last_downlink_total : N;
  gu_last_seen_at : string;
  gu_quota_banned : bool;
  gu_quota_banned_at : option string;
}.

Record PersistedUsageV1Compat : Type := mkPersistedUsageV1Compat {
  uv1_schema_version : N;
  uv1_grants : gmap string GrantUsageV1Compat;
  uv1_user_node_pacing : gmap string (gmap string UserNodePacing);
  uv1_node_pacing : gmap string NodePacing;
}.


(** The window of the entry seen last; the first such entry where there are several. *)
Definition pick_window (entries : list GrantUsageV1Compat) : string * string * option string :=
  foldl (λ '(start, finish, max_seen) e,
    if match max_seen with None => true | Some prev => str_gt (gu_last_seen_at e) prev end
    then (gu_cycle_start_at e, gu_cycle_end_at e, Some (gu_last_seen_at e)) else (start, finish, max_seen))
    (EmptyString, EmptyString, None) entries.

Definition merge_entry (start finish : string) (m : MembershipUsage) (e : GrantUsageV1Compat) : MembershipUsage :=
  let m := if str_gt (gu_last_seen_at e) (mu_last_seen_at m) then m <| mu_last_seen_at := gu_last_seen_at e |> else m in
  if negb (bool_decide (gu_cycle_start_at e = start)) || negb (bool_decide (gu_cycle_end_at e = finish)) then m
  else
    let m := m <| mu_used_bytes ::= λ used, sat_add u64_max used (gu_used_bytes e) |>
               <| mu_quota_banned ::= λ banned, banned || gu_quota_banned e |> in
    match gu_quota_banned_at e with
    | Some at_ =>
        if match mu_quota_banned_at m with None => true | Some prev => str_gt at_ prev end
        then m <| mu_quota_banned_at := Some at_ |> else m
    | None => m
    end.

Definition merge_usage (entries : list GrantUsageV1Compat) : MembershipUsage :=
  let '(start, finish, _) := pick_window entries in
  foldl (merge_entry start finish) (mkMembershipUsage start finish 0 0 0 EmptyString false None) entries.

(** The entries of each membership, in the order of their grants. *)
Definition group_grants (mapping : gmap string string) (grants : gmap string GrantUsageV1Compat) : gmap string (list GrantUsageV1Compat) :=
  foldl (λ m '(grant_id, usage),
    match mapping !! grant_id with
    | Some key => entry_update [] (λ l, l ++ [usage]) key m
    | None => m
    end) ∅ (bt_items grants).

Record MigrateUsageV1ToV2Stats : Type := mkMigrateUsageV1ToV2Stats {
  s2_grants_total : nat;
  s2_grants_mapped : nat;
  s2_grants_dropped_no_mapping : nat;
  s2_memberships_created : nat;
  s2_memberships_dropped_not_in_state : nat;
}.

Definition migrate_usage_v1_to_v2 (input : PersistedUsageV1Compat) (mapping : gmap string string) (allowed : gset string)
    : PersistedUsage * MigrateUsageV1ToV2Stats :=
  let mapped := filter (λ '(grant_id, _), is_Some (mapping !! grant_id)) (uv1_grants input) in
  let grouped := group_grants mapping (uv1_grants input) in
  let kept := filter (λ '(key, _), key ∈ allowed) grouped in
  let out := mkPersistedUsage USAGE_SCHEMA_VERSION (merge_usage <$> kept) (uv1_user_node_pacing input) (uv1_node_pacing input) ∅ ∅ in
  (out, mkMigrateUsageV1ToV2Stats (size (uv1_grants input)) (size mapped) (size (uv1_grants input) - size mapped)
          (size (pu_memberships out)) (size grouped - size kept)).

(** Where a user has an explicit quota on a node, two grants that disagree on the reset
    source are refused in one order and silently merged in the other. *)
Lemma v2_conflict_depends_on_order (quotas : gmap string (gmap string UserNodeQuotaConfig)) (u n : string) (limit : N) :
  quotas !! u = Some {[n := mkUserNodeQuotaConfig (Some limit) ResetByUser]} →
  (∃ e, (let? quotas := note_reset_source quotas u n ResetByNode in note_reset_source quotas u n ResetByUser) = Err e) ∧
  (∃ quotas', (let? quotas := note_reset_source quotas u n ResetByUser in note_reset_source quotas u n ResetByNode) = Ok quotas').
Proof.
  intros Hu. unfold note_reset_source. rewrite Hu. cbn [default from_option id]. rewrite lookup_singleton_eq. cbn.
  rewrite (bool_decide_true (ResetByUser = ResetByUser)) by done. cbn.
  split; repeat (progress (rewrite ?bool_decide_true, ?bool_decide_false, ?lookup_insert_eq by (done || by eexists)); cbn); by eexists.
Qed.

(** * Upgrades keep access *)

(** ** Cleanups *)

(** What the membership index depends on. *)
Record same_base (st st' : PersistedState) : Prop := {
  sb_users : ps_users st' = ps_users st;
  sb_nodes : ps_nodes st' = ps_nodes st;
  sb_endpoints : ∀ k, option_map (λ e, (e_endpoint_id e, e_node_id e, e_kind e)) (ps_endpoints st' !! k) =
                      option_map (λ e, (e_endpoint_id e, e_node_id e, e_kind e)) (ps_endpoints st !! k);
  sb_memberships : ps_node_user_endpoint_memberships st' = ps_node_user_endpoint_memberships st;
  sb_auto : ps_user_auto_assign_endpoint_kinds st' = ps_user_auto_assign_endpoint_kinds st;
}.

Lemma same_base_endpoint st st' k e' :
  same_base st st' → ps_endpoints st' !! k = Some e' →
  ∃ e, ps_endpoints st !! k = Some e ∧ e_endpoint_id e = e_endpoint_id e' ∧ e_node_id e = e_node_id e' ∧ e_kind e = e_kind e'.
Proof. intros [_ _ He _ _] Hk. specialize (He k). rewrite Hk in He. destruct (ps_endpoints st !! k) as [e|]; [|done]. injection He as ???. by exists e. Qed.

Lemma same_base_sym st st' : same_base st st' → same_base st' st.
Proof. intros [H1 H2 H3 H4 H5]. by split. Qed.

Lemma same_base_keyed st st' : same_base st st' → keyed_state st → keyed_state st'.
Proof.
  intros Hb [K1 K2 K3]. split.
  - intros k u Hk. apply K1. by rewrite <-(sb_users _ _ Hb).
  - intros k u Hk. apply K2. by rewrite <-(sb_nodes _ _ Hb).
  - intros k e' Hk. destruct (same_base_endpoint st st' k e' Hb Hk) as (e & He & <- & _). by apply K3.
Qed.

Lemma same_base_ok st st' m : same_base st st' → membership_ok st m → membership_ok st' m.
Proof.
  intros Hb [Hu (e & He & Hn)]. split; [by rewrite (sb_users _ _ Hb)|].
  destruct (same_base_endpoint st' st (m_endpoint_id m) e (same_base_sym _ _ Hb) He) as (e' & He' & _ & Hn' & _). exists e'. split; [done|congruence].
Qed.

Lemma same_base_in_step st st' : same_base st st' → index_in_step st → index_in_step st'.
Proof.
  intros Hb [I1 I2 I3]. split.
  - intros m Hm. rewrite (sb_memberships _ _ Hb) in Hm. by apply (same_base_ok st), I1.
  - intros u kinds k e' Ha He' Hk. rewrite (sb_auto _ _ Hb) in Ha. rewrite (sb_memberships _ _ Hb).
    destruct (same_base_endpoint st st' k e' Hb He') as (e & He & _ & <- & Hkind). apply (I2 u kinds k e Ha He). by rewrite Hkind.
  - intros u kinds Ha. rewrite (sb_auto _ _ Hb) in Ha. rewrite (sb_users _ _ Hb). by apply (I3 u).
Qed.

Lemma drop_public_domain_frame e :
  e_endpoint_id (drop_public_domain e) = e_endpoint_id e ∧ e_node_id (drop_public_domain e) = e_node_id e ∧ e_kind (drop_public_domain e) = e_kind e.
Proof. unfold drop_public_domain. by case_bool_decide. Qed.

Lemma clean_same_base st : same_base st (clean_endpoints_and_probes st).
Proof.
  split; [by destruct st|by destruct st| |by destruct st|by destruct st]. intros k.
  change (ps_endpoints (clean_endpoints_and_probes st)) with (drop_public_domain <$> ps_endpoints st). rewrite lookup_fmap.
  destruct (ps_endpoints st !! k) as [e|]; [|done]. cbn. by destruct (drop_public_domain_frame e) as (-> & -> & ->).
Qed.

(** The index the loading paths compute is the one a synchronisation computes. *)
Lemma normalize_indexes_frame st (st' := normalize_indexes st) :
  ps_users st' = ps_users st ∧ ps_nodes st' = ps_nodes st ∧ ps_endpoints st' = ps_endpoints st ∧
  ps_user_auto_assign_endpoint_kinds st' = normalize_user_auto_assign_endpoint_kinds st (ps_user_auto_assign_endpoint_kinds st) ∧
  ps_schema_version st' = ps_schema_version st.
Proof. by destruct st. Qed.

Lemma normalize_indexes_memberships st :
  keyed_state st →
  ps_node_user_endpoint_memberships (normalize_indexes st) = ps_node_user_endpoint_memberships (sync_node_user_endpoint_memberships st).
Proof.
  intros Hkey. apply set_eq. intros m. rewrite elem_of_sync by done.
  set (st1 := st <| ps_user_auto_assign_endpoint_kinds := normalize_user_auto_assign_endpoint_kinds st (ps_user_auto_assign_endpoint_kinds st) |>
                 <| ps_node_user_endpoint_memberships := normalize_node_user_endpoint_memberships st (ps_node_user_endpoint_memberships st) |>).
  transitivity (m ∈ build_node_user_endpoint_memberships st1); [by destruct st|]. rewrite elem_of_build by (destruct st, Hkey; by split).
  change (membership_ok st1 m) with (membership_ok st m).
  change (ps_node_user_endpoint_memberships st1) with (normalize_node_user_endpoint_memberships st (ps_node_user_endpoint_memberships st)).
  change (ps_endpoints st1) with (ps_endpoints st).
  change (ps_user_auto_assign_endpoint_kinds st1) with (normalize_user_auto_assign_endpoint_kinds st (ps_user_auto_assign_endpoint_kinds st)).
  setoid_rewrite normalize_auto_lookup. setoid_rewrite elem_of_normalize. cbn.
  split; intros [Hok Hor]; (split; [done|]); destruct Hor as [(n & Hn)|(kinds & e & Ha)].
  - left. apply Hn.
  - right. exists kinds, e. tauto.
  - left. exists (m_node_id m). split; [by destruct m|by exists n].
  - right. exists kinds, e. destruct Hok as [Hu _]. split_and!; try tauto. set_solver.
Qed.

Lemma normalize_indexes_in_step st : keyed_state st → index_in_step (normalize_indexes st).
Proof.
  intros Hkey. destruct (normalize_indexes_frame st) as (F1 & F2 & F3 & F4 & _). destruct (sync_frame st) as (S1 & S2 & S3).
  apply (same_base_in_step (sync_node_user_endpoint_memberships st)); [|by apply sync_in_step].
  split; [by rewrite F1|by rewrite F2|by rewrite F3, S3|by apply normalize_indexes_memberships|by rewrite F4, sync_auto].
Qed.

(** ** The inferred assignment *)

Lemma kinds_fold_lookup (endpoints : list Endpoint) (acc : gmap EndpointKind (gset string)) kind :
  default ∅ (foldl (λ acc e, <[e_kind e := {[e_endpoint_id e]} ∪ default ∅ (acc !! e_kind e)]> acc) acc endpoints !! kind)
  ≡@{gset string} default ∅ (acc !! kind) ∪ list_to_set (e_endpoint_id <$> filter (λ e, e_kind e = kind) endpoints).
Proof.
  revert acc; induction endpoints as [|e endpoints IH]; intros acc; cbn [foldl]; [set_solver|]. rewrite IH, filter_cons.
  destruct (decide (e_kind e = kind)) as [<-|Hne]; [rewrite lookup_insert_eq|rewrite lookup_insert_ne by done]; csimpl; set_solver.
Qed.

(** A kind is inferred only where every endpoint of the kind is among the ids. *)
Lemma inferred_covered st ids kind k e :
  keyed_state st → kind ∈ infer_auto_assign_endpoint_kinds_for_user st ids → ps_endpoints st !! k = Some e → e_kind e = kind → k ∈ ids.
Proof.
  intros Hkey Hin He Hkind. unfold infer_auto_assign_endpoint_kinds_for_user in Hin. apply elem_of_dom in Hin as [s Hs].
  apply map_lookup_filter_Some in Hs as [Hs [_ Hsub]]. apply Hsub.
  pose proof (kinds_fold_lookup (bt_values (ps_endpoints st)) ∅ kind) as Hf. rewrite Hs, lookup_empty in Hf. cbn in Hf.
  rewrite Hf. apply elem_of_union_r, elem_of_list_to_set, list_elem_of_fmap. exists e. split; [symmetry; by apply (ks_endpoints _ Hkey)|].
  apply list_elem_of_filter. split; [done|]. apply elem_of_bt_values. by exists k.
Qed.

Lemma infer_lookup st u kinds :
  infer_user_auto_assign_endpoint_kinds st !! u = Some kinds →
  kinds = infer_auto_assign_endpoint_kinds_for_user st
            (list_to_set (m_endpoint_id <$> filter (λ m, m_user_id m = u) (elements (ps_node_user_endpoint_memberships st)))).
Proof.
  unfold infer_user_auto_assign_endpoint_kinds. intros [Hl _]%map_lookup_filter_Some. rewrite map_lookup_imap in Hl.
  destruct (ps_users st !! u); [|done]. by injection Hl as <-.
Qed.

(** ** From version ten *)

(** Users, nodes and endpoints are taken over. *)
Definition carried (st st' : PersistedState) : Prop :=
  ps_users st' = ps_users st ∧ ps_nodes st' = ps_nodes st ∧ ps_endpoints st' = ps_endpoints st.

(** Inferring the assignment from the memberships adds none. *)
Lemma migrate_v11_to_v12_access st :
  ps_schema_version st = SCHEMA_VERSION_V11 → keyed_state st →
  ∃ st', migrate_v11_to_v12 st = Ok st' ∧ ps_schema_version st' = SCHEMA_VERSION_V12 ∧ carried st st' ∧ index_in_step st' ∧
    ∀ m, m ∈ ps_node_user_endpoint_memberships st' ↔
      membership_ok st m ∧ ∃ n, mkMembership (m_user_id m) n (m_endpoint_id m) ∈ ps_node_user_endpoint_memberships st.
Proof.
  intros Hv Hkey. unfold migrate_v11_to_v12. rewrite Hv. cbn [negb N.eqb Pos.eqb SCHEMA_VERSION_V11].
  set (st1 := st <| ps_node_user_endpoint_memberships := _ |>).
  set (st2 := st1 <| ps_user_auto_assign_endpoint_kinds := _ |> <| ps_schema_version := _ |>).
  assert (keyed_state st2) as Hkey2 by (destruct st, Hkey; by split).
  assert (keyed_state st1) as Hkey1 by (destruct st, Hkey; by split).
  exists (sync_node_user_endpoint_memberships st2). split_and!; [done|by destruct st|by destruct st|by apply sync_in_step|].
  intros m. rewrite elem_of_sync by done. change (membership_ok st2 m) with (membership_ok st m).
  change (ps_node_user_endpoint_memberships st2) with (normalize_node_user_endpoint_memberships st (ps_node_user_endpoint_memberships st)).
  change (ps_user_auto_assign_endpoint_kinds st2) with (infer_user_auto_assign_endpoint_kinds st1).
  change (ps_endpoints st2) with (ps_endpoints st1). setoid_rewrite elem_of_normalize. cbn. split.
  - intros [Hok [(n & _ & Hn)|(kinds & e & Ha & He & Hk)]]; [by split|]. split; [done|]. apply infer_lookup in Ha. subst kinds.
    apply (inferred_covered st1 _ _ (m_endpoint_id m) e Hkey1) in Hk; [|done|done].
    apply elem_of_list_to_set, list_elem_of_fmap in Hk as (m' & Hid & [Hu Hm']%list_elem_of_filter). apply elem_of_elements in Hm'.
    change (ps_node_user_endpoint_memberships st1) with (normalize_node_user_endpoint_memberships st (ps_node_user_endpoint_memberships st)) in Hm'.
    apply elem_of_normalize in Hm' as [_ [n Hn]]. exists n. by rewrite Hid, <-Hu.
  - intros [Hok [n Hn]]. split; [done|]. left. exists (m_node_id m). split; [by destruct m|by exists n].
Qed.

Lemma upgrade_v10_access st :
  ps_schema_version st = SCHEMA_VERSION_V10 → keyed_state st →
  ∃ st', upgrade_v10 st = Ok st' ∧ ps_schema_version st' = SCHEMA_VERSION ∧ carried st st' ∧ index_in_step st' ∧
    ∀ m, m ∈ ps_node_user_endpoint_memberships st' ↔
      membership_ok st m ∧ ∃ n, mkMembership (m_user_id m) n (m_endpoint_id m) ∈ ps_node_user_endpoint_memberships st.
Proof.
  intros Hv Hkey. unfold upgrade_v10, migrate_v10_to_v11. rewrite Hv. cbn [negb N.eqb Pos.eqb SCHEMA_VERSION_V10 rbind].
  set (st1 := st <| ps_schema_version := SCHEMA_VERSION_V11 |>).
  destruct (migrate_v11_to_v12_access st1) as (st2 & -> & Hv2 & Hc2 & Hi2 & Hm2); [by destruct st|destruct st, Hkey; by split|].
  cbn [rbind]. unfold migrate_v12_to_v13. rewrite Hv2. cbn [negb N.eqb Pos.eqb SCHEMA_VERSION_V12].
  exists (st2 <| ps_schema_version := SCHEMA_VERSION |>). split_and!; [done|by destruct st2|by destruct st2|destruct st2, Hi2; by split|].
  intros m. transitivity (m ∈ ps_node_user_endpoint_memberships st2); [by destruct st2|]. rewrite Hm2. by destruct st.
Qed.

(** ** From grants *)

(** The access the grants of a document give. *)
Definition granted (legacy : PersistedStateV9Compat) (u k : string) : Prop :=
  ∃ id grant, v9_grants legacy !! id = Some grant ∧ lg_user_id grant = u ∧ lg_endpoint_id grant = k.

Definition live_grant (users : gmap string User) (endpoints : gmap string Endpoint) (g : LegacyGrantCompat) (u k : string) (e : Endpoint) : Prop :=
  lg_user_id g = u ∧ lg_endpoint_id g = k ∧ is_Some (users !! u) ∧ endpoints !! k = Some e.

Lemma migrate_grants_by_pair users endpoints items acc :
  (∀ p m, v10_by_pair acc !! p = Some m → ∃ e, m = mkMembership p.1 (e_node_id e) p.2 ∧ endpoints !! p.2 = Some e) →
  let acc' := foldl (migrate_grant_v10 users endpoints) acc items in
  (∀ p m, v10_by_pair acc' !! p = Some m → ∃ e, m = mkMembership p.1 (e_node_id e) p.2 ∧ endpoints !! p.2 = Some e) ∧
  ∀ u k, is_Some (v10_by_pair acc' !! (u, k)) ↔
    is_Some (v10_by_pair acc !! (u, k)) ∨ ∃ id g e, (id, g) ∈ items ∧ live_grant users endpoints g u k e.
Proof.
  revert acc; induction items as [|[id g] items IH]; intros acc Hacc; cbn [foldl].
  { split; [done|]. intros u k. split; [by left|]. intros [?|(? & ? & ? & []%elem_of_nil & _)]. done. }
  set (acc1 := migrate_grant_v10 users endpoints acc (id, g)).
  assert ((∀ p m, v10_by_pair acc1 !! p = Some m → ∃ e, m = mkMembership p.1 (e_node_id e) p.2 ∧ endpoints !! p.2 = Some e) ∧
    ∀ u k, is_Some (v10_by_pair acc1 !! (u, k)) ↔ is_Some (v10_by_pair acc !! (u, k)) ∨ ∃ e, live_grant users endpoints g u k e) as [H1 H2].
  { unfold acc1, migrate_grant_v10. destruct (contains_key users (lg_user_id g)) eqn:Hu; cbn [negb].
    - apply contains_key_true in Hu. destruct (endpoints !! lg_endpoint_id g) as [e|] eqn:He.
      + destruct (v10_by_pair acc !! (lg_user_id g, lg_endpoint_id g)) as [m0|] eqn:Hp; cbn [v10_by_pair].
        * split; [done|]. intros u k. split; [by left|]. intros [?|(e' & <- & <- & _)]; [done|by rewrite Hp].
        * split.
          -- intros p m [[<- <-]|[_ Hm]]%lookup_insert_Some; [by exists e|by apply Hacc].
          -- intros u k. rewrite lookup_insert_is_Some'. split.
             ++ intros [[= <- <-]|?]; [right; by exists e|by left].
             ++ intros [?|(e' & <- & <- & _)]; [by right|by left].
      + split; [done|]. intros u k. split; [by left|]. intros [?|(e' & <- & <- & _ & ?)]; [done|congruence].
    - apply contains_key_false in Hu. split; [done|]. intros u k. split; [by left|]. intros [?|(e' & <- & <- & [? ?] & _)]; [done|congruence]. }
  destruct (IH acc1 H1) as [I1 I2]. split; [exact I1|]. intros u k. rewrite I2, H2. setoid_rewrite elem_of_cons. split.
  - intros [[?|[e He]]|(i & g' & e & Hin & Hl)]; [by left|right; exists id, g, e; by split; [left|]|right; exists i, g', e; by split; [right|]].
  - intros [?|(i & g' & e & [[= -> ->]|Hin] & Hl)]; [by left; left|by left; right; exists e|by right; exists i, g', e].
Qed.

Lemma migrate_v9_compat_to_v10_access legacy :
  (∀ k e, v9_endpoints legacy !! k = Some e → e_endpoint_id e = k) →
  (∀ k u, v9_users legacy !! k = Some u → u_user_id u = k) → (∀ k n, v9_nodes legacy !! k = Some n → n_node_id n = k) →
  ∃ st mapping stats, migrate_v9_compat_to_v10 legacy = Ok (st, mapping, stats) ∧ ps_schema_version st = SCHEMA_VERSION_V10 ∧
    ps_users st = v9_users legacy ∧ ps_nodes st = v9_nodes legacy ∧ ps_endpoints st = v9_endpoints legacy ∧ keyed_state st ∧
    ∀ m, m ∈ ps_node_user_endpoint_memberships st ↔ membership_ok st m ∧ granted legacy (m_user_id m) (m_endpoint_id m).
Proof.
  intros K1 K2 K3. unfold migrate_v9_compat_to_v10. cbn zeta.
  set (out := PersistedState_empty <| ps_schema_version := _ |> <| ps_nodes := _ |> <| ps_endpoints := _ |> <| ps_endpoint_probe_history := _ |>
    <| ps_users := _ |> <| ps_reality_domains := _ |> <| ps_user_node_quotas := _ |> <| ps_user_node_weights := _ |> <| ps_user_global_weights := _ |>
    <| ps_node_weight_policies := _ |>).
  set (acc := foldl _ _ _). set (out' := out <| ps_node_user_endpoint_memberships := _ |>).
  assert (keyed_state out') as Hkey by (by split).
  eexists _, _, _. split_and!; [reflexivity|done..|by apply keyed_state_sync|]. intros m. rewrite elem_of_sync by done.
  change (membership_ok (sync_node_user_endpoint_memberships out') m) with (membership_ok out' m).
  change (ps_user_auto_assign_endpoint_kinds out') with (∅ : gmap string (gset EndpointKind)). setoid_rewrite lookup_empty.
  pose proof (migrate_grants_by_pair (v9_users legacy) (v9_endpoints legacy) (bt_items (v9_grants legacy)) (mkV10Acc ∅ ∅
    (mkMigrateV9ToV10Stats (size (v9_grants legacy)) 0 0 0 (foldr plus 0%nat (size <$> (bt_values (v9_user_node_quotas legacy))))))) as Hgrants.
  destruct Hgrants as [A1 A2]; [cbn; intros ?? Hbad; by rewrite lookup_empty in Hbad|].
  change (foldl _ _ _) with acc in A1, A2. specialize (A2 (m_user_id m) (m_endpoint_id m)). cbn [v10_by_pair] in A2. rewrite lookup_empty in A2.
  assert ((∃ n, mkMembership (m_user_id m) n (m_endpoint_id m) ∈ ps_node_user_endpoint_memberships out') ↔
          is_Some (v10_by_pair acc !! (m_user_id m, m_endpoint_id m))) as Hset.
  { change (ps_node_user_endpoint_memberships out') with (list_to_set (snd <$> map_to_list (v10_by_pair acc)) : gset NodeUserEndpointMembership).
    setoid_rewrite elem_of_list_to_set. setoid_rewrite list_elem_of_fmap. split.
    - intros (n & [p m'] & Hm & Hp%elem_of_map_to_list). cbn in Hm. destruct (A1 p m' Hp) as (e & Hm' & _). destruct p as [u k]. cbn in Hm'.
      rewrite Hm' in Hm. injection Hm as -> _ ->. by eexists.
    - intros [m' Hm']. destruct (A1 _ _ Hm') as (e & -> & _). cbn in Hm'. eexists _, (_, _). split; [|by apply elem_of_map_to_list]. done. }
  rewrite Hset, A2. split.
  - intros [Hok [[[? ?]|(id & g & e & Hin & Hg)]|(? & ? & ? & _)]]; [done| |done]. split; [done|].
    apply elem_of_bt_items in Hin. destruct Hg as (Hu & Hk & _). by exists id, g.
  - intros [Hok (id & g & Hg & Hu & Hk)]. split; [done|]. left. right. destruct Hok as [Hus (e & He & _)]. exists id, g, e.
    split; [by apply elem_of_bt_items|]. by split_and!.
Qed.

Lemma upgrade_legacy_kept version legacy :
  v9_schema_version legacy = version → 3 ≤ version ≤ 9 →
  ∃ legacy', upgrade_legacy version legacy = Ok legacy' ∧ v9_users legacy' = v9_users legacy ∧ v9_nodes legacy' = v9_nodes legacy ∧
    v9_endpoints legacy' = v9_endpoints legacy ∧ v9_grants legacy' = v9_grants legacy.
Proof.
  intros Hv Hr. assert (version = 3 ∨ version = 4 ∨ version = 5 ∨ version = 6 ∨ version = 7 ∨ version = 8 ∨ version = 9) as Hcases by lia.
  destruct legacy as [v nodes endpoints history users grants [|d domains] quotas weights global policies memberships]; cbn in Hv; subst version;
    destruct Hcases as [->|[->|[->|[->|[->|[->| ->]]]]]]; eexists; (split; [reflexivity|by split_and!]).
Qed.

Lemma same_base_sync st st' :
  same_base st st' → keyed_state st →
  ps_node_user_endpoint_memberships (sync_node_user_endpoint_memberships st') = ps_node_user_endpoint_memberships (sync_node_user_endpoint_memberships st).
Proof.
  assert (∀ a b, same_base a b → keyed_state a → ∀ m, m ∈ ps_node_user_endpoint_memberships (sync_node_user_endpoint_memberships a) →
    m ∈ ps_node_user_endpoint_memberships (sync_node_user_endpoint_memberships b)) as Hsub.
  { intros a b Hb Hkey m. rewrite !elem_of_sync by (done || by apply (same_base_keyed a)). intros [Hok Hor]. split; [by apply (same_base_ok a)|].
    destruct Hor as [Hn|(kinds & e & Ha & He & Hk)]; [left; by rewrite (sb_memberships _ _ Hb)|]. right. rewrite (sb_auto _ _ Hb).
    destruct (same_base_endpoint b a _ e (same_base_sym _ _ Hb) He) as (e' & He' & _ & _ & Hkind). exists kinds, e'. by rewrite Hkind. }
  intros Hb Hkey. apply set_eq. intros m. split; apply Hsub; [by apply same_base_sym|by apply (same_base_keyed st)|done|done].
Qed.

(** What the cleanups of a loaded state make of it. *)
Lemma finish_sync st :
  ps_schema_version st = SCHEMA_VERSION → keyed_state st →
  let st1 := clean_endpoints_and_probes st in
  let st2 := st1 <| ps_node_egress_probes ::= filter (λ '(node_id, _), is_Some (ps_nodes st1 !! node_id)) |> in
  let st' := normalize_indexes st2 in
  ps_schema_version st' = SCHEMA_VERSION ∧ ps_users st' = ps_users st ∧ ps_nodes st' = ps_nodes st ∧
  ps_endpoints st' = drop_public_domain <$> ps_endpoints st ∧ index_in_step st' ∧
  ps_node_user_endpoint_memberships st' = ps_node_user_endpoint_memberships (sync_node_user_endpoint_memberships st).
Proof.
  intros Hv Hkey. cbn zeta. set (st1 := clean_endpoints_and_probes st). set (st2 := st1 <| ps_node_egress_probes ::= _ |>).
  assert (same_base st st2) as Hb by (destruct (clean_same_base st) as [H1 H2 H3 H4 H5]; by split).
  assert (keyed_state st2) as Hkey2 by (by apply (same_base_keyed st)).
  destruct (normalize_indexes_frame st2) as (F1 & F2 & F3 & F4 & F5).
  split_and!; [by rewrite F5|by rewrite F1|by rewrite F2|by rewrite F3|by apply normalize_indexes_in_step|].
  rewrite normalize_indexes_memberships by done. by apply same_base_sync.
Qed.

Section Upgrades.
Context `{StateCodec}.

(** Upgrading a document of the versions three to nine never fails and neither gives nor
    takes access: users and nodes are carried over, endpoints lose only a redundant field,
    and the memberships of the upgraded state are exactly the grants of the document whose
    user and endpoint exist, each on its endpoint's node, enabled or not. *)
Theorem legacy_upgrade_keeps_access (raw : json) (legacy : PersistedStateV9Compat) :
  3 ≤ raw_schema_version raw ≤ 9 → decode_v9 raw = Ok legacy →
  (∀ k e, v9_endpoints legacy !! k = Some e → e_endpoint_id e = k) →
  (∀ k u, v9_users legacy !! k = Some u → u_user_id u = k) → (∀ k n, v9_nodes legacy !! k = Some n → n_node_id n = k) →
  ∃ st, migrate_state_value_to_latest raw = Ok st ∧ ps_schema_version st = SCHEMA_VERSION ∧
    ps_users st = v9_users legacy ∧ ps_nodes st = v9_nodes legacy ∧ ps_endpoints st = drop_public_domain <$> v9_endpoints legacy ∧
    index_in_step st ∧
    ∀ u n k, mkMembership u n k ∈ ps_node_user_endpoint_memberships st ↔
      granted legacy u k ∧ is_Some (v9_users legacy !! u) ∧ ∃ e, v9_endpoints legacy !! k = Some e ∧ n = e_node_id e.
Proof.
  intros Hr Hdec K1 K2 K3. destruct (upgrade_legacy_kept (raw_schema_version raw) legacy) as (l & Hl & L1 & L2 & L3 & L4); [by apply decode_v9_version|done|].
  destruct (migrate_v9_compat_to_v10_access l) as (v10 & mapping & stats & Hv10 & Hver & U & N & E & Hkey & Hm); [by rewrite ?L3|by rewrite ?L1|by rewrite ?L2|].
  destruct (upgrade_v10_access v10 Hver Hkey) as (v13 & Hv13 & Hver13 & (U13 & N13 & E13) & Hin & Hm13).
  assert (keyed_state v13) as Hkey13 by (destruct Hkey; split; by rewrite ?U13, ?N13, ?E13).
  destruct (finish_sync v13 Hver13 Hkey13) as (F1 & F2 & F3 & F4 & F5 & F6). rewrite (sync_fixed v13) in F6 by done. eexists. split.
  { unfold migrate_state_value_to_latest, upgrade_document.
    do 4 rewrite (proj2 (N.eqb_neq _ _)) by (unfold SCHEMA_VERSION, SCHEMA_VERSION_V12, SCHEMA_VERSION_V11, SCHEMA_VERSION_V10; lia).
    replace ((3 <=? raw_schema_version raw) && (raw_schema_version raw <=? SCHEMA_VERSION_V9)) with true
      by (symmetry; apply andb_true_iff; rewrite !N.leb_le; unfold SCHEMA_VERSION_V9; lia).
    rewrite Hdec. cbn [map_err rbind]. rewrite Hl. cbn [rbind]. rewrite Hv10. cbn [rbind fst snd]. rewrite Hv13. cbn [rbind fst].
    unfold check_latest. rewrite Hver13. reflexivity. }
  split_and!; [done|by rewrite F2, U13, U, L1|by rewrite F3, N13, N, L2|by rewrite F4, E13, E, L3|done|].
  intros u n k. rewrite F6, Hm13. unfold membership_ok. cbn. rewrite U, E, L1, L3. setoid_rewrite Hm. unfold membership_ok, granted. cbn.
  rewrite U, E, L1, L3, L4. split.
  - intros ([Hu (e & He & Hn)] & n' & _ & Hg). split; [done|]. split; [done|by exists e].
  - intros (Hg & Hu & e & He & Hn). split; [split; [done|by exists e]|]. exists (e_node_id e). split; [|done]. split; [done|by exists e].
Qed.

Lemma upgrade_current raw st0 :
  10 ≤ raw_schema_version raw ≤ 13 → decode_state raw = Ok st0 → keyed_state st0 →
  ∃ v13, upgrade_document raw = Ok (v13, None) ∧ ps_schema_version v13 = SCHEMA_VERSION ∧ carried st0 v13 ∧
    ∀ m, m ∈ ps_node_user_endpoint_memberships (sync_node_user_endpoint_memberships v13) ↔ membership_ok st0 m ∧
      ((∃ n, mkMembership (m_user_id m) n (m_endpoint_id m) ∈ ps_node_user_endpoint_memberships st0) ∨
       (12 ≤ raw_schema_version raw ∧ ∃ kinds e, ps_user_auto_assign_endpoint_kinds st0 !! m_user_id m = Some kinds ∧
          ps_endpoints st0 !! m_endpoint_id m = Some e ∧ e_kind e ∈ kinds)).
Proof.
  intros Hr Hdec Hkey. pose proof (decode_state_version _ _ Hdec) as Hver. unfold upgrade_document. rewrite Hdec. cbn [map_err rbind].
  assert (raw_schema_version raw = 10 ∨ raw_schema_version raw = 11 ∨ raw_schema_version raw = 12 ∨ raw_schema_version raw = 13) as Hcases by lia.
  destruct Hcases as [Hv|[Hv|[Hv|Hv]]]; rewrite Hv in *; cbn [N.eqb Pos.eqb SCHEMA_VERSION SCHEMA_VERSION_V12 SCHEMA_VERSION_V11 SCHEMA_VERSION_V10].
  - destruct (upgrade_v10_access st0 Hver Hkey) as (v13 & -> & Hv13 & (U & N & E) & Hin & Hm). cbn [rbind]. exists v13. split_and!; [done..|].
    assert (keyed_state v13) by (destruct Hkey; split; by rewrite ?U, ?N, ?E). intros m. rewrite sync_fixed, Hm by done.
    split; [intros [? ?]; by split; [|left]|intros [? [?|[? _]]]; [done|lia]].
  - destruct (migrate_v11_to_v12_access st0 Hver Hkey) as (v12 & -> & Hv12 & (U & N & E) & Hin & Hm). cbn [rbind]. unfold migrate_v12_to_v13.
    rewrite Hv12. cbn [negb N.eqb Pos.eqb SCHEMA_VERSION_V12 rbind]. exists (v12 <| ps_schema_version := SCHEMA_VERSION |>).
    split_and!; [done|by destruct v12|by destruct v12|]. assert (keyed_state v12) by (destruct Hkey; split; by rewrite ?U, ?N, ?E).
    intros m. transitivity (m ∈ ps_node_user_endpoint_memberships (sync_node_user_endpoint_memberships v12)); [by destruct v12|].
    rewrite sync_fixed, Hm by done. split; [intros [? ?]; by split; [|left]|intros [? [?|[? _]]]; [done|lia]].
  - unfold migrate_v12_to_v13. rewrite Hver. cbn [negb N.eqb Pos.eqb SCHEMA_VERSION_V12 rbind]. exists (st0 <| ps_schema_version := SCHEMA_VERSION |>).
    split_and!; [done|by destruct st0|by destruct st0|]. intros m.
    transitivity (m ∈ ps_node_user_endpoint_memberships (sync_node_user_endpoint_memberships st0)); [by destruct st0|].
    rewrite elem_of_sync by done. split; (intros [? [?|?]]; split; [done|by left|done|right; tauto || by split]).
  - exists st0. split_and!; [done..|]. intros m. rewrite elem_of_sync by done.
    split; (intros [? [?|?]]; split; [done|by left|done|right; tauto || by split]).
Qed.

(** C21: upgrading a document of the versions ten to thirteen never fails, carries users and
    nodes over and leaves the membership index in step.  From ten and eleven, which know no
    automatic assignment, the assignment that is inferred gives no user an endpoint they
    could not reach before; from twelve on the index is the one the document's own
    assignment calls for. *)
Theorem current_upgrade_keeps_access (raw : json) (st0 : PersistedState) :
  10 ≤ raw_schema_version raw ≤ 13 → decode_state raw = Ok st0 → keyed_state st0 →
  ∃ st, migrate_state_value_to_latest raw = Ok st ∧ ps_schema_version st = SCHEMA_VERSION ∧
    ps_users st = ps_users st0 ∧ ps_nodes st = ps_nodes st0 ∧ ps_endpoints st = drop_public_domain <$> ps_endpoints st0 ∧ index_in_step st ∧
    ∀ m, m ∈ ps_node_user_endpoint_memberships st ↔
      membership_ok st0 m ∧
      ((∃ n, mkMembership (m_user_id m) n (m_endpoint_id m) ∈ ps_node_user_endpoint_memberships st0) ∨
       (12 ≤ raw_schema_version raw ∧ ∃ kinds e, ps_user_auto_assign_endpoint_kinds st0 !! m_user_id m = Some kinds ∧
          ps_endpoints st0 !! m_endpoint_id m = Some e ∧ e_kind e ∈ kinds)).
Proof.
  intros Hr Hdec Hkey. destruct (upgrade_current raw st0 Hr Hdec Hkey) as (v13 & Hup & Hv13 & (U & N & E) & Hm).
  assert (keyed_state v13) as Hkey13 by (destruct Hkey; split; by rewrite ?U, ?N, ?E).
  destruct (finish_sync v13 Hv13 Hkey13) as (F1 & F2 & F3 & F4 & F5 & F6). eexists. split.
  { unfold migrate_state_value_to_latest. rewrite Hup. cbn [rbind fst]. unfold check_latest. rewrite Hv13. reflexivity. }
  split_and!; [done|by rewrite F2|by rewrite F3|by rewrite F4, E|done|]. intros m. rewrite F6. apply Hm.
Qed.
End Upgrades.

(** * Usage keeps counting *)

Definition str_le (a b : string) : Prop := str_gt a b = false.

Lemma str_gt_lt a b : str_gt a b = true ↔ str_lt b a.
Proof. unfold str_gt. rewrite <-compare_gt. by destruct (String.compare a b). Qed.

Lemma str_le_refl a : str_le a a.
Proof. unfold str_le. destruct (str_gt a a) eqn:H; [|done]. apply str_gt_lt, str_lt_le in H as [_ ?]. done. Qed.

Lemma str_le_trans a b c : str_le a b → str_le b c → str_le a c.
Proof.
  unfold str_le. intros Hab Hbc. destruct (str_gt a c) eqn:H; [|done]. apply str_gt_lt in H. exfalso.
  assert (∀ x y, str_gt x y = false → String.le x y) as Hle.
  { intros x y Hxy. unfold str_gt in Hxy. unfold String.le, String.leb. by destruct (String.compare x y). }
  apply Hle in Hab, Hbc. apply str_lt_le in H as [Hca Hne]. apply Hne. apply (anti_symm String.le); [done|by etrans].
Qed.

Lemma str_gt_le a b : str_gt a b = true → str_le b a.
Proof.
  unfold str_le. intros H%str_gt_lt. destruct (str_gt b a) eqn:Hb; [|done]. apply str_gt_lt in Hb.
  apply str_lt_le in H as [H1 Hne], Hb as [H2 _]. exfalso. apply Hne. by apply (anti_symm String.le).
Qed.

Lemma pick_window_ok entries :
  match pick_window entries with
  | (start, finish, None) => entries = []
  | (start, finish, Some seen) =>
      (∃ e, e ∈ entries ∧ gu_cycle_start_at e = start ∧ gu_cycle_end_at e = finish ∧ gu_last_seen_at e = seen) ∧
      ∀ e, e ∈ entries → str_le (gu_last_seen_at e) seen
  end.
Proof.
  unfold pick_window. induction entries as [|e entries IH] using rev_ind; [done|]. rewrite foldl_snoc.
  destruct (foldl _ _ entries) as [[start finish] [seen|]].
  - destruct IH as [(e0 & He0 & H1 & H2 & H3) Hmax]. destruct (str_gt (gu_last_seen_at e) seen) eqn:Hgt.
    + split; [exists e; split; [set_solver|done]|]. intros e' [He'| ->%list_elem_of_singleton]%elem_of_app; [|apply str_le_refl].
      by eapply str_le_trans, str_gt_le; [apply Hmax|].
    + split; [exists e0; split; [set_solver|done]|]. intros e' [He'| ->%list_elem_of_singleton]%elem_of_app; [by apply Hmax|done].
  - subst entries. split; [exists e; split; [set_solver|done]|]. intros e' ->%list_elem_of_singleton. apply str_le_refl.
Qed.

Definition in_window (start finish : string) (e : GrantUsageV1Compat) : Prop := gu_cycle_start_at e = start ∧ gu_cycle_end_at e = finish.
#[global] Instance in_window_dec start finish e : Decision (in_window start finish e).
Proof. unfold in_window. apply _. Defined.

Lemma merge_entries start finish entries m0 used :
  mu_used_bytes m0 = N.min u64_max used →
  let m := foldl (merge_entry start finish) m0 entries in
  mu_cycle_start_at m = mu_cycle_start_at m0 ∧ mu_cycle_end_at m = mu_cycle_end_at m0 ∧
  mu_used_bytes m = N.min u64_max (used + sumN (gu_used_bytes <$> filter (in_window start finish) entries)) ∧
  mu_last_uplink_total m = mu_last_uplink_total m0 ∧ mu_last_downlink_total m = mu_last_downlink_total m0 ∧
  (mu_quota_banned m = true ↔ mu_quota_banned m0 = true ∨ ∃ e, e ∈ entries ∧ in_window start finish e ∧ gu_quota_banned e = true).
Proof.
  revert m0 used; induction entries as [|e entries IH]; intros m0 used Hused; cbn [foldl].
  { cbn. rewrite N.add_0_r. split_and!; try done. split; [by left|]. intros [?|(? & []%elem_of_nil & _)]. done. }
  set (m1 := merge_entry start finish m0 e).
  assert (mu_cycle_start_at m1 = mu_cycle_start_at m0 ∧ mu_cycle_end_at m1 = mu_cycle_end_at m0 ∧
    mu_used_bytes m1 = N.min u64_max (used + if decide (in_window start finish e) then gu_used_bytes e else 0) ∧
    mu_last_uplink_total m1 = mu_last_uplink_total m0 ∧ mu_last_downlink_total m1 = mu_last_downlink_total m0 ∧
    (mu_quota_banned m1 = true ↔ mu_quota_banned m0 = true ∨ (in_window start finish e ∧ gu_quota_banned e = true))) as (S1 & S2 & S3 & S4 & S5 & S6).
  { unfold m1, merge_entry. set (m' := if str_gt _ _ then _ else m0).
    assert (mu_cycle_start_at m' = mu_cycle_start_at m0 ∧ mu_cycle_end_at m' = mu_cycle_end_at m0 ∧ mu_used_bytes m' = mu_used_bytes m0 ∧
      mu_last_uplink_total m' = mu_last_uplink_total m0 ∧ mu_last_downlink_total m' = mu_last_downlink_total m0 ∧ mu_quota_banned m' = mu_quota_banned m0)
      as (M1 & M2 & M3 & M4 & M5 & M6) by (unfold m'; by destruct (str_gt _ _)).
    clearbody m'. unfold in_window. case_bool_decide as H1; [case_bool_decide as H2|].
    - rewrite decide_True by done. cbn [negb orb]. destruct (gu_quota_banned_at e); [destruct (match _ with None => _ | Some _ => _ end)|]; cbn;
        (split_and!; [done|done|rewrite M3, Hused; unfold sat_add; lia|done|done|rewrite M6, orb_true_iff; tauto]).
    - rewrite decide_False by tauto. cbn [negb orb]. split_and!; [done|done|rewrite M3, Hused; f_equal; lia|done|done|rewrite M6; tauto].
    - rewrite decide_False by tauto. cbn [negb orb]. split_and!; [done|done|rewrite M3, Hused; f_equal; lia|done|done|rewrite M6; tauto]. }
  destruct (IH m1 _ S3) as (I1 & I2 & I3 & I4 & I5 & I6). cbn zeta. rewrite filter_cons. split_and!; [congruence..| |congruence|congruence|].
  - rewrite I3. destruct (decide (in_window start finish e)); csimpl; f_equal; lia.
  - rewrite I6, S6. setoid_rewrite elem_of_cons. split.
    + intros [[?|?]|(e' & ? & ?)]; [by left|right; exists e; split; [by left|done]|right; exists e'; split; [by right|done]].
    + intros [?|(e' & [->|?] & ?)]; [by left; left|by left; right|by right; exists e'].
Qed.

(** The usage entries of a membership, in the order of their grants. *)
Definition entries_of (mapping : gmap string string) (grants : gmap string GrantUsageV1Compat) (key : string) : list GrantUsageV1Compat :=
  snd <$> filter (λ item, mapping !! item.1 = Some key) (bt_items grants).

Lemma group_grants_lookup mapping grants key :
  group_grants mapping grants !! key = match entries_of mapping grants key with [] => None | l => Some l end.
Proof.
  unfold group_grants, entries_of. induction (bt_items grants) as [|[id u] items IH] using rev_ind; [apply lookup_empty|].
  rewrite foldl_snoc, filter_app, fmap_app. set (m := foldl _ _ items) in *. rewrite filter_cons, filter_nil. cbn [fst].
  destruct (mapping !! id) as [key'|] eqn:Hm.
  - unfold entry_update. destruct (decide (key' = key)) as [->|Hne].
    + rewrite lookup_insert_eq, IH, decide_True by done. csimpl. by destruct (snd <$> _).
    + rewrite lookup_insert_ne, IH, decide_False by congruence. csimpl. by rewrite app_nil_r.
  - rewrite IH, decide_False by congruence. csimpl. by rewrite app_nil_r.
Qed.

(** C22: upgrading the usage file keeps the traffic of the current cycle.  A membership of
    the new file is a membership of the state that some grant with usage maps to; its cycle
    is the cycle of an entry seen last, its bytes are the sum of the bytes of the entries of
    that cycle, it is banned exactly when one of those was, and its counters start at zero
    so that the next reading sets a new base. *)
Theorem usage_upgrade_exact (input : PersistedUsageV1Compat) (mapping : gmap string string) (allowed : gset string) (key : string) :
  let entries := entries_of mapping (uv1_grants input) key in
  let usage := (migrate_usage_v1_to_v2 input mapping allowed).1 in
  match pu_memberships usage !! key with
  | None => key ∉ allowed ∨ entries = []
  | Some m =>
      key ∈ allowed ∧
      (∃ latest, latest ∈ entries ∧ in_window (mu_cycle_start_at m) (mu_cycle_end_at m) latest ∧
         ∀ e, e ∈ entries → str_le (gu_last_seen_at e) (gu_last_seen_at latest)) ∧
      mu_used_bytes m = N.min u64_max (sumN (gu_used_bytes <$> filter (in_window (mu_cycle_start_at m) (mu_cycle_end_at m)) entries)) ∧
      (mu_quota_banned m = true ↔ ∃ e, e ∈ entries ∧ in_window (mu_cycle_start_at m) (mu_cycle_end_at m) e ∧ gu_quota_banned e = true) ∧
      mu_last_uplink_total m = 0 ∧ mu_last_downlink_total m = 0
  end ∧
  pu_user_node_pacing usage = uv1_user_node_pacing input ∧ pu_node_pacing usage = uv1_node_pacing input.
Proof.
  cbn zeta. split; [|done]. set (entries := entries_of _ _ _).
  change (pu_memberships (migrate_usage_v1_to_v2 input mapping allowed).1) with
    (merge_usage <$> filter (λ '(key, _), key ∈ allowed) (group_grants mapping (uv1_grants input))).
  rewrite lookup_fmap, map_lookup_filter, group_grants_lookup. fold entries.
  destruct entries as [|e0 rest] eqn:Hentries; [cbn; by right|]. rewrite <-Hentries. cbn [mbind option_bind].
  case_guard as Hallowed; cbn; [|by left]. split; [done|].
  pose proof (pick_window_ok entries) as Hpick. unfold merge_usage. destruct (pick_window entries) as [[start finish] [seen|]]; [|congruence].
  destruct Hpick as [(latest & Hl & L1 & L2 & L3) Hmax].
  destruct (merge_entries start finish entries (mkMembershipUsage start finish 0 0 0 EmptyString false None) 0) as (M1 & M2 & M3 & M4 & M5 & M6); [done|].
  cbn in M1, M2, M4, M5. rewrite M1, M2. split_and!; [|by rewrite M3|rewrite M6; naive_solver|done|done].
  exists latest. split_and!; [done|by split|]. by rewrite L3.
Qed.

(** * An upgrade

    One user, two endpoints of one node and three grants, one of them of a user that no
    longer exists. *)
Module Sample.

Definition endpoint (id : string) : Endpoint := mkEndpoint id "n" "tag" VlessRealityVisionTcp 443 (JObject {["public_domain" := JNull]}).
Definition user : User := mkUser "u" "User" "token" 0 P2 (UserMonthly 1 480).
Definition grant (id u k : string) : LegacyGrantCompat := mkLegacyGrantCompat id u k false.

Definition legacy (version : N) : PersistedStateV9Compat :=
  (empty_with_version version) <| v9_endpoints := {["a" := endpoint "a"; "b" := endpoint "b"]} |>
    <| v9_users := {["u" := user]} |>
    <| v9_grants := {["g1" := grant "g1" "u" "a"; "g2" := grant "g2" "gone" "b"; "g3" := grant "g3" "u" "a"]} |>.
Definition current (version : N) : PersistedState :=
  PersistedState_empty <| ps_schema_version := version |> <| ps_endpoints := {["a" := endpoint "a"; "b" := endpoint "b"]} |>
    <| ps_users := {["u" := user]} |> <| ps_node_user_endpoint_memberships := {[mkMembership "u" "n" "a"]} |>.

#[local,refine] Instance codec : StateCodec := {
  decode_state raw := Ok (current (raw_schema_version raw));
  decode_v9 raw := Ok (legacy (raw_schema_version raw));
  decode_v2 raw := Err "unused";
  decode_state_version := _;
  decode_v9_version := _;
}.
Proof. all: intros raw st [= <-]; reflexivity. Defined.

Definition document (version : Z) : json := JObject {["schema_version" := JNumber version]}.

Lemma endpoints_keyed k e : ({["a" := endpoint "a"; "b" := endpoint "b"]} : gmap string Endpoint) !! k = Some e → e_endpoint_id e = k.
Proof. intros [[<- <-]|[_ [<- <-]%lookup_singleton_Some]]%lookup_insert_Some; done. Qed.

Lemma users_keyed k u : ({["u" := user]} : gmap string User) !! k = Some u → u_user_id u = k.
Proof. by intros [<- <-]%lookup_singleton_Some. Qed.
Lemma nodes_keyed k n : (∅ : gmap string Node) !! k = Some n → n_node_id n = k.
Proof. by intros ?%lookup_empty_Some. Qed.

Lemma legacy_upgrade_keeps_access_witness :
  ∃ st, migrate_state_value_to_latest (document 5) = Ok st ∧ mkMembership "u" "n" "a" ∈ ps_node_user_endpoint_memberships st ∧
    mkMembership "u" "n" "b" ∉ ps_node_user_endpoint_memberships st.
Proof.
  destruct (legacy_upgrade_keeps_access (document 5) (legacy 5)) as (st & Hst & _ & _ & _ & _ & _ & Hm).
  - by vm_compute.
  - reflexivity.
  - apply endpoints_keyed.
  - apply users_keyed.
  - apply nodes_keyed.
  - exists st. split; [exact Hst|]. clear Hst. split.
    + apply Hm. split_and!; [by exists "g1", (grant "g1" "u" "a")|by eexists|by exists (endpoint "a")].
    + intros (Hg & _)%Hm. destruct Hg as (id & g & Hg & Hu & Hk). unfold legacy in Hg. cbn in Hg.
      rewrite !lookup_insert_Some, lookup_singleton_Some in Hg. naive_solver.
Defined.

Lemma current_upgrade_keeps_access_witness :
  ∃ st, migrate_state_value_to_latest (document 11) = Ok st ∧ mkMembership "u" "n" "a" ∈ ps_node_user_endpoint_memberships st.
Proof.
  destruct (current_upgrade_keeps_access (document 11) (current 11)) as (st & Hst & _ & _ & _ & _ & _ & Hm).
  - by vm_compute.
  - reflexivity.
  - split; [apply users_keyed|apply nodes_keyed|apply endpoints_keyed].
  - exists st. split; [exact Hst|]. clear Hst. apply Hm. split; [split; [by eexists|by exists (endpoint "a")]|]. left. exists "n". change (mkMembership "u" "n" "a" ∈@{gset NodeUserEndpointMembership} {[mkMembership "u" "n" "a"]}). by apply elem_of_singleton.
Defined.
End Sample.
