(* ===== verification/Store.v ===== *)
(** * The local store

    [JsonSnapshotStore] of [src/state.rs]: the replicated state and the three local ledgers
    - traffic, addresses, connections - in memory, each saved whole as a JSON document.

    The disk is a map from files to JSON documents.  Writing a file replaces it atomically
    ([write_bytes] and [HistoryStorage::write] write a temporary file and rename it, or run
    one SQLite transaction), so what a crash leaves is the disk after some prefix of the
    writes; a write that fails leaves the same.  Operations return the writes they make, in
    order.  Turning values into JSON and back is [serde]'s work and an interface: what is
    written is read back, fields marked [serde(skip)] at their default. *)

From S2P Require Import Prelude Text Search Domain Clock Lifecycle Repository ReverseMesh State Command Usage InboundIp TcpUsage Migration.
Open Scope string_scope.
Open Scope list_scope.
Open Scope N_scope.

(** ** Files *)

Inductive File : Type :=
| StateKey | UsageKey | InboundIpUsageKey | TcpConnectionUsageKey
| WalJson | VoteJson | CommittedJson | SmMetaJson | SnapshotMetaJson | SnapshotDataJson.
#[global] Instance File_eq_dec : EqDecision File.
Proof. solve_decision. Defined.
Definition file_index (f : File) : nat :=
  match f with
  | StateKey => 0 | UsageKey => 1 | InboundIpUsageKey => 2 | TcpConnectionUsageKey => 3 | WalJson => 4
  | VoteJson => 5 | CommittedJson => 6 | SmMetaJson => 7 | SnapshotMetaJson => 8 | SnapshotDataJson => 9
  end%nat.
#[global] Instance File_countable : Countable File.
Proof.
  refine (inj_countable file_index (λ n, [StateKey; UsageKey; InboundIpUsageKey; TcpConnectionUsageKey; WalJson; VoteJson; CommittedJson; SmMetaJson;
    SnapshotMetaJson; SnapshotDataJson] !! n) _). by intros [].
Defined.

Notation Disk := (gmap File json).
Notation Write := (File * json)%type.
Definition write_file (d : Disk) (w : Write) : Disk := <[w.1 := w.2]> d.
Definition written (d : Disk) (ws : list Write) : Disk := foldl write_file d ws.

(** ** Documents *)

Class JsonCodec (A : Type) := {
  to_value : A → json;
  from_value : json → result A string;
  from_to_value : ∀ a, from_value (to_value a) = Ok a;
}.

(** [mihomo_resource_revision] is [serde(skip)]. *)
Definition stored_state (st : PersistedState) : PersistedState := st <| ps_mihomo_resource_revision := 0 |>.

Class StoreCodec `{StateCodec} := {
  encode_state : PersistedState → json;
  encode_usage : PersistedUsage → json;
  decode_usage : json → result PersistedUsage string;
  decode_usage_v1 : json → result PersistedUsageV1Compat string;
  #[global] inbound_codec :: JsonCodec PersistedInboundIpUsage;
  #[global] tcp_codec :: JsonCodec PersistedTcpConnectionUsage;
  decode_encode_state : ∀ st, ps_schema_version st ≤ u32_max → decode_state (encode_state st) = Ok (stored_state st);
  decode_encode_usage : ∀ usage, pu_schema_version usage ≤ u32_max → decode_usage (encode_usage usage) = Ok usage;
  decode_usage_version : ∀ raw usage, decode_usage raw = Ok usage → pu_schema_version usage = raw_schema_version raw;
}.

(** ** The store *)

Record StoreInit : Type := mkStoreInit {
  si_bootstrap_node_id : option string;
  si_bootstrap_node_name : string;
  si_bootstrap_access_host : string;
  si_bootstrap_api_base_url : string;
}.

Record JsonSnapshotStore : Type := mkStore {
  st_state : PersistedState;
  st_usage : PersistedUsage;
  st_inbound_ip_usage : PersistedInboundIpUsage;
  st_tcp_connection_usage : PersistedTcpConnectionUsage;
}.
#[export] Instance JsonSnapshotStore_eta : Eta JsonSnapshotStore := λ r,
  mkStore (st_state r) (st_usage r) (st_inbound_ip_usage r) (st_tcp_connection_usage r).

(** [state_mut]: handing out the state for a change moves its revision. *)
Definition state_mut (store : JsonSnapshotStore) : JsonSnapshotStore := store <| st_state ::= bump_revision |>.

Definition membership_keys (ms : gset NodeUserEndpointMembership) : gset string := set_map (λ m, membership_key (m_user_id m) (m_endpoint_id m)) ms.
Definition tcp_view (endpoint : Endpoint) : TcpConnectionEndpointView :=
  mkTcpConnectionEndpointView (e_node_id endpoint) (e_endpoint_id endpoint) (e_tag endpoint) (e_port endpoint).
Definition allowed_tcp_endpoints (st : PersistedState) : gmap string TcpConnectionEndpointView :=
  list_to_map (reverse ((λ endpoint, (e_endpoint_id endpoint, tcp_view endpoint)) <$> bt_values (ps_endpoints st))).

(** ** Cleaning a loaded state *)

Definition clean_global_weights (st : PersistedState) : PersistedState :=
  st <| ps_user_global_weights := normalize_user_global_weights st (ps_user_global_weights st) |>.
Definition clean_node_policies (st : PersistedState) : PersistedState :=
  st <| ps_node_weight_policies := normalize_node_weight_policies st (ps_node_weight_policies st) |>.
Definition clean_auto_assign (st : PersistedState) : PersistedState :=
  st <| ps_user_auto_assign_endpoint_kinds := normalize_user_auto_assign_endpoint_kinds st (ps_user_auto_assign_endpoint_kinds st) |>.
Definition clean_memberships (st : PersistedState) : PersistedState :=
  st <| ps_node_user_endpoint_memberships := normalize_node_user_endpoint_memberships st (ps_node_user_endpoint_memberships st) |>.
Definition build_memberships (st : PersistedState) : PersistedState :=
  st <| ps_node_user_endpoint_memberships := build_node_user_endpoint_memberships st |>.

(** The cleaned state and whether anything was cleaned. *)
Definition clean_state (st : PersistedState) : PersistedState * bool :=
  let st1 := st <| ps_endpoints ::= fmap drop_public_domain |> in
  let '(st2, pruned) := prune_deleted_nodes_from_endpoint_probe_tracking st1 in
  let st3 := clean_global_weights st2 in
  let st4 := clean_node_policies st3 in
  let st5 := clean_auto_assign st4 in
  let st6 := clean_memberships st5 in
  let st7 := build_memberships st6 in
  (st7,
   negb (bool_decide (ps_endpoints st1 = ps_endpoints st)) || pruned
   || negb (bool_decide (ps_user_global_weights st3 = ps_user_global_weights st2))
   || negb (bool_decide (ps_node_weight_policies st4 = ps_node_weight_policies st3))
   || negb (bool_decide (ps_user_auto_assign_endpoint_kinds st5 = ps_user_auto_assign_endpoint_kinds st4))
   || negb (bool_decide (ps_node_user_endpoint_memberships st6 = ps_node_user_endpoint_memberships st5))
   || negb (bool_decide (ps_node_user_endpoint_memberships st7 = ps_node_user_endpoint_memberships st6))).

Section Load.
Context `{StoreCodec}.

(** ** Saving *)

Definition save (store : JsonSnapshotStore) : list Write := [(StateKey, encode_state (st_state store))].
Definition save_usage (store : JsonSnapshotStore) : list Write := [(UsageKey, encode_usage (st_usage store))].
Definition save_inbound_ip_usage (store : JsonSnapshotStore) : list Write := [(InboundIpUsageKey, to_value (st_inbound_ip_usage store))].
Definition save_tcp_connection_usage (store : JsonSnapshotStore) : list Write := [(TcpConnectionUsageKey, to_value (st_tcp_connection_usage store))].

(** ** Loading *)

(** A new cluster's state: the bootstrap node and the seeded domains.  [fresh] is the
    identifier drawn when none is given. *)
Definition bootstrap_state (init : StoreInit) (fresh : string) : PersistedState :=
  let node_id := default fresh (si_bootstrap_node_id init) in
  let node := mkNode node_id (si_bootstrap_node_name init) (si_bootstrap_access_host init) (si_bootstrap_api_base_url init) 0 NodeQuotaReset_default in
  PersistedState_empty <| ps_nodes ::= <[node_id := node]> |> <| ps_reality_domains := default_seed_reality_domains |>.

(** The state, the membership keys of the grants it had, whether it is new, whether it was
    upgraded. *)
Definition load_state (init : StoreInit) (fresh : string) (d : Disk) : result (PersistedState * option (gmap string string) * bool * bool) StoreError :=
  match d !! StateKey with
  | Some raw =>
      let? upgraded := upgrade_document raw in
      Ok (upgraded.1, upgraded.2, false, negb (raw_schema_version raw =? SCHEMA_VERSION))
  | None => Ok (bootstrap_state init fresh, None, true, false)
  end.

Definition read_usage (d : Disk) (mapping : option (gmap string string)) (allowed : gset string) : result (PersistedUsage * bool) StoreError :=
  match d !! UsageKey with
  | None => Ok (PersistedUsage_empty, false)
  | Some raw =>
      let version := raw_schema_version raw in
      if version =? USAGE_SCHEMA_VERSION then
        let? usage := map_err SerdeJson (decode_usage raw) in Ok (usage, false)
      else if version =? USAGE_SCHEMA_VERSION_V1 then
        match mapping with
        | Some mapping =>
            let? v1 := map_err SerdeJson (decode_usage_v1 raw) in
            Ok ((migrate_usage_v1_to_v2 v1 mapping allowed).1, true)
        | None => Ok (PersistedUsage_empty, true)
        end
      else Err (SchemaVersionMismatch USAGE_SCHEMA_VERSION version)
  end.

(** Usage is kept for current memberships only. *)
Definition retain_usage (allowed : gset string) (usage : PersistedUsage) : PersistedUsage :=
  usage <| pu_memberships ::= filter (λ '(key, _), key ∈ allowed) |>.

Definition read_document {A} `{JsonCodec A} (d : Disk) (f : File) (empty : A) : result A StoreError :=
  match d !! f with Some raw => map_err SerdeJson (from_value raw) | None => Ok empty end.

(** The store and the files saved on the way. *)
Definition load_or_init (init : StoreInit) (fresh : string) (d : Disk) : result (JsonSnapshotStore * list Write) StoreError :=
  let? loaded := load_state init fresh d in
  let '(state, mapping, is_new_state, upgraded) := loaded in
  let? _ := check_latest state in
  let '(state, cleaned) := clean_state state in
  let allowed := membership_keys (ps_node_user_endpoint_memberships state) in
  let? read := read_usage d mapping allowed in
  let usage := retain_usage allowed read.1 in
  let usage_migrated := read.2 || negb (size (pu_memberships usage) =? size (pu_memberships read.1))%nat in
  let? inbound := read_document d InboundIpUsageKey PersistedInboundIpUsage_default in
  let '(inbound, inbound_migrated) := normalize inbound allowed in
  let? tcp := read_document d TcpConnectionUsageKey PersistedTcpConnectionUsage_default in
  let '(tcp, tcp_migrated) := tcp_normalize tcp (allowed_tcp_endpoints state) in
  let store := mkStore state usage inbound tcp in
  Ok (store,
      (if is_new_state || upgraded || cleaned || usage_migrated then save store else [])
      ++ (if usage_migrated then save_usage store else [])
      ++ (if inbound_migrated then save_inbound_ip_usage store else [])
      ++ (if tcp_migrated then save_tcp_connection_usage store else [])).

(** ** Local ledgers *)

Definition store_clear_membership_usage (store : JsonSnapshotStore) (key : string) : JsonSnapshotStore * list Write :=
  let store' := store <| st_usage ::= λ usage, clear_membership_usage usage key |> in
  (store', if contains_key (pu_memberships (st_usage store)) key then save_usage store' else []).

Definition clear_membership_inbound_ip_usage (store : JsonSnapshotStore) (key : string) : JsonSnapshotStore * list Write :=
  let '(inbound, changed) := clear_membership (st_inbound_ip_usage store) key in
  let store' := store <| st_inbound_ip_usage := inbound |> in
  (store', if changed then save_inbound_ip_usage store' else []).

Definition prune_inbound_ip_usage_memberships (store : JsonSnapshotStore) : JsonSnapshotStore * list Write :=
  let '(inbound, changed) := normalize (st_inbound_ip_usage store) (membership_keys (ps_node_user_endpoint_memberships (st_state store))) in
  let store' := store <| st_inbound_ip_usage := inbound |> in
  (store', if changed then save_inbound_ip_usage store' else []).

Definition store_tcp (store : JsonSnapshotStore) (change : PersistedTcpConnectionUsage → PersistedTcpConnectionUsage * bool) : JsonSnapshotStore * list Write :=
  let '(tcp, changed) := change (st_tcp_connection_usage store) in
  let store' := store <| st_tcp_connection_usage := tcp |> in
  (store', if changed then save_tcp_connection_usage store' else []).
Definition clear_endpoint_tcp_connection_usage (store : JsonSnapshotStore) (endpoint_id : string) : JsonSnapshotStore * list Write :=
  store_tcp store (λ usage, tcp_clear_endpoint usage endpoint_id).
Definition clear_node_tcp_connection_usage (store : JsonSnapshotStore) (node_id : string) : JsonSnapshotStore * list Write :=
  store_tcp store (λ usage, tcp_clear_node usage node_id).
Definition prune_tcp_connection_usage_endpoints (store : JsonSnapshotStore) : JsonSnapshotStore * list Write :=
  store_tcp store (λ usage, tcp_normalize usage (allowed_tcp_endpoints (st_state store))).
End Load.

(** * Cleaning settles *)

(** ** Probe records *)

Record history_clean (known : gset string) (history : EndpointProbeHistory) : Prop := {
  hc_hours : hours history ≠ ∅;
  hc_buckets : ∀ hour bucket, hours history !! hour = Some bucket → by_node bucket ≠ ∅ ∧ ∀ n, is_Some (by_node bucket !! n) → n ∈ known;
}.
Definition probes_clean (st : PersistedState) : Prop :=
  map_Forall (λ _, history_clean (dom (ps_nodes st))) (ps_endpoint_probe_history st) ∧
  map_Forall (λ _ (ids : gset string), ids ≠ ∅ ∧ ids ⊆ dom (ps_nodes st)) (ps_endpoint_probe_participants_by_hour st).

(** A filter that keeps everything. *)
Lemma map_filter_all {V} (P : string * V → Prop) `{∀ x, Decision (P x)} (m : gmap string V) : map_Forall (λ k v, P (k, v)) m → filter P m = m.
Proof. intros Hall. apply map_filter_id. intros k v Hk. by apply (Hall k v). Qed.

Lemma map_fmap_all {V} (f : V → V) (m : gmap string V) : map_Forall (λ _ v, f v = v) m → f <$> m = m.
Proof. intros Hall. rewrite <- (map_fmap_id m) at 2. apply map_fmap_ext. intros k v Hk. by apply (Hall k v). Qed.

Lemma existsb_values {V} (f : V → bool) (m : gmap string V) : map_Forall (λ _ v, f v = false) m → existsb f (bt_values m) = false.
Proof.
  intros Hall. apply not_true_iff_false. intros (v & Hin & Hv)%existsb_exists. apply list_elem_of_In in Hin.
  apply elem_of_bt_values in Hin as [k Hk]. by rewrite (Hall k v Hk) in Hv.
Qed.

Lemma prune_bucket_id known bucket : (∀ n, is_Some (by_node bucket !! n) → n ∈ known) → prune_bucket known bucket = bucket.
Proof.
  intros Hall. unfold prune_bucket. rewrite map_filter_all; [by destruct bucket|]. intros n v Hn. apply Hall. by eexists.
Qed.

Lemma prune_history_id known history : history_clean known history → prune_history known history = history.
Proof.
  intros [_ Hb]. unfold prune_history. rewrite map_fmap_all.
  - rewrite map_filter_all; [by destruct history|]. intros h b Hh. by apply (Hb h b).
  - intros h b Hh. apply prune_bucket_id. by apply (Hb h b).
Qed.

Lemma history_changed_clean known history : history_clean known history → history_changed known history = false.
Proof.
  intros Hc. unfold history_changed. rewrite prune_history_id by done. rewrite Nat.eqb_refl, orb_false_r. apply existsb_values.
  intros h b Hh. rewrite prune_bucket_id by (by apply (hc_buckets _ _ Hc h b)). by rewrite Nat.eqb_refl.
Qed.

Lemma prune_probes_id st : probes_clean st → prune_deleted_nodes_from_endpoint_probe_tracking st = (st, false).
Proof.
  intros [Hh Hp]. unfold prune_deleted_nodes_from_endpoint_probe_tracking.
  assert (prune_history (dom (ps_nodes st)) <$> ps_endpoint_probe_history st = ps_endpoint_probe_history st) as ->.
  { apply map_fmap_all. intros k h Hk. apply prune_history_id. by apply (Hh k h). }
  assert ((λ ids : gset string, ids ∩ dom (ps_nodes st)) <$> ps_endpoint_probe_participants_by_hour st = ps_endpoint_probe_participants_by_hour st) as ->.
  { apply map_fmap_all. intros k ids Hk. apply (subseteq_intersection_1_L ids). by apply (Hp k ids). }
  rewrite (map_filter_all _ (ps_endpoint_probe_history st)) by (intros k h Hk; by apply (Hh k h)).
  rewrite (map_filter_all _ (ps_endpoint_probe_participants_by_hour st)) by (intros k ids Hk; by apply (Hp k ids)).
  rewrite !Nat.eqb_refl. f_equal; [by destruct st|]. rewrite !orb_false_r. apply orb_false_intro; apply existsb_values.
  - intros k h Hk. apply history_changed_clean. by apply (Hh k h).
  - intros k ids Hk. rewrite (subseteq_intersection_1_L ids) by (by apply (Hp k ids)). by rewrite Nat.eqb_refl.
Qed.

Lemma prune_history_clean known history : hours (prune_history known history) ≠ ∅ → history_clean known (prune_history known history).
Proof.
  intros Hne. split; [done|]. intros h b. unfold prune_history. cbn. intros [Hb Hnb]%map_lookup_filter_Some. split; [done|].
  apply lookup_fmap_Some in Hb as (b0 & <- & _). intros n [x [_ Hx]%map_lookup_filter_Some]. done.
Qed.

Lemma prune_probes_clean st : probes_clean (prune_deleted_nodes_from_endpoint_probe_tracking st).1.
Proof.
  unfold prune_deleted_nodes_from_endpoint_probe_tracking. cbn [fst]. split; cbn.
  - intros k h [Hh Hne]%map_lookup_filter_Some. apply lookup_fmap_Some in Hh as (h0 & <- & _). by apply prune_history_clean.
  - intros k ids [Hi Hne]%map_lookup_filter_Some. apply lookup_fmap_Some in Hi as (ids0 & <- & _). split; [done|]. set_solver.
Qed.

(** ** The whole state *)

Record settled (st : PersistedState) : Prop := {
  se_keyed : keyed_state st;
  se_public_domain : map_Forall (λ _ e, drop_public_domain e = e) (ps_endpoints st);
  se_probes : probes_clean st;
  se_global_weights : ∀ u, is_Some (ps_user_global_weights st !! u) → is_Some (ps_users st !! u);
  se_policies : ∀ n, is_Some (ps_node_weight_policies st !! n) → is_Some (ps_nodes st !! n);
  se_index : index_in_step st;
}.

Lemma settled_clean st : settled st → clean_state st = (st, false).
Proof.
  intros [Hk He Hp Hg Hn Hi]. unfold clean_state.
  assert (st <| ps_endpoints ::= fmap drop_public_domain |> = st) as ->.
  { transitivity (st <| ps_endpoints := drop_public_domain <$> ps_endpoints st |>); [done|]. rewrite map_fmap_all by done. by destruct st. }
  rewrite prune_probes_id by done. unfold clean_global_weights, normalize_user_global_weights.
  rewrite (map_filter_all _ (ps_user_global_weights st)) by (intros u w Hu; apply Hg; by eexists).
  replace (st <| ps_user_global_weights := ps_user_global_weights st |>) with st by (by destruct st).
  unfold clean_node_policies, normalize_node_weight_policies.
  rewrite (map_filter_all _ (ps_node_weight_policies st)) by (intros u w Hu; apply Hn; by eexists).
  replace (st <| ps_node_weight_policies := ps_node_weight_policies st |>) with st by (by destruct st).
  pose proof (sync_fixed st Hk Hi) as Hs. unfold sync_node_user_endpoint_memberships in Hs.
  assert (normalize_user_auto_assign_endpoint_kinds st (ps_user_auto_assign_endpoint_kinds st) = ps_user_auto_assign_endpoint_kinds st) as Ha
    by (apply (f_equal ps_user_auto_assign_endpoint_kinds) in Hs; exact Hs).
  rewrite Ha in Hs. unfold clean_auto_assign. rewrite Ha.
  replace (st <| ps_user_auto_assign_endpoint_kinds := ps_user_auto_assign_endpoint_kinds st |>) with st in * by (by destruct st).
  assert (normalize_node_user_endpoint_memberships st (ps_node_user_endpoint_memberships st) = ps_node_user_endpoint_memberships st) as Hm.
  { apply set_eq. intros m. rewrite elem_of_normalize. split; [|intros Hin; split; [by apply Hi|exists (m_node_id m); by destruct m]].
    intros [(_ & e & Hke & Hnode) [n Hin]]. destruct (is_sound st Hi _ Hin) as (_ & e' & Hke' & Hnode'). cbn in *. simplify_eq.
    rewrite <- Hnode in Hin. by destruct m. }
  unfold clean_memberships. rewrite Hm. replace (st <| ps_node_user_endpoint_memberships := ps_node_user_endpoint_memberships st |>) with st by (by destruct st).
  unfold build_memberships. rewrite Hs. by rewrite !bool_decide_true by done.
Qed.

Lemma json_remove_idem k v : json_remove k (json_remove k v) = json_remove k v.
Proof. destruct v as [| | | | |o]; cbn [json_remove]; [done..|]. by rewrite delete_delete_eq. Qed.

Lemma drop_public_domain_idem e : drop_public_domain (drop_public_domain e) = drop_public_domain e.
Proof.
  destruct e as [a b c k p meta]. unfold drop_public_domain, update_field. destruct k; cbn -[json_remove]; [|done]. f_equal.
  apply json_remove_idem.
Qed.

Lemma drop_public_domain_id e : e_endpoint_id (drop_public_domain e) = e_endpoint_id e.
Proof. unfold drop_public_domain. by case_bool_decide. Qed.

(** The state before the membership index is rebuilt. *)
Definition clean_base (st : PersistedState) : PersistedState :=
  clean_memberships (clean_auto_assign (clean_node_policies (clean_global_weights
    (prune_deleted_nodes_from_endpoint_probe_tracking (st <| ps_endpoints ::= fmap drop_public_domain |>)).1))).

Lemma clean_state_base st : (clean_state st).1 = build_memberships (clean_base st).
Proof.
  unfold clean_state, clean_base. set (st1 := st <| ps_endpoints ::= fmap drop_public_domain |>).
  destruct (prune_deleted_nodes_from_endpoint_probe_tracking st1) as [st2 pruned]. reflexivity.
Qed.

Lemma clean_auto_assign_base st : clean_auto_assign (clean_base st) = clean_base st.
Proof.
  set (st4 := clean_node_policies (clean_global_weights (prune_deleted_nodes_from_endpoint_probe_tracking (st <| ps_endpoints ::= fmap drop_public_domain |>)).1)).
  assert (clean_base st = clean_memberships (clean_auto_assign st4)) as -> by done. clearbody st4.
  unfold clean_auto_assign. set (auto := ps_user_auto_assign_endpoint_kinds st4).
  assert (normalize_user_auto_assign_endpoint_kinds (clean_memberships (st4 <| ps_user_auto_assign_endpoint_kinds := normalize_user_auto_assign_endpoint_kinds st4 auto |>))
            (normalize_user_auto_assign_endpoint_kinds st4 auto) = normalize_user_auto_assign_endpoint_kinds st4 auto) as Hn.
  { unfold normalize_user_auto_assign_endpoint_kinds. apply map_filter_all. intros u kinds [_ HP]%map_lookup_filter_Some. exact HP. }
  cbn. unfold clean_memberships in *. cbn in *. rewrite Hn. done.
Qed.

Lemma clean_base_keyed st : keyed_state st → keyed_state (clean_base st).
Proof.
  intros [K1 K2 K3]. split; [exact K1|exact K2|]. intros k e. change (ps_endpoints (clean_base st)) with (drop_public_domain <$> ps_endpoints st).
  intros (e0 & He & Hk)%lookup_fmap_Some. subst e. rewrite drop_public_domain_id. by apply K3.
Qed.

Lemma build_settled st :
  keyed_state st → map_Forall (λ _ e, drop_public_domain e = e) (ps_endpoints st) → probes_clean st →
  (∀ u, is_Some (ps_user_global_weights st !! u) → is_Some (ps_users st !! u)) →
  (∀ n, is_Some (ps_node_weight_policies st !! n) → is_Some (ps_nodes st !! n)) → clean_auto_assign st = st → settled (build_memberships st).
Proof.
  intros Hk He Hp Hg Hn Ha. assert (build_memberships st = sync_node_user_endpoint_memberships st) as Hsync.
  { change (sync_node_user_endpoint_memberships st) with (build_memberships (clean_auto_assign st)). by rewrite Ha. }
  split; [by destruct Hk|exact He|exact Hp|exact Hg|exact Hn|]. rewrite Hsync. by apply sync_in_step.
Qed.

Lemma clean_settled st : keyed_state st → settled (clean_state st).1.
Proof.
  intros Hk. rewrite clean_state_base. apply build_settled; [by apply clean_base_keyed| | | | |apply clean_auto_assign_base].
  - intros k e. change (ps_endpoints (clean_base st)) with (drop_public_domain <$> ps_endpoints st).
    intros (e0 & <- & _)%lookup_fmap_Some. apply drop_public_domain_idem.
  - exact (prune_probes_clean (st <| ps_endpoints ::= fmap drop_public_domain |>)).
  - intros u [w Hw]. change (ps_user_global_weights (clean_base st)) with (normalize_user_global_weights st (ps_user_global_weights st)) in Hw.
    by apply map_lookup_filter_Some in Hw as [_ HP].
  - intros n [w Hw]. change (ps_node_weight_policies (clean_base st)) with (normalize_node_weight_policies st (ps_node_weight_policies st)) in Hw.
    by apply map_lookup_filter_Some in Hw as [_ HP].
Qed.

(** * Ledgers settle *)

Lemma normalize_record_idem r : normalize_record (normalize_record r) = normalize_record r.
Proof.
  apply normalize_record_id. split; [apply normalize_bitmap_length|done].
Qed.

Lemma inbound_normalize_settles usage allowed : let usage' := (normalize usage allowed).1 in normalize usage' allowed = (usage', false).
Proof.
  intros usage'. unfold normalize. cbn [fst].
  assert (map_Forall (λ k m, k ∈ allowed ∧ im_ips m ≠ ∅ ∧ map_Forall (λ _ r, normalize_record r = r ∧ ir_minutes r ≠ 0) (im_ips m)) (iu_memberships usage')) as Hall.
  { intros k m. unfold usage', normalize, drop_empty. cbn. intros [Hm Hne]%map_lookup_filter_Some.
    apply lookup_fmap_Some in Hm as (m1 & <- & Hm1). apply lookup_fmap_Some in Hm1 as (m0 & <- & Hm0).
    apply map_lookup_filter_Some in Hm0 as [_ Hin]. split_and!; [exact Hin|exact Hne|]. cbn. intros ip r [Hr Hz]%map_lookup_filter_Some.
    split; [|exact Hz]. apply lookup_fmap_Some in Hr as (r0 & <- & _). apply normalize_record_idem. }
  assert (iu_schema_version usage' = INBOUND_IP_USAGE_SCHEMA_VERSION ∧ iu_minutes_window usage' = MINUTES_WINDOW) as [Hv Hw] by done.
  clearbody usage'. rewrite (map_filter_all _ (iu_memberships usage')) by (intros k m Hm; by apply (Hall k m)).
  assert ((λ m, m <| im_ips ::= fmap normalize_record |>) <$> iu_memberships usage' = iu_memberships usage') as ->.
  { apply map_fmap_all. intros k m Hm. destruct (Hall k m Hm) as (_ & _ & Hr). destruct m. unfold update_field. cbn in *. f_equal.
    apply map_fmap_all. intros ip r Hip. by apply (Hr ip r). }
  assert (drop_empty (iu_memberships usage') = iu_memberships usage') as ->.
  { unfold drop_empty. rewrite map_fmap_all; [apply map_filter_all; intros k m Hm; by apply (Hall k m)|]. intros k m Hm. destruct (Hall k m Hm) as (_ & _ & Hr).
    destruct m. unfold update_field. cbn in *. f_equal. apply map_filter_all. intros ip r Hip. by apply (Hr ip r). }
  rewrite Hv, Hw, N.eqb_refl, !Nat.eqb_refl. f_equal; [destruct usage'; cbn in *; by subst|]. cbn [negb orb]. apply existsb_values. intros k m Hm.
  destruct (Hall k m Hm) as (_ & _ & Hr). apply existsb_values. intros ip r Hip. destruct (Hr ip r Hip) as [-> Hz].
  rewrite N.eqb_refl. by apply N.eqb_neq in Hz as ->.
Qed.

Lemma tcp_normalize_settles usage allowed : let usage' := (tcp_normalize usage allowed).1 in tcp_normalize usage' allowed = (usage', false).
Proof.
  intros usage'.
  assert (map_Forall (λ k r, ∃ expected, allowed !! k = Some expected ∧ tcp_align expected r = r) (tc_endpoints usage')) as Hall.
  { intros k r. unfold usage', tcp_normalize. cbn [fst tc_endpoints]. change (tc_endpoints (_ <| tc_endpoints := ?m |>)) with m.
    rewrite map_lookup_imap. intros (r0 & [Hr0 [expected He]]%map_lookup_filter_Some & [= <-])%bind_Some. rewrite He. exists expected.
    split; [done|]. unfold tcp_align. cbn. by rewrite (normalize_counts_id (normalize_counts _)) by apply normalize_counts_length. }
  assert (tc_schema_version usage' = TCP_CONNECTION_USAGE_SCHEMA_VERSION ∧ tc_minutes_window usage' = TCP_MINUTES_WINDOW) as [Hv Hw] by done.
  clearbody usage'. unfold tcp_normalize.
  rewrite (map_filter_all _ (tc_endpoints usage')) by (intros k r Hr; destruct (Hall k r Hr) as (x & Hx & _); by exists x).
  rewrite Hv, Hw, N.eqb_refl, !Nat.eqb_refl. cbn [negb orb]. f_equal.
  - assert (map_imap (λ endpoint_id r, Some match allowed !! endpoint_id with Some expected => tcp_align expected r | None => r <| tu_counts ::= normalize_counts |> end)
              (tc_endpoints usage') = tc_endpoints usage') as ->; [|destruct usage'; cbn in *; by subst].
    apply map_eq. intros k. rewrite map_lookup_imap. destruct (tc_endpoints usage' !! k) as [r|] eqn:Hr; [|done]. cbn [mbind option_bind].
    destruct (Hall k r Hr) as (x & Hx & Hal). by rewrite Hx, Hal.
  - apply not_true_iff_false. intros ([k r] & Hin & Hd)%existsb_exists. apply list_elem_of_In, elem_of_bt_items in Hin.
    destruct (Hall k r Hin) as (x & Hx & Hal). rewrite Hx in Hd. rewrite <- Hal in Hd. unfold tcp_differs, tcp_align in Hd. cbn in Hd.
    by rewrite !bool_decide_true, N.eqb_refl in Hd by done.
Qed.

(** * Starting again *)

Section Restart.
Context `{StoreCodec}.

Lemma written_cons d f v ws : written d ((f, v) :: ws) = written (<[f := v]> d) ws.
Proof. done. Qed.

Lemma written_lookup d ws f : written d ws !! f = d !! f ∨ ∃ v, (f, v) ∈ ws ∧ written d ws !! f = Some v.
Proof.
  revert d. induction ws as [|[f' v'] ws IH]; intros d; [by left|]. rewrite written_cons. destruct (IH (<[f' := v']> d)) as [Heq|(v & Hin & Heq)].
  - destruct (decide (f = f')) as [->|Hne].
    + right. exists v'. rewrite lookup_insert_eq in Heq. split; [by left|done].
    + left. by rewrite lookup_insert_ne in Heq.
  - right. exists v. split; [by right|done].
Qed.

Lemma written_in d ws f : f ∈ ws.*1 → ∃ v, (f, v) ∈ ws ∧ written d ws !! f = Some v.
Proof.
  revert d. induction ws as [|[f' v'] ws IH]; intros d Hf; [by apply elem_of_nil in Hf|]. rewrite written_cons, fmap_cons in *. cbn [fst] in Hf.
  destruct (decide (f ∈ ws.*1)) as [Hin|Hnin].
  - destruct (IH (<[f' := v']> d) Hin) as (v & Hv & Heq). exists v. split; [by right|done].
  - apply elem_of_cons in Hf as [->|]; [|done]. destruct (written_lookup (<[f' := v']> d) ws f') as [Heq|(v & Hv & Heq)].
    + exists v'. split; [by left|]. rewrite Heq. apply lookup_insert_eq.
    + exists v. split; [by right|done].
Qed.

(** What a successful start went through. *)
Record start (init : StoreInit) (fresh : string) (d : Disk) (store : JsonSnapshotStore) (ws : list Write) : Type := mkStart {
  sa_state0 : PersistedState; sa_mapping : option (gmap string string); sa_new : bool; sa_upgraded : bool; sa_cleaned : bool;
  sa_read : PersistedUsage * bool; sa_inbound0 : PersistedInboundIpUsage; sa_inbound_migrated : bool;
  sa_tcp0 : PersistedTcpConnectionUsage; sa_tcp_migrated : bool;
  sa_load : load_state init fresh d = Ok (sa_state0, sa_mapping, sa_new, sa_upgraded);
  sa_latest : ps_schema_version sa_state0 = SCHEMA_VERSION;
  sa_clean : clean_state sa_state0 = (st_state store, sa_cleaned);
  sa_usage : read_usage d sa_mapping (membership_keys (ps_node_user_endpoint_memberships (st_state store))) = Ok sa_read;
  sa_retain : st_usage store = retain_usage (membership_keys (ps_node_user_endpoint_memberships (st_state store))) sa_read.1;
  sa_inbound : read_document d InboundIpUsageKey PersistedInboundIpUsage_default = Ok sa_inbound0;
  sa_inbound_norm : normalize sa_inbound0 (membership_keys (ps_node_user_endpoint_memberships (st_state store))) = (st_inbound_ip_usage store, sa_inbound_migrated);
  sa_tcp : read_document d TcpConnectionUsageKey PersistedTcpConnectionUsage_default = Ok sa_tcp0;
  sa_tcp_norm : tcp_normalize sa_tcp0 (allowed_tcp_endpoints (st_state store)) = (st_tcp_connection_usage store, sa_tcp_migrated);
  sa_writes : let usage_migrated := sa_read.2 || negb (size (pu_memberships (st_usage store)) =? size (pu_memberships sa_read.1))%nat in
    ws = (if sa_new || sa_upgraded || sa_cleaned || usage_migrated then save store else [])
      ++ (if usage_migrated then save_usage store else [])
      ++ (if sa_inbound_migrated then save_inbound_ip_usage store else [])
      ++ (if sa_tcp_migrated then save_tcp_connection_usage store else []);
}.

#[local] Arguments sa_state0 {init fresh d store ws} s.
#[local] Arguments sa_mapping {init fresh d store ws} s.
#[local] Arguments sa_new {init fresh d store ws} s.
#[local] Arguments sa_upgraded {init fresh d store ws} s.
#[local] Arguments sa_cleaned {init fresh d store ws} s.
#[local] Arguments sa_read {init fresh d store ws} s.
#[local] Arguments sa_inbound0 {init fresh d store ws} s.
#[local] Arguments sa_inbound_migrated {init fresh d store ws} s.
#[local] Arguments sa_tcp0 {init fresh d store ws} s.
#[local] Arguments sa_tcp_migrated {init fresh d store ws} s.
#[local] Arguments sa_load {init fresh d store ws} s.
#[local] Arguments sa_latest {init fresh d store ws} s.
#[local] Arguments sa_clean {init fresh d store ws} s.
#[local] Arguments sa_usage {init fresh d store ws} s.
#[local] Arguments sa_retain {init fresh d store ws} s.
#[local] Arguments sa_inbound {init fresh d store ws} s.
#[local] Arguments sa_inbound_norm {init fresh d store ws} s.
#[local] Arguments sa_tcp {init fresh d store ws} s.
#[local] Arguments sa_tcp_norm {init fresh d store ws} s.
#[local] Arguments sa_writes {init fresh d store ws} s.

Lemma load_start init fresh d store ws : load_or_init init fresh d = Ok (store, ws) → start init fresh d store ws.
Proof.
  unfold load_or_init. destruct (load_state init fresh d) as [[[[state0 mapping] is_new] upgraded]|e] eqn:Hload; [|discriminate]. cbn [rbind].
  unfold check_latest. destruct (N.eqb_spec (ps_schema_version state0) SCHEMA_VERSION) as [Hv|]; [|discriminate]. cbn [negb rbind].
  destruct (clean_state state0) as [state cleaned] eqn:Hclean.
  destruct (read_usage d mapping _) as [read|e] eqn:Hread; [|discriminate]. cbn [rbind].
  destruct (read_document d InboundIpUsageKey _) as [inbound0|e] eqn:Hin; [|discriminate]. cbn [rbind].
  destruct (normalize inbound0 _) as [inbound fi] eqn:Hnorm.
  destruct (read_document d TcpConnectionUsageKey _) as [tcp0|e] eqn:Htcp; [|discriminate]. cbn [rbind].
  destruct (tcp_normalize tcp0 _) as [tcp ft] eqn:Htnorm. intros [= <- <-].
  by refine (mkStart _ _ _ _ _ state0 mapping is_new upgraded cleaned read inbound0 fi tcp0 ft _ _ _ _ _ _ _ _ _ _).
Qed.

Lemma start_load init fresh d store ws : start init fresh d store ws → load_or_init init fresh d = Ok (store, ws).
Proof.
  intros [state0 mapping is_new upgraded cleaned read inbound0 fi tcp0 ft Hload Hv Hclean Hread Hret Hin Hnorm Htcp Htnorm Hws].
  unfold load_or_init. rewrite Hload. cbn [rbind]. unfold check_latest. rewrite Hv, N.eqb_refl. cbn [negb rbind]. rewrite Hclean, Hread. cbn [rbind].
  rewrite Hin. cbn [rbind]. rewrite Hnorm, Htcp. cbn [rbind]. rewrite Htnorm, <- Hret. cbv zeta in Hws. rewrite Hws. by destruct store.
Qed.

(** The document a store saves under a file. *)
Definition saved_doc (store : JsonSnapshotStore) (f : File) : option json :=
  match f with
  | StateKey => Some (encode_state (st_state store))
  | UsageKey => Some (encode_usage (st_usage store))
  | InboundIpUsageKey => Some (to_value (st_inbound_ip_usage store))
  | TcpConnectionUsageKey => Some (to_value (st_tcp_connection_usage store))
  | _ => None
  end.

(** Whether a start saves a file. *)
Definition start_saves {init fresh d store ws} (s : start init fresh d store ws) (f : File) : bool :=
  let usage_migrated := (sa_read s).2 || negb (size (pu_memberships (st_usage store)) =? size (pu_memberships (sa_read s).1))%nat in
  match f with
  | StateKey => sa_new s || sa_upgraded s || sa_cleaned s || usage_migrated
  | UsageKey => usage_migrated
  | InboundIpUsageKey => sa_inbound_migrated s
  | TcpConnectionUsageKey => sa_tcp_migrated s
  | _ => false
  end.

Lemma start_writes {init fresh d store ws} (s : start init fresh d store ws) f v :
  (f, v) ∈ ws ↔ start_saves s f = true ∧ saved_doc store f = Some v.
Proof.
  unfold start_saves. destruct s as [? ? new upgraded cleaned read ? inbound ? tcp ? ? ? ? ? ? ? ? ? Hws].
  cbn [sa_new sa_upgraded sa_cleaned sa_read sa_inbound_migrated sa_tcp_migrated]. cbv zeta in *. rewrite Hws. clear Hws.
  set (u := read.2 || _). set (a := new || _ || _ || u). clearbody u a. rewrite !elem_of_app. unfold save, save_usage, save_inbound_ip_usage, save_tcp_connection_usage.
  destruct a, u, inbound, tcp; rewrite ?list_elem_of_singleton, ?elem_of_nil; destruct f; cbn [saved_doc]; naive_solver.
Qed.

(** The documents after a prefix of the writes: as before, or as the start saves them. *)
Lemma start_prefix {init fresh d store ws} (s : start init fresh d store ws) k f :
  written d (take k ws) !! f = d !! f ∨ (is_Some (saved_doc store f) ∧ written d (take k ws) !! f = saved_doc store f).
Proof.
  destruct (written_lookup d (take k ws) f) as [|(v & Hin & Hw)]; [by left|]. right. rewrite Hw.
  assert ((f, v) ∈ ws) as [_ ->]%(start_writes s) by (rewrite <- (take_drop k ws); apply elem_of_app; by left). split; [by eexists|done].
Qed.

Lemma start_complete {init fresh d store ws} (s : start init fresh d store ws) k f :
  (length ws ≤ k)%nat → start_saves s f = true → written d (take k ws) !! f = saved_doc store f.
Proof.
  intros Hk Hs. rewrite take_ge by done. assert (is_Some (saved_doc store f)) as [v Hv] by (destruct f; try discriminate Hs; cbn; eauto).
  destruct (written_in d ws f) as (v' & Hin & Hw); [apply list_elem_of_fmap; exists (f, v); split; [done|by apply (start_writes s)]|].
  apply (start_writes s) in Hin as [_ Hv']. congruence.
Qed.

Lemma settled_stored st : settled st → settled (stored_state st).
Proof. intros [Hk He Hp Hg Hn Hi]. split; [by destruct Hk|exact He|exact Hp|exact Hg|exact Hn|]. destruct Hi as [I1 I2 I3]. by split. Qed.

Lemma saved_state_loads init fresh d st :
  d !! StateKey = Some (encode_state st) → ps_schema_version st = SCHEMA_VERSION → load_state init fresh d = Ok (stored_state st, None, false, false).
Proof.
  intros Hd Hv. unfold load_state. rewrite Hd. assert (decode_state (encode_state st) = Ok (stored_state st)) as Hdec
    by (apply decode_encode_state; rewrite Hv; done).
  pose proof (decode_state_version _ _ Hdec) as Hver. change (ps_schema_version (stored_state st)) with (ps_schema_version st) in Hver. rewrite Hv in Hver.
  unfold upgrade_document. rewrite <- Hver, N.eqb_refl, Hdec. reflexivity.
Qed.

Definition same_file (d d' : Disk) (f : File) : Prop := d' !! f = d !! f.

Lemma load_state_same init fresh fresh' d d' : same_file d d' StateKey → is_Some (d' !! StateKey) → load_state init fresh' d' = load_state init fresh d.
Proof. unfold same_file, load_state. intros -> [raw ->]. done. Qed.

Lemma read_usage_version d mapping allowed read : read_usage d mapping allowed = Ok read → pu_schema_version read.1 = USAGE_SCHEMA_VERSION.
Proof.
  unfold read_usage. destruct (d !! UsageKey) as [raw|]; [|by intros [= <-]].
  destruct (N.eqb_spec (raw_schema_version raw) USAGE_SCHEMA_VERSION) as [Hv|_].
  - destruct (decode_usage raw) as [usage|e] eqn:Hd; [|discriminate]. intros [= <-]. cbn. rewrite <- Hv. by apply decode_usage_version.
  - destruct (N.eqb_spec (raw_schema_version raw) USAGE_SCHEMA_VERSION_V1) as [_|]; [|discriminate]. destruct mapping as [mapping|]; [|by intros [= <-]].
    destruct (decode_usage_v1 raw) as [v1|e]; [|discriminate]. by intros [= <-].
Qed.

Lemma saved_usage_read d mapping allowed usage :
  d !! UsageKey = Some (encode_usage usage) → pu_schema_version usage = USAGE_SCHEMA_VERSION → read_usage d mapping allowed = Ok (usage, false).
Proof.
  intros Hd Hv. unfold read_usage. rewrite Hd. assert (decode_usage (encode_usage usage) = Ok usage) as Hdec by (apply decode_encode_usage; rewrite Hv; done).
  rewrite <- (decode_usage_version _ _ Hdec), Hv, N.eqb_refl, Hdec. reflexivity.
Qed.

(** Losing the membership keys of the grants only matters to a document of version 1. *)
Lemma read_usage_mapping d d' mapping allowed read :
  same_file d d' UsageKey → read_usage d mapping allowed = Ok read →
  read_usage d' None allowed = Ok read ∨
  (∃ raw, d !! UsageKey = Some raw ∧ raw_schema_version raw = USAGE_SCHEMA_VERSION_V1 ∧ read.2 = true ∧ read_usage d' None allowed = Ok (PersistedUsage_empty, true)).
Proof.
  unfold same_file, read_usage. intros ->. destruct (d !! UsageKey) as [raw|]; [|by left].
  destruct (raw_schema_version raw =? USAGE_SCHEMA_VERSION); [by left|].
  destruct (N.eqb_spec (raw_schema_version raw) USAGE_SCHEMA_VERSION_V1) as [Hv|]; [|discriminate]. intros Hr. right. exists raw. split_and!; [done..| |done].
  destruct mapping as [mapping|]; [destruct (decode_usage_v1 raw); [|discriminate]|]; by injection Hr as <-.
Qed.

Lemma retain_usage_idem allowed usage : retain_usage allowed (retain_usage allowed usage) = retain_usage allowed usage.
Proof.
  unfold retain_usage. destruct usage as [v m p np ce eu]. unfold update_field. cbn. f_equal. apply map_filter_all.
  by intros k u [_ Hin]%map_lookup_filter_Some.
Qed.

Lemma read_document_same {A} `{JsonCodec A} d d' f (empty : A) : same_file d d' f → read_document d' f empty = read_document d f empty.
Proof. unfold same_file, read_document. by intros ->. Qed.

Lemma saved_document_read {A} `{JsonCodec A} d f (empty a : A) : d !! f = Some (to_value a) → read_document d f empty = Ok a.
Proof. unfold read_document. intros ->. by rewrite from_to_value. Qed.

Section After.
Context (init : StoreInit) (fresh fresh' : string) (d d' : Disk) (store : JsonSnapshotStore) (ws : list Write) (s : start init fresh d store ws).
Context (Hkey : keyed_state (sa_state0 s)).

Lemma start_state_latest : ps_schema_version (st_state store) = SCHEMA_VERSION.
Proof.
  pose proof (sa_clean s) as Hc. apply (f_equal fst) in Hc. rewrite clean_state_base in Hc. cbn in Hc. rewrite <- Hc.
  exact (sa_latest s).
Qed.

Lemma restart_state :
  is_Some (d' !! StateKey) → same_file d d' StateKey ∨ d' !! StateKey = saved_doc store StateKey →
  ∃ state0 mapping new upgraded state cleaned,
    load_state init fresh' d' = Ok (state0, mapping, new, upgraded) ∧ ps_schema_version state0 = SCHEMA_VERSION ∧ clean_state state0 = (state, cleaned) ∧
    stored_state state = stored_state (st_state store) ∧ (mapping = None ∨ mapping = sa_mapping s) ∧
    (d' !! StateKey = saved_doc store StateKey ∨ start_saves s StateKey = false → new || upgraded || cleaned = false).
Proof.
  intros Hsome Hor. destruct (decide (d' !! StateKey = saved_doc store StateKey)) as [Hsaved|Hns].
  - assert (settled (stored_state (st_state store))) as Hset.
    { apply settled_stored. pose proof (clean_settled _ Hkey) as Hset. by rewrite (sa_clean s) in Hset. }
    exists (stored_state (st_state store)), None, false, false, (stored_state (st_state store)), false.
    split_and!; [by apply saved_state_loads, start_state_latest|exact start_state_latest|by apply settled_clean|done|by left|done].
  - destruct Hor as [Hsame|]; [|done].
    exists (sa_state0 s), (sa_mapping s), (sa_new s), (sa_upgraded s), (st_state store), (sa_cleaned s).
    split_and!; [|exact (sa_latest s)|exact (sa_clean s)|done|by right|].
    + rewrite (load_state_same init fresh fresh' d d') by done. exact (sa_load s).
    + intros [|Hf]; [done|]. unfold start_saves in Hf. by apply orb_false_iff in Hf as [Hf _].
Qed.

Lemma restart_usage mapping :
  let allowed := membership_keys (ps_node_user_endpoint_memberships (st_state store)) in
  mapping = None ∨ mapping = sa_mapping s → same_file d d' UsageKey ∨ d' !! UsageKey = saved_doc store UsageKey →
  ∃ read, read_usage d' mapping allowed = Ok read ∧
    (retain_usage allowed read.1 = st_usage store ∨
     (same_file d d' UsageKey ∧ (∃ raw, d !! UsageKey = Some raw ∧ raw_schema_version raw = USAGE_SCHEMA_VERSION_V1) ∧ retain_usage allowed read.1 = PersistedUsage_empty)) ∧
    (d' !! UsageKey = saved_doc store UsageKey ∨ start_saves s UsageKey = false →
     retain_usage allowed read.1 = st_usage store ∧ read.2 || negb (size (pu_memberships (st_usage store)) =? size (pu_memberships read.1))%nat = false).
Proof.
  intros allowed Hmap Hor. pose proof (sa_retain s) as Hret. fold allowed in Hret.
  destruct (decide (d' !! UsageKey = saved_doc store UsageKey)) as [Hsaved|Hns].
  - exists (st_usage store, false). cbn [fst snd].
    assert (retain_usage allowed (st_usage store) = st_usage store) as Hr by (rewrite Hret; apply retain_usage_idem).
    split_and!; [|by left|intros _; by rewrite Hr, Nat.eqb_refl]. apply saved_usage_read; [done|]. rewrite Hret.
    exact (read_usage_version _ _ _ _ (sa_usage s)).
  - destruct Hor as [Hsame|]; [|done]. pose proof (sa_usage s) as Hread. fold allowed in Hread.
    assert (start_saves s UsageKey = false → (sa_read s).2 || negb (size (pu_memberships (st_usage store)) =? size (pu_memberships (sa_read s).1))%nat = false) as Hflag by done.
    destruct Hmap as [->| ->].
    + destruct (read_usage_mapping d d' _ _ _ Hsame Hread) as [Hr|(raw & Hraw & Hv & Htrue & Hr)].
      * exists (sa_read s). split_and!; [done|by left|]. intros [|Hf]; [done|]. by split; [|apply Hflag].
      * exists (PersistedUsage_empty, true). split_and!; [done|right; split_and!; [done|by exists raw|]|].
        -- reflexivity.
        -- intros [|Hf]; [done|]. specialize (Hflag Hf). rewrite Htrue in Hflag. discriminate.
    + exists (sa_read s). split_and!; [|by left|intros [|Hf]; [done|]; by split; [|apply Hflag]].
      revert Hread. unfold read_usage. by rewrite Hsame.
Qed.

Lemma restart_inbound :
  let allowed := membership_keys (ps_node_user_endpoint_memberships (st_state store)) in
  same_file d d' InboundIpUsageKey ∨ d' !! InboundIpUsageKey = saved_doc store InboundIpUsageKey →
  ∃ inbound migrated, read_document d' InboundIpUsageKey PersistedInboundIpUsage_default = Ok inbound ∧
    normalize inbound allowed = (st_inbound_ip_usage store, migrated) ∧
    (d' !! InboundIpUsageKey = saved_doc store InboundIpUsageKey ∨ start_saves s InboundIpUsageKey = false → migrated = false).
Proof.
  intros allowed Hor. pose proof (sa_inbound_norm s) as Hn. fold allowed in Hn.
  destruct (decide (d' !! InboundIpUsageKey = saved_doc store InboundIpUsageKey)) as [Hsaved|Hns].
  - exists (st_inbound_ip_usage store), false. split_and!; [by apply saved_document_read| |done].
    pose proof (inbound_normalize_settles (sa_inbound0 s) allowed) as Hset. by rewrite Hn in Hset.
  - destruct Hor as [Hsame|]; [|done]. exists (sa_inbound0 s), (sa_inbound_migrated s). split_and!; [|done|by intros [|Hf]].
    rewrite (read_document_same d) by done. exact (sa_inbound s).
Qed.

Lemma restart_tcp :
  same_file d d' TcpConnectionUsageKey ∨ d' !! TcpConnectionUsageKey = saved_doc store TcpConnectionUsageKey →
  ∃ tcp migrated, read_document d' TcpConnectionUsageKey PersistedTcpConnectionUsage_default = Ok tcp ∧
    tcp_normalize tcp (allowed_tcp_endpoints (st_state store)) = (st_tcp_connection_usage store, migrated) ∧
    (d' !! TcpConnectionUsageKey = saved_doc store TcpConnectionUsageKey ∨ start_saves s TcpConnectionUsageKey = false → migrated = false).
Proof.
  intros Hor. pose proof (sa_tcp_norm s) as Hn. destruct (decide (d' !! TcpConnectionUsageKey = saved_doc store TcpConnectionUsageKey)) as [Hsaved|Hns].
  - exists (st_tcp_connection_usage store), false. split_and!; [by apply saved_document_read| |done].
    pose proof (tcp_normalize_settles (sa_tcp0 s) (allowed_tcp_endpoints (st_state store))) as Hset. by rewrite Hn in Hset.
  - destruct Hor as [Hsame|]; [|done]. exists (sa_tcp0 s), (sa_tcp_migrated s). split_and!; [|done|by intros [|Hf]].
    rewrite (read_document_same d) by done. exact (sa_tcp s).
Qed.
End After.

Lemma resume_start (init : StoreInit) (fresh fresh' : string) (d : Disk) (store : JsonSnapshotStore) (ws : list Write) (k : nat) :
  load_or_init init fresh d = Ok (store, ws) →
  (∀ loaded, load_state init fresh d = Ok loaded → keyed_state loaded.1.1.1) →
  let d' := written d (take k ws) in
  is_Some (d' !! StateKey) →
  ∃ store' ws', load_or_init init fresh' d' = Ok (store', ws') ∧
    stored_state (st_state store') = stored_state (st_state store) ∧
    st_inbound_ip_usage store' = st_inbound_ip_usage store ∧ st_tcp_connection_usage store' = st_tcp_connection_usage store ∧
    (st_usage store' = st_usage store ∨
     (d' !! UsageKey = d !! UsageKey ∧ (∃ raw, d !! UsageKey = Some raw ∧ raw_schema_version raw = USAGE_SCHEMA_VERSION_V1) ∧ st_usage store' = PersistedUsage_empty)) ∧
    ((length ws ≤ k)%nat → st_usage store' = st_usage store ∧ ws' = []).
Proof.
  intros Hload Hkey d' Hsome. pose proof (load_start _ _ _ _ _ Hload) as s. specialize (Hkey _ (sa_load s)). cbn [fst] in Hkey.
  assert (∀ f, is_Some (saved_doc store f) → same_file d d' f ∨ d' !! f = saved_doc store f) as Hor
    by (intros f _; destruct (start_prefix s k f) as [|[_ ?]]; [by left|by right]).
  assert ((length ws ≤ k)%nat → ∀ f, d' !! f = saved_doc store f ∨ start_saves s f = false) as Hfull.
  { intros Hk f. destruct (start_saves s f) eqn:Hsv; [left|by right]. by apply (start_complete s). }
  destruct (restart_state init fresh fresh' d d' store ws s Hkey Hsome (Hor StateKey (mk_is_Some _ _ eq_refl))) as (state0 & mapping & new & up & state & cleaned & H1 & H2 & H3 & H4 & H5 & H6).
  assert (ps_node_user_endpoint_memberships state = ps_node_user_endpoint_memberships (st_state store)) as Hms by exact (f_equal ps_node_user_endpoint_memberships H4).
  assert (allowed_tcp_endpoints state = allowed_tcp_endpoints (st_state store)) as Htcp
    by (unfold allowed_tcp_endpoints; f_equal; f_equal; f_equal; f_equal; exact (f_equal ps_endpoints H4)).
  destruct (restart_usage init fresh d d' store ws s mapping H5 (Hor UsageKey (mk_is_Some _ _ eq_refl))) as (read & R1 & R2 & R3).
  destruct (restart_inbound init fresh d d' store ws s (Hor InboundIpUsageKey (mk_is_Some _ _ eq_refl))) as (inb & fi & I1 & I2 & I3).
  destruct (restart_tcp init fresh d d' store ws s (Hor TcpConnectionUsageKey (mk_is_Some _ _ eq_refl))) as (tcp & ft & T1 & T2 & T3).
  set (store' := mkStore state (retain_usage (membership_keys (ps_node_user_endpoint_memberships (st_state store))) read.1) (st_inbound_ip_usage store)
    (st_tcp_connection_usage store)).
  eexists store', _. split_and!; [apply start_load; unshelve refine (mkStart init fresh' d' store' _ state0 mapping new up cleaned read inb fi tcp ft H1 H2 H3 _ _ I1 _ T1 _ eq_refl);
    unfold store'; cbn [st_state st_usage st_inbound_ip_usage st_tcp_connection_usage]; rewrite ?Hms, ?Htcp; done|done|done|done| |].
  - destruct R2 as [R2|(Hs & Hv & R2)]; [by left|right]. split_and!; [exact Hs|exact Hv|exact R2].
  - intros Hk. destruct (R3 (Hfull Hk _)) as [Ru Rf]. split; [exact Ru|]. change (st_usage store') with (retain_usage (membership_keys (ps_node_user_endpoint_memberships (st_state store))) read.1).
    rewrite Ru, (H6 (Hfull Hk _)), Rf, (I3 (Hfull Hk _)), (T3 (Hfull Hk _)). reflexivity.
Qed.

(** What a prefix of the writes leaves is loaded with its keys in order. *)
Lemma resumed_keyed (init : StoreInit) (fresh fresh' : string) (d : Disk) (store : JsonSnapshotStore) (ws : list Write) (k : nat) :
  load_or_init init fresh d = Ok (store, ws) →
  (∀ loaded, load_state init fresh d = Ok loaded → keyed_state loaded.1.1.1) →
  let d' := written d (take k ws) in
  is_Some (d' !! StateKey) → ∀ loaded, load_state init fresh' d' = Ok loaded → keyed_state loaded.1.1.1.
Proof.
  intros Hload Hkey d' Hsome loaded Hl. pose proof (load_start _ _ _ _ _ Hload) as s.
  destruct (start_prefix s k StateKey) as [Hsame|[_ Hsaved]].
  - apply Hkey. rewrite <-Hl. symmetry. by apply load_state_same.
  - specialize (Hkey _ (sa_load s)). cbn [fst] in Hkey. rewrite (saved_state_loads _ _ _ (st_state store)) in Hl; [|done|by eapply start_state_latest].
    injection Hl as <-. cbn [fst]. apply se_keyed, settled_stored. pose proof (clean_settled _ Hkey) as Hset. by rewrite (sa_clean s) in Hset.
Qed.

Lemma written_keeps d ws f : is_Some (d !! f) → is_Some (written d ws !! f).
Proof. destruct (written_lookup d ws f) as [->|(v & _ & ->)]; [done|by eexists]. Qed.

(** C4: a start that is cut short is taken up by the next one.  Let a start succeed and let any
    prefix of its writes reach the disk, the state file among what is there (a first start that
    did not get to write it is simply made again), and let the maps of the loaded state be keyed
    by the ids of what they hold, as every state built by commands has them.  The next start
    succeeds, whatever identifier it draws, with the same state up to the revision counter
    that is not stored, the same address and connection ledgers, and the same traffic
    ledger - except that when the upgraded state was saved and a traffic ledger of version 1
    was not yet replaced, it restarts from an empty one.  After its writes every later start
    finds the same and writes nothing; after all writes of the first one, so does the next. *)
Theorem interrupted_start_resumes (init : StoreInit) (fresh fresh' : string) (d : Disk) (store : JsonSnapshotStore) (ws : list Write) (k : nat) :
  load_or_init init fresh d = Ok (store, ws) →
  (∀ loaded, load_state init fresh d = Ok loaded → keyed_state loaded.1.1.1) →
  let d' := written d (take k ws) in
  is_Some (d' !! StateKey) →
  ∃ store' ws', load_or_init init fresh' d' = Ok (store', ws') ∧
    stored_state (st_state store') = stored_state (st_state store) ∧
    st_inbound_ip_usage store' = st_inbound_ip_usage store ∧ st_tcp_connection_usage store' = st_tcp_connection_usage store ∧
    (st_usage store' = st_usage store ∨
     (d' !! UsageKey = d !! UsageKey ∧ (∃ raw, d !! UsageKey = Some raw ∧ raw_schema_version raw = USAGE_SCHEMA_VERSION_V1) ∧ st_usage store' = PersistedUsage_empty)) ∧
    ((length ws ≤ k)%nat → st_usage store' = st_usage store ∧ ws' = []) ∧
    (∀ fresh'', ∃ store'', load_or_init init fresh'' (written d' ws') = Ok (store'', []) ∧
      stored_state (st_state store'') = stored_state (st_state store) ∧ st_usage store'' = st_usage store' ∧
      st_inbound_ip_usage store'' = st_inbound_ip_usage store ∧ st_tcp_connection_usage store'' = st_tcp_connection_usage store).
Proof.
  intros Hload Hkey d' Hsome. pose proof (resumed_keyed init fresh fresh' d store ws k Hload Hkey Hsome) as Hkey'.
  destruct (resume_start init fresh fresh' d store ws k Hload Hkey Hsome) as (store' & ws' & Hl & Hs & Hi & Ht & Hu & Hfull). fold d' in Hl, Hkey'.
  exists store', ws'. split_and!; try done. intros fresh''.
  destruct (resume_start init fresh' fresh'' d' store' ws' (length ws') Hl Hkey') as (store'' & ws'' & Hl2 & Hs2 & Hi2 & Ht2 & _ & Hfull2).
  { by apply written_keeps. }
  rewrite take_ge in Hl2 by done. destruct (Hfull2 (Nat.le_refl _)) as [Hu2 ->]. exists store''. split_and!; [done|congruence..].
Qed.
End Restart.

Arguments sa_state0 {_ _} {init fresh d store ws} s.
Arguments sa_mapping {_ _} {init fresh d store ws} s.
Arguments sa_new {_ _} {init fresh d store ws} s.
Arguments sa_upgraded {_ _} {init fresh d store ws} s.
Arguments sa_cleaned {_ _} {init fresh d store ws} s.
Arguments sa_read {_ _} {init fresh d store ws} s.
Arguments sa_inbound0 {_ _} {init fresh d store ws} s.
Arguments sa_inbound_migrated {_ _} {init fresh d store ws} s.
Arguments sa_tcp0 {_ _} {init fresh d store ws} s.
Arguments sa_tcp_migrated {_ _} {init fresh d store ws} s.
Arguments sa_load {_ _} {init fresh d store ws} s.
Arguments sa_latest {_ _} {init fresh d store ws} s.
Arguments sa_clean {_ _} {init fresh d store ws} s.
Arguments sa_usage {_ _} {init fresh d store ws} s.
Arguments sa_retain {_ _} {init fresh d store ws} s.
Arguments sa_inbound {_ _} {init fresh d store ws} s.
Arguments sa_inbound_norm {_ _} {init fresh d store ws} s.
Arguments sa_tcp {_ _} {init fresh d store ws} s.
Arguments sa_tcp_norm {_ _} {init fresh d store ws} s.
Arguments sa_writes {_ _} {init fresh d store ws} s.
