(* ===== verification/Documents.v ===== *)
(** * An instance of the documents

    The interfaces of [Store] are inhabited: values are numbered ([Countable]) and a document
    holds the number, next to the fields the sources read from raw documents - the schema
    version - and the endpoint metadata, which is JSON already. *)

From S2P Require Import Prelude Text Search Domain Clock Lifecycle Repository ReverseMesh State Command Usage InboundIp TcpUsage Migration Store.
Open Scope string_scope.
Open Scope list_scope.
Open Scope N_scope.

(** ** Entities *)

#[global] Instance QuotaResetSource_countable : Countable QuotaResetSource.
Proof. refine (inj_countable' (λ r, match r with ResetByUser => 0%nat | ResetByNode => 1%nat end) (λ n, match n with 0%nat => ResetByUser | _ => ResetByNode end) _). by intros []. Defined.
#[global] Instance UserQuotaReset_countable : Countable UserQuotaReset.
Proof. refine (inj_countable' (λ r, match r with UserUnlimited tz => inl tz | UserMonthly d tz => inr (d, tz) end) (λ x, match x with inl tz => UserUnlimited tz | inr (d, tz) => UserMonthly d tz end) _). by intros []. Defined.
#[global] Instance NodeQuotaReset_countable : Countable NodeQuotaReset.
Proof. refine (inj_countable' (λ r, match r with NodeUnlimited tz => inl tz | NodeMonthly d tz => inr (d, tz) end) (λ x, match x with inl tz => NodeUnlimited tz | inr (d, tz) => NodeMonthly d tz end) _). by intros []. Defined.
#[global] Instance Node_countable : Countable Node.
Proof. refine (inj_countable' (λ r, (n_node_id r, n_node_name r, n_access_host r, n_api_base_url r, n_quota_limit_bytes r, n_quota_reset r)) (λ '(x0, x1, x2, x3, x4, x5), mkNode x0 x1 x2 x3 x4 x5) _). by intros []. Defined.
#[global] Instance UserPriorityTier_countable : Countable UserPriorityTier.
Proof. refine (inj_countable' (λ r, match r with P1 => 0%nat | P2 => 1%nat | P3 => 2%nat end) (λ n, match n with 0%nat => P1 | 1%nat => P2 | _ => P3 end) _). by intros []. Defined.
#[global] Instance User_countable : Countable User.
Proof. refine (inj_countable' (λ r, (u_user_id r, u_display_name r, u_subscription_token r, u_credential_epoch r, u_priority_tier r, u_quota_reset r)) (λ '(x0, x1, x2, x3, x4, x5), mkUser x0 x1 x2 x3 x4 x5) _). by intros []. Defined.
#[global] Instance RealityDomain_countable : Countable RealityDomain.
Proof. refine (inj_countable' (λ r, (d_domain_id r, d_server_name r, d_disabled_node_ids r)) (λ '(x0, x1, x2), mkRealityDomain x0 x1 x2) _). by intros []. Defined.
#[global] Instance JoinSessionStatus_countable : Countable JoinSessionStatus.
Proof. refine (inj_countable' (λ r, match r with Reserved => 0%nat | LearnerRegistered => 1%nat | Consumed => 2%nat | Expired => 3%nat end) (λ n, match n with 0%nat => Reserved | 1%nat => LearnerRegistered | 2%nat => Consumed | _ => Expired end) _). by intros []. Defined.
#[global] Instance JoinSession_countable : Countable JoinSession.
Proof. refine (inj_countable' (λ r, (js_node_id r, js_request_fingerprint r, js_signed_cert_pem r, js_token_expires_at r, js_activation_deadline r, js_required_log_index r, js_status r, js_terminal_at r)) (λ '(x0, x1, x2, x3, x4, x5, x6, x7), mkJoinSession x0 x1 x2 x3 x4 x5 x6 x7) _). by intros []. Defined.
#[global] Instance MembershipOperationKind_countable : Countable MembershipOperationKind.
Proof. refine (inj_countable' (λ r, match r with Join => 0%nat | Restore => 1%nat | RemoveNode => 2%nat | RepairOrphanVoter => 3%nat end) (λ n, match n with 0%nat => Join | 1%nat => Restore | 2%nat => RemoveNode | _ => RepairOrphanVoter end) _). by intros []. Defined.
#[global] Instance MembershipOperationPhase_countable : Countable MembershipOperationPhase.
Proof. refine (inj_countable' (λ r, match r with Prepared => 0%nat | OpLearnerRegistered => 1%nat | VoterPromoted => 2%nat | MembershipRemoved => 3%nat | Completed => 4%nat | Blocked => 5%nat | OpExpired => 6%nat end) (λ n, match n with 0%nat => Prepared | 1%nat => OpLearnerRegistered | 2%nat => VoterPromoted | 3%nat => MembershipRemoved | 4%nat => Completed | 5%nat => Blocked | _ => OpExpired end) _). by intros []. Defined.
#[global] Instance MembershipOperation_countable : Countable MembershipOperation.
Proof. refine (inj_countable' (λ r, (op_operation_id r, op_kind r, op_raft_node_id r, op_node_id r, op_expected_membership r, op_phase r, op_legacy r, op_delete_endpoints r, op_expected_endpoint_ids r, op_expected_endpoint_tags r, op_created_at r, op_next_retry_at r, op_terminal_at r, op_evidence r)) (λ '(x0, x1, x2, x3, x4, x5, x6, x7, x8, x9, x10, x11, x12, x13), mkMembershipOperation x0 x1 x2 x3 x4 x5 x6 x7 x8 x9 x10 x11 x12 x13) _). by intros []. Defined.
#[global] Instance RepositoryNodeIdentity_countable : Countable RepositoryNodeIdentity.
Proof. refine (inj_countable' (λ r, (ri_node_id r, ri_ed25519_public_key r, ri_x25519_relay_public_key r)) (λ '(x0, x1, x2), mkRepositoryNodeIdentity x0 x1 x2) _). by intros []. Defined.
#[global] Instance RepositoryCapacity_countable : Countable RepositoryCapacity.
Proof. refine (inj_countable' (λ r, (cap_quota_bytes r, cap_used_bytes r, cap_filesystem_available_bytes r)) (λ '(x0, x1, x2), mkRepositoryCapacity x0 x1 x2) _). by intros []. Defined.
#[global] Instance RepositoryLifecycle_countable : Countable RepositoryLifecycle.
Proof. refine (inj_countable' (λ r, match r with Syncing => 0%nat | Ready => 1%nat | Retired => 2%nat end) (λ n, match n with 0%nat => Syncing | 1%nat => Ready | _ => Retired end) _). by intros []. Defined.
#[global] Instance RepositoryMember_countable : Countable RepositoryMember.
Proof. refine (inj_countable' (λ r, (rm_identity r, rm_lifecycle r, rm_catch_up_completed_at r, rm_ready_at r, rm_replica_converged r, rm_capacity r)) (λ '(x0, x1, x2, x3, x4, x5), mkRepositoryMember x0 x1 x2 x3 x4 x5) _). by intros []. Defined.
#[global] Instance ReverseMeshAssignment_countable : Countable ReverseMeshAssignment.
Proof. refine (inj_countable' (λ r, (ra_target_node_id r, ra_generation r, ra_membership_revision r, ra_primary_node_id r, ra_standby_node_id r, ra_credential_epoch r)) (λ '(x0, x1, x2, x3, x4, x5), mkReverseMeshAssignment x0 x1 x2 x3 x4 x5) _). by intros []. Defined.
#[global] Instance GeoDbUpdateSettingsCompat_countable : Countable GeoDbUpdateSettingsCompat.
Proof. refine (inj_countable' (λ r, (geo_provider r, geo_auto_update_enabled r, geo_update_interval_days r)) (λ '(x0, x1, x2), mkGeoDbUpdateSettingsCompat x0 x1 x2) _). by intros []. Defined.
#[global] Instance MihomoDeliveryMode_countable : Countable MihomoDeliveryMode.
Proof. refine (inj_countable' (λ r, match r with DeliveryLegacy => 0%nat | DeliveryProvider => 1%nat end) (λ n, match n with 0%nat => DeliveryLegacy | _ => DeliveryProvider end) _). by intros []. Defined.
#[global] Instance EndpointProbeNodeSample_countable : Countable EndpointProbeNodeSample.
Proof. refine (inj_countable' (λ r, (pns_ok r, pns_skipped r, pns_checked_at r, pns_latency_ms r, pns_target_id r, pns_target_url r, pns_error r, pns_config_hash r)) (λ '(x0, x1, x2, x3, x4, x5, x6, x7), mkEndpointProbeNodeSample x0 x1 x2 x3 x4 x5 x6 x7) _). by intros []. Defined.
#[global] Instance EndpointProbeHour_countable : Countable EndpointProbeHour := inj_countable' by_node mkEndpointProbeHour ltac:(by intros []).
#[global] Instance EndpointProbeHistory_countable : Countable EndpointProbeHistory := inj_countable' hours mkEndpointProbeHistory ltac:(by intros []).
#[global] Instance NodeSubscriptionRegion_countable : Countable NodeSubscriptionRegion.
Proof. refine (inj_countable' (λ r, match r with Japan => 0%nat | HongKong => 1%nat | Taiwan => 2%nat | Korea => 3%nat | Singapore => 4%nat | Us => 5%nat | Other => 6%nat end) (λ n, match n with 0%nat => Japan | 1%nat => HongKong | 2%nat => Taiwan | 3%nat => Korea | 4%nat => Singapore | 5%nat => Us | _ => Other end) _). by intros []. Defined.
#[global] Instance PersistedInboundIpGeo_countable : Countable PersistedInboundIpGeo.
Proof. refine (inj_countable' (λ r, (geo_country r, geo_region r, geo_city r, geo_operator r)) (λ '(x0, x1, x2, x3), mkPersistedInboundIpGeo x0 x1 x2 x3) _). by intros []. Defined.
#[global] Instance NodeEgressProbeState_countable : Countable NodeEgressProbeState.
Proof. refine (inj_countable' (λ r, (ep_public_ipv4 r, ep_public_ipv6 r, ep_selected_public_ip r, ep_geo r, ep_subscription_region r, ep_checked_at r, ep_last_success_at r, ep_classification_invalidated_at r, ep_error_summary r)) (λ '(x0, x1, x2, x3, x4, x5, x6, x7, x8), mkNodeEgressProbeState x0 x1 x2 x3 x4 x5 x6 x7 x8) _). by intros []. Defined.
#[global] Instance UserNodeQuotaConfig_countable : Countable UserNodeQuotaConfig.
Proof. refine (inj_countable' (λ r, (unqc_quota_limit_bytes r, unqc_quota_reset_source r)) (λ '(x0, x1), mkUserNodeQuotaConfig x0 x1) _). by intros []. Defined.
#[global] Instance UserNodeWeightConfig_countable : Countable UserNodeWeightConfig := inj_countable' unw_weight mkUserNodeWeightConfig ltac:(by intros []).
#[global] Instance UserGlobalWeightConfig_countable : Countable UserGlobalWeightConfig := inj_countable' ugw_weight mkUserGlobalWeightConfig ltac:(by intros []).
#[global] Instance NodeWeightPolicyConfig_countable : Countable NodeWeightPolicyConfig := inj_countable' inherit_global mkNodeWeightPolicyConfig ltac:(by intros []).
#[global] Instance UserMihomoProfile_countable : Countable UserMihomoProfile.
Proof. refine (inj_countable' (λ r, (mp_mixin_yaml r, mp_extra_proxies_yaml r, mp_extra_proxy_providers_yaml r)) (λ '(x0, x1, x2), mkUserMihomoProfile x0 x1 x2) _). by intros []. Defined.

(** ** Ledgers *)

#[global] Instance UserNodePacing_countable : Countable UserNodePacing.
Proof. refine (inj_countable' (λ r, (unp_bank_bytes r, unp_last_total_used_bytes r, unp_last_base_quota_bytes r, unp_last_priority_tier r)) (λ '(x0, x1, x2, x3), mkUserNodePacing x0 x1 x2 x3) _). by intros []. Defined.
#[global] Instance NodePacing_countable : Countable NodePacing.
Proof. refine (inj_countable' (λ r, (np_cycle_start_at r, np_cycle_end_at r, np_last_day_index r)) (λ '(x0, x1, x2), mkNodePacing x0 x1 x2) _). by intros []. Defined.
#[global] Instance MembershipUsage_countable : Countable MembershipUsage.
Proof. refine (inj_countable' (λ r, (mu_cycle_start_at r, mu_cycle_end_at r, mu_used_bytes r, mu_last_uplink_total r, mu_last_downlink_total r, mu_last_seen_at r, mu_quota_banned r, mu_quota_banned_at r)) (λ '(x0, x1, x2, x3, x4, x5, x6, x7), mkMembershipUsage x0 x1 x2 x3 x4 x5 x6 x7) _). by intros []. Defined.
#[global] Instance PersistedInboundIpRecord_eq_dec : EqDecision PersistedInboundIpRecord.
Proof. solve_decision. Defined.
#[global] Instance PersistedInboundIpRecord_countable : Countable PersistedInboundIpRecord.
Proof. refine (inj_countable' (λ r, (ir_bitmap r, ir_minutes r, ir_first_seen_at r, ir_last_seen_at r, ir_geo r)) (λ '(x0, x1, x2, x3, x4), mkPersistedInboundIpRecord x0 x1 x2 x3 x4) _). by intros []. Defined.
#[global] Instance PersistedInboundIpMembership_eq_dec : EqDecision PersistedInboundIpMembership.
Proof. solve_decision. Defined.
#[global] Instance PersistedInboundIpMembership_countable : Countable PersistedInboundIpMembership.
Proof. refine (inj_countable' (λ r, (im_user_id r, im_node_id r, im_endpoint_id r, im_endpoint_tag r, im_ips r)) (λ '(x0, x1, x2, x3, x4), mkPersistedInboundIpMembership x0 x1 x2 x3 x4) _). by intros []. Defined.
#[global] Instance PersistedInboundIpUsage_eq_dec : EqDecision PersistedInboundIpUsage.
Proof. solve_decision. Defined.
#[global] Instance PersistedInboundIpUsage_countable : Countable PersistedInboundIpUsage.
Proof. refine (inj_countable' (λ r, (iu_schema_version r, iu_generated_at r, iu_minutes_window r, iu_latest_minute r, iu_online_stats_unavailable r, iu_memberships r)) (λ '(x0, x1, x2, x3, x4, x5), mkPersistedInboundIpUsage x0 x1 x2 x3 x4 x5) _). by intros []. Defined.
#[global] Instance TcpConnectionUsageWarning_countable : Countable TcpConnectionUsageWarning.
Proof. refine (inj_countable' (λ r, (tw_code r, tw_message r)) (λ '(x0, x1), mkTcpConnectionUsageWarning x0 x1) _). by intros []. Defined.
#[global] Instance PersistedTcpConnectionEndpointUsage_eq_dec : EqDecision PersistedTcpConnectionEndpointUsage.
Proof. solve_decision. Defined.
#[global] Instance PersistedTcpConnectionEndpointUsage_countable : Countable PersistedTcpConnectionEndpointUsage.
Proof. refine (inj_countable' (λ r, (tu_node_id r, tu_endpoint_id r, tu_endpoint_tag r, tu_port r, tu_counts r)) (λ '(x0, x1, x2, x3, x4), mkPersistedTcpConnectionEndpointUsage x0 x1 x2 x3 x4) _). by intros []. Defined.
#[global] Instance PersistedTcpConnectionUsage_eq_dec : EqDecision PersistedTcpConnectionUsage.
Proof. solve_decision. Defined.
#[global] Instance PersistedTcpConnectionUsage_countable : Countable PersistedTcpConnectionUsage.
Proof. refine (inj_countable' (λ r, (tc_schema_version r, tc_generated_at r, tc_minutes_window r, tc_latest_minute r, tc_linux_only r, tc_last_warning r, tc_endpoints r)) (λ '(x0, x1, x2, x3, x4, x5, x6), mkPersistedTcpConnectionUsage x0 x1 x2 x3 x4 x5 x6) _). by intros []. Defined.

(** ** Documents *)

#[global,refine] Instance numbered_codec `{Countable A} : JsonCodec A := {
  to_value a := JNumber (Z.pos (encode a));
  from_value raw := match raw with JNumber (Z.pos p) => ok_or (decode p) "not a document" | _ => Err "not a document" end;
}.
Proof. intros a. by rewrite decode_encode. Defined.

Definition endpoint_fields (e : Endpoint) : string * string * string * EndpointKind * N := (e_endpoint_id e, e_node_id e, e_tag e, e_kind e, e_port e).
Definition with_meta (metas : gmap string json) (k : string) (fields : string * string * string * EndpointKind * N) : option Endpoint :=
  let '(endpoint_id, node_id, tag, kind, port) := fields in Some (mkEndpoint endpoint_id node_id tag kind port (default JNull (metas !! k))).

Definition state_fields (st : PersistedState) :=
  (ps_mihomo_resource_allow_private_targets st, ps_nodes st, ps_join_sessions st, ps_membership_operations st, endpoint_fields <$> ps_endpoints st,
   ps_endpoint_probe_history st, ps_endpoint_probe_participants_by_hour st, ps_node_egress_probes st, ps_users st, ps_reality_domains st,
   (ps_user_node_quotas st, ps_user_node_weights st, ps_user_global_weights st, ps_node_weight_policies st, ps_node_user_endpoint_memberships st,
    ps_user_auto_assign_endpoint_kinds st, ps_user_mihomo_profiles st, ps_mihomo_delivery_mode st, ps_repository_membership st, ps_reverse_mesh_epoch st,
    ps_reverse_mesh_assignments st, ps_reverse_mesh_generation_counters st, ps_geo_db_update_settings_compat st)).

Definition number_state (st : PersistedState) : json :=
  JObject {["schema_version" := JNumber (Z.of_N (ps_schema_version st)); "fields" := to_value (state_fields st); "metas" := JObject (e_meta <$> ps_endpoints st)]}.

Definition unnumber_state (raw : json) : result PersistedState string :=
  match json_get "fields" raw, json_get "metas" raw with
  | Some fields, Some (JObject metas) =>
      let? fields := from_value fields in
      let '(a, b, c, d, eps, e, f, g, h, i, (j, k, l, m, n, o, p, q, r, s, t, u, v)) := fields in
      Ok (mkPersistedState (raw_schema_version raw) 0 a b c d (map_imap (with_meta metas) eps) e f g h i j k l m n o p q r s t u v)
  | _, _ => Err "not a state"
  end.

Lemma raw_schema_version_number v o : o !! "schema_version" = Some (JNumber (Z.of_N v)) → v ≤ u32_max → raw_schema_version (JObject o) = v.
Proof.
  intros Hv Hle. unfold raw_schema_version, json_get. rewrite Hv.
  assert (u32_max ≤ u64_max) by (by vm_compute). destruct (Z.leb_spec 0 (Z.of_N v)) as [_|]; [|lia]. destruct (Z.leb_spec (Z.of_N v) (Z.of_N u64_max)) as [_|]; [|lia].
  cbn [andb]. rewrite N2Z.id. unfold wrapping. apply N.mod_small. lia.
Qed.

Lemma unnumber_number_state st : ps_schema_version st ≤ u32_max → unnumber_state (number_state st) = Ok (stored_state st).
Proof.
  intros Hv. unfold unnumber_state.
  assert (raw_schema_version (number_state st) = ps_schema_version st) as -> by (by apply raw_schema_version_number).
  assert (json_get "fields" (number_state st) = Some (to_value (state_fields st))) as -> by done.
  assert (json_get "metas" (number_state st) = Some (JObject (e_meta <$> ps_endpoints st))) as -> by done.
  rewrite from_to_value. cbn [rbind]. unfold state_fields. cbv beta iota.
  assert (map_imap (with_meta (e_meta <$> ps_endpoints st)) (endpoint_fields <$> ps_endpoints st) = ps_endpoints st) as ->; [|by destruct st].
  apply map_eq. intros k. rewrite map_lookup_imap, lookup_fmap. destruct (ps_endpoints st !! k) as [e|] eqn:He; [|done]. cbn.
  rewrite lookup_fmap, He. by destruct e.
Qed.

Definition number_usage (usage : PersistedUsage) : json :=
  JObject {["schema_version" := JNumber (Z.of_N (pu_schema_version usage));
            "fields" := to_value (pu_memberships usage, pu_user_node_pacing usage, pu_node_pacing usage, pu_user_credential_epochs_applied usage, pu_endpoint_users_applied usage)]}.
Definition unnumber_usage (raw : json) : result PersistedUsage string :=
  match json_get "fields" raw with
  | Some fields => let? fields := from_value fields in let '(a, b, c, d, e) := fields in Ok (mkPersistedUsage (raw_schema_version raw) a b c d e)
  | None => Err "not a ledger"
  end.

Lemma unnumber_number_usage usage : pu_schema_version usage ≤ u32_max → unnumber_usage (number_usage usage) = Ok usage.
Proof.
  intros Hv. unfold unnumber_usage. assert (raw_schema_version (number_usage usage) = pu_schema_version usage) as -> by (by apply raw_schema_version_number).
  assert (json_get "fields" (number_usage usage) = Some (to_value (pu_memberships usage, pu_user_node_pacing usage, pu_node_pacing usage,
    pu_user_credential_epochs_applied usage, pu_endpoint_users_applied usage))) as -> by done.
  rewrite from_to_value. by destruct usage.
Qed.

#[global,refine] Instance numbered_state_codec : StateCodec := {
  decode_state := unnumber_state;
  decode_v9 raw := Err "no document of this version";
  decode_v2 raw := Err "no document of this version";
}.
Proof.
  - intros raw st. unfold unnumber_state. destruct (json_get "fields" raw) as [f|]; [|discriminate]. destruct (json_get "metas" raw) as [[| | | | |metas]|]; try discriminate.
    destruct (from_value f) as [fields|e]; [|discriminate]. cbn [rbind]. destruct fields as [[[[[[[[[[? ?] ?] ?] ?] ?] ?] ?] ?] ?] [[[[[[[[[[[[? ?] ?] ?] ?] ?] ?] ?] ?] ?] ?] ?] ?]].
    by intros [= <-].
  - done.
Defined.

#[global,refine] Instance numbered_store_codec : StoreCodec := {
  encode_state := number_state;
  encode_usage := number_usage;
  decode_usage := unnumber_usage;
  decode_usage_v1 raw := Err "no document of this version";
}.
Proof.
  - exact unnumber_number_state.
  - exact unnumber_number_usage.
  - intros raw usage. unfold unnumber_usage. destruct (json_get "fields" raw) as [f|]; [|discriminate].
    destruct (from_value f) as [fields|e]; [|discriminate]. cbn [rbind]. destruct fields as [[[[? ?] ?] ?] ?]. by intros [= <-].
Defined.

(** ** Example *)

Module StoreSample.
(** A state of the previous version with a membership of a user that is gone, and a traffic
    ledger of version 1. *)
Definition node : Node := mkNode "n" "node" "host" "https://host" 0 NodeQuotaReset_default.
Definition endpoint : Endpoint := mkEndpoint "e" "n" "tag" Ss2022_2022Blake3Aes128Gcm 8443 JNull.
Definition old_state : PersistedState :=
  PersistedState_empty <| ps_schema_version := 12 |> <| ps_nodes := {["n" := node]} |> <| ps_endpoints := {["e" := endpoint]} |>
    <| ps_node_user_endpoint_memberships := {[mkMembership "gone" "n" "e"]} |>.
Definition disk : gmap File json := {[StateKey := encode_state old_state; UsageKey := JObject {["schema_version" := JNumber 1]}]}.
Definition init : StoreInit := mkStoreInit None "node" "host" "https://host".

Definition started : result (JsonSnapshotStore * list (File * json)) StoreError := load_or_init init "fresh" disk.
Definition outcome (r : result (JsonSnapshotStore * list (File * json)) StoreError) : JsonSnapshotStore * list (File * json) :=
  match r with
  | Ok p => p
  | Err _ => (mkStore PersistedState_empty PersistedUsage_empty PersistedInboundIpUsage_default PersistedTcpConnectionUsage_default, [])
  end.
Definition store : JsonSnapshotStore := (outcome started).1.
Definition writes : list (File * json) := (outcome started).2.

Lemma interrupted_start_resumes_witness :
  ps_node_user_endpoint_memberships (st_state store) = ∅ ∧ writes.*1 = [StateKey; UsageKey] ∧
  ∃ store' ws', load_or_init init "other" (written disk (take 1 writes)) = Ok (store', ws') ∧ stored_state (st_state store') = stored_state (st_state store).
Proof.
  split; [by vm_compute|]. split; [by vm_compute|].
  destruct (interrupted_start_resumes init "fresh" "other" disk store writes 1) as (store' & ws' & Hload & Hst & _).
  - assert (is_ok started = true) as Hok by (by vm_compute). unfold store, writes, started in *.
    destruct (load_or_init init "fresh" disk) as [[]|]; [done|discriminate].
  - assert (load_state init "fresh" disk = Ok (old_state <| ps_schema_version := 13 |>, None, false, true)) as -> by (by vm_compute).
    intros loaded [= <-]. split; intros k x; cbn.
    + by rewrite lookup_empty.
    + by intros [<- <-]%lookup_singleton_Some.
    + by intros [<- <-]%lookup_singleton_Some.
  - apply (bool_decide_unpack _). by vm_compute.
  - exists store', ws'. by split.
Defined.
End StoreSample.
