(* ===== verification/StateMachine.v ===== *)
(** * The replicated state machine

    [FileStateMachine] of [src/raft/storage/file.rs]: committed entries applied to the local
    store, the record of how far it got, snapshots taken and installed; and the facade the
    tests use in its place ([LocalRaft] of [src/raft/app.rs]).

    Operations return the writes they make, in order, with the new state of the machine; what
    a crash or a failed write leaves is the disk after a prefix of them (see [Store]). *)

From S2P Require Import Prelude Text Search Domain Clock Protocol Lifecycle Repository ReverseMesh State Command Apply Invariant RaftTypes Usage InboundIp TcpUsage Migration Store Documents.
Open Scope string_scope.
Open Scope list_scope.
Open Scope N_scope.

(** ** Records *)

Record PersistedStateMachineMeta : Type := mkSmMeta { sm_last_applied : option LogId; sm_last_membership : StoredMembership }.
Record SnapshotMeta : Type := mkSnapshotMeta { sn_last_log_id : option LogId; sn_last_membership : StoredMembership; sn_snapshot_id : string }.

Inductive ReconcileRequest : Type := RequestFull | RequestRebuildInbound (endpoint_id : string).

Record FileStateMachine : Type := mkStateMachine {
  fs_store : JsonSnapshotStore;
  fs_reconcile : list ReconcileRequest;
  fs_last_applied : option LogId;
  fs_last_membership : StoredMembership;
}.
#[export] Instance FileStateMachine_eta : Eta FileStateMachine := λ r,
  mkStateMachine (fs_store r) (fs_reconcile r) (fs_last_applied r) (fs_last_membership r).

(** The message of [openraft::StorageError::from_io_error]. *)
Inductive StorageError : Type := StorageIo (subject verb message : string).

(** ** Responses *)

(** A refused command, as the state machine answers it. *)
Definition domain_response (domain : DomainError) : ClientResponse :=
  let code := DomainError_code domain in
  let status := if bool_decide (code = "not_found") then 404 else if bool_decide (code = "conflict") then 409 else 400 in
  RespErr status code (DomainError_display domain).

(** As the facade of the tests answers it. *)
Definition map_store_error (err : StoreError) : ClientResponse :=
  match err with
  | StoreDomain domain =>
      match domain with
      | MissingUser _ | MissingNode _ | MissingEndpoint _ | RealityDomainNotFound _ => RespErr 404 "not_found" (DomainError_display domain)
      | NodeInUse _ _ | NodeEndpointSetChanged _ | NodeLifecycleOperationActive _ | EndpointChanged _ => RespErr 409 "conflict" (DomainError_display domain)
      | RealityDomainNameConflict _ => RespErr 409 "conflict" (DomainError_display domain)
      | _ => RespErr 400 "invalid_request" (DomainError_display domain)
      end
  | other => RespErr 500 "internal" (StoreError_display other)
  end.

(** ** Applying a command to the store *)

(** The endpoint whose inbound has to be rebuilt. *)
Definition rebuild_inbound (st : PersistedState) (cmd : DesiredStateCommand) : option string :=
  match cmd with
  | UpsertEndpoint endpoint _ =>
      existing ← ps_endpoints st !! e_endpoint_id endpoint;
      if negb (e_port existing =? e_port endpoint) || negb (bool_decide (e_meta existing = e_meta endpoint)) then Some (e_endpoint_id endpoint) else None
  | _ => None
  end.

(** The keys of the memberships a command may take away. *)
Definition watched_keys (st : PersistedState) (cmd : DesiredStateCommand) : option (gset string) :=
  match cmd with
  | ReplaceUserAccess user_id _ | DeleteUser user_id =>
      Some (membership_keys (filter (λ m, m_user_id m = user_id) (ps_node_user_endpoint_memberships st)))
  | DeleteEndpoint endpoint_id =>
      Some (membership_keys (filter (λ m, m_endpoint_id m = endpoint_id) (ps_node_user_endpoint_memberships st)))
  | _ => None
  end.

Section Machine.
Context `{MetaCodec} `{UrlParser} `{Rfc3339} `{EgressNotes} `{StoreCodec} `{!JsonCodec PersistedStateMachineMeta} `{!JsonCodec SnapshotMeta}.

Definition clear_key (acc : JsonSnapshotStore * list Write) (key : string) : JsonSnapshotStore * list Write :=
  let '(store, ws) := acc in
  let '(store, ws1) := store_clear_membership_usage store key in
  let '(store, ws2) := clear_membership_inbound_ip_usage store key in
  (store, ws ++ ws1 ++ ws2).

(** The usage of the memberships that went. *)
Definition clear_removed (before : option (gset string)) (cmd : DesiredStateCommand) (store : JsonSnapshotStore) : JsonSnapshotStore * list Write :=
  match before with
  | None => (store, [])
  | Some before => foldl clear_key (store, []) (bs_items (before ∖ default ∅ (watched_keys (st_state store) cmd)))
  end.

Definition clear_tcp (cmd : DesiredStateCommand) (store : JsonSnapshotStore) : JsonSnapshotStore * list Write :=
  match cmd with
  | DeleteEndpoint endpoint_id => clear_endpoint_tcp_connection_usage store endpoint_id
  | DeleteNode node_id _ _ _ => clear_node_tcp_connection_usage store node_id
  | UpsertEndpoint _ _ | UpsertNode _ _ => prune_tcp_connection_usage_endpoints store
  | _ => (store, [])
  end.

(** The store after a command, what it saved, and the outcome. *)
Definition store_command (store : JsonSnapshotStore) (cmd : DesiredStateCommand)
    : JsonSnapshotStore * list Write * result DesiredStateApplyResult StoreError :=
  let before := watched_keys (st_state store) cmd in
  let '(st', outcome) := apply cmd (st_state (state_mut store)) in
  let store := store <| st_state := st' |> in
  match outcome with
  | Err err => (store, [], Err err)
  | Ok apply_result =>
      let ws1 := save store in
      let '(store, ws2) := clear_removed before cmd store in
      let '(store, ws3) := clear_tcp cmd store in
      (store, ws1 ++ ws2 ++ ws3, Ok apply_result)
  end.

(** [LocalRaft::client_write] *)
Definition local_client_write (store : JsonSnapshotStore) (cmd : DesiredStateCommand) : JsonSnapshotStore * list Write * ClientResponse :=
  let '(store, ws, outcome) := store_command store cmd in
  (store, ws, match outcome with Ok result => RespOk result | Err err => map_store_error err end).

(** ** The machine *)

(** [FileStateMachine::open] *)
Definition sm_open (d : Disk) (store : JsonSnapshotStore) : result FileStateMachine StorageError :=
  match d !! SmMetaJson with
  | None => Ok (mkStateMachine store [] None StoredMembership_default)
  | Some raw =>
      match from_value raw with
      | Ok meta => Ok (mkStateMachine store [] (sm_last_applied meta) (sm_last_membership meta))
      | Err e => Err (StorageIo "StateMachine" "Read" e)
      end
  end.

Definition persist_meta (fs : FileStateMachine) : list Write :=
  [(SmMetaJson, to_value (mkSmMeta (fs_last_applied fs) (fs_last_membership fs)))].

(** One committed entry; an error is a failure of the storage. *)
Definition apply_entry (fs : FileStateMachine) (entry : Entry) : FileStateMachine * list Write * result ClientResponse StorageError :=
  let log_id := en_log_id entry in
  match en_payload entry with
  | Normal cmd =>
      let rebuild := rebuild_inbound (st_state (fs_store fs)) cmd in
      let '(store, ws, outcome) := store_command (fs_store fs) cmd in
      let fs := fs <| fs_store := store |> in
      match outcome with
      | Ok result =>
          let fs := fs <| fs_reconcile ::= λ l, l ++ (RequestRebuildInbound <$> option_list rebuild) |> in
          (fs <| fs_last_applied := Some log_id |>, ws, Ok (RespOk result))
      | Err (StoreDomain domain) => (fs <| fs_last_applied := Some log_id |>, ws, Ok (domain_response domain))
      | Err err => (fs, ws, Err (StorageIo "StateMachine" "Write" (StoreError_display err)))
      end
  | MembershipChange membership =>
      let fs := fs <| fs_last_membership := mkStoredMembership (Some log_id) membership |> in
      (fs <| fs_last_applied := Some log_id |>, [], Ok (RespOk Applied))
  | Blank => (fs <| fs_last_applied := Some log_id |>, [], Ok (RespOk Applied))
  end.

Fixpoint apply_entries (fs : FileStateMachine) (entries : list Entry) : FileStateMachine * list Write * result (list ClientResponse) StorageError :=
  match entries with
  | [] => (fs, [], Ok [])
  | entry :: entries =>
      let '(fs, ws, resp) := apply_entry fs entry in
      match resp with
      | Err e => (fs, ws, Err e)
      | Ok resp =>
          let '(fs, ws', resps) := apply_entries fs entries in
          (fs, ws ++ ws', match resps with Ok resps => Ok (resp :: resps) | Err e => Err e end)
      end
  end.

(** [RaftStateMachine::apply] *)
Definition sm_apply (fs : FileStateMachine) (entries : list Entry) : FileStateMachine * list Write * result (list ClientResponse) StorageError :=
  let '(fs, ws, resps) := apply_entries fs entries in
  match resps with
  | Err e => (fs, ws, Err e)
  | Ok resps => (fs <| fs_reconcile ::= λ l, l ++ [RequestFull] |>, ws ++ persist_meta fs, Ok resps)
  end.

(** ** Snapshots *)

Definition snapshot_payload (st : PersistedState) : json := JObject {["state" := encode_state st]}.

(** [build_snapshot] reads the progress and the state under separate locks. *)
Definition snapshot_meta (last_applied : option LogId) (last_membership : StoredMembership) : SnapshotMeta :=
  mkSnapshotMeta last_applied last_membership ("snapshot-" +:+ pretty (default 0 (lid_index <$> last_applied))).
Definition snapshot_writes (meta : SnapshotMeta) (st : PersistedState) : list Write :=
  [(SnapshotMetaJson, to_value meta); (SnapshotDataJson, snapshot_payload st)].
Definition build_snapshot (progress : FileStateMachine) (store : JsonSnapshotStore) : SnapshotMeta * json * list Write :=
  let meta := snapshot_meta (fs_last_applied progress) (fs_last_membership progress) in
  (meta, snapshot_payload (st_state store), snapshot_writes meta (st_state store)).

Definition snapshot_err (verb message : string) : StorageError := StorageIo "Snapshot(None)" verb message.

(** The source ignores a failure of the two writes that prune the ledgers ([let _ =]); here they
    succeed.  The reconciler is asked for a full pass. *)
Definition install_snapshot (fs : FileStateMachine) (meta : SnapshotMeta) (payload : json)
    : FileStateMachine * list Write * result unit StorageError :=
  match json_get "state" payload with
  | None => (fs, [], Err (snapshot_err "Read" "invalid snapshot payload: missing `state` field"))
  | Some raw_state =>
      let incoming_schema_version := raw_schema_version raw_state in
      let active_reverse_epoch := ps_reverse_mesh_epoch (st_state (fs_store fs)) in
      if negb (active_reverse_epoch =? 0) && (incoming_schema_version <? SCHEMA_VERSION) then
        (fs, [], Err (snapshot_err "Read" ("snapshot schema rollback is blocked after Reverse Mesh epoch " +:+ pretty active_reverse_epoch
          +:+ " was written (incoming schema " +:+ pretty incoming_schema_version +:+ ", required " +:+ pretty SCHEMA_VERSION +:+ ")")))
      else
      match migrate_state_value_to_latest raw_state with
      | Err e => (fs, [], Err (snapshot_err "Read" (StoreError_display e)))
      | Ok state =>
          let resource_revision := wrapping u64_max (ps_mihomo_resource_revision (st_state (fs_store fs)) + 1) in
          let store := (fs_store fs) <| st_state := state <| ps_mihomo_resource_revision := resource_revision |> |> in
          let ws1 := save store in
          let store := store <| st_usage ::= retain_usage (membership_keys (ps_node_user_endpoint_memberships (st_state store))) |> in
          let ws2 := save_usage store in
          let '(store, ws3) := prune_inbound_ip_usage_memberships store in
          let fs := fs <| fs_store := store |> <| fs_last_applied := sn_last_log_id meta |> <| fs_last_membership := sn_last_membership meta |> in
          (fs <| fs_reconcile ::= λ l, l ++ [RequestFull] |>,
           ws1 ++ ws2 ++ ws3 ++ persist_meta fs ++ [(SnapshotMetaJson, to_value meta); (SnapshotDataJson, payload)], Ok tt)
      end
  end.

(** The snapshot on disk, if there is one. *)
Definition get_current_snapshot (d : Disk) : result (option (SnapshotMeta * json)) StorageError :=
  match d !! SnapshotMetaJson with
  | None => Ok None
  | Some raw =>
      match from_value raw with
      | Err e => Err (snapshot_err "Read" e)
      | Ok meta =>
          match d !! SnapshotDataJson with
          | None => Err (snapshot_err "Read" "No such file or directory (os error 2)")
          | Some payload => Ok (Some (meta, payload))
          end
      end
  end.

(** * The revision counter is local

    [mihomo_resource_revision] is not stored and differs between nodes.  No command looks at
    it: states equal but for it stay so, and get the same answers. *)

Definition set_revision (r : N) (st : PersistedState) : PersistedState := st <| ps_mihomo_resource_revision := r |>.

Lemma stored_eq_revision st st' : stored_state st = stored_state st' → st' = set_revision (ps_mihomo_resource_revision st') st.
Proof. intros Heq. destruct st, st'. unfold stored_state, set_revision, update_field in *. cbn in *. injection Heq. intros. by subst. Qed.

Definition respects {A} (p : M A) : Prop :=
  ∀ st r, (p (set_revision r st)).2 = (p st).2 ∧ stored_state (p (set_revision r st)).1 = stored_state (p st).1.

Lemma respects_const {A} (r : result A StoreError) : respects (λ st, (st, r)).
Proof. by intros st rev. Qed.
Lemma respects_modify f : (∀ st r, stored_state (f (set_revision r st)) = stored_state (f st)) → respects (modify f).
Proof. intros Hf st r. split; [done|]. apply Hf. Qed.
Lemma respects_bind {A B} (p : M A) (k : A → M B) : respects p → (∀ a, respects (k a)) → respects (p ≫= k).
Proof.
  intros Hp Hk st r. destruct (Hp st r) as [Hr Hs]. unfold mbind, M_bind. destruct (p st) as [st1 r1], (p (set_revision r st)) as [st2 r2]. cbn in Hr, Hs. subst r2.
  destruct r1 as [a|e]; [|done]. apply eq_sym, stored_eq_revision in Hs as ->. apply Hk.
Qed.
Lemma respects_get {A} (k : PersistedState → M A) : (∀ st r, k (set_revision r st) = k st) → (∀ st, respects (k st)) → respects (get ≫= k).
Proof. intros Hk Hr st r. change ((get ≫= k) (set_revision r st)) with (k (set_revision r st) (set_revision r st)). rewrite Hk. apply Hr. Qed.
Lemma respects_refuse b e : respects (refuse b e).
Proof. destruct b; apply respects_const. Qed.

Lemma respects_fold {X} (f : PersistedState → X → PersistedState) l :
  (∀ st x r, f (set_revision r st) x = set_revision r (f st x)) → respects (modify (λ st, foldl f st l)).
Proof.
  intros Hf. apply respects_modify. intros st r. assert (foldl f (set_revision r st) l = set_revision r (foldl f st l)) as ->; [|done].
  revert st. induction l as [|x l IH]; intros st; [done|]. cbn. by rewrite Hf, IH.
Qed.

Lemma respects_infer user_id : respects (modify (infer_user_kinds user_id)).
Proof.
  apply respects_modify. intros st r. unfold infer_user_kinds.
  change (infer_auto_assign_endpoint_kinds_for_user (set_revision r st) (user_endpoint_ids (set_revision r st) user_id))
    with (infer_auto_assign_endpoint_kinds_for_user st (user_endpoint_ids st user_id)). by case_bool_decide.
Qed.

Ltac respects_tac :=
  repeat (intros || lazymatch goal with
  | |- respects (get ≫= _) => apply respects_get; [reflexivity|]
  | |- respects (_ ≫= _) => apply respects_bind
  | |- respects (modify (λ st, foldl _ st _)) => apply respects_fold
  | |- respects (modify (delete_endpoints_of _)) => apply respects_fold; reflexivity
  | |- respects (modify (infer_user_kinds _)) => apply respects_infer
  | |- respects (modify _) => apply respects_modify; reflexivity
  | |- respects (refuse _ _) => apply respects_refuse
  | |- respects (refuse_domain _ _) => apply respects_refuse
  | |- respects (lift _) => apply respects_const
  | |- respects (lift_domain _) => apply respects_const
  | |- respects (fail _) => apply respects_const
  | |- respects (fail_domain _) => apply respects_const
  | |- respects (mret _) => apply respects_const
  | |- respects (validate_session _) => unfold validate_session
  | |- respects (commit_session _) => unfold commit_session
  | |- respects (commit_domains _) => unfold commit_domains
  | |- respects (require_user _) => unfold require_user
  | |- respects (require_node _) => unfold require_node
  | |- respects (if ?b then _ else _) => destruct b
  | |- respects (match ?x with _ => _ end) => destruct x
  end).

Lemma respects_upsert_node node session : respects (apply_upsert_node node session).
Proof. unfold apply_upsert_node. respects_tac. Qed.

Lemma respects_begin operation node session : respects (begin_on_copy operation node session).
Proof.
  intros st r. unfold begin_on_copy. destruct node as [node|]; [|done]. destruct (respects_upsert_node node session st r) as [Hr Hs].
  destruct (apply_upsert_node node session (set_revision r st)) as [st1 r1], (apply_upsert_node node session st) as [st2 r2]. cbn in Hr, Hs. subst r1.
  destruct r2; [|done]. split; [done|]. apply eq_sym, stored_eq_revision in Hs as ->. done.
Qed.

Lemma append_sample_revision hour from st sample r : append_sample hour from (set_revision r st) sample = set_revision r (append_sample hour from st sample).
Proof. unfold append_sample. change (ps_endpoints (set_revision r st)) with (ps_endpoints st). by destruct (negb _). Qed.

Lemma apply_respects cmd : respects (apply cmd).
Proof.
  destruct cmd; cbn [apply];
    unfold apply_begin_membership_operation, apply_transition_membership_operation, apply_prune_membership_operations, apply_upsert_node, apply_delete_node,
      apply_upsert_endpoint, apply_set_reverse_mesh_epoch, apply_upsert_reverse_mesh_assignment, apply_delete_reverse_mesh_assignment, apply_delete_endpoint,
      apply_create_reality_domain, apply_patch_reality_domain, apply_delete_reality_domain, apply_reorder_reality_domains, apply_upsert_user,
      apply_delete_user, apply_reset_user_subscription_token, apply_set_user_node_quota, apply_set_user_node_weight, apply_set_user_global_weight,
      apply_set_node_weight_policy, apply_set_user_mihomo_profile, apply_replace_user_access, apply_ensure_membership, apply_bump_user_credential_epoch,
      apply_compat_noop, apply_append_endpoint_probe_samples, apply_repository_membership, apply_update_repository_member_runtime;
    respects_tac; try apply respects_begin; apply append_sample_revision.
Qed.

(** States equal but for the revision. *)
#[global] Instance same_state : Equiv PersistedState := λ st st', stored_state st = stored_state st'.
#[global] Instance same_state_equivalence : Equivalence (≡@{PersistedState}).
Proof. split; unfold equiv, same_state; congruence. Qed.

#[global] Instance apply_proper cmd : Proper ((≡) ==> (≡)) (λ st, (apply cmd st).1).
Proof. intros st st' Heq%stored_eq_revision. rewrite Heq. symmetry. apply apply_respects. Qed.
Lemma apply_answer cmd st st' : st ≡ st' → (apply cmd st).2 = (apply cmd st').2.
Proof. intros Heq%stored_eq_revision. rewrite Heq. symmetry. apply apply_respects. Qed.
#[global] Instance replay_proper : Proper ((≡) ==> (=) ==> (≡)) replay.
Proof.
  intros st st' Heq log _ <-. revert st st' Heq. induction log as [|cmd log IH]; intros st st' Heq; [done|]. cbn. apply IH. by apply apply_proper.
Qed.

(** * Applying entries *)

(** ** What a command leaves of the store *)

Definition ledger_write (w : Write) : Prop := w.1 = UsageKey ∨ w.1 = InboundIpUsageKey ∨ w.1 = TcpConnectionUsageKey.

(** The ledgers change, the state does not. *)
Definition ledgers_only (store : JsonSnapshotStore) (out : JsonSnapshotStore * list Write) : Prop :=
  st_state out.1 = st_state store ∧ Forall ledger_write out.2.

Lemma ledgers_only_nil store : ledgers_only store (store, []).
Proof. by split. Qed.

Lemma ledger_if (b : bool) (w : Write) : ledger_write w → Forall ledger_write (if b then [w] else []).
Proof. intros Hw. destruct b; [by apply Forall_singleton|by apply Forall_nil]. Qed.

Lemma clear_key_ledgers store acc key : ledgers_only store acc → ledgers_only store (clear_key acc key).
Proof.
  intros [Hst Hws]. destruct acc as [st0 ws]. cbn in Hst, Hws. unfold clear_key, store_clear_membership_usage, clear_membership_inbound_ip_usage. cbn.
  split; [done|]. cbn. rewrite !Forall_app. split_and!; [done|apply ledger_if; by left|apply ledger_if; by right; left].
Qed.

Lemma clear_removed_ledgers before cmd store : ledgers_only store (clear_removed before cmd store).
Proof.
  destruct before as [before|]; [|apply ledgers_only_nil]. unfold clear_removed. generalize (bs_items (before ∖ default ∅ (watched_keys (st_state store) cmd))).
  intros l. assert (ledgers_only store (store, [])) as Hl by apply ledgers_only_nil. revert Hl. generalize (store, [] : list Write).
  induction l as [|key l IH]; intros acc Hl; [done|]. cbn. apply IH. by apply clear_key_ledgers.
Qed.

Lemma store_tcp_ledgers store change : ledgers_only store (store_tcp store change).
Proof.
  unfold store_tcp. destruct (change (st_tcp_connection_usage store)) as [tcp changed]. split; [done|]. apply ledger_if. by right; right.
Qed.

Lemma clear_tcp_ledgers cmd store : ledgers_only store (clear_tcp cmd store).
Proof. destruct cmd; first [apply ledgers_only_nil|apply store_tcp_ledgers]. Qed.

(** The file of the state among some writes: written first if at all. *)
Definition state_write (st : PersistedState) (ws : list Write) : Prop :=
  ∃ st1 rest, ws = (StateKey, encode_state st1) :: rest ∧ st1 ≡ st ∧ Forall ledger_write rest.

Lemma bump_same st : bump_revision st ≡ st.
Proof. done. Qed.

Lemma store_command_spec store cmd :
  let '(store', ws, outcome) := store_command store cmd in
  st_state store' ≡ (apply cmd (st_state store)).1 ∧ outcome = (apply cmd (st_state store)).2 ∧
  match outcome with Ok _ => state_write (apply cmd (st_state store)).1 ws | Err _ => ws = [] end.
Proof.
  unfold store_command. pose proof (apply_proper cmd _ _ (bump_same (st_state store))) as Hst. pose proof (apply_answer cmd _ _ (bump_same (st_state store))) as Hr.
  change (st_state (state_mut store)) with (bump_revision (st_state store)). cbn in Hst.
  destruct (apply cmd (bump_revision (st_state store))) as [st' outcome]. cbn in Hst, Hr. rewrite <- Hr. destruct outcome as [res|err].
  - set (store1 := store <| st_state := st' |>). pose proof (clear_removed_ledgers (watched_keys (st_state store) cmd) cmd store1) as [Ha Hb].
    destruct (clear_removed _ cmd store1) as [store2 ws2]. cbn in Ha, Hb. pose proof (clear_tcp_ledgers cmd store2) as [Hc Hd].
    destruct (clear_tcp cmd store2) as [store3 ws3]. cbn in Hc, Hd. split_and!; [by rewrite Hc, Ha|done|].
    exists st', (ws2 ++ ws3). split_and!; [done|done|]. by apply Forall_app.
  - by split_and!.
Qed.

(** ** The specification

    A replica is the state its log produces and how far it is in the log.  An entry moves it;
    a command refused for a reason that is not a domain error stops it. *)
Record Replica : Type := mkReplica { rp_state : PersistedState; rp_last_applied : option LogId; rp_membership : StoredMembership }.

Definition replica_step (r : Replica) (entry : Entry) : option (Replica * ClientResponse) :=
  match en_payload entry with
  | Normal cmd =>
      let '(st, outcome) := apply cmd (rp_state r) in
      let r := mkReplica st (Some (en_log_id entry)) (rp_membership r) in
      match outcome with
      | Ok result => Some (r, RespOk result)
      | Err (StoreDomain domain) => Some (r, domain_response domain)
      | Err _ => None
      end
  | MembershipChange membership => Some (mkReplica (rp_state r) (Some (en_log_id entry)) (mkStoredMembership (Some (en_log_id entry)) membership), RespOk Applied)
  | Blank => Some (mkReplica (rp_state r) (Some (en_log_id entry)) (rp_membership r), RespOk Applied)
  end.

Fixpoint replica_run (r : Replica) (entries : list Entry) : option (Replica * list ClientResponse) :=
  match entries with
  | [] => Some (r, [])
  | entry :: entries =>
      '(r, resp) ← replica_step r entry;
      '(r, resps) ← replica_run r entries;
      Some (r, resp :: resps)
  end.

Definition replica_meta (r : Replica) : PersistedStateMachineMeta := mkSmMeta (rp_last_applied r) (rp_membership r).

(** The machine in memory is at the replica. *)
Record in_step (fs : FileStateMachine) (r : Replica) : Prop := {
  in_state : st_state (fs_store fs) ≡ rp_state r;
  in_last : fs_last_applied fs = rp_last_applied r;
  in_membership : fs_last_membership fs = rp_membership r;
}.

(** What the disk says of the state and of the progress. *)
Definition disk_state (d : Disk) (st : PersistedState) : Prop := ∃ st1, d !! StateKey = Some (encode_state st1) ∧ st1 ≡ st.
Definition disk_meta (d : Disk) : result PersistedStateMachineMeta string :=
  match d !! SmMetaJson with Some raw => from_value raw | None => Ok (mkSmMeta None StoredMembership_default) end.
Definition durable (d : Disk) (r : Replica) : Prop := disk_state d (rp_state r) ∧ disk_meta d = Ok (replica_meta r).

Lemma written_nil d : written d [] = d.
Proof. done. Qed.
Lemma written_single d f v : written d [(f, v)] = <[f := v]> d.
Proof. done. Qed.
Lemma written_app d ws ws' : written d (ws ++ ws') = written (written d ws) ws'.
Proof. apply foldl_app. Qed.

Lemma ledger_written d ws : Forall ledger_write ws → written d ws !! StateKey = d !! StateKey ∧ written d ws !! SmMetaJson = d !! SmMetaJson.
Proof.
  intros Hws. split.
  - destruct (written_lookup d ws StateKey) as [|(v & Hin & _)]; [done|]. rewrite Forall_forall in Hws. destruct (Hws _ Hin) as [[=]|[[=]|[=]]].
  - destruct (written_lookup d ws SmMetaJson) as [|(v & Hin & _)]; [done|]. rewrite Forall_forall in Hws. destruct (Hws _ Hin) as [[=]|[[=]|[=]]].
Qed.

(** The writes of one entry: none, or the new state and then ledgers. *)
Definition entry_writes (st : PersistedState) (ws : list Write) : Prop := ws = [] ∨ state_write st ws.

(** Any prefix of the writes of an entry leaves the state before or after it, and the progress. *)
Lemma entry_prefix d st st' ws k :
  disk_state d st → entry_writes st' ws ∧ (ws = [] → st ≡ st') →
  let d' := written d (take k ws) in
  disk_meta d' = disk_meta d ∧ (disk_state d' st ∧ k = 0%nat ∨ disk_state d' st').
Proof.
  intros Hd [[->|(st1 & rest & -> & Heq & Hrest)] Hnil] d'; subst d'.
  - rewrite take_nil. split; [done|]. right. destruct Hd as (st1 & Hd & Heq). exists st1. split; [done|]. by rewrite Heq, Hnil.
  - destruct k as [|k]; [by split; [|left]|]. cbn [take]. rewrite written_cons.
    destruct (ledger_written (<[StateKey := encode_state st1]> d) (take k rest)) as [Hs Hm]; [by apply Forall_take|]. split.
    + unfold disk_meta. rewrite Hm, lookup_insert_ne by done. done.
    + right. exists st1. rewrite Hs, lookup_insert_eq. by split.
Qed.

Lemma refused_unchanged cmd st e : (apply cmd st).2 = Err e → (apply cmd st).1 = st.
Proof. intros He. pose proof (apply_refines cmd st) as Href. destruct (apply cmd st) as [st' [res|e']]; [discriminate|]. exact Href. Qed.

Lemma apply_entry_spec fs r entry :
  in_step fs r →
  match replica_step r entry with
  | Some (r', resp) =>
      ∃ fs' ws, apply_entry fs entry = (fs', ws, Ok resp) ∧ in_step fs' r' ∧ entry_writes (rp_state r') ws ∧ (ws = [] → rp_state r ≡ rp_state r')
  | None => ∃ fs' e, apply_entry fs entry = (fs', [], Err e) ∧ in_step fs' r
  end.
Proof.
  intros [Hst Hl Hm]. unfold replica_step, apply_entry. destruct (en_payload entry) as [|cmd|membership].
  - eexists _, []. split_and!; [done|by split|by left|done].
  - pose proof (store_command_spec (fs_store fs) cmd) as Hspec. destruct (store_command (fs_store fs) cmd) as [[store' ws] outcome].
    destruct Hspec as (Hs & Ho & Hw). rewrite (apply_answer cmd _ _ Hst) in Ho. pose proof (apply_proper cmd _ _ Hst) as Hp. cbn in Hp.
    pose proof (refused_unchanged cmd (rp_state r)) as Href. destruct (apply cmd (rp_state r)) as [st' outcome']. cbn in Ho, Hp, Href. subst outcome'.
    destruct outcome as [res|err].
    + eexists _, ws. split_and!; [done|split; [cbn; by rewrite Hs, Hp|done|done]|right|].
      * destruct Hw as (st1 & rest & -> & H1' & H2'). exists st1, rest. split_and!; [done|by rewrite H1', Hp|done].
      * destruct Hw as (st1 & rest & -> & _). discriminate.
    + subst ws. specialize (Href err eq_refl). subst st'. destruct err as [| |domain| | | |];
        first [eexists _, []; split_and!; [done|split; [cbn; by rewrite Hs, Hp|done|done]|by left|done]
              |eexists _, _; split; [done|split; [cbn; by rewrite Hs, Hp|done|done]]].
  - eexists _, []. split_and!; [done|by split|by left|done].
Qed.

(** What the writes of some entries can leave on the disk. *)
Definition prefixes_ok (r : Replica) (entries : list Entry) (d : Disk) (ws : list Write) : Prop :=
  ∀ k, disk_meta (written d (take k ws)) = disk_meta d ∧
    ∃ j rj resps, replica_run r (take j entries) = Some (rj, resps) ∧ disk_state (written d (take k ws)) (rp_state rj).

Lemma prefixes_nil r entries d : disk_state d (rp_state r) → prefixes_ok r entries d [].
Proof. intros Hd k. rewrite take_nil. split; [done|]. by exists 0%nat, r, []. Qed.

Lemma prefixes_cons r r' entry entries resp d ws ws' :
  replica_step r entry = Some (r', resp) → disk_state d (rp_state r) → entry_writes (rp_state r') ws → (ws = [] → rp_state r ≡ rp_state r') →
  (disk_state (written d ws) (rp_state r') → prefixes_ok r' entries (written d ws) ws') →
  prefixes_ok r (entry :: entries) d (ws ++ ws').
Proof.
  intros Hstep Hd Hw Hnil Hrest k. rewrite take_app, written_app. destruct (decide (length ws ≤ k)%nat) as [Hge|Hlt].
  - rewrite take_ge by done. assert (disk_state (written d ws) (rp_state r') ∧ disk_meta (written d ws) = disk_meta d) as [Hd' Hm'].
    { destruct (entry_prefix d _ _ ws (S (length ws)) Hd (conj Hw Hnil)) as [Hm [[_ ?]|Hs]]; [done|]. rewrite take_ge in Hm, Hs by lia. done. }
    destruct (Hrest Hd' (k - length ws)%nat) as [Hm (j & rj & resps & Hrun & Hdj)]. split; [by rewrite Hm|].
    exists (S j), rj, (resp :: resps). split; [|done]. cbn. rewrite Hstep. cbn. by rewrite Hrun.
  - replace (k - length ws)%nat with 0%nat by lia. change (written (written d (take k ws)) (take 0 ws')) with (written d (take k ws)).
    destruct (entry_prefix d _ _ ws k Hd (conj Hw Hnil)) as [Hm [[Hs _]|Hs]]; (split; [done|]).
    + by exists 0%nat, r, [].
    + exists 1%nat, r', [resp]. split; [|done]. cbn. by rewrite Hstep.
Qed.

Lemma apply_entries_spec entries fs r d :
  in_step fs r → disk_state d (rp_state r) →
  match replica_run r entries with
  | Some (r', resps) => ∃ fs' ws, apply_entries fs entries = (fs', ws, Ok resps) ∧ in_step fs' r' ∧ disk_state (written d ws) (rp_state r') ∧ prefixes_ok r entries d ws
  | None => ∃ fs' ws e, apply_entries fs entries = (fs', ws, Err e) ∧ prefixes_ok r entries d ws
  end.
Proof.
  revert fs r d. induction entries as [|entry entries IH]; intros fs r d Hin Hd; cbn [replica_run apply_entries].
  - eexists _, []. split_and!; [done|done|done|by apply prefixes_nil].
  - pose proof (apply_entry_spec fs r entry Hin) as He. destruct (replica_step r entry) as [[r' resp]|] eqn:Hstep; cbn [mbind option_bind].
    + destruct He as (fs' & ws & Hap & Hin' & Hw & Hnil). rewrite Hap.
      assert (disk_state (written d ws) (rp_state r')) as Hd'.
      { destruct (entry_prefix d _ _ ws (S (length ws)) Hd (conj Hw Hnil)) as [Hm [[_ ?]|Hs]]; [done|]. rewrite take_ge in Hs by lia. done. }
      specialize (IH fs' r' (written d ws) Hin' Hd'). destruct (replica_run r' entries) as [[r'' resps]|]; cbn [mbind option_bind].
      * destruct IH as (fs'' & ws' & Hap' & Hin'' & Hd'' & Hpre). rewrite Hap'. eexists _, _. split_and!; [done|done|by rewrite written_app|].
        by eapply prefixes_cons.
      * destruct IH as (fs'' & ws' & e & Hap' & Hpre). rewrite Hap'. eexists _, _, _. split; [done|]. by eapply prefixes_cons.
    + destruct He as (fs' & e & Hap & Hin'). rewrite Hap. eexists _, _, _. split; [done|]. by apply prefixes_nil.
Qed.

Definition commands (entries : list Entry) : list DesiredStateCommand :=
  omap (λ entry, match en_payload entry with Normal cmd => Some cmd | _ => None end) entries.

Lemma replica_run_replay entries r r' resps : replica_run r entries = Some (r', resps) → rp_state r' = replay (rp_state r) (commands entries).
Proof.
  revert r resps. induction entries as [|entry entries IH]; intros r resps; cbn [replica_run]; [by intros [= <- _]|].
  destruct (replica_step r entry) as [[r1 resp]|] eqn:Hstep; cbn [mbind option_bind]; [|discriminate].
  destruct (replica_run r1 entries) as [[r2 resps2]|] eqn:Hrun; cbn [mbind option_bind]; [|discriminate]. intros [= <- _]. rewrite (IH _ _ Hrun).
  unfold replica_step, commands in *. cbn [omap list_omap]. destruct (en_payload entry) as [|cmd|membership]; [by injection Hstep as <- _| |by injection Hstep as <- _].
  cbn. destruct (apply cmd (rp_state r)) as [st [res|err]]; [by injection Hstep as <- _|]. destruct err; try discriminate. by injection Hstep as <- _.
Qed.

(** C3: the state machine implements the replica, and a crash never loses what it recorded.
    From a machine and a disk that are at a replica, applying a batch of committed entries
    answers what the replica answers and leaves machine and disk at the replica after the
    batch, whose state replays the commands of the batch - or, where the replica stops at a refusal, fails.  And whatever prefix of its
    writes reaches the disk, the disk holds the state of the replica after some prefix of
    the batch, with the progress recorded before the batch - or after it, once all writes
    are done: the recorded progress never runs ahead of the state. *)
Theorem batch_refines_replica (fs : FileStateMachine) (r : Replica) (d : Disk) (entries : list Entry) :
  in_step fs r → durable d r →
  let '(fs', ws, outcome) := sm_apply fs entries in
  match replica_run r entries with
  | Some (r', resps) => outcome = Ok resps ∧ rp_state r' = replay (rp_state r) (commands entries) ∧ in_step fs' r' ∧ durable (written d ws) r'
  | None => ∃ e, outcome = Err e
  end ∧
  ∀ k, ∃ j rj resps, replica_run r (take j entries) = Some (rj, resps) ∧ disk_state (written d (take k ws)) (rp_state rj) ∧
    (disk_meta (written d (take k ws)) = Ok (replica_meta r) ∨
     (length ws ≤ k)%nat ∧ rj = from_option fst r (replica_run r entries) ∧ disk_meta (written d (take k ws)) = Ok (replica_meta rj)).
Proof.
  intros Hin [Hds Hdm]. pose proof (apply_entries_spec entries fs r d Hin Hds) as Hspec. unfold sm_apply.
  destruct (replica_run r entries) as [[r' resps]|] eqn:Hrun.
  - destruct Hspec as (fs' & ws & -> & Hin' & Hd' & Hpre).
    assert (durable (written d (ws ++ persist_meta fs')) r') as Hdur.
    { rewrite written_app. unfold persist_meta. rewrite (in_last _ _ Hin'), (in_membership _ _ Hin'). split.
      - destruct Hd' as (st1 & Hst1 & Heq). exists st1. split; [|done]. by rewrite written_single, lookup_insert_ne.
      - unfold disk_meta. rewrite written_single, lookup_insert_eq. apply from_to_value. }
    split; [split_and!; [done|by eapply replica_run_replay|by destruct Hin'|done]|]. intros k. destruct (decide (length ws < k)%nat) as [Hk|Hk].
    + exists (length entries), r', resps. rewrite !take_ge by (rewrite ?length_app; cbn; lia). split_and!; [done|by destruct Hdur|right].
      split_and!; [rewrite length_app; cbn; lia|done|by destruct Hdur].
    + rewrite take_app_le by lia. destruct (Hpre k) as [Hm (j & rj & resps' & Hj & Hdj)]. exists j, rj, resps'. split_and!; [done|done|left]. by rewrite Hm.
  - destruct Hspec as (fs' & ws & e & -> & Hpre). split; [by exists e|]. intros k. destruct (Hpre k) as [Hm (j & rj & resps' & Hj & Hdj)].
    exists j, rj, resps'. split_and!; [done|done|left]. by rewrite Hm.
Qed.

(** ** Restarting *)

(** The store is loaded, then the machine opened. *)
Definition boot (init : StoreInit) (fresh : string) (d : Disk) : result (FileStateMachine * Disk) StorageError :=
  match load_or_init init fresh d with
  | Err e => Err (StorageIo "Store" "Read" (StoreError_display e))
  | Ok (store, ws) => let? fs := sm_open (written d ws) store in Ok (fs, written d ws)
  end.

(** A start followed by the entries that remain to be applied. *)
Definition attempt (init : StoreInit) (fresh : string) (d : Disk) (entries : list Entry) : Disk * option StorageError :=
  match boot init fresh d with
  | Err e => (d, Some e)
  | Ok (fs, d) =>
      let '(_, ws, outcome) := sm_apply fs entries in
      (written d ws, match outcome with Ok _ => None | Err e => Some e end)
  end.

Lemma settled_same st st' : st ≡ st' → settled st → settled st'.
Proof.
  intros Heq%stored_eq_revision Hs. rewrite Heq. destruct Hs as [[K1 K2 K3] Hp Hpr Hg Hn [I1 I2 I3]]. by split; [split|..|split].
Qed.

Lemma sm_open_meta d store meta : disk_meta d = Ok meta → sm_open d store = Ok (mkStateMachine store [] (sm_last_applied meta) (sm_last_membership meta)).
Proof. unfold disk_meta, sm_open. destruct (d !! SmMetaJson) as [raw|]; [by intros ->|by intros [= <-]]. Qed.

Section Boot.
Context (init : StoreInit) (fresh : string) (d : Disk) (r : Replica) (store : JsonSnapshotStore) (ws : list Write).
Context (Hdur : durable d r) (Hset : settled (rp_state r)) (Hver : ps_schema_version (rp_state r) = SCHEMA_VERSION).
Context (Hload : load_or_init init fresh d = Ok (store, ws)).

Lemma boot_load_state : ∃ st, st ≡ rp_state r ∧ load_state init fresh d = Ok (st, None, false, false).
Proof.
  destruct Hdur as [(st1 & Hd & Heq) _]. exists (stored_state st1). split; [exact Heq|]. apply saved_state_loads; [done|].
  rewrite <- Hver. exact (f_equal ps_schema_version Heq).
Qed.

Lemma boot_state : st_state store ≡ rp_state r.
Proof.
  destruct boot_load_state as (st & Heq & Hl). pose proof (load_start _ _ _ _ _ Hload) as s. pose proof (sa_load s) as Hl'. rewrite Hl in Hl'. injection Hl' as Hst _ _ _.
  pose proof (sa_clean s) as Hc. rewrite <- Hst, settled_clean in Hc by (by apply (settled_same (rp_state r))). injection Hc as <- _. done.
Qed.

(** The files of a start leave the state and the progress. *)
Lemma boot_durable : durable (written d ws) r.
Proof.
  pose proof (load_start _ _ _ _ _ Hload) as s. split.
  - destruct (start_prefix s (length ws) StateKey) as [Hsame|[_ Hsaved]]; rewrite take_ge in * by done.
    + destruct Hdur as [(st1 & Hd & Heq) _]. exists st1. by rewrite Hsame.
    + exists (st_state store). split; [done|apply boot_state].
  - destruct (start_prefix s (length ws) SmMetaJson) as [Hsame|[[v Hv] _]]; [|discriminate]. rewrite take_ge in Hsame by done.
    unfold disk_meta. rewrite Hsame. by destruct Hdur as [_ ?].
Qed.

Lemma boot_ok : ∃ fs, boot init fresh d = Ok (fs, written d ws) ∧ in_step fs r.
Proof.
  unfold boot. rewrite Hload. destruct boot_durable as [_ Hm]. rewrite (sm_open_meta _ _ _ Hm). eexists. split; [done|]. split; [apply boot_state|done|done].
Qed.

(** Starting again finds the same and writes nothing. *)
Lemma boot_again fresh' : ∃ store', load_or_init init fresh' (written d ws) = Ok (store', []).
Proof.
  destruct (resume_start init fresh fresh' d store ws (length ws) Hload) as (store' & ws' & Hl & _ & _ & _ & _ & Hnil).
  - destruct boot_load_state as (st & Heq & Hl). rewrite Hl. intros loaded [= <-]. cbn. by apply (settled_same (rp_state r)).
  - destruct boot_durable as [(st1 & Hd & _) _]. rewrite take_ge by done. by eexists.
  - rewrite take_ge in Hl by done. destruct (Hnil (Nat.le_refl _)) as [_ ->]. by exists store'.
Qed.
End Boot.

(** C25: a command refused for a reason that is not a domain error stops the node for good.
    Let the disk be at a replica whose next committed entry carries such a command.  The
    start succeeds, applying the entry fails as a failure of the storage, nothing of it is
    recorded, and every later start meets the same entry on the same disk: no number of
    restarts gets past it. *)
Theorem refused_entry_halts (init : StoreInit) (fresh : string) (d : Disk) (r : Replica) (store : JsonSnapshotStore) (ws : list Write) (entry : Entry) :
  durable d r → settled (rp_state r) → ps_schema_version (rp_state r) = SCHEMA_VERSION →
  load_or_init init fresh d = Ok (store, ws) → replica_step r entry = None →
  ∀ fresh' rest, ∃ err, attempt init fresh' (written d ws) (entry :: rest) = (written d ws, Some err).
Proof.
  intros Hdur Hset Hver Hload Hstep fresh' rest. pose proof (boot_durable init fresh d r store ws Hdur Hset Hver Hload) as Hdur'.
  destruct (boot_again init fresh d r store ws Hdur Hset Hver Hload fresh') as [store' Hload'].
  destruct (boot_ok init fresh' (written d ws) r store' [] Hdur' Hset Hver Hload') as (fs & Hboot & Hin). unfold attempt. rewrite Hboot.
  pose proof (apply_entry_spec fs r entry Hin) as He. rewrite Hstep in He. destruct He as (fs' & e & Hap & _). unfold sm_apply. cbn [apply_entries]. rewrite Hap.
  by exists e.
Qed.

Lemma apply_one_state fs entry cmd : en_payload entry = Normal cmd → st_state (fs_store (sm_apply fs [entry]).1.1) ≡ (apply cmd (st_state (fs_store fs))).1.
Proof.
  intros Hpay. unfold sm_apply. cbn [apply_entries]. unfold apply_entry. rewrite Hpay. pose proof (store_command_spec (fs_store fs) cmd) as Hs.
  destruct (store_command (fs_store fs) cmd) as [[store' ws'] outcome]. destruct Hs as (Hs & _). destruct outcome as [?|[| |?| | | |]]; cbn; exact Hs.
Qed.

(** C26: an entry whose record of progress was lost is applied twice.  Let a machine at a replica
    apply one entry whose command succeeds, and let the crash come after the state file was
    written and before the progress was.  The next start has the state with the command
    applied and the progress without it, so the entry is applied again: the state that
    results is that of applying the command twice. *)
Theorem crash_applies_twice (init : StoreInit) (fresh : string) (d : Disk) (fs fs1 : FileStateMachine) (d2 : Disk) (r : Replica) (entry : Entry)
    (cmd : DesiredStateCommand) (res : DesiredStateApplyResult) :
  in_step fs r → durable d r → en_payload entry = Normal cmd → (apply cmd (rp_state r)).2 = Ok res →
  settled (apply cmd (rp_state r)).1 → ps_schema_version (apply cmd (rp_state r)).1 = SCHEMA_VERSION →
  let d1 := written d (take 1 (sm_apply fs [entry]).1.2) in
  boot init fresh d1 = Ok (fs1, d2) →
  fs_last_applied fs1 = rp_last_applied r ∧
  st_state (fs_store (sm_apply fs1 [entry]).1.1) ≡ (apply cmd (apply cmd (rp_state r)).1).1.
Proof.
  intros Hin Hdur Hpay Hok Hset Hver d1 Hboot. set (r1 := mkReplica (apply cmd (rp_state r)).1 (rp_last_applied r) (rp_membership r)).
  assert (durable d1 r1) as Hdur1.
  { pose proof (apply_entry_spec fs r entry Hin) as He. unfold replica_step in He. rewrite Hpay in He.
    destruct (apply cmd (rp_state r)) as [st' outcome] eqn:Hap. cbn in Hok, Hset, Hver, r1. subst outcome. destruct He as (fs' & ws & Heq & Hin' & [->|Hw] & Hnil).
    - unfold apply_entry in Heq. rewrite Hpay in Heq. pose proof (store_command_spec (fs_store fs) cmd) as Hs.
      destruct (store_command (fs_store fs) cmd) as [[store' ws] outcome]. destruct Hs as (_ & Ho & Hw).
      rewrite (apply_answer cmd _ _ (in_state _ _ Hin)), Hap in Ho. cbn in Ho. subst outcome. destruct Hw as (st1 & rest & -> & _). discriminate.
    - destruct Hw as (st1 & rest & -> & Hst1 & _). unfold d1, sm_apply. cbn [apply_entries]. rewrite Heq. cbn [fst snd]. rewrite <- app_assoc. cbn [app take].
      rewrite written_single. destruct Hdur as [_ Hm]. split.
      + exists st1. by rewrite lookup_insert_eq.
      + unfold disk_meta in *. by rewrite lookup_insert_ne. }
  unfold boot in Hboot. destruct (load_or_init init fresh d1) as [[store ws]|e] eqn:Hload; [|discriminate].
  destruct (boot_ok init fresh d1 r1 store ws Hdur1 Hset Hver Hload) as (fs' & Hb & Hin1). unfold boot in Hb. rewrite Hload in Hb. rewrite Hboot in Hb.
  injection Hb as <- _. split; [exact (in_last _ _ Hin1)|].
  rewrite (apply_one_state fs1 entry cmd Hpay). apply apply_proper. exact (in_state _ _ Hin1).
Qed.

(** * Snapshots *)

(** A state a snapshot is installed from as it is. *)
Definition transferable (st : PersistedState) : Prop :=
  settled st ∧ ps_schema_version st = SCHEMA_VERSION ∧ ∀ n, is_Some (ps_node_egress_probes st !! n) → is_Some (ps_nodes st !! n).

Lemma clean_endpoints_settled st : settled st → clean_endpoints_and_probes st = st.
Proof.
  intros Hs. unfold clean_endpoints_and_probes. assert (st <| ps_endpoints ::= fmap drop_public_domain |> = st) as ->.
  { transitivity (st <| ps_endpoints := drop_public_domain <$> ps_endpoints st |>); [done|]. rewrite map_fmap_all by apply Hs. by destruct st. }
  by rewrite prune_probes_id by apply Hs.
Qed.

Lemma normalize_indexes_steps st :
  normalize_indexes st = build_memberships (clean_memberships (clean_auto_assign (clean_node_policies (clean_global_weights st)))).
Proof. unfold normalize_indexes. cbv zeta. unfold build_memberships, clean_memberships, clean_auto_assign, clean_node_policies, clean_global_weights. reflexivity. Qed.

Lemma clean_base_steps st :
  clean_base st = clean_memberships (clean_auto_assign (clean_node_policies (clean_global_weights (clean_endpoints_and_probes st)))).
Proof. reflexivity. Qed.

Lemma normalize_indexes_settled st : settled st → normalize_indexes st = st.
Proof.
  intros Hs. pose proof (settled_clean st Hs) as Hc. apply (f_equal fst) in Hc. rewrite clean_state_base, clean_base_steps, clean_endpoints_settled in Hc by done.
  rewrite normalize_indexes_steps. exact Hc.
Qed.

Lemma upgrade_saved st : ps_schema_version st = SCHEMA_VERSION → upgrade_document (encode_state st) = Ok (stored_state st, None).
Proof.
  intros Hv. pose proof (saved_state_loads (mkStoreInit None EmptyString EmptyString EmptyString) EmptyString {[StateKey := encode_state st]} st) as Hl.
  rewrite lookup_singleton_eq in Hl. specialize (Hl eq_refl Hv). unfold load_state in Hl. rewrite lookup_singleton_eq in Hl.
  destruct (upgrade_document (encode_state st)) as [[st' mapping]|e]; [|discriminate]. by injection Hl as -> -> _.
Qed.

(** What the clean-up leaves as it is: a state that is settled without its probe records and the
    redundant field of its endpoints is installed with these cleaned and otherwise as it is. *)
Lemma migrate_saved_state st :
  settled (clean_endpoints_and_probes st) → ps_schema_version st = SCHEMA_VERSION →
  (∀ n, is_Some (ps_node_egress_probes st !! n) → is_Some (ps_nodes st !! n)) →
  migrate_state_value_to_latest (encode_state st) = Ok (stored_state (clean_endpoints_and_probes st)).
Proof.
  intros Hs Hv He. apply settled_stored in Hs. unfold migrate_state_value_to_latest. rewrite (upgrade_saved st Hv).
  cbn [rbind fst]. unfold check_latest. change (ps_schema_version (stored_state st)) with (ps_schema_version st). rewrite Hv, N.eqb_refl. cbn [negb rbind]. f_equal.
  change (clean_endpoints_and_probes (stored_state st)) with (stored_state (clean_endpoints_and_probes st)). set (st1 := stored_state (clean_endpoints_and_probes st)) in *.
  assert (st1 <| ps_node_egress_probes ::= filter (λ '(node_id, _), is_Some (ps_nodes st1 !! node_id)) |> = st1) as ->;
    [|by apply normalize_indexes_settled].
  transitivity (st1 <| ps_node_egress_probes := ps_node_egress_probes st |>); [|by destruct st]. unfold update_field. cbn. f_equal.
  apply map_filter_all. intros n p Hn. apply He. by eexists.
Qed.

Lemma install_cleaned_spec fs meta st st' :
  ps_schema_version st = SCHEMA_VERSION → migrate_state_value_to_latest (encode_state st) = Ok (stored_state st') →
  ∃ fs' ws, install_snapshot fs meta (snapshot_payload st) = (fs', ws, Ok tt) ∧
    st_state (fs_store fs') ≡ st' ∧ fs_last_applied fs' = sn_last_log_id meta ∧ fs_last_membership fs' = sn_last_membership meta ∧
    dom (pu_memberships (st_usage (fs_store fs'))) ⊆ membership_keys (ps_node_user_endpoint_memberships st') ∧
    ∀ d, disk_state (written d ws) st' ∧ disk_meta (written d ws) = Ok (mkSmMeta (sn_last_log_id meta) (sn_last_membership meta)) ∧
         get_current_snapshot (written d ws) = Ok (Some (meta, snapshot_payload st)).
Proof.
  intros Hv Hmig. unfold install_snapshot. change (json_get "state" (snapshot_payload st)) with (Some (encode_state st)). cbv iota beta.
  assert (raw_schema_version (encode_state st) = SCHEMA_VERSION) as Hver.
  { assert (decode_state (encode_state st) = Ok (stored_state st)) as Hdec by (apply decode_encode_state; by rewrite Hv).
    rewrite <- (decode_state_version _ _ Hdec). exact Hv. }
  rewrite Hver, N.ltb_irrefl, andb_false_r, Hmig.
  set (store1 := (fs_store fs) <| st_state := _ |>). unfold prune_inbound_ip_usage_memberships.
  set (store2 := store1 <| st_usage ::= _ |>). destruct (normalize (st_inbound_ip_usage store2) _) as [inbound changed].
  eexists _, _. split; [done|]. split_and!; [done|done|done| |].
  - cbn. intros k [u [_ Hu]%map_lookup_filter_Some]%elem_of_dom. exact Hu.
  - intros d. rewrite !written_app. set (d1 := written d _). set (d2 := written d1 _). set (d3 := written d2 _).
    assert (disk_state d3 st') as (st1 & Hst1 & Heq).
    { exists (st_state store1). split; [|done]. unfold d3, d2. destruct changed; cbn; by rewrite ?lookup_insert_ne, lookup_insert_eq by done. }
    clearbody d3. unfold persist_meta. rewrite !written_cons, !written_nil. split_and!.
    + exists st1. split; [|done]. by rewrite !lookup_insert_ne by done.
    + unfold disk_meta. rewrite !lookup_insert_ne, lookup_insert_eq by done. apply from_to_value.
    + unfold get_current_snapshot. by rewrite lookup_insert_ne, !lookup_insert_eq, from_to_value by done.
Qed.

Lemma install_snapshot_spec fs meta st :
  transferable st →
  ∃ fs' ws, install_snapshot fs meta (snapshot_payload st) = (fs', ws, Ok tt) ∧
    st_state (fs_store fs') ≡ st ∧ fs_last_applied fs' = sn_last_log_id meta ∧ fs_last_membership fs' = sn_last_membership meta ∧
    dom (pu_memberships (st_usage (fs_store fs'))) ⊆ membership_keys (ps_node_user_endpoint_memberships st) ∧
    ∀ d, disk_state (written d ws) st ∧ disk_meta (written d ws) = Ok (mkSmMeta (sn_last_log_id meta) (sn_last_membership meta)) ∧
         get_current_snapshot (written d ws) = Ok (Some (meta, snapshot_payload st)).
Proof.
  intros (Hs & Hv & He). apply install_cleaned_spec; [done|]. rewrite migrate_saved_state; [by rewrite clean_endpoints_settled| |done|done].
  by rewrite clean_endpoints_settled.
Qed.

Lemma transferable_same st st' : st ≡ st' → transferable st → transferable st'.
Proof.
  intros Heq (Hs & Hv & He). split_and!; [by apply (settled_same st)|rewrite <- Hv; symmetry; exact (f_equal ps_schema_version Heq)|].
  apply stored_eq_revision in Heq. by rewrite Heq.
Qed.

(** ** What an installed state has of the one it was taken from *)

(** The result of the probe of an endpoint by a node in an hour, and the nodes that took part. *)
Definition probed (st : PersistedState) (endpoint_id hour node_id : string) (x : EndpointProbeNodeSample) : Prop :=
  ∃ history bucket, ps_endpoint_probe_history st !! endpoint_id = Some history ∧ hours history !! hour = Some bucket ∧ by_node bucket !! node_id = Some x.
Definition participated (st : PersistedState) (hour node_id : string) : Prop :=
  ∃ ids, ps_endpoint_probe_participants_by_hour st !! hour = Some ids ∧ node_id ∈ ids.

Record same_but_probes (st st' : PersistedState) : Prop := {
  kp_rest : st' = st <| ps_endpoints := ps_endpoints st' |> <| ps_endpoint_probe_history := ps_endpoint_probe_history st' |>
                     <| ps_endpoint_probe_participants_by_hour := ps_endpoint_probe_participants_by_hour st' |>;
  kp_endpoints : ∀ k, ps_endpoints st' !! k = drop_public_domain <$> ps_endpoints st !! k;
  kp_probed : ∀ e h n x, probed st' e h n x ↔ probed st e h n x ∧ is_Some (ps_nodes st !! n);
  kp_participated : ∀ h n, participated st' h n ↔ participated st h n ∧ is_Some (ps_nodes st !! n);
}.

Lemma pruned_history known history h n x :
  (∃ bucket, hours (prune_history known history) !! h = Some bucket ∧ by_node bucket !! n = Some x) ↔
  (∃ bucket, hours history !! h = Some bucket ∧ by_node bucket !! n = Some x) ∧ n ∈ known.
Proof.
  unfold prune_history. cbn. setoid_rewrite map_lookup_filter_Some. setoid_rewrite lookup_fmap_Some. split.
  - intros (bucket & [(b0 & <- & Hb0) _] & Hn). cbn in Hn. apply map_lookup_filter_Some in Hn as [Hn Hk]. eauto.
  - intros [(b0 & Hb0 & Hn) Hk]. exists (prune_bucket known b0).
    assert (by_node (prune_bucket known b0) !! n = Some x) as Hx by (by apply map_lookup_filter_Some).
    split_and!; [by exists b0| |done]. intros Hemp. by rewrite Hemp in Hx.
Qed.

Lemma cleaned_same_but_probes st : same_but_probes st (clean_endpoints_and_probes st).
Proof.
  unfold clean_endpoints_and_probes, prune_deleted_nodes_from_endpoint_probe_tracking. cbn [fst]. split; [by destruct st|..].
  - intros k. cbn. by rewrite lookup_fmap.
  - intros e h n x. unfold probed. cbn. rewrite <-elem_of_dom. setoid_rewrite map_lookup_filter_Some. setoid_rewrite lookup_fmap_Some. split.
    + intros (history & bucket & [(h0 & <- & Hh0) _] & Hrest). destruct (proj1 (pruned_history (dom (ps_nodes st)) h0 h n x)) as [(b & ? & ?) ?]; [by exists bucket|]. eauto 10.
    + intros [(h0 & b0 & Hh0 & Hb0 & Hx) Hk]. destruct (proj2 (pruned_history (dom (ps_nodes st)) h0 h n x)) as (b & Hb & Hbx); [eauto|].
      exists (prune_history (dom (ps_nodes st)) h0), b. split_and!; [by exists h0| |done|done]. intros Hemp. by rewrite Hemp in Hb.
  - intros h n. unfold participated. cbn. rewrite <-elem_of_dom. setoid_rewrite map_lookup_filter_Some. setoid_rewrite lookup_fmap_Some. split.
    + intros (ids & [(i0 & <- & Hi0) _] & Hn). apply elem_of_intersection in Hn as [? ?]. eauto.
    + intros [(i0 & Hi0 & Hn) Hk]. exists (i0 ∩ dom (ps_nodes st)). assert (n ∈ i0 ∩ dom (ps_nodes st)) as Hin by set_solver.
      split_and!; [by exists i0| |done]. intros Hemp. rewrite Hemp in Hin. set_solver.
Qed.

(** The invariant of the replicated state leaves nothing else to clean. *)
Lemma invariant_settles st : state_inv st → settled (clean_endpoints_and_probes st).
Proof.
  intros [Hk _ Hi Hr _ _ _ _]. pose proof (clean_same_base st) as Hb. split.
  - by apply (same_base_keyed st).
  - intros k e He. pose proof (kp_endpoints _ _ (cleaned_same_but_probes st) k) as Hk'. rewrite He in Hk'. destruct (ps_endpoints st !! k); [|done].
    injection Hk' as ->. apply drop_public_domain_idem.
  - apply prune_probes_clean.
  - apply Hr.
  - apply Hr.
  - by apply (same_base_in_step st).
Qed.

(** C5: a snapshot carries a replica to another node.  Take a snapshot of a machine at a replica
    whose state came about by commands (from a state with the invariant and the current schema),
    with nothing applied in between, and install it on any machine.  The machine and its disk
    are then at a replica with the same progress, membership and state, except that probe
    results of nodes that do not exist and a redundant field of endpoints are gone, and exactly
    these; where there are none, the state is the same.  No traffic is recorded there for
    memberships that do not exist, and the snapshot on disk is the one that was installed. *)
Theorem snapshot_transfers_replica (fs fs2 : FileStateMachine) (r : Replica) (d : Disk) (st0 : PersistedState) (log : list DesiredStateCommand) :
  state_inv st0 → ps_schema_version st0 = SCHEMA_VERSION → Forall command_ok log → rp_state r = replay st0 log → in_step fs r →
  let '(meta, payload, _) := build_snapshot fs (fs_store fs) in
  let '(fs2', ws, outcome) := install_snapshot fs2 meta payload in
  outcome = Ok tt ∧ get_current_snapshot (written d ws) = Ok (Some (meta, payload)) ∧
  ∃ st', same_but_probes (rp_state r) st' ∧
    (probes_clean (rp_state r) → map_Forall (λ _ e, drop_public_domain e = e) (ps_endpoints (rp_state r)) → st' = rp_state r) ∧
    let r' := mkReplica st' (rp_last_applied r) (rp_membership r) in
    in_step fs2' r' ∧ durable (written d ws) r' ∧
    dom (pu_memberships (st_usage (fs_store fs2'))) ⊆ membership_keys (ps_node_user_endpoint_memberships st').
Proof.
  intros Hi0 Hv0 Hlog Hr [Hst Hl Hm]. assert (state_inv (rp_state r)) as Hinv by (rewrite Hr; by apply state_inv_replay).
  assert (ps_schema_version (rp_state r) = SCHEMA_VERSION) as Hv by (by rewrite Hr, schema_version_replay).
  pose proof (invariant_settles _ Hinv) as Hset. unfold build_snapshot.
  set (st := st_state (fs_store fs)) in *. set (meta := snapshot_meta _ _).
  assert (clean_endpoints_and_probes st ≡ clean_endpoints_and_probes (rp_state r)) as Hclean.
  { apply stored_eq_revision in Hst. rewrite Hst. by destruct (rp_state r). }
  destruct (install_cleaned_spec fs2 meta st (clean_endpoints_and_probes st)) as (fs2' & ws & -> & Hs & Hla & Hlm & Hu & Hd).
  { rewrite <-Hv. exact (f_equal ps_schema_version Hst). }
  { apply migrate_saved_state; [by apply (settled_same (clean_endpoints_and_probes (rp_state r)))|rewrite <-Hv; exact (f_equal ps_schema_version Hst)|].
    intros n. change (ps_node_egress_probes st) with (ps_node_egress_probes (stored_state st)). change (ps_nodes st) with (ps_nodes (stored_state st)).
    rewrite Hst. apply (ro_egress _ (si_references _ Hinv)). }
  destruct (Hd d) as ((st1 & Hd1 & Heq1) & Hd2 & Hd3). split_and!; [done|exact Hd3|].
  exists (clean_endpoints_and_probes (rp_state r)). split_and!; [apply cleaned_same_but_probes| | | |].
  - intros Hp Hdom. apply clean_endpoints_settled. destruct Hinv as [? ? ? [] ? ? ? ?]. by split.
  - split; [by etrans|by rewrite Hla, <- Hl|by rewrite Hlm, <- Hm].
  - split; [exists st1; split; [done|by etrans]|]. rewrite Hd2. unfold replica_meta. by rewrite <- Hl, <- Hm.
  - assert (ps_node_user_endpoint_memberships (clean_endpoints_and_probes (rp_state r)) = ps_node_user_endpoint_memberships (clean_endpoints_and_probes st)) as ->
      by (symmetry; exact (f_equal ps_node_user_endpoint_memberships Hclean)).
    exact Hu.
Qed.

(** C27: a snapshot taken while an entry is applied makes other nodes apply it twice.  The
    builder reads the progress of a machine at a replica, the machine applies an entry, the
    builder reads the state.  A node that installs the result is told to go on from the
    entry it already has: applying it leaves the state of applying the command twice. *)
Theorem racing_snapshot_applies_twice (fs fs2 : FileStateMachine) (r : Replica) (entry : Entry) (cmd : DesiredStateCommand) :
  in_step fs r → en_payload entry = Normal cmd → transferable (apply cmd (rp_state r)).1 →
  let fs' := (sm_apply fs [entry]).1.1 in
  let '(meta, payload, _) := build_snapshot fs (fs_store fs') in
  let '(fs2', _, outcome) := install_snapshot fs2 meta payload in
  outcome = Ok tt ∧ fs_last_applied fs2' = rp_last_applied r ∧
  st_state (fs_store (sm_apply fs2' [entry]).1.1) ≡ (apply cmd (apply cmd (rp_state r)).1).1.
Proof.
  intros [Hst Hl Hm] Hpay Ht fs'. pose proof (apply_one_state fs entry cmd Hpay) as Hfs'. fold fs' in Hfs'. rewrite (apply_proper cmd _ _ Hst) in Hfs'.
  unfold build_snapshot. assert (transferable (st_state (fs_store fs'))) as Ht' by (by apply (transferable_same (apply cmd (rp_state r)).1)).
  destruct (install_snapshot_spec fs2 (snapshot_meta (fs_last_applied fs) (fs_last_membership fs)) _ Ht') as (fs2' & ws & -> & Hs & Hla & _).
  split_and!; [done|by rewrite Hla, <- Hl|]. rewrite (apply_one_state fs2' entry cmd Hpay). apply apply_proper. by rewrite Hs.
Qed.

(** C28: a crash between the two files of a snapshot leaves one that loses entries.  The disk
    has the snapshot of an earlier replica; a later one is taken and the crash comes after
    its description was written and before its data.  The snapshot on disk then describes
    the later replica and holds the earlier state: a node that installs it records the
    progress of the one with the state of the other, and what lies between is never applied
    there. *)
Theorem torn_snapshot_loses_entries (fs fs2 : FileStateMachine) (r0 r : Replica) (d : Disk) (meta0 : SnapshotMeta) :
  in_step fs r → transferable (rp_state r0) → get_current_snapshot d = Ok (Some (meta0, snapshot_payload (rp_state r0))) →
  let '(meta, _, ws) := build_snapshot fs (fs_store fs) in
  get_current_snapshot (written d (take 1 ws)) = Ok (Some (meta, snapshot_payload (rp_state r0))) ∧
  let '(fs2', _, outcome) := install_snapshot fs2 meta (snapshot_payload (rp_state r0)) in
  outcome = Ok tt ∧ fs_last_applied fs2' = rp_last_applied r ∧ st_state (fs_store fs2') ≡ rp_state r0.
Proof.
  intros [Hst Hl Hm] Ht Hcur. unfold build_snapshot. set (meta := snapshot_meta _ _). split.
  - unfold snapshot_writes. cbn [take]. rewrite written_single. unfold get_current_snapshot in *. rewrite lookup_insert_eq, from_to_value, lookup_insert_ne by done.
    destruct (d !! SnapshotMetaJson) as [raw|]; [|discriminate]. destruct (from_value raw); [|discriminate].
    destruct (d !! SnapshotDataJson) as [payload|]; [|discriminate]. by injection Hcur as _ ->.
  - destruct (install_snapshot_spec fs2 meta _ Ht) as (fs2' & ws & -> & Hs & Hla & _). split_and!; [done|by rewrite Hla, <- Hl|done].
Qed.

(** The facade of the tests and the machine answer refused commands alike, except that a
    missing user, node or endpoint is answered 404 by the one and 400 by the other, and
    that refusals which are not domain errors are answers (500) of the one only. *)
Theorem responses_agree (domain : DomainError) :
  domain_response domain = map_store_error (StoreDomain domain) ↔
  match domain with MissingUser _ | MissingNode _ | MissingEndpoint _ => False | _ => True end.
Proof. destruct domain; cbn; split; done. Qed.
End Machine.

(** ** Examples *)

#[global] Instance LogId_eq_dec : EqDecision LogId.
Proof. solve_decision. Defined.
#[global] Instance LogId_countable : Countable LogId.
Proof. refine (inj_countable' (λ l, (lid_term l, lid_node_id l, lid_index l)) (λ '(a, b, c), mkLogId a b c) _). by intros []. Defined.
#[global] Instance NodeMeta_eq_dec : EqDecision NodeMeta.
Proof. solve_decision. Defined.
#[global] Instance NodeMeta_countable : Countable NodeMeta.
Proof. refine (inj_countable' (λ m, (nm_name m, nm_api_base_url m, nm_raft_endpoint m)) (λ '(a, b, c), mkNodeMeta a b c) _). by intros []. Defined.
#[global] Instance Membership_eq_dec : EqDecision Membership.
Proof. solve_decision. Defined.
#[global] Instance Membership_countable : Countable Membership.
Proof. refine (inj_countable' (λ m, (mb_joint_config m, mb_nodes m)) (λ '(a, b), mkMembershipConfig a b) _). by intros []. Defined.
#[global] Instance StoredMembership_eq_dec : EqDecision StoredMembership.
Proof. solve_decision. Defined.
#[global] Instance StoredMembership_countable : Countable StoredMembership.
Proof. refine (inj_countable' (λ m, (sm_log_id m, sm_membership m)) (λ '(a, b), mkStoredMembership a b) _). by intros []. Defined.
#[global] Instance PersistedStateMachineMeta_eq_dec : EqDecision PersistedStateMachineMeta.
Proof. solve_decision. Defined.
#[global] Instance PersistedStateMachineMeta_countable : Countable PersistedStateMachineMeta.
Proof. refine (inj_countable' (λ m, (sm_last_applied m, sm_last_membership m)) (λ '(a, b), mkSmMeta a b) _). by intros []. Defined.
#[global] Instance SnapshotMeta_eq_dec : EqDecision SnapshotMeta.
Proof. solve_decision. Defined.
#[global] Instance SnapshotMeta_countable : Countable SnapshotMeta.
Proof. refine (inj_countable' (λ m, (sn_last_log_id m, sn_last_membership m, sn_snapshot_id m)) (λ '(a, b, c), mkSnapshotMeta a b c) _). by intros []. Defined.

Module MachineSample.
#[local] Existing Instances serde_codec digits_clock.
#[local] Instance no_urls : UrlParser := λ _, None.
#[local] Instance no_notes : EgressNotes := λ _, None.

Definition user (epoch : N) : User := mkUser "u" "User" "token" epoch P2 UserQuotaReset_default.
Definition state (epoch : N) : PersistedState := PersistedState_empty <| ps_users := {["u" := user epoch]} |>.
Definition log_id (index : N) : LogId := mkLogId 1 1 index.
Definition bump : Entry := mkEntry (log_id 5) (Normal (BumpUserCredentialEpoch "u")).
(** The second of two requests to drop the same assignment. *)
Definition stale : Entry := mkEntry (log_id 6) (Normal (DeleteReverseMeshAssignment "n1" (Some 1))).

Definition store (epoch : N) : JsonSnapshotStore := mkStore (state epoch) PersistedUsage_empty PersistedInboundIpUsage_default PersistedTcpConnectionUsage_default.
Definition machine : FileStateMachine := mkStateMachine (store 0) [] None StoredMembership_default.
Definition replica : Replica := mkReplica (state 0) None StoredMembership_default.
Definition disk : Disk := {[StateKey := encode_state (state 0)]}.
Definition init : StoreInit := mkStoreInit None "node" "host" "https://host".

Lemma machine_in_step : in_step machine replica.
Proof. by split. Qed.
Lemma disk_durable : durable disk replica.
Proof. split; [|done]. exists (state 0). split; [|done]. apply lookup_singleton_eq. Qed.
Lemma state_transferable epoch : transferable (state epoch).
Proof.
  split_and!; [|done|by intros n []]. split.
  - split; intros k x; cbn; [by intros [<- <-]%lookup_singleton_Some|by rewrite lookup_empty..].
  - intros k e. cbn. by rewrite lookup_empty.
  - split; intros k x; cbn; by rewrite lookup_empty.
  - intros u []. done.
  - intros n []. done.
  - split; [intros m; cbn; set_solver|intros u kinds k e; cbn; by rewrite lookup_empty..|intros u kinds; cbn; by rewrite lookup_empty].
Qed.
Lemma bumped_once : apply (BumpUserCredentialEpoch "u") (state 0) = (state 1, Ok (UserCredentialEpochBumped "u" 1)).
Proof. by vm_compute. Qed.
Lemma bumped_twice : apply (BumpUserCredentialEpoch "u") (state 1) = (state 2, Ok (UserCredentialEpochBumped "u" 2)).
Proof. by vm_compute. Qed.

Lemma batch_refines_replica_witness :
  let '(fs', ws, outcome) := sm_apply machine [bump; bump] in
  outcome = Ok [RespOk (UserCredentialEpochBumped "u" 1); RespOk (UserCredentialEpochBumped "u" 2)] ∧
  durable (written disk ws) (mkReplica (state 2) (Some (log_id 5)) StoredMembership_default).
Proof.
  pose proof (batch_refines_replica machine replica disk [bump; bump] machine_in_step disk_durable) as Hb.
  assert (replica_run replica [bump; bump] = Some (mkReplica (state 2) (Some (log_id 5)) StoredMembership_default,
            [RespOk (UserCredentialEpochBumped "u" 1); RespOk (UserCredentialEpochBumped "u" 2)])) as Hrun.
  { cbn [replica_run]. unfold replica_step. cbn [en_payload bump rp_state replica]. rewrite bumped_once. cbn [mbind option_bind rp_state]. by rewrite bumped_twice. }
  rewrite Hrun in Hb. destruct (sm_apply machine [bump; bump]) as [[fs' ws] outcome]. destruct Hb as [(Ho & _ & _ & Hd) _]. by split.
Defined.

(** The disk with an assignment's absence recorded, and a start from it. *)
Lemma started : ∃ store ws, load_or_init init "x" disk = Ok (store, ws).
Proof.
  assert (is_ok (load_or_init init "x" disk) = true) as Hok by (by vm_compute).
  destruct (load_or_init init "x" disk) as [[store ws]|]; [by exists store, ws|discriminate].
Qed.

Lemma refused_entry_halts_witness :
  ∃ ws, ∀ fresh' rest, ∃ err, attempt init fresh' (written disk ws) (stale :: rest) = (written disk ws, Some err).
Proof.
  destruct started as (store & ws & Hload). exists ws.
  exact (refused_entry_halts init "x" disk replica store ws stale disk_durable (proj1 (state_transferable 0)) eq_refl Hload eq_refl).
Defined.

Lemma crash_applies_twice_witness :
  ∃ fs1 d2, boot init "x" (written disk (take 1 (sm_apply machine [bump]).1.2)) = Ok (fs1, d2) ∧
    fs_last_applied fs1 = None ∧ u_credential_epoch <$> ps_users (st_state (fs_store (sm_apply fs1 [bump]).1.1)) !! "u" = Some 2.
Proof.
  set (d1 := written disk (take 1 (sm_apply machine [bump]).1.2)).
  assert (is_ok (boot init "x" d1) = true) as Hok by (by vm_compute).
  destruct (boot init "x" d1) as [[fs1 d2]|] eqn:Hboot; [|discriminate]. exists fs1, d2. split; [done|].
  pose proof (crash_applies_twice init "x" disk machine fs1 d2 replica bump (BumpUserCredentialEpoch "u") (UserCredentialEpochBumped "u" 1)) as Hc.
  cbn [rp_state replica] in Hc. rewrite bumped_once in Hc. cbn [fst] in Hc. rewrite bumped_twice in Hc.
  destruct (Hc machine_in_step disk_durable eq_refl eq_refl (proj1 (state_transferable 1)) eq_refl Hboot) as [Hl Hst].
  split; [exact Hl|]. apply (f_equal ps_users) in Hst. change (ps_users (st_state (fs_store (sm_apply fs1 [bump]).1.1)) = {["u" := user 2]}) in Hst. by rewrite Hst.
Defined.

(** A replica with a user and the probe of a node that is gone. *)
Definition probe_log : list DesiredStateCommand := [UpsertUser (user 0); AppendEndpointProbeSamples "2026-01-01T00:00:00Z" "gone" []].
Definition probe_replica : Replica := mkReplica (replay PersistedState_empty probe_log) (Some (log_id 2)) StoredMembership_default.
Definition probe_machine : FileStateMachine :=
  mkStateMachine (mkStore (rp_state probe_replica) PersistedUsage_empty PersistedInboundIpUsage_default PersistedTcpConnectionUsage_default) []
    (Some (log_id 2)) StoredMembership_default.
Definition participants (st : PersistedState) : option (gset string) := ps_endpoint_probe_participants_by_hour st !! "2026-01-01T00:00:00Z".

Lemma snapshot_transfers_replica_witness :
  participants (rp_state probe_replica) = Some {["gone"]} ∧
  let '(meta, payload, _) := build_snapshot probe_machine (fs_store probe_machine) in
  let '(fs2', _, outcome) := install_snapshot (mkStateMachine (store 7) [] (Some (log_id 3)) StoredMembership_default) meta payload in
  outcome = Ok tt ∧ fs_last_applied fs2' = Some (log_id 2) ∧ ps_users (st_state (fs_store fs2')) !! "u" = Some (user 0) ∧
  ¬ participated (st_state (fs_store fs2')) "2026-01-01T00:00:00Z" "gone".
Proof.
  split; [by vm_compute|].
  pose proof (snapshot_transfers_replica probe_machine (mkStateMachine (store 7) [] (Some (log_id 3)) StoredMembership_default) probe_replica disk
    PersistedState_empty probe_log state_inv_empty eq_refl ltac:(by repeat constructor) eq_refl ltac:(by split)) as Hs.
  destruct (build_snapshot probe_machine (fs_store probe_machine)) as [[meta payload] ws]. destruct (install_snapshot _ meta payload) as [[fs2' ws'] outcome].
  destruct Hs as (Ho & _ & st' & [Hrest _ _ Hp] & _ & [Hst Hl _] & _). cbn [rp_state rp_last_applied] in Hst, Hl. split_and!; [done|done| |].
  - assert (ps_users (st_state (fs_store fs2')) = ps_users st') as -> by exact (f_equal ps_users Hst).
    rewrite Hrest. by vm_compute.
  - assert (ps_endpoint_probe_participants_by_hour (st_state (fs_store fs2')) = ps_endpoint_probe_participants_by_hour st') as Hpart
      by exact (f_equal ps_endpoint_probe_participants_by_hour Hst).
    unfold participated. rewrite Hpart. intros Hin. apply Hp in Hin as [_ [n Hn]]. by vm_compute in Hn.
Defined.

Lemma racing_snapshot_applies_twice_witness :
  let fs' := (sm_apply machine [bump]).1.1 in
  let '(meta, payload, _) := build_snapshot machine (fs_store fs') in
  let fs2' := (install_snapshot machine meta payload).1.1 in
  u_credential_epoch <$> ps_users (st_state (fs_store (sm_apply fs2' [bump]).1.1)) !! "u" = Some 2.
Proof.
  pose proof (racing_snapshot_applies_twice machine machine replica bump (BumpUserCredentialEpoch "u") machine_in_step eq_refl) as Hr.
  cbn [rp_state replica] in Hr. rewrite bumped_once in Hr. cbn [fst] in Hr. rewrite bumped_twice in Hr. specialize (Hr (state_transferable 1)).
  cbv zeta in *. destruct (build_snapshot machine _) as [[meta payload] ws]. destruct (install_snapshot machine meta payload) as [[fs2' ws'] outcome].
  destruct Hr as (_ & _ & Hst). cbn [fst]. apply (f_equal ps_users) in Hst. change (ps_users (st_state (fs_store (sm_apply fs2' [bump]).1.1)) = {["u" := user 2]}) in Hst. by rewrite Hst.
Defined.

(** The machine at a later entry, and the disk with the snapshot of the first one. *)
Definition late : FileStateMachine := mkStateMachine (store 9) [] (Some (log_id 8)) StoredMembership_default.
Definition late_replica : Replica := mkReplica (state 9) (Some (log_id 8)) StoredMembership_default.
Definition first_meta : SnapshotMeta := snapshot_meta None StoredMembership_default.
Definition first_disk : Disk := written ∅ (snapshot_writes first_meta (state 0)).
Lemma late_in_step : in_step late late_replica.
Proof. by split. Qed.
Lemma first_snapshot : get_current_snapshot first_disk = Ok (Some (first_meta, snapshot_payload (rp_state replica))).
Proof.
  unfold first_disk, snapshot_writes. rewrite !written_cons, written_nil. unfold get_current_snapshot.
  by rewrite lookup_insert_ne, !lookup_insert_eq, from_to_value by done.
Qed.

Lemma torn_snapshot_loses_entries_witness :
  let '(meta, _, ws) := build_snapshot late (fs_store late) in
  get_current_snapshot (written first_disk (take 1 ws)) = Ok (Some (meta, snapshot_payload (rp_state replica))) ∧
  let '(fs2', _, outcome) := install_snapshot machine meta (snapshot_payload (rp_state replica)) in
  outcome = Ok tt ∧ fs_last_applied fs2' = rp_last_applied late_replica ∧ st_state (fs_store fs2') ≡ rp_state replica.
Proof. exact (torn_snapshot_loses_entries late machine replica late_replica first_disk first_meta late_in_step (state_transferable 0) first_snapshot). Defined.
End MachineSample.
