(* ===== verification/LogStore.v ===== *)
(** * The Raft log on disk

    [FileLogStore] of [src/raft/storage/file.rs]: the log entries, the vote and the commit
    index that OpenRaft hands over, kept in memory and written out whole after every change,
    and the reader that lets logs with retired commands pass.

    The log is specified as a list of consecutive entries after a purged position.  OpenRaft
    documents how it calls a log store - appended entries follow the last one, purging only
    moves forward - and under these calls the store is shown to answer like the list, and
    to come back after a crash as it was after one of the calls. *)

From S2P Require Import Prelude Text Search Ordered Domain Clock Protocol Lifecycle Repository ReverseMesh State Command Apply Invariant RaftTypes Usage InboundIp TcpUsage Migration Store Documents StateMachine.
Open Scope string_scope.
Open Scope list_scope.
Open Scope N_scope.

Section Log.
(** The commands of the log. *)
Context {C : Type}.
#[local] Notation Entry := (RaftEntry C).

(** ** Records *)

(** [openraft::Vote] *)
Record Vote : Type := mkVote { vt_term : N; vt_node_id : N; vt_committed : bool }.

Record PersistedWal : Type := mkWal { wal_last_purged_log_id : option LogId; wal_entries : list Entry }.

Record WalInner : Type := mkWalInner {
  wi_last_purged_log_id : option LogId;
  wi_entries : gmap N Entry;
  wi_vote : option Vote;
  wi_committed : option LogId;
}.
#[export] Instance WalInner_eta : Eta WalInner := λ r, mkWalInner (wi_last_purged_log_id r) (wi_entries r) (wi_vote r) (wi_committed r).

Definition entry_index (e : Entry) : N := lid_index (en_log_id e).
Definition insert_entries (m : gmap N Entry) (es : list Entry) : gmap N Entry := foldl (λ m ent, <[entry_index ent := ent]> m) m es.
Definition entry_values (m : gmap N Entry) : list Entry := (bn_items m).*2.

Definition last_log_id (w : WalInner) : option LogId :=
  match last (bn_items (wi_entries w)) with Some (_, ent) => Some (en_log_id ent) | None => wi_last_purged_log_id w end.

(** ** Documents *)

(** What [serde] makes of OpenRaft's records: structures are objects with a member per field,
    members a structure does not have are ignored when one is read. *)
Class WalCodec := {
  #[global] log_id_codec :: JsonCodec LogId;
  #[global] vote_codec :: JsonCodec Vote;
  #[global] entry_codec :: JsonCodec Entry;
  blank_payload : json;
  log_id_object : ∀ id : LogId, json_get "index" (to_value id) = Some (JNumber (Z.of_N (lid_index id)));
  entry_object : ∀ e : Entry, json_get "log_id" (to_value e) = Some (to_value (en_log_id e));
  blank_entry : ∀ o (id : LogId), o !! "log_id" = Some (to_value id) → from_value (JObject (<["payload" := blank_payload]> o)) = Ok (mkEntry id Blank);
}.

(** [Option<T>] *)
Definition option_value {A} `{JsonCodec A} (x : option A) : json := match x with Some a => to_value a | None => JNull end.
Definition option_from_value {A} `{JsonCodec A} (raw : json) : result (option A) string :=
  match raw with JNull => Ok None | _ => match from_value raw with Ok a => Ok (Some a) | Err e => Err e end end.

(** [Value::as_u64] *)
Definition json_as_u64 (v : json) : option N :=
  match v with JNumber n => if ((0 <=? n) && (n <=? Z.of_N u64_max))%Z then Some (Z.to_N n) else None | _ => None end.

(** ** Retired commands *)

(** The pointer ["/log_id/index"] and the two [get]s it falls back to name the same member. *)
Definition extract_entry_log_index (entry : json) : option N := log_id ← json_get "log_id" entry; index ← json_get "index" log_id; json_as_u64 index.

Definition first_some {A} (l : list (option A)) : option A := foldr (λ x acc, match x with Some a => Some a | None => acc end) None l.
Fixpoint find_type (value : json) : option string :=
  match value with
  | JObject map =>
      match map !! "type" with
      | Some (JString cmd_type) => Some cmd_type
      | _ => first_some (bt_values (find_type <$> map))
      end
  | JArray items => first_some (find_type <$> items)
  | _ => None
  end.
Definition extract_entry_command_type (entry : json) : option string := payload ← json_get "payload" entry; find_type payload.

Definition is_retired_grant_group_command (cmd_type : string) : bool :=
  bool_decide (cmd_type = "create_grant_group") || bool_decide (cmd_type = "replace_grant_group") || bool_decide (cmd_type = "delete_grant_group").

Context `{!WalCodec} `{!JsonCodec PersistedStateMachineMeta}.

Definition rewrite_entry_payload_to_blank (entry : json) : result json string :=
  match entry with
  | JObject entry_obj => Ok (JObject (<["payload" := blank_payload]> entry_obj))
  | _ => Err "wal entry is not an object"
  end.

(** An entry of the file, and whether it had to be rewritten. *)
Definition read_entry (last_applied_index : option N) (last_purged_index : N) (raw_entry : json) : result (Entry * bool) string :=
  match from_value raw_entry with
  | Ok entry => Ok (entry, false)
  | Err parse_err =>
      match extract_entry_command_type raw_entry with
      | None => Err parse_err
      | Some cmd_type =>
          if negb (is_retired_grant_group_command cmd_type) then Err parse_err else
          match extract_entry_log_index raw_entry with
          | None => Err ("failed to read wal entry index for retired command: type=" +:+ cmd_type)
          | Some entry_index =>
              let last_applied := default 0 last_applied_index in
              if last_applied <? entry_index then
                Err ("retired wal command is not applied yet (entry_index=" +:+ pretty entry_index +:+ ", last_applied=" +:+ pretty last_applied
                     +:+ "); start old version to apply/snapshot first, then upgrade")
              else if last_purged_index <? entry_index then
                Err ("retired wal command is still in active log range (entry_index=" +:+ pretty entry_index +:+ ", last_purged=" +:+ pretty last_purged_index
                     +:+ "); start old version to snapshot/purge logs first, then upgrade")
              else
                let? blank_entry := rewrite_entry_payload_to_blank raw_entry in
                let? parsed := from_value blank_entry in
                Ok (parsed, true)
          end
      end
  end.

Fixpoint read_entries (last_applied_index : option N) (last_purged_index : N) (raw_entries : list json) : result (list Entry * bool) string :=
  match raw_entries with
  | [] => Ok ([], false)
  | raw :: raws =>
      let? one := read_entry last_applied_index last_purged_index raw in
      let? others := read_entries last_applied_index last_purged_index raws in
      Ok (one.1 :: others.1, one.2 || others.2)
  end.

Definition read_wal_with_compat (d : Disk) (last_applied_index : option N) : result (PersistedWal * bool) string :=
  match d !! WalJson with
  | None => Ok (mkWal None [], false)
  | Some raw_wal =>
      let? last_purged_log_id := match json_get "last_purged_log_id" raw_wal with Some raw => option_from_value raw | None => Ok None end in
      let last_purged_index := default 0 (lid_index <$> last_purged_log_id) in
      match json_get "entries" raw_wal with
      | None => Ok (mkWal last_purged_log_id [], false)
      | Some (JArray raw_entries) =>
          let? read := read_entries last_applied_index last_purged_index raw_entries in
          Ok (mkWal last_purged_log_id read.1, read.2)
      | Some _ => Err "invalid wal format: `entries` must be an array"
      end
  end.

(** ** The store *)

Definition encode_wal (wal : PersistedWal) : json :=
  JObject (<["last_purged_log_id" := option_value (wal_last_purged_log_id wal)]> {["entries" := JArray (to_value <$> wal_entries wal)]}).
Definition persist_wal (w : WalInner) : list Write := [(WalJson, encode_wal (mkWal (wi_last_purged_log_id w) (entry_values (wi_entries w))))].
Definition persist_vote (w : WalInner) : list Write := match wi_vote w with Some vote => [(VoteJson, to_value vote)] | None => [] end.
Definition persist_committed (w : WalInner) : list Write :=
  match wi_committed w with Some committed => [(CommittedJson, to_value committed)] | None => [] end.

(** [read_json] *)
Definition read_json {A} `{JsonCodec A} (d : Disk) (f : File) (subject : string) : result (option A) StorageError :=
  match d !! f with
  | None => Ok None
  | Some raw => match from_value raw with Ok a => Ok (Some a) | Err e => Err (StorageIo subject "Read" e) end
  end.

(** [FileLogStore::open] *)
Definition log_open (d : Disk) : result (WalInner * list Write) StorageError :=
  let? sm_meta := read_json (A:=PersistedStateMachineMeta) d SmMetaJson "StateMachine" in
  let last_applied_index := lid_index <$> (sm_meta ≫= sm_last_applied) in
  let? read := map_err (StorageIo "Logs" "Read") (read_wal_with_compat d last_applied_index) in
  let? vote := read_json d VoteJson "Vote" in
  let? committed := read_json d CommittedJson "Store" in
  let w := mkWalInner (wal_last_purged_log_id read.1) (insert_entries ∅ (wal_entries read.1)) vote committed in
  Ok (w, if read.2 then persist_wal w else []).

Definition append (w : WalInner) (entries : list Entry) : WalInner * list Write :=
  let w := w <| wi_entries ::= λ m, insert_entries m entries |> in (w, persist_wal w).
Definition truncate (w : WalInner) (log_id : LogId) : WalInner * list Write :=
  let w := w <| wi_entries ::= filter (λ '(k, _), k < lid_index log_id) |> in (w, persist_wal w).
Definition purge (w : WalInner) (log_id : LogId) : WalInner * list Write :=
  let w := w <| wi_entries ::= filter (λ '(k, _), lid_index log_id < k) |> <| wi_last_purged_log_id := Some log_id |> in (w, persist_wal w).
Definition save_vote (w : WalInner) (vote : Vote) : WalInner * list Write :=
  let w := w <| wi_vote := Some vote |> in (w, persist_vote w).
Definition save_committed (w : WalInner) (committed : option LogId) : WalInner * list Write :=
  let w := w <| wi_committed := committed |> in (w, persist_committed w).

(** ** Reading *)

Inductive Bound : Type := Included (i : N) | Excluded (i : N) | Unbounded.
Definition after (lo : Bound) (i : N) : Prop := match lo with Included x => x ≤ i | Excluded x => x < i | Unbounded => True end.
Definition before (hi : Bound) (i : N) : Prop := match hi with Included x => i ≤ x | Excluded x => i < x | Unbounded => True end.
#[global] Instance after_dec lo i : Decision (after lo i).
Proof. destruct lo; cbn; apply _. Defined.
#[global] Instance before_dec hi i : Decision (before hi i).
Proof. destruct hi; cbn; apply _. Defined.

(** [BTreeMap::range] panics on a range that ends before it starts and on an empty one
    between excluded bounds. *)
Definition range_valid (lo hi : Bound) : bool :=
  match lo, hi with
  | Excluded a, Excluded b => a <? b
  | Included a, Included b | Included a, Excluded b | Excluded a, Included b => a <=? b
  | _, _ => true
  end.

Definition try_get_log_entries (w : WalInner) (lo hi : Bound) : option (list Entry) :=
  if range_valid lo hi then Some (filter (λ '(k, _), after lo k ∧ before hi k) (bn_items (wi_entries w))).*2 else None.
Definition get_log_state (w : WalInner) : option LogId * option LogId := (wi_last_purged_log_id w, last_log_id w).
Definition read_vote (w : WalInner) : option Vote := wi_vote w.
Definition read_committed (w : WalInner) : option LogId := wi_committed w.

(** ** Calls *)

Inductive LogCall : Type :=
| Append (entries : list Entry)
| Truncate (log_id : LogId)
| Purge (log_id : LogId)
| SaveVote (vote : Vote)
| SaveCommitted (committed : option LogId).

Definition log_exec (w : WalInner) (c : LogCall) : WalInner * list Write :=
  match c with
  | Append entries => append w entries
  | Truncate log_id => truncate w log_id
  | Purge log_id => purge w log_id
  | SaveVote vote => save_vote w vote
  | SaveCommitted committed => save_committed w committed
  end.
Fixpoint log_execs (w : WalInner) (cs : list LogCall) : WalInner * list Write :=
  match cs with
  | [] => (w, [])
  | c :: cs => let '(w1, ws1) := log_exec w c in let '(w2, ws2) := log_execs w1 cs in (w2, ws1 ++ ws2)
  end.

(** * The log as a list *)

(** The entries after the purged position.  A commit index that was cleared is not written,
    so the last one that was is kept beside it. *)
Record Log : Type := mkLog {
  lg_purged : option LogId;
  lg_tail : list Entry;
  lg_vote : option Vote;
  lg_committed : option LogId;
  lg_saved : option LogId;
}.
#[local] Instance Log_eta : Eta Log := λ r, mkLog (lg_purged r) (lg_tail r) (lg_vote r) (lg_committed r) (lg_saved r).

Definition log_start (l : Log) : N := match lg_purged l with Some id => lid_index id + 1 | None => 0 end.
Fixpoint consecutive (start : N) (es : list Entry) : Prop :=
  match es with [] => True | e :: es => entry_index e = start ∧ consecutive (start + 1) es end.
Definition log_wf (l : Log) : Prop := consecutive (log_start l) (lg_tail l).

(** How OpenRaft calls a log store. *)
Definition call_allowed (l : Log) (c : LogCall) : Prop :=
  match c with
  | Append entries => consecutive (log_start l + N.of_nat (length (lg_tail l))) entries
  | Purge log_id => log_start l ≤ lid_index log_id + 1
  | _ => True
  end.
Definition log_call (l : Log) (c : LogCall) : Log :=
  match c with
  | Append entries => l <| lg_tail ::= λ tail, tail ++ entries |>
  | Truncate log_id => l <| lg_tail ::= filter (λ e, entry_index e < lid_index log_id) |>
  | Purge log_id => l <| lg_tail ::= filter (λ e, lid_index log_id < entry_index e) |> <| lg_purged := Some log_id |>
  | SaveVote vote => l <| lg_vote := Some vote |>
  | SaveCommitted committed => l <| lg_committed := committed |> <| lg_saved ::= λ saved, match committed with Some _ => committed | None => saved end |>
  end.
Fixpoint calls_allowed (l : Log) (cs : list LogCall) : Prop :=
  match cs with [] => True | c :: cs => call_allowed l c ∧ calls_allowed (log_call l c) cs end.
Definition log_calls (l : Log) (cs : list LogCall) : Log := foldl log_call l cs.

(** What comes back after a restart. *)
Definition reopened (l : Log) : Log := l <| lg_committed := lg_saved l |>.

(** What OpenRaft can see of a store. *)
Record serves (w : WalInner) (l : Log) : Prop := {
  sv_state : get_log_state w = (lg_purged l, match last (lg_tail l) with Some e => Some (en_log_id e) | None => lg_purged l end);
  sv_entries : ∀ lo hi, range_valid lo hi = true →
    try_get_log_entries w lo hi = Some (filter (λ e, after lo (entry_index e) ∧ before hi (entry_index e)) (lg_tail l));
  sv_vote : read_vote w = lg_vote l;
  sv_committed : read_committed w = lg_committed l;
}.

Record on_disk (d : Disk) (l : Log) : Prop := {
  od_wal : match d !! WalJson with Some raw => raw = encode_wal (mkWal (lg_purged l) (lg_tail l)) | None => lg_purged l = None ∧ lg_tail l = [] end;
  od_vote : d !! VoteJson = to_value <$> lg_vote l;
  od_committed : d !! CommittedJson = to_value <$> lg_saved l;
  od_meta : ∃ m : option PersistedStateMachineMeta, read_json d SmMetaJson "StateMachine" = Ok m;
}.

(** ** Consecutive entries *)

Lemma filter_every {A} (P : A → Prop) `{∀ x, Decision (P x)} (l : list A) : (∀ x, x ∈ l → P x) → filter P l = l.
Proof. induction l as [|x l IH]; intros HP; [done|]. rewrite filter_cons_True by (apply HP; left). f_equal. apply IH. intros y Hy. apply HP. by right. Qed.
Lemma filter_nothing {A} (P : A → Prop) `{∀ x, Decision (P x)} (l : list A) : (∀ x, x ∈ l → ¬ P x) → filter P l = [].
Proof. induction l as [|x l IH]; intros HP; [done|]. rewrite filter_cons_False by (apply HP; left). apply IH. intros y Hy. apply HP. by right. Qed.

Definition keyed (es : list Entry) : list (N * Entry) := (λ e, (entry_index e, e)) <$> es.

Lemma consecutive_ge start es e : consecutive start es → e ∈ es → start ≤ entry_index e.
Proof. revert start. induction es as [|e' es IH]; intros start Hc He; [by apply elem_of_nil in He|]. destruct Hc as [? Hc]. apply elem_of_cons in He as [->|He]; [lia|]. specialize (IH _ Hc He). lia. Qed.
Lemma consecutive_app start es es' : consecutive start (es ++ es') ↔ consecutive start es ∧ consecutive (start + N.of_nat (length es)) es'.
Proof.
  revert start. induction es as [|e es IH]; intros start; cbn [app consecutive length].
  - replace (start + N.of_nat 0) with start by lia. tauto.
  - rewrite IH. replace (start + 1 + N.of_nat (length es)) with (start + N.of_nat (S (length es))) by lia. tauto.
Qed.
Lemma consecutive_before start es i : consecutive start es → consecutive start (filter (λ e, entry_index e < i) es).
Proof.
  revert start. induction es as [|e es IH]; intros start Hc; [done|]. destruct Hc as [He Hc]. rewrite filter_cons. case_decide; [by split; [|apply IH]|].
  rewrite filter_nothing; [done|]. intros e' He'. pose proof (consecutive_ge _ _ _ Hc He'). lia.
Qed.
Lemma consecutive_after start es i : consecutive start es → start ≤ i + 1 → consecutive (i + 1) (filter (λ e, i < entry_index e) es).
Proof.
  revert start. induction es as [|e es IH]; intros start Hc Hi; [done|]. destruct Hc as [He Hc]. rewrite filter_cons. case_decide.
  - assert (start = i + 1) as -> by lia. split; [done|]. rewrite filter_every; [done|]. intros e' He'.
    pose proof (consecutive_ge _ _ _ Hc He'). lia.
  - apply (IH (start + 1)); [done|lia].
Qed.
Lemma keyed_sorted start es : consecutive start es → StronglySorted (λ a b, a.1 < b.1) (keyed es).
Proof.
  revert start. induction es as [|e es IH]; intros start Hc; cbn; constructor; destruct Hc as [He Hc]; [by apply (IH (start + 1))|].
  apply Forall_fmap, Forall_forall. intros e' He'. cbn. pose proof (consecutive_ge _ _ _ Hc He'). lia.
Qed.
Lemma keyed_NoDup start es : consecutive start es → NoDup (keyed es).*1.
Proof.
  revert start. induction es as [|e es IH]; intros start Hc; cbn; constructor; destruct Hc as [He Hc]; [|by apply (IH (start + 1))].
  rewrite list_elem_of_fmap. intros ([i e'] & Hi & Hin). apply list_elem_of_fmap in Hin as (e2 & [= -> ->] & He2). cbn in Hi.
  pose proof (consecutive_ge _ _ _ Hc He2). lia.
Qed.

Lemma filter_map_of start es (P : N → Prop) `{!∀ i, Decision (P i)} :
  consecutive start es → filter (λ '(k, _), P k) (list_to_map (keyed es) : gmap N Entry) = list_to_map (keyed (filter (λ e, P (entry_index e)) es)).
Proof.
  intros Hc. pose proof (keyed_NoDup _ _ Hc) as Hnd. rewrite map_filter_alt.
  assert (keyed (filter (λ e, P (entry_index e)) es) = filter (λ '(k, _), P k) (keyed es)) as ->.
  { clear Hc Hnd. induction es as [|e es IH]; [done|]. unfold keyed. cbn [fmap list_fmap]. rewrite !filter_cons. cbn. case_decide; [|done]. unfold keyed in *. cbn. by f_equal. }
  apply list_to_map_proper; [|by rewrite map_to_list_to_map].
  apply (NoDup_fmap_2_strong _). 2: { apply NoDup_filter, NoDup_map_to_list. }
  intros [i e] [j e'] [_ Hi]%list_elem_of_filter [_ Hj]%list_elem_of_filter Heq. cbn in Heq. subst j. apply elem_of_map_to_list in Hi, Hj. congruence.
Qed.

Lemma insert_map_of start es es' :
  consecutive start (es ++ es') → insert_entries (list_to_map (keyed es)) es' = list_to_map (keyed (es ++ es')).
Proof.
  revert es. induction es' as [|e es' IH]; intros es Hc; [by rewrite app_nil_r|]. cbn [insert_entries foldl].
  replace (es ++ e :: es') with ((es ++ [e]) ++ es') in * by (by rewrite <- app_assoc). fold (insert_entries (<[entry_index e:=e]> (list_to_map (keyed es))) es').
  rewrite <- (IH (es ++ [e])) by done. f_equal. apply consecutive_app in Hc as [Hc _]. unfold keyed. rewrite fmap_app. cbn. rewrite list_to_map_snoc; [done|].
  pose proof (keyed_NoDup _ _ Hc) as Hnd. unfold keyed in Hnd. rewrite !fmap_app in Hnd. apply NoDup_app in Hnd as (_ & Hdis & _).
  intros Hin. apply (Hdis _ Hin). cbn. left.
Qed.

(** ** The store as a list *)

Record represents (w : WalInner) (l : Log) : Prop := {
  rr_purged : wi_last_purged_log_id w = lg_purged l;
  rr_entries : wi_entries w = list_to_map (keyed (lg_tail l));
  rr_vote : wi_vote w = lg_vote l;
  rr_committed : wi_committed w = lg_committed l;
}.

Lemma represented_items w l : represents w l → log_wf l → bn_items (wi_entries w) = keyed (lg_tail l).
Proof. intros [_ -> _ _] Hwf. eapply bn_items_sorted, keyed_sorted, Hwf. Qed.

Lemma represented_serves w l : represents w l → log_wf l → serves w l.
Proof.
  intros Hr Hwf. pose proof (represented_items w l Hr Hwf) as Hitems. destruct Hr as [Hp _ Hv Hc]. split; [| |done..].
  - unfold get_log_state, last_log_id. rewrite Hitems, Hp. unfold keyed. rewrite fmap_last. by destruct (last (lg_tail l)).
  - intros lo hi Hvalid. unfold try_get_log_entries. rewrite Hvalid, Hitems. f_equal. clear. induction (lg_tail l) as [|e es IH]; [done|].
    unfold keyed in *. cbn [fmap list_fmap]. rewrite !filter_cons. cbn. case_decide; cbn; by rewrite IH.
Qed.

Lemma represented_values w l : represents w l → log_wf l → entry_values (wi_entries w) = lg_tail l.
Proof. intros Hr Hwf. unfold entry_values, keyed. rewrite (represented_items w l) by done. unfold keyed. rewrite <- list_fmap_compose. apply list_fmap_id. Qed.

Lemma wf_call l c : log_wf l → call_allowed l c → log_wf (log_call l c).
Proof.
  unfold log_wf. destruct c as [es|id|id|v|c]; cbn; intros Hwf Hc; [by apply consecutive_app|by apply consecutive_before| |done..].
  by apply (consecutive_after (log_start l)).
Qed.

Lemma represents_call w l c : represents w l → log_wf l → call_allowed l c → represents (log_exec w c).1 (log_call l c).
Proof.
  intros [Hp He Hv Hco] Hwf Hc. destruct c as [es|id|id|v|c]; split; cbn; try done; rewrite He.
  - apply (insert_map_of (log_start l)). by apply consecutive_app.
  - etrans; [|exact (filter_map_of (log_start l) (lg_tail l) (λ k, k < lid_index id) Hwf)]. by apply map_filter_ext.
  - etrans; [|exact (filter_map_of (log_start l) (lg_tail l) (λ k, lid_index id < k) Hwf)]. by apply map_filter_ext.
Qed.

(** ** The store on disk *)

Lemma option_value_read {A} `{JsonCodec A} (x : option A) : (∀ a : A, to_value a ≠ JNull) → option_from_value (option_value x) = Ok x.
Proof.
  intros Hnull. destruct x as [a|]; [|done]. unfold option_value, option_from_value. specialize (Hnull a). rewrite from_to_value. by destruct (to_value a).
Qed.
Lemma log_id_not_null (id : LogId) : to_value id ≠ JNull.
Proof. intros Hnull. pose proof (log_id_object id) as Hobj. by rewrite Hnull in Hobj. Qed.
Lemma read_entries_written la lp es : read_entries la lp (to_value <$> es) = Ok (es, false).
Proof. induction es as [|e es IH]; [done|]. cbn. unfold read_entry. by rewrite from_to_value, IH. Qed.

Lemma read_json_written {A} `{JsonCodec A} (d : Disk) f subject (x : option A) : d !! f = to_value <$> x → read_json d f subject = Ok x.
Proof. intros Hd. unfold read_json. rewrite Hd. destruct x as [a|]; [|done]. cbn. by rewrite from_to_value. Qed.

Lemma read_wal_written d l la : on_disk d l → read_wal_with_compat d la = Ok (mkWal (lg_purged l) (lg_tail l), false).
Proof.
  intros [Hw _ _ _]. unfold read_wal_with_compat. destruct (d !! WalJson) as [raw|]; [subst raw|by destruct Hw as [-> ->]].
  unfold encode_wal, json_get. rewrite lookup_insert_eq, option_value_read by apply log_id_not_null. cbn [rbind].
  rewrite lookup_insert_ne, lookup_singleton_eq by done. cbn [wal_entries]. by rewrite read_entries_written.
Qed.

Lemma open_on_disk d l : on_disk d l → log_wf l → ∃ w, log_open d = Ok (w, []) ∧ represents w (reopened l).
Proof.
  intros Hd Hwf. destruct (od_meta _ _ Hd) as [m Hm]. unfold log_open. rewrite Hm. cbn [rbind]. rewrite (read_wal_written d l) by done. cbn [map_err rbind].
  rewrite (read_json_written d VoteJson _ (lg_vote l)), (read_json_written d CommittedJson _ (lg_saved l)) by apply Hd. cbn [rbind].
  eexists. split; [done|]. split; [done| |done..]. cbn. rewrite (insert_map_of (log_start l) []); done.
Qed.

Lemma on_disk_wal d l raw purged tail :
  on_disk d l → raw = encode_wal (mkWal purged tail) → on_disk (written d [(WalJson, raw)]) (l <| lg_purged := purged |> <| lg_tail := tail |>).
Proof.
  intros [_ Hv Hc Hm] ->. rewrite written_single. split; cbn; [by rewrite lookup_insert_eq|by rewrite lookup_insert_ne..|].
  destruct Hm as [m Hm]. exists m. unfold read_json in *. by rewrite lookup_insert_ne.
Qed.

Lemma on_disk_call d w l c : represents w l → log_wf l → call_allowed l c → on_disk d l → on_disk (written d (log_exec w c).2) (log_call l c).
Proof.
  intros Hr Hwf Hc Hd. pose proof (represents_call w l c Hr Hwf Hc) as Hr'. pose proof (represented_values _ _ Hr' (wf_call l c Hwf Hc)) as Hval.
  assert (∀ w', w' = (log_exec w c).1 → encode_wal (mkWal (wi_last_purged_log_id w') (entry_values (wi_entries w'))) = encode_wal (mkWal (lg_purged (log_call l c)) (lg_tail (log_call l c)))) as Henc.
  { intros w' ->. by rewrite Hval, (rr_purged _ _ Hr'). }
  destruct c as [es|id|id|v|c]; [by apply (on_disk_wal d l _ (lg_purged l)), Henc|by apply (on_disk_wal d l _ (lg_purged l)), Henc|by apply (on_disk_wal d l), Henc| |].
  - destruct Hd as [Hw Hv Hco Hm]. cbn. split; cbn; [by rewrite lookup_insert_ne|by rewrite lookup_insert_eq|by rewrite lookup_insert_ne|].
    destruct Hm as [m Hm]. exists m. unfold read_json in *. by rewrite lookup_insert_ne.
  - destruct Hd as [Hw Hv Hco Hm]. destruct c as [id|]; cbn; [|by split].
    split; cbn; [by rewrite lookup_insert_ne|by rewrite lookup_insert_ne|by rewrite lookup_insert_eq|].
    destruct Hm as [m Hm]. exists m. unfold read_json in *. by rewrite lookup_insert_ne.
Qed.

Lemma exec_writes w c : length (log_exec w c).2 = 1%nat ∨ (log_exec w c).2 = [].
Proof. destruct c as [| | | |[]]; cbn; auto. Qed.

Lemma crash_calls w l d cs : represents w l → log_wf l → calls_allowed l cs → on_disk d l → ∀ k, ∃ j, 
  length (log_execs w (take j cs)).2 = length (take k (log_execs w cs).2) ∧
  on_disk (written d (take k (log_execs w cs).2)) (log_calls l (take j cs)) ∧ log_wf (log_calls l (take j cs)).
Proof.
  revert w l d. induction cs as [|c cs IH]; intros w l d Hr Hwf Hok Hd k; [exists 0%nat; cbn; by rewrite take_nil|]. destruct Hok as [Hc Hok].
  specialize (IH _ _ _ (represents_call w l c Hr Hwf Hc) (wf_call l c Hwf Hc) Hok (on_disk_call d w l c Hr Hwf Hc Hd)). pose proof (exec_writes w c) as Hone.
  cbn [log_execs]. destruct (log_exec w c) as [w1 ws1] eqn:Hexec. cbn [fst snd] in *. destruct (log_execs w1 cs) as [w2 ws2] eqn:Hexecs. cbn [fst snd] in *.
  destruct Hone as [Hone| ->]; [destruct ws1 as [|x [|]]; try discriminate; destruct k as [|k]|].
  - exists 0%nat. done.
  - destruct (IH k) as (j & Hj & Hdj & Hwfj). exists (S j). cbn [take log_execs app length log_calls foldl]. rewrite Hexec. destruct (log_execs w1 (take j cs)). cbn [snd] in *.
    rewrite length_app, Hj. done.
  - destruct (IH k) as (j & Hj & Hdj & Hwfj). exists (S j). cbn [take log_execs app length log_calls foldl]. rewrite Hexec. by destruct (log_execs w1 (take j cs)).
Qed.

Lemma run_calls w l cs : represents w l → log_wf l → calls_allowed l cs → represents (log_execs w cs).1 (log_calls l cs) ∧ log_wf (log_calls l cs).
Proof.
  revert w l. induction cs as [|c cs IH]; intros w l Hr Hwf Hok; [done|]. destruct Hok as [Hc Hok].
  specialize (IH _ _ (represents_call w l c Hr Hwf Hc) (wf_call l c Hwf Hc) Hok). cbn [log_execs log_calls foldl]. destruct (log_exec w c) as [w1 ws1]. cbn [fst] in IH.
  by destruct (log_execs w1 cs).
Qed.

(** C6: the log store is a log.  Opened on a disk that holds a log and called as OpenRaft
    calls it, the store answers every query like the list of entries does after the same
    calls.  A crash after any number of the writes loses whole calls at the end and nothing
    else: the store opens again, rewrites nothing and answers like the list after the calls
    whose writes were made, with the commit index that was last set to a value. *)
Theorem log_store_refines_log (d : Disk) (l : Log) (cs : list LogCall) :
  on_disk d l → log_wf l → calls_allowed (reopened l) cs →
  ∃ w, log_open d = Ok (w, []) ∧
    let '(w', ws) := log_execs w cs in
    serves w' (log_calls (reopened l) cs) ∧
    ∀ k, ∃ j w'', length (log_execs w (take j cs)).2 = length (take k ws) ∧
      log_open (written d (take k ws)) = Ok (w'', []) ∧ serves w'' (reopened (log_calls (reopened l) (take j cs))).
Proof.
  intros Hd Hwf Hok. destruct (open_on_disk d l Hd Hwf) as (w & Hopen & Hr). exists w. split; [done|].
  pose proof (run_calls w _ cs Hr Hwf Hok) as [Hr' Hwf'].
  assert (on_disk d (reopened l)) as Hd' by (by destruct Hd; split).
  pose proof (crash_calls w _ d cs Hr Hwf Hok Hd') as Hcrash. destruct (log_execs w cs) as [w' ws]. split; [by apply represented_serves|].
  intros k. destruct (Hcrash k) as (j & Hj & Hdj & Hwfj). destruct (open_on_disk _ _ Hdj Hwfj) as (w'' & Hopen'' & Hr''). exists j, w''.
  split_and!; [done..|]. by apply represented_serves.
Qed.

(** ** Retired commands block the start *)

Lemma read_entry_active la lp raw :
  (∀ i, extract_entry_log_index raw = Some i → lp < i) → is_ok (read_entry la lp raw) = is_ok (from_value raw : result Entry string).
Proof.
  intros Hi. unfold read_entry. destruct (from_value raw) as [e|err]; [done|]. cbn [is_ok]. destruct (extract_entry_command_type raw) as [t|]; [|done].
  destruct (negb _); [done|]. destruct (extract_entry_log_index raw) as [i|]; [|done]. specialize (Hi i eq_refl). destruct (_ <? i); [done|].
  by apply N.ltb_lt in Hi as ->.
Qed.

(** A purged log does not get past a retired command.  The reader is written to let a command of
    the retired grant groups pass, as a blank entry, when the log is purged beyond it; but
    purging removes the entry.  Where every entry has an index greater than the purged one (and
    greater than zero, when nothing was purged) the file is read exactly if all its entries are
    readable as they are, however far they were applied. *)
Theorem retired_command_blocks_start (d : Disk) (purged : option LogId) (raw_entries : list json) (last_applied : option N) :
  d !! WalJson = Some (JObject (<["last_purged_log_id" := option_value purged]> {["entries" := JArray raw_entries]})) →
  (∀ raw i, raw ∈ raw_entries → extract_entry_log_index raw = Some i → default 0 (lid_index <$> purged) < i) →
  is_ok (read_wal_with_compat d last_applied) = forallb (λ raw, is_ok (from_value raw : result Entry string)) raw_entries.
Proof.
  intros Hd Hactive. unfold read_wal_with_compat. rewrite Hd. unfold json_get. rewrite lookup_insert_eq, option_value_read by apply log_id_not_null. cbn [rbind].
  rewrite lookup_insert_ne, lookup_singleton_eq by done. set (lp := default 0 _) in *. clearbody lp. clear Hd.
  assert (is_ok (read_entries last_applied lp raw_entries) = forallb (λ raw, is_ok (from_value raw : result Entry string)) raw_entries) as <-.
  { induction raw_entries as [|raw raws IH]; [done|]. cbn [read_entries forallb]. rewrite <- (read_entry_active last_applied lp raw) by (intros i; apply Hactive; left).
    rewrite <- IH by (intros raw' i Hraw; apply Hactive; by right). destruct (read_entry _ _ raw); [|done]. cbn. by destruct (read_entries _ _ raws). }
  by destruct (read_entries _ _ raw_entries).
Qed.
End Log.
#[global] Arguments WalCodec : clear implicits.
#[global] Arguments LogCall : clear implicits.
#[global] Arguments Log : clear implicits.

(** ** Examples *)

Module LogSample.
Definition log_id_value (id : LogId) : json := JObject {["index" := JNumber (Z.of_N (lid_index id)); "leader_id" := to_value (lid_term id, lid_node_id id)]}.
Definition log_id_read (raw : json) : result LogId string :=
  match json_get "index" raw, json_get "leader_id" raw with
  | Some (JNumber n), Some leader => let? leader := from_value leader in Ok (mkLogId leader.1 leader.2 (Z.to_N n))
  | _, _ => Err "not a log id"
  end.
#[local,refine] Instance log_id_objects : JsonCodec LogId := { to_value := log_id_value; from_value := log_id_read }.
Proof.
  intros [t n i]. unfold log_id_read, log_id_value, json_get. rewrite lookup_insert_eq, lookup_insert_ne, lookup_singleton_eq, from_to_value by done. cbn. by rewrite N2Z.id.
Defined.

Definition payload_sum (p : EntryPayload string) : unit + string + Membership :=
  match p with Blank => inl (inl tt) | Normal c => inl (inr c) | MembershipChange m => inr m end.
Definition sum_payload (p : unit + string + Membership) : EntryPayload string :=
  match p with inl (inl _) => Blank | inl (inr c) => Normal c | inr m => MembershipChange m end.
Definition entry_value (e : RaftEntry string) : json := JObject {["log_id" := to_value (en_log_id e); "payload" := to_value (payload_sum (en_payload e))]}.
Definition entry_read (raw : json) : result (RaftEntry string) string :=
  match json_get "log_id" raw, json_get "payload" raw with
  | Some id, Some payload => let? id := from_value id in let? payload := from_value payload in Ok (mkEntry id (sum_payload payload))
  | _, _ => Err "not an entry"
  end.
#[local,refine] Instance entry_objects : JsonCodec (RaftEntry string) := { to_value := entry_value; from_value := entry_read }.
Proof.
  intros [id p]. unfold entry_read, entry_value, json_get. rewrite lookup_insert_eq, lookup_insert_ne, lookup_singleton_eq, !from_to_value by done. by destruct p.
Defined.
#[local] Instance Vote_eq_dec : EqDecision Vote.
Proof. solve_decision. Defined.
#[local] Instance Vote_countable : Countable Vote.
Proof. refine (inj_countable' (λ v, (vt_term v, vt_node_id v, vt_committed v)) (λ '(a, b, c), mkVote a b c) _). by intros []. Defined.
#[local,refine] Instance wal_objects : WalCodec string := { blank_payload := to_value (payload_sum Blank) }.
Proof.
  - intros id. apply lookup_insert_eq.
  - intros e. apply lookup_insert_eq.
  - intros o id Ho. unfold from_value, entry_objects, entry_read, json_get. rewrite lookup_insert_ne, Ho, lookup_insert_eq by done.
    rewrite from_to_value. cbn [rbind]. by rewrite from_to_value.
Defined.

Definition log_id (index : N) : LogId := mkLogId 1 1 index.
Definition entry (index : N) (c : string) : RaftEntry string := mkEntry (log_id index) (Normal c).
Definition empty : Log string := mkLog None [] None None None.
Definition calls : list (LogCall string) :=
  [SaveVote (mkVote 1 1 true); Append [entry 0 "a"; entry 1 "b"; entry 2 "c"]; SaveCommitted (Some (log_id 1)); Truncate (log_id 2); Purge (log_id 0);
   SaveCommitted None; Append [entry 2 "d"]].

(** After every write of these calls the log opens again; at the end it has the entries
    after the purged one. *)
Lemma log_store_refines_log_witness :
  ∃ w, log_open ∅ = Ok (w, []) ∧
    let '(w', ws) := log_execs w calls in
    try_get_log_entries w' (Included 0) Unbounded = Some [entry 1 "b"; entry 2 "d"] ∧
    ∀ k, ∃ w'', log_open (written ∅ (take k ws)) = Ok (w'', []).
Proof.
  destruct (log_store_refines_log ∅ empty calls) as (w & Hopen & Hrest).
  - split; [done..|]. by exists None.
  - done.
  - vm_compute. intuition discriminate.
  - exists w. split; [done|]. destruct (log_execs w calls) as [w' ws]. destruct Hrest as [Hs Hcrash]. split.
    + rewrite (sv_entries _ _ Hs) by done. by vm_compute.
    + intros k. destruct (Hcrash k) as (j & w'' & _ & Hw & _). by exists w''.
Defined.

Lemma retired_command_blocks_start_witness :
  let retired := JObject {["log_id" := to_value (log_id 4); "payload" := JObject {["normal" := JObject {["type" := JString "create_grant_group"]}]}]} in
  let d : Disk := {[WalJson := JObject (<["last_purged_log_id" := option_value (Some (log_id 3))]> {["entries" := JArray [retired]]})]} in
  extract_entry_command_type retired = Some "create_grant_group" ∧ is_ok (read_wal_with_compat d (Some 4)) = false.
Proof.
  intros retired d. split; [by vm_compute|]. rewrite (retired_command_blocks_start d (Some (log_id 3)) [retired] (Some 4)).
  - by vm_compute.
  - apply lookup_singleton_eq.
  - intros raw i ->%list_elem_of_singleton. assert (extract_entry_log_index retired = Some 4) as -> by (by vm_compute). intros [= <-]. cbn. lia.
Defined.
End LogSample.
