(* ===== verification/InternalAuth.v ===== *)
(** * Signed requests between nodes

    [src/internal_auth.rs]: the metadata and the signature a node adds to a request for
    another node, the check on the other side, and the signed acknowledgement of the answer.

    Hash, MAC, base64 and the readers of PEM files come from other crates and are an
    interface; so is the text of header values.  Byte strings are strings. *)

From S2P Require Import Prelude Text Hex Domain Relay.
Open Scope string_scope.
Open Scope list_scope.
Open Scope N_scope.

(** ** Cryptography *)

Class InternalCrypto := {
  sha256 : string → string;
  hmac_sha256 : string → string → string;
  (** [URL_SAFE_NO_PAD] *)
  base64_encode : string → string;
  base64_decode : string → option string;
  private_key_der : string → result string string;
  certificate_der : string → result string string;
  base64_decode_encode : ∀ s, base64_decode (base64_encode s) = Some s;
}.

(** ** Records *)

Definition INTERNAL_SIGNATURE_HEADER : string := "x-xp-internal-signature".
Definition INTERNAL_ROUTE_HEADER : string := "x-xp-internal-route".
Definition INTERNAL_CLUSTER_ID_HEADER : string := "x-xp-cluster-id".
Definition INTERNAL_SENDER_ID_HEADER : string := "x-xp-sender-id".
Definition INTERNAL_TARGET_ID_HEADER : string := "x-xp-target-id".
Definition INTERNAL_REQUEST_ID_HEADER : string := "x-xp-request-id".
Definition INTERNAL_ISSUED_AT_HEADER : string := "x-xp-issued-at".
Definition AUTH_WINDOW_SECS : Z := 120.

Inductive InternalRoute : Type := MeshV2 | HealthV2.
#[global] Instance InternalRoute_eq_dec : EqDecision InternalRoute.
Proof. solve_decision. Defined.
Definition InternalRoute_as_str (r : InternalRoute) : string := match r with MeshV2 => "mesh-v2" | HealthV2 => "health-v2" end.

Inductive AuthError : Type := AuthInvalid (message : string) | AuthCrypto (message : string).

Definition InternalRoute_parse (value : string) : result InternalRoute AuthError :=
  if bool_decide (value = "mesh-v2") then Ok MeshV2
  else if bool_decide (value = "health-v2") then Ok HealthV2
  else Err (AuthInvalid "unknown internal route").

Record RequestContext : Type := mkRequestContext {
  cx_route : InternalRoute;
  cx_cluster_id : string;
  cx_sender_id : string;
  cx_target_id : string;
  cx_request_id : string;
  cx_issued_at : Z;
}.
#[global] Instance RequestContext_eq_dec : EqDecision RequestContext.
Proof. solve_decision. Defined.

Record VerifiedRequest : Type := mkVerifiedRequest {
  vr_context : RequestContext;
  vr_body_sha256 : string;
  vr_canonical_sha256 : string;
  vr_idempotency_sha256 : string;
}.

(** The method and the path with its query, as they are signed. *)
Record RequestLine : Type := mkRequestLine { rl_method : string; rl_raw_uri : string }.

(** ** Canonical texts *)

Definition contains_line_break (s : string) : bool := contains_char (Ascii.ascii_of_N 13) s || contains_char newline s.
Definition validate_context (context : RequestContext) : result unit AuthError :=
  try_each (λ value, if str_is_empty (trim value) || (256 <? N.of_nat (String.length value)) || contains_line_break value
                     then Err (AuthInvalid "internal metadata is invalid") else Ok tt)
    [cx_cluster_id context; cx_sender_id context; cx_target_id context; cx_request_id context].

Definition request_parts (context : RequestContext) (line : RequestLine) (content_type content_length body_sha256 : string) : list string :=
  [InternalRoute_as_str (cx_route context); rl_method line; rl_raw_uri line; content_type; content_length; body_sha256;
   cx_cluster_id context; cx_sender_id context; cx_target_id context; cx_request_id context].
Definition canonical_request (context : RequestContext) (line : RequestLine) (content_type content_length body_sha256 : string) : string :=
  join_lines ("v2" :: request_parts context line content_type content_length body_sha256 ++ [pretty (cx_issued_at context)]).
Definition idempotency_canonical_request (context : RequestContext) (line : RequestLine) (content_type content_length body_sha256 : string) : string :=
  join_lines ("v2-idempotency" :: request_parts context line content_type content_length body_sha256).
Definition canonical_ack (verified : VerifiedRequest) (responder_id : string) (status : N) : string :=
  join_lines ["v2-ack"; cx_request_id (vr_context verified); vr_canonical_sha256 verified; pretty (cx_issued_at (vr_context verified)); responder_id;
    pretty status; vr_body_sha256 verified; cx_cluster_id (vr_context verified); cx_sender_id (vr_context verified); cx_target_id (vr_context verified)].

(** [i64::saturating_add] and [saturating_sub] *)
Definition clamp_i64 (z : Z) : Z := Z.max (- 9223372036854775808) (Z.min z 9223372036854775807).
Definition is_within_auth_window (issued_at now : Z) : bool :=
  ((clamp_i64 (now - AUTH_WINDOW_SECS) <=? issued_at) && (issued_at <=? clamp_i64 (now + AUTH_WINDOW_SECS)))%Z.

Section Auth.
Context `{InternalCrypto} `{HeaderValues}.

(** [HeaderMap]: the values of each name, in order. *)
Notation HeaderMap := (gmap string (list header_value)).

Definition auth_body_sha256 (body : string) : string := hex_encode (sha256 body).
Definition hmac_base64 (key message : string) : string := base64_encode (hmac_sha256 key message).

(** HKDF over the private key, salted with the fingerprint of the certificate. *)
Definition derive_subkey (cluster_ca_key_pem cluster_ca_cert_pem info : string) : result string AuthError :=
  let? key_der := map_err AuthCrypto (private_key_der cluster_ca_key_pem) in
  let? cert_der := map_err AuthCrypto (certificate_der cluster_ca_cert_pem) in
  let prk := hmac_sha256 (sha256 cert_der) key_der in
  Ok (hmac_sha256 prk (info +:+ String (Ascii.ascii_of_N 1) "")).

(** ** Headers *)

Definition auth_header_value (headers : HeaderMap) (name : string) : option string :=
  match default [] (headers !! name) with
  | [] => None
  | value :: others => text ← header_value_to_str value; match others with [] => Some text | _ => None end
  end.
Definition required_header (headers : HeaderMap) (name : string) : result string AuthError :=
  ok_or (auth_header_value headers name) (AuthInvalid "missing internal metadata").
Definition auth_insert_header (headers : HeaderMap) (field : string * string) : result HeaderMap AuthError :=
  let? value := ok_or (header_value_from_str field.2) (AuthInvalid "internal metadata contains an invalid header value") in
  Ok (<[field.1 := [value]]> headers).

Definition context_fields (context : RequestContext) : list (string * string) :=
  [(INTERNAL_ROUTE_HEADER, InternalRoute_as_str (cx_route context)); (INTERNAL_CLUSTER_ID_HEADER, cx_cluster_id context);
   (INTERNAL_SENDER_ID_HEADER, cx_sender_id context); (INTERNAL_TARGET_ID_HEADER, cx_target_id context);
   (INTERNAL_REQUEST_ID_HEADER, cx_request_id context); (INTERNAL_ISSUED_AT_HEADER, pretty (cx_issued_at context))].

Definition request_context_from_headers (headers : HeaderMap) : result RequestContext AuthError :=
  let? raw_route := required_header headers INTERNAL_ROUTE_HEADER in
  let? route := InternalRoute_parse raw_route in
  let? raw_issued_at := required_header headers INTERNAL_ISSUED_AT_HEADER in
  let? issued_at := ok_or (parse_i64 raw_issued_at) (AuthInvalid "issued at is invalid") in
  let? cluster_id := required_header headers INTERNAL_CLUSTER_ID_HEADER in
  let? sender_id := required_header headers INTERNAL_SENDER_ID_HEADER in
  let? target_id := required_header headers INTERNAL_TARGET_ID_HEADER in
  let? request_id := required_header headers INTERNAL_REQUEST_ID_HEADER in
  Ok (mkRequestContext route cluster_id sender_id target_id request_id issued_at).

(** ** Requests *)

Definition request_info : string := "xp/internal-auth-v2/request".
Definition ack_info : string := "xp/internal-auth-v2/ack".

(** The headers with the metadata and the signature added. *)
Definition sign_request_v2 (cluster_ca_key_pem cluster_ca_cert_pem : string) (line : RequestLine) (content_type : option string) (body : string)
    (context : RequestContext) (headers : HeaderMap) : result HeaderMap AuthError :=
  let? _ := validate_context context in
  let canonical := canonical_request context line (default "" content_type) (pretty (N.of_nat (String.length body))) (auth_body_sha256 body) in
  let? key := derive_subkey cluster_ca_key_pem cluster_ca_cert_pem request_info in
  let signature := hmac_base64 key canonical in
  try_fold auth_insert_header headers (context_fields context ++ [(INTERNAL_SIGNATURE_HEADER, "v2:" +:+ signature)]).

Definition verify_request_v2 (now : Z) (cluster_ca_key_pem cluster_ca_cert_pem : string) (line : RequestLine) (headers : HeaderMap) (body : string)
    (expected_cluster_id expected_target_id : string) : result VerifiedRequest AuthError :=
  let? context := request_context_from_headers headers in
  let? _ := validate_context context in
  if negb (bool_decide (cx_cluster_id context = expected_cluster_id)) then Err (AuthInvalid "cluster id does not match") else
  if negb (bool_decide (cx_target_id context = expected_target_id)) then Err (AuthInvalid "target id does not match") else
  if negb (is_within_auth_window (cx_issued_at context) now) then Err (AuthInvalid "request signature is outside the accepted clock window") else
  let content_type := default "" (auth_header_value headers "content-type") in
  let content_length := default (pretty (N.of_nat (String.length body))) (auth_header_value headers "content-length") in
  if negb (bool_decide (parse_u64 content_length = Some (N.of_nat (String.length body)))) then Err (AuthInvalid "content length does not match request body") else
  let body_sha256 := auth_body_sha256 body in
  let canonical := canonical_request context line content_type content_length body_sha256 in
  let? signature := ok_or (auth_header_value headers INTERNAL_SIGNATURE_HEADER) (AuthInvalid "missing internal signature") in
  let? encoded := ok_or (strip_prefix "v2:" signature) (AuthInvalid "legacy internal auth is not accepted") in
  let? actual := ok_or (base64_decode encoded) (AuthInvalid "invalid internal signature encoding") in
  let? key := derive_subkey cluster_ca_key_pem cluster_ca_cert_pem request_info in
  if negb (bool_decide (hmac_sha256 key canonical = actual)) then Err (AuthInvalid "internal signature does not verify") else
  let idempotency_sha256 := hex_encode (sha256 (idempotency_canonical_request context line content_type content_length body_sha256)) in
  Ok (mkVerifiedRequest context body_sha256 (hex_encode (sha256 canonical)) idempotency_sha256).

(** ** Acknowledgements *)

Definition sign_ack_v2 (cluster_ca_key_pem cluster_ca_cert_pem : string) (verified : VerifiedRequest) (responder_id : string) (status : N) : result string AuthError :=
  if str_is_empty (trim responder_id) then Err (AuthInvalid "responder id is empty") else
  let canonical := canonical_ack verified responder_id status in
  let? key := derive_subkey cluster_ca_key_pem cluster_ca_cert_pem ack_info in
  Ok ("v2:" +:+ hmac_base64 key canonical).

Definition verify_ack_v2 (cluster_ca_key_pem cluster_ca_cert_pem : string) (verified : VerifiedRequest) (responder_id : string) (status : N) (value : string)
    : result unit AuthError :=
  let? encoded := ok_or (strip_prefix "v2:" value) (AuthInvalid "missing or legacy acknowledgement") in
  let? actual := ok_or (base64_decode encoded) (AuthInvalid "invalid acknowledgement encoding") in
  let canonical := canonical_ack verified responder_id status in
  let? key := derive_subkey cluster_ca_key_pem cluster_ca_cert_pem ack_info in
  if bool_decide (hmac_sha256 key canonical = actual) then Ok tt else Err (AuthInvalid "acknowledgement does not verify").

(** * What a signature covers *)

(** Single lines, as methods, targets and header values are. *)
Definition one_line (s : string) : Prop := newline ∉ chars s.
#[global] Instance one_line_dec s : Decision (one_line s).
Proof. unfold one_line. apply _. Defined.

Lemma hex_digit_not_newline n : n < 16 → hex_digit n ≠ newline.
Proof.
  intros Hn Heq. apply (f_equal code) in Heq. unfold hex_digit, code, newline in Heq. rewrite !Ascii.N_ascii_embedding in Heq; destruct (N.ltb_spec n 10); lia.
Qed.
Lemma hex_one_line s : one_line (hex_encode s).
Proof.
  unfold one_line, hex_encode. rewrite chars_of_chars. intros (c & Hin & Hc)%list_elem_of_In%in_flat_map.
  assert (code c < 256) as Hcode by apply Ascii.N_ascii_bounded.
  destruct Hc as [Hc|[Hc|[]]]; apply hex_digit_not_newline in Hc; try done; [apply N.Div0.div_lt_upper_bound; lia|by apply N.mod_lt].
Qed.
Lemma parse_digits_one_line max acc l n : parse_digits max acc l = Some n → newline ∉ l.
Proof.
  revert acc. induction l as [|c l IH]; intros acc Hp; [by apply not_elem_of_nil|]. cbn [parse_digits] in Hp.
  destruct (digit_value 10 c) as [d|] eqn:Hd; [|discriminate]. cbv zeta in Hp. destruct (_ <=? max); [|discriminate].
  apply not_elem_of_cons. split; [|by eapply IH]. intros <-. by vm_compute in Hd.
Qed.
Lemma parse_digits_mono max max' acc l n : max ≤ max' → parse_digits max acc l = Some n → parse_digits max' acc l = Some n.
Proof.
  intros Hle. revert acc. induction l as [|c l IH]; intros acc; [done|]. cbn [parse_digits]. destruct (digit_value 10 c) as [d|]; [|done]. cbv zeta.
  destruct (N.leb_spec (acc * 10 + d) max); [|done]. destruct (N.leb_spec (acc * 10 + d) max'); [apply IH|lia].
Qed.
Lemma parse_uint_mono max max' s n : max ≤ max' → parse_uint max s = Some n → parse_uint max' s = Some n.
Proof.
  intros Hle. unfold parse_uint. destruct (chars s) as [|c l]; [done|]. pose proof (parse_digits_mono max max' 0 (c :: l) n Hle) as Hcl.
  pose proof (parse_digits_mono max max' 0 l n Hle). destruct (decide (c = "+"%char)) as [->|Hne]; [by destruct l|].
  destruct c as [[] [] [] [] [] [] [] []]; done.
Qed.
Lemma parse_u64_one_line s n : parse_u64 s = Some n → one_line s.
Proof.
  unfold parse_u64, parse_uint, one_line. destruct (chars s) as [|c l]; [done|]. intros Hp.
  assert (c = "+"%char ∨ parse_digits u64_max 0 (c :: l) = Some n) as [->|Hc].
  { destruct (decide (c = "+"%char)) as [->|Hne]; [by left|]. right. destruct c as [[] [] [] [] [] [] [] []]; done. }
  - apply not_elem_of_cons. split; [done|]. destruct l as [|c' l]; [done|]. by apply (parse_digits_one_line u64_max 0 _ n).
  - by apply (parse_digits_one_line u64_max 0 _ n).
Qed.
Lemma valid_one_line context : validate_context context = Ok tt →
  Forall one_line [cx_cluster_id context; cx_sender_id context; cx_target_id context; cx_request_id context].
Proof.
  intros Hv%try_each_ok. eapply Forall_impl; [exact Hv|]. intros s Hs. cbv beta in Hs. unfold one_line.
  destruct (str_is_empty _); [discriminate|]. destruct (256 <? _); [discriminate|]. unfold contains_line_break in Hs. cbn [orb] in Hs.
  intros Hin%contains_char_true. rewrite Hin, orb_true_r in Hs. discriminate.
Qed.

Definition covered (context : RequestContext) (line : RequestLine) (content_type content_length body_sha256 : string) : Prop :=
  validate_context context = Ok tt ∧ Forall one_line [rl_method line; rl_raw_uri line; content_type; content_length; body_sha256].

Lemma request_parts_lines context line content_type content_length body_sha256 :
  covered context line content_type content_length body_sha256 → Forall one_line (request_parts context line content_type content_length body_sha256).
Proof.
  intros [Hv%valid_one_line Hl]. rewrite !Forall_cons in *. destruct_and!. unfold request_parts. rewrite !Forall_cons. split_and!; try done.
  unfold one_line. by destruct (cx_route context); apply (bool_decide_unpack _).
Qed.

Lemma canonical_request_inj context line ct cl sha context' line' ct' cl' sha' :
  covered context line ct cl sha → covered context' line' ct' cl' sha' → canonical_request context line ct cl sha = canonical_request context' line' ct' cl' sha' →
  context = context' ∧ line = line' ∧ ct = ct' ∧ cl = cl' ∧ sha = sha'.
Proof.
  intros Hc%request_parts_lines Hc'%request_parts_lines Heq. unfold canonical_request in Heq. apply join_lines_inj in Heq; [|done..| |].
  2,3: constructor; [by apply (bool_decide_unpack _)|]; apply Forall_app; split; [done|]; constructor; [apply pretty_Z_no_newline|constructor].
  unfold request_parts in Heq. cbn [app] in Heq. destruct context as [r ? ? ? ? at1], context' as [r' ? ? ? ? at2], line, line'. cbn in *.
  injection Heq as Hr ? ? ? ? ? ? ? ? ? Hat. apply (inj pretty) in Hat. assert (r = r') as -> by (by destruct r, r'). by subst.
Qed.

(** ** Signing and verifying *)

Lemma inserted_lookup fields headers headers' :
  NoDup fields.*1 → try_fold auth_insert_header headers fields = Ok headers' →
  (∀ name value, (name, value) ∈ fields → auth_header_value headers' name = Some value) ∧
  (∀ name, name ∉ fields.*1 → auth_header_value headers' name = auth_header_value headers name).
Proof.
  revert headers. induction fields as [|[n v] fields IH]; intros headers Hnd Hins.
  - injection Hins as <-. split; [by intros ? ? ?%not_elem_of_nil|done].
  - csimpl in *. apply NoDup_cons in Hnd as [Hn Hnd]. apply rbind_ok_inv in Hins as (h & Hh & Hins). unfold auth_insert_header in Hh. destruct_ok.
    destruct (IH _ Hnd Hins) as [IHin IHout]. split.
    + intros name value [[= -> ->]|Hin]%elem_of_cons; [|by apply IHin]. rewrite IHout by done. unfold auth_header_value. rewrite lookup_insert_eq. cbn.
      erewrite header_value_roundtrip; done.
    + intros name [Hne Hname]%not_elem_of_cons. rewrite IHout by done. unfold auth_header_value. by rewrite lookup_insert_ne.
Qed.

Lemma sign_request_inv ca_key ca_cert line content_type body context headers headers' :
  sign_request_v2 ca_key ca_cert line content_type body context headers = Ok headers' →
  validate_context context = Ok tt ∧ ∃ key, derive_subkey ca_key ca_cert request_info = Ok key ∧
  (∀ name value, (name, value) ∈ context_fields context → auth_header_value headers' name = Some value) ∧
  auth_header_value headers' INTERNAL_SIGNATURE_HEADER = Some ("v2:" +:+ hmac_base64 key
    (canonical_request context line (default "" content_type) (pretty (N.of_nat (String.length body))) (auth_body_sha256 body))) ∧
  (∀ name, name ∉ (context_fields context).*1 → name ≠ INTERNAL_SIGNATURE_HEADER → auth_header_value headers' name = auth_header_value headers name).
Proof.
  unfold sign_request_v2. intros Hsign. destruct (validate_context context) as [[]|] eqn:Hv; [|discriminate]. cbn [rbind] in Hsign.
  destruct (derive_subkey ca_key ca_cert request_info) as [key|] eqn:Hkey; [|discriminate]. cbn [rbind] in Hsign. split; [done|]. exists key. split; [done|].
  apply inserted_lookup in Hsign as [Hin Hout]; [|apply (bool_decide_unpack _); by vm_compute]. split_and!.
  - intros name value Hf. apply Hin, elem_of_app. by left.
  - apply Hin, elem_of_app. right. by apply list_elem_of_singleton.
  - intros name Hn Hs. apply Hout. rewrite fmap_app. intros [?| ->%list_elem_of_singleton]%elem_of_app; done.
Qed.

Lemma strip_prefix_app p s : strip_prefix p (p +:+ s) = Some s.
Proof. unfold strip_prefix. rewrite chars_app. assert (strip_seq (chars p) (chars p ++ chars s) = Some (chars s)) as -> by (by apply strip_seq_Some). cbn. by rewrite of_chars_chars. Qed.

Definition header_content_type (headers : HeaderMap) : string := default "" (auth_header_value headers "content-type").
Definition header_content_length (headers : HeaderMap) (body : string) : string :=
  default (pretty (N.of_nat (String.length body))) (auth_header_value headers "content-length").

Lemma verify_request_inv now ca_key ca_cert line headers body cluster target verified :
  verify_request_v2 now ca_key ca_cert line headers body cluster target = Ok verified →
  let context := vr_context verified in
  request_context_from_headers headers = Ok context ∧ validate_context context = Ok tt ∧ cx_cluster_id context = cluster ∧ cx_target_id context = target ∧
  is_within_auth_window (cx_issued_at context) now = true ∧ parse_u64 (header_content_length headers body) = Some (N.of_nat (String.length body)) ∧
  (∃ key encoded, derive_subkey ca_key ca_cert request_info = Ok key ∧ auth_header_value headers INTERNAL_SIGNATURE_HEADER = Some ("v2:" +:+ encoded) ∧
    base64_decode encoded = Some (hmac_sha256 key (canonical_request context line (header_content_type headers) (header_content_length headers body) (auth_body_sha256 body)))) ∧
  vr_body_sha256 verified = auth_body_sha256 body ∧
  vr_idempotency_sha256 verified = hex_encode (sha256 (idempotency_canonical_request context line (header_content_type headers) (header_content_length headers body) (auth_body_sha256 body))).
Proof.
  unfold verify_request_v2. intros Hv. destruct (request_context_from_headers headers) as [context|] eqn:Hcx; [|discriminate]. cbn [rbind] in Hv.
  destruct (validate_context context) as [[]|] eqn:Hval; [|discriminate]. cbn [rbind] in Hv. do 2 (case_bool_decide; [|discriminate]).
  destruct (is_within_auth_window _ now) eqn:Hwin; [|discriminate]. cbn [negb] in Hv. fold (header_content_type headers) (header_content_length headers body) in Hv.
  case_bool_decide as Hlen; [|discriminate]. cbn [negb] in Hv. destruct (auth_header_value headers INTERNAL_SIGNATURE_HEADER) as [sig|] eqn:Hsig; [|discriminate]. cbn [ok_or rbind] in Hv.
  destruct (strip_prefix "v2:" sig) as [encoded|] eqn:Hstrip; [|discriminate]. cbn [ok_or rbind] in Hv.
  destruct (base64_decode encoded) as [actual|] eqn:Hdec; [|discriminate]. cbn [ok_or rbind] in Hv.
  destruct (derive_subkey ca_key ca_cert request_info) as [key|] eqn:Hkey; [|discriminate]. cbn [rbind] in Hv. case_bool_decide as Hmac; [|discriminate]. cbn [negb] in Hv.
  injection Hv as <-. cbn [vr_context vr_body_sha256 vr_idempotency_sha256]. split_and!; try done. exists key, encoded. split_and!; [done| |by rewrite Hmac]. f_equal.
  unfold strip_prefix in Hstrip. destruct (strip_seq (chars "v2:") (chars sig)) as [r|] eqn:Hs; [|discriminate]. injection Hstrip as <-. apply strip_seq_Some in Hs.
  rewrite <- (of_chars_chars sig), Hs. done.
Qed.

(** ** Acceptance *)

(** The two texts a presented and a signed request are authenticated by. *)
Definition presented_text (context : RequestContext) (line : RequestLine) (headers : HeaderMap) (body : string) : string :=
  canonical_request context line (header_content_type headers) (header_content_length headers body) (auth_body_sha256 body).
Definition signed_text (context : RequestContext) (line : RequestLine) (content_type : option string) (body : string) : string :=
  canonical_request context line (default "" content_type) (pretty (N.of_nat (String.length body))) (auth_body_sha256 body).

(** The MAC keys of the cluster tell two given texts apart. *)
Definition told_apart (ca_key ca_cert info text text' : string) : Prop :=
  ∀ key, derive_subkey ca_key ca_cert info = Ok key → hmac_sha256 key text = hmac_sha256 key text' → text = text'.

(** Reading back the metadata of a context. *)
Lemma context_read headers context :
  (- 9223372036854775808 ≤ cx_issued_at context < 9223372036854775808)%Z →
  (∀ name value, (name, value) ∈ context_fields context → auth_header_value headers name = Some value) → request_context_from_headers headers = Ok context.
Proof.
  intros Hat Hget. unfold request_context_from_headers, required_header, context_fields in *.
  rewrite (Hget INTERNAL_ROUTE_HEADER (InternalRoute_as_str (cx_route context))), (Hget INTERNAL_ISSUED_AT_HEADER (pretty (cx_issued_at context))),
    (Hget INTERNAL_CLUSTER_ID_HEADER (cx_cluster_id context)), (Hget INTERNAL_SENDER_ID_HEADER (cx_sender_id context)),
    (Hget INTERNAL_TARGET_ID_HEADER (cx_target_id context)), (Hget INTERNAL_REQUEST_ID_HEADER (cx_request_id context)) by (rewrite !elem_of_cons; tauto).
  cbn [ok_or rbind]. assert (InternalRoute_parse (InternalRoute_as_str (cx_route context)) = Ok (cx_route context)) as -> by (by destruct (cx_route context)).
  cbn [rbind]. rewrite parse_i64_pretty by done. cbn [ok_or rbind]. by destruct context.
Qed.

Lemma header_one_line headers name value : auth_header_value headers name = Some value → one_line value.
Proof.
  unfold auth_header_value. destruct (default [] _) as [|v vs]; [discriminate|]. destruct (header_value_to_str v) as [t|] eqn:Ht; [|discriminate].
  cbn. destruct vs; [|discriminate]. intros [= <-]. by eapply header_value_one_line.
Qed.

Lemma presented_covered context line headers body :
  validate_context context = Ok tt → one_line (rl_method line) → one_line (rl_raw_uri line) →
  parse_u64 (header_content_length headers body) = Some (N.of_nat (String.length body)) →
  covered context line (header_content_type headers) (header_content_length headers body) (auth_body_sha256 body).
Proof.
  intros Hv Hm Hu Hl. split; [done|]. rewrite !Forall_cons. split_and!; try done; [|by eapply parse_u64_one_line|apply hex_one_line].
  unfold header_content_type. destruct (auth_header_value headers "content-type") as [ct|] eqn:Hct; [by eapply header_one_line|by apply (bool_decide_unpack _)].
Qed.

Lemma signed_covered context line content_type body :
  validate_context context = Ok tt → one_line (rl_method line) → one_line (rl_raw_uri line) → one_line (default "" content_type) →
  covered context line (default "" content_type) (pretty (N.of_nat (String.length body))) (auth_body_sha256 body).
Proof. intros Hv Hm Hu Hc. split; [done|]. rewrite !Forall_cons. split_and!; try done; [apply pretty_N_no_newline|apply hex_one_line]. Qed.

(** What a presented request has to be for a signature to be good for it. *)
Record is_signed_request (now : Z) (line : RequestLine) (headers : HeaderMap) (body cluster target : string)
    (line' : RequestLine) (content_type' : option string) (body' : string) (context' : RequestContext) : Prop := {
  sr_context : request_context_from_headers headers = Ok context';
  sr_line : line = line';
  sr_content_type : header_content_type headers = default "" content_type';
  sr_content_length : header_content_length headers body = pretty (N.of_nat (String.length body));
  sr_length : String.length body = String.length body';
  sr_body : auth_body_sha256 body = auth_body_sha256 body';
  sr_cluster : cx_cluster_id context' = cluster;
  sr_target : cx_target_id context' = target;
  sr_window : is_within_auth_window (cx_issued_at context') now = true;
}.

(** C19: what a signature is good for.  Present a request with the signature that was made for some
    request under the cluster key, and let the MAC tell the texts of the two apart if they
    differ.  It is accepted exactly if its metadata is the signed one, its method, target,
    content type, length and body digest are the signed ones, a content length header, where it
    has one, is the length of the body in decimal, it arrives at the cluster and the node the
    signature is for, and this within two minutes of the time it was signed for.  What is then
    handed on is the signed context and the digest of the signed body.  The metadata of the
    headers the signer made reads back as what was signed, so that a signed request sent as it
    is is accepted. *)
Theorem signature_accepted_iff (now : Z) (ca_key ca_cert : string) (line line' : RequestLine) (headers headers0 headers' : HeaderMap)
    (body body' cluster target : string) (content_type' : option string) (context' : RequestContext)
    (Hbody : N.of_nat (String.length body) ≤ u64_max)
    (Hlines : Forall one_line [rl_method line; rl_raw_uri line; rl_method line'; rl_raw_uri line'; default "" content_type'])
    (Hsigned : sign_request_v2 ca_key ca_cert line' content_type' body' context' headers0 = Ok headers')
    (Hsame : auth_header_value headers INTERNAL_SIGNATURE_HEADER = auth_header_value headers' INTERNAL_SIGNATURE_HEADER)
    (Hmac : ∀ context, request_context_from_headers headers = Ok context →
       told_apart ca_key ca_cert request_info (presented_text context line headers body) (signed_text context' line' content_type' body')) :
  let accepted := verify_request_v2 now ca_key ca_cert line headers body cluster target in
  (is_ok accepted = true ↔ is_signed_request now line headers body cluster target line' content_type' body' context') ∧
  (∀ verified, accepted = Ok verified → vr_context verified = context' ∧ vr_body_sha256 verified = auth_body_sha256 body') ∧
  ((- 9223372036854775808 ≤ cx_issued_at context' < 9223372036854775808)%Z → request_context_from_headers headers' = Ok context').
Proof.
  apply sign_request_inv in Hsigned as (Hval' & key & Hkey & Hget' & Hsig' & _). intros accepted.
  rewrite !Forall_cons in Hlines. destruct Hlines as (Hm & Hu & Hm' & Hu' & Hct' & _).
  assert (∀ verified, accepted = Ok verified → is_signed_request now line headers body cluster target line' content_type' body' context' ∧
    vr_context verified = context' ∧ vr_body_sha256 verified = auth_body_sha256 body') as Hacc.
  { intros verified Hv. apply verify_request_inv in Hv as (Hcx & Hval & Hcl & Htg & Hwin & Hlen & (key2 & encoded & Hkey2 & Hsig & Hdec) & Hsha & _).
    rewrite Hkey in Hkey2. injection Hkey2 as <-. rewrite Hsig, Hsig' in Hsame. apply (f_equal (λ s, s ≫= strip_prefix "v2:")) in Hsame.
    cbn [mbind option_bind] in Hsame. rewrite !strip_prefix_app in Hsame. injection Hsame as ->. unfold hmac_base64 in Hdec. rewrite base64_decode_encode in Hdec.
    injection Hdec as Hdec. symmetry in Hdec. apply (Hmac _ Hcx key Hkey) in Hdec. unfold presented_text, signed_text in Hdec.
    apply canonical_request_inj in Hdec as (Hc & Hl & Ht & Hcl2 & Hs); [|by apply presented_covered|by apply signed_covered].
    assert (String.length body = String.length body') as Hbl.
    { rewrite Hcl2 in Hlen. unfold parse_u64 in Hlen.
      apply (parse_uint_mono u64_max (N.max u64_max (N.of_nat (String.length body')))) in Hlen; [|lia]. rewrite parse_uint_pretty in Hlen by lia. injection Hlen. lia. }
    split_and!; [|done|by rewrite Hsha]. rewrite <-Hc in *. split; try done. by rewrite Hcl2, Hbl. }
  split_and!; [split| |].
  - intros Hok. destruct accepted as [verified|]; [|discriminate]. by apply (Hacc verified).
  - intros [Hcx Hline Hct Hcl Hbl Hsha Hcluster Htarget Hwin]. unfold accepted, verify_request_v2. rewrite Hcx. cbn [rbind]. rewrite Hval'. cbn [rbind].
    rewrite !bool_decide_eq_true_2 by done. cbn [negb]. rewrite Hwin. cbn [negb]. fold (header_content_type headers) (header_content_length headers body).
    assert (parse_u64 (header_content_length headers body) = Some (N.of_nat (String.length body))) as -> by (rewrite Hcl; unfold parse_u64; by rewrite parse_uint_pretty).
    rewrite bool_decide_eq_true_2 by done. cbn [negb]. rewrite Hsame, Hsig'. cbn [ok_or rbind].
    rewrite strip_prefix_app. cbn [ok_or rbind]. unfold hmac_base64. rewrite base64_decode_encode. cbn [ok_or rbind]. rewrite Hkey. cbn [rbind].
    rewrite Hct, Hcl, Hline, Hbl, Hsha. by rewrite bool_decide_eq_true_2.
  - intros verified Hv. by apply (Hacc verified).
  - intros Hat. by apply context_read.
Qed.

(** An acknowledgement is accepted exactly for the answer it was made for: the same
    responder, status and request, unless the MAC takes the two texts for the same. *)
Theorem acknowledgement_binds_answer (ca_key ca_cert : string) (verified verified' : VerifiedRequest) (responder responder' value : string) (status status' : N)
    (Hmac : told_apart ca_key ca_cert ack_info (canonical_ack verified responder status) (canonical_ack verified' responder' status'))
    (Hv : Forall one_line [vr_canonical_sha256 verified; vr_body_sha256 verified; responder; cx_cluster_id (vr_context verified);
      cx_sender_id (vr_context verified); cx_target_id (vr_context verified); cx_request_id (vr_context verified)])
    (Hv' : Forall one_line [vr_canonical_sha256 verified'; vr_body_sha256 verified'; responder'; cx_cluster_id (vr_context verified');
      cx_sender_id (vr_context verified'); cx_target_id (vr_context verified'); cx_request_id (vr_context verified')])
    (Hsigned : sign_ack_v2 ca_key ca_cert verified' responder' status' = Ok value) :
  verify_ack_v2 ca_key ca_cert verified responder status value = Ok tt ↔
  responder = responder' ∧ status = status' ∧ vr_canonical_sha256 verified = vr_canonical_sha256 verified' ∧ vr_body_sha256 verified = vr_body_sha256 verified' ∧
  cx_request_id (vr_context verified) = cx_request_id (vr_context verified') ∧ cx_issued_at (vr_context verified) = cx_issued_at (vr_context verified') ∧
  cx_cluster_id (vr_context verified) = cx_cluster_id (vr_context verified') ∧ cx_sender_id (vr_context verified) = cx_sender_id (vr_context verified') ∧
  cx_target_id (vr_context verified) = cx_target_id (vr_context verified').
Proof.
  unfold sign_ack_v2 in Hsigned. destruct (str_is_empty _); [discriminate|]. destruct (derive_subkey ca_key ca_cert ack_info) as [key|] eqn:Hkey; [|discriminate].
  cbn [rbind] in Hsigned. assert (value = "v2:" +:+ hmac_base64 key (canonical_ack verified' responder' status')) as -> by congruence.
  unfold verify_ack_v2. rewrite strip_prefix_app. cbn [ok_or rbind]. unfold hmac_base64. rewrite base64_decode_encode. cbn [ok_or rbind]. rewrite Hkey. cbn [rbind].
  rewrite !Forall_cons in Hv, Hv'. destruct_and!. case_bool_decide as Heq.
  - split; [intros _|done]. apply (Hmac key Hkey) in Heq. unfold canonical_ack in Heq. apply join_lines_inj in Heq; [|done..| |].
    2,3: repeat (constructor; [first [done|apply pretty_N_no_newline|apply pretty_Z_no_newline|by apply (bool_decide_unpack _)]|]); constructor.
    injection Heq as ? ? Hat ? Hst ? ? ? ?. apply (inj pretty) in Hat, Hst. done.
  - split; [done|]. intros (-> & -> & Hc & Hb & Hr & Ha & Hcl & Hsd & Htg). destruct Heq. unfold canonical_ack. by rewrite Hc, Hb, Hr, Ha, Hcl, Hsd, Htg.
Qed.
End Auth.

(** ** Examples *)

Module AuthSample.
#[local] Existing Instance ascii_headers.

(** Bytes in hexadecimal, and back. *)
Fixpoint hex_pairs (l : list ascii) : option (list ascii) :=
  match l with
  | [] => Some []
  | a :: b :: l =>
      hi ← digit_value 16 a; lo ← digit_value 16 b; rest ← hex_pairs l;
      Some (Ascii.ascii_of_N (16 * hi + lo) :: rest)
  | _ => None
  end.
Lemma hex_pair_read c : (hi ← digit_value 16 (hex_digit (code c / 16)); lo ← digit_value 16 (hex_digit (code c mod 16)); Some (Ascii.ascii_of_N (16 * hi + lo))) = Some c.
Proof. by destruct c as [[] [] [] [] [] [] [] []]. Qed.
Lemma hex_read s : of_chars <$> hex_pairs (chars (hex_encode s)) = Some s.
Proof.
  unfold hex_encode. rewrite chars_of_chars. rewrite <- (of_chars_chars s) at 2. induction (chars s) as [|c l IH]; [done|]. cbn [flat_map app hex_pairs].
  pose proof (hex_pair_read c) as Hc. destruct (digit_value 16 (hex_digit (code c / 16))) as [hi|]; [|discriminate]. cbn [mbind option_bind] in *.
  destruct (digit_value 16 (hex_digit (code c mod 16))) as [lo|]; [|discriminate]. cbn [mbind option_bind] in *. injection Hc as ->.
  destruct (hex_pairs (flat_map _ l)) as [r|]; [|discriminate]. cbn in *. injection IH as IH. by rewrite IH.
Qed.

(** Digests and MACs have the width of the real ones and collide: the digest is a prefix, the MAC
    the end of the message. *)
#[refine] Definition plain_crypto : InternalCrypto := {|
  sha256 s := of_chars (take 32 (chars s ++ replicate 32 "0"%char));
  hmac_sha256 key message := of_chars (take 32 (rev (chars message) ++ replicate 32 "0"%char));
  base64_encode := hex_encode;
  base64_decode s := of_chars <$> hex_pairs (chars s);
  private_key_der := Ok;
  certificate_der := Ok;
|}.
Proof. apply hex_read. Defined.
#[local] Existing Instance plain_crypto.

Definition context : RequestContext := mkRequestContext MeshV2 "cluster" "n1" "n2" "r1" 1000.
Definition line : RequestLine := mkRequestLine "POST" "/api/admin/_internal/raft/client-write".
Definition with_length : gmap string (list header_value) := match auth_insert_header ∅ ("content-length", "2") with Ok headers => headers | Err _ => ∅ end.
Definition signed : result (gmap string (list header_value)) AuthError := sign_request_v2 "key" "cert" line None "{}" context with_length.

(** The request as it was signed, with a content length. *)
Definition sent_as_signed (s : result (gmap string (list header_value)) AuthError) : bool :=
  match s with
  | Ok headers =>
      (match request_context_from_headers headers with Ok c => bool_decide (c = context) | Err _ => false end) && bool_decide (auth_header_value headers "content-length" = Some "2") &&
      bool_decide (presented_text context line headers "{}" = signed_text context line None "{}") && bool_decide (header_content_type headers = "")
  | Err _ => false
  end.
Lemma signed_sent : sent_as_signed signed = true.
Proof. by vm_compute. Qed.

(** Accepted within the window, refused after it. *)
Lemma signature_accepted_iff_witness :
  ∃ headers, signed = Ok headers ∧
    is_ok (verify_request_v2 900 "key" "cert" line headers "{}" "cluster" "n2") = true ∧
    is_ok (verify_request_v2 1200 "key" "cert" line headers "{}" "cluster" "n2") = false.
Proof.
  pose proof signed_sent as Hok. destruct signed as [headers|] eqn:Hs; [|discriminate]. cbn [sent_as_signed] in Hok.
  apply andb_true_iff in Hok as [Hok Hct%bool_decide_eq_true]. apply andb_true_iff in Hok as [Hok Htext%bool_decide_eq_true].
  apply andb_true_iff in Hok as [Hcx Hcl%bool_decide_eq_true].
  destruct (request_context_from_headers headers) as [c0|] eqn:Hread; [|discriminate]. apply bool_decide_eq_true in Hcx. subst c0. exists headers. split; [done|].
  assert (∀ now, is_ok (verify_request_v2 now "key" "cert" line headers "{}" "cluster" "n2") = true ↔
    is_signed_request now line headers "{}" "cluster" "n2" line None "{}" context) as Hiff.
  { intros now. apply (signature_accepted_iff now "key" "cert" line line headers with_length headers "{}" "{}" "cluster" "n2" None context);
      [by apply N.leb_le; vm_compute|by apply (bool_decide_unpack _)|exact Hs|done|].
    intros c Hc. rewrite Hread in Hc. injection Hc as <-. intros key _ _. exact Htext. }
  split.
  - apply Hiff. split; try done. unfold header_content_length. rewrite Hcl. by vm_compute.
  - apply not_true_iff_false. rewrite Hiff. intros [_ _ _ _ _ _ _ _ Hwin]. by vm_compute in Hwin.
Defined.

Definition accepted (status : string) : VerifiedRequest := mkVerifiedRequest context "b" "c" status.
Lemma acknowledgement_binds_answer_witness :
  ∃ ack, sign_ack_v2 "key" "cert" (accepted "i") "n2" 200 = Ok ack ∧
    verify_ack_v2 "key" "cert" (accepted "i") "n2" 200 ack = Ok tt ∧ verify_ack_v2 "key" "cert" (accepted "i") "n2" 500 ack ≠ Ok tt.
Proof.
  assert (is_ok (sign_ack_v2 "key" "cert" (accepted "i") "n2" 200) = true) as Hok by (by vm_compute).
  destruct (sign_ack_v2 "key" "cert" (accepted "i") "n2" 200) as [ack|] eqn:Hs; [|discriminate]. exists ack. split; [done|].
  assert (Forall one_line [vr_canonical_sha256 (accepted "i"); vr_body_sha256 (accepted "i"); "n2"; cx_cluster_id (vr_context (accepted "i"));
    cx_sender_id (vr_context (accepted "i")); cx_target_id (vr_context (accepted "i")); cx_request_id (vr_context (accepted "i"))]) as Hl by (apply (bool_decide_unpack _); by vm_compute).
  assert (told_apart "key" "cert" ack_info (canonical_ack (accepted "i") "n2" 500) (canonical_ack (accepted "i") "n2" 200)) as Hapart.
  { intros key _ Heq. vm_compute in Heq. discriminate. }
  split.
  - apply (acknowledgement_binds_answer "key" "cert" (accepted "i") (accepted "i") "n2" "n2" ack 200 200 (λ _ _ _, eq_refl) Hl Hl Hs). done.
  - intros Hbad. apply (acknowledgement_binds_answer "key" "cert" (accepted "i") (accepted "i") "n2" "n2" ack 500 200 Hapart Hl Hl Hs) in Hbad. naive_solver.
Defined.
End AuthSample.
