(* ===== verification/Idempotency.v ===== *)
(** * The ledger of internal requests

    [src/internal_idempotency.rs]: requests between nodes are recorded by their id when they
    begin and again with their answer when they finish, so that a retry is answered from the
    record.  Records are kept for ten minutes; the ledger is written out whole before a
    change counts.

    Instants are nanoseconds, recorded by the second.  [Utc::now()] is an argument wherever
    the code reads the clock. *)

From S2P Require Import Prelude Text Search Domain Clock State InboundIp TcpUsage Migration Store Documents.
Open Scope string_scope.
Open Scope list_scope.
Open Scope N_scope.

Definition LEDGER_SCHEMA_VERSION : N := 3.
Definition SECOND : Z := 1000000000.
Definition RETENTION : Z := 10 * 60 * SECOND.
Definition MAX_ENTRIES : nat := N.to_nat 16384.

Record StoredResult : Type := mkStoredResult { sr_status : N; sr_body : json }.
#[global] Instance StoredResult_eq_dec : EqDecision StoredResult.
Proof. solve_decision. Defined.
Record IdempotencyRequest : Type := mkIdempotencyRequest { ir_sender_id : string; ir_semantic_sha256 : string }.
#[global] Instance IdempotencyRequest_eq_dec : EqDecision IdempotencyRequest.
Proof. solve_decision. Defined.

Inductive LedgerState : Type :=
| Pending (started_at : string)
| Complete (completed_at : string) (result : StoredResult).
Record LedgerEntry : Type := mkLedgerEntry { le_request : option IdempotencyRequest; le_state : LedgerState }.
#[export] Instance LedgerEntry_eta : Eta LedgerEntry := λ r, mkLedgerEntry (le_request r) (le_state r).
Record PersistedLedger : Type := mkPersistedLedger {
  pl_schema_version : N;
  pl_entries : gmap string LedgerEntry;
  pl_order : list string;
}.
#[export] Instance PersistedLedger_eta : Eta PersistedLedger := λ r, mkPersistedLedger (pl_schema_version r) (pl_entries r) (pl_order r).
Definition PersistedLedger_default : PersistedLedger := mkPersistedLedger LEDGER_SCHEMA_VERSION ∅ [].

Inductive BeginResult : Type := New | Existing (result : StoredResult) | InFlight | Mismatch | Full.

(** The ledger in memory and its file. *)
Record InternalIdempotencyLedger : Type := mkLedger { ld_state : PersistedLedger; ld_file : option json }.
#[export] Instance InternalIdempotencyLedger_eta : Eta InternalIdempotencyLedger := λ r, mkLedger (ld_state r) (ld_file r).

Definition validate_request (request : IdempotencyRequest) : result unit string :=
  if str_is_empty (trim (ir_sender_id request)) || (256 <? String.length (ir_sender_id request))%nat then Err "internal request sender is invalid"
  else if negb (String.length (ir_semantic_sha256 request) =? 64)%nat || negb (forallb is_ascii_hexdigit (chars (ir_semantic_sha256 request)))
  then Err "internal request digest is invalid"
  else Ok tt.

Section Ledger.
Context `{Rfc3339} `{TimeFormatSecs} `{!JsonCodec PersistedLedger}.

Definition timestamp (value : Z) : string := to_rfc3339_secs value.

Definition entry_time (entry : LedgerEntry) : option Z :=
  match le_state entry with Pending started_at => parse_rfc3339 started_at | Complete completed_at _ => parse_rfc3339 completed_at end.
Definition expired (entries : gmap string LedgerEntry) (now : Z) (id : string) : bool :=
  match entries !! id ≫= entry_time with Some at_ => (RETENTION <? now - at_)%Z | None => false end.
Definition prune_one (now : Z) (acc : gmap string LedgerEntry * list string) (id : string) : gmap string LedgerEntry * list string :=
  let '(entries, retained) := acc in
  if expired entries now id then (delete id entries, retained) else (entries, retained ++ [id]).
Definition ledger_prune (state : PersistedLedger) (now : Z) : PersistedLedger :=
  let '(entries, retained) := foldl (prune_one now) (pl_entries state, []) (pl_order state) in
  state <| pl_entries := entries |> <| pl_order := retained |>.

(** The file is replaced at once or not at all. *)
Definition ledger_persist (writable : bool) (ledger : InternalIdempotencyLedger) (next : PersistedLedger) : InternalIdempotencyLedger * result unit string :=
  if writable then (mkLedger next (Some (to_value next)), Ok tt) else (ledger, Err "persist failed").

(** [InternalIdempotencyLedger::load] *)
Definition ledger_load (file : option json) (now : Z) : result InternalIdempotencyLedger string :=
  let? persisted := match file with Some raw => from_value raw | None => Ok PersistedLedger_default end in
  let version := pl_schema_version persisted in
  if negb ((version =? 1) || (version =? 2) || (version =? LEDGER_SCHEMA_VERSION)) then
    Err ("internal idempotency schema_version mismatch: expected 1, 2, or " +:+ pretty LEDGER_SCHEMA_VERSION +:+ ", got " +:+ pretty version)
  else
  let persisted := if version =? 2 then persisted <| pl_entries ::= fmap (λ entry : LedgerEntry, entry <| le_request := None |>) |> else persisted in
  let persisted := persisted <| pl_schema_version := LEDGER_SCHEMA_VERSION |> in
  Ok (mkLedger (ledger_prune persisted now) file).

(** [begin]; the clock is read for pruning and again for the time stamp. *)
Definition ledger_begin (ledger : InternalIdempotencyLedger) (now stamp : Z) (writable : bool) (request_id : string) (request : IdempotencyRequest)
    : InternalIdempotencyLedger * result BeginResult string :=
  if str_is_empty (trim request_id) || (256 <? String.length request_id)%nat then (ledger, Err "request_id is invalid") else
  match validate_request request with
  | Err e => (ledger, Err e)
  | Ok _ =>
      let next := ledger_prune (ld_state ledger) now in
      match pl_entries next !! request_id with
      | Some entry =>
          if negb (bool_decide (le_request entry = Some request)) then (ledger, Ok Mismatch)
          else (ledger, Ok (match le_state entry with Pending _ => InFlight | Complete _ result => Existing result end))
      | None =>
          if (MAX_ENTRIES <=? size (pl_entries next))%nat then (ledger, Ok Full) else
          let next := next <| pl_entries ::= <[request_id := mkLedgerEntry (Some request) (Pending (timestamp stamp))]> |> <| pl_order ::= λ order, order ++ [request_id] |> in
          let '(ledger, written) := ledger_persist writable ledger next in
          (ledger, match written with Ok _ => Ok New | Err e => Err e end)
      end
  end.

(** [finish] *)
Definition ledger_finish (ledger : InternalIdempotencyLedger) (now stamp : Z) (writable : bool) (request_id : string) (request : IdempotencyRequest) (answer : StoredResult)
    : InternalIdempotencyLedger * result unit string :=
  match validate_request request with
  | Err e => (ledger, Err e)
  | Ok _ =>
      let next := ledger_prune (ld_state ledger) now in
      let bound := match pl_entries next !! request_id with Some entry => negb (bool_decide (le_request entry = Some request)) | None => false end in
      if bound then (ledger, Err "request_id is already bound to a different internal request") else
      if negb (contains_key (pl_entries next) request_id) && (MAX_ENTRIES <=? size (pl_entries next))%nat then (ledger, Err "idempotency ledger is full") else
      let next := next <| pl_entries ::= <[request_id := mkLedgerEntry (Some request) (Complete (timestamp stamp) answer)]> |> in
      let next := if existsb (λ id, bool_decide (id = request_id)) (pl_order next) then next else next <| pl_order ::= λ order, order ++ [request_id] |> in
      ledger_persist writable ledger next
  end.
End Ledger.

(** * Records last *)

(** Time stamps are cut to the second. *)
Definition floor_second (t : Z) : Z := (t - t mod SECOND)%Z.
(** The instants from the epoch on that a 64-bit count of nanoseconds covers. *)
Definition unix_nanos (t : Z) : Prop := (0 ≤ t < 9223372036854775808)%Z.
Class SecsFloor `{Rfc3339, TimeFormatSecs} := parse_floor_second : ∀ t, unix_nanos t → parse_rfc3339 (to_rfc3339_secs t) = Some (floor_second t).

Section Records.
Context `{SecsFloor} `{!JsonCodec PersistedLedger}.
Implicit Types (entries : gmap string LedgerEntry) (e : LedgerEntry).

Lemma prune_fold now order entries retained id :
  (foldl (prune_one now) (entries, retained) order).1 !! id =
  if decide (id ∈ order) then (if expired entries now id then None else entries !! id) else entries !! id.
Proof.
  revert entries retained. induction order as [|x order IH]; intros entries retained; [by rewrite decide_False by apply not_elem_of_nil|].
  cbn [foldl prune_one]. assert (∀ m, expired m now id = match m !! id ≫= entry_time with Some at_ => (RETENTION <? now - at_)%Z | None => false end) as Hexp by done.
  destruct (expired entries now x) eqn:Hx; rewrite IH; destruct (decide (id = x)) as [->|Hne].
  - rewrite (decide_True (P := x ∈ x :: order)) by left. rewrite Hx, Hexp, !lookup_delete_eq. by destruct (decide _).
  - rewrite !Hexp, !lookup_delete_ne by done. destruct (decide (id ∈ order)), (decide (id ∈ x :: order)) as [Hin|Hin]; try done.
    + destruct Hin. by right.
    + apply elem_of_cons in Hin. naive_solver.
  - rewrite (decide_True (P := x ∈ x :: order)) by left. rewrite Hx. by destruct (decide _).
  - destruct (decide (id ∈ order)), (decide (id ∈ x :: order)) as [Hin|Hin]; try done.
    + destruct Hin. by right.
    + apply elem_of_cons in Hin. naive_solver.
Qed.

Lemma prune_entries state now id :
  pl_entries (ledger_prune state now) !! id =
  if decide (id ∈ pl_order state) then (if expired (pl_entries state) now id then None else pl_entries state !! id) else pl_entries state !! id.
Proof. rewrite <- (prune_fold now _ _ []). unfold ledger_prune. by destruct (foldl _ _ _). Qed.
Lemma prune_version state now : pl_schema_version (ledger_prune state now) = pl_schema_version state.
Proof. unfold ledger_prune. by destruct (foldl _ _ _). Qed.

(** A record of [id] no older than [since]. *)
Definition kept (entries : gmap string LedgerEntry) (id : string) (since : Z) (P : LedgerEntry → Prop) : Prop :=
  ∃ e at_, entries !! id = Some e ∧ entry_time e = Some at_ ∧ (since ≤ at_)%Z ∧ P e.
(** In memory and on disk. *)
Definition recorded (l : InternalIdempotencyLedger) (id : string) (since : Z) (P : LedgerEntry → Prop) : Prop :=
  kept (pl_entries (ld_state l)) id since P ∧
  ∃ p, ld_file l = Some (to_value p) ∧ pl_schema_version p = LEDGER_SCHEMA_VERSION ∧ kept (pl_entries p) id since P.

Lemma kept_prune state id since P now : kept (pl_entries state) id since P → (now ≤ since + RETENTION)%Z → kept (pl_entries (ledger_prune state now)) id since P.
Proof.
  intros (e & at_ & He & Hat & Hle & HP) Hnow. exists e, at_. split_and!; try done. rewrite prune_entries. unfold expired. rewrite He. cbn [mbind option_bind]. rewrite Hat.
  destruct (Z.ltb_spec RETENTION (now - at_)); [lia|]. by destruct (decide _).
Qed.
Lemma kept_insert entries id since P id' e' at' :
  entry_time e' = Some at' → (id' = id → (since ≤ at')%Z ∧ P e') → kept entries id since P → kept (<[id' := e']> entries) id since P.
Proof.
  intros Hat' Hsame (e & at_ & He & Hat & Hle & HP). destruct (decide (id' = id)) as [->|Hne].
  - exists e', at'. destruct (Hsame eq_refl). by rewrite lookup_insert_eq.
  - exists e, at_. by rewrite lookup_insert_ne.
Qed.

(** ** Operations *)

Definition version_ok (l : InternalIdempotencyLedger) : Prop := pl_schema_version (ld_state l) = LEDGER_SCHEMA_VERSION.

(** What an operation leaves: the ledger as it was, or one with the record of the request
    written over the pruned one, in memory and on disk. *)
Definition overwritten (l l' : InternalIdempotencyLedger) (now : Z) (id : string) (e : LedgerEntry) : Prop :=
  ∃ next, l' = mkLedger next (Some (to_value next)) ∧ pl_entries next = <[id := e]> (pl_entries (ledger_prune (ld_state l) now)) ∧
    pl_schema_version next = pl_schema_version (ld_state l).

Lemma begin_effect l now stamp writable id rq :
  let '(l', res) := ledger_begin l now stamp writable id rq in
  (l' = l ∧ res ≠ Ok New) ∨
  (res = Ok New ∧ pl_entries (ledger_prune (ld_state l) now) !! id = None ∧ overwritten l l' now id (mkLedgerEntry (Some rq) (Pending (timestamp stamp)))).
Proof.
  unfold ledger_begin. destruct (str_is_empty _ || _); [by left|]. destruct (validate_request rq); [|by left].
  destruct (pl_entries (ledger_prune (ld_state l) now) !! id) as [e|] eqn:He.
  - destruct (negb _); left; split; try done. by destruct (le_state e).
  - destruct (MAX_ENTRIES <=? _)%nat; [by left|]. unfold ledger_persist. destruct writable; [|by left]. right. split_and!; try done.
    eexists. split; [done|]. split; [done|]. apply prune_version.
Qed.

Lemma finish_effect l now stamp writable id rq answer :
  let '(l', res) := ledger_finish l now stamp writable id rq answer in
  (l' = l ∧ res ≠ Ok tt) ∨ (res = Ok tt ∧ overwritten l l' now id (mkLedgerEntry (Some rq) (Complete (timestamp stamp) answer))).
Proof.
  unfold ledger_finish. destruct (validate_request rq); [|by left].
  destruct (match pl_entries _ !! id with Some _ => _ | None => _ end); [by left|]. destruct (negb _ && _); [by left|].
  unfold ledger_persist. destruct writable; [|by left]. right. split; [done|]. eexists. split; [done|].
  destruct (existsb _ _); (split; [done|apply prune_version]).
Qed.

Lemma recorded_overwritten l l' now id since P id' e' at' :
  recorded l id since P → version_ok l → overwritten l l' now id' e' → (now ≤ since + RETENTION)%Z →
  entry_time e' = Some at' → (id' = id → (since ≤ at')%Z ∧ P e') → recorded l' id since P.
Proof.
  intros [Hm _] Hver (next & -> & Hentries & Hnext) Hnow Hat Hsame.
  assert (kept (pl_entries next) id since P) by (rewrite Hentries; eapply kept_insert; [done..|]; by apply kept_prune).
  split; [done|]. exists next. by rewrite Hnext.
Qed.

Lemma recorded_new l l' now id e at_ (P : LedgerEntry → Prop) since :
  version_ok l → overwritten l l' now id e → entry_time e = Some at_ → (since ≤ at_)%Z → P e → recorded l' id since P.
Proof.
  intros Hver (next & -> & Hentries & Hnext) Hat Hle HP. assert (kept (pl_entries next) id since P) by (exists e, at_; by rewrite Hentries, lookup_insert_eq).
  split; [done|]. exists next. by rewrite Hnext.
Qed.

Lemma reload_recorded l id since P now :
  recorded l id since P → (now ≤ since + RETENTION)%Z → ∃ l', ledger_load (ld_file l) now = Ok l' ∧ version_ok l' ∧ recorded l' id since P.
Proof.
  intros [_ (p & Hfile & Hver & Hp)] Hnow. unfold ledger_load. rewrite Hfile, from_to_value. cbn [rbind]. rewrite Hver. cbn [N.eqb orb negb LEDGER_SCHEMA_VERSION].
  eexists. split; [done|]. assert (p <| pl_schema_version := LEDGER_SCHEMA_VERSION |> = p) as Hsame by (destruct p; cbn in *; by subst).
  split; [unfold version_ok; cbn; by rewrite prune_version|]. split; [cbn; rewrite Hsame; by apply kept_prune|].
  exists p. by rewrite <- Hfile.
Qed.

Lemma load_version file now l : ledger_load file now = Ok l → version_ok l ∧ ld_file l = file.
Proof.
  unfold ledger_load. intros Hl. destruct_ok. split; [|done]. unfold version_ok. cbn. by rewrite prune_version.
Qed.

Lemma overwritten_version ledger ledger' now id e : version_ok ledger → overwritten ledger ledger' now id e → version_ok ledger'.
Proof. intros Hv (next & -> & _ & Hn). unfold version_ok. cbn. by rewrite Hn. Qed.
Lemma timestamp_time stamp e : unix_nanos stamp → (∃ answer, le_state e = Complete (timestamp stamp) answer) ∨ le_state e = Pending (timestamp stamp) →
  entry_time e = Some (floor_second stamp).
Proof. intros Hs [(answer & He)|He]; unfold entry_time; rewrite He; unfold timestamp; by rewrite parse_floor_second. Qed.

(** ** Sequences of operations *)

Inductive LedgerOp : Type :=
| OpBegin (now stamp : Z) (writable : bool) (id : string) (request : IdempotencyRequest)
| OpFinish (now stamp : Z) (writable : bool) (id : string) (request : IdempotencyRequest) (answer : StoredResult)
| OpReload (now : Z).
Definition ledger_op (l : InternalIdempotencyLedger) (op : LedgerOp) : InternalIdempotencyLedger :=
  match op with
  | OpBegin now stamp writable id request => (ledger_begin l now stamp writable id request).1
  | OpFinish now stamp writable id request answer => (ledger_finish l now stamp writable id request answer).1
  | OpReload now => match ledger_load (ld_file l) now with Ok l' => l' | Err _ => l end
  end.
Definition op_now (op : LedgerOp) : Z := match op with OpBegin now _ _ _ _ | OpFinish now _ _ _ _ _ | OpReload now => now end.
Definition op_stamp_ok (op : LedgerOp) : Prop := match op with OpBegin _ stamp _ _ _ | OpFinish _ stamp _ _ _ _ => unix_nanos stamp | OpReload _ => True end.
Definition op_finishes (op : LedgerOp) (id : string) : Prop := match op with OpFinish _ _ _ id' _ _ => id' = id | _ => False end.

Lemma op_recorded l op id since P :
  recorded l id since P → version_ok l → (op_now op ≤ since + RETENTION)%Z → op_stamp_ok op → ¬ op_finishes op id →
  recorded (ledger_op l op) id since P ∧ version_ok (ledger_op l op).
Proof.
  intros Hr Hv Hnow Hs Hf. destruct op as [now stamp w id' rq|now stamp w id' rq ans|now]; cbn [ledger_op op_now op_stamp_ok op_finishes] in *.
  - pose proof (begin_effect l now stamp w id' rq) as Hb. destruct (ledger_begin _ _ _ _ _ _) as [l' res]. cbn [fst]. destruct Hb as [[-> _]|(_ & Hnone & Hov)]; [done|].
    split; [|by eapply overwritten_version]. eapply recorded_overwritten; [done..|apply timestamp_time; [done|by right]|]. intros ->. exfalso.
    destruct Hr as [Hk _]. apply (kept_prune _ _ _ _ now) in Hk as (e & _ & He & _); [congruence|lia].
  - pose proof (finish_effect l now stamp w id' rq ans) as Hb. destruct (ledger_finish _ _ _ _ _ _ _) as [l' res]. cbn [fst]. destruct Hb as [[-> _]|(_ & Hov)]; [done|].
    split; [|by eapply overwritten_version]. eapply recorded_overwritten; [done..|apply timestamp_time; [done|left; by eexists]|]. intros ->. by destruct Hf.
  - destruct (reload_recorded l id since P now Hr Hnow) as (l' & -> & Hv' & Hr'). done.
Qed.

(** C30: a retry is answered with the first answer.  After a request has finished, whatever
    other requests begin and finish and however often the ledger is reloaded from its file,
    for ten minutes beginning it again yields the recorded answer, and a different request
    under its id is turned away. *)
Theorem finished_answer_repeated (l l1 : InternalIdempotencyLedger) (now stamp : Z) (writable : bool) (id : string) (rq : IdempotencyRequest) (answer : StoredResult)
    (ops : list LedgerOp) (now' stamp' : Z) (writable' : bool) (rq' : IdempotencyRequest)
    (Hversion : version_ok l) (Hstamp : unix_nanos stamp)
    (Hfinish : ledger_finish l now stamp writable id rq answer = (l1, Ok tt))
    (Hops : Forall (λ op, (op_now op ≤ floor_second stamp + RETENTION)%Z ∧ op_stamp_ok op ∧ ¬ op_finishes op id) ops)
    (Hnow : (now' ≤ floor_second stamp + RETENTION)%Z)
    (Hid : str_is_empty (trim id) = false ∧ (String.length id ≤ 256)%nat) (Hrq : validate_request rq' = Ok tt) :
  let l2 := foldl ledger_op l1 ops in
  ledger_begin l2 now' stamp' writable' id rq' = (l2, Ok (if decide (rq' = rq) then Existing answer else Mismatch)).
Proof.
  intros l2. set (P := λ e, le_request e = Some rq ∧ ∃ s, le_state e = Complete s answer).
  assert (recorded l2 id (floor_second stamp) P ∧ version_ok l2) as [[Hk _] _].
  { pose proof (finish_effect l now stamp writable id rq answer) as Hf. rewrite Hfinish in Hf. destruct Hf as [[_ Hbad]|[_ Hov]]; [done|].
    assert (recorded l1 id (floor_second stamp) P ∧ version_ok l1) as Hl1.
    { split; [|by eapply overwritten_version]. eapply (recorded_new l); [done..|apply timestamp_time; [done|left; by eexists]|lia|]. split; [done|by eexists]. }
    clear Hfinish Hov. unfold l2. revert l1 l2 Hl1. induction Hops as [|op ops (Ht & Hs & Hf) Hops IH]; intros l1 l2 [Hr Hv]; [done|]. apply IH. by apply op_recorded. }
  apply (kept_prune _ _ _ _ now') in Hk as (e & at_ & He & _ & _ & Hreq & s & Hst); [|lia]. unfold ledger_begin. destruct Hid as [-> Hlen].
  destruct (Nat.ltb_spec 256 (String.length id)); [lia|]. cbn [orb]. rewrite Hrq, He, Hreq, Hst. case_bool_decide as Heq; cbn [negb]; destruct (decide (rq' = rq)); congruence.
Qed.
End Records.

(** ** Examples *)

(** Instants in decimal nanoseconds, cut to the second. *)
Definition floor_secs : TimeFormatSecs := λ t, pretty (floor_second t).
Lemma floor_secs_floor : @SecsFloor nanos_reader floor_secs.
Proof.
  intros t Ht. apply parse_i64_pretty. unfold unix_nanos in Ht. unfold floor_second, SECOND.
  pose proof (Z.mod_pos_bound t 1000000000 ltac:(lia)). pose proof (Z.mod_le t 1000000000 ltac:(lia) ltac:(lia)). lia.
Qed.

Module LedgerSample.
#[local] Existing Instances nanos_reader floor_secs floor_secs_floor.

(** The ledger as an object; the bodies of answers are kept as they are. *)
#[local] Instance IdempotencyRequest_countable : Countable IdempotencyRequest.
Proof. refine (inj_countable' (λ r, (ir_sender_id r, ir_semantic_sha256 r)) (λ '(a, b), mkIdempotencyRequest a b) _). by intros []. Defined.
Definition entry_value (e : LedgerEntry) : json :=
  match le_state e with
  | Pending at_ => JArray [to_value (le_request e, at_)]
  | Complete at_ answer => JArray [to_value (le_request e, at_); to_value (sr_status answer); sr_body answer]
  end.
Definition entry_read (raw : json) : option LedgerEntry :=
  match raw with
  | JArray [head] => match from_value head with Ok (request, at_) => Some (mkLedgerEntry request (Pending at_)) | Err _ => None end
  | JArray [head; status; body] =>
      match from_value head, from_value status with
      | Ok (request, at_), Ok status => Some (mkLedgerEntry request (Complete at_ (mkStoredResult status body)))
      | _, _ => None
      end
  | _ => None
  end.
Lemma entry_read_value e : entry_read (entry_value e) = Some e.
Proof. destruct e as [rq [at_|at_ [status body]]]; unfold entry_read, entry_value; cbn [le_state le_request sr_status sr_body]; by rewrite !from_to_value. Qed.
Definition ledger_value (p : PersistedLedger) : json := JArray [to_value (pl_schema_version p, pl_order p); JObject (entry_value <$> pl_entries p)].
Definition ledger_read (raw : json) : result PersistedLedger string :=
  match raw with
  | JArray [head; JObject entries] => let? head := from_value head in Ok (mkPersistedLedger head.1 (omap entry_read entries) head.2)
  | _ => Err "not a ledger"
  end.
#[export,refine] Instance ledger_codec : JsonCodec PersistedLedger := { to_value := ledger_value; from_value := ledger_read }.
Proof.
  intros [version entries order]. unfold ledger_read, ledger_value. cbn [pl_schema_version pl_order pl_entries]. rewrite from_to_value. cbn. do 2 f_equal. apply map_eq. intros k.
  rewrite lookup_omap, lookup_fmap. destruct (entries !! k) as [e|]; [|done]. cbn. by rewrite entry_read_value.
Defined.

Definition request (digit : string) : IdempotencyRequest := mkIdempotencyRequest "n1" (String.concat "" (replicate 64 digit)).
Definition answer : StoredResult := mkStoredResult 200 (JString "done").
Definition fresh : InternalIdempotencyLedger := mkLedger PersistedLedger_default None.
Definition seconds (n : Z) : Z := (n * SECOND)%Z.
Definition finished : InternalIdempotencyLedger := (ledger_finish fresh (seconds 5) (seconds 5) true "r1" (request "a") answer).1.
Definition others : list LedgerOp :=
  [OpBegin (seconds 9) (seconds 9) true "r2" (request "c"); OpReload (seconds 60); OpFinish (seconds 500) (seconds 500) true "r2" (request "c") answer].

(** The answer of a request that finished at 5s is still given at 605s. *)
Lemma finished_answer_repeated_witness :
  (ledger_begin (foldl ledger_op finished others) (seconds 605) (seconds 605) true "r1" (request "a")).2 = Ok (Existing answer) ∧
  (ledger_begin (foldl ledger_op finished others) (seconds 605) (seconds 605) true "r1" (request "b")).2 = Ok Mismatch.
Proof.
  assert (ledger_finish fresh (seconds 5) (seconds 5) true "r1" (request "a") answer = (finished, Ok tt)) as Hf.
  { unfold finished. rewrite (surjective_pairing (ledger_finish _ _ _ _ _ _ _)) at 1. f_equal; by vm_compute. }
  assert (Forall (λ op, (op_now op ≤ floor_second (seconds 5) + RETENTION)%Z ∧ op_stamp_ok op ∧ ¬ op_finishes op "r1") others) as Hops.
  { repeat constructor; cbn; unfold unix_nanos, seconds, floor_second, RETENTION, SECOND; try lia; try done. }
  split.
  - rewrite (finished_answer_repeated fresh finished (seconds 5) (seconds 5) true "r1" (request "a") answer others (seconds 605) (seconds 605) true (request "a"));
      [by vm_compute|done|by vm_compute|done|done|by vm_compute|split; [by vm_compute|cbn; lia]|by vm_compute].
  - rewrite (finished_answer_repeated fresh finished (seconds 5) (seconds 5) true "r1" (request "a") answer others (seconds 605) (seconds 605) true (request "b"));
      [by vm_compute|done|by vm_compute|done|done|by vm_compute|split; [by vm_compute|cbn; lia]|by vm_compute].
Defined.
End LedgerSample.
