(* ===== verification/InternalWrite.v ===== *)
(** * Writes forwarded between nodes

    The path of a signed request into the leader's log: [admin_auth] of [src/http/mod.rs]
    checks the signature and admits the sender, [admin_internal_raft_client_write] of
    [src/http/mesh.rs] consults the ledger of requests, hands the command to Raft and records
    the answer.

    Requests are handled concurrently: the ledger is behind a lock, so the events of a run
    are single operations of the ledger and single calls of Raft, in any order, with restarts
    in between. *)

From S2P Require Import Prelude Text Search Domain Clock Lifecycle Repository ReverseMesh Relay State Command RaftTypes Usage InboundIp TcpUsage Migration Store Documents InternalAuth Idempotency.
Open Scope string_scope.
Open Scope list_scope.
Open Scope N_scope.

Section Forwarded.
Context `{InternalCrypto} `{HeaderValues} `{Rfc3339} `{TimeFormatSecs} `{!JsonCodec PersistedLedger} `{!JsonCodec ClientResponse}.

(** ** Admission *)

Record HttpRequest : Type := mkHttpRequest {
  hr_method : string;
  hr_uri : string;
  hr_headers : gmap string (list header_value);
  hr_body : string;
}.
Record AdminAuthState : Type := mkAdminAuthState {
  aa_cluster_ca_key_pem : option string;
  aa_cluster_ca_pem : string;
  aa_cluster_id : string;
  aa_local_node_id : string;
}.

Definition uri_path (uri : string) : string := match split_once "?" uri with Some (path, _) => path | None => uri end.
Definition str_starts_with (prefix s : string) : bool := String.prefix prefix s.
Definition str_ends_with (suffix s : string) : bool := bool_decide (is_Some (strip_suffix suffix s)).
Definition first_header (headers : gmap string (list header_value)) (name : string) : option string :=
  match default [] (headers !! name) with value :: _ => header_value_to_str value | [] => None end.
Definition extract_internal_signature (headers : gmap string (list header_value)) : option string := first_header headers INTERNAL_SIGNATURE_HEADER.

Definition body_limit (request : HttpRequest) : N :=
  let path := uri_path (hr_uri request) in
  let relay_is_raft := str_ends_with "/mesh/reverse-relay" path
    && match first_header (hr_headers request) RELAY_URI_HEADER with
       | Some uri => str_starts_with "/raft/" uri || contains_str "snapshot" uri
       | None => false
       end in
  if contains_str "/raft/" path || relay_is_raft then 8 * 1024 * 1024 else 1024 * 1024.

Inductive Admission : Type :=
| NotSigned
| Refused (message : string)
| Granted (verified : VerifiedRequest).

(** [SystemTime::now()] in whole seconds. *)
Definition now_unix_secs (now : Z) : Z := Z.max 0 (now / SECOND).

(** The signed half of [admin_auth]; [bootstrap_senders] are the ids in the marker file of a
    node that is joining. *)
Definition admission (auth : AdminAuthState) (nodes : gmap string Node) (bootstrap_senders : list string) (now : Z) (request : HttpRequest) : Admission :=
  match extract_internal_signature (hr_headers request), aa_cluster_ca_key_pem auth with
  | Some signature, Some ca_key_pem =>
      if negb (str_starts_with "v2:" signature) then NotSigned else
      if body_limit request <? N.of_nat (String.length (hr_body request)) then Refused "internal request body is too large" else
      let line := mkRequestLine (hr_method request) ("/api/admin" +:+ hr_uri request) in
      match verify_request_v2 (now_unix_secs now) ca_key_pem (aa_cluster_ca_pem auth) line (hr_headers request) (hr_body request) (aa_cluster_id auth) (aa_local_node_id auth) with
      | Err _ => Refused "invalid internal authentication"
      | Ok verified =>
          let path := uri_path (hr_uri request) in
          let route := cx_route (vr_context verified) in
          let route_permitted := match route with
            | MeshV2 => str_starts_with "/_internal/" path
            | HealthV2 => bool_decide (hr_method request = "GET") && bool_decide (path = "/_internal/mesh/health")
            end in
          if negb route_permitted then Refused "internal route is not permitted" else
          if bool_decide (route = HealthV2) && negb (str_is_empty (hr_body request)) then Refused "mesh health requests must be bodyless" else
          let sender := cx_sender_id (vr_context verified) in
          let bootstrap_health_sender := bool_decide (route = HealthV2) && bool_decide (sender ∈ bootstrap_senders) in
          if negb (contains_key nodes sender) && negb bootstrap_health_sender then Refused "internal sender is not a cluster member" else
          Granted verified
      end
  | _, _ => NotSigned
  end.

(** ** The handler *)

(** Commands with handlers of their own. *)
Definition dedicated_command (cmd : DesiredStateCommand) : bool :=
  match cmd with
  | UpsertNode _ _ | DeleteNode _ _ _ _ | BeginMembershipOperation _ _ _ | TransitionMembershipOperation _ | PruneMembershipOperations _ => true
  | _ => false
  end.
Definition reverse_mesh_command (cmd : DesiredStateCommand) : bool :=
  match cmd with SetReverseMeshEpoch _ | UpsertReverseMeshAssignment _ _ | DeleteReverseMeshAssignment _ _ => true | _ => false end.

(** What binds an answer to a request. *)
Definition idempotency_request (verified : VerifiedRequest) : option (string * IdempotencyRequest) :=
  if bool_decide (cx_route (vr_context verified) = MeshV2) then
    Some (cx_request_id (vr_context verified), mkIdempotencyRequest (cx_sender_id (vr_context verified)) (vr_idempotency_sha256 verified))
  else None.

(** The handler up to the call of Raft: an answer, or the command is to be executed, its
    answer to be recorded under a binding.  [capability] is what asking the voters gave. *)
Inductive Start : Type :=
| Answered (response : result ClientResponse (N * string * string))
| Run (binding : option (string * IdempotencyRequest)).

Definition decode_stored (stored : StoredResult) : result ClientResponse (N * string * string) :=
  match from_value (sr_body stored) with Ok response => Ok response | Err e => Err (500, "internal", "decode stored internal result: " +:+ e) end.

Definition start_write (ledger : InternalIdempotencyLedger) (now stamp : Z) (writable : bool) (capability : result unit (N * string * string)) (verified : VerifiedRequest) (cmd : DesiredStateCommand)
    : InternalIdempotencyLedger * Start :=
  if dedicated_command cmd then
    (ledger, Answered (Err (501, "not_implemented", "node and membership lifecycle commands require dedicated lifecycle endpoints"))) else
  match (if reverse_mesh_command cmd then capability else Ok tt) with
  | Err e => (ledger, Answered (Err e))
  | Ok _ =>
  match idempotency_request verified with
  | None => (ledger, Run None)
  | Some (request_id, request) =>
      let '(ledger, begun) := ledger_begin ledger now stamp writable request_id request in
      (ledger, match begun with
       | Err e => Answered (Err (500, "internal", "read internal idempotency ledger: " +:+ e))
       | Ok (Existing stored) => Answered (decode_stored stored)
       | Ok InFlight => Answered (Err (409, "outcome_unknown", "internal mutation pending"))
       | Ok Mismatch => Answered (Err (409, "idempotency_request_mismatch", "internal request id is already bound to a different request"))
       | Ok Full => Answered (Err (429, "idempotency_ledger_full", "internal idempotency ledger is full; retry after active records expire"))
       | Ok New => Run (Some (request_id, request))
       end)
  end
  end.

(** The handler after Raft answered. *)
Definition finish_write (ledger : InternalIdempotencyLedger) (now stamp : Z) (writable : bool) (binding : option (string * IdempotencyRequest)) (response : ClientResponse)
    : InternalIdempotencyLedger * result ClientResponse (N * string * string) :=
  match binding with
  | None => (ledger, Ok response)
  | Some (request_id, request) =>
      let '(ledger, finished) := ledger_finish ledger now stamp writable request_id request (mkStoredResult 200 (to_value response)) in
      (ledger, match finished with Ok _ => Ok response | Err e => Err (500, "internal", "persist internal idempotency result: " +:+ e) end)
  end.

(** The route of the handler. *)
Definition client_write_path : string := "/_internal/raft/client-write".

(** ** Runs *)

(** A request that was let through to Raft: when it was checked, when it was recorded. *)
Record ForwardedWrite : Type := mkWrite {
  wr_binding : option (string * IdempotencyRequest);
  wr_issued_at : Z;
  wr_checked : Z;
  wr_recorded : Z;
  wr_command : DesiredStateCommand;
}.

Record World : Type := mkWorld {
  ww_ledger : InternalIdempotencyLedger;
  ww_accepted : list ForwardedWrite;
  ww_running : list nat;
  ww_executed : list nat;
  ww_answered : list (nat * ClientResponse);
}.
#[export] Instance World_eta : Eta World := λ r, mkWorld (ww_ledger r) (ww_accepted r) (ww_running r) (ww_executed r) (ww_answered r).

Inductive Event : Type :=
(** A write arrives at [checked] and reaches the ledger at [now]. *)
| Receive (checked now stamp : Z) (writable : bool) (capability : result unit (N * string * string)) (auth : AdminAuthState) (nodes : gmap string Node) (bootstrap_senders : list string)
    (request : HttpRequest) (cmd : DesiredStateCommand)
(** Raft is called for an accepted write. *)
| Execute (n : nat) (outcome : result ClientResponse string)
(** Its answer is recorded. *)
| RecordAnswer (n : nat) (now stamp : Z) (writable : bool)
(** The relay handler uses the same ledger: it begins a request and finishes it at once. *)
| RelayAccept (now stamp now' stamp' : Z) (writable writable' : bool) (id : string) (request : IdempotencyRequest) (answer : StoredResult)
| Restart (now : Z).

Definition step (w : World) (e : Event) : World :=
  match e with
  | Receive checked now stamp writable capability auth nodes bootstrap_senders request cmd =>
      if negb (bool_decide (hr_method request = "POST") && bool_decide (uri_path (hr_uri request) = client_write_path)) then w else
      match admission auth nodes bootstrap_senders checked request with
      | Granted verified =>
          let '(ledger, start) := start_write (ww_ledger w) now stamp writable capability verified cmd in
          let w := w <| ww_ledger := ledger |> in
          match start with
          | Answered _ => w
          | Run binding =>
              w <| ww_accepted ::= λ l, l ++ [mkWrite binding (cx_issued_at (vr_context verified)) checked stamp cmd] |> <| ww_running ::= cons (length (ww_accepted w)) |>
          end
      | _ => w
      end
  | Execute n outcome =>
      if bool_decide (n ∈ ww_running w) then
        w <| ww_running ::= filter (λ m, m ≠ n) |> <| ww_executed ::= cons n |>
          <| ww_answered ::= λ l, match outcome with Ok response => (n, response) :: l | Err _ => l end |>
      else w
  | RecordAnswer n now stamp writable =>
      match ww_accepted w !! n, list_find (λ a : nat * ClientResponse, a.1 = n) (ww_answered w) with
      | Some write, Some (_, (_, response)) =>
          w <| ww_ledger := (finish_write (ww_ledger w) now stamp writable (wr_binding write) response).1 |> <| ww_answered ::= filter (λ a, a.1 ≠ n) |>
      | _, _ => w
      end
  | RelayAccept now stamp now' stamp' writable writable' id request answer =>
      let '(ledger, begun) := ledger_begin (ww_ledger w) now stamp writable id request in
      match begun with
      | Ok New => w <| ww_ledger := (ledger_finish ledger now' stamp' writable' id request answer).1 |>
      | _ => w <| ww_ledger := ledger |>
      end
  | Restart now =>
      match ledger_load (ld_file (ww_ledger w)) now with
      | Ok ledger => w <| ww_ledger := ledger |> <| ww_running := [] |> <| ww_answered := [] |>
      | Err _ => w <| ww_running := [] |> <| ww_answered := [] |>
      end
  end.
Definition run (w : World) (events : list Event) : World := foldl step w events.

(** The clock does not run backwards; a request that was checked reaches the ledger within
    five minutes. *)
Definition HANDLER_BUDGET : Z := 300 * SECOND.
Definition event_times (e : Event) : list Z :=
  match e with
  | Receive _ now stamp _ _ _ _ _ _ _ => [now; stamp]
  | Execute _ _ => []
  | RecordAnswer _ now stamp _ => [now; stamp]
  | RelayAccept now stamp now' stamp' _ _ _ _ _ => [now; stamp; now'; stamp']
  | Restart now => [now]
  end.
Definition event_ok (e : Event) : Prop :=
  match e with Receive checked now _ _ _ _ _ _ _ _ => (0 ≤ checked ≤ now)%Z ∧ (now ≤ checked + HANDLER_BUDGET)%Z | _ => True end.
Fixpoint times_from (clock : Z) (ts : list Z) : Prop :=
  match ts with [] => True | t :: ts => (clock ≤ t)%Z ∧ unix_nanos t ∧ times_from t ts end.
Definition events_ok (clock : Z) (events : list Event) : Prop := Forall event_ok events ∧ times_from clock (concat (event_times <$> events)).

Definition write_id (r : ForwardedWrite) : option string := fst <$> wr_binding r.

(** * At most once *)

Context `{!SecsFloor}.

Lemma floor_second_mono t t' : (t ≤ t')%Z → (floor_second t ≤ floor_second t')%Z.
Proof. unfold floor_second, SECOND. intros Hle. pose proof (Z.div_le_mono t t' 1000000000 ltac:(lia) Hle). pose proof (Z.div_mod t 1000000000). pose proof (Z.div_mod t' 1000000000). lia. Qed.
Lemma floor_second_bounds t : (t - SECOND < floor_second t ≤ t)%Z.
Proof. unfold floor_second, SECOND. pose proof (Z.mod_pos_bound t 1000000000). lia. Qed.

(** ** Granted requests *)

Lemma admitted_checked auth nodes senders now request verified :
  admission auth nodes senders now request = Granted verified → hr_method request = "POST" →
  is_within_auth_window (cx_issued_at (vr_context verified)) (now_unix_secs now) = true ∧ cx_route (vr_context verified) = MeshV2.
Proof.
  unfold admission. intros Ha Hpost. destruct (extract_internal_signature _) as [sig|]; [|discriminate]. destruct (aa_cluster_ca_key_pem auth) as [key|]; [|discriminate].
  destruct (negb _); [discriminate|]. destruct (_ <? _); [discriminate|]. destruct (verify_request_v2 _ _ _ _ _ _ _ _) as [v|] eqn:Hv; [|discriminate].
  apply verify_request_inv in Hv as (_ & _ & _ & _ & Hwin & _). destruct (cx_route (vr_context v)) eqn:Hroute.
  - cbv zeta in Ha. destruct (negb _); [discriminate|]. cbn [bool_decide] in Ha. rewrite bool_decide_eq_false_2 in Ha by done. cbn [andb] in Ha.
    destruct (negb _ && _); [discriminate|]. injection Ha as <-. done.
  - cbv zeta in Ha. rewrite Hpost in Ha. rewrite (bool_decide_eq_false_2 ("POST" = "GET")) in Ha by done. discriminate.
Qed.

(** Two checks of the same signed request are at most four minutes and two seconds apart. *)
Lemma window_close issued now now' :
  (0 ≤ now)%Z → (0 ≤ now')%Z → unix_nanos now → unix_nanos now' →
  is_within_auth_window issued (now_unix_secs now) = true → is_within_auth_window issued (now_unix_secs now') = true → (now' ≤ now + 242 * SECOND)%Z.
Proof.
  unfold is_within_auth_window, now_unix_secs, clamp_i64, AUTH_WINDOW_SECS, unix_nanos, SECOND. intros Hz Hz' Hn Hn' [_ Hhi]%andb_true_iff [Hlo _]%andb_true_iff.
  apply Z.leb_le in Hhi, Hlo. pose proof (Z.div_mod now 1000000000 ltac:(lia)). pose proof (Z.div_mod now' 1000000000 ltac:(lia)).
  pose proof (Z.mod_pos_bound now 1000000000 ltac:(lia)). pose proof (Z.mod_pos_bound now' 1000000000 ltac:(lia)). lia.
Qed.

(** ** The invariant *)

Record write_inv (clock : Z) (ledger : InternalIdempotencyLedger) (r : ForwardedWrite) : Prop := {
  wi_bound : is_Some (write_id r);
  wi_times : (0 ≤ wr_checked r ≤ wr_recorded r)%Z ∧ (wr_recorded r ≤ clock)%Z ∧ unix_nanos (wr_recorded r);
  wi_window : is_within_auth_window (wr_issued_at r) (now_unix_secs (wr_checked r)) = true;
  wi_recorded : ∀ id, write_id r = Some id → (clock ≤ floor_second (wr_recorded r) + RETENTION)%Z →
    recorded ledger id (floor_second (wr_recorded r)) (λ _, True);
}.
Definition far (r r' : ForwardedWrite) : Prop :=
  write_id r = write_id r' → wr_issued_at r ≠ wr_issued_at r' ∧ (floor_second (wr_recorded r) + RETENTION < wr_recorded r')%Z.
Record world_inv (clock : Z) (w : World) : Prop := {
  in_version : version_ok (ww_ledger w);
  in_runs : NoDup (ww_running w ++ ww_executed w) ∧ ∀ n, n ∈ ww_running w ++ ww_executed w → (n < length (ww_accepted w))%nat;
  in_writes : ∀ n r, ww_accepted w !! n = Some r → write_inv clock (ww_ledger w) r;
  in_far : ∀ m n r r', (m < n)%nat → ww_accepted w !! m = Some r → ww_accepted w !! n = Some r' → far r r';
}.

Lemma write_later clock clock' ledger r : (clock ≤ clock')%Z → write_inv clock ledger r → write_inv clock' ledger r.
Proof. intros Hle [Hb Ht Hw Hr]. split; [done| |done|]; [destruct Ht as (? & ? & ?); split_and!; [lia..|done]|]. intros id Hid Hc. apply Hr; [done|lia]. Qed.

Lemma write_overwritten clock ledger ledger' now stamp id e r :
  write_inv clock ledger r → version_ok ledger → overwritten ledger ledger' now id e → entry_time e = Some (floor_second stamp) → (clock ≤ now ≤ stamp)%Z →
  write_inv stamp ledger' r.
Proof.
  intros [Hb (? & ? & ?) Hw Hr] Hver Hov He Hle. split; [done|split_and!; [lia..|done]|done|]. intros id' Hid Hc.
  eapply recorded_overwritten; [apply Hr; [done|]|done..| |done|]; [lia..|]. intros _. split; [apply floor_second_mono; lia|done].
Qed.
(** Changing the ledger keeps what was accepted. *)
Lemma inv_ledger clock w ledger' now stamp id e :
  world_inv clock w → overwritten (ww_ledger w) ledger' now id e → entry_time e = Some (floor_second stamp) → (clock ≤ now ≤ stamp)%Z →
  world_inv stamp (w <| ww_ledger := ledger' |>).
Proof.
  intros [Hv Hruns Hws Hfar] Hov He Hle. split; cbn; [by eapply overwritten_version|done| |done]. intros n r Hn. eapply write_overwritten; [by apply (Hws n)|done..].
Qed.
Lemma inv_later clock clock' w : (clock ≤ clock')%Z → world_inv clock w → world_inv clock' w.
Proof. intros Hle [Hv Hruns Hws Hfar]. split; [done..| |done]. intros n r Hn. eapply write_later; [done|by apply (Hws n)]. Qed.
Lemma inv_finish clock w now stamp writable id rq answer :
  world_inv clock w → (clock ≤ now ≤ stamp)%Z → unix_nanos stamp →
  world_inv stamp (w <| ww_ledger := (ledger_finish (ww_ledger w) now stamp writable id rq answer).1 |>).
Proof.
  intros Hinv Hle Hs. pose proof (finish_effect (ww_ledger w) now stamp writable id rq answer) as Hf. destruct (ledger_finish _ _ _ _ _ _ _) as [l' res]. cbn [fst].
  destruct Hf as [[-> _]|[_ Hov]]; [apply (inv_later clock); [lia|]; by destruct Hinv; split|]. eapply inv_ledger; [done..| |done]. apply timestamp_time; [done|]. left. by eexists.
Qed.

(** ** Steps *)

Lemma start_write_run ledger now stamp writable capability verified cmd ledger' binding :
  cx_route (vr_context verified) = MeshV2 → start_write ledger now stamp writable capability verified cmd = (ledger', Run binding) →
  ∃ id rq, binding = Some (id, rq) ∧ pl_entries (ledger_prune (ld_state ledger) now) !! id = None ∧
    overwritten ledger ledger' now id (mkLedgerEntry (Some rq) (Pending (timestamp stamp))).
Proof.
  intros Hroute. unfold start_write, idempotency_request. rewrite bool_decide_eq_true_2 by done. destruct (dedicated_command cmd); [discriminate|].
  destruct (if reverse_mesh_command cmd then _ else _); [|discriminate]. set (id := cx_request_id _). set (rq := mkIdempotencyRequest _ _).
  pose proof (begin_effect ledger now stamp writable id rq) as Hb. destruct (ledger_begin _ _ _ _ _ _) as [l' res].
  destruct Hb as [[-> Hres]|(-> & Hnone & Hov)]; [|intros [= <- <-]; by exists id, rq]. intros [= <- Heq]. by destruct res as [[]|].
Qed.
Lemma start_write_answered ledger now stamp writable capability verified cmd ledger' response :
  start_write ledger now stamp writable capability verified cmd = (ledger', Answered response) → ledger' = ledger.
Proof.
  unfold start_write. destruct (dedicated_command cmd); [by intros [= <- _]|]. destruct (if reverse_mesh_command cmd then _ else _); [|by intros [= <- _]].
  destruct (idempotency_request verified) as [[id rq]|]; [|discriminate]. pose proof (begin_effect ledger now stamp writable id rq) as Hb.
  destruct (ledger_begin _ _ _ _ _ _) as [l' res]. destruct Hb as [[-> Hres]|(-> & _)]; [by intros [= <- _]|discriminate].
Qed.

(** What is accepted is far from everything accepted before under its id. *)
Lemma accepted_far clock ledger r r' id now :
  write_inv clock ledger r → write_id r = Some id → pl_entries (ledger_prune (ld_state ledger) now) !! id = None → (clock ≤ now ≤ wr_recorded r')%Z →
  (0 ≤ wr_checked r')%Z → unix_nanos now → (wr_checked r' ≤ now ≤ wr_checked r' + HANDLER_BUDGET)%Z → is_within_auth_window (wr_issued_at r') (now_unix_secs (wr_checked r')) = true →
  far r r'.
Proof.
  intros [_ ((Hc & Hcr) & Hrc & Hi) Hwin Hrec] Hid Hnone Hle Hc' Hnow Hbudget Hwin' _.
  assert (floor_second (wr_recorded r) + RETENTION < now)%Z as Hlate.
  { destruct (Z.lt_ge_cases (floor_second (wr_recorded r) + RETENTION) now) as [?|Hge]; [done|]. exfalso.
    destruct (Hrec id Hid) as [Hk _]; [lia|]. apply (kept_prune _ _ _ _ now) in Hk as (e & _ & He & _); [congruence|lia]. }
  split; [|lia]. intros Heq. rewrite Heq in Hwin. pose proof (floor_second_bounds (wr_recorded r)). unfold HANDLER_BUDGET, RETENTION, unix_nanos, SECOND in *.
  pose proof (window_close (wr_issued_at r') (wr_checked r) (wr_checked r') Hc Hc' ltac:(unfold unix_nanos; lia) ltac:(unfold unix_nanos; lia) Hwin Hwin'). unfold SECOND in *. lia.
Qed.

Lemma inv_accept clock w ledger' now stamp id rq issued checked cmd :
  world_inv clock w → overwritten (ww_ledger w) ledger' now id (mkLedgerEntry (Some rq) (Pending (timestamp stamp))) →
  pl_entries (ledger_prune (ld_state (ww_ledger w)) now) !! id = None → (clock ≤ now ≤ stamp)%Z → unix_nanos now → unix_nanos stamp →
  (0 ≤ checked ≤ now)%Z → (now ≤ checked + HANDLER_BUDGET)%Z → is_within_auth_window issued (now_unix_secs checked) = true →
  world_inv stamp (w <| ww_ledger := ledger' |> <| ww_accepted ::= λ l, l ++ [mkWrite (Some (id, rq)) issued checked stamp cmd] |>
    <| ww_running ::= cons (length (ww_accepted w)) |>).
Proof.
  intros Hinv Hov Hnone Hle Hnow Hs Hchecked Hbudget Hwin. set (r' := mkWrite _ _ _ _ _).
  assert (entry_time (mkLedgerEntry (Some rq) (Pending (timestamp stamp))) = Some (floor_second stamp)) as Het by (apply timestamp_time; [done|by right]).
  pose proof (inv_ledger clock w ledger' now stamp id _ Hinv Hov Het Hle) as [Hv' [Hnd Hlt] Hws' _]. destruct Hinv as [Hv _ Hws Hfar]. cbn in *. split; cbn; [done| | |].
  - split.
    + constructor; [|done]. intros Hin%Hlt. lia.
    + intros n. rewrite length_app. intros [->|Hin%Hlt]%elem_of_cons; cbn; lia.
  - intros n r [Hn|(Hn & Hr)]%lookup_app_Some; [by apply (Hws' n)|]. apply list_lookup_singleton_Some in Hr as [_ <-]. split; [by eexists|split_and!; cbn; [lia..|done]|done|].
    intros id' [= <-] _. apply (recorded_new (ww_ledger w) ledger' now id _ (floor_second stamp) _ _ Hv Hov Het); [cbn; lia|done].
  - intros m n r r2 Hmn Hm Hn. apply lookup_app_Some in Hn as [Hn|(Hn & Hr)].
    + rewrite lookup_app_l in Hm by (apply lookup_lt_Some in Hn; lia). by apply (Hfar m n).
    + apply list_lookup_singleton_Some in Hr as [Hlen <-]. rewrite lookup_app_l in Hm by lia. destruct (wi_bound _ _ _ (Hws m r Hm)) as [idr Hidr].
      intros Hsame. rewrite Hidr in Hsame. injection Hsame as ->.
      eapply (accepted_far clock (ww_ledger w) r r' id now); [by apply (Hws m)|done..|cbn; lia|cbn; lia|done|cbn; lia|done|by rewrite Hidr].
Qed.

Lemma inv_receive clock w checked now stamp writable capability auth nodes senders request cmd :
  world_inv clock w → (clock ≤ now ≤ stamp)%Z → unix_nanos now → unix_nanos stamp → (0 ≤ checked ≤ now)%Z → (now ≤ checked + HANDLER_BUDGET)%Z →
  world_inv stamp (step w (Receive checked now stamp writable capability auth nodes senders request cmd)).
Proof.
  intros Hinv Hle Hnow Hs Hchecked Hbudget. assert (world_inv stamp w) as Hlater by (apply (inv_later clock); [lia|done]).
  cbn [step]. destruct (bool_decide _ && _) eqn:Hroute; [|done]. cbn [negb]. apply andb_true_iff in Hroute as [Hpost%bool_decide_eq_true _].
  destruct (admission auth nodes senders checked request) as [|msg|verified] eqn:Hadmit; [done..|].
  destruct (admitted_checked _ _ _ _ _ _ Hadmit Hpost) as [Hwin Hmesh]. destruct (start_write _ _ _ _ _ _ _) as [ledger' [response|binding]] eqn:Hstart.
  - apply start_write_answered in Hstart as ->. by destruct Hlater; split.
  - apply start_write_run in Hstart as (id & rq & -> & Hnone & Hov); [|done]. exact (inv_accept clock w ledger' now stamp id rq _ checked cmd Hinv Hov Hnone Hle Hnow Hs Hchecked Hbudget Hwin).
Qed.

Lemma inv_execute clock w n outcome : world_inv clock w → world_inv clock (step w (Execute n outcome)).
Proof.
  intros [Hv [Hnd Hlt] Hws Hfar]. cbn [step]. case_bool_decide as Hin; [|by split]. split; cbn; [done| |done..].
  assert (filter (λ m, m ≠ n) (ww_running w) ++ n :: ww_executed w ≡ₚ ww_running w ++ ww_executed w) as Hperm.
  { rewrite <- Permutation_middle. apply NoDup_app in Hnd as (Hnd & _ & _). clear -Hin Hnd. change (n :: filter (λ m, m ≠ n) (ww_running w) ++ ww_executed w) with ((n :: filter (λ m, m ≠ n) (ww_running w)) ++ ww_executed w).
    f_equiv. induction (ww_running w) as [|m l IH]; [by apply not_elem_of_nil in Hin|]. apply NoDup_cons in Hnd as [Hm Hnd].
    destruct (decide (m = n)) as [->|Hne].
    - rewrite filter_cons_False by (intros ?; done). f_equiv. clear -Hm. induction l as [|x l IH]; [done|]. apply not_elem_of_cons in Hm as [? ?]. rewrite filter_cons_True by done. f_equiv. by apply IH.
    - rewrite filter_cons_True by done. rewrite Permutation_swap. constructor. apply IH; [done|]. apply elem_of_cons in Hin as [->|Hin]; [done|exact Hin]. }
  split; [by rewrite Hperm|]. intros m. rewrite Hperm. apply Hlt.
Qed.

Lemma inv_relay clock w now stamp now' stamp' writable writable' id rq answer :
  world_inv clock w → (clock ≤ now ≤ stamp)%Z → (stamp ≤ now' ≤ stamp')%Z → unix_nanos stamp → unix_nanos stamp' →
  world_inv stamp' (step w (RelayAccept now stamp now' stamp' writable writable' id rq answer)).
Proof.
  intros Hinv Hle Hle' Hs Hs'. cbn [step]. pose proof (begin_effect (ww_ledger w) now stamp writable id rq) as Hb. destruct (ledger_begin _ _ _ _ _ _) as [l' res].
  destruct Hb as [[-> Hres]|(-> & _ & Hov)].
  - assert (world_inv stamp' (w <| ww_ledger := ww_ledger w |>)) by (apply (inv_later clock); [lia|]; by destruct Hinv; split). by destruct res as [[]|].
  - assert (world_inv stamp (w <| ww_ledger := l' |>)) as Hinv' by (eapply inv_ledger; [done..| |done]; apply timestamp_time; [done|by right]).
    by apply (inv_finish stamp _ now' stamp' writable' id rq answer) in Hinv'.
Qed.

Lemma inv_restart clock w now : world_inv clock w → (clock ≤ now)%Z → world_inv now (step w (Restart now)).
Proof.
  intros [Hv [Hnd Hlt] Hws Hfar] Hle. cbn [step].
  assert (∀ w', ww_accepted w' = ww_accepted w → ww_running w' = [] → ww_executed w' = ww_executed w → version_ok (ww_ledger w') →
    (∀ id since, recorded (ww_ledger w) id since (λ _, True) → (now ≤ since + RETENTION)%Z → recorded (ww_ledger w') id since (λ _, True)) → world_inv now w') as Hgoal.
  { intros w' Ha Hr He Hv' Hrec. split; [done| | |by rewrite Ha].
    - rewrite Ha, Hr, He. cbn. apply NoDup_app in Hnd as (_ & _ & Hnd). split; [done|]. intros n Hn. apply Hlt, elem_of_app. by right.
    - intros n r Hn. rewrite Ha in Hn. destruct (Hws n r Hn) as [Hb (? & ? & ?) Hw Hk]. split; [done|split_and!; [lia..|done]|done|].
      intros id Hid Hc. apply Hrec; [|done]. apply Hk; [done|lia]. }
  destruct (ledger_load (ld_file (ww_ledger w)) now) as [ledger|e] eqn:Hload; (apply Hgoal; [done..| |]); cbn.
  - by apply load_version in Hload as [].
  - intros id since Hrec Hc. destruct (reload_recorded _ _ _ _ now Hrec Hc) as (l' & Hl & _ & Hr). rewrite Hload in Hl. by injection Hl as <-.
  - done.
  - done.
Qed.

Lemma inv_record clock w n now stamp writable :
  world_inv clock w → (clock ≤ now ≤ stamp)%Z → unix_nanos stamp → world_inv stamp (step w (RecordAnswer n now stamp writable)).
Proof.
  intros Hinv Hle Hs. assert (world_inv stamp w) as Hlater by (apply (inv_later clock); [lia|done]). cbn [step].
  destruct (ww_accepted w !! n) as [r|] eqn:Hr; [|done]. destruct (list_find _ _) as [[i [m response]]|]; [|done].
  destruct (wr_binding r) as [[id rq]|] eqn:Hb; cbn [finish_write]; [|by destruct Hlater; split].
  pose proof (inv_finish clock w now stamp writable id rq (mkStoredResult 200 (to_value response)) Hinv Hle Hs) as Hinv'.
  destruct (ledger_finish _ _ _ _ _ _ _). by destruct Hinv'; split.
Qed.

Lemma inv_step clock w e rest :
  world_inv clock w → event_ok e → times_from clock (event_times e ++ rest) → ∃ clock', world_inv clock' (step w e) ∧ times_from clock' rest.
Proof.
  intros Hinv Hok Ht. destruct e as [checked now stamp wr cap auth nodes senders rq cmd|n out|n now stamp wr|now stamp now' stamp' wr wr' id rq ans|now]; cbn [event_times app times_from] in Ht; destruct_and?.
  - exists stamp. split; [|done]. cbn in Hok. destruct Hok. apply (inv_receive clock); [done|lia|done..|lia|done].
  - exists clock. split; [by apply inv_execute|done].
  - exists stamp. split; [|done]. by apply (inv_record clock).
  - exists stamp'. split; [|done]. by apply (inv_relay clock).
  - exists now. split; [|done]. by apply (inv_restart clock).
Qed.

Lemma inv_run clock w events : world_inv clock w → events_ok clock events → ∃ clock', world_inv clock' (run w events).
Proof.
  revert clock w. induction events as [|e events IH]; intros clock w Hinv [Hok Ht]; [by exists clock|].
  apply Forall_cons in Hok as [He Hok]. cbn in Ht. destruct (inv_step clock w e _ Hinv He Ht) as (clock' & Hinv' & Ht'). by eapply IH.
Qed.

(** C7: a forwarded write is executed at most once.  Whatever requests arrive, in whatever
    order handlers run, and wherever the node restarts: every accepted write carries the id it
    was signed with and is handed to Raft at most once; two executed writes with the same id
    were accepted more than ten minutes (less the second that time stamps are cut by) apart,
    and never carry the same signature time - so no signed request, retried or replayed, is
    executed a second time.  A request reaches the ledger within five minutes of being
    checked. *)
Theorem forwarded_write_executed_once (file : option json) (now : Z) (ledger : InternalIdempotencyLedger) (events : list Event)
    (Hload : ledger_load file now = Ok ledger) (Hevents : events_ok now events) :
  let w := run (mkWorld ledger [] [] [] []) events in
  NoDup (ww_executed w) ∧
  (∀ n, n ∈ ww_executed w → ∃ r, ww_accepted w !! n = Some r ∧ is_Some (write_id r)) ∧
  (∀ m n r r', m ∈ ww_executed w → n ∈ ww_executed w → m ≠ n → ww_accepted w !! m = Some r → ww_accepted w !! n = Some r' → write_id r = write_id r' →
     wr_issued_at r ≠ wr_issued_at r' ∧ (RETENTION - SECOND < Z.abs (wr_recorded r' - wr_recorded r))%Z).
Proof.
  intros w. destruct (inv_run now (mkWorld ledger [] [] [] []) events) as (clock & [Hv [Hnd Hlt] Hws Hfar]); [|done|].
  { split; cbn; [by apply load_version in Hload as []|split; [constructor|by intros ? ?%not_elem_of_nil]|done|done]. }
  fold w in Hnd, Hlt, Hws, Hfar. split_and!.
  - by apply NoDup_app in Hnd as (_ & _ & ?).
  - intros n Hn. destruct (lookup_lt_is_Some_2 (ww_accepted w) n) as [r Hr]; [apply Hlt, elem_of_app; by right|]. exists r. split; [done|]. by apply (wi_bound _ _ _ (Hws n r Hr)).
  - intros m n r r' _ _ Hne Hm Hn Hid. pose proof (floor_second_bounds (wr_recorded r)). pose proof (floor_second_bounds (wr_recorded r')).
    destruct (Nat.lt_total m n) as [Hlt'|[?|Hlt']]; [|done|].
    + destruct (Hfar m n r r' Hlt' Hm Hn Hid) as [? ?]. split; [done|lia].
    + destruct (Hfar n m r' r Hlt' Hn Hm (eq_sym Hid)) as [? ?]. split; [congruence|lia].
Qed.
End Forwarded.

(** ** Examples *)

#[global] Instance UserNodeQuota_countable : Countable UserNodeQuota.
Proof.
  refine (inj_countable' (λ q, (unq_user_id q, unq_node_id q, unq_quota_limit_bytes q, unq_quota_reset_source q)) (λ '(a, b, c, d), mkUserNodeQuota a b c d) _). by intros [].
Defined.
Definition apply_result_sum (r : DesiredStateApplyResult)
    : unit + MembershipOperation + (bool * list string) + bool + bool + bool + UserNodeQuota + (nat * nat) + (string * N) :=
  match r with
  | Applied => inl (inl (inl (inl (inl (inl (inl (inl tt)))))))
  | MembershipOperationResult op => inl (inl (inl (inl (inl (inl (inl (inr op)))))))
  | NodeDeleted d tags => inl (inl (inl (inl (inl (inl (inr (d, tags)))))))
  | EndpointDeleted d => inl (inl (inl (inl (inl (inr d)))))
  | UserDeleted d => inl (inl (inl (inl (inr d))))
  | UserTokenReset d => inl (inl (inl (inr d)))
  | UserNodeQuotaSet q => inl (inl (inr q))
  | UserAccessReplaced c d => inl (inr (c, d))
  | UserCredentialEpochBumped u e => inr (u, e)
  end.
Definition sum_apply_result (s : unit + MembershipOperation + (bool * list string) + bool + bool + bool + UserNodeQuota + (nat * nat) + (string * N)) : DesiredStateApplyResult :=
  match s with
  | inl (inl (inl (inl (inl (inl (inl (inl _))))))) => Applied
  | inl (inl (inl (inl (inl (inl (inl (inr op))))))) => MembershipOperationResult op
  | inl (inl (inl (inl (inl (inl (inr (d, tags))))))) => NodeDeleted d tags
  | inl (inl (inl (inl (inl (inr d))))) => EndpointDeleted d
  | inl (inl (inl (inl (inr d)))) => UserDeleted d
  | inl (inl (inl (inr d))) => UserTokenReset d
  | inl (inl (inr q)) => UserNodeQuotaSet q
  | inl (inr (c, d)) => UserAccessReplaced c d
  | inr (u, e) => UserCredentialEpochBumped u e
  end.
#[global] Instance DesiredStateApplyResult_eq_dec : EqDecision DesiredStateApplyResult.
Proof. solve_decision. Defined.
#[global] Instance DesiredStateApplyResult_countable : Countable DesiredStateApplyResult.
Proof. refine (inj_countable' apply_result_sum sum_apply_result _). by intros []. Defined.
#[global] Instance ClientResponse_eq_dec : EqDecision ClientResponse.
Proof. solve_decision. Defined.
#[global] Instance ClientResponse_countable : Countable ClientResponse.
Proof.
  refine (inj_countable' (λ r, match r with RespOk x => inl x | RespErr a b c => inr (a, b, c) end) (λ s, match s with inl x => RespOk x | inr (a, b, c) => RespErr a b c end) _).
  by intros [].
Defined.

Module WriteSample.
#[local] Existing Instances ascii_headers AuthSample.plain_crypto nanos_reader floor_secs floor_secs_floor LedgerSample.ledger_codec.

Definition second (n : Z) : Z := (n * SECOND)%Z.
Definition auth : AdminAuthState := mkAdminAuthState (Some "key") "cert" "cluster" "n2".
Definition nodes : gmap string Node := {["n1" := mkNode "n1" "node" "host" "https://host" 0 NodeQuotaReset_default]}.
Definition command : DesiredStateCommand := BumpUserCredentialEpoch "u".
(** A write signed at second [at_]. *)
Definition signed_write (at_ : Z) : HttpRequest :=
  mkHttpRequest "POST" client_write_path
    (match sign_request_v2 "key" "cert" (mkRequestLine "POST" ("/api/admin" +:+ client_write_path)) None "{}" (mkRequestContext MeshV2 "cluster" "n1" "n2" "r1" at_) ∅ with
     | Ok headers => headers | Err _ => ∅ end) "{}".
Definition receive (now : Z) (at_ : Z) : Event := Receive (second now) (second now) (second now) true (Ok tt) auth nodes [] (signed_write at_) command.

(** The write is accepted and executed; a replay, one after a restart, and a retry signed
    anew are not; a request of the same id after the record has expired is. *)
Definition events : list Event :=
  [receive 1000 1000; Execute 0 (Ok (RespOk Applied)); receive 1050 1000; Restart (second 1060); receive 1070 1000; receive 1300 1300; Execute 1 (Ok (RespOk Applied));
   receive 1601 1601; Execute 1 (Ok (RespOk Applied))].

Lemma events_in_order : events_ok (second 900) events.
Proof.
  split.
  - repeat constructor; cbn; unfold HANDLER_BUDGET, second, SECOND; lia.
  - cbn. unfold unix_nanos, second, SECOND. lia.
Qed.
Lemma loaded : ∃ ledger, ledger_load None (second 900) = Ok ledger.
Proof. by eexists. Qed.

Lemma forwarded_write_executed_once_witness :
  ∃ ledger, ledger_load None (second 900) = Ok ledger ∧ ww_executed (run (mkWorld ledger [] [] [] []) events) = [1%nat; 0%nat] ∧ NoDup (ww_executed (run (mkWorld ledger [] [] [] []) events)).
Proof.
  eexists. split; [done|]. split; [by vm_compute|]. by apply (forwarded_write_executed_once None (second 900) _ events eq_refl events_in_order).
Defined.
End WriteSample.
