(* ===== verification/QuotaEngine.v ===== *)
(** * The quota engine

    [src/quota.rs]: which memberships a tick of the quota worker looks at, and how
    [enforce_shared_node_quota_node] updates the token banks of the users of a node, bans
    those who overspent and lifts bans.  The calls to the proxy and the locks around the
    store are not modelled: a tick is a function from the ledger to the ledger, the users to
    remove from the proxy and whether a reconciliation is due. *)

From S2P Require Import Prelude Text Search Domain QuotaPolicy Clock Cycle ReverseMesh State Usage.
Open Scope string_scope.
Open Scope list_scope.
Open Scope N_scope.

Definition P1_CARRY_DAYS : N := 7.
Definition P2_CARRY_DAYS : N := 2.
Definition PROBE_USER_ID : string := "user_probe".

Inductive QuotaResetPolicy : Type := PolicyMonthly | PolicyUnlimited.
#[global] Instance QuotaResetPolicy_eq_dec : EqDecision QuotaResetPolicy.
Proof. solve_decision. Defined.

Record MembershipQuotaSnapshot : Type := mkMembershipQuotaSnapshot {
  mqs_membership_key : string;
  mqs_user_id : string;
  mqs_endpoint_id : string;
  mqs_node_id : string;
  mqs_endpoint_tag : option string;
  mqs_node_quota_limit_bytes : N;
  mqs_quota_reset_policy : QuotaResetPolicy;
  mqs_cycle_tz : CycleTimeZone;
  mqs_cycle_day_of_month : N;
}.

Record MembershipUsageTick : Type := mkMembershipUsageTick {
  mt_snapshot : MembershipQuotaSnapshot;
  mt_used_bytes : N;
}.

Definition cycle_tz_of (tz_offset_minutes : option Z) : CycleTimeZone :=
  match tz_offset_minutes with Some m => FixedOffsetMinutes m | None => Local end.

Definition resolve_node_quota_reset (st : PersistedState) (node_id : string) : result (QuotaResetPolicy * CycleTimeZone * N) string :=
  let? node := ok_or (ps_nodes st !! node_id) ("node not found: " +:+ node_id) in
  let '(policy, day_of_month, tz) :=
    match n_quota_reset node with
    | NodeUnlimited tz => (PolicyUnlimited, 1, cycle_tz_of tz)
    | NodeMonthly day_of_month tz => (PolicyMonthly, day_of_month, cycle_tz_of tz)
    end in
  if negb ((1 <=? day_of_month) && (day_of_month <=? 31)) then Err ("invalid day_of_month: " +:+ pretty day_of_month)
  else Ok (policy, tz, day_of_month).

(** ** The memberships of a tick

    The memberships of the local node in the order of the set (users, then nodes, then
    endpoints); the probe's own user is left out. *)
Definition membership_le (a b : NodeUserEndpointMembership) : Prop :=
  if bool_decide (m_user_id a = m_user_id b) then
    if bool_decide (m_node_id a = m_node_id b) then String.le (m_endpoint_id a) (m_endpoint_id b)
    else String.le (m_node_id a) (m_node_id b)
  else String.le (m_user_id a) (m_user_id b).
#[global] Instance membership_le_dec : RelDecision membership_le.
Proof. intros a b. unfold membership_le. repeat case_match; apply _. Defined.

Definition endpoints_by_id (st : PersistedState) : gmap string Endpoint :=
  foldl (λ m e, <[e_endpoint_id e := e]> m) ∅ (bt_values (ps_endpoints st)).

Definition membership_snapshot (st : PersistedState) (local_node_id : string) (limit : N)
    (reset : QuotaResetPolicy * CycleTimeZone * N) (m : NodeUserEndpointMembership) : option MembershipQuotaSnapshot :=
  let '(policy, tz, day) := reset in
  if bool_decide (m_user_id m = PROBE_USER_ID) then None
  else (λ endpoint, mkMembershipQuotaSnapshot (membership_key (m_user_id m) (m_endpoint_id m)) (m_user_id m) (m_endpoint_id m)
                      local_node_id (Some (e_tag endpoint)) limit policy tz day) <$> endpoints_by_id st !! m_endpoint_id m.

Definition quota_snapshots (st : PersistedState) (local_node_id : string) : list MembershipQuotaSnapshot :=
  match resolve_node_quota_reset st local_node_id with
  | Err _ => []
  | Ok reset =>
      let limit := default 0 (n_quota_limit_bytes <$> ps_nodes st !! local_node_id) in
      omap (membership_snapshot st local_node_id limit reset)
        (filter (λ m, m_node_id m = local_node_id) (merge_sort membership_le (elements (ps_node_user_endpoint_memberships st))))
  end.

(** The ticks that succeeded, by user. *)
Definition group_by_user (ticks : list MembershipUsageTick) : gmap string (list MembershipUsageTick) :=
  foldl (λ m t, entry_update [] (λ l, l ++ [t]) (mqs_user_id (mt_snapshot t)) m) ∅ ticks.

(** ** Policy inputs *)

(** What the update of the ledger depends on. *)
Record QuotaTick : Type := mkQuotaTick {
  qt_node_id : string;
  qt_cycle_start_at : string;
  qt_cycle_end_at : string;
  qt_cycle_days : N;
  qt_today_index : Z;
  qt_now : string;
  qt_auto_unban : bool;
  qt_limit_bytes : N;
  qt_by_user : gmap string (list MembershipUsageTick);
  qt_tier : gmap string UserPriorityTier;
  qt_weight : gmap string N;
}.

Section Tick.
Context (q : QuotaTick).

Definition total_used_by_user (user_id : string) : N :=
  default 0 ((λ group, foldl (λ acc t, sat_add u64_max acc (mt_used_bytes t)) 0 group) <$> qt_by_user q !! user_id).

Definition enabled_users : list string :=
  dedup (merge_sort String.le (filter (λ u, u ≠ PROBE_USER_ID) (bt_keys (qt_by_user q)))).

Definition tier_of (user_id : string) : UserPriorityTier := default UserPriorityTier_default (qt_tier q !! user_id).
Definition weight_of (user_id : string) : N := default 100 (qt_weight q !! user_id).

Definition items_of (keep : UserPriorityTier → bool) : list (string * N) :=
  (λ u, (u, weight_of u)) <$> filter (λ u, keep (tier_of u) = true) enabled_users.
Definition p1p2_items : list (string * N) := items_of (λ t, match t with P1 | P2 => true | P3 => false end).
Definition p1_items : list (string * N) := items_of (λ t, match t with P1 => true | _ => false end).
Definition p3_items : list (string * N) := items_of (λ t, match t with P3 => true | _ => false end).

Definition base_by_user : gmap string N :=
  foldl (λ m '(user_id, base), <[user_id := base]> m) ∅
    (allocate_total_by_weight (distributable_bytes (qt_limit_bytes q)) p1p2_items).
Definition base_of (user_id : string) : N := default 0 (base_by_user !! user_id).

Definition carry_of (tier : UserPriorityTier) : N :=
  match tier with P1 => P1_CARRY_DAYS | P2 => P2_CARRY_DAYS | P3 => 0 end.

(** ** The ledger of one node *)

Definition new_pacing : UserNodePacing := mkUserNodePacing 0 0 0 UserPriorityTier_default.

Definition update_pacing (f : UserNodePacing → UserNodePacing) (user_id : string) (usage : PersistedUsage) : PersistedUsage :=
  usage <| pu_user_node_pacing ::= entry_update ∅ (entry_update new_pacing f (qt_node_id q)) user_id |>.

(** The entry an update finds. *)
Definition pacing (usage : PersistedUsage) (user_id : string) : UserNodePacing :=
  default new_pacing (pu_user_node_pacing usage !! user_id ≫= lookup (qt_node_id q)).

(** Lifts the bans of the given memberships; reports whether there was one. *)
Definition unban_ticks (ticks : list MembershipUsageTick) (acc : PersistedUsage * bool) : PersistedUsage * bool :=
  foldl (λ '(usage, changed) t,
    let key := mqs_membership_key (mt_snapshot t) in
    match pu_memberships usage !! key with
    | Some u => if mu_quota_banned u then (usage <| pu_memberships ::= <[key := unban u]> |>, true) else (usage, changed)
    | None => (usage, changed)
    end) acc ticks.

Definition all_ticks : list MembershipUsageTick := concat (bt_values (qt_by_user q)).

Definition drop_node_pacing (usage : PersistedUsage) : PersistedUsage :=
  usage <| pu_user_node_pacing ::= λ m, filter (λ '(_, nodes), nodes ≠ ∅) (delete (qt_node_id q) <$> m) |>.

(** Without a finite budget nothing is enforced: bans and pacing of the node are cleared. *)
Definition clear_enforcement (usage : PersistedUsage) : PersistedUsage * bool :=
  let '(usage, changed) := unban_ticks all_ticks (usage, false) in
  (drop_node_pacing (usage <| pu_node_pacing ::= delete (qt_node_id q) |>), changed).

(** A new cycle restarts the days and the banks, and lifts bans where configured. *)
Definition enter_cycle (usage : PersistedUsage) : PersistedUsage * NodePacing * bool :=
  let np := default (mkNodePacing (qt_cycle_start_at q) (qt_cycle_end_at q) (-1)) (pu_node_pacing usage !! qt_node_id q) in
  let cycle_changed := negb (bool_decide (np_cycle_start_at np = qt_cycle_start_at q))
                       || negb (bool_decide (np_cycle_end_at np = qt_cycle_end_at q)) in
  let '(usage, np, changed) :=
    if cycle_changed then
      let usage := drop_node_pacing usage in
      let '(usage, changed) := if qt_auto_unban q then unban_ticks all_ticks (usage, false) else (usage, false) in
      (usage, mkNodePacing (qt_cycle_start_at q) (qt_cycle_end_at q) (-1), changed)
    else (usage, np, false) in
  (usage, if (qt_today_index q <? np_last_day_index np)%Z then np <| np_last_day_index := qt_today_index q |> else np, changed).

(** ** Day rollovers *)

Definition rollover_user (day : N) (acc : PersistedUsage * N * N) (user_id : string) : PersistedUsage * N * N :=
  let '(usage, p1_pool, p3_pool) := acc in
  let tier := tier_of user_id in
  match tier with
  | P3 => (update_pacing (λ e, e <| unp_bank_bytes := 0 |> <| unp_last_base_quota_bytes := 0 |> <| unp_last_priority_tier := tier |>)
             user_id usage, p1_pool, p3_pool)
  | _ =>
      let '(bank, overflow) :=
        apply_daily_rollover (unp_bank_bytes (pacing usage user_id)) (base_of user_id) (qt_cycle_days q) day (carry_of tier) in
      let usage := update_pacing (λ e, e <| unp_bank_bytes := bank |>) user_id usage in
      match tier with
      | P1 => (usage, p1_pool, sat_add u64_max p3_pool overflow)
      | _ => (usage, sat_add u64_max p1_pool overflow, p3_pool)
      end
  end.

Definition bonus_p1 (day : N) (acc : PersistedUsage * N) (item : string * N) : PersistedUsage * N :=
  let '(usage, p3_pool) := acc in
  let '(user_id, bonus) := item in
  let bank := sat_add u64_max (unp_bank_bytes (pacing usage user_id)) bonus in
  let cap := cap_bytes_for_day (base_of user_id) (qt_cycle_days q) day P1_CARRY_DAYS in
  if cap <? bank
  then (update_pacing (λ e, e <| unp_bank_bytes := cap |>) user_id usage, sat_add u64_max p3_pool (bank - cap))
  else (update_pacing (λ e, e <| unp_bank_bytes := bank |>) user_id usage, p3_pool).

Definition bonus_p3 (usage : PersistedUsage) (item : string * N) : PersistedUsage :=
  let '(user_id, bonus) := item in
  update_pacing (λ e, e <| unp_bank_bytes := sat_add u64_max (unp_bank_bytes e) bonus |>) user_id usage.

Definition rollover_day (usage : PersistedUsage) (day : Z) : PersistedUsage :=
  let day := Z.to_N day in
  let '(usage, p1_pool, p3_pool) := foldl (rollover_user day) (usage, 0, 0) enabled_users in
  let '(usage, p3_pool) :=
    if 0 <? p1_pool then
      if bool_decide (p1_items = []) then (usage, sat_add u64_max p3_pool p1_pool)
      else foldl (bonus_p1 day) (usage, p3_pool) (allocate_total_by_weight p1_pool p1_items)
    else (usage, p3_pool) in
  if (0 <? p3_pool) && negb (bool_decide (p3_items = []))
  then foldl bonus_p3 usage (allocate_total_by_weight p3_pool p3_items)
  else usage.

(** The days from the one after [last] to today. *)
Definition rollover_days (last : Z) : list Z := seqZ (last + 1) (qt_today_index q - last).

(** ** Policy changes within a cycle *)

Definition today : N := Z.to_N (qt_today_index q).

Definition reconcile_user (do_cap_reconcile : bool) (acc : PersistedUsage * gset string) (user_id : string) : PersistedUsage * gset string :=
  let '(usage, force_ban) := acc in
  let tier := tier_of user_id in
  let entry := pacing usage user_id in
  match tier with
  | P3 =>
      let bank := if bool_decide (unp_last_priority_tier entry = P3) then unp_bank_bytes entry else 0 in
      (update_pacing (λ e, e <| unp_bank_bytes := bank |> <| unp_last_base_quota_bytes := 0 |> <| unp_last_priority_tier := tier |>)
         user_id usage,
       if bank =? 0 then {[user_id]} ∪ force_ban else force_ban)
  | _ =>
      let base_quota := base_of user_id in
      let cap_new := cap_bytes_for_day base_quota (qt_cycle_days q) today (carry_of tier) in
      let '(bank, force_ban) :=
        if do_cap_reconcile then
          let cap_old := cap_bytes_for_day (unp_last_base_quota_bytes entry) (qt_cycle_days q) today
                           (carry_of (unp_last_priority_tier entry)) in
          if cap_old <=? cap_new then (sat_add u64_max (unp_bank_bytes entry) (cap_new - cap_old), force_ban)
          else
            let drop := cap_old - cap_new in
            if unp_bank_bytes entry <? drop then (0, {[user_id]} ∪ force_ban)
            else (sat_sub (unp_bank_bytes entry) drop, force_ban)
        else (unp_bank_bytes entry, force_ban) in
      let bank := if cap_new <? bank then cap_new else bank in
      (update_pacing (λ e, e <| unp_bank_bytes := bank |> <| unp_last_base_quota_bytes := base_quota |> <| unp_last_priority_tier := tier |>)
         user_id usage, force_ban)
  end.

(** ** Spending *)

(** How a user's traffic since the last tick meets the bank. *)
Inductive spending : Type :=
| Banned
| Consumed (bank : N).

Definition spend (did_day_rollover forced : bool) (pre_bank : N) (initial_last_day_index : Z) (user_id : string)
    (entry : UserNodePacing) (delta : N) : spending :=
  let carry_days := carry_of (tier_of user_id) in
  let exceeded := unp_bank_bytes entry <? delta in
  if exceeded && did_day_rollover && (0 <? carry_days) && negb forced
  then
    let '(bank_after, remaining) :=
      replay_rollovers_and_spend pre_bank delta (base_of user_id) (qt_cycle_days q)
        (Z.to_N (initial_last_day_index + 1)) today carry_days in
    if remaining =? 0 then Consumed bank_after else Banned
  else if forced || exceeded then Banned
  else Consumed (sat_sub (unp_bank_bytes entry) delta).

(** The entry a ban finds or makes. *)
Definition banned_entry (u : option MembershipUsage) : MembershipUsage :=
  let u := default (mkMembershipUsage (qt_cycle_start_at q) (qt_cycle_end_at q) 0 0 0 (qt_now q) false None) u in
  if mu_quota_banned u then u else u <| mu_quota_banned := true |> <| mu_quota_banned_at := Some (qt_now q) |>.

Definition ban_tick (acc : PersistedUsage * list (string * string) * bool) (t : MembershipUsageTick)
    : PersistedUsage * list (string * string) * bool :=
  let '(usage, remove_ops, changed) := acc in
  let s := mt_snapshot t in
  let old := pu_memberships usage !! mqs_membership_key s in
  let was_banned := match old with Some u => mu_quota_banned u | None => false end in
  (usage <| pu_memberships ::= <[mqs_membership_key s := banned_entry old]> |>,
   match mqs_endpoint_tag s with
   | Some tag => remove_ops ++ [(tag, membership_xray_email (mqs_user_id s) (mqs_endpoint_id s))]
   | None => remove_ops
   end,
   changed || negb was_banned).

Definition consume_user (did_day_rollover : bool) (force_ban : gset string) (pre_banks : gmap string N) (initial_last_day_index : Z)
    (acc : PersistedUsage * list (string * string) * bool) (user_id : string) : PersistedUsage * list (string * string) * bool :=
  let '(usage, remove_ops, changed) := acc in
  match qt_by_user q !! user_id with
  | None => acc
  | Some group =>
      let total_used := total_used_by_user user_id in
      let entry := pacing usage user_id in
      let delta := sat_sub total_used (unp_last_total_used_bytes entry) in
      let outcome := spend did_day_rollover (bool_decide (user_id ∈ force_ban)) (default 0 (pre_banks !! user_id))
                       initial_last_day_index user_id entry delta in
      let bank := match outcome with Banned => 0 | Consumed bank => bank end in
      let usage := update_pacing (λ e, e <| unp_bank_bytes := bank |> <| unp_last_total_used_bytes := total_used |>) user_id usage in
      match outcome with
      | Banned => foldl ban_tick (usage, remove_ops, changed) group
      | Consumed bank =>
          if qt_auto_unban q && (0 <? bank)
          then let '(usage, changed) := unban_ticks group (usage, changed) in (usage, remove_ops, changed)
          else (usage, remove_ops, changed)
      end
  end.

(** ** One update of the ledger *)

Definition pre_rollover_banks (usage : PersistedUsage) : gmap string N :=
  foldl (λ m u, <[u := unp_bank_bytes (pacing usage u)]> m) ∅ enabled_users.

Definition enforce_usage (usage : PersistedUsage) : PersistedUsage * list (string * string) * bool :=
  let '(usage, np, changed) := enter_cycle usage in
  let pre_banks := pre_rollover_banks usage in
  let initial := np_last_day_index np in
  let usage := foldl rollover_day usage (rollover_days initial) in
  let np := if (initial <? qt_today_index q)%Z then np <| np_last_day_index := qt_today_index q |> else np in
  let did_day_rollover := negb (np_last_day_index np =? initial)%Z in
  let '(usage, force_ban) := foldl (reconcile_user (negb did_day_rollover)) (usage, ∅) enabled_users in
  let '(usage, remove_ops, changed) :=
    foldl (consume_user did_day_rollover force_ban pre_banks initial) (usage, [], changed) enabled_users in
  (usage <| pu_node_pacing ::= <[qt_node_id q := np]> |>, remove_ops, changed).
End Tick.

(** ** A tick

    [to_rfc3339 offset instant] is [chrono]'s rendering; the traffic counters are what
    the proxy answers for an email, or the status of the failed call. *)

Section Engine.
Context `{Calendar, TimeFormat} (machine : TimeZone) (now : Z).

Definition cycle_window_text (tz : CycleTimeZone) (day_of_month : N) : result (string * string) CycleWindowError :=
  let? zone := cycle_zone machine tz in
  let? window := current_cycle_window_at machine tz (Z.of_N day_of_month) now in
  let '(start, finish) := window in
  Ok (to_rfc3339 (tz_offset zone start) start, to_rfc3339 (tz_offset zone finish) finish).

Definition map_cycle_error (subject : string) (err : CycleWindowError) : string :=
  subject +:+ " cycle window error: " +:+ CycleWindowError_display err.

Definition update_membership_usage_once (get_user_traffic_totals : string → result (N * N) string) (snapshot : MembershipQuotaSnapshot)
    (usage : PersistedUsage) : result (PersistedUsage * MembershipUsageTick) string :=
  let? cycle :=
    match mqs_quota_reset_policy snapshot with
    | PolicyMonthly =>
        map_err (map_cycle_error (mqs_membership_key snapshot)) (cycle_window_text (mqs_cycle_tz snapshot) (mqs_cycle_day_of_month snapshot))
    | PolicyUnlimited => Ok ("1970-01-01T00:00:00Z", "9999-12-31T23:59:59Z")
    end in
  let '(cycle_start_at, cycle_end_at) := cycle in
  let? totals :=
    map_err (λ status, "xray get_user_traffic_totals failed for membership_key=" +:+ mqs_membership_key snapshot +:+ ": " +:+ status)
      (get_user_traffic_totals (membership_xray_email (mqs_user_id snapshot) (mqs_endpoint_id snapshot))) in
  let '(uplink_total, downlink_total) := totals in
  let '(usage, taken) :=
    apply_membership_usage_sample usage (mqs_membership_key snapshot)
      (mkUsageSample cycle_start_at cycle_end_at uplink_total downlink_total (to_rfc3339 0 now)) in
  Ok (usage, mkMembershipUsageTick snapshot (us_used_bytes taken)).

(** A membership whose update fails is left out of the tick. *)
Definition collect_ticks (get_user_traffic_totals : string → result (N * N) string) (snapshots : list MembershipQuotaSnapshot)
    (usage : PersistedUsage) : PersistedUsage * list MembershipUsageTick :=
  foldl (λ '(usage, ticks) snapshot,
    match update_membership_usage_once get_user_traffic_totals snapshot usage with
    | Ok (usage, tick) => (usage, ticks ++ [tick])
    | Err _ => (usage, ticks)
    end) (usage, []) snapshots.

Definition first_tick (by_user : gmap string (list MembershipUsageTick)) : option MembershipUsageTick :=
  head (bt_values by_user) ≫= head.

(** The tier and the weight of the users of the tick. *)
Definition policy_of {A} (f : string → A) (by_user : gmap string (list MembershipUsageTick)) : gmap string A :=
  foldl (λ m u, if bool_decide (u = PROBE_USER_ID) then m else <[u := f u]> m) ∅ (bt_keys by_user).

Definition clamp_today (cycle_days : Z) (index : Z) : Z :=
  let today := Z.max index 0 in if (cycle_days <=? today)%Z then (cycle_days - 1)%Z else today.

Definition enforce_shared_node_quota_node (st : PersistedState) (quota_auto_unban : bool) (node_id : string)
    (by_user : gmap string (list MembershipUsageTick)) (usage : PersistedUsage)
    : result (PersistedUsage * list (string * string) * bool) string :=
  match first_tick by_user with
  | None => Ok (usage, [], false)
  | Some first =>
      let s := mt_snapshot first in
      let limit := mqs_node_quota_limit_bytes s in
      let q start finish days today :=
        mkQuotaTick node_id start finish days today (to_rfc3339 0 now) quota_auto_unban limit by_user
          (policy_of (λ u, default UserPriorityTier_default (u_priority_tier <$> ps_users st !! u)) by_user)
          (policy_of (λ u, resolve_user_node_weight st u node_id) by_user) in
      if bool_decide (mqs_quota_reset_policy s = PolicyUnlimited) || (limit =? 0)
      then let '(usage, changed) := clear_enforcement (q EmptyString EmptyString 0 0%Z) usage in Ok (usage, [], changed)
      else
        let shared e := "node_id=" +:+ node_id +:+ " cycle window error: " +:+ map_cycle_error "shared" e in
        let? window := map_err shared (current_cycle_window_at machine (mqs_cycle_tz s) (Z.of_N (mqs_cycle_day_of_month s)) now) in
        let '(start, finish) := window in
        let? zone := map_err shared (cycle_zone machine (mqs_cycle_tz s)) in
        let cycle_days := (local_date zone finish - local_date zone start)%Z in
        if (cycle_days <=? 0)%Z then Err ("node_id=" +:+ node_id +:+ " invalid cycle_days: " +:+ pretty cycle_days)
        else
          let today_index := clamp_today cycle_days (local_date zone now - local_date zone start) in
          Ok (enforce_usage (q (to_rfc3339 (tz_offset zone start) start) (to_rfc3339 (tz_offset zone finish) finish)
                               (Z.to_N cycle_days) today_index) usage)
  end.

(** What a tick does to the ledger.  [None] stands for the proxy being out of reach. *)
Definition run_quota_tick (st : PersistedState) (quota_auto_unban : bool) (local_node_id : string)
    (client : option (string → result (N * N) string)) (usage : PersistedUsage) : PersistedUsage * list (string * string) * bool :=
  let snapshots := quota_snapshots st local_node_id in
  match client with
  | Some get_user_traffic_totals =>
      let '(usage, ticks) := collect_ticks get_user_traffic_totals snapshots usage in
      let by_user := group_by_user ticks in
      match first_tick by_user with
      | None => (usage, [], false)
      | Some first =>
          match enforce_shared_node_quota_node st quota_auto_unban (mqs_node_id (mt_snapshot first)) by_user usage with
          | Ok done => done
          | Err _ => (usage, [], false)
          end
      end
  | None => (usage, [], false)
  end.
End Engine.
