(* ===== verification/QuotaBudget.v ===== *)
(** * What the quota engine guarantees

    Theorems on the ticks of [QuotaEngine]: the banks after a tick, who is cut off, and the
    bound on the traffic of a cycle. *)

From S2P Require Import Prelude Text Search Domain QuotaPolicy Clock Cycle ReverseMesh State Usage QuotaEngine.
Open Scope string_scope.
Open Scope list_scope.
Open Scope N_scope.

(** ** Users of a tick *)

Lemma enabled_users_NoDup q : NoDup (enabled_users q).
Proof. apply str_sorted_NoDup, dedup_sorted, StronglySorted_merge_sort; apply _. Qed.

Lemma elem_of_enabled_users q u : u ∈ enabled_users q ↔ u ≠ PROBE_USER_ID ∧ is_Some (qt_by_user q !! u).
Proof. unfold enabled_users. by rewrite elem_of_dedup, merge_sort_Permutation, list_elem_of_filter, elem_of_bt_keys. Qed.

Lemma items_of_ids q keep : (items_of q keep).*1 = filter (λ u, keep (tier_of q u) = true) (enabled_users q).
Proof. unfold items_of. rewrite <-list_fmap_compose. apply list_fmap_id. Qed.

(** What a tick is given: machine integers, a position in the cycle, and membership keys
    that belong to one user each. *)
Record tick_ok (q : QuotaTick) : Prop := {
  to_limit : qt_limit_bytes q ≤ u64_max;
  to_weights : ∀ u, weight_of q u ≤ u16_max;
  to_users : N.of_nat (length (enabled_users q)) ≤ u32_max;
  to_days : qt_cycle_days q ≠ 0;
  to_today : (0 ≤ qt_today_index q < Z.of_N (qt_cycle_days q))%Z;
  to_keys : ∀ u v g h s t, u ≠ v → qt_by_user q !! u = Some g → qt_by_user q !! v = Some h → s ∈ g → t ∈ h →
    mqs_membership_key (mt_snapshot s) ≠ mqs_membership_key (mt_snapshot t);
}.

Lemma items_alloc_pre q keep total : tick_ok q → total ≤ u64_max → alloc_pre total (items_of q keep).
Proof.
  intros Hok Ht. split; [done| |].
  - unfold items_of. apply Forall_fmap, Forall_forall. intros u _. apply (to_weights q Hok).
  - etrans; [|apply (to_users q Hok)]. unfold items_of. rewrite length_fmap.
    pose proof (length_filter (λ u, keep (tier_of q u) = true) (enabled_users q)). lia.
Qed.

(** ** Shares *)

Lemma foldl_insert_values {V} (d : V) (l : list (string * V)) (m : gmap string V) :
  NoDup l.*1 →
  (∀ k, k ∉ l.*1 → foldl (λ m '(k, v), <[k := v]> m) m l !! k = m !! k) ∧
  (λ k, default d (foldl (λ m '(k, v), <[k := v]> m) m l !! k)) <$> l.*1 = l.*2.
Proof.
  revert m; induction l as [|[k v] l IH]; intros m; csimpl; [done|]. intros [Hk Hnd]%NoDup_cons.
  destruct (IH (<[k := v]> m) Hnd) as [H1 H2]. split.
  - intros k' Hk'. rewrite H1 by set_solver. apply lookup_insert_ne. set_solver.
  - f_equal; [by rewrite H1, lookup_insert_eq|done].
Qed.

Lemma distributable_le limit : distributable_bytes limit ≤ limit.
Proof. unfold distributable_bytes, sat_sub. case_decide; lia. Qed.

Definition paced (q : QuotaTick) (u : string) : bool := match tier_of q u with P3 => false | _ => true end.

Definition paced_users (q : QuotaTick) : list string := filter (λ u, paced q u = true) (enabled_users q).

Lemma paced_users_items q : (p1p2_items q).*1 = paced_users q.
Proof. unfold p1p2_items. rewrite items_of_ids. apply list_filter_iff. intros u. unfold paced. by destruct (tier_of q u). Qed.

Lemma base_alloc q :
  tick_ok q → let shares := allocate_total_by_weight (distributable_bytes (qt_limit_bytes q)) (p1p2_items q) in
  shares.*1 = paced_users q ∧ NoDup shares.*1 ∧ sumN shares.*2 ≤ distributable_bytes (qt_limit_bytes q).
Proof.
  intros Hok shares. pose proof (distributable_le (qt_limit_bytes q)) as Hd. pose proof (to_limit q Hok) as Hl.
  assert (shares.*1 = paced_users q ∧ sumN shares.*2 ≤ distributable_bytes (qt_limit_bytes q)) as [Hids Hsum].
  { rewrite <-paced_users_items. unfold shares. destruct (decide (p1p2_items q = [])) as [->|Hne].
    { unfold allocate_total_by_weight. rewrite decide_True by done. split; [done|apply N.le_0_l]. }
    assert (alloc_pre (distributable_bytes (qt_limit_bytes q)) (p1p2_items q)) as Hpre by (apply items_alloc_pre; [done|lia]).
    rewrite (allocate_ids _ _ Hpre Hne), (allocate_sum _ _ Hpre Hne). split; [done|lia]. }
  split_and!; [done| |done]. rewrite Hids. apply NoDup_filter, enabled_users_NoDup.
Qed.

Lemma base_sum q : tick_ok q → sumN (base_of q <$> paced_users q) ≤ distributable_bytes (qt_limit_bytes q).
Proof.
  intros Hok. destruct (base_alloc q Hok) as (Hids & Hnd & Hsum). unfold base_of, base_by_user. rewrite <-Hids.
  by rewrite (proj2 (foldl_insert_values 0 _ ∅ Hnd)).
Qed.

Lemma base_le q u : tick_ok q → base_of q u ≤ u64_max.
Proof.
  intros Hok. destruct (decide (u ∈ paced_users q)) as [Hu|Hu].
  - pose proof (base_sum q Hok). pose proof (distributable_le (qt_limit_bytes q)). pose proof (to_limit q Hok).
    pose proof (sumN_elem_le _ _ (list_elem_of_fmap_2 (base_of q) _ _ Hu)). lia.
  - destruct (base_alloc q Hok) as (Hids & Hnd & _). unfold base_of, base_by_user. rewrite <-Hids in Hu.
    rewrite (proj1 (foldl_insert_values 0 _ ∅ Hnd) u Hu), lookup_empty. cbn. lia.
Qed.

(** ** The banks *)

Definition bank (q : QuotaTick) (usage : PersistedUsage) (u : string) : N := unp_bank_bytes (pacing q usage u).
Definition banks (q : QuotaTick) (usage : PersistedUsage) : N := sumN (bank q usage <$> enabled_users q).

Lemma pacing_update q f v usage u :
  pacing q (update_pacing q f v usage) u = if decide (u = v) then f (pacing q usage u) else pacing q usage u.
Proof.
  unfold pacing, update_pacing, entry_update, update_field. cbn. case_decide as Huv.
  - subst. rewrite lookup_insert_eq. cbn. rewrite lookup_insert_eq. cbn. f_equal. by destruct (pu_user_node_pacing usage !! v).
  - by rewrite lookup_insert_ne by done.
Qed.

Lemma sumN_replace (f g : string → N) v l :
  NoDup l → v ∈ l → (∀ u, u ≠ v → g u = f u) → sumN (g <$> l) + f v = sumN (f <$> l) + g v.
Proof.
  intros Hnd Hv Hfg. induction Hnd as [|x l Hx Hnd IH]; [by apply elem_of_nil in Hv|]. csimpl.
  apply elem_of_cons in Hv as [->|Hv].
  - assert (g <$> l = f <$> l) as ->; [|lia]. apply list_fmap_ext. intros i y Hy%list_elem_of_lookup_2. apply Hfg. set_solver.
  - rewrite (Hfg x) by set_solver. specialize (IH Hv). lia.
Qed.

Lemma banks_update q f v usage :
  v ∈ enabled_users q → banks q (update_pacing q f v usage) + bank q usage v = banks q usage + unp_bank_bytes (f (pacing q usage v)).
Proof.
  intros Hv. unfold banks.
  rewrite (sumN_replace (bank q usage) (bank q (update_pacing q f v usage)) v); [|apply enabled_users_NoDup|done|].
  - unfold bank. by rewrite pacing_update, decide_True.
  - intros u Hu. unfold bank. by rewrite pacing_update, decide_False.
Qed.

(** Only the banks and policy marks of the node's users differ. *)
Record same_rest (q : QuotaTick) (usage usage' : PersistedUsage) : Prop := {
  sr_memberships : pu_memberships usage' = pu_memberships usage;
  sr_node_pacing : pu_node_pacing usage' = pu_node_pacing usage;
  sr_total : ∀ u, unp_last_total_used_bytes (pacing q usage' u) = unp_last_total_used_bytes (pacing q usage u);
}.

#[global] Instance same_rest_preorder q : PreOrder (same_rest q).
Proof.
  split; [done|]. intros u1 u2 u3 [H1 H2 H3] [K1 K2 K3]. split; [congruence..|]. intros u. by rewrite K3.
Qed.

Lemma update_same_rest q f v usage :
  (∀ e, unp_last_total_used_bytes (f e) = unp_last_total_used_bytes e) → same_rest q usage (update_pacing q f v usage).
Proof. intros Hf. split; [done..|]. intros u. rewrite pacing_update. case_decide; [apply Hf|done]. Qed.

Lemma foldl_same_rest {A B} q (proj : A → PersistedUsage) (f : A → B → A) l a :
  (∀ a x, same_rest q (proj a) (proj (f a x))) → same_rest q (proj a) (proj (foldl f a l)).
Proof. intros Hf. apply (foldl_inv (λ b, same_rest q (proj a) (proj b))); [done|]. intros b x _ Hb. by rewrite Hb. Qed.

(** A pass that updates the entry of one user after another. *)
Lemma foldl_pacing {A} q (proj : A → PersistedUsage) (F : string → UserNodePacing → UserNodePacing) (f : A → string → A) l a u :
  (∀ a v u, pacing q (proj (f a v)) u = if decide (u = v) then F v (pacing q (proj a) v) else pacing q (proj a) u) →
  NoDup l → pacing q (proj (foldl f a l)) u = if decide (u ∈ l) then F u (pacing q (proj a) u) else pacing q (proj a) u.
Proof.
  intros Hf Hnd. revert a; induction Hnd as [|v l Hv Hnd IH]; intros a; cbn [foldl].
  { by rewrite decide_False by apply not_elem_of_nil. }
  rewrite IH, Hf. destruct (decide (u = v)) as [->|Huv]; [by rewrite decide_False, decide_True by set_solver|].
  by rewrite (decide_ext (u ∈ l) (u ∈ v :: l)) by set_solver.
Qed.

(** ** A day *)

Section Day.
Context (q : QuotaTick) (Hok : tick_ok q) (day : N).

Definition cap_of (d : N) (u : string) : N := cap_bytes_for_day (base_of q u) (qt_cycle_days q) d (carry_of (tier_of q u)).
Definition credit_of (d : N) (u : string) : N := if paced q u then daily_credit_bytes (base_of q u) (qt_cycle_days q) d else 0.
Definition refilled (d : N) (u : string) (b : N) : N := refill (base_of q u) (qt_cycle_days q) (carry_of (tier_of q u)) b d.

Lemma cap_of_le d u : cap_of d u ≤ u64_max.
Proof using Hok. apply cap_le_max, base_le, Hok. Qed.

Lemma rollover_refilled d u b :
  ∃ overflow, apply_daily_rollover b (base_of q u) (qt_cycle_days q) d (carry_of (tier_of q u)) = (refilled d u b, overflow) ∧
    refilled d u b + overflow ≤ b + daily_credit_bytes (base_of q u) (qt_cycle_days q) d.
Proof using Type.
  unfold apply_daily_rollover, refilled, refill.
  generalize (cap_bytes_for_day (base_of q u) (qt_cycle_days q) d (carry_of (tier_of q u))).
  generalize (daily_credit_bytes (base_of q u) (qt_cycle_days q) d). intros credit cap.
  destruct (N.ltb_spec cap (sat_add u64_max b credit)).
  - exists (sat_add u64_max b credit - cap). rewrite N.min_r by lia. split; [done|unfold sat_add in *; lia].
  - exists 0. rewrite N.min_l by lia. split; [done|unfold sat_add in *; lia].
Qed.

(** Phase one: the day's credits. *)
Definition roll_entry (u : string) (e : UserNodePacing) : UserNodePacing :=
  match tier_of q u with
  | P3 => e <| unp_bank_bytes := 0 |> <| unp_last_base_quota_bytes := 0 |> <| unp_last_priority_tier := P3 |>
  | _ => e <| unp_bank_bytes := refilled day u (unp_bank_bytes e) |>
  end.

Lemma rollover_user_pacing acc v u :
  pacing q (rollover_user q day acc v).1.1 u = if decide (u = v) then roll_entry v (pacing q acc.1.1 v) else pacing q acc.1.1 u.
Proof using Type.
  destruct acc as [[usage p1] p3]. unfold rollover_user, roll_entry. cbn [fst].
  destruct (rollover_refilled day v (unp_bank_bytes (pacing q usage v))) as (o & Ho & _).
  destruct (tier_of q v) eqn:Ht; rewrite ?Ho; cbn [fst]; rewrite pacing_update; by destruct (decide (u = v)) as [->|].
Qed.

Definition pooled (acc : PersistedUsage * N * N) : N := banks q acc.1.1 + acc.1.2 + acc.2.

Lemma rollover_user_pooled acc v : v ∈ enabled_users q → pooled (rollover_user q day acc v) ≤ pooled acc + credit_of day v.
Proof using Type.
  intros Hv. destruct acc as [[usage p1] p3]. unfold pooled, rollover_user, credit_of, paced. cbn [fst snd].
  destruct (rollover_refilled day v (unp_bank_bytes (pacing q usage v))) as (o & Ho & Hle).
  destruct (tier_of q v) eqn:Ht; rewrite ?Ho; cbn [fst snd];
    match goal with |- context [update_pacing q ?f v usage] => pose proof (banks_update q f v usage Hv) as Hb end;
    unfold bank in *; cbn in Hb; int_lia.
Qed.

Lemma rollover_user_rest acc v : same_rest q acc.1.1 (rollover_user q day acc v).1.1.
Proof using Type.
  destruct acc as [[usage p1] p3]. unfold rollover_user. cbn [fst].
  destruct (apply_daily_rollover _ _ _ _ _). destruct (tier_of q v); by apply update_same_rest.
Qed.

Definition credit_phase (usage : PersistedUsage) : PersistedUsage * N * N := foldl (rollover_user q day) (usage, 0, 0) (enabled_users q).

Lemma credit_phase_ok usage :
  same_rest q usage (credit_phase usage).1.1 ∧
  (∀ u, u ∈ enabled_users q → pacing q (credit_phase usage).1.1 u = roll_entry u (pacing q usage u)) ∧
  pooled (credit_phase usage) ≤ banks q usage + sumN (credit_of day <$> enabled_users q).
Proof using Type.
  split_and!.
  - apply (foldl_same_rest q (λ acc, acc.1.1) _ _ (usage, 0, 0)). apply rollover_user_rest.
  - intros u Hu. unfold credit_phase.
    rewrite (foldl_pacing q (λ acc, acc.1.1) roll_entry); [by rewrite decide_True|apply rollover_user_pacing|apply enabled_users_NoDup].
  - destruct (foldl_measure (λ _, True) pooled (credit_of day) (rollover_user q day) (enabled_users q) (usage, 0, 0)) as [_ H]; [done| |].
    + intros acc u Hu _. split; [done|by apply rollover_user_pooled].
    + etrans; [exact H|]. unfold pooled. cbn [fst snd]. lia.
Qed.

(** The state a day leaves: banks of paced users between their refill and the cap, the
    others marked. *)
Definition day_done (usage usage' : PersistedUsage) : Prop :=
  ∀ u, u ∈ enabled_users q →
    if paced q u then refilled day u (bank q usage u) ≤ bank q usage' u ≤ cap_of day u
    else unp_last_priority_tier (pacing q usage' u) = P3.

Lemma refilled_le_cap u b : refilled day u b ≤ cap_of day u.
Proof using Type. apply N.le_min_r. Qed.

Lemma credit_phase_done usage : day_done usage (credit_phase usage).1.1.
Proof using Type.
  intros u Hu. destruct (credit_phase_ok usage) as (_ & H & _). unfold bank. rewrite (H u Hu). unfold roll_entry, paced.
  destruct (tier_of q u) eqn:Ht; [split; [done|apply refilled_le_cap]..|done].
Qed.

(** A share given to a user, as long as it is in the enabled list. *)
Lemma bonus_p3_banks usage u bonus :
  u ∈ enabled_users q → banks q (bonus_p3 q usage (u, bonus)) ≤ banks q usage + bonus.
Proof using Type.
  intros Hu. unfold bonus_p3. match goal with |- context [update_pacing q ?f u usage] => pose proof (banks_update q f u usage Hu) as Hb end.
  unfold bank in *. cbn in Hb. unfold sat_add in *. lia.
Qed.

Lemma bonus_p1_banks usage p3 u bonus :
  u ∈ enabled_users q → banks q (bonus_p1 q day (usage, p3) (u, bonus)).1 + (bonus_p1 q day (usage, p3) (u, bonus)).2 ≤ banks q usage + p3 + bonus.
Proof using Type.
  intros Hu. unfold bonus_p1. destruct (N.ltb_spec (cap_bytes_for_day (base_of q u) (qt_cycle_days q) day P1_CARRY_DAYS)
    (sat_add u64_max (unp_bank_bytes (pacing q usage u)) bonus)); cbn [fst snd];
  match goal with |- context [update_pacing q ?f u usage] => pose proof (banks_update q f u usage Hu) as Hb end;
  unfold bank in *; cbn in Hb; unfold sat_add in *; lia.
Qed.

Lemma items_enabled keep total item :
  tick_ok q → total ≤ u64_max → item ∈ allocate_total_by_weight total (items_of q keep) → item.1 ∈ enabled_users q ∧ keep (tier_of q item.1) = true.
Proof using Type.
  intros Hq Ht Hin. destruct (decide (items_of q keep = [])) as [Hnil|Hne].
  { rewrite Hnil in Hin. unfold allocate_total_by_weight in Hin. rewrite decide_True in Hin by done. by apply elem_of_nil in Hin. }
  apply (list_elem_of_fmap_2 fst) in Hin. rewrite allocate_ids in Hin by (try apply items_alloc_pre; done).
  rewrite items_of_ids in Hin. by apply list_elem_of_filter in Hin as [? ?].
Qed.

Lemma alloc_total_sum keep total :
  total ≤ u64_max → sumN (snd <$> allocate_total_by_weight total (items_of q keep)) ≤ total.
Proof using Hok.
  intros Ht. destruct (decide (items_of q keep = [])) as [->|Hne].
  { unfold allocate_total_by_weight. rewrite decide_True by done. apply N.le_0_l. }
  rewrite allocate_sum; [lia|by apply items_alloc_pre|done].
Qed.

Lemma credit_phase_pools usage : (credit_phase usage).1.2 ≤ u64_max ∧ (credit_phase usage).2 ≤ u64_max.
Proof using Type.
  apply (foldl_inv (λ acc, acc.1.2 ≤ u64_max ∧ acc.2 ≤ u64_max)); [split; apply N.le_0_l|].
  intros [[usage' p1] p3] u _ [H1 H2]. unfold rollover_user. cbn [fst snd] in *.
  destruct (apply_daily_rollover _ _ _ _ _). destruct (tier_of q u); cbn [fst snd]; (split; [first [exact H1|apply N.le_min_r]|first [exact H2|apply N.le_min_r]]).
Qed.

(** Phase two: what overflowed from P2 goes to P1, up to their caps. *)
Definition p1_good (usage0 usage : PersistedUsage) (acc : PersistedUsage * N) : Prop :=
  same_rest q usage acc.1 ∧ day_done usage0 acc.1 ∧ acc.2 ≤ u64_max.

Lemma bonus_p1_good usage0 usage acc u bonus :
  tier_of q u = P1 → p1_good usage0 usage acc → p1_good usage0 usage (bonus_p1 q day acc (u, bonus)).
Proof using Hok.
  destruct acc as [usage' p3]. intros Ht (Hr & Hd & Hp). unfold bonus_p1. cbn [fst snd] in *.
  assert (cap_of day u = cap_bytes_for_day (base_of q u) (qt_cycle_days q) day P1_CARRY_DAYS) as Hcap by (unfold cap_of; by rewrite Ht).
  rewrite <-Hcap. pose proof (cap_of_le day u) as Hmax.
  destruct (N.ltb_spec (cap_of day u) (sat_add u64_max (unp_bank_bytes (pacing q usage' u)) bonus)) as [Hlt|Hge];
    (split_and!; cbn [fst snd]; [etrans; [exact Hr|by apply update_same_rest]| |first [apply N.le_min_r|exact Hp]]);
    intros v Hv; specialize (Hd v Hv); unfold bank in *; rewrite pacing_update; destruct (decide (v = u)) as [->|]; try exact Hd;
    unfold paced in *; rewrite Ht in *; cbn; unfold sat_add in *; lia.
Qed.

Lemma p1_phase usage0 usage p1 p3 :
  p1 ≤ u64_max → p3 ≤ u64_max → day_done usage0 usage →
  let r := foldl (bonus_p1 q day) (usage, p3) (allocate_total_by_weight p1 (p1_items q)) in
  p1_good usage0 usage r ∧ banks q r.1 + r.2 ≤ banks q usage + p3 + p1.
Proof using Hok.
  intros H1 H3 Hd. cbn zeta.
  destruct (foldl_measure (p1_good usage0 usage) (λ acc, banks q acc.1 + acc.2) snd (bonus_p1 q day)
    (allocate_total_by_weight p1 (p1_items q)) (usage, p3)) as [Hg Hb]; [done| |].
  - intros acc [u bonus] Hin Hg. destruct (items_enabled _ p1 _ Hok H1 Hin) as [Hu Ht]. cbn [fst] in Hu, Ht.
    split; [apply bonus_p1_good; [by destruct (tier_of q u)|done]|]. destruct acc as [usage' p3']. by apply bonus_p1_banks.
  - split; [done|]. pose proof (alloc_total_sum (λ t, match t with P1 => true | _ => false end) p1 H1). unfold p1_items in *. cbn [fst snd] in Hb. lia.
Qed.

(** Phase three: the rest goes to P3. *)
Lemma p3_phase usage0 usage p3 :
  p3 ≤ u64_max → day_done usage0 usage →
  let r := foldl (bonus_p3 q) usage (allocate_total_by_weight p3 (p3_items q)) in
  same_rest q usage r ∧ day_done usage0 r ∧ banks q r ≤ banks q usage + p3.
Proof using Hok.
  intros H3 Hd. cbn zeta.
  destruct (foldl_measure (λ r, same_rest q usage r ∧ day_done usage0 r) (banks q) snd (bonus_p3 q)
    (allocate_total_by_weight p3 (p3_items q)) usage) as [[Hg Hd'] Hb]; [done| |].
  - intros usage' [u bonus] Hin [Hr Hd']. destruct (items_enabled _ p3 _ Hok H3 Hin) as [Hu Ht]. cbn [fst] in Hu, Ht.
    split_and!; [etrans; [exact Hr|by apply update_same_rest]| |by apply bonus_p3_banks].
    intros v Hv. specialize (Hd' v Hv). unfold bonus_p3, bank in *. rewrite pacing_update. destruct (decide (v = u)) as [->|]; [|done].
    unfold paced in *. destruct (tier_of q u); [discriminate Ht..|exact Hd'].
  - split_and!; [done..|]. pose proof (alloc_total_sum (λ t, match t with P3 => true | _ => false end) p3 H3). unfold p3_items in *. lia.
Qed.
End Day.

Lemma rollover_day_ok q usage d :
  tick_ok q → let usage' := rollover_day q usage d in let day := Z.to_N d in
  same_rest q usage usage' ∧ day_done q day usage usage' ∧ banks q usage' ≤ banks q usage + sumN (credit_of q day <$> enabled_users q).
Proof.
  intros Hok. cbn zeta. unfold rollover_day. set (day := Z.to_N d). fold (credit_phase q day usage).
  destruct (credit_phase_ok q day usage) as (Hr & _ & Hb). pose proof (credit_phase_done q day usage) as Hd.
  destruct (credit_phase_pools q day usage) as [Hp1 Hp3]. unfold pooled in Hb.
  destruct (credit_phase q day usage) as [[usage1 p1] p3]. cbn [fst snd] in *.
  match goal with |- context [let '(usage, p3_pool) := ?e in _] => set (second := e) end.
  assert (p1_good q day usage usage1 second ∧ banks q second.1 + second.2 ≤ banks q usage1 + p3 + p1) as [(Hr2 & Hd2 & Hp2) Hb2].
  { unfold second. destruct (N.ltb_spec 0 p1); [|split; [by split_and!|cbn [fst snd]; lia]].
    case_bool_decide; [|by apply p1_phase]. split; [split_and!; [done|done|apply N.le_min_r]|cbn [fst snd]; unfold sat_add; lia]. }
  destruct second as [usage2 p3']. cbn [fst snd] in *. destruct ((0 <? p3') && _).
  - destruct (p3_phase q Hok day usage usage2 p3' Hp2 Hd2) as (Hr3 & Hd3 & Hb3). split_and!; [by rewrite Hr, Hr2|done|lia].
  - split_and!; [by rewrite Hr|done|lia].
Qed.

(** ** Policy marks *)

(** The entry a reconciliation leaves and whether it forces a ban. *)
Definition reconciled (q : QuotaTick) (do_cap_reconcile : bool) (u : string) (e : UserNodePacing) : UserNodePacing * bool :=
  match tier_of q u with
  | P3 =>
      let b := if bool_decide (unp_last_priority_tier e = P3) then unp_bank_bytes e else 0 in
      (e <| unp_bank_bytes := b |> <| unp_last_base_quota_bytes := 0 |> <| unp_last_priority_tier := P3 |>, b =? 0)
  | tier =>
      let cap_new := cap_of q (today q) u in
      let cap_old := cap_bytes_for_day (unp_last_base_quota_bytes e) (qt_cycle_days q) (today q) (carry_of (unp_last_priority_tier e)) in
      let '(b, forced) :=
        if do_cap_reconcile then
          if cap_old <=? cap_new then (sat_add u64_max (unp_bank_bytes e) (cap_new - cap_old), false)
          else if unp_bank_bytes e <? cap_old - cap_new then (0, true) else (sat_sub (unp_bank_bytes e) (cap_old - cap_new), false)
        else (unp_bank_bytes e, false) in
      (e <| unp_bank_bytes := N.min cap_new b |> <| unp_last_base_quota_bytes := base_of q u |> <| unp_last_priority_tier := tier |>, forced)
  end.

Lemma reconcile_user_eq q c usage force v :
  reconcile_user q c (usage, force) v =
  (update_pacing q (λ e, e <| unp_bank_bytes := unp_bank_bytes (reconciled q c v (pacing q usage v)).1 |>
     <| unp_last_base_quota_bytes := if paced q v then base_of q v else 0 |> <| unp_last_priority_tier := tier_of q v |>) v usage,
   if (reconciled q c v (pacing q usage v)).2 then {[v]} ∪ force else force).
Proof.
  assert (∀ cap b : N, (if cap <? b then cap else b) = N.min cap b) as Hmin by (intros cap b; destruct (N.ltb_spec cap b); lia).
  unfold reconcile_user, reconciled, paced, cap_of. destruct (tier_of q v) eqn:Ht; cbn [fst snd]; [| |done].
  all: destruct c; [|cbn; by rewrite Hmin]; destruct (_ <=? _); [cbn; by rewrite Hmin|]; destruct (_ <? _); cbn; by rewrite Hmin.
Qed.

Lemma reconciled_shape q c u e :
  (reconciled q c u e).1 = e <| unp_bank_bytes := unp_bank_bytes (reconciled q c u e).1 |>
     <| unp_last_base_quota_bytes := if paced q u then base_of q u else 0 |> <| unp_last_priority_tier := tier_of q u |>.
Proof. unfold reconciled, paced. destruct (tier_of q u); [destruct (if c then _ else _)..|]; reflexivity. Qed.

Lemma reconcile_fold q c l usage force :
  NoDup l → let r := foldl (reconcile_user q c) (usage, force) l in
  same_rest q usage r.1 ∧
  (∀ u, pacing q r.1 u = if decide (u ∈ l) then (reconciled q c u (pacing q usage u)).1 else pacing q usage u) ∧
  (∀ u, u ∈ r.2 ↔ u ∈ force ∨ (u ∈ l ∧ (reconciled q c u (pacing q usage u)).2 = true)).
Proof.
  intros Hnd. revert usage force; induction Hnd as [|v l Hv Hnd IH]; intros usage force; cbn [foldl].
  { split_and!; [done|intros u; by rewrite decide_False by apply not_elem_of_nil|set_solver]. }
  rewrite reconcile_user_eq.
  match goal with |- context [foldl _ (update_pacing q ?f v usage, ?force1) l] =>
    destruct (IH (update_pacing q f v usage) force1) as (Hr & Hp & Hf); pose proof (λ u, pacing_update q f v usage u) as Hu end.
  cbn zeta. split_and!.
  - etrans; [|exact Hr]. by apply update_same_rest.
  - intros u. rewrite Hp. destruct (decide (u = v)) as [->|Huv].
    + rewrite decide_False, decide_True by set_solver. rewrite Hu, decide_True by done. by rewrite <-reconciled_shape.
    + rewrite (decide_ext (u ∈ l) (u ∈ v :: l)) by set_solver. specialize (Hu u). rewrite decide_False in Hu by done. by rewrite Hu.
  - intros u. rewrite Hf. destruct (decide (u = v)) as [->|Huv].
    + destruct (reconciled q c v (pacing q usage v)).2; set_solver.
    + specialize (Hu u). rewrite decide_False in Hu by done. rewrite Hu.
      destruct (reconciled q c v (pacing q usage v)).2; set_solver.
Qed.

(** ** Spending *)

Lemma decide_cons {A} (k v : string) (l : list string) (a b : A) :
  (if decide (k ∈ l) then a else if decide (k = v) then a else b) = if decide (k ∈ v :: l) then a else b.
Proof.
  destruct (decide (k ∈ v :: l)) as [H|[H1 H2]%not_elem_of_cons]; [|by rewrite !decide_False].
  apply elem_of_cons in H as [H|H]; [rewrite (decide_True _ _ H); by case_decide|by rewrite decide_True].
Qed.

Section Consume.
Context (q : QuotaTick) (did : bool) (force : gset string) (pre : gmap string N) (initial : Z).

Definition delta_at (usage : PersistedUsage) (u : string) : N :=
  sat_sub (total_used_by_user q u) (unp_last_total_used_bytes (pacing q usage u)).
Definition outcome_at (usage : PersistedUsage) (u : string) : spending :=
  spend q did (bool_decide (u ∈ force)) (default 0 (pre !! u)) initial u (pacing q usage u) (delta_at usage u).
Definition left_in (o : spending) : N := match o with Banned => 0 | Consumed b => b end.

Definition flag (usage : PersistedUsage) (key : string) : bool :=
  match pu_memberships usage !! key with Some m => mu_quota_banned m | None => false end.
Definition flag_after (o : spending) (before : bool) : bool :=
  match o with Banned => true | Consumed b => if qt_auto_unban q && (0 <? b) then false else before end.

Definition removals (g : list MembershipUsageTick) : list (string * string) :=
  omap (λ t, (λ tag, (tag, membership_xray_email (mqs_user_id (mt_snapshot t)) (mqs_endpoint_id (mt_snapshot t)))) <$> mqs_endpoint_tag (mt_snapshot t)) g.

Lemma unban_ticks_ok g usage changed :
  let r := unban_ticks g (usage, changed) in
  pu_user_node_pacing r.1 = pu_user_node_pacing usage ∧ pu_node_pacing r.1 = pu_node_pacing usage ∧
  ∀ k, flag r.1 k = if decide (k ∈ (λ t, mqs_membership_key (mt_snapshot t)) <$> g) then false else flag usage k.
Proof.
  revert usage changed; induction g as [|t g IH]; intros usage changed; cbn [unban_ticks foldl].
  { split_and!; [done..|]. intros k. by rewrite decide_False by apply not_elem_of_nil. }
  cbn zeta. match goal with |- context [foldl ?f ?a g] => set (step := a) end.
  assert (pu_user_node_pacing step.1 = pu_user_node_pacing usage ∧ pu_node_pacing step.1 = pu_node_pacing usage ∧
          ∀ k, flag step.1 k = if decide (k = mqs_membership_key (mt_snapshot t)) then false else flag usage k) as (S1 & S2 & S3).
  { unfold step. destruct (pu_memberships usage !! _) as [m|] eqn:Hm.
    - destruct (mu_quota_banned m) eqn:Hb.
      + split_and!; [done..|]. intros k. unfold flag. cbn. case_decide as Hk; [by rewrite Hk, lookup_insert_eq|].
        by rewrite lookup_insert_ne.
      + split_and!; [done..|]. intros k. case_decide as Hk; [|done]. unfold flag. cbn. by rewrite Hk, Hm.
    - split_and!; [done..|]. intros k. case_decide as Hk; [|done]. unfold flag. cbn. by rewrite Hk, Hm. }
  destruct step as [usage' changed']. destruct (IH usage' changed') as (I1 & I2 & I3). unfold unban_ticks in I1, I2, I3. cbn [fst] in *.
  split_and!; [congruence..|]. intros k. rewrite I3, S3, fmap_cons. apply decide_cons.
Qed.

Lemma banned_entry_banned o : mu_quota_banned (banned_entry q o) = true.
Proof.
  unfold banned_entry. destruct o as [m|]; [|done]. cbn. destruct (mu_quota_banned m) eqn:Hm; [exact Hm|done].
Qed.

Lemma ban_ticks_ok g usage ops changed :
  let r := foldl (ban_tick q) (usage, ops, changed) g in
  pu_user_node_pacing r.1.1 = pu_user_node_pacing usage ∧ pu_node_pacing r.1.1 = pu_node_pacing usage ∧
  (∀ k, flag r.1.1 k = if decide (k ∈ (λ t, mqs_membership_key (mt_snapshot t)) <$> g) then true else flag usage k) ∧
  r.1.2 = ops ++ removals g.
Proof.
  revert usage ops changed; induction g as [|t g IH]; intros usage ops changed; cbn [foldl].
  { split_and!; [done..| |by rewrite app_nil_r]. intros k. by rewrite decide_False by apply not_elem_of_nil. }
  destruct (ban_tick q (usage, ops, changed) t) as [[usage' ops'] changed'] eqn:Hs.
  destruct (IH usage' ops' changed') as (I1 & I2 & I3 & I4). cbn zeta. unfold ban_tick in Hs. injection Hs as Hu Hops _.
  assert (∀ k, flag usage' k = if decide (k = mqs_membership_key (mt_snapshot t)) then true else flag usage k) as S3.
  { intros k. subst usage'. unfold flag. cbn. case_decide as Hk; [|by rewrite lookup_insert_ne].
    rewrite Hk, lookup_insert_eq. apply banned_entry_banned. }
  split_and!; [rewrite I1; by subst|rewrite I2; by subst| |].
  - intros k. rewrite I3, S3, fmap_cons. apply decide_cons.
  - rewrite I4, <-Hops. unfold removals. csimpl. destruct (mqs_endpoint_tag _); cbn; [by rewrite <-app_assoc|done].
Qed.

#[local] Notation step := (consume_user q did force pre initial).

Lemma pacing_ext usage usage' u : pu_user_node_pacing usage' = pu_user_node_pacing usage → pacing q usage' u = pacing q usage u.
Proof. unfold pacing. by intros ->. Qed.

Definition keys_of (u : string) : list string := (λ t, mqs_membership_key (mt_snapshot t)) <$> default [] (qt_by_user q !! u).
Definition removed (usage : PersistedUsage) (u : string) : list (string * string) :=
  match outcome_at usage u with Banned => removals (default [] (qt_by_user q !! u)) | Consumed _ => [] end.
Definition spent_entry (usage : PersistedUsage) (u : string) : UserNodePacing :=
  (pacing q usage u) <| unp_bank_bytes := left_in (outcome_at usage u) |> <| unp_last_total_used_bytes := total_used_by_user q u |>.

Lemma consume_user_ok usage ops changed v :
  is_Some (qt_by_user q !! v) → let r := step (usage, ops, changed) v in
  (∀ u, pacing q r.1.1 u = if decide (u = v) then spent_entry usage v else pacing q usage u) ∧
  pu_node_pacing r.1.1 = pu_node_pacing usage ∧
  (∀ k, flag r.1.1 k = if decide (k ∈ keys_of v) then flag_after (outcome_at usage v) (flag usage k) else flag usage k) ∧
  r.1.2 = ops ++ removed usage v.
Proof.
  intros [g Hg]. cbn zeta. unfold consume_user. rewrite Hg. fold (delta_at usage v). fold (outcome_at usage v).
  unfold keys_of, removed. rewrite Hg. cbn [default]. fold (left_in (outcome_at usage v)).
  match goal with |- context [update_pacing q ?f v usage] => set (usage1 := update_pacing q f v usage) end.
  assert (∀ u, pacing q usage1 u = if decide (u = v) then spent_entry usage v else pacing q usage u) as Hp.
  { intros u. unfold usage1. rewrite pacing_update. by destruct (decide (u = v)) as [->|]. }
  destruct (outcome_at usage v) as [|b] eqn:Ho.
  - destruct (ban_ticks_ok g usage1 ops changed) as (B1 & B2 & B3 & B4). split_and!; [|done| |done].
    + intros u. by rewrite (pacing_ext _ _ _ B1), Hp.
    + intros k. rewrite B3. done.
  - unfold flag_after. destruct (qt_auto_unban q && _).
    + destruct (unban_ticks_ok g usage1 changed) as (B1 & B2 & B3). destruct (unban_ticks g (usage1, changed)) as [usage2 c2]. cbn [fst snd] in *.
      split_and!; [|done| |by rewrite app_nil_r]; [intros u; by rewrite (pacing_ext _ _ _ B1), Hp|]. intros k. by rewrite B3.
    + cbn [fst snd]. split_and!; [done..| |by rewrite app_nil_r]. intros k. by case_decide.
Qed.

Lemma keys_disjoint u v k : tick_ok q → u ≠ v → k ∈ keys_of u → k ∉ keys_of v.
Proof.
  unfold keys_of. intros Hok Huv (s & -> & Hs)%list_elem_of_fmap (t & Hk & Ht)%list_elem_of_fmap.
  destruct (qt_by_user q !! u) as [g|] eqn:Hg; [|by apply elem_of_nil in Hs].
  destruct (qt_by_user q !! v) as [h|] eqn:Hh; [|by apply elem_of_nil in Ht]. by eapply (to_keys q Hok u v).
Qed.

Lemma consume_fold l usage ops changed :
  tick_ok q → NoDup l → (∀ v, v ∈ l → is_Some (qt_by_user q !! v)) → let r := foldl step (usage, ops, changed) l in
  (∀ u, pacing q r.1.1 u = if decide (u ∈ l) then spent_entry usage u else pacing q usage u) ∧
  pu_node_pacing r.1.1 = pu_node_pacing usage ∧
  (∀ u k, u ∈ l → k ∈ keys_of u → flag r.1.1 k = flag_after (outcome_at usage u) (flag usage k)) ∧
  (∀ k, (∀ u, u ∈ l → k ∉ keys_of u) → flag r.1.1 k = flag usage k) ∧
  r.1.2 = ops ++ concat (removed usage <$> l).
Proof.
  intros Hok Hnd. revert usage ops changed; induction Hnd as [|v l Hv Hnd IH]; intros usage ops changed Hl; cbn [foldl].
  { split_and!; [|done|by intros ?? ?%elem_of_nil|done|by rewrite app_nil_r]. intros u. by rewrite decide_False by apply not_elem_of_nil. }
  destruct (consume_user_ok usage ops changed v (Hl v ltac:(by left))) as (S1 & S2 & S3 & S4).
  destruct (step (usage, ops, changed) v) as [[usage1 ops1] c1]. cbn [fst snd] in *.
  assert (∀ u, u ≠ v → pacing q usage1 u = pacing q usage u) as Hne by (intros u Hu; by rewrite S1, decide_False).
  assert (∀ u, u ≠ v → outcome_at usage1 u = outcome_at usage u) as Ho by (intros u Hu; unfold outcome_at, delta_at; by rewrite Hne).
  destruct (IH usage1 ops1 c1) as (I1 & I2 & I3 & I4 & I5); [intros w Hw; apply Hl; by right|]. cbn zeta. split_and!.
  - intros u. rewrite I1. destruct (decide (u = v)) as [->|Hu].
    + rewrite decide_False, S1, !decide_True by (done || by left). done.
    + rewrite (decide_ext (u ∈ l) (u ∈ v :: l)) by set_solver. unfold spent_entry. by rewrite Hne, Ho.
  - congruence.
  - intros u k Hu Hk. apply elem_of_cons in Hu as [->|Hu].
    + rewrite I4; [by rewrite S3, decide_True|]. intros w Hw. apply (keys_disjoint v w); [done|by intros ->|done].
    + assert (u ≠ v) as Huv by (by intros ->). rewrite (I3 u k Hu Hk), Ho, S3 by done. rewrite decide_False; [done|]. by apply (keys_disjoint u).
  - intros k Hk. rewrite I4 by (intros u Hu; apply Hk; by right). rewrite S3, decide_False; [done|]. apply Hk. by left.
  - rewrite I5, S4, fmap_cons. cbn [concat]. rewrite <-app_assoc. do 2 f_equal. f_equal.
    apply list_fmap_ext. intros i u Hu%list_elem_of_lookup_2. unfold removed. rewrite Ho; [done|by intros ->].
Qed.
End Consume.

(** ** One tick *)

Section Ticks.
Context (q : QuotaTick) (usage : PersistedUsage).

Definition entered : PersistedUsage := (enter_cycle q usage).1.1.
Definition entered_day : Z := np_last_day_index (enter_cycle q usage).1.2.
Definition rolls : bool := negb (qt_today_index q =? entered_day)%Z.
Definition rolled : PersistedUsage := foldl (rollover_day q) entered (rollover_days q entered_day).
Definition settled (u : string) : UserNodePacing * bool := reconciled q (negb rolls) u (pacing q rolled u).
Definition tick_delta (u : string) : N := sat_sub (total_used_by_user q u) (unp_last_total_used_bytes (pacing q entered u)).
Definition outcome (u : string) : spending :=
  spend q rolls (settled u).2 (bank q entered u) entered_day u (settled u).1 (tick_delta u).

Lemma entered_np :
  (enter_cycle q usage).1.2 = mkNodePacing (qt_cycle_start_at q) (qt_cycle_end_at q) entered_day ∧ (entered_day ≤ qt_today_index q)%Z.
Proof.
  unfold entered_day, enter_cycle. set (np := default _ _). destruct (_ || _) eqn:Hc.
  - destruct (if qt_auto_unban q then _ else _ : PersistedUsage * bool) as [usage' changed]. cbn [fst snd np_last_day_index].
    destruct (Z.ltb_spec (qt_today_index q) (-1)); cbn; (split; [done|lia]).
  - apply orb_false_iff in Hc as [H1%negb_false_iff%bool_decide_eq_true H2%negb_false_iff%bool_decide_eq_true]. cbn [fst snd].
    destruct np as [cs ce last]. cbn in *. subst. destruct (Z.ltb_spec (qt_today_index q) last); cbn; (split; [done|lia]).
Qed.

Lemma rolled_rest : tick_ok q → same_rest q entered rolled.
Proof.
  intros Hok. apply (foldl_inv (same_rest q entered)); [done|]. intros usage' d _ Hr. rewrite Hr. apply (rollover_day_ok q usage' d Hok).
Qed.

Lemma pre_banks_lookup u : u ∈ enabled_users q → default 0 (pre_rollover_banks q entered !! u) = bank q entered u.
Proof.
  unfold pre_rollover_banks. generalize (∅ : gmap string N). induction (enabled_users q) as [|v l IH] using rev_ind; intros m; [by intros ?%elem_of_nil|].
  rewrite foldl_snoc. intros [Hu|Hu%list_elem_of_singleton]%elem_of_app.
  - destruct (decide (u = v)) as [->|]; [by rewrite lookup_insert_eq|]. rewrite lookup_insert_ne by done. by apply IH.
  - subst. by rewrite lookup_insert_eq.
Qed.

(** What a tick does, user by user. *)
Lemma enforce_ok :
  tick_ok q → let '(usage', remove_ops, _) := enforce_usage q usage in
  (∀ u, u ∈ enabled_users q → pacing q usage' u =
     (settled u).1 <| unp_bank_bytes := left_in (outcome u) |> <| unp_last_total_used_bytes := total_used_by_user q u |>) ∧
  (∀ u k, u ∈ enabled_users q → k ∈ keys_of q u → flag usage' k = flag_after q (outcome u) (flag entered k)) ∧
  (∀ k, (∀ u, u ∈ enabled_users q → k ∉ keys_of q u) → flag usage' k = flag entered k) ∧
  remove_ops = concat ((λ u, match outcome u with Banned => removals (default [] (qt_by_user q !! u)) | Consumed _ => [] end) <$> enabled_users q) ∧
  pu_node_pacing usage' !! qt_node_id q = Some ((enter_cycle q usage).1.2 <| np_last_day_index := qt_today_index q |>).
Proof.
  intros Hok. destruct entered_np as [Hnp Hday]. pose proof (rolled_rest Hok) as Hrest.
  unfold enforce_usage. destruct (enter_cycle q usage) as [[usage0 np] changed0] eqn:Henter.
  assert (entered = usage0) as He by (unfold entered; by rewrite Henter).
  assert (np_last_day_index np = entered_day) as Hd by (unfold entered_day; by rewrite Henter). cbn [fst snd] in Hnp |- *.
  rewrite Hd. rewrite <-He. fold rolled.
  set (np' := if (entered_day <? qt_today_index q)%Z then _ else np).
  assert (np' = mkNodePacing (qt_cycle_start_at q) (qt_cycle_end_at q) (qt_today_index q)) as Hnp'.
  { unfold np'. rewrite Hnp. destruct (Z.ltb_spec entered_day (qt_today_index q)); cbn; f_equal; lia. }
  rewrite Hnp'. cbn [np_last_day_index]. fold rolls.
  destruct (reconcile_fold q (negb rolls) (enabled_users q) rolled ∅ (enabled_users_NoDup q)) as (R1 & R2 & R3).
  destruct (foldl (reconcile_user q _) _ _) as [usage2 force]. cbn [fst snd] in *.
  destruct (consume_fold q rolls force (pre_rollover_banks q entered) entered_day (enabled_users q) usage2 [] changed0 Hok
    (enabled_users_NoDup q)) as (C1 & C2 & C3 & C4 & C5); [by intros v [_ Hv]%elem_of_enabled_users|].
  assert (∀ u, u ∈ enabled_users q → pacing q usage2 u = (settled u).1) as Hset by (intros u Hu; by rewrite R2, decide_True).
  assert (∀ u, u ∈ enabled_users q → outcome_at q rolls force (pre_rollover_banks q entered) entered_day usage2 u = outcome u) as Hout.
  { intros u Hu. unfold outcome_at, outcome, delta_at, tick_delta. rewrite (sr_total _ _ _ R1), (sr_total _ _ _ Hrest).
    rewrite Hset, pre_banks_lookup by done. f_equal.
    destruct (settled u).2 eqn:Hb; [apply bool_decide_eq_true|apply bool_decide_eq_false]; rewrite R3; fold (settled u); rewrite Hb; set_solver. }
  assert (∀ k, flag usage2 k = flag entered k) as Hflag
    by (intros k; unfold flag; by rewrite (sr_memberships _ _ _ R1), (sr_memberships _ _ _ Hrest)).
  destruct (foldl (consume_user q _ _ _ _) _ _) as [[usage3 ops] changed3]. cbn [fst snd] in *. split_and!.
  - intros u Hu. change (pacing q usage3 u = (settled u).1 <| unp_bank_bytes := left_in (outcome u) |> <| unp_last_total_used_bytes := total_used_by_user q u |>).
    rewrite C1, decide_True by done. unfold spent_entry. by rewrite Hset, Hout.
  - intros u k Hu Hk. change (flag usage3 k = flag_after q (outcome u) (flag entered k)). by rewrite (C3 u k Hu Hk), Hout, Hflag.
  - intros k Hk. change (flag usage3 k = flag entered k). by rewrite (C4 k Hk).
  - rewrite C5. cbn [app]. f_equal. apply list_fmap_ext. intros i u Hu%list_elem_of_lookup_2. unfold removed. by rewrite Hout.
  - cbn. rewrite lookup_insert_eq, Hnp. done.
Qed.

(** *** Banks after a tick *)

Lemma reconciled_bank c u e :
  paced q u = true → unp_bank_bytes (reconciled q c u e).1 ≤ cap_of q (today q) u.
Proof.
  unfold reconciled, paced. intros Hp. destruct (tier_of q u); [| |discriminate Hp]; destruct (if c then _ else _); apply N.le_min_l.
Qed.

Lemma replay_bank_le b spend base days from to carry :
  days ≠ 0 → carry ≠ 0 → from ≤ to → (replay_rollovers_and_spend b spend base days from to carry).1 ≤ cap_bytes_for_day base days to carry.
Proof.
  intros Hd Hc Hle. unfold replay_rollovers_and_spend. rewrite decide_False by lia.
  assert (range_incl from to = range_incl from (to - 1) ++ [to] ∨ range_incl from to = [to]) as Hr.
  { destruct (decide (to = 0)) as [->|Hto]; [right; by replace from with 0 by lia|]. left.
    replace to with (to - 1 + 1) at 1 3 by lia. apply range_incl_snoc. lia. }
  assert (∀ st, (replay_day base days carry st to).1 ≤ cap_bytes_for_day base days to carry) as Hday.
  { intros [bank' remaining]. rewrite replay_day_eq. cbn [fst]. unfold refill. lia. }
  destruct Hr as [-> | ->]; [rewrite foldl_app|]; apply Hday.
Qed.

Lemma outcome_bank u :
  tick_ok q → paced q u = true → left_in (outcome u) ≤ cap_of q (today q) u.
Proof.
  intros Hok Hp. pose proof (reconciled_bank (negb rolls) u (pacing q rolled u) Hp) as Hc. fold (settled u) in Hc.
  unfold outcome, spend. destruct (_ && _) eqn:Hcond.
  - repeat (apply andb_true_iff in Hcond as [Hcond ?]).
    match goal with |- context [replay_rollovers_and_spend ?b ?d ?base ?days ?f ?t ?c] =>
      pose proof (replay_bank_le b d base days f t c) as Hr; destruct (replay_rollovers_and_spend b d base days f t c) as [b' r] end.
    cbn [fst] in Hr. destruct (r =? 0); cbn [left_in]; [|apply N.le_0_l]. apply Hr; [apply (to_days q Hok)|by apply N.ltb_lt in H0; lia|].
    destruct entered_np as [_ Hle]. pose proof (to_today q Hok). unfold rolls in *. unfold today. lia.
  - destruct (_ || _); cbn [left_in]; [apply N.le_0_l|]. unfold sat_sub. lia.
Qed.
End Ticks.

(** The ledger carries the marks of the tick: its cycle and day, and each user's policy. *)
Record marked (q : QuotaTick) (usage : PersistedUsage) : Prop := {
  mk_node : pu_node_pacing usage !! qt_node_id q = Some (mkNodePacing (qt_cycle_start_at q) (qt_cycle_end_at q) (qt_today_index q));
  mk_tier : ∀ u, u ∈ enabled_users q → unp_last_priority_tier (pacing q usage u) = tier_of q u;
  mk_base : ∀ u, u ∈ enabled_users q → unp_last_base_quota_bytes (pacing q usage u) = if paced q u then base_of q u else 0;
  mk_bank : ∀ u, u ∈ enabled_users q → paced q u = true → bank q usage u ≤ cap_of q (today q) u;
}.

Lemma enforce_marked q usage : tick_ok q → marked q (enforce_usage q usage).1.1.
Proof.
  intros Hok. pose proof (enforce_ok q usage Hok) as He. destruct (enforce_usage q usage) as [[usage' ops] changed].
  destruct He as (Hp & _ & _ & _ & Hnode). cbn [fst]. split.
  - rewrite Hnode. by rewrite (proj1 (entered_np q usage)).
  - intros u Hu. rewrite Hp by done. unfold settled. rewrite reconciled_shape. done.
  - intros u Hu. rewrite Hp by done. unfold settled. rewrite reconciled_shape. done.
  - intros u Hu Hpaced. unfold bank. rewrite Hp by done. cbn. by apply outcome_bank.
Qed.

(** ** The budget of a cycle *)

(** The traffic of the users a tick leaves unbanned. *)
Definition admitted (q : QuotaTick) (usage : PersistedUsage) (u : string) : N :=
  if forallb (λ k, negb (flag (enforce_usage q usage).1.1 k)) (keys_of q u) then tick_delta q usage u else 0.
Definition tick_traffic (q : QuotaTick) (usage : PersistedUsage) : N := sumN (admitted q usage <$> enabled_users q).
Definition credits (q : QuotaTick) (day : N) : N := sumN (credit_of q day <$> enabled_users q).

(** A tick that follows one of the same day and policy, or that opens the next day. *)
Definition ready (q : QuotaTick) (usage : PersistedUsage) : Prop :=
  entered_day q usage = (qt_today_index q - 1)%Z ∨ (entered_day q usage = qt_today_index q ∧ marked q (entered q usage)).

Lemma sumN_le {A} (f g : A → N) l : (∀ x, x ∈ l → f x ≤ g x) → sumN (f <$> l) ≤ sumN (g <$> l).
Proof.
  induction l as [|x l IH]; intros H; csimpl; [done|]. pose proof (H x ltac:(by left)).
  specialize (IH ltac:(intros y Hy; apply H; by right)). lia.
Qed.

Lemma sumN_add {A} (f g : A → N) l : sumN (f <$> l) + sumN (g <$> l) = sumN ((λ x, f x + g x) <$> l).
Proof. induction l as [|x l IH]; csimpl; lia. Qed.

Section Budget.
Context (q : QuotaTick) (usage : PersistedUsage) (Hok : tick_ok q) (Hready : ready q usage).

Lemma rolled_next :
  if rolls q usage then rolled q usage = rollover_day q (entered q usage) (qt_today_index q) else rolled q usage = entered q usage.
Proof using Hready.
  unfold rolls, rolled, rollover_days. destruct Hready as [->|[-> _]].
  - rewrite (proj2 (Z.eqb_neq _ _)) by lia. cbn [negb].
    replace (qt_today_index q - (qt_today_index q - 1))%Z with 1%Z by lia. replace (qt_today_index q - 1 + 1)%Z with (qt_today_index q) by lia. done.
  - by rewrite Z.eqb_refl, Z.sub_diag.
Qed.

Definition settled_bank (u : string) : N := unp_bank_bytes (settled q usage u).1.

(** A reconciliation of this tick takes nothing from a paced user. *)
Lemma settled_paced u :
  u ∈ enabled_users q → paced q u = true → settled_bank u = bank q (rolled q usage) u ∧ bank q (rolled q usage) u ≤ cap_of q (today q) u.
Proof using Hok Hready.
  intros Hu Hp. pose proof rolled_next as Hn. unfold settled_bank, settled, reconciled. destruct (rolls q usage) eqn:Hr; rewrite Hn.
  - destruct (rollover_day_ok q (entered q usage) (qt_today_index q) Hok) as (_ & Hd & _). specialize (Hd u Hu). rewrite Hp in Hd.
    unfold paced in Hp. destruct (tier_of q u); [| |discriminate Hp]; cbn; (split; [apply N.min_r; apply Hd|apply Hd]).
  - destruct Hready as [Hbad|[_ Hm]]; [unfold rolls in Hr; rewrite Hbad, (proj2 (Z.eqb_neq _ _)) in Hr by lia; done|].
    pose proof (mk_tier _ _ Hm u Hu) as Ht. pose proof (mk_base _ _ Hm u Hu) as Hb. pose proof (mk_bank _ _ Hm u Hu Hp) as Hbank.
    rewrite Hp in Hb. rewrite Ht, Hb. fold (cap_of q (today q) u).
    unfold paced in Hp. destruct (tier_of q u) eqn:Htier; [| |discriminate Hp]; cbn [negb]; rewrite N.leb_refl; cbn;
    (split; [rewrite N.sub_diag; unfold bank in *; pose proof (cap_of_le q Hok (today q) u); unfold sat_add; lia|done]).
Qed.

Lemma settled_le u : u ∈ enabled_users q → settled_bank u ≤ bank q (rolled q usage) u.
Proof using Hok Hready.
  intros Hu. destruct (paced q u) eqn:Hp; [by rewrite (proj1 (settled_paced u Hu Hp))|].
  unfold settled_bank, settled, reconciled, paced in *. destruct (tier_of q u); [discriminate Hp..|]. cbn. unfold bank. case_bool_decide; lia.
Qed.

(** A replay of a single day finds no bytes the bank does not have. *)
Lemma outcome_pays u b : u ∈ enabled_users q → outcome q usage u = Consumed b → b + tick_delta q usage u ≤ settled_bank u.
Proof using Hok Hready.
  intros Hu. unfold outcome, spend. fold (settled_bank u). destruct (_ && negb _) eqn:Hc.
  - repeat (apply andb_true_iff in Hc as [Hc ?]). apply N.ltb_lt in Hc.
    assert (paced q u = true) as Hp by (unfold paced; by destruct (tier_of q u)).
    destruct (settled_paced u Hu Hp) as [Hs _]. pose proof rolled_next as Hn. destruct (rolls q usage) eqn:Hr; [|done].
    destruct (rollover_day_ok q (entered q usage) (qt_today_index q) Hok) as (_ & Hd & _). specialize (Hd u Hu). rewrite Hp, <-Hn, <-Hs in Hd.
    destruct Hready as [Hday|[Hday _]]; [|unfold rolls in Hr; by rewrite Hday, Z.eqb_refl in Hr]. rewrite Hday.
    unfold replay_rollovers_and_spend. replace (Z.to_N (qt_today_index q - 1 + 1)) with (today q) by (unfold today; f_equal; lia).
    destruct (decide _) as [Hbad|_].
    { destruct (N.eqb_spec (tick_delta q usage u) 0) as [Hz|]; [|done]. intros [= <-]. lia. }
    rewrite range_incl_cons, range_incl_empty by lia. cbn [foldl]. rewrite replay_day_eq.
    unfold refilled in Hd. fold (today q) in Hd.
    match goal with |- context [refill ?b ?d ?c ?bk ?day] => set (r := refill b d c bk day) in * end.
    destruct (N.eqb_spec (tick_delta q usage u - N.min (tick_delta q usage u) r) 0); [lia|done].
  - destruct ((settled q usage u).2); cbn [orb]; [done|]. destruct (N.ltb_spec (settled_bank u) (tick_delta q usage u)); [done|].
    intros [= <-]. unfold sat_sub. lia.
Qed.

Lemma no_group_no_delta u : keys_of q u = [] → tick_delta q usage u = 0.
Proof using Type.
  unfold keys_of, tick_delta, total_used_by_user. destruct (qt_by_user q !! u) as [[|t g]|]; [|done|]; intros _; unfold sat_sub; cbn; lia.
Qed.

Lemma admitted_pays u : u ∈ enabled_users q → admitted q usage u + bank q (enforce_usage q usage).1.1 u ≤ settled_bank u.
Proof using Hok Hready.
  intros Hu. unfold admitted. pose proof (enforce_ok q usage Hok) as He. destruct (enforce_usage q usage) as [[usage' ops] changed].
  destruct He as (Hpace & Hflag & _). cbn [fst]. unfold bank at 1. rewrite Hpace by done.
  cbn [unp_bank_bytes update_field]. pose proof (outcome_pays u) as Hpay. destruct (outcome q usage u) as [|b] eqn:Ho; cbn.
  - destruct (keys_of q u) as [|k keys] eqn:Hk; [rewrite no_group_no_delta by done; destruct (forallb _ _); apply N.le_0_l|].
    cbn [forallb]. rewrite (Hflag u k Hu) by (rewrite Hk; by left). rewrite Ho. apply N.le_0_l.
  - specialize (Hpay b Hu eq_refl). destruct (forallb _ _); lia.
Qed.

Lemma tick_budget :
  tick_traffic q usage + banks q (enforce_usage q usage).1.1 ≤
  banks q (entered q usage) + if rolls q usage then credits q (today q) else 0.
Proof using Hok Hready.
  unfold tick_traffic, banks at 1. rewrite sumN_add.
  etrans; [apply (sumN_le _ settled_bank), admitted_pays|]. etrans; [apply (sumN_le _ (bank q (rolled q usage))), settled_le|].
  fold (banks q (rolled q usage)). pose proof rolled_next as Hn. destruct (rolls q usage); rewrite Hn; [|lia].
  apply (rollover_day_ok q (entered q usage) (qt_today_index q) Hok).
Qed.
End Budget.

(** *** Ticks of one cycle *)

(** What the first [n] days of a cycle release. *)
Definition released (q : QuotaTick) (n : nat) : N := sumN ((λ d, credits q (N.of_nat d)) <$> seq 0 n).

(** Two ticks of the same cycle under the same policy. *)
Record same_policy (q q' : QuotaTick) : Prop := {
  sp_node : qt_node_id q' = qt_node_id q;
  sp_start : qt_cycle_start_at q' = qt_cycle_start_at q;
  sp_end : qt_cycle_end_at q' = qt_cycle_end_at q;
  sp_days : qt_cycle_days q' = qt_cycle_days q;
  sp_limit : qt_limit_bytes q' = qt_limit_bytes q;
  sp_tier : qt_tier q' = qt_tier q;
  sp_weight : qt_weight q' = qt_weight q;
  sp_users : bt_keys (qt_by_user q') = bt_keys (qt_by_user q);
}.

Section Same.
Context (q q' : QuotaTick) (Hsame : same_policy q q').

Lemma same_enabled : enabled_users q' = enabled_users q.
Proof using Hsame. unfold enabled_users. by rewrite (sp_users _ _ Hsame). Qed.
Lemma same_tier u : tier_of q' u = tier_of q u.
Proof using Hsame. unfold tier_of. by rewrite (sp_tier _ _ Hsame). Qed.
Lemma same_paced u : paced q' u = paced q u.
Proof using Hsame. unfold paced. by rewrite same_tier. Qed.
Lemma same_pacing usage u : pacing q' usage u = pacing q usage u.
Proof using Hsame. unfold pacing. by rewrite (sp_node _ _ Hsame). Qed.
Lemma same_base u : base_of q' u = base_of q u.
Proof using Hsame.
  unfold base_of, base_by_user, p1p2_items, items_of, weight_of, tier_of.
  by rewrite same_enabled, (sp_limit _ _ Hsame), (sp_weight _ _ Hsame), (sp_tier _ _ Hsame).
Qed.
Lemma same_banks usage : banks q' usage = banks q usage.
Proof using Hsame. unfold banks, bank, pacing. by rewrite same_enabled, (sp_node _ _ Hsame). Qed.
Lemma same_cap d u : cap_of q' d u = cap_of q d u.
Proof using Hsame. unfold cap_of. by rewrite same_base, same_tier, (sp_days _ _ Hsame). Qed.
Lemma same_credits d : credits q' d = credits q d.
Proof using Hsame.
  unfold credits. rewrite same_enabled. f_equal. apply list_fmap_ext. intros i u _. unfold credit_of.
  by rewrite same_paced, same_base, (sp_days _ _ Hsame).
Qed.

Lemma same_released n : released q' n = released q n.
Proof using Hsame. unfold released. f_equal. apply list_fmap_ext. intros. apply same_credits. Qed.

(** The next tick of the cycle takes the ledger as the last one left it. *)
Lemma marked_enters usage :
  marked q usage → (qt_today_index q ≤ qt_today_index q')%Z → entered q' usage = usage ∧ entered_day q' usage = qt_today_index q.
Proof using Hsame.
  intros Hm Hle. unfold entered, entered_day, enter_cycle. rewrite (sp_node _ _ Hsame), (mk_node _ _ Hm). cbn [default].
  rewrite (sp_start _ _ Hsame), (sp_end _ _ Hsame), !bool_decide_true by done. cbn [negb orb fst snd].
  rewrite (proj2 (Z.ltb_ge _ _)) by done. done.
Qed.

Lemma marked_same usage : marked q usage → qt_today_index q' = qt_today_index q → marked q' usage.
Proof using Hsame.
  intros [M1 M2 M3 M4] Heq. split; [by rewrite (sp_node _ _ Hsame), (sp_start _ _ Hsame), (sp_end _ _ Hsame), Heq| | |];
    intros u; rewrite same_enabled; unfold bank; rewrite ?same_pacing, ?same_tier, ?same_paced, ?same_base; [apply M2|apply M3|].
  unfold today. rewrite Heq, same_cap. apply M4.
Qed.

Lemma marked_ready usage :
  marked q usage → (qt_today_index q ≤ qt_today_index q' ≤ qt_today_index q + 1)%Z → ready q' usage.
Proof using Hsame.
  intros Hm Hle. destruct (marked_enters usage Hm ltac:(lia)) as [He Hd]. unfold ready. rewrite He, Hd.
  destruct (decide (qt_today_index q' = qt_today_index q)) as [Heq|]; [right|left; lia]. split; [done|by apply marked_same].
Qed.
End Same.

Lemma sumN_swap {A B} (f : A → B → N) (l : list A) (k : list B) :
  sumN ((λ x, sumN (f x <$> k)) <$> l) = sumN ((λ y, sumN ((λ x, f x y) <$> l)) <$> k).
Proof.
  induction l as [|x l IH]; csimpl; [induction k; csimpl; lia|]. rewrite IH, sumN_add. f_equal.
Qed.

Lemma released_S q n : released q (S n) = released q n + credits q (N.of_nat n).
Proof. unfold released. rewrite seq_S, fmap_app, sumN_app. csimpl. lia. Qed.

Lemma user_released q u n : tick_ok q → (n ≤ N.to_nat (qt_cycle_days q))%nat →
  sumN ((λ d, credit_of q (N.of_nat d) u) <$> seq 0 n) ≤ if paced q u then base_of q u else 0.
Proof.
  intros Hok Hn. unfold credit_of. destruct (paced q u); [|clear Hn; generalize 0%nat; induction n as [|n IH]; intros s; csimpl; [done|apply IH]].
  pose proof (daily_credit_prefix (base_of q u) (qt_cycle_days q) n (base_le q u Hok) (to_days q Hok)) as Hp.
  change (sumN ((λ i, daily_credit_bytes (base_of q u) (qt_cycle_days q) (N.of_nat i)) <$> seq 0 n) =
    N.of_nat n * (base_of q u / qt_cycle_days q) + N.min (N.of_nat n) (base_of q u mod qt_cycle_days q)) in Hp. rewrite Hp.
  pose proof (N.div_mod' (base_of q u) (qt_cycle_days q)).
  assert (N.of_nat n * (base_of q u / qt_cycle_days q) ≤ qt_cycle_days q * (base_of q u / qt_cycle_days q)) by (apply N.mul_le_mono_r; lia). lia.
Qed.

Lemma sumN_filter (p : string → bool) (f : string → N) l :
  sumN ((λ u, if p u then f u else 0) <$> l) = sumN (f <$> filter (λ u, p u = true) l).
Proof.
  induction l as [|u l IH]; csimpl; [done|]. rewrite filter_cons. destruct (decide (p u = true)) as [Hp|Hp]; csimpl.
  - by rewrite Hp, IH.
  - destruct (p u); [done|]. by rewrite IH.
Qed.

Lemma released_le q n : tick_ok q → (n ≤ N.to_nat (qt_cycle_days q))%nat → released q n ≤ distributable_bytes (qt_limit_bytes q).
Proof.
  intros Hok Hn. unfold released, credits. rewrite sumN_swap. etrans; [|apply (base_sum q Hok)].
  unfold paced_users. rewrite <-sumN_filter. apply sumN_le. intros u _. by apply user_released.
Qed.

(** Ledger and admitted traffic of a run of ticks. *)
Definition run_ticks (qs : list QuotaTick) (usage : PersistedUsage) : PersistedUsage := foldl (λ usage q, (enforce_usage q usage).1.1) usage qs.
Fixpoint cycle_traffic (qs : list QuotaTick) (usage : PersistedUsage) : N :=
  match qs with
  | [] => 0
  | q :: qs => tick_traffic q usage + cycle_traffic qs (enforce_usage q usage).1.1
  end.

(** Each tick is of the day of the one before it or of the next day. *)
Fixpoint days_follow (day : Z) (qs : list QuotaTick) : Prop :=
  match qs with
  | [] => True
  | q :: qs => (day ≤ qt_today_index q ≤ day + 1)%Z ∧ days_follow (qt_today_index q) qs
  end.

(** The ledger holds nothing of the cycle of the tick. *)
Definition fresh_cycle (q : QuotaTick) (usage : PersistedUsage) : Prop :=
  match pu_node_pacing usage !! qt_node_id q with
  | Some np => np_cycle_start_at np ≠ qt_cycle_start_at q ∨ np_cycle_end_at np ≠ qt_cycle_end_at q
  | None => ∀ u, pu_user_node_pacing usage !! u ≫= lookup (qt_node_id q) = None
  end.

Lemma drop_node_pacing_new q usage u : pacing q (drop_node_pacing q usage) u = new_pacing.
Proof.
  unfold pacing, drop_node_pacing, update_field. cbn. rewrite map_lookup_filter, lookup_fmap.
  destruct (pu_user_node_pacing usage !! u) as [m|]; cbn; [|done]. case_guard; cbn; [|done]. by rewrite lookup_delete_eq.
Qed.

Lemma fresh_enters q usage :
  fresh_cycle q usage → (0 ≤ qt_today_index q)%Z → entered_day q usage = (-1)%Z ∧ ∀ u, pacing q (entered q usage) u = new_pacing.
Proof.
  unfold fresh_cycle, entered_day, entered, enter_cycle. intros Hf Ht. destruct (pu_node_pacing usage !! _) as [np|]; cbn [default].
  - destruct (_ || _) eqn:Hc.
    + destruct (if qt_auto_unban q then _ else _ : PersistedUsage * bool) as [usage' changed] eqn:Hu. cbn [fst snd np_last_day_index].
      rewrite (proj2 (Z.ltb_ge _ _)) by lia. split; [done|]. intros u. rewrite <-(drop_node_pacing_new q usage u). apply pacing_ext.
      destruct (qt_auto_unban q); [|by injection Hu as <- _].
      pose proof (unban_ticks_ok (all_ticks q) (drop_node_pacing q usage) false) as [Hp _]. rewrite Hu in Hp. done.
    + apply orb_false_iff in Hc as [H1%negb_false_iff%bool_decide_eq_true H2%negb_false_iff%bool_decide_eq_true]. tauto.
  - cbn [np_cycle_start_at np_cycle_end_at]. rewrite !bool_decide_true by done. cbn [negb orb fst snd np_last_day_index].
    rewrite (proj2 (Z.ltb_ge _ _)) by lia. split; [done|]. intros u. unfold pacing. by rewrite Hf.
Qed.

Lemma ticks_budget q qs usage n :
  tick_ok q → Forall tick_ok qs → Forall (same_policy q) qs → marked q usage → days_follow (qt_today_index q) qs →
  n + banks q usage ≤ released q (Z.to_nat (qt_today_index q + 1)) →
  n + cycle_traffic qs usage + banks q (run_ticks qs usage) ≤ distributable_bytes (qt_limit_bytes q).
Proof.
  revert q usage n. induction qs as [|q' qs IH]; intros q usage n Hok Hoks Hsames Hm Hdays Hn; cbn [cycle_traffic run_ticks foldl].
  { pose proof (released_le q (Z.to_nat (qt_today_index q + 1)) Hok). pose proof (to_today q Hok). lia. }
  apply Forall_cons in Hoks as [Hok' Hoks]. apply Forall_cons in Hsames as [Hsame Hsames]. destruct Hdays as [Hday Hdays].
  assert (ready q' usage) as Hready by (by apply (marked_ready q)).
  destruct (marked_enters q q' Hsame usage Hm ltac:(lia)) as [He Hd].
  pose proof (tick_budget q' usage Hok' Hready) as Hb. rewrite He, !(same_banks q q' Hsame), (same_credits q q' Hsame) in Hb.
  rewrite N.add_assoc, <-(same_banks q q' Hsame), <-(sp_limit _ _ Hsame). fold (run_ticks qs (enforce_usage q' usage).1.1).
  apply IH; [done|done| |by apply enforce_marked|done|].
  - eapply Forall_impl; [exact Hsames|]. intros q'' Hsame'. destruct Hsame, Hsame'. split; congruence.
  - rewrite (same_banks q q' Hsame), (same_released q q' Hsame). pose proof (to_today q Hok). unfold rolls in Hb. rewrite Hd in Hb.
    destruct (Z.eqb_spec (qt_today_index q') (qt_today_index q)) as [Heq|Hne]; cbn [negb] in Hb; [rewrite Heq; lia|].
    replace (Z.to_nat (qt_today_index q' + 1)) with (S (Z.to_nat (qt_today_index q + 1))) by lia. rewrite released_S.
    replace (N.of_nat (Z.to_nat (qt_today_index q + 1))) with (today q') by (unfold today; lia). lia.
Qed.

(** C10: the quota of a cycle is not overspent by a node that is watched.  From a ledger that holds
    nothing of the cycle, over any run of ticks that begins on the first day of the cycle, has
    one on every day, and finds the same limit, users, tiers and weights throughout: the traffic
    of the users the ticks left unbanned and the bytes still in the banks together stay within
    the distributable part of the node's limit, whatever the traffic and the overflow handed
    from one tier to the next. *)
Theorem cycle_budget (q : QuotaTick) (qs : list QuotaTick) (usage : PersistedUsage) :
  tick_ok q → Forall tick_ok qs → Forall (same_policy q) qs →
  fresh_cycle q usage → qt_today_index q = 0%Z → days_follow 0 qs →
  cycle_traffic (q :: qs) usage + banks q (run_ticks (q :: qs) usage) ≤ distributable_bytes (qt_limit_bytes q).
Proof.
  intros Hok Hoks Hsames Hfresh Hzero Hdays. destruct (fresh_enters q usage Hfresh ltac:(lia)) as [Hd Hp].
  assert (ready q usage) as Hready by (left; lia). cbn [cycle_traffic run_ticks foldl]. fold (run_ticks qs (enforce_usage q usage).1.1).
  apply ticks_budget; [done|done|done|by apply enforce_marked|by rewrite Hzero|].
  etrans; [apply (tick_budget q usage Hok Hready)|]. unfold rolls. rewrite Hd, Hzero. cbn [negb Z.eqb].
  change (Z.to_nat (0 + 1)) with 1%nat. rewrite released_S. unfold today. rewrite Hzero.
  change (Z.to_N 0) with 0. change (N.of_nat 0) with 0. change (released q 0) with 0.
  assert (banks q (entered q usage) = 0) as ->; [|lia]. unfold banks, bank.
  induction (enabled_users q) as [|u l IH]; csimpl; [done|]. by rewrite Hp, IH.
Qed.

(** ** Who is cut off *)

Lemma same_policy_refl q : same_policy q q.
Proof. by split. Qed.

(** The ledger's view of a user before a tick: traffic since the last tick against the bank;
    a user without a share of their own needs a positive bank. *)
Definition new_traffic (q : QuotaTick) (usage : PersistedUsage) (u : string) : N :=
  sat_sub (total_used_by_user q u) (unp_last_total_used_bytes (pacing q usage u)).
Definition within_bank (q : QuotaTick) (usage : PersistedUsage) (u : string) : bool :=
  (new_traffic q usage u <=? bank q usage u) && (paced q u || (0 <? bank q usage u)).

Lemma marked_outcome q usage u :
  tick_ok q → marked q usage → u ∈ enabled_users q →
  outcome q usage u = if within_bank q usage u then Consumed (bank q usage u - new_traffic q usage u) else Banned.
Proof.
  intros Hok Hm Hu. destruct (marked_enters q q (same_policy_refl q) usage Hm ltac:(lia)) as [He Hd].
  assert (ready q usage) as Hready by (right; rewrite He; by split).
  assert (rolls q usage = false) as Hr by (unfold rolls; by rewrite Hd, Z.eqb_refl).
  pose proof (rolled_next q usage Hready) as Hn. rewrite Hr, He in Hn.
  assert (settled_bank q usage u = bank q usage u ∧ (settled q usage u).2 = negb (paced q u) && (bank q usage u =? 0)) as [Hb Hforced].
  { destruct (paced q u) eqn:Hp.
    - destruct (settled_paced q usage Hok Hready u Hu Hp) as [Hs _]. rewrite Hn in Hs. split; [done|].
      pose proof (mk_tier _ _ Hm u Hu) as Ht. pose proof (mk_base _ _ Hm u Hu) as Hbase. rewrite Hp in Hbase.
      unfold settled, reconciled. rewrite Hn, Hr, Ht, Hbase. fold (cap_of q (today q) u). cbn [negb]. rewrite N.leb_refl.
      unfold paced in Hp. by destruct (tier_of q u).
    - pose proof (mk_tier _ _ Hm u Hu) as Ht. unfold settled_bank, settled, reconciled. rewrite Hn, Ht.
      unfold paced in Hp. destruct (tier_of q u); [discriminate Hp..|]. rewrite bool_decide_true by done. done. }
  unfold outcome, spend. fold (settled_bank q usage u). rewrite Hr, Hforced, Hb. unfold tick_delta. rewrite He.
  fold (new_traffic q usage u). rewrite andb_false_r, !andb_false_l. unfold within_bank, sat_sub.
  destruct (N.ltb_spec (bank q usage u) (new_traffic q usage u)), (N.leb_spec (new_traffic q usage u) (bank q usage u)); try lia;
    destruct (paced q u), (N.eqb_spec (bank q usage u) 0), (N.ltb_spec 0 (bank q usage u)); cbn; try done; lia.
Qed.

(** Who a tick cuts off.  On a day that has had a tick, under an unchanged policy: a user
    whose traffic since the last tick fits their bank - and whose bank is not empty, for a user
    without a share of their own - keeps access, pays exactly that traffic, and with automatic
    unbanning and bytes left loses an earlier ban; any other user ends with an empty bank and a
    ban on every membership of the node.  The users removed from the proxy are those of the
    cut-off users and nobody else's. *)
Theorem tick_cuts_off_overspenders (q : QuotaTick) (usage : PersistedUsage) :
  tick_ok q → marked q usage →
  let '(usage', remove_ops, _) := enforce_usage q usage in
  (∀ u, u ∈ enabled_users q →
    if within_bank q usage u then
      bank q usage' u = bank q usage u - new_traffic q usage u ∧
      ∀ k, k ∈ keys_of q u →
        flag usage' k = if qt_auto_unban q && (0 <? bank q usage' u) then false else flag usage k
    else bank q usage' u = 0 ∧ ∀ k, k ∈ keys_of q u → flag usage' k = true) ∧
  (∀ k, (∀ u, u ∈ enabled_users q → k ∉ keys_of q u) → flag usage' k = flag usage k) ∧
  remove_ops = concat ((λ u, if within_bank q usage u then [] else removals (default [] (qt_by_user q !! u))) <$> enabled_users q).
Proof.
  intros Hok Hm. pose proof (enforce_ok q usage Hok) as Henf. destruct (enforce_usage q usage) as [[usage' ops] changed].
  destruct Henf as (Hp & Hf & Hother & Hops & _). destruct (marked_enters q q (same_policy_refl q) usage Hm ltac:(lia)) as [He _]. rewrite He in *.
  split_and!; [|done|].
  - intros u Hu. pose proof (marked_outcome q usage u Hok Hm Hu) as Ho.
    assert (bank q usage' u = left_in (outcome q usage u)) as Hb by (unfold bank; by rewrite Hp). rewrite Hb.
    assert (∀ k, k ∈ keys_of q u → flag usage' k = flag_after q (outcome q usage u) (flag usage k)) as Hk by (intros k; by apply Hf).
    rewrite Ho in *. by destruct (within_bank q usage u).
  - rewrite Hops. f_equal. apply list_fmap_ext. intros i u Hu%list_elem_of_lookup_2. rewrite marked_outcome by done.
    by destruct (within_bank q usage u).
Qed.

(** C15: every tick, whatever ledger it finds, records the cycle and the day, the traffic it
    has accounted for and the policy it applied, and leaves no user with more bytes than
    today's cap of their tier. *)
Theorem tick_banks_capped (q : QuotaTick) (usage : PersistedUsage) (u : string) :
  tick_ok q → u ∈ enabled_users q →
  let usage' := (enforce_usage q usage).1.1 in
  pu_node_pacing usage' !! qt_node_id q = Some (mkNodePacing (qt_cycle_start_at q) (qt_cycle_end_at q) (qt_today_index q)) ∧
  unp_last_total_used_bytes (pacing q usage' u) = total_used_by_user q u ∧
  unp_last_priority_tier (pacing q usage' u) = tier_of q u ∧
  unp_last_base_quota_bytes (pacing q usage' u) = (if paced q u then base_of q u else 0) ∧
  (tier_of q u ≠ P3 → bank q usage' u ≤ cap_of q (today q) u).
Proof.
  intros Hok Hu usage'. destruct (enforce_marked q usage Hok) as [M1 M2 M3 M4]. split_and!; [done| |by apply M2|by apply M3|].
  - pose proof (enforce_ok q usage Hok) as He. unfold usage'. destruct (enforce_usage q usage) as [[usage1 ops] changed].
    destruct He as (Hp & _). cbn [fst]. by rewrite Hp.
  - intros Ht. apply M4; [done|]. unfold paced. by destruct (tier_of q u).
Qed.

(** ** A cycle of three ticks

    Three users, one of each tier; [bob] overspends on the second day. *)
Module Example.

Definition snapshot (user : string) : MembershipQuotaSnapshot :=
  mkMembershipQuotaSnapshot (membership_key user "e1") user "e1" "n1" (Some "tag") 1000000000 PolicyMonthly (FixedOffsetMinutes 0) 1.
Definition group (user : string) (used : N) : list MembershipUsageTick := [mkMembershipUsageTick (snapshot user) used].

Definition tick (day : Z) (alice bob carol : N) : QuotaTick :=
  mkQuotaTick "n1" "2026-01-01T00:00:00Z" "2026-02-01T00:00:00Z" 31 day "now" true 1000000000
    (<["alice" := group "alice" alice]> (<["bob" := group "bob" bob]> {["carol" := group "carol" carol]}))
    {["alice" := P1; "carol" := P3]} ∅.

Lemma tick_is_ok day alice bob carol : (0 ≤ day < 31)%Z → tick_ok (tick day alice bob carol).
Proof.
  intros Hday. split; [by vm_compute|intros u; by vm_compute|by vm_compute|done|done|]. intros u v g h s t Huv Hg Hh Hs Ht. cbn in Hg, Hh.
  rewrite !lookup_insert_Some, lookup_singleton_Some in Hg, Hh.
  destruct Hg as [[<- <-]|[_ [[<- <-]|[_ [<- <-]]]]], Hh as [[<- <-]|[_ [[<- <-]|[_ [<- <-]]]]]; try done;
    apply list_elem_of_singleton in Hs as ->; apply list_elem_of_singleton in Ht as ->; discriminate.
Qed.

Lemma tick_same day day' a b c a' b' c' : same_policy (tick day a b c) (tick day' a' b' c').
Proof. split; reflexivity. Qed.

Definition first : QuotaTick := tick 0 1000 2000 0.
Definition second : QuotaTick := tick 0 5000 2000 0.
Definition third : QuotaTick := tick 1 6000 900000000 0.

Lemma cycle_budget_witness :
  cycle_traffic [first; second; third] PersistedUsage_empty + banks first (run_ticks [first; second; third] PersistedUsage_empty)
    ≤ distributable_bytes 1000000000 ∧
  flag (run_ticks [first; second; third] PersistedUsage_empty) (membership_key "bob" "e1") = true ∧
  0 < cycle_traffic [first; second; third] PersistedUsage_empty.
Proof.
  split; [|by vm_compute]. apply (cycle_budget first [second; third] PersistedUsage_empty).
  - by apply tick_is_ok.
  - apply Forall_cons_2; [|apply Forall_cons_2; [|apply Forall_nil_2]]; by apply tick_is_ok.
  - apply Forall_cons_2; [|apply Forall_cons_2; [|apply Forall_nil_2]]; apply tick_same.
  - unfold fresh_cycle. change (pu_node_pacing PersistedUsage_empty) with (∅ : gmap string NodePacing). rewrite lookup_empty. intros u.
    cbn. by rewrite lookup_empty.
  - done.
  - done.
Defined.

(** The daily tick is what the budget rests on.  When no tick runs from the first day to the last
    one, the shares of alice and bob spill over to carol although their own traffic is then
    accepted in full: the node lets more pass than the quota has. *)
Definition unseen : list QuotaTick := [tick 0 0 0 0; tick 30 365782272 365782272 0; tick 30 365782272 365782272 23598856].
Example missed_days_overspend : distributable_bytes 1000000000 < cycle_traffic unseen PersistedUsage_empty.
Proof. by vm_compute. Qed.

Definition overspent : QuotaTick := tick 0 1000 900000000 0.
Definition before : PersistedUsage := run_ticks [first] PersistedUsage_empty.

Lemma tick_cuts_off_overspenders_witness :
  within_bank overspent before "bob" = false ∧ bank overspent (enforce_usage overspent before).1.1 "bob" = 0 ∧
  ∀ k, k ∈ keys_of overspent "bob" → flag (enforce_usage overspent before).1.1 k = true.
Proof.
  assert (tick_ok overspent) as Hok by (by apply tick_is_ok).
  assert (marked overspent before) as Hm by (apply (marked_same first); [apply tick_same|by apply enforce_marked, tick_is_ok|done]).
  assert ("bob" ∈ enabled_users overspent) as Hu by (apply elem_of_enabled_users; split; [done|by eexists]).
  assert (within_bank overspent before "bob" = false) as Hw by (vm_compute; reflexivity). split; [exact Hw|].
  pose proof (tick_cuts_off_overspenders overspent before Hok Hm) as H.
  destruct (enforce_usage overspent before) as [[usage' ops] changed]. destruct H as [H _]. specialize (H "bob" Hu). rewrite Hw in H.
  exact H.
Defined.

Lemma tick_banks_capped_witness :
  bank first (enforce_usage first PersistedUsage_empty).1.1 "alice" ≤ cap_of first (today first) "alice".
Proof.
  assert (tick_ok first) as Hok by (by apply tick_is_ok).
  assert ("alice" ∈ enabled_users first) as Hu by (apply elem_of_enabled_users; split; [done|by eexists]).
  destruct (tick_banks_capped first PersistedUsage_empty "alice" Hok Hu) as (_ & _ & _ & _ & H). apply H. by vm_compute.
Defined.
End Example.
