(* ===== verification/AntiEntropy.v ===== *)
(** * Replication between history repositories

    The contracts of [src/history_repository/replica]: what two repositories exchange to find
    the ranges they have to repair ([anti_entropy.rs]), the ledger of deletions that waits
    for every ready repository, the guard against sources that rewrite their own stream, the
    bounded buffer for unknown schemas, the choice of the collectors of a source
    ([rendezvous.rs]) and the retention classes ([retention.rs]).

    A repair plan is shown to cover exactly the sequences on which the summaries differ; the
    fork guard to accept one payload per position of a stream; a deletion to be remembered as
    long as one ready repository has not acknowledged it; and the rotation of
    acknowledgements to announce every one of them. *)

From S2P Require Import Prelude Text Search Ordered.
Open Scope string_scope.
Open Scope list_scope.
Open Scope N_scope.

(** ** Errors and schedule *)

Inductive ReplicaError : Type :=
  | InvalidIdentifier
  | EmptyRepositories
  | DuplicateRepository
  | RepositoryBacklogFull
  | RecordTooLarge
  | InvalidRange
  | RepairLimitExceeded
  | StreamBacklogFull
  | TombstoneBacklogFull
  | TombstoneMissing
  | CursorGap (expected_sequence received_sequence : N)
  | StaleSequence (next_sequence : N)
  | EpochNotAdvanced (minimum_epoch : N)
  | ForkQuarantined (next_epoch : N)
  | UnknownSchemaBacklogFull.
#[global] Instance ReplicaError_eq_dec : EqDecision ReplicaError.
Proof. solve_decision. Defined.

Definition ANTI_ENTROPY_INTERVAL_SECONDS : N := 5 * 60.
Definition DEEP_VERIFICATION_INTERVAL_SECONDS : N := 24 * 60 * 60.
Definition MAX_REPAIR_RANGES : nat := 64.
Definition MAX_RECORDS_PER_REPAIR_RANGE : N := 1000.
Definition MAX_UNKNOWN_SCHEMA_BYTES : N := 64 * 1024.
Definition MAX_UNKNOWN_SCHEMA_SEGMENTS : N := 64.
Definition MAX_PARTITION_SUMMARIES : N := 1024.
Definition MAX_TOMBSTONES : N := 8192.
Definition MAX_TRACKED_STREAMS : N := 4096.
Definition MAX_FORK_HASHES_PER_STREAM : N := 1000.
Definition MAX_PERMANENT_GAPS : N := 64.
Definition MAX_RECORD_BYTES : N := 256 * 1024.
Definition MAX_TOMBSTONE_READY_REPOSITORIES : N := 4096.

Inductive ReplicaWork : Type := NoWork | AntiEntropyWork | DeepVerification.

Definition is_anti_entropy (w : ReplicaWork) : bool :=
  match w with AntiEntropyWork | DeepVerification => true | NoWork => false end.
Definition is_deep_verification (w : ReplicaWork) : bool :=
  match w with DeepVerification => true | _ => false end.

Record AntiEntropySchedule : Type := mkSchedule {
  anti_entropy_interval_seconds : N;
  deep_verification_interval_seconds : N
}.
Definition schedule_default : AntiEntropySchedule :=
  mkSchedule ANTI_ENTROPY_INTERVAL_SECONDS DEEP_VERIFICATION_INTERVAL_SECONDS.

(** [AntiEntropySchedule::due] *)
Definition due (s : AntiEntropySchedule) (now : N) (last_deep_verification last_anti_entropy : option N) : ReplicaWork :=
  let elapsed last interval := match last with None => true | Some last => bool_decide (interval ≤ sat_sub now last) end in
  if elapsed last_deep_verification (deep_verification_interval_seconds s) then DeepVerification
  else if elapsed last_anti_entropy (anti_entropy_interval_seconds s) then AntiEntropyWork
  else NoWork.

Definition validate_identifier (value : string) : result () ReplicaError :=
  if bool_decide (trim value = "") || bool_decide (value ≠ trim value) || any_control value
  then Err InvalidIdentifier else Ok ().

(** ** Partitions, summaries and the repair plan *)

Record ReplicaPartition : Type := mkPartition {
  pt_source_node_id : string;
  pt_source_epoch : N;
  pt_stream : string;
  pt_partition : N
}.
Definition partition_fields (p : ReplicaPartition) : string * N * string * N :=
  (pt_source_node_id p, pt_source_epoch p, pt_stream p, pt_partition p).
#[global] Instance ReplicaPartition_eq_dec : EqDecision ReplicaPartition.
Proof. solve_decision. Defined.
#[global] Instance ReplicaPartition_countable : Countable ReplicaPartition.
Proof. apply (inj_countable' partition_fields (λ '(a, b, c, d), mkPartition a b c d)). by intros []. Defined.
Lemma partition_fields_inj a b : partition_fields a = partition_fields b → a = b.
Proof. destruct a, b. unfold partition_fields. by intros [= -> -> -> ->]. Qed.
#[global] Instance ReplicaPartition_ordered : Ordered ReplicaPartition :=
  ordered_by partition_fields partition_fields_inj.

(** [ReplicaPartition::new] *)
Definition partition_new (source_node_id : string) (source_epoch : N) (stream : string) (partition : N)
    : result ReplicaPartition ReplicaError :=
  let? _ := validate_identifier source_node_id in
  let? _ := validate_identifier stream in
  if bool_decide (i64_max < source_epoch) then Err InvalidRange
  else Ok (mkPartition source_node_id source_epoch stream partition).

Record PartitionSummary : Type := mkSummary {
  ps_partition : ReplicaPartition;
  ps_first_sequence : N;
  ps_last_sequence : N;
  ps_hash : string;
  ps_record_count : N
}.
#[global] Instance PartitionSummary_eq_dec : EqDecision PartitionSummary.
Proof. solve_decision. Defined.

(** [PartitionSummary::new] *)
Definition summary_new (partition : ReplicaPartition) (first_sequence last_sequence : N) (hash : string) (record_count : N)
    : result PartitionSummary ReplicaError :=
  if bool_decide (last_sequence < first_sequence)
    || bool_decide ((checked_sub last_sequence first_sequence ≫= λ span, checked_add u64_max span 1) ≠ Some record_count)
  then Err InvalidRange
  else Ok (mkSummary partition first_sequence last_sequence hash record_count).

Record RepairRange : Type := mkRange {
  rg_partition : ReplicaPartition;
  rg_first_sequence : N;
  rg_last_sequence : N
}.
#[global] Instance RepairRange_eq_dec : EqDecision RepairRange.
Proof. solve_decision. Defined.
Record RepairPlan : Type := mkPlan { ranges : list RepairRange }.

Definition summaries_by_partition (summaries : list PartitionSummary)
    : result (gmap ReplicaPartition PartitionSummary) ReplicaError :=
  try_fold (λ (acc : gmap ReplicaPartition PartitionSummary) summary,
    if bool_decide (N.of_nat (size acc) = MAX_PARTITION_SUMMARIES) then Err RepairLimitExceeded
    else if bool_decide (is_Some (acc !! ps_partition summary)) then Err InvalidRange
    else Ok (<[ps_partition summary := summary]> acc)) ∅ summaries.

(** The loop of [append_bounded_ranges] from [first] on, when [room] more ranges fit under
    [MAX_REPAIR_RANGES]: what it pushes. *)
Fixpoint bounded_ranges (room : nat) (partition : ReplicaPartition) (first last_sequence : N) {struct room}
    : result (list RepairRange) ReplicaError :=
  if bool_decide (first ≤ last_sequence) then
    match room with
    | O => Err RepairLimitExceeded
    | S room =>
        let last := N.min (sat_add u64_max first (sat_sub MAX_RECORDS_PER_REPAIR_RANGE 1)) last_sequence in
        let range := mkRange partition first last in
        if bool_decide (last = u64_max) then Ok [range]
        else let? rest := bounded_ranges room partition (last + 1) last_sequence in Ok (range :: rest)
    end
  else Ok [].

Definition append_bounded_ranges (acc : list RepairRange) (partition : ReplicaPartition) (first_sequence last_sequence : N)
    : result (list RepairRange) ReplicaError :=
  let? pushed := bounded_ranges (MAX_REPAIR_RANGES - length acc) partition first_sequence last_sequence in
  Ok (acc ++ pushed).

(** The sequences to repair of a partition, if any. *)
Definition repair_span (l r : option PartitionSummary) : option (N * N) :=
  if match l with Some summary => bool_decide (r = Some summary) | None => false end then None
  else match l, r with
       | Some l, Some r =>
           Some (N.min (ps_first_sequence l) (ps_first_sequence r),
                 N.max (ps_last_sequence l) (ps_last_sequence r))
       | Some summary, None | None, Some summary => Some (ps_first_sequence summary, ps_last_sequence summary)
       | None, None => None
       end.

(** [RepairPlan::between] *)
Definition between (local remote : list PartitionSummary) : result RepairPlan ReplicaError :=
  let? local := summaries_by_partition local in
  let? remote := summaries_by_partition remote in
  let partitions := sorted (elements (dom local ∪ dom remote)) in
  let? ranges := try_fold (λ acc partition,
    match repair_span (local !! partition) (remote !! partition) with
    | None => Ok acc
    | Some (first_sequence, last_sequence) => append_bounded_ranges acc partition first_sequence last_sequence
    end) [] partitions in
  Ok (mkPlan ranges).

Definition plan_is_converged (p : RepairPlan) : bool := bool_decide (ranges p = []).

Record ReplicaCursor : Type := mkCursor {
  rc_source_node_id : string;
  rc_source_epoch : N;
  rc_stream : string;
  rc_sequence : N
}.
Definition cursor_fields (c : ReplicaCursor) : string * N * string * N :=
  (rc_source_node_id c, rc_source_epoch c, rc_stream c, rc_sequence c).
#[global] Instance ReplicaCursor_eq_dec : EqDecision ReplicaCursor.
Proof. solve_decision. Defined.
Lemma cursor_fields_inj a b : cursor_fields a = cursor_fields b → a = b.
Proof. destruct a, b. unfold cursor_fields. by intros [= -> -> -> ->]. Qed.
#[global] Instance ReplicaCursor_ordered : Ordered ReplicaCursor := ordered_by cursor_fields cursor_fields_inj.

(** [ReplicaCursor::new] *)
Definition cursor_new (source_node_id : string) (source_epoch : N) (stream : string) (sequence : N)
    : result ReplicaCursor ReplicaError :=
  let? _ := validate_identifier source_node_id in
  let? _ := validate_identifier stream in
  if bool_decide (i64_max < source_epoch) || bool_decide (i64_max < sequence) then Err InvalidRange
  else Ok (mkCursor source_node_id source_epoch stream sequence).

Record ReplicaConvergence : Type := mkConvergence {
  cv_repair : RepairPlan;
  permanent_gaps : list ReplicaCursor
}.

(** [ReplicaConvergence::from_summaries] *)
Definition from_summaries (repair : RepairPlan) (reported_gaps : list ReplicaCursor) : result ReplicaConvergence ReplicaError :=
  let? gaps := try_fold (λ acc gap,
    if bool_decide (gap ∈ acc) then Ok acc
    else if bool_decide (N.of_nat (length acc) = MAX_PERMANENT_GAPS) then Err RepairLimitExceeded
    else Ok (acc ++ [gap])) [] reported_gaps in
  Ok (mkConvergence repair (sorted gaps)).

Definition convergence_is_converged (c : ReplicaConvergence) : bool :=
  plan_is_converged (cv_repair c) && bool_decide (permanent_gaps c = []).
Definition has_permanent_gaps (c : ReplicaConvergence) : bool := negb (bool_decide (permanent_gaps c = [])).

(** ** Records *)

Record ReplicaRecordKey : Type := mkRecordKey {
  rk_source_node_id : string;
  rk_source_epoch : N;
  rk_stream : string;
  rk_sequence : N;
  rk_subject_node_id : string;
  rk_observer_node_id : string;
  rk_schema_id : string;
  rk_schema_version : N;
  rk_record_key : string
}.
Definition record_key_fields (k : ReplicaRecordKey) : string * N * string * N * string * string * string * N * string :=
  (rk_source_node_id k, rk_source_epoch k, rk_stream k, rk_sequence k, rk_subject_node_id k, rk_observer_node_id k,
   rk_schema_id k, rk_schema_version k, rk_record_key k).
#[global] Instance ReplicaRecordKey_eq_dec : EqDecision ReplicaRecordKey.
Proof. solve_decision. Defined.
#[global] Instance ReplicaRecordKey_countable : Countable ReplicaRecordKey.
Proof.
  apply (inj_countable
    (λ k, ([rk_source_node_id k; rk_stream k; rk_subject_node_id k; rk_observer_node_id k; rk_schema_id k; rk_record_key k],
           [rk_source_epoch k; rk_sequence k; rk_schema_version k]))
    (λ f, match f with
          | ([a; c; e; f; g; i], [b; d; h]) => Some (mkRecordKey a b c d e f g h i)
          | _ => None
          end)).
  by intros [].
Defined.
Lemma record_key_fields_inj a b : record_key_fields a = record_key_fields b → a = b.
Proof. destruct a, b. unfold record_key_fields. by intros [= -> -> -> -> -> -> -> -> ->]. Qed.
#[global] Instance ReplicaRecordKey_ordered : Ordered ReplicaRecordKey :=
  ordered_by record_key_fields record_key_fields_inj.

Record ReplicaRecord : Type := mkRecord { rr_key : ReplicaRecordKey; rr_payload : string }.

(** [ReplicaRecord::new] *)
Definition record_new (cursor : ReplicaCursor) (subject_node_id observer_node_id schema_id : string) (schema_version : N)
    (record_key payload : string) : result ReplicaRecord ReplicaError :=
  let? _ := validate_identifier subject_node_id in
  let? _ := validate_identifier observer_node_id in
  let? _ := validate_identifier schema_id in
  if bool_decide (MAX_RECORD_BYTES < sat_add u64_max (N.of_nat (String.length record_key)) (N.of_nat (String.length payload)))
  then Err RecordTooLarge
  else Ok (mkRecord (mkRecordKey (rc_source_node_id cursor) (rc_source_epoch cursor) (rc_stream cursor) (rc_sequence cursor)
                       subject_node_id observer_node_id schema_id schema_version record_key) payload).

(** ** Deletions *)

Record TombstoneState : Type := mkTombstone {
  created_at : N;
  expires_at : N;
  ready_repositories : gset string;
  acknowledgements : gset string
}.
#[export] Instance TombstoneState_eta : Eta TombstoneState :=
  λ s, mkTombstone (created_at s) (expires_at s) (ready_repositories s) (acknowledgements s).
#[global] Instance TombstoneState_eq_dec : EqDecision TombstoneState.
Proof. solve_decision. Defined.

Record TombstoneLedger : Type := mkTombstones {
  horizon_seconds : N;
  tombstones : gmap ReplicaRecordKey TombstoneState
}.
#[export] Instance TombstoneLedger_eta : Eta TombstoneLedger := λ l, mkTombstones (horizon_seconds l) (tombstones l).

(** [TombstoneLedger::new] *)
Definition tombstones_new (horizon : N) : TombstoneLedger := mkTombstones horizon ∅.

(** The set [tombstone] and [reconcile_ready_repositories] build from their argument. *)
Definition repository_set (repositories : list string) : result (gset string) ReplicaError :=
  try_fold (λ acc repository,
    let? _ := validate_identifier repository in
    if bool_decide (repository ∉ acc) && bool_decide (N.of_nat (size acc) = MAX_TOMBSTONE_READY_REPOSITORIES)
    then Err RepositoryBacklogFull
    else Ok ({[repository]} ∪ acc)) ∅ repositories.

Definition tombstone (l : TombstoneLedger) (key : ReplicaRecordKey) (now : N) (ready : list string)
    : result TombstoneLedger ReplicaError :=
  let? repositories := repository_set ready in
  if bool_decide (repositories = ∅) then Err EmptyRepositories
  else if bool_decide (tombstones l !! key = None) && bool_decide (N.of_nat (size (tombstones l)) = MAX_TOMBSTONES)
  then Err TombstoneBacklogFull
  else
    let expires := sat_add u64_max now (horizon_seconds l) in
    match tombstones l !! key with
    | Some state =>
        Ok (l <| tombstones ::= <[key := state <| expires_at ::= N.max expires |>
                                              <| ready_repositories ::= union repositories |>]> |>)
    | None => Ok (l <| tombstones ::= <[key := mkTombstone now expires repositories ∅]> |>)
    end.

Definition acknowledge (l : TombstoneLedger) (key : ReplicaRecordKey) (repository_id : string)
    : result TombstoneLedger ReplicaError :=
  let? _ := validate_identifier repository_id in
  match tombstones l !! key with
  | None => Err TombstoneMissing
  | Some state =>
      Ok (if bool_decide (repository_id ∈ ready_repositories state)
          then l <| tombstones ::= <[key := state <| acknowledgements ::= union {[repository_id]} |>]> |> else l)
  end.

(** The deletion [t] covers the record [key]. *)
Definition covers (t key : ReplicaRecordKey) : bool :=
  bool_decide (rk_source_node_id t = rk_source_node_id key)
  && bool_decide (rk_source_epoch t = rk_source_epoch key)
  && bool_decide (rk_subject_node_id t = rk_subject_node_id key)
  && bool_decide (rk_observer_node_id t = rk_observer_node_id key)
  && bool_decide (rk_schema_id t = rk_schema_id key)
  && bool_decide (rk_schema_version t = rk_schema_version key)
  && (bool_decide (rk_record_key t = rk_record_key key)
      || (ends_with ":" (rk_record_key t) && String.prefix (rk_record_key t) (rk_record_key key))).

Definition tombstone_keys (l : TombstoneLedger) : list ReplicaRecordKey := sorted (elements (dom (tombstones l))).

Definition allows (l : TombstoneLedger) (key : ReplicaRecordKey) : bool :=
  negb (existsb (λ t, covers t key) (tombstone_keys l)).

Definition all_acknowledged (state : TombstoneState) : bool := bool_decide (ready_repositories state ⊆ acknowledgements state).
Definition fully_acknowledged (l : TombstoneLedger) (key : ReplicaRecordKey) : bool :=
  match tombstones l !! key with Some state => all_acknowledged state | None => false end.

(** The keys of the ledger whose state satisfies [f], in order. *)
Definition keys_where (f : TombstoneState → bool) (l : TombstoneLedger) : list ReplicaRecordKey :=
  filter (λ key, from_option f false (tombstones l !! key) = true) (tombstone_keys l).

Definition acknowledged_by (repository_id : string) (state : TombstoneState) : bool :=
  bool_decide (repository_id ∈ acknowledgements state).

Definition acknowledgement_keys_for (l : TombstoneLedger) (repository_id : string) (after : option ReplicaRecordKey) (limit : nat)
    : result (list ReplicaRecordKey) ReplicaError :=
  let? _ := validate_identifier repository_id in
  match limit with
  | O => Ok []
  | _ =>
      let all := keys_where (acknowledged_by repository_id) l in
      let keys := take limit match after with None => all | Some cursor => filter (λ key, below cursor key) all end in
      Ok (if bool_decide (keys = []) && bool_decide (is_Some after) then take limit all else keys)
  end.

Definition expire (l : TombstoneLedger) (now : N) : TombstoneLedger * list ReplicaRecordKey :=
  let expired := keys_where (λ state, bool_decide (expires_at state ≤ now) && all_acknowledged state) l in
  (l <| tombstones ::= λ m, foldl (λ m key, delete key m) m expired |>, expired).

Definition reconcile_ready_repositories (l : TombstoneLedger) (ready : list string) : result TombstoneLedger ReplicaError :=
  let? current := repository_set ready in
  Ok (l <| tombstones ::= fmap (λ state,
        state <| ready_repositories ::= λ r, current ∪ filter (λ x, x ∈ current) r |>
              <| acknowledgements ::= filter (λ x, x ∈ current) |>) |>).

Record TombstoneLedgerCheckpoint : Type := mkCheckpoint {
  tc_horizon_seconds : N;
  tc_entries : list (ReplicaRecordKey * TombstoneState)
}.

Definition checkpoint (l : TombstoneLedger) : TombstoneLedgerCheckpoint :=
  mkCheckpoint (horizon_seconds l) (entries (tombstones l)).

Definition from_checkpoint (c : TombstoneLedgerCheckpoint) : result TombstoneLedger ReplicaError :=
  if bool_decide (MAX_TOMBSTONES < N.of_nat (length (tc_entries c))) then Err TombstoneBacklogFull
  else
    let? entries := try_fold (λ (acc : gmap ReplicaRecordKey TombstoneState) entry,
      if bool_decide (is_Some (acc !! entry.1)) then Err TombstoneBacklogFull else Ok (<[entry.1 := entry.2]> acc))
      ∅ (tc_entries c) in
    Ok (mkTombstones (tc_horizon_seconds c) entries).

(** ** Streams that fork *)

Record StreamForkState : Type := mkFork {
  fk_epoch : N;
  fk_next_sequence : N;
  fk_hashes : gmap N string;
  fk_quarantined : bool
}.
#[export] Instance StreamForkState_eta : Eta StreamForkState :=
  λ s, mkFork (fk_epoch s) (fk_next_sequence s) (fk_hashes s) (fk_quarantined s).

(** The streams by source and name. *)
Abbreviation StreamForkGuard := (gmap (string * string) StreamForkState).

(** [BTreeMap::pop_first] *)
Definition pop_first {V} (m : gmap N V) : gmap N V :=
  match bn_items m with [] => m | (k, _) :: _ => delete k m end.

(** [observe] on the state of the stream. *)
Definition observe_stream (state : StreamForkState) (cursor : ReplicaCursor) (payload_hash : string)
    : StreamForkState * result () ReplicaError :=
  let quarantine := Err (ForkQuarantined (sat_add u64_max (fk_epoch state) 1)) in
  let existing := fk_hashes state !! rc_sequence cursor in
  if fk_quarantined state then (state, quarantine)
  else if bool_decide (fk_epoch state ≠ rc_source_epoch cursor) then (state, quarantine)
  else if match existing with Some hash => bool_decide (hash ≠ payload_hash) | None => false end
  then (state <| fk_quarantined := true |>, quarantine)
  else if bool_decide (fk_next_sequence state < rc_sequence cursor)
  then (state, Err (CursorGap (fk_next_sequence state) (rc_sequence cursor)))
  else if bool_decide (rc_sequence cursor < fk_next_sequence state) && bool_decide (existing = None)
  then (state, Err (StaleSequence (fk_next_sequence state)))
  else
    let state := state <| fk_hashes ::= <[rc_sequence cursor := payload_hash]> |> in
    let state := if bool_decide (rc_sequence cursor = fk_next_sequence state)
                 then state <| fk_next_sequence ::= λ n, sat_add u64_max n 1 |> else state in
    let state := if bool_decide (MAX_FORK_HASHES_PER_STREAM < N.of_nat (size (fk_hashes state)))
                 then state <| fk_hashes ::= pop_first |> else state in
    (state, Ok ()).

(** [StreamForkGuard::observe] *)
Definition observe (g : StreamForkGuard) (cursor : ReplicaCursor) (payload_hash : string)
    : StreamForkGuard * result () ReplicaError :=
  let key := (rc_source_node_id cursor, rc_stream cursor) in
  if bool_decide (g !! key = None) && bool_decide (N.of_nat (size g) = MAX_TRACKED_STREAMS)
  then (g, Err StreamBacklogFull)
  else
    let state := default (mkFork (rc_source_epoch cursor) (rc_sequence cursor) ∅ false) (g !! key) in
    let '(state, answer) := observe_stream state cursor payload_hash in
    (<[key := state]> g, answer).

(** [StreamForkGuard::start_new_epoch] *)
Definition start_new_epoch (g : StreamForkGuard) (source_node_id stream : string) (epoch : N)
    : result StreamForkGuard ReplicaError :=
  let? _ := validate_identifier source_node_id in
  let? _ := validate_identifier stream in
  let key := (source_node_id, stream) in
  match g !! key with
  | Some state =>
      if bool_decide (epoch ≤ fk_epoch state) then Err (EpochNotAdvanced (sat_add u64_max (fk_epoch state) 1))
      else Ok (<[key := mkFork epoch 0 ∅ false]> g)
  | None =>
      if bool_decide (N.of_nat (size g) = MAX_TRACKED_STREAMS) then Err StreamBacklogFull
      else Ok (<[key := mkFork epoch 0 ∅ false]> g)
  end.

(** ** Freshness and unknown schemas *)

Record ReplicaFreshness : Type := mkFreshness {
  last_verified_unix_seconds : N;
  tombstone_horizon_seconds : N
}.
Definition requires_rebuild (f : ReplicaFreshness) (now : N) : bool :=
  bool_decide (sat_add u64_max (last_verified_unix_seconds f) (tombstone_horizon_seconds f) < now).

Record UnknownSchemaBuffer : Type := mkBuffer {
  byte_limit : N;
  bytes_used : N;
  buffered : gmap (string * N) (list string)
}.
#[export] Instance UnknownSchemaBuffer_eta : Eta UnknownSchemaBuffer :=
  λ b, mkBuffer (byte_limit b) (bytes_used b) (buffered b).

(** [UnknownSchemaBuffer::new] *)
Definition buffer_new (limit : N) : UnknownSchemaBuffer := mkBuffer (N.min limit MAX_UNKNOWN_SCHEMA_BYTES) 0 ∅.

Definition segment_count (b : UnknownSchemaBuffer) : N :=
  map_fold (λ _ segments n, N.of_nat (length segments) + n) 0 (buffered b).

Definition store_unknown (b : UnknownSchemaBuffer) (schema_id : string) (schema_version : N) (raw_signed_segment : string)
    : result UnknownSchemaBuffer ReplicaError :=
  let? _ := validate_identifier schema_id in
  let next_size := sat_add u64_max (bytes_used b) (N.of_nat (String.length raw_signed_segment)) in
  if bool_decide (segment_count b = MAX_UNKNOWN_SCHEMA_SEGMENTS) || bool_decide (byte_limit b < next_size)
  then Err UnknownSchemaBacklogFull
  else Ok (b <| buffered ::= λ m, <[(schema_id, schema_version) :=
                 default [] (m !! (schema_id, schema_version)) ++ [raw_signed_segment]]> m |>
             <| bytes_used := next_size |>).

Definition is_forwardable (b : UnknownSchemaBuffer) (schema_id : string) (schema_version : N) : bool :=
  bool_decide (is_Some (buffered b !! (schema_id, schema_version))).

(** ** Collectors *)

(** [rendezvous_score]: the SHA-256 digest of source and repository, as a number. *)
Class RendezvousScore := rendezvous_score : string → string → N.

Record CollectorAssignment : Type := mkAssignment { primary : string; standby : option string }.

Definition PRIMARY_FAILURE_CYCLES_BEFORE_FAILOVER : N := 3.
Definition MAX_REPOSITORIES : N := 4096.
Definition MAX_TRACKED_SOURCES : N := 4096.

Section Collectors.
Context `{RendezvousScore}.

(** The repositories by decreasing score, then by decreasing name. *)
Definition ranked (source_node_id : string) (unique : gset string) : list string :=
  (reverse (sorted (map (λ repository, (rendezvous_score source_node_id repository, repository)) (elements unique)))).*2.

Definition rendezvous_collectors (source_node_id : string) (repositories : list string)
    : result CollectorAssignment ReplicaError :=
  let? _ := validate_identifier source_node_id in
  let? unique := try_fold (λ (acc : gset string) repository,
    let? _ := validate_identifier repository in
    if bool_decide (repository ∉ acc) && bool_decide (N.of_nat (size acc) = MAX_REPOSITORIES) then Err RepositoryBacklogFull
    else if bool_decide (repository ∈ acc) then Err DuplicateRepository
    else Ok ({[repository]} ∪ acc)) ∅ repositories in
  match ranked source_node_id unique with
  | [] => Err EmptyRepositories
  | primary :: rest => Ok (mkAssignment primary (head rest))
  end.
End Collectors.

(** [CollectorSelector]: the failed cycles of the primary, by source. *)
Definition select (failed_primary_cycles : gmap string N) (source_node_id : string) (assignment : CollectorAssignment)
    : result string ReplicaError :=
  let? _ := validate_identifier source_node_id in
  Ok match standby assignment with
     | Some standby =>
         if bool_decide (PRIMARY_FAILURE_CYCLES_BEFORE_FAILOVER ≤ default 0 (failed_primary_cycles !! source_node_id))
         then standby else primary assignment
     | None => primary assignment
     end.

Definition record_primary_cycle (failed_primary_cycles : gmap string N) (source_node_id : string) (succeeded : bool)
    : result (gmap string N) ReplicaError :=
  let? _ := validate_identifier source_node_id in
  if succeeded then Ok (delete source_node_id failed_primary_cycles)
  else if bool_decide (failed_primary_cycles !! source_node_id = None)
          && bool_decide (N.of_nat (size failed_primary_cycles) = MAX_TRACKED_SOURCES) then Err RepositoryBacklogFull
  else Ok (<[source_node_id := sat_add u8_max (default 0 (failed_primary_cycles !! source_node_id)) 1]> failed_primary_cycles).

(** ** Retention *)

Definition DAY_SECONDS : N := 24 * 60 * 60.

Inductive RetentionResolution : Type := Minute | FiveMinutes | Hour.

Record RepositoryRetentionPolicy : Type := mkRetention {
  minute_retention_seconds : N;
  five_minute_retention_seconds : N;
  max_retention_seconds : N
}.
Definition retention_default : RepositoryRetentionPolicy :=
  mkRetention (7 * DAY_SECONDS) (90 * DAY_SECONDS) (2 * 365 * DAY_SECONDS).

Definition resolution_for_age (p : RepositoryRetentionPolicy) (age_seconds : N) : option RetentionResolution :=
  if bool_decide (age_seconds ≤ minute_retention_seconds p) then Some Minute
  else if bool_decide (age_seconds ≤ sat_add u64_max (minute_retention_seconds p) (five_minute_retention_seconds p))
  then Some FiveMinutes
  else if bool_decide (age_seconds ≤ max_retention_seconds p) then Some Hour
  else None.

Definition keeps_minute_detail (p : RepositoryRetentionPolicy) (age_seconds : N) : bool :=
  bool_decide (age_seconds ≤ minute_retention_seconds p).

(** ** The ranges of a repair plan *)

Section Repair.
Implicit Types (p : ReplicaPartition) (s : PartitionSummary) (f l seq : N).

(** The number of ranges a span takes, and the ranges themselves. *)
Definition blocks f l : nat := if decide (f ≤ l) then N.to_nat ((l - f) / 1000 + 1) else O.
Definition piece p f l (i : nat) : RepairRange :=
  mkRange p (f + 1000 * N.of_nat i) (N.min (f + 1000 * N.of_nat i + 999) l).
Definition pieces p f l : list RepairRange := map (piece p f l) (List.seq 0 (blocks f l)).

Lemma blocks_step f l : f + 999 < l → blocks f l = S (blocks (f + 1000) l).
Proof.
  intros Hl. unfold blocks. rewrite !decide_True by lia. rewrite <-N2Nat.inj_succ. f_equal.
  replace (l - f) with ((l - (f + 1000)) + 1 * 1000) by lia. rewrite N.div_add by done. lia.
Qed.
Lemma blocks_one f l : f ≤ l → l ≤ f + 999 → blocks f l = 1%nat.
Proof. intros H1 H2. unfold blocks. rewrite decide_True by done. rewrite N.div_small by lia. done. Qed.
Lemma blocks_none f l : l < f → blocks f l = O.
Proof. intros. unfold blocks. by rewrite decide_False by lia. Qed.

Lemma blocks_pos f l : f ≤ l → (0 < blocks f l)%nat.
Proof. intros. unfold blocks. rewrite decide_True by done. generalize ((l - f) / 1000). lia. Qed.

Lemma pieces_step p f l : f + 999 < l → pieces p f l = mkRange p f (f + 999) :: pieces p (f + 1000) l.
Proof.
  intros Hl. unfold pieces. rewrite blocks_step by done. cbn [List.seq map]. f_equal.
  - unfold piece. f_equal; lia.
  - rewrite <-seq_shift, map_map. apply map_ext. intros i. unfold piece. f_equal; lia.
Qed.
Lemma pieces_one p f l : f ≤ l → l ≤ f + 999 → pieces p f l = [mkRange p f l].
Proof. intros H1 H2. unfold pieces. rewrite blocks_one by done. cbn. unfold piece. do 2 f_equal; lia. Qed.

Lemma bounded_ranges_spec room p f l :
  l ≤ u64_max →
  bounded_ranges room p f l = if decide (blocks f l ≤ room)%nat then Ok (pieces p f l) else Err RepairLimitExceeded.
Proof.
  intros Hl. revert f. induction room as [|room IH]; intros f; cbn [bounded_ranges].
  - destruct (decide (f ≤ l)) as [Hf|Hf].
    + rewrite bool_decide_true by done. rewrite decide_False; [done|]. by apply Nat.nle_gt, blocks_pos.
    + rewrite bool_decide_false by done. unfold pieces. rewrite blocks_none by lia. done.
  - destruct (decide (f ≤ l)) as [Hf|Hf].
    2:{ rewrite bool_decide_false by done. unfold pieces. rewrite blocks_none by lia. done. }
    rewrite bool_decide_true by done. unfold sat_add, sat_sub, MAX_RECORDS_PER_REPAIR_RANGE.
    destruct (decide (f + 999 < l)) as [Hlong|Hshort].
    + rewrite N.min_l by lia. rewrite N.min_l by lia. rewrite bool_decide_false by lia.
      replace (f + (1000 - 1) + 1) with (f + 1000) by lia. rewrite IH, (pieces_step p f), (blocks_step f) by done.
      replace (f + (1000 - 1)) with (f + 999) by lia.
      repeat case_decide; cbn; try done; lia.
    + replace (N.min _ l) with l by lia. rewrite pieces_one, blocks_one by lia.
      rewrite (decide_True (P := (1 ≤ S room)%nat)) by lia. case_bool_decide; [done|].
      rewrite IH. unfold pieces. rewrite blocks_none by lia. rewrite decide_True by lia. done.
Qed.

Lemma pieces_covers p f l seq :
  (∃ r, r ∈ pieces p f l ∧ rg_first_sequence r ≤ seq ≤ rg_last_sequence r) ↔ f ≤ seq ≤ l.
Proof.
  unfold pieces. split.
  - intros (r & (i & -> & Hi)%list_elem_of_fmap & Hs). cbn in Hs. lia.
  - intros [Hf Hl]. exists (piece p f l (N.to_nat ((seq - f) / 1000))). split.
    + apply list_elem_of_fmap. eexists. split; [done|]. apply elem_of_seq. unfold blocks. rewrite decide_True by lia.
      assert ((seq - f) / 1000 ≤ (l - f) / 1000) as Hq by (apply N.Div0.div_le_mono; lia).
      revert Hq. generalize ((seq - f) / 1000), ((l - f) / 1000). lia.
    + unfold piece. cbn. rewrite N2Nat.id.
      pose proof (N.div_mod (seq - f) 1000 ltac:(done)) as Hd. pose proof (N.mod_lt (seq - f) 1000 ltac:(done)) as Hm.
      revert Hd Hm. generalize ((seq - f) / 1000), ((seq - f) mod 1000). lia.
Qed.

Lemma pieces_shape p f l : Forall (λ r, rg_partition r = p ∧ rg_first_sequence r ≤ rg_last_sequence r ∧
  rg_last_sequence r < rg_first_sequence r + MAX_RECORDS_PER_REPAIR_RANGE) (pieces p f l).
Proof.
  apply Forall_forall. intros r (i & -> & Hi)%list_elem_of_fmap. apply elem_of_seq in Hi. cbn. split; [done|].
  unfold MAX_RECORDS_PER_REPAIR_RANGE. unfold blocks in Hi. case_decide; [|lia].
  pose proof (N.Div0.mul_div_le (l - f) 1000) as Hd. revert Hi Hd. generalize ((l - f) / 1000). lia.
Qed.

(** One range after the other, where they belong to one partition. *)
Definition after_range (a b : RepairRange) : Prop := rg_partition a = rg_partition b → rg_last_sequence a < rg_first_sequence b.
Definition apart (a b : RepairRange) : Prop :=
  rg_partition a = rg_partition b → rg_first_sequence a + MAX_RECORDS_PER_REPAIR_RANGE ≤ rg_first_sequence b.

Lemma pieces_apart p f l : StronglySorted apart (pieces p f l).
Proof.
  unfold pieces. generalize (blocks f l). intros n. generalize O. induction n as [|n IH]; intros k; cbn; constructor; [apply IH|].
  apply Forall_forall. intros r (i & -> & Hi)%list_elem_of_fmap. apply elem_of_seq in Hi. intros _. unfold MAX_RECORDS_PER_REPAIR_RANGE. cbn. lia.
Qed.

(** *** The plan as a whole *)

Definition span_ranges (p : ReplicaPartition) (span : option (N * N)) : list RepairRange :=
  match span with None => [] | Some (f, l) => pieces p f l end.

Lemma pieces_length p f l : length (pieces p f l) = blocks f l.
Proof. unfold pieces. by rewrite length_map, length_seq. Qed.

Lemma plan_fold_spec (span : ReplicaPartition → option (N * N)) ps acc :
  (∀ p f l, span p = Some (f, l) → l ≤ u64_max) → (length acc ≤ MAX_REPAIR_RANGES)%nat →
  try_fold (λ acc p, match span p with None => Ok acc | Some (f, l) => append_bounded_ranges acc p f l end) acc ps =
  (let out := acc ++ (ps ≫= λ p, span_ranges p (span p)) in
   if decide (length out ≤ MAX_REPAIR_RANGES)%nat then Ok out else Err RepairLimitExceeded).
Proof.
  intros Hspan. revert acc. induction ps as [|p ps IH]; intros acc Hacc; cbn.
  - rewrite app_nil_r, decide_True by done. done.
  - unfold span_ranges at 1. destruct (span p) as [[f l]|] eqn:Hp; [|by apply IH].
    unfold append_bounded_ranges. rewrite bounded_ranges_spec by eauto.
    destruct (decide (blocks f l ≤ MAX_REPAIR_RANGES - length acc)%nat) as [Hb|Hb]; cbn.
    + rewrite IH; [by rewrite <-!app_assoc|]. rewrite length_app, pieces_length. lia.
    + rewrite decide_False; [done|]. rewrite !length_app, pieces_length. lia.
Qed.

(** The summaries of one side, one per partition. *)
Definition one_each (k : list PartitionSummary) : Prop :=
  NoDup (map ps_partition k) ∧ N.of_nat (length k) ≤ MAX_PARTITION_SUMMARIES.

#[local] Notation gather start k := (try_fold (λ (acc : gmap ReplicaPartition PartitionSummary) summary,
    if bool_decide (N.of_nat (size acc) = MAX_PARTITION_SUMMARIES) then Err RepairLimitExceeded
    else if bool_decide (is_Some (acc !! ps_partition summary)) then Err InvalidRange
    else Ok (<[ps_partition summary := summary]> acc)) start k).

Lemma gather_inv k acc m :
  N.of_nat (size acc) ≤ MAX_PARTITION_SUMMARIES → gather acc k = Ok m →
  NoDup (map ps_partition k) ∧ N.of_nat (size acc + length k) ≤ MAX_PARTITION_SUMMARIES ∧
  (∀ s, s ∈ k → acc !! ps_partition s = None) ∧
  (∀ p s, m !! p = Some s ↔ (s ∈ k ∧ ps_partition s = p) ∨ acc !! p = Some s).
Proof.
  revert acc. induction k as [|s k IH]; intros acc Hacc; cbn [try_fold map length].
  - intros [= ->]. split_and!; [constructor|lia|by intros ? ?%not_elem_of_nil|].
    intros p s. rewrite elem_of_nil. naive_solver.
  - case_bool_decide as Hfull; [done|]. case_bool_decide as Hs; [done|]. apply eq_None_not_Some in Hs. intros Hm.
    apply IH in Hm as (Hnd & Hlen & Hno & Hlook); [|rewrite map_size_insert_None by done; lia].
    rewrite map_size_insert_None in Hlen by done. split_and!; [| lia | |].
    + constructor; [|done]. intros (s' & Heq & Hin)%list_elem_of_fmap. specialize (Hno s' Hin).
      rewrite <-Heq, lookup_insert_eq in Hno. done.
    + intros s' [-> |Hin]%elem_of_cons; [done|]. specialize (Hno s' Hin). by apply lookup_insert_None in Hno as [? _].
    + intros p s'. rewrite Hlook, elem_of_cons, lookup_insert_Some. split; [naive_solver|].
      intros [[[-> |?] ?]|Hp]; [naive_solver|naive_solver|]. right. right. split; [congruence|done].
Qed.

Lemma gather_total k acc :
  NoDup (map ps_partition k) → N.of_nat (size acc + length k) ≤ MAX_PARTITION_SUMMARIES →
  (∀ s, s ∈ k → acc !! ps_partition s = None) → is_ok (gather acc k) = true.
Proof.
  revert acc. induction k as [|s k IH]; intros acc Hnd Hlen Hno; cbn [try_fold map length] in *; [done|].
  apply NoDup_cons in Hnd as [Hs Hnd]. rewrite bool_decide_false by lia.
  rewrite bool_decide_false by (rewrite Hno by left; by intros []). cbn. apply IH; [done| |].
  - rewrite map_size_insert_None by (apply Hno; left). lia.
  - intros s' Hin. rewrite lookup_insert_ne; [apply Hno; by right|]. intros Heq. apply Hs.
    apply list_elem_of_fmap. by exists s'.
Qed.

Lemma summaries_inv k m : summaries_by_partition k = Ok m → one_each k ∧ ∀ p s, m !! p = Some s ↔ s ∈ k ∧ ps_partition s = p.
Proof.
  intros Hm. apply gather_inv in Hm as (Hnd & Hlen & _ & Hlook); [|done]. rewrite map_size_empty in Hlen.
  split; [split; [done|cbn in Hlen; lia]|]. intros p s. rewrite Hlook, lookup_empty. naive_solver.
Qed.
Lemma summaries_total k : one_each k → ∃ m, summaries_by_partition k = Ok m.
Proof.
  intros [Hnd Hlen]. pose proof (gather_total k ∅ Hnd) as Hok. unfold summaries_by_partition.
  destruct (gather ∅ k) as [m|e]; [by exists m|]. rewrite map_size_empty in Hok. by specialize (Hok Hlen (λ _ _, lookup_empty _)).
Qed.

(** *** What the plan has to repair *)

(** The two sides tell the same about the partition. *)
Definition agree (local remote : list PartitionSummary) p : Prop :=
  ∀ s, ps_partition s = p → s ∈ local ↔ s ∈ remote.

(** [seq] lies between a first and a last sequence told of the partition. *)
Definition within (local remote : list PartitionSummary) p seq : Prop :=
  ∃ a b, a ∈ local ++ remote ∧ b ∈ local ++ remote ∧ ps_partition a = p ∧ ps_partition b = p ∧
    ps_first_sequence a ≤ seq ≤ ps_last_sequence b.

Definition well_formed s : Prop := ps_first_sequence s ≤ ps_last_sequence s ≤ u64_max.

Section Plan.
Context (local remote : list PartitionSummary) (lm rm : gmap ReplicaPartition PartitionSummary).
Context (Hwf : Forall well_formed (local ++ remote)).
Context (Hl : ∀ p s, lm !! p = Some s ↔ s ∈ local ∧ ps_partition s = p).
Context (Hr : ∀ p s, rm !! p = Some s ↔ s ∈ remote ∧ ps_partition s = p).

Let span p := repair_span (lm !! p) (rm !! p).
Let partitions := sorted (elements (dom lm ∪ dom rm)).

Lemma wf_of p s : lm !! p = Some s ∨ rm !! p = Some s → well_formed s.
Proof. intros Hs. rewrite Hl, Hr in Hs. rewrite Forall_forall in Hwf. destruct Hs as [[? _]|[? _]]; apply Hwf, elem_of_app; auto. Qed.

Lemma agree_lookup p : agree local remote p ↔ lm !! p = rm !! p.
Proof.
  unfold agree. split.
  - intros Ha. apply option_eq. intros s. rewrite Hl, Hr. split; intros [? ?]; (split; [by apply Ha|done]).
  - intros Heq s Hs. split; intros Hin.
    + assert (lm !! p = Some s) as E by (by apply Hl). rewrite Heq in E. by apply Hr in E as [? _].
    + assert (rm !! p = Some s) as E by (by apply Hr). rewrite <-Heq in E. by apply Hl in E as [? _].
Qed.

Lemma within_lookup p seq :
  within local remote p seq ↔ ∃ a b, (lm !! p = Some a ∨ rm !! p = Some a) ∧ (lm !! p = Some b ∨ rm !! p = Some b) ∧
    ps_first_sequence a ≤ seq ≤ ps_last_sequence b.
Proof.
  assert (∀ s, (lm !! p = Some s ∨ rm !! p = Some s) ↔ s ∈ local ++ remote ∧ ps_partition s = p) as Hs.
  { intros s. rewrite Hl, Hr, elem_of_app. tauto. }
  unfold within. split; intros (a & b & H1 & H2 & H3); exists a, b; rewrite ?Hs in *; tauto.
Qed.

Lemma span_spec p : match span p with
  | None => agree local remote p
  | Some (f, l) => ¬ agree local remote p ∧ f ≤ l ≤ u64_max ∧ ∀ seq, within local remote p seq ↔ f ≤ seq ≤ l
  end.
Proof.
  unfold span, repair_span. pose proof (wf_of p) as W.
  pose proof (agree_lookup p) as Hagree. pose proof (within_lookup p) as Hin.
  destruct (lm !! p) as [a|], (rm !! p) as [b|].
  - case_bool_decide as Hab; [by apply Hagree|]. pose proof (W a (or_introl eq_refl)) as [? ?].
    pose proof (W b (or_intror eq_refl)) as [? ?]. split; [rewrite Hagree; congruence|]. split; [lia|].
    intros seq. rewrite Hin. split.
    + intros (x & y & [[= <-]|[= <-]] & [[= <-]|[= <-]] & ? & ?); lia.
    + intros [Hf Hlast]. exists (if decide (ps_first_sequence a ≤ ps_first_sequence b) then a else b).
      exists (if decide (ps_last_sequence a ≤ ps_last_sequence b) then b else a). repeat case_decide; (split_and!; auto; lia).
  - pose proof (W a (or_introl eq_refl)) as [? ?]. rewrite bool_decide_false by done.
    split; [by rewrite Hagree|]. split; [lia|]. intros seq. rewrite Hin. split; [|intros ?; exists a, a; auto].
    intros (x & y & [[= <-]|?] & [[= <-]|?] & ? & ?); (lia || done).
  - pose proof (W b (or_intror eq_refl)) as [? ?]. split; [by rewrite Hagree|]. split; [lia|].
    intros seq. rewrite Hin. split; [|intros ?; exists b, b; auto].
    intros (x & y & [?|[= <-]] & [?|[= <-]] & ? & ?); (lia || done).
  - by apply Hagree.
Qed.

Lemma span_partition p f l : span p = Some (f, l) → p ∈ partitions.
Proof.
  intros Hs. unfold partitions. rewrite sorted_in, elem_of_elements, elem_of_union, !elem_of_dom.
  unfold span, repair_span in Hs. destruct (lm !! p), (rm !! p); eauto. done.
Qed.

Let out := partitions ≫= λ p, span_ranges p (span p).

Lemma out_in r : r ∈ out ↔ ∃ f l, span (rg_partition r) = Some (f, l) ∧ r ∈ pieces (rg_partition r) f l.
Proof.
  unfold out. rewrite list_elem_of_bind. split.
  - intros (p & Hr' & Hp). unfold span_ranges in Hr'. destruct (span p) as [[f l]|] eqn:Hs; [|by apply not_elem_of_nil in Hr'].
    pose proof (pieces_shape p f l) as Hsh. rewrite Forall_forall in Hsh. destruct (Hsh _ Hr') as [-> _]. eauto.
  - intros (f & l & Hs & Hin). exists (rg_partition r). unfold span_ranges. rewrite Hs. split; [done|by eapply span_partition].
Qed.

Lemma out_apart : StronglySorted apart out.
Proof.
  assert (StronglySorted below partitions) as Hp by apply sorted_ascending, NoDup_elements.
  unfold out. clear out. induction Hp as [|p ps Hps IH Hp]; cbn; [constructor|]. apply StronglySorted_app_2; [| |done].
  - intros a b Ha (q & Hb & Hq)%list_elem_of_bind Heq. exfalso. rewrite Forall_forall in Hp. specialize (Hp q Hq).
    assert (rg_partition a = p ∧ rg_partition b = q) as [<- <-].
    { unfold span_ranges in Ha, Hb. destruct (span p) as [[f l]|]; [|by apply not_elem_of_nil in Ha].
      destruct (span q) as [[f' l']|]; [|by apply not_elem_of_nil in Hb].
      pose proof (pieces_shape p f l) as H1. pose proof (pieces_shape q f' l') as H2. rewrite Forall_forall in H1, H2.
      split; [by apply H1|by apply H2]. }
    rewrite Heq in Hp. by apply below_irrefl in Hp.
  - unfold span_ranges. destruct (span p) as [[f l]|]; [apply pieces_apart|constructor].
Qed.

Lemma out_shape : Forall (λ r, rg_first_sequence r ≤ rg_last_sequence r ∧
  rg_last_sequence r < rg_first_sequence r + MAX_RECORDS_PER_REPAIR_RANGE) out.
Proof.
  apply Forall_forall. intros r (f & l & _ & Hr')%out_in. pose proof (pieces_shape (rg_partition r) f l) as Hsh.
  rewrite Forall_forall in Hsh. by apply Hsh.
Qed.

Lemma out_repairs p seq :
  (∃ r, r ∈ out ∧ rg_partition r = p ∧ rg_first_sequence r ≤ seq ≤ rg_last_sequence r) ↔
  ¬ agree local remote p ∧ within local remote p seq.
Proof.
  pose proof (span_spec p) as Hs. split.
  - intros (r & (f & l & Hp & Hr')%out_in & <- & Hseq). rewrite Hp in Hs. destruct Hs as (? & _ & Hw).
    split; [done|]. apply Hw, (pieces_covers (rg_partition r)). eauto.
  - intros [Ha Hw]. destruct (span p) as [[f l]|] eqn:Hp; [|done]. destruct Hs as (_ & _ & Hin).
    apply Hin, (pieces_covers p) in Hw as (r & Hr' & Hseq). pose proof (pieces_shape p f l) as Hsh. rewrite Forall_forall in Hsh.
    destruct (Hsh _ Hr') as [Hpr _]. exists r. split_and!; [|done|lia..]. apply out_in. rewrite Hpr. eauto.
Qed.

Lemma out_nil : out = [] ↔ ∀ p, agree local remote p.
Proof.
  split.
  - intros Hnil p. pose proof (span_spec p) as Hs. destruct (span p) as [[f l]|] eqn:Hp; [|done]. exfalso.
    destruct Hs as (Ha & Hfl & Hw). assert (within local remote p f) as Hf by (apply Hw; lia).
    destruct (proj2 (out_repairs p f) (conj Ha Hf)) as (r & Hr' & _). rewrite Hnil in Hr'. by apply not_elem_of_nil in Hr'.
  - intros Ha. destruct out as [|r rest] eqn:Hout; [done|]. exfalso. assert (r ∈ out) as Hr' by (rewrite Hout; left).
    assert (¬ agree local remote (rg_partition r)) as []; [|done]. apply (out_repairs _ (rg_first_sequence r)).
    exists r. pose proof out_shape as Hsh. rewrite Forall_forall in Hsh. specialize (Hsh _ Hr'). split_and!; [done..|lia].
Qed.
End Plan.

(** A plan repairs [seq] of the partition. *)
Definition repairs (rs : list RepairRange) p seq : Prop :=
  ∃ r, r ∈ rs ∧ rg_partition r = p ∧ rg_first_sequence r ≤ seq ≤ rg_last_sequence r.

Definition small (r : RepairRange) : Prop := rg_last_sequence r < rg_first_sequence r + MAX_RECORDS_PER_REPAIR_RANGE.

Lemma apart_after rs : Forall small rs → StronglySorted apart rs → StronglySorted after_range rs.
Proof.
  intros Hs Ha. induction Ha as [|r rs _ IH Hr]; constructor; apply Forall_cons in Hs as [Hr' Hs]; [by apply IH|].
  eapply Forall_impl; [exact Hr|]. intros b Hb Heq. unfold small, apart in *. specialize (Hb Heq). lia.
Qed.

(** Ranges whose starts are apart need as many ranges to cover them. *)
Lemma apart_needs rs ks :
  StronglySorted apart rs → Forall small ks → (∀ r, r ∈ rs → repairs ks (rg_partition r) (rg_first_sequence r)) →
  (length rs ≤ length ks)%nat.
Proof.
  intros Ha. revert ks. induction Ha as [|r rs _ IH Hr]; intros ks Hks Hcov; [cbn; lia|].
  destruct (Hcov r) as (k & Hk & Hkp & Hseq); [left|]. apply list_elem_of_split in Hk as (k1 & k2 & ->).
  cbn. rewrite length_app. cbn. rewrite Nat.add_succ_r, <-length_app. apply le_n_S, IH.
  - apply Forall_app in Hks as [? [_ ?]%Forall_cons]. by apply Forall_app.
  - intros r' Hr'. destruct (Hcov r') as (k' & Hk' & Hkp' & Hseq'); [by right|].
    exists k'. split; [|done]. apply elem_of_app in Hk' as [?|[-> |?]%elem_of_cons]; [apply elem_of_app; by left| |apply elem_of_app; by right].
    exfalso. rewrite Forall_forall in Hr. specialize (Hr r' Hr'). unfold apart in Hr. specialize (Hr ltac:(congruence)).
    apply Forall_app in Hks as [_ [Hsm _]%Forall_cons]. unfold small in Hsm. lia.
Qed.
End Repair.

(** C14: the repair plan of two lists of summaries names exactly the sequences to repair: those
    of the partitions on which the two sides differ, from the first to the last sequence
    either side tells of, each in one range of at most 1000 records, in at most 64 ranges;
    it is empty exactly when the sides agree on every partition.  It is refused only if a
    side lists a partition twice or more than 1024 of them, or if no 64 such ranges cover
    what has to be repaired. *)
Theorem repair_plan_exact local remote :
  Forall well_formed (local ++ remote) →
  match between local remote with
  | Ok plan =>
      one_each local ∧ one_each remote ∧
      (∀ p seq, repairs (ranges plan) p seq ↔ ¬ agree local remote p ∧ within local remote p seq) ∧
      StronglySorted after_range (ranges plan) ∧ Forall small (ranges plan) ∧
      (length (ranges plan) ≤ MAX_REPAIR_RANGES)%nat ∧
      (plan_is_converged plan = true ↔ ∀ p, agree local remote p)
  | Err _ =>
      one_each local → one_each remote → ∀ rs, Forall small rs →
      (∀ p seq, ¬ agree local remote p → within local remote p seq → repairs rs p seq) →
      (MAX_REPAIR_RANGES < length rs)%nat
  end.
Proof.
  intros Hwf. unfold between.
  destruct (summaries_by_partition local) as [lm|e] eqn:El.
  2:{ cbn. intros [m Hm]%summaries_total. congruence. }
  destruct (summaries_by_partition remote) as [rm|e] eqn:Er.
  2:{ cbn. intros _ [m Hm]%summaries_total. congruence. }
  cbn. apply summaries_inv in El as [Hol Hl]. apply summaries_inv in Er as [Hor Hr].
  rewrite (plan_fold_spec (λ p, repair_span (lm !! p) (rm !! p))); [| |cbn; lia].
  2:{ intros p f l Hs. pose proof (span_spec local remote lm rm Hwf Hl Hr p) as Hp. cbv zeta beta in Hp. rewrite Hs in Hp. lia. }
  cbn [app]. set (out := sorted _ ≫= _).
  pose proof (out_apart lm rm) as Hap. pose proof (out_shape lm rm) as Hsh. fold out in Hap, Hsh.
  assert (Forall small out) as Hsm by (eapply Forall_impl; [exact Hsh|]; intros r [_ ?]; done).
  case_decide as Hlen; cbn.
  - split_and!; [done|done| |by apply apart_after|done|done|].
    + intros p seq. apply (out_repairs local remote lm rm Hwf Hl Hr).
    + unfold plan_is_converged. rewrite bool_decide_eq_true. apply (out_nil local remote lm rm Hwf Hl Hr).
  - intros _ _ rs Hrs Hcov. eapply Nat.lt_le_trans; [by apply Nat.nle_gt|]. eapply apart_needs; [exact Hap|done|].
    intros r Hin. rewrite Forall_forall in Hsh. specialize (Hsh _ Hin).
    assert (repairs out (rg_partition r) (rg_first_sequence r)) as Hrep by (exists r; split_and!; [done..|lia]).
    apply (out_repairs local remote lm rm Hwf Hl Hr) in Hrep as [? ?]. by apply Hcov.
Qed.

(** ** The guard against forks *)

Section Forks.
Implicit Types (g : StreamForkGuard) (state : StreamForkState) (cursor : ReplicaCursor).

(** Calls of the guard, in any order. *)
Inductive ForkCall : Type :=
  | Observe (cursor : ReplicaCursor) (payload_hash : string)
  | StartNewEpoch (source_node_id stream : string) (epoch : N).

(** The guard after the call, and the record it accepted. *)
Definition fork_call g (call : ForkCall) : StreamForkGuard * list (ReplicaCursor * string) :=
  match call with
  | Observe cursor payload_hash =>
      let '(g', answer) := observe g cursor payload_hash in
      (g', if is_ok answer then [(cursor, payload_hash)] else [])
  | StartNewEpoch source_node_id stream epoch =>
      match start_new_epoch g source_node_id stream epoch with
      | Ok g' => (g', [])
      | Err _ => (g, [])
      end
  end.

Fixpoint fork_run g (calls : list ForkCall) : StreamForkGuard * list (ReplicaCursor * string) :=
  match calls with
  | [] => (g, [])
  | call :: calls =>
      let '(g', accepted) := fork_call g call in
      let '(g'', more) := fork_run g' calls in
      (g'', accepted ++ more)
  end.

Definition stream_of cursor : string * string := (rc_source_node_id cursor, rc_stream cursor).

Definition cursor_at (key : string * string) (epoch sequence : N) : ReplicaCursor := mkCursor key.1 epoch key.2 sequence.
Lemma cursor_at_eta cursor : cursor = cursor_at (stream_of cursor) (rc_source_epoch cursor) (rc_sequence cursor).
Proof. by destruct cursor. Qed.

(** What a log of accepted records keeps to: one payload per position, epochs that only grow,
    and no position left out between two of an epoch. *)
Record honest (log : list (ReplicaCursor * string)) : Prop := {
  hn_unique c h h' : (c, h) ∈ log → (c, h') ∈ log → h = h';
  hn_epochs : StronglySorted (λ a b, stream_of a.1 = stream_of b.1 → rc_source_epoch a.1 ≤ rc_source_epoch b.1) log;
  hn_filled key epoch i j k h h' : (cursor_at key epoch i, h) ∈ log → (cursor_at key epoch k, h') ∈ log → i ≤ j ≤ k →
    ∃ h'', (cursor_at key epoch j, h'') ∈ log
}.

(** What the state of a stream knows of the records accepted so far: none is of a later
    epoch, those of its epoch reach without a gap up to the next sequence, and the hashes it
    holds are theirs. *)
Record knows (log : list (ReplicaCursor * string)) (key : string * string) state : Prop := {
  kn_epoch c h : (c, h) ∈ log → stream_of c = key → rc_source_epoch c ≤ fk_epoch state;
  kn_next i h : (cursor_at key (fk_epoch state) i, h) ∈ log → i < fk_next_sequence state;
  kn_filled i j h : (cursor_at key (fk_epoch state) i, h) ∈ log → i ≤ j < fk_next_sequence state →
    ∃ h', (cursor_at key (fk_epoch state) j, h') ∈ log;
  kn_hashes i h : fk_hashes state !! i = Some h → (cursor_at key (fk_epoch state) i, h) ∈ log
}.

Definition guarded g (log : list (ReplicaCursor * string)) : Prop :=
  honest log ∧ ∀ key, match g !! key with
                      | Some state => knows log key state
                      | None => ∀ c h, (c, h) ∈ log → stream_of c ≠ key
                      end.

Lemma pop_first_lookup {V} (m : gmap N V) i v : pop_first m !! i = Some v → m !! i = Some v.
Proof. unfold pop_first. destruct (bn_items m) as [|[k w] l]; [done|]. rewrite lookup_delete_Some. by intros [_ ?]. Qed.

(** Accepting a record keeps a log honest if the record is known, or comes next. *)
Lemma honest_app log key state h i :
  honest log → knows log key state →
  (cursor_at key (fk_epoch state) i, h) ∈ log ∨ i = fk_next_sequence state →
  honest (log ++ [(cursor_at key (fk_epoch state) i, h)]).
Proof.
  intros [Hu He Hf] [Ke Kn Kf Kh] Hi. split.
  - intros c h1 h2. rewrite !elem_of_app, !list_elem_of_singleton. intros [H1|E1] [H2|E2]; [by eapply Hu| | |congruence].
    + injection E2 as -> ->. destruct Hi as [Hi| ->]; [by eapply Hu|]. apply Kn in H1. lia.
    + injection E1 as -> ->. destruct Hi as [Hi| ->]; [by eapply Hu|]. apply Kn in H2. lia.
  - apply StronglySorted_app_2; [|done|repeat constructor]. intros [c h1] b Hin ->%list_elem_of_singleton Heq. cbn in *.
    eapply Ke; [exact Hin|]. rewrite Heq. by destruct key.
  - intros key' epoch a j b h1 h2. rewrite !elem_of_app, !list_elem_of_singleton. setoid_rewrite elem_of_app.
    setoid_rewrite list_elem_of_singleton. intros [H1|E1] [H2|E2] Hj.
    + destruct (Hf _ _ _ j _ _ _ H1 H2 Hj) as [h3 ?]. eauto.
    + unfold cursor_at in E2. destruct key as [k1 k2], key' as [k1' k2']. cbn in E2. injection E2 as -> -> -> -> ->.
      destruct Hi as [Hi| ->]; [destruct (Hf _ _ _ j _ _ _ H1 Hi Hj) as [h3 ?]; eauto|].
      destruct (decide (j = fk_next_sequence state)) as [-> |]; [eauto|]. destruct (Kf _ j _ H1) as [h3 ?]; [lia|eauto].
    + unfold cursor_at in E1. destruct key as [k1 k2], key' as [k1' k2']. cbn in E1. injection E1 as -> -> -> -> ->.
      destruct Hi as [Hi| ->]; [destruct (Hf _ _ _ j _ _ _ Hi H2 Hj) as [h3 ?]; eauto|]. apply Kn in H2. lia.
    + unfold cursor_at in E1, E2. destruct key as [k1 k2], key' as [k1' k2']. cbn in E1, E2.
      injection E1 as -> -> -> -> ->. injection E2 as <- <-. assert (j = b) as -> by lia. eauto.
Qed.

Lemma observe_stream_refused state cursor h state' e :
  observe_stream state cursor h = (state', Err e) →
  fk_epoch state' = fk_epoch state ∧ fk_next_sequence state' = fk_next_sequence state ∧ fk_hashes state' = fk_hashes state.
Proof. unfold observe_stream. repeat case_match; intros [= <- ?]; done. Qed.

Lemma observe_stream_accepted state cursor h state' :
  observe_stream state cursor h = (state', Ok ()) →
  fk_epoch state = rc_source_epoch cursor ∧ fk_epoch state' = fk_epoch state ∧
  (∀ i v, fk_hashes state' !! i = Some v → (i = rc_sequence cursor ∧ v = h) ∨ fk_hashes state !! i = Some v) ∧
  ((fk_hashes state !! rc_sequence cursor = Some h ∧ rc_sequence cursor ≠ fk_next_sequence state ∧
    fk_next_sequence state' = fk_next_sequence state) ∨
   (rc_sequence cursor = fk_next_sequence state ∧ fk_next_sequence state' = sat_add u64_max (fk_next_sequence state) 1)).
Proof.
  unfold observe_stream. destruct (fk_quarantined state); [done|]. case_bool_decide as He; [done|].
  destruct (match fk_hashes state !! _ with Some _ => _ | None => _ end) eqn:Hx; [done|].
  case_bool_decide as Hg; [done|]. destruct (bool_decide _ && bool_decide _) eqn:Hst; [done|]. intros [= <-].
  split; [done|]. set (s1 := state <| fk_hashes ::= _ |>). set (s2 := if bool_decide (_ = _) then _ else _).
  assert (∃ b, b = bool_decide (rc_sequence cursor = fk_next_sequence state) ∧
    s2 = if b then s1 <| fk_next_sequence ::= λ n, sat_add u64_max n 1 |> else s1) as (b & Hb & Hs2) by (by eexists).
  assert (∀ i v, fk_hashes s2 !! i = Some v → (i = rc_sequence cursor ∧ v = h) ∨ fk_hashes state !! i = Some v) as H2.
  { intros i v. rewrite Hs2. unfold s1. destruct b; cbn; rewrite lookup_insert_Some; naive_solver. }
  assert (fk_epoch s2 = fk_epoch state) as Hep by (rewrite Hs2; by destruct b).
  assert (fk_next_sequence s2 = if b then sat_add u64_max (fk_next_sequence state) 1 else fk_next_sequence state) as Hn
    by (rewrite Hs2; by destruct b).
  clearbody s2. clear Hs2. generalize (bool_decide (MAX_FORK_HASHES_PER_STREAM < N.of_nat (size (fk_hashes s2)))). intros full.
  split; [by destruct full|]. split.
  { intros i v. destruct full; [cbn; intros ?%pop_first_lookup|]; by apply H2. }
  assert (fk_next_sequence (if full then s2 <| fk_hashes ::= pop_first |> else s2) = fk_next_sequence s2) as -> by (by destruct full).
  rewrite Hn, Hb. case_bool_decide as Heq; [by right|]. left. split; [|done].
  destruct (fk_hashes state !! rc_sequence cursor) as [v|] eqn:Hv.
  - apply bool_decide_eq_false, dec_stable in Hx. by rewrite Hx.
  - rewrite bool_decide_true in Hst by lia. by rewrite bool_decide_true in Hst.
Qed.

Lemma knows_other log key state c h : knows log key state → stream_of c ≠ key → knows (log ++ [(c, h)]) key state.
Proof.
  intros [Ke Kn Kf Kh] Hne.
  assert (∀ e i v, (cursor_at key e i, v) ∈ log ++ [(c, h)] ↔ (cursor_at key e i, v) ∈ log) as Hin.
  { intros e i v. rewrite elem_of_app, list_elem_of_singleton. split; [|by left]. intros [?|[= <- <-]]; [done|].
    exfalso. apply Hne. by destruct key. }
  split.
  - intros c' h'. rewrite elem_of_app, list_elem_of_singleton. intros [?|[= -> ->]] ?; [eauto|done].
  - intros i v ?%Hin. eauto.
  - intros i j v ?%Hin ?. setoid_rewrite Hin. eauto.
  - intros i v ?. apply Hin. eauto.
Qed.

Lemma knows_accept log key state h state' i :
  knows log key state → i < u64_max → observe_stream state (cursor_at key (fk_epoch state) i) h = (state', Ok ()) →
  knows (log ++ [(cursor_at key (fk_epoch state) i, h)]) key state' ∧
  ((cursor_at key (fk_epoch state) i, h) ∈ log ∨ i = fk_next_sequence state).
Proof.
  intros [Ke Kn Kf Kh] Hi (_ & Hep & Hh & Hn)%observe_stream_accepted. cbn [rc_sequence cursor_at] in *.
  assert (fk_next_sequence state ≤ fk_next_sequence state' ∧ i < fk_next_sequence state' ∧
    (fk_next_sequence state' ≤ fk_next_sequence state ∨ fk_next_sequence state' = i + 1)) as (Hle & Hlt & Hup).
  { destruct Hn as [(Hv & _ & ->)|[-> ->]]; [apply Kh, Kn in Hv; lia|unfold sat_add; lia]. }
  assert ((cursor_at key (fk_epoch state) i, h) ∈ log ∨ i = fk_next_sequence state) as Hor by (destruct Hn as [(?&_)|[? _]]; eauto).
  split; [|done]. split; rewrite ?Hep; setoid_rewrite elem_of_app; setoid_rewrite list_elem_of_singleton.
  - intros c v [?|[= -> ->]] ?; [eauto|done].
  - intros j v [Hj%Kn|E]; [lia|]. unfold cursor_at in E. injection E as -> _. done.
  - intros a j v Ha Hj. destruct (decide (j = i)) as [-> |Hne]; [eauto|].
    assert (∃ v', (cursor_at key (fk_epoch state) j, v') ∈ log) as [v' ?]; [|eauto].
    destruct Ha as [Ha|E]; [eapply Kf; [exact Ha|lia]|]. unfold cursor_at in E. injection E as -> ->.
    destruct Hor as [Hlog| ->]; [eapply Kf; [exact Hlog|lia]|lia].
  - intros j v [[-> ->]|?]%Hh; eauto.
Qed.

Lemma knows_new log key state :
  (∀ c h, (c, h) ∈ log → stream_of c = key → rc_source_epoch c < fk_epoch state) → fk_hashes state = ∅ → knows log key state.
Proof.
  intros Hold Hh.
  assert (∀ i h, (cursor_at key (fk_epoch state) i, h) ∉ log) as Hno.
  { intros i h Hin. specialize (Hold _ _ Hin). cbn in Hold. destruct key. specialize (Hold eq_refl). lia. }
  split.
  - intros c h Hin Hk. specialize (Hold _ _ Hin Hk). lia.
  - by intros i h ?%Hno.
  - by intros i j h ?%Hno.
  - intros i h. by rewrite Hh, lookup_empty.
Qed.

Lemma guarded_observe g log cursor h :
  guarded g log → rc_sequence cursor < u64_max →
  guarded (observe g cursor h).1 (log ++ if is_ok (observe g cursor h).2 then [(cursor, h)] else []).
Proof.
  intros [Hon Hg] Hseq. unfold observe. fold (stream_of cursor). set (key := stream_of cursor).
  destruct (bool_decide _ && bool_decide _); cbn [fst snd is_ok]; [by rewrite app_nil_r|].
  set (state := default _ _). assert (knows log key state) as Hk.
  { subst state. specialize (Hg key). destruct (g !! key) as [st|]; cbn; [done|].
    apply knows_new; [|done]. intros c v Hin Hk. by destruct (Hg _ _ Hin). }
  destruct (observe_stream state cursor h) as [state' [[]|e]] eqn:Ho; cbn [fst snd is_ok].
  - assert (fk_epoch state = rc_source_epoch cursor) as Hep by (by apply observe_stream_accepted in Ho as [? _]).
    rewrite (cursor_at_eta cursor) in Ho |- *. fold key in Ho |- *. rewrite <-Hep in Ho |- *.
    destruct (knows_accept _ _ _ _ _ _ Hk Hseq Ho) as [Hk' Hor]. split; [by apply honest_app|].
    intros key'. destruct (decide (key' = key)) as [-> |Hne]; [by rewrite lookup_insert_eq|].
    rewrite lookup_insert_ne by done. specialize (Hg key').
    assert (∀ i, stream_of (cursor_at key (fk_epoch state) i) ≠ key') as Hs by (intros i; by destruct key).
    destruct (g !! key') as [st|]; [by apply knows_other|].
    intros c v [?|[= -> ->]%list_elem_of_singleton]%elem_of_app; [by eapply Hg|done].
  - apply observe_stream_refused in Ho as (He & Hn & Hh). rewrite app_nil_r. split; [done|].
    intros key'. destruct (decide (key' = key)) as [-> |Hne]; [rewrite lookup_insert_eq|rewrite lookup_insert_ne by done; apply Hg].
    destruct Hk as [K1 K2 K3 K4]. split; rewrite ?He, ?Hn, ?Hh; done.
Qed.

Lemma guarded_new_epoch g log source stream epoch g' :
  guarded g log → start_new_epoch g source stream epoch = Ok g' → guarded g' log.
Proof.
  intros [Hon Hg] Hs. unfold start_new_epoch in Hs. destruct_ok. 
  assert (g' = <[(source, stream) := mkFork epoch 0 ∅ false]> g ∧
    ∀ c h, (c, h) ∈ log → stream_of c = (source, stream) → rc_source_epoch c < epoch) as [-> Hold].
  { specialize (Hg (source, stream)). destruct (g !! (source, stream)) as [st|].
    - case_bool_decide as Hle; [done|]. injection Hs as <-. split; [done|]. intros c h Hin Hk.
      destruct Hg as [Ke _ _ _]. specialize (Ke _ _ Hin Hk). lia.
    - case_bool_decide; [done|]. injection Hs as <-. split; [done|]. intros c h Hin Hk. by apply Hg in Hin. }
  split; [done|]. intros key. destruct (decide (key = (source, stream))) as [-> |Hne].
  - rewrite lookup_insert_eq. by apply knows_new.
  - rewrite lookup_insert_ne by done. apply Hg.
Qed.

(** Positions the wire format can carry. *)
Definition in_range_call (call : ForkCall) : Prop :=
  match call with Observe cursor _ => rc_sequence cursor ≤ i64_max | StartNewEpoch _ _ _ => True end.

Lemma guarded_run g log calls :
  guarded g log → Forall in_range_call calls → guarded (fork_run g calls).1 (log ++ (fork_run g calls).2).
Proof.
  intros Hg Hc. revert g log Hg. induction Hc as [|call calls Hcall Hc IH]; intros g log Hg; cbn; [by rewrite app_nil_r|].
  assert (guarded (fork_call g call).1 (log ++ (fork_call g call).2)) as Hstep.
  { destruct call as [cursor h|source stream epoch]; cbn in *.
    - pose proof (guarded_observe g log cursor h Hg) as Ho. destruct (observe g cursor h) as [g' a]. apply Ho.
      unfold i64_max, u64_max in *. lia.
    - destruct (start_new_epoch g source stream epoch) as [g'|e] eqn:Hs; cbn; rewrite app_nil_r; [|done].
      by eapply guarded_new_epoch. }
  destruct (fork_call g call) as [g' acc]. cbn in Hstep. specialize (IH _ _ Hstep).
  destruct (fork_run g' calls) as [g'' more]. cbn in *. by rewrite app_assoc.
Qed.
End Forks.

(** Whatever calls the fork guard of a repository receives, the records it accepts
    form honest streams: for a source, stream and epoch no position is accepted with two
    different payloads, also after the hash of the first has been dropped from the window of
    1000; epochs never go back; and between two accepted positions of an epoch none is left
    out. *)
Theorem fork_guard_honest calls :
  Forall in_range_call calls → honest (fork_run ∅ calls).2.
Proof.
  intros Hc. apply (guarded_run ∅ [] calls); [|done]. split.
  - split; [by intros c h h' ?%not_elem_of_nil|constructor|]. by intros key e i j k h h' ?%not_elem_of_nil.
  - intros key. rewrite lookup_empty. by intros c h ?%not_elem_of_nil.
Qed.

(** ** Deletions wait for the repositories *)

Section Tombstones.
Implicit Types (l : TombstoneLedger) (key : ReplicaRecordKey) (state : TombstoneState).

Inductive LedgerCall : Type :=
  | Tombstone (key : ReplicaRecordKey) (now : N) (ready : list string)
  | Acknowledge (key : ReplicaRecordKey) (repository_id : string)
  | Expire (now : N)
  | Reconcile (ready : list string).

(** The ledger after the call; a refused call leaves it as it is. *)
Definition ledger_call l (call : LedgerCall) : TombstoneLedger :=
  match call with
  | Tombstone key now ready => match tombstone l key now ready with Ok l' => l' | Err _ => l end
  | Acknowledge key repository_id => match acknowledge l key repository_id with Ok l' => l' | Err _ => l end
  | Expire now => (expire l now).1
  | Reconcile ready => match reconcile_ready_repositories l ready with Ok l' => l' | Err _ => l end
  end.

Lemma tombstone_keys_in l key : key ∈ tombstone_keys l ↔ is_Some (tombstones l !! key).
Proof. unfold tombstone_keys. by rewrite sorted_in, elem_of_elements, elem_of_dom. Qed.

Lemma keys_where_in f l key : key ∈ keys_where f l ↔ ∃ state, tombstones l !! key = Some state ∧ f state = true.
Proof.
  unfold keys_where. rewrite list_elem_of_filter, tombstone_keys_in. split.
  - intros [Hf [state Hs]]. rewrite Hs in Hf. eauto.
  - intros (state & Hs & Hf). rewrite Hs. eauto.
Qed.

Lemma keys_where_ascending f l : StronglySorted below (keys_where f l).
Proof.
  unfold keys_where, tombstone_keys. pose proof (sorted_ascending _ (NoDup_elements (dom (tombstones l)))) as Hs.
  induction Hs as [|k ks Hs IH Hk]; [constructor|]. rewrite filter_cons. case_decide; [|done]. constructor; [done|].
  rewrite Forall_forall in Hk |- *. intros k' [_ Hin]%list_elem_of_filter. by apply Hk.
Qed.

Lemma allows_false l key k : is_Some (tombstones l !! key) → covers key k = true → allows l k = false.
Proof.
  intros Hs Hc. unfold allows. apply negb_false_iff, existsb_exists. exists key.
  split; [by apply list_elem_of_In, tombstone_keys_in|done].
Qed.

Lemma foldl_delete_lookup (ks : list ReplicaRecordKey) (m : gmap ReplicaRecordKey TombstoneState) key :
  foldl (λ m k, delete k m) m ks !! key = if decide (key ∈ ks) then None else m !! key.
Proof.
  revert m. induction ks as [|k ks IH]; intros m; cbn [foldl]; [by rewrite decide_False by apply not_elem_of_nil|].
  rewrite IH. destruct (decide (key = k)) as [-> |Hne].
  - rewrite lookup_delete_eq. rewrite (decide_True (P := k ∈ k :: ks)) by left. by case_decide.
  - rewrite lookup_delete_ne by done. repeat case_decide; try done; set_solver.
Qed.

Lemma expire_lookup l now key :
  tombstones (expire l now).1 !! key =
    match tombstones l !! key with
    | Some state => if bool_decide (expires_at state ≤ now) && all_acknowledged state then None else Some state
    | None => None
    end.
Proof.
  unfold expire. cbn. rewrite foldl_delete_lookup. case_decide as Hin.
  - apply keys_where_in in Hin as (state & Hs & Hf). by rewrite Hs, Hf.
  - destruct (tombstones l !! key) as [state|] eqn:Hs; [|done].
    destruct (_ && _) eqn:Hf; [|done]. exfalso. apply Hin, keys_where_in. eauto.
Qed.

Lemma repository_set_in ready s : repository_set ready = Ok s → ∀ r, r ∈ s ↔ r ∈ ready.
Proof.
  intros Hs r. cut (r ∈ s ↔ r ∈ (∅ : gset string) ∨ r ∈ ready); [set_solver|].
  revert Hs. unfold repository_set. generalize (∅ : gset string).
  induction ready as [|x ready IH]; intros acc; cbn; [intros [= ->]; set_solver|].
  destruct (validate_identifier x); cbn; [|done]. destruct (_ && _); cbn; [done|].
  intros Hs. rewrite (IH _ Hs). set_solver.
Qed.

(** The ledger still has the deletion, in a state that satisfies [P]. *)
Definition holds (P : TombstoneState → Prop) l key : Prop := ∃ state, tombstones l !! key = Some state ∧ P state.

(** What the calls do to the state of a deletion that is there. *)
Lemma ledger_call_holds (P : TombstoneState → Prop) l key call :
  holds P l key →
  (∀ state now more, P state → P (state <| expires_at ::= N.max (sat_add u64_max now (horizon_seconds l)) |>
                                        <| ready_repositories ::= union more |>)) →
  (∀ state r, call = Acknowledge key r → P state → P (state <| acknowledgements ::= union {[r]} |>)) →
  (∀ state now, call = Expire now → P state → expires_at state ≤ now → all_acknowledged state = true → False) →
  (∀ state ready current, call = Reconcile ready → (∀ r, r ∈ current ↔ r ∈ ready) → P state →
     P (state <| ready_repositories ::= λ r, current ∪ filter (λ x, x ∈ current) r |>
              <| acknowledgements ::= filter (λ x, x ∈ current) |>)) →
  holds P (ledger_call l call) key.
Proof.
  intros (state & Hs & HP) Htomb Hack Hexp Hrec. unfold holds. destruct call as [k now ready|k r|now|ready]; cbn [ledger_call].
  - unfold tombstone. destruct (repository_set ready); cbn; [|eauto]. case_bool_decide; [eauto|]. destruct (_ && _); [eauto|].
    destruct (tombstones l !! k) as [state'|] eqn:Hk; cbn; (destruct (decide (k = key)) as [-> |Hne];
      [rewrite lookup_insert_eq|rewrite lookup_insert_ne by done; by eauto]); [|congruence].
    eexists. split; [done|]. rewrite Hs in Hk. injection Hk as <-. by apply Htomb.
  - unfold acknowledge. destruct (validate_identifier r); cbn; [|eauto].
    destruct (tombstones l !! k) as [state'|] eqn:Hk; [|eauto]. case_bool_decide; [|eauto]. cbn.
    destruct (decide (k = key)) as [-> |Hne]; [rewrite lookup_insert_eq|rewrite lookup_insert_ne by done; by eauto].
    eexists. split; [done|]. rewrite Hs in Hk. injection Hk as <-. by eapply Hack.
  - rewrite expire_lookup, Hs. destruct (_ && _) eqn:Hb; [|eauto].
    apply andb_true_iff in Hb as [Hle%bool_decide_eq_true Hset]. exfalso. by eapply Hexp.
  - unfold reconcile_ready_repositories. destruct (repository_set ready) as [current|] eqn:Hc; cbn; [|eauto].
    rewrite lookup_fmap, Hs. cbn. eexists. split; [done|]. eapply Hrec; [done|by apply repository_set_in|done].
Qed.

(** The repository has the deletion to acknowledge, and has not. *)
Definition awaits (r : string) state : Prop := r ∈ ready_repositories state ∧ r ∉ acknowledgements state.

Lemma awaits_call r l key call :
  holds (awaits r) l key → call ≠ Acknowledge key r → (∀ ready, call = Reconcile ready → r ∈ ready) →
  holds (awaits r) (ledger_call l call) key.
Proof.
  intros Hh Hack Hrec. apply ledger_call_holds; [done|..]; unfold awaits; cbn.
  - set_solver.
  - intros state r' -> [? ?]. split; [done|]. intros [->%elem_of_singleton|?]%elem_of_union; done.
  - intros state now _ [H1 H2] _ Hs. unfold all_acknowledged in Hs. apply bool_decide_eq_true in Hs. set_solver.
  - intros state ready current -> Hc [H1 H2]. specialize (Hrec _ eq_refl). apply Hc in Hrec. set_solver.
Qed.

Lemma lasts_call t l key call :
  holds (λ state, t ≤ expires_at state) l key → (∀ now, call = Expire now → now < t) →
  holds (λ state, t ≤ expires_at state) (ledger_call l call) key.
Proof.
  intros Hh Hexp. apply ledger_call_holds; [done|..]; cbn; [lia|done| |done].
  intros state now Hc ? ? _. specialize (Hexp _ Hc). lia.
Qed.

(** The calls leave the deletion waiting for [r]: it does not acknowledge, and stays ready. *)
Definition silent (key : ReplicaRecordKey) (r : string) (calls : list LedgerCall) : Prop :=
  Acknowledge key r ∉ calls ∧ ∀ ready, Reconcile ready ∈ calls → r ∈ ready.
Definition early (t : N) (calls : list LedgerCall) : Prop := ∀ now, Expire now ∈ calls → now < t.

Lemma awaits_run r l key calls : holds (awaits r) l key → silent key r calls → holds (awaits r) (foldl ledger_call l calls) key.
Proof.
  revert l. induction calls as [|call calls IH]; intros l Hh [Ha Hr]; cbn; [done|]. apply IH.
  - apply awaits_call; [done|set_solver|]. intros ready ->. apply Hr. left.
  - split; [set_solver|]. intros ready Hin. apply Hr. by right.
Qed.
Lemma lasts_run t l key calls : holds (λ state, t ≤ expires_at state) l key → early t calls →
  holds (λ state, t ≤ expires_at state) (foldl ledger_call l calls) key.
Proof.
  revert l. induction calls as [|call calls IH]; intros l Hh Hc; cbn; [done|]. apply IH.
  - apply lasts_call; [done|]. intros now ->. apply Hc. left.
  - intros now Hin. apply Hc. by right.
Qed.
Lemma holds_forbids P l key k : holds P l key → covers key k = true → allows l k = false.
Proof. intros (state & Hs & _). by apply allows_false. Qed.
End Tombstones.

(** A deletion recorded at [now] is not forgotten early: through any calls of the ledger
    the records it covers stay refused as long as one of the repositories that were ready
    neither acknowledges it nor leaves the ready set, and in any case until the horizon has
    passed; and once every ready repository has acknowledged it, the first expiry at or after
    its end drops it. *)
Theorem deletion_waits l key now ready l' calls r :
  tombstone l key now ready = Ok l' →
  ((r ∈ ready ∧ (∀ state, tombstones l !! key = Some state → r ∉ acknowledgements state) ∧ silent key r calls) ∨
   early (sat_add u64_max now (horizon_seconds l)) calls →
   ∀ k, covers key k = true → allows (foldl ledger_call l' calls) k = false) ∧
  (∀ state later, tombstones (foldl ledger_call l' calls) !! key = Some state → all_acknowledged state = true → expires_at state ≤ later →
   tombstones (expire (foldl ledger_call l' calls) later).1 !! key = None).
Proof.
  intros Ht. split.
  - assert (∃ state, tombstones l' !! key = Some state ∧ sat_add u64_max now (horizon_seconds l) ≤ expires_at state ∧
      (∀ x, x ∈ ready → x ∈ ready_repositories state) ∧
      acknowledgements state = from_option acknowledgements ∅ (tombstones l !! key)) as (state & Hs & Hexp & Hready & Hacks).
    { unfold tombstone in Ht. destruct (repository_set ready) as [rs|] eqn:Hrs; [|done]. cbn in Ht.
      pose proof (repository_set_in _ _ Hrs) as Hin. case_bool_decide; [done|]. destruct (_ && _); [done|].
      destruct (tombstones l !! key) as [state|]; injection Ht as <-; cbn; rewrite lookup_insert_eq;
        (eexists; split; [done|]); cbn; (split; [lia|split; [|done]]); set_solver. }
    intros [(Hr & Hnot & Hsil)|Hearly] k Hk.
    + eapply (holds_forbids (awaits r)); [|done]. apply awaits_run; [|done]. exists state. split; [done|]. split; [by apply Hready|].
      rewrite Hacks. destruct (tombstones l !! key) as [st|]; [by apply Hnot|cbn; set_solver].
    + eapply holds_forbids; [|done]. eapply lasts_run; [|done]. by exists state.
  - intros state later Hs Hset Hle. rewrite expire_lookup, Hs, Hset. by rewrite bool_decide_true.
Qed.

(** ** The rotation of acknowledgements *)

Section Rotation.
Context (l : TombstoneLedger) (repository_id : string) (limit : nat).
Context (Hid : validate_identifier repository_id = Ok ()) (Hlimit : (0 < limit)%nat).

(** The keys announced in [n] deliveries, the cursor following the last one of each. *)
Fixpoint deliveries (n : nat) (after : option ReplicaRecordKey) : list ReplicaRecordKey :=
  match n with
  | O => []
  | S n =>
      match acknowledgement_keys_for l repository_id after limit with
      | Ok keys => keys ++ deliveries n (last keys)
      | Err _ => []
      end
  end.

Let all := keys_where (acknowledged_by repository_id) l.

(** The keys above the cursor. *)
Definition rest_of (after : option ReplicaRecordKey) : list ReplicaRecordKey :=
  match after with None => all | Some cursor => filter (λ key, below cursor key) all end.

Lemma page_step after :
  acknowledgement_keys_for l repository_id after limit =
    Ok (take limit (if decide (rest_of after = []) then all else rest_of after)).
Proof.
  unfold acknowledgement_keys_for. rewrite Hid. destruct limit as [|n] eqn:Hn; [lia|]. cbn [rbind]. f_equal.
  fold all. change (match after with Some cursor => _ | None => all end) with (rest_of after).
  destruct (decide (rest_of after = [])) as [E|E].
  - rewrite E. rewrite take_nil. rewrite (bool_decide_true ([] = [])) by done. cbn [andb]. destruct after; [done|].
    cbn in E. rewrite E. done.
  - rewrite (bool_decide_false (take _ _ = [])); [done|]. by destruct (rest_of after).
Qed.

(** The keys above the last one of a page of a part of [all] at its end. *)
Lemma rest_of_page pre part : all = pre ++ part → part ≠ [] → rest_of (last (take limit part)) = drop limit part.
Proof.
  intros Hall Hne. assert (take limit part ≠ []) as Hp by (destruct part, limit; [done|done|lia|done]).
  destruct (last (take limit part)) as [k|] eqn:Hk; [|by apply last_None in Hk]. apply last_Some in Hk as [init Hk]. cbn.
  eapply (ascending_split _ (pre ++ init)); [apply keys_where_ascending|]. fold all. rewrite Hall, <-(take_drop limit part) at 1.
  rewrite Hk. by rewrite <-!app_assoc.
Qed.

Lemma rest_of_suffix after : ∃ pre, all = pre ++ rest_of after.
Proof.
  destruct after as [k|]; [|by exists []]. cbn. pose proof (keys_where_ascending (acknowledged_by repository_id) l) as Hs. fold all in Hs.
  induction Hs as [|x xs Hs IH Hx]; [by exists []|]. rewrite filter_cons. case_decide as Hkx.
  - exists []. cbn. f_equal. assert (∀ ys, Forall (below k) ys → filter (λ y, below k y) ys = ys) as Hall.
    { induction 1 as [|y ys Hy _ IHy]; [done|]. by rewrite filter_cons_True, IHy. }
    symmetry. apply Hall. rewrite Forall_forall in Hx |- *. intros y Hy. etrans; [exact Hkx|by apply Hx].
  - destruct IH as [pre IH]. exists (x :: pre). cbn. by f_equal.
Qed.

Lemma deliveries_rest n after key : key ∈ rest_of after → (length (rest_of after) ≤ n)%nat → key ∈ deliveries n after.
Proof.
  revert after. induction n as [|n IH]; intros after Hin Hn.
  - destruct (rest_of after); [by apply not_elem_of_nil in Hin|cbn in Hn; lia].
  - cbn. rewrite page_step. assert (rest_of after ≠ []) as Hne by (intros E; rewrite E in Hin; by apply not_elem_of_nil in Hin).
    rewrite decide_False by done. apply elem_of_app. rewrite <-(take_drop limit (rest_of after)) in Hin.
    apply elem_of_app in Hin as [?|Hin]; [by left|right]. destruct (rest_of_suffix after) as [pre Hpre].
    apply IH; rewrite (rest_of_page pre) by done; [done|]. rewrite length_drop. lia.
Qed.

Lemma deliveries_all n after key : key ∈ all → (length (rest_of after) + length all ≤ n)%nat → key ∈ deliveries n after.
Proof.
  revert after. induction n as [|n IH]; intros after Hin Hn.
  - destruct all; [by apply not_elem_of_nil in Hin|cbn in Hn; lia].
  - cbn. rewrite page_step. apply elem_of_app. destruct (rest_of_suffix after) as [pre Hpre].
    destruct (decide (rest_of after = [])) as [E|E].
    + rewrite <-(take_drop limit all) in Hin. apply elem_of_app in Hin as [?|Hin]; [by left|right].
      assert (all ≠ []) as Hne by (intros E'; rewrite E', drop_nil in Hin; by apply not_elem_of_nil in Hin).
      apply deliveries_rest; rewrite (rest_of_page []) by done; [done|]. rewrite length_drop. lia.
    + right. apply IH; [done|]. rewrite (rest_of_page pre), length_drop by done.
      assert (0 < length (rest_of after))%nat by (destruct (rest_of after); [done|cbn; lia]). lia.
Qed.
End Rotation.

(** The acknowledgements a repository has given are announced to its peers page by page,
    and none is left out: from any cursor, also one of a deletion that is gone, twice as many
    deliveries as there are acknowledgements announce every one of them. *)
Theorem acknowledgements_rotate l repository_id limit after key state :
  validate_identifier repository_id = Ok () → (0 < limit)%nat →
  tombstones l !! key = Some state → repository_id ∈ acknowledgements state →
  key ∈ deliveries l repository_id limit (2 * length (keys_where (acknowledged_by repository_id) l)) after.
Proof.
  intros Hid Hlimit Hs Hr. apply deliveries_all; [done|done| |].
  - apply keys_where_in. exists state. split; [done|]. by apply bool_decide_eq_true.
  - destruct (rest_of_suffix l repository_id after) as [pre Hpre]. apply (f_equal length) in Hpre. rewrite length_app in Hpre. lia.
Qed.

(** ** Checkpoints *)

Lemma checkpoint_roundtrip l :
  N.of_nat (size (tombstones l)) ≤ MAX_TOMBSTONES → from_checkpoint (checkpoint l) = Ok l.
Proof.
  intros Hsize. unfold from_checkpoint, checkpoint. cbn [tc_entries tc_horizon_seconds].
  rewrite bool_decide_false by (rewrite entries_length; lia).
  rewrite try_fold_insert; [by destruct l|]. intros acc k v _ Hacc. cbn. by rewrite bool_decide_false by (rewrite Hacc; by intros []).
Qed.

(** ** Collectors under change *)

Section Rendezvous.
Context `{RendezvousScore}.
Implicit Types (source : string) (rs : list string) (s : gset string).

#[local] Notation collect start rs := (try_fold (λ (acc : gset string) repository,
    let? _ := validate_identifier repository in
    if bool_decide (repository ∉ acc) && bool_decide (N.of_nat (size acc) = MAX_REPOSITORIES) then Err RepositoryBacklogFull
    else if bool_decide (repository ∈ acc) then Err DuplicateRepository
    else Ok ({[repository]} ∪ acc)) start rs).

(** Repositories that can be ranked: distinct, well-formed, and not too many. *)
Definition rankable rs : Prop :=
  NoDup rs ∧ Forall (λ r, validate_identifier r = Ok ()) rs ∧ N.of_nat (length rs) ≤ MAX_REPOSITORIES.

Lemma collect_spec rs s s' :
  N.of_nat (size s) ≤ MAX_REPOSITORIES →
  collect s rs = Ok s' ↔
  NoDup rs ∧ Forall (λ r, validate_identifier r = Ok ()) rs ∧ N.of_nat (size s + length rs) ≤ MAX_REPOSITORIES ∧
  (∀ r, r ∈ rs → r ∉ s) ∧ s' = list_to_set rs ∪ s.
Proof.
  revert s. induction rs as [|r rs IH]; intros s Hs; cbn [try_fold length list_to_set].
  - rewrite (left_id_L ∅ (∪)). split.
    + intros [= ->]. split_and!; [constructor|constructor|lia|by intros ? ?%not_elem_of_nil|done].
    + by intros (_ & _ & _ & _ & ->).
  - rewrite NoDup_cons, Forall_cons. destruct (validate_identifier r) as [[]|e] eqn:Hv; cbn [rbind].
    2:{ split; [done|]. by intros (_ & [? _] & _). }
    destruct (decide (r ∈ s)) as [Hr|Hr].
    { rewrite (bool_decide_false (r ∉ s)), (bool_decide_true (r ∈ s)) by auto. cbn. split; [done|].
      intros (_ & _ & _ & Hno & _). by destruct (Hno r); [left|]. }
    rewrite (bool_decide_true (r ∉ s)), (bool_decide_false (r ∈ s)) by done. cbn [andb].
    assert (size ({[r]} ∪ s) = S (size s)) as Hsz by (rewrite size_union, size_singleton by set_solver; done).
    case_bool_decide as Hfull; cbn [rbind]; [split; [done|]; intros (_ & _ & ? & _); lia|].
    rewrite IH by lia. rewrite Hsz. split.
    + intros (? & ? & ? & Hno & ->). split_and!; [set_solver|done|done|done|lia|set_solver|set_solver].
    + intros ([? ?] & [? ?] & ? & Hno & ->). split_and!; [done|done|lia|set_solver|set_solver].
Qed.

Lemma collect_rankable rs s : collect ∅ rs = Ok s ↔ rankable rs ∧ s = list_to_set rs.
Proof.
  rewrite collect_spec by (rewrite size_empty; done). unfold rankable. rewrite size_empty, (right_id_L ∅ (∪)). set_solver.
Qed.

Lemma collectors_ranked source rs :
  validate_identifier source = Ok () → rankable rs →
  rendezvous_collectors source rs =
    match ranked source (list_to_set rs) with [] => Err EmptyRepositories | p :: rest => Ok (mkAssignment p (head rest)) end.
Proof.
  intros Hv Hr. unfold rendezvous_collectors. rewrite Hv. cbn [rbind].
  rewrite (proj2 (collect_rankable rs (list_to_set rs))) by done. done.
Qed.

Lemma collectors_inv source rs a :
  rendezvous_collectors source rs = Ok a → validate_identifier source = Ok () ∧ rankable rs.
Proof.
  unfold rendezvous_collectors. destruct (validate_identifier source) as [[]|]; [|done]. cbn [rbind].
  destruct (collect ∅ rs) as [s|] eqn:Hc; [|done]. by apply collect_rankable in Hc as [? _].
Qed.

(** Removing a repository leaves the others in their order. *)
Lemma ranked_remove source s x : ranked source (s ∖ {[x]}) = filter (λ r, r ≠ x) (ranked source s).
Proof.
  unfold ranked. set (f := λ r, (rendezvous_score source r, r)).
  assert (∀ l : list (N * string), (reverse l).*2 = reverse l.*2) as Hrev by (intros l; by rewrite fmap_reverse).
  rewrite !Hrev. assert (∀ l : list string, filter (λ r, r ≠ x) (reverse l) = reverse (filter (λ r, r ≠ x) l)) as Hfr.
  { induction l as [|y l IH]; [done|]. rewrite reverse_cons, filter_app, IH, !filter_cons, filter_nil. case_decide; [by rewrite reverse_cons|by rewrite app_nil_r]. }
  rewrite Hfr. f_equal.
  assert (filter (λ r, r ≠ x) (sorted (map f (elements s))).*2 = (filter (λ p, p.2 ≠ x) (sorted (map f (elements s)))).*2) as ->.
  { induction (sorted (map f (elements s))) as [|y l IH]; [done|]. rewrite fmap_cons, !filter_cons.
    case_decide; rewrite ?fmap_cons; by rewrite IH. }
  f_equal. assert (∀ ks : list string, NoDup ks → NoDup (map f ks)) as Hnd by (intros; by apply NoDup_fmap_2; [intros ?? [= _ ?]|]).
  assert (StronglySorted below (filter (λ p, p.2 ≠ x) (sorted (map f (elements s))))) as Hs.
  { pose proof (sorted_ascending _ (Hnd _ (NoDup_elements s))) as Hs. induction Hs as [|y l Hs IH Hy]; [constructor|].
    rewrite filter_cons. case_decide; [|done]. constructor; [done|]. rewrite Forall_forall in Hy |- *.
    intros z [_ Hz]%list_elem_of_filter. by apply Hy. }
  rewrite <-(sorted_id _ Hs). apply sorted_ext. rewrite sorted_perm.
  apply NoDup_Permutation; [apply Hnd, NoDup_elements|apply NoDup_filter, Hnd, NoDup_elements|].
  intros [n r]. rewrite list_elem_of_filter, !list_elem_of_fmap. setoid_rewrite elem_of_elements. unfold f. set_solver.
Qed.

Lemma rankable_filter rs x : rankable rs → rankable (filter (λ r, r ≠ x) rs).
Proof.
  intros (Hnd & Hv & Hlen). split_and!; [by apply NoDup_filter| |].
  { rewrite Forall_forall in Hv |- *. intros r [_ Hr]%list_elem_of_filter. by apply Hv. }
  pose proof (length_filter (λ r, r ≠ x) rs). lia.
Qed.

Lemma collectors_remove source rs x :
  validate_identifier source = Ok () → rankable rs →
  rendezvous_collectors source (filter (λ r, r ≠ x) rs) =
    match filter (λ r, r ≠ x) (ranked source (list_to_set rs)) with
    | [] => Err EmptyRepositories
    | p :: rest => Ok (mkAssignment p (head rest))
    end.
Proof.
  intros Hv Hr. rewrite collectors_ranked; [|done|by apply rankable_filter]. rewrite <-ranked_remove.
  replace (list_to_set (filter (λ r, r ≠ x) rs) : gset string) with (list_to_set rs ∖ {[x]} : gset string); [done|].
  apply set_eq. intros y. rewrite elem_of_difference, !elem_of_list_to_set, list_elem_of_filter. set_solver.
Qed.

Lemma ranked_perm source s : ranked source s ≡ₚ elements s.
Proof.
  unfold ranked. rewrite reverse_Permutation, sorted_perm, <-list_fmap_compose.
  induction (elements s) as [|x l IH]; [done|]. cbn. by rewrite IH.
Qed.
Lemma ranked_nodup source s : NoDup (ranked source s).
Proof. rewrite ranked_perm. apply NoDup_elements. Qed.
Lemma ranked_best source s p rest r :
  ranked source s = p :: rest → r ∈ s → rendezvous_score source r ≤ rendezvous_score source p.
Proof.
  unfold ranked. set (l := map _ (elements s)). intros Hp Hr.
  assert ((rendezvous_score source r, r) ∈ sorted l) as Hin.
  { rewrite sorted_in. unfold l. apply list_elem_of_fmap. exists r. split; [done|]. by apply elem_of_elements. }
  assert (∀ q, q ∈ sorted l → q = (rendezvous_score source q.2, q.2)) as Hl.
  { intros q. rewrite sorted_in. unfold l. by intros (y & -> & _)%list_elem_of_fmap. }
  pose proof (StronglySorted_merge_sort upto l) as Hs. fold (sorted l) in Hs.
  destruct (reverse (sorted l)) as [|q qs] eqn:Hrev; [done|]. injection Hp as <- <-.
  apply (f_equal reverse) in Hrev. rewrite reverse_involutive, reverse_cons in Hrev.
  assert (q ∈ sorted l) as Hq by (rewrite Hrev; set_solver). rewrite (Hl q Hq) in Hrev.
  rewrite Hrev in Hin, Hs. apply elem_of_app in Hin as [Hin|Hin%list_elem_of_singleton]; [|injection Hin as _ ->; lia].
  pose proof (StronglySorted_app_1_elem_of _ _ _ _ _ Hs Hin (list_elem_of_here _ _)) as Hle.
  unfold upto in Hle. cbn in Hle. destruct (N.compare_spec (rendezvous_score source r) (rendezvous_score source q.2)); (done || lia).
Qed.
End Rendezvous.

(** The collectors of a source follow the repositories with no more change than needed:
    the order in which the repositories are listed does not matter; the primary has the
    highest score; a repository that is neither primary nor standby can go without changing
    the assignment, the standby can go without changing the primary, and when the primary
    goes the standby takes its place. *)
Theorem collectors_stable `{RendezvousScore} source rs a :
  rendezvous_collectors source rs = Ok a →
  (∀ rs', rs' ≡ₚ rs → rendezvous_collectors source rs' = Ok a) ∧
  (primary a ∈ rs ∧ ∀ r, r ∈ rs → rendezvous_score source r ≤ rendezvous_score source (primary a)) ∧
  (∀ x, x ≠ primary a →
     ∃ a', rendezvous_collectors source (filter (λ r, r ≠ x) rs) = Ok a' ∧ primary a' = primary a ∧
           (standby a ≠ Some x → a' = a)) ∧
  (∀ x, standby a = Some x →
     ∃ a', rendezvous_collectors source (filter (λ r, r ≠ primary a) rs) = Ok a' ∧ primary a' = x).
Proof.
  intros Ha. destruct (collectors_inv _ _ _ Ha) as [Hv Hr]. rewrite collectors_ranked in Ha by done.
  pose proof (ranked_perm source (list_to_set rs)) as Hperm. pose proof (ranked_nodup source (list_to_set rs)) as Hnd.
  pose proof (λ x, collectors_remove source rs x Hv Hr) as Hrem.
  destruct (ranked source (list_to_set rs)) as [|p rest] eqn:Hrk; [done|]. injection Ha as <-. cbn [primary standby].
  apply NoDup_cons in Hnd as [Hp Hnd]. split_and!.
  - intros rs' Hp'. rewrite collectors_ranked; [|done|].
    + assert ((list_to_set rs' : gset string) = list_to_set rs) as ->; [|by rewrite Hrk].
      apply set_eq. intros y. by rewrite !elem_of_list_to_set, Hp'.
    + destruct Hr as (? & ? & ?). unfold rankable. by rewrite Hp'.
  - assert (p ∈ elements (list_to_set rs : gset string)) as Hin by (rewrite <-Hperm; left).
    by rewrite elem_of_elements, elem_of_list_to_set in Hin.
  - intros r Hin. eapply ranked_best; [exact Hrk|by apply elem_of_list_to_set].
  - intros x Hx. rewrite Hrem, filter_cons_True by done. eexists. split_and!; [done|done|]. intros Hs.
    destruct rest as [|y rest]; [done|]. cbn [head] in Hs. by rewrite filter_cons_True by congruence.
  - intros x Hx. rewrite Hrem, filter_cons_False by naive_solver. destruct rest as [|y rest]; [done|]. injection Hx as ->.
    rewrite filter_cons_True by set_solver. by eexists.
Qed.

(** ** Examples *)

Module ReplicaSample.

Definition part : ReplicaPartition := mkPartition "node-a" 3 "runtime" 0.
Definition ours : list PartitionSummary := [mkSummary part 0 1499 "h1" 1500].
Definition theirs : list PartitionSummary := [mkSummary part 500 2999 "h2" 2500].

Lemma summaries_well_formed : Forall well_formed (ours ++ theirs).
Proof. repeat constructor; unfold u64_max; cbn; lia. Qed.

(** Three ranges repair the span of both sides. *)
Lemma plan_ours_theirs :
  between ours theirs = Ok (mkPlan [mkRange part 0 999; mkRange part 1000 1999; mkRange part 2000 2999]).
Proof. vm_compute. reflexivity. Qed.

Lemma repair_plan_exact_witness : repairs [mkRange part 0 999; mkRange part 1000 1999; mkRange part 2000 2999] part 1200.
Proof.
  pose proof (repair_plan_exact ours theirs summaries_well_formed) as H. rewrite plan_ours_theirs in H.
  destruct H as (_ & _ & H & _). apply H. split.
  - intros Ha. destruct (Ha (mkSummary part 0 1499 "h1" 1500) eq_refl) as [Hin _].
    apply list_elem_of_singleton in Hin; [discriminate Hin|left].
  - exists (mkSummary part 0 1499 "h1" 1500), (mkSummary part 0 1499 "h1" 1500).
    split_and!; [left|left|reflexivity|reflexivity|cbn; lia|cbn; lia].
Defined.

(** A stream that is rewritten, quarantined and started again. *)
Definition fork_calls : list ForkCall :=
  [Observe (mkCursor "node-a" 3 "runtime" 7) "x"; Observe (mkCursor "node-a" 3 "runtime" 8) "y";
   Observe (mkCursor "node-a" 3 "runtime" 7) "z"; Observe (mkCursor "node-a" 3 "runtime" 9) "w";
   StartNewEpoch "node-a" "runtime" 4; Observe (mkCursor "node-a" 4 "runtime" 0) "v"].

Lemma fork_calls_in_range : Forall in_range_call fork_calls.
Proof. unfold fork_calls. repeat (apply Forall_cons; split; [done|]). apply Forall_nil. exact I. Qed.

Lemma fork_guard_honest_witness : honest
  [(mkCursor "node-a" 3 "runtime" 7, "x"); (mkCursor "node-a" 3 "runtime" 8, "y"); (mkCursor "node-a" 4 "runtime" 0, "v")].
Proof.
  assert ((fork_run ∅ fork_calls).2 =
    [(mkCursor "node-a" 3 "runtime" 7, "x"); (mkCursor "node-a" 3 "runtime" 8, "y"); (mkCursor "node-a" 4 "runtime" 0, "v")])
    as <- by (vm_compute; reflexivity).
  exact (fork_guard_honest fork_calls fork_calls_in_range).
Defined.

Definition deleted : ReplicaRecordKey := mkRecordKey "node-a" 3 "tombstone" 12 "node-a" "node-a" "runtime.v1" 1 "day-5:".
Definition resent : ReplicaRecordKey := mkRecordKey "node-a" 3 "runtime" 4 "node-a" "node-a" "runtime.v1" 1 "day-5:03".
Definition empty_ledger : TombstoneLedger := tombstones_new 100.
Definition after_ok (r : result TombstoneLedger ReplicaError) : TombstoneLedger :=
  match r with Ok l => l | Err _ => empty_ledger end.
Definition with_deletion : TombstoneLedger := after_ok (tombstone empty_ledger deleted 1000 ["repo-1"; "repo-2"]).
Definition one_ack : list LedgerCall := [Acknowledge deleted "repo-1"; Expire 5000; Reconcile ["repo-2"; "repo-3"]; Expire 6000].

Lemma with_deletion_eq : tombstone empty_ledger deleted 1000 ["repo-1"; "repo-2"] = Ok with_deletion.
Proof.
  assert (is_ok (tombstone empty_ledger deleted 1000 ["repo-1"; "repo-2"]) = true) as H by (vm_compute; reflexivity).
  unfold with_deletion. destruct (tombstone _ _ _ _); [reflexivity|discriminate H].
Qed.

Lemma one_ack_silent : silent deleted "repo-2" one_ack.
Proof.
  unfold silent, one_ack. rewrite !not_elem_of_cons. split; [split_and!; try discriminate; apply not_elem_of_nil|].
  intros ready H. rewrite !elem_of_cons in H. destruct H as [H|[H|[H|[H|H]]]]; try discriminate; [|by apply not_elem_of_nil in H].
  injection H as ->. left.
Qed.

(** The record the deletion covers is refused as long as the second repository is silent. *)
Lemma deletion_waits_witness : allows (foldl ledger_call with_deletion one_ack) resent = false.
Proof.
  destruct (deletion_waits empty_ledger deleted 1000 ["repo-1"; "repo-2"] with_deletion one_ack "repo-2" with_deletion_eq) as [H _].
  apply H; [|vm_compute; reflexivity]. left. split; [right; left|]. split; [by intros st|exact one_ack_silent].
Defined.

Definition acked_ledger : TombstoneLedger := foldl ledger_call with_deletion [Acknowledge deleted "repo-1"].

Lemma acknowledgements_rotate_witness : deleted ∈ deliveries acked_ledger "repo-1" 1 2 (Some resent).
Proof.
  apply (acknowledgements_rotate acked_ledger "repo-1" 1 (Some resent) deleted
    (mkTombstone 1000 1100 {["repo-1"; "repo-2"]} {["repo-1"]})); [vm_compute; reflexivity|lia|vm_compute; reflexivity|].
  exact eq_refl.
Defined.

(** Scores by length, for the example. *)
#[local] Instance length_score : RendezvousScore := λ _ r, N.of_nat (String.length r).

Lemma collectors_stable_witness : ∃ a, rendezvous_collectors "node-a" ["r-1"; "r-333"; "r-22"] = Ok a ∧
  ∃ a', rendezvous_collectors "node-a" ["r-1"; "r-22"] = Ok a' ∧ standby a = Some (primary a').
Proof.
  assert (rendezvous_collectors "node-a" ["r-1"; "r-333"; "r-22"] = Ok (mkAssignment "r-333" (Some "r-22"))) as Ha
    by (vm_compute; reflexivity).
  exists (mkAssignment "r-333" (Some "r-22")). split; [exact Ha|].
  destruct (collectors_stable "node-a" _ _ Ha) as (_ & _ & _ & H). destruct (H "r-22" eq_refl) as (a' & Ha' & Hp).
  exists a'. split; [exact Ha'|]. cbn. by rewrite Hp.
Defined.

End ReplicaSample.
