(* ===== verification/HistorySync.v ===== *)
(** * Signed history segments and their receiver

    [src/history_sync]: the segments of history a source signs and the form they take on the
    wire ([protocol.rs]), the receiver that accepts them stream by stream, and its checkpoint
    ([protocol/checkpoint.rs]).

    Not under [src] are the protobuf codec, SHA-256 and Ed25519: they are parameters with the
    documented laws the code relies on. *)

From S2P Require Import Prelude Text Search Ordered Repository.
Open Scope string_scope.
Open Scope list_scope.
Open Scope N_scope.

(** ** Errors *)

Inductive ProtocolError : Type :=
  | InvalidSegment (reason : string)
  | SegmentRecordLimit (actual : N)
  | SegmentCanonicalLimit (actual : N)
  | SegmentDurationLimit
  | ResponseCanonicalLimit (actual : N)
  | WireLimit (actual : N)
  | CompressionFailed
  | CompressionExpansionLimit
  | InvalidWire
  | NonCanonicalWire
  | InvalidSignature
  | InvalidSigningKey
  | SourceIdentityMismatch
  | ClusterMismatch
  | UnknownSchemaBacklogFull
  | CursorIdentityMismatch
  | SequenceGap (expected actual : N)
  | EpochGap (expected actual : N)
  | HashChainMismatch
  | ForkDetected (next_epoch : N)
  | Quarantined
  | ResurrectionPrevented
  | CheckpointLimit
  | EncodingDecision.
#[global] Instance ProtocolError_eq_dec : EqDecision ProtocolError.
Proof. solve_decision. Defined.

Definition MAX_RECORDS_PER_SEGMENT : N := 1000.
Definition MAX_CANONICAL_SEGMENT_BYTES : N := 192 * 1024.
Definition MAX_RESPONSE_CANONICAL_BYTES : N := 1024 * 1024.
Definition MAX_RESPONSE_WIRE_BYTES : N := 256 * 1024.
Definition MAX_SEGMENT_DURATION_SECONDS : N := 60.
Definition MAX_UNKNOWN_FORWARD_SEGMENTS : N := MAX_RESPONSE_CANONICAL_BYTES / MAX_CANONICAL_SEGMENT_BYTES.
Definition MAX_RECENT_SEGMENTS_PER_STREAM : N := MAX_UNKNOWN_FORWARD_SEGMENTS.

Definition str_len (s : string) : N := N.of_nat (String.length s).

(** [validate_identifier(kind, value)]; the kinds are those the code asks for. *)
Definition validate_sync_identifier (kind value : string) : result () ProtocolError :=
  if bool_decide (trim value = "") then Err (InvalidSegment (kind +:+ " must not be empty"))
  else if bool_decide (value ≠ trim value) || any_control value then Err (InvalidSegment "identifier is malformed")
  else Ok ().

(** ** Cursors and records *)

Record Cursor : Type := mkCursor {
  source_node_id : string;
  source_epoch : N;
  stream : string;
  sequence : N
}.
#[global] Instance Cursor_eq_dec : EqDecision Cursor.
Proof. solve_decision. Defined.

(** [Cursor::new], and [Cursor::from_proto]: [proto::Cursor] has the same fields. *)
Definition sync_cursor_new (source_node_id : string) (source_epoch : N) (stream : string) (sequence : N)
    : result Cursor ProtocolError :=
  let? _ := validate_sync_identifier "source node id" source_node_id in
  let? _ := validate_sync_identifier "stream" stream in
  if bool_decide (i64_max < source_epoch) || bool_decide (i64_max < sequence)
  then Err (InvalidSegment "cursor exceeds durable integer range")
  else Ok (mkCursor source_node_id source_epoch stream sequence).

Definition cursor_from_proto (c : Cursor) : result Cursor ProtocolError :=
  sync_cursor_new (source_node_id c) (source_epoch c) (stream c) (sequence c).

Definition with_sequence (c : Cursor) (seq : N) : result Cursor ProtocolError :=
  sync_cursor_new (source_node_id c) (source_epoch c) (stream c) seq.

(** [StreamKey]: the source and the name of a stream. *)
Abbreviation StreamKey := (string * string)%type.
Definition stream_key (c : Cursor) : StreamKey := (source_node_id c, stream c).

(** [SyncRecord], with the fields of [proto::Record]. *)
Record SyncRecord : Type := mkSyncRecord {
  subject_node_id : string;
  observer_node_id : string;
  schema_id : string;
  schema_version : N;
  record_key : string;
  payload : string;
  is_tombstone : bool
}.
#[global] Instance SyncRecord_eq_dec : EqDecision SyncRecord.
Proof. solve_decision. Defined.

(** [SyncRecord::validate] *)
Definition record_validate (r : SyncRecord) : result () ProtocolError :=
  let? _ := validate_sync_identifier "subject node id" (subject_node_id r) in
  let? _ := validate_sync_identifier "observer node id" (observer_node_id r) in
  let? _ := validate_sync_identifier "schema id" (schema_id r) in
  if bool_decide (schema_version r = 0) then Err (InvalidSegment "schema version must be greater than zero")
  else if bool_decide (record_key r = "") then Err (InvalidSegment "record key must not be empty")
  else Ok ().

Definition prioritize_tombstones (records : list SyncRecord) : list SyncRecord :=
  List.filter is_tombstone records ++ List.filter (λ r, negb (is_tombstone r)) records.

(** ** Messages on the wire *)

(** [proto::Segment] *)
Record ProtoSegment : Type := mkProtoSegment {
  pr_cluster_id : string;
  pr_first_cursor : option Cursor;
  pr_last_cursor : option Cursor;
  pr_records : list SyncRecord;
  pr_previous_segment_hash : string;
  pr_opened_at_unix_seconds : N;
  pr_closed_at_unix_seconds : N;
  pr_signature : string;
  pr_records_hash : string
}.
#[export] Instance ProtoSegment_eta : Eta ProtoSegment :=
  λ p, mkProtoSegment (pr_cluster_id p) (pr_first_cursor p) (pr_last_cursor p) (pr_records p) (pr_previous_segment_hash p)
         (pr_opened_at_unix_seconds p) (pr_closed_at_unix_seconds p) (pr_signature p) (pr_records_hash p).

(** The protobuf codec, SHA-256 and Ed25519: a message that was encoded decodes to itself, a
    digest has 32 bytes and a signature 64, and a signature made with a key is verified by its
    public key. *)
Class SyncCrypto := {
  encode_to_vec : ProtoSegment → string;
  decode : string → option ProtoSegment;
  encode_length_delimited : SyncRecord → string;
  sha256 : string → string;
  SigningKey : Type;
  VerifyingKey : Type;
  ed25519_sign : SigningKey → string → string;
  ed25519_verify : VerifyingKey → string → string → bool;
  verifying_key : SigningKey → VerifyingKey;
  verifying_key_from_bytes : list N → option VerifyingKey;
  decode_encode m : decode (encode_to_vec m) = Some m;
  sha256_length m : String.length (sha256 m) = 32%nat;
  ed25519_length k m : String.length (ed25519_sign k m) = 64%nat;
  ed25519_correct k m : ed25519_verify (verifying_key k) m (ed25519_sign k m) = true
}.

(** ** Segments *)

Record CanonicalSegment : Type := mkSegment {
  cluster_id : string;
  first_cursor : Cursor;
  last_cursor : Cursor;
  records : list SyncRecord;
  records_hash : string;
  previous_segment_hash : option string;
  opened_at_unix_seconds : N;
  closed_at_unix_seconds : N
}.
#[global] Instance CanonicalSegment_eq_dec : EqDecision CanonicalSegment.
Proof. solve_decision. Defined.

Record SignedSegment : Type := mkSigned { canonical : CanonicalSegment; signature : string }.
#[global] Instance SignedSegment_eq_dec : EqDecision SignedSegment.
Proof. solve_decision. Defined.

(** [records.windows(2).any(|pair| !pair[0].tombstone && pair[1].tombstone)] *)
Fixpoint late_tombstone (l : list SyncRecord) : bool :=
  match l with
  | a :: (b :: _) as rest => (negb (is_tombstone a) && is_tombstone b) || late_tombstone rest
  | _ => false
  end.

(** [<[u8; n]>::try_from] *)
Definition to_array {E} (n : nat) (bytes : string) (e : E) : result string E :=
  if bool_decide (String.length bytes = n) then Ok bytes else Err e.

Section Segments.
Context `{SyncCrypto}.

Definition hash_records (l : list SyncRecord) : string := sha256 (String.concat "" (map encode_length_delimited l)).

Definition proto_without_signature (s : CanonicalSegment) : ProtoSegment :=
  mkProtoSegment (cluster_id s) (Some (first_cursor s)) (Some (last_cursor s)) (records s)
    (default "" (previous_segment_hash s)) (opened_at_unix_seconds s) (closed_at_unix_seconds s) "" (records_hash s).

(** [CanonicalSegment::validate] *)
Definition segment_validate (s : CanonicalSegment) : result () ProtocolError :=
  let? _ := validate_sync_identifier "cluster id" (cluster_id s) in
  if bool_decide (records s = []) then Err (InvalidSegment "segment must contain records")
  else if bool_decide (MAX_RECORDS_PER_SEGMENT < N.of_nat (length (records s)))
  then Err (SegmentRecordLimit (N.of_nat (length (records s))))
  else
    let? _ := try_each record_validate (records s) in
    if late_tombstone (records s) then Err (InvalidSegment "tombstones must precede ordinary records")
    else if bool_decide (records_hash s ≠ hash_records (records s)) then Err (InvalidSegment "record hash does not match records")
    else if bool_decide (closed_at_unix_seconds s < opened_at_unix_seconds s)
            || bool_decide (MAX_SEGMENT_DURATION_SECONDS < closed_at_unix_seconds s - opened_at_unix_seconds s)
    then Err SegmentDurationLimit
    else
      let expected_last := checked_add u64_max (sequence (first_cursor s)) (sat_sub (N.of_nat (length (records s))) 1) in
      if bool_decide (expected_last ≠ Some (sequence (last_cursor s)))
         || bool_decide (source_node_id (first_cursor s) ≠ source_node_id (last_cursor s))
         || bool_decide (source_epoch (first_cursor s) ≠ source_epoch (last_cursor s))
         || bool_decide (stream (first_cursor s) ≠ stream (last_cursor s))
      then Err (InvalidSegment "cursor range does not match records")
      else
        let canonical_size := str_len (encode_to_vec (proto_without_signature s)) in
        if bool_decide (MAX_CANONICAL_SEGMENT_BYTES < canonical_size) then Err (SegmentCanonicalLimit canonical_size)
        else Ok ().

(** [CanonicalSegment::new] *)
Definition segment_new (cluster : string) (first : Cursor) (l : list SyncRecord) (previous : option string) (opened closed : N)
    : result CanonicalSegment ProtocolError :=
  let? last_sequence := ok_or (checked_add u64_max (sequence first) (sat_sub (N.of_nat (length l)) 1))
                          (InvalidSegment "sequence range overflows") in
  let? last := with_sequence first last_sequence in
  let segment := mkSegment cluster first last l (hash_records l) previous opened closed in
  let? _ := segment_validate segment in
  Ok segment.

Definition canonical_bytes (s : CanonicalSegment) : result string ProtocolError :=
  let? _ := segment_validate s in Ok (encode_to_vec (proto_without_signature s)).

(** [CanonicalSegment::sign] *)
Definition sign_segment (s : CanonicalSegment) (key : SigningKey) : result SignedSegment ProtocolError :=
  let? bytes := canonical_bytes s in Ok (mkSigned s (ed25519_sign key bytes)).

(** [CanonicalSegment::from_proto] *)
Definition from_proto (p : ProtoSegment) : result SignedSegment ProtocolError :=
  let? signature := to_array 64 (pr_signature p) InvalidSignature in
  let? previous := if bool_decide (pr_previous_segment_hash p = "") then Ok None
                   else let? hash := to_array 32 (pr_previous_segment_hash p) (InvalidSegment "invalid previous hash length") in
                        Ok (Some hash) in
  let? records_hash := to_array 32 (pr_records_hash p) (InvalidSegment "invalid records hash length") in
  let? first := ok_or (pr_first_cursor p) (InvalidSegment "missing first cursor") in
  let? first := cursor_from_proto first in
  let? last := ok_or (pr_last_cursor p) (InvalidSegment "missing last cursor") in
  let? last := cursor_from_proto last in
  let canonical := mkSegment (pr_cluster_id p) first last (pr_records p) records_hash previous
                     (pr_opened_at_unix_seconds p) (pr_closed_at_unix_seconds p) in
  let? _ := segment_validate canonical in
  Ok (mkSigned canonical signature).

(** [SignedSegment::verify] *)
Definition verify_segment (s : SignedSegment) (key : VerifyingKey) : result () ProtocolError :=
  let? bytes := canonical_bytes (canonical s) in
  if ed25519_verify key bytes (signature s) then Ok () else Err InvalidSignature.

Definition verify_identity (s : SignedSegment) (identity : RepositoryNodeIdentity) : result () ProtocolError :=
  if bool_decide (source_node_id (first_cursor (canonical s)) ≠ ri_node_id identity) then Err SourceIdentityMismatch
  else
    let? key := ok_or (verifying_key_from_bytes (ri_ed25519_public_key identity)) InvalidSigningKey in
    verify_segment s key.

Definition segment_hash (s : SignedSegment) : result string ProtocolError :=
  let? bytes := canonical_bytes (canonical s) in Ok (sha256 (bytes +:+ signature s)).

Definition proto_with_signature (s : SignedSegment) : ProtoSegment :=
  (proto_without_signature (canonical s)) <| pr_signature := signature s |>.

Definition wire_bytes (s : SignedSegment) : result string ProtocolError :=
  let wire := encode_to_vec (proto_with_signature s) in
  if bool_decide (MAX_RESPONSE_WIRE_BYTES < str_len wire) then Err (WireLimit (str_len wire)) else Ok wire.

(** [SignedSegment::from_wire] *)
Definition from_wire (wire : string) : result SignedSegment ProtocolError :=
  if bool_decide (MAX_RESPONSE_WIRE_BYTES < str_len wire) then Err (WireLimit (str_len wire))
  else
    let? segment := ok_or (decode wire) InvalidWire in
    let? signed := from_proto segment in
    let? again := wire_bytes signed in
    if bool_decide (again ≠ wire) then Err NonCanonicalWire else Ok signed.
End Segments.

(** ** The receiver *)

Record SegmentHashRange : Type := mkHashRange {
  hr_first_sequence : N;
  hr_last_sequence : N;
  hr_hash : string
}.

Record StreamProgress : Type := mkProgress {
  sp_epoch : N;
  sp_last_sequence : N;
  sp_last_segment_hash : string;
  sp_recent_segments : list SegmentHashRange
}.
#[export] Instance StreamProgress_eta : Eta StreamProgress :=
  λ p, mkProgress (sp_epoch p) (sp_last_sequence p) (sp_last_segment_hash p) (sp_recent_segments p).

(** [StreamProgress::watermark] *)
Definition watermark_of (p : StreamProgress) (cursor : Cursor) : result Cursor ProtocolError :=
  with_sequence cursor (sp_last_sequence p).

Record TombstoneKey : Type := mkTombstoneKey {
  tk_stream : StreamKey;
  tk_source_epoch : N;
  tk_schema_id : string;
  tk_schema_version : N;
  tk_subject_node_id : string;
  tk_observer_node_id : string;
  tk_record_key : string
}.
#[global] Instance TombstoneKey_eq_dec : EqDecision TombstoneKey.
Proof. solve_decision. Defined.
#[global] Instance TombstoneKey_countable : Countable TombstoneKey.
Proof.
  apply (inj_countable
    (λ k, ([(tk_stream k).1; (tk_stream k).2; tk_schema_id k; tk_subject_node_id k; tk_observer_node_id k; tk_record_key k],
           [tk_source_epoch k; tk_schema_version k]))
    (λ f, match f with
          | ([a; b; c; d; e; g], [m; n]) => Some (mkTombstoneKey (a, b) m c n d e g)
          | _ => None
          end)).
  by intros [[]].
Defined.

(** [TombstoneKey::new] *)
Definition tombstone_key (cursor : Cursor) (r : SyncRecord) : TombstoneKey :=
  mkTombstoneKey (stream_key cursor) (source_epoch cursor) (schema_id r) (schema_version r)
    (subject_node_id r) (observer_node_id r) (record_key r).

Record CursorGap : Type := mkCursorGap { requested : Cursor; earliest_available : Cursor }.

Inductive CursorAvailability : Type := Available | Expired (gap : CursorGap).

Definition cursor_availability (requested earliest_available : Cursor) : result CursorAvailability ProtocolError :=
  if bool_decide (stream_key requested ≠ stream_key earliest_available) then Err CursorIdentityMismatch
  else if bool_decide (source_epoch requested < source_epoch earliest_available)
          || (bool_decide (source_epoch requested = source_epoch earliest_available)
              && bool_decide (sequence requested < sequence earliest_available))
  then Ok (Expired (mkCursorGap requested earliest_available))
  else Ok Available.

(** [Acceptance]; an [Acknowledgement] is its watermark. *)
Inductive Acceptance : Type :=
  | Accepted (acknowledgement : Cursor) (gap : option CursorGap) (unknown_schema_records : N)
  | Duplicate (acknowledgement : Cursor).

Record SegmentReceiver : Type := mkReceiver {
  rv_expected_cluster_id : string;
  rv_schemas : gset (string * N);
  rv_streams : gmap StreamKey StreamProgress;
  rv_tombstones : gset TombstoneKey;
  rv_quarantined_streams : gmap StreamKey N;
  rv_forwardable_unknown_segments : list SignedSegment
}.
#[export] Instance SegmentReceiver_eta : Eta SegmentReceiver :=
  λ r, mkReceiver (rv_expected_cluster_id r) (rv_schemas r) (rv_streams r) (rv_tombstones r)
         (rv_quarantined_streams r) (rv_forwardable_unknown_segments r).

(** [SegmentReceiver::for_cluster] *)
Definition for_cluster (expected : string) (schemas : gset (string * N)) : SegmentReceiver :=
  mkReceiver expected schemas ∅ ∅ ∅ [].

(** [SchemaCatalog::contains] *)
Definition known_schema (schemas : gset (string * N)) (r : SyncRecord) : bool :=
  bool_decide ((schema_id r, schema_version r) ∈ schemas).

(** What the progress of the stream makes of a segment that starts at [first]. *)
Inductive Position : Type :=
  | Next (gap : option CursorGap) (rotates_epoch : bool)
  | Known (watermark : Cursor)
  | Fork (next_epoch : N)
  | Refused (e : ProtocolError).

Definition known_range (first_sequence last_sequence : N) (hash : string) (known : SegmentHashRange) : bool :=
  bool_decide (hr_first_sequence known = first_sequence) && bool_decide (hr_last_sequence known = last_sequence)
  && bool_decide (hr_hash known = hash).

Definition or_refused {A} (r : result A ProtocolError) (k : A → Position) : Position :=
  match r with Ok a => k a | Err e => Refused e end.

(** The part of [accept] between the hash of the segment and its records. *)
Definition stream_position (progress : option StreamProgress) (s : CanonicalSegment) (hash : string) : Position :=
  let first := first_cursor s in
  match progress with
  | None => if bool_decide (is_Some (previous_segment_hash s)) then Refused HashChainMismatch else Next None false
  | Some progress =>
      if bool_decide (sp_epoch progress < source_epoch first) then
        let expected_epoch := sat_add u64_max (sp_epoch progress) 1 in
        if bool_decide (source_epoch first ≠ expected_epoch) || bool_decide (sequence first ≠ 0)
           || bool_decide (is_Some (previous_segment_hash s))
        then Refused (EpochGap expected_epoch (source_epoch first))
        else or_refused (sync_cursor_new (source_node_id first) (sp_epoch progress) (stream first) (sp_last_sequence progress)) (λ requested,
               Next (Some (mkCursorGap requested first)) true)
      else if bool_decide (source_epoch first < sp_epoch progress)
      then Refused (EpochGap (sp_epoch progress) (source_epoch first))
      else if bool_decide (sequence first ≤ sp_last_sequence progress) then
        if existsb (known_range (sequence first) (sequence (last_cursor s)) hash) (sp_recent_segments progress)
        then or_refused (watermark_of progress first) Known
        else
          or_refused (ok_or (checked_add u64_max (sp_epoch progress) 1) (InvalidSegment "source epoch overflows after a fork")) (λ next_epoch,
          or_refused (sync_cursor_new (source_node_id first) next_epoch (stream first) 0) (λ _, Fork next_epoch))
      else
        or_refused (ok_or (checked_add u64_max (sp_last_sequence progress) 1) (InvalidSegment "sequence overflow")) (λ expected,
        if bool_decide (sequence first ≠ expected) then Refused (SequenceGap expected (sequence first))
        else if bool_decide (previous_segment_hash s ≠ Some (sp_last_segment_hash progress)) then Refused HashChainMismatch
        else Next None false)
  end.

Definition segment_tombstones (first : Cursor) (l : list SyncRecord) : gset TombstoneKey :=
  list_to_set (map (tombstone_key first) (List.filter is_tombstone l)).

(** [VecDeque]: the last ranges of the stream, and the new one. *)
Definition push_recent (recent : list SegmentHashRange) (range : SegmentHashRange) : list SegmentHashRange :=
  (if bool_decide (N.of_nat (length recent) = MAX_RECENT_SEGMENTS_PER_STREAM) then tail recent else recent) ++ [range].

Section Receiver.
Context `{SyncCrypto}.

(** The records of a segment in its place: the last part of [accept]. *)
Definition take_records (r : SegmentReceiver) (s : SignedSegment) (hash : string) (gap : option CursorGap) (rotates_epoch : bool)
    : SegmentReceiver * result Acceptance ProtocolError :=
  let first := first_cursor (canonical s) in
  let last := last_cursor (canonical s) in
  let l := records (canonical s) in
  let unknown := N.of_nat (length (List.filter (λ x, negb (known_schema (rv_schemas r) x)) l)) in
  if bool_decide (0 < unknown) && bool_decide (MAX_UNKNOWN_FORWARD_SEGMENTS ≤ N.of_nat (length (rv_forwardable_unknown_segments r)))
  then (r, Err UnknownSchemaBacklogFull)
  else
    let keys := segment_tombstones first l in
    if existsb (λ x, bool_decide (tombstone_key first x ∈ rv_tombstones r) || bool_decide (tombstone_key first x ∈ keys))
         (List.filter (λ x, negb (is_tombstone x)) l)
    then (r, Err ResurrectionPrevented)
    else
      let recent := if rotates_epoch then []
                    else from_option sp_recent_segments [] (rv_streams r !! stream_key first) in
      let progress := mkProgress (source_epoch first) (sequence last) hash
                        (push_recent recent (mkHashRange (sequence first) (sequence last) hash)) in
      (r <| rv_tombstones ::= union keys |>
         <| rv_forwardable_unknown_segments ::= λ u, if bool_decide (0 < unknown) then u ++ [s] else u |>
         <| rv_streams ::= <[stream_key first := progress]> |>
         <| rv_quarantined_streams ::= λ q, if rotates_epoch then delete (stream_key first) q else q |>,
       Ok (Accepted last gap unknown)).

(** [SegmentReceiver::accept]; [None] is the panic of [self.streams[&stream_key]]. *)
Definition accept (r : SegmentReceiver) (s : SignedSegment) (identity : RepositoryNodeIdentity)
    : option (SegmentReceiver * result Acceptance ProtocolError) :=
  match verify_identity s identity with
  | Err e => Some (r, Err e)
  | Ok _ =>
      if bool_decide (rv_expected_cluster_id r ≠ cluster_id (canonical s)) then Some (r, Err ClusterMismatch)
      else
        let first := first_cursor (canonical s) in
        let key := stream_key first in
        let resume :=
          match segment_hash s with
          | Err e => Some (r, Err e)
          | Ok hash =>
              Some match stream_position (rv_streams r !! key) (canonical s) hash with
                   | Refused e => (r, Err e)
                   | Known watermark => (r, Ok (Duplicate watermark))
                   | Fork next_epoch => (r <| rv_quarantined_streams ::= <[key := next_epoch]> |>, Err (ForkDetected next_epoch))
                   | Next gap rotates_epoch => take_records r s hash gap rotates_epoch
                   end
          end in
        match rv_quarantined_streams r !! key with
        | None => resume
        | Some _ =>
            match rv_streams r !! key with
            | None => None
            | Some progress =>
                if bool_decide (source_epoch first = sp_epoch progress) then Some (r, Err Quarantined) else resume
            end
        end
  end.

Definition advance_declared_sequence_gap (r : SegmentReceiver) (next : Cursor) (first_missing last_missing : N)
    : SegmentReceiver * result bool ProtocolError :=
  match rv_streams r !! stream_key next with
  | None => (r, Ok false)
  | Some progress =>
      match checked_add u64_max (sp_last_sequence progress) 1 with
      | None => (r, Err (InvalidSegment "sequence overflow"))
      | Some expected =>
          if bool_decide (sp_epoch progress ≠ source_epoch next) || bool_decide (expected ≠ first_missing)
             || bool_decide (checked_add u64_max last_missing 1 ≠ Some (sequence next))
          then (r, Ok false)
          else (r <| rv_streams ::= <[stream_key next := progress <| sp_last_sequence := last_missing |>]> |>, Ok true)
      end
  end.

Definition is_tombstoned (r : SegmentReceiver) (cursor : Cursor) (x : SyncRecord) : bool :=
  bool_decide (tombstone_key cursor x ∈ rv_tombstones r).
Definition is_quarantined (r : SegmentReceiver) (cursor : Cursor) : bool :=
  bool_decide (is_Some (rv_quarantined_streams r !! stream_key cursor)).
Definition forget_tombstone (r : SegmentReceiver) (cursor : Cursor) (x : SyncRecord) : SegmentReceiver :=
  r <| rv_tombstones ::= λ t, t ∖ {[tombstone_key cursor x]} |>.

Definition continuous_watermark (r : SegmentReceiver) (cursor : Cursor) : result (option Cursor) ProtocolError :=
  match rv_streams r !! stream_key cursor with
  | Some progress =>
      if bool_decide (sp_epoch progress = source_epoch cursor) then let? w := watermark_of progress cursor in Ok (Some w) else Ok None
  | None => Ok None
  end.

(** ** The checkpoint of the receiver *)

Record SegmentReceiverCheckpoint : Type := mkReceiverCheckpoint {
  rp_streams : list (StreamKey * StreamProgress);
  rp_tombstones : gset TombstoneKey;
  rp_quarantined_streams : list (StreamKey * N);
  rp_forwardable_unknown_segments : list string
}.

Definition MAX_RESTORED_STREAMS : N := 4096.
Definition MAX_RESTORED_TOMBSTONES : N := 8192.

Definition continuous_watermarks (r : SegmentReceiver) : list Cursor :=
  map (λ '(key, progress), mkCursor key.1 (sp_epoch progress) key.2 (sp_last_sequence progress)) (entries (rv_streams r)).

(** [iter().map(f).collect::<Result<Vec<_>, _>>()] *)
Fixpoint try_map {A B E} (f : A → result B E) (l : list A) : result (list B) E :=
  match l with
  | [] => Ok []
  | x :: l => let? y := f x in let? ys := try_map f l in Ok (y :: ys)
  end.

Definition receiver_checkpoint (r : SegmentReceiver) : result SegmentReceiverCheckpoint ProtocolError :=
  let? unknown := try_map wire_bytes (rv_forwardable_unknown_segments r) in
  Ok (mkReceiverCheckpoint (entries (rv_streams r)) (rv_tombstones r) (entries (rv_quarantined_streams r)) unknown).

(** The loops of [from_checkpoint]: a key twice is refused. *)
Definition restore_map {V} (check : StreamKey → V → result Cursor ProtocolError) (l : list (StreamKey * V))
    : result (gmap StreamKey V) ProtocolError :=
  try_fold (λ (acc : gmap StreamKey V) entry,
    let? _ := check entry.1 entry.2 in
    if bool_decide (is_Some (acc !! entry.1)) then Err CheckpointLimit else Ok (<[entry.1 := entry.2]> acc)) ∅ l.

Definition progress_cursor (key : StreamKey) (p : StreamProgress) : result Cursor ProtocolError :=
  sync_cursor_new key.1 (sp_epoch p) key.2 (sp_last_sequence p).
Definition quarantine_cursor (key : StreamKey) (next_epoch : N) : result Cursor ProtocolError :=
  sync_cursor_new key.1 next_epoch key.2 0.

Definition receiver_from_checkpoint (expected : string) (schemas : gset (string * N)) (c : SegmentReceiverCheckpoint)
    : result SegmentReceiver ProtocolError :=
  if bool_decide (MAX_RESTORED_STREAMS < N.of_nat (length (rp_streams c)))
     || bool_decide (MAX_RESTORED_STREAMS < N.of_nat (length (rp_quarantined_streams c)))
     || bool_decide (MAX_RESTORED_TOMBSTONES < N.of_nat (size (rp_tombstones c)))
     || bool_decide (MAX_UNKNOWN_FORWARD_SEGMENTS < N.of_nat (length (rp_forwardable_unknown_segments c)))
  then Err CheckpointLimit
  else
    let? unknown := try_map from_wire (rp_forwardable_unknown_segments c) in
    let? streams := restore_map progress_cursor (rp_streams c) in
    let? quarantined := restore_map quarantine_cursor (rp_quarantined_streams c) in
    Ok (mkReceiver expected schemas streams (rp_tombstones c) quarantined unknown).
End Receiver.

(** ** Segments on the wire *)

(** A cursor as [Cursor::new] makes them. *)
Definition cursor_ok (c : Cursor) : Prop := cursor_from_proto c = Ok c.

(** What the types of a signed segment say: cursors come from [Cursor::new] and hashes and
    signatures are arrays. *)
Record typed (s : SignedSegment) : Prop := {
  ty_first : cursor_ok (first_cursor (canonical s));
  ty_last : cursor_ok (last_cursor (canonical s));
  ty_records_hash : String.length (records_hash (canonical s)) = 32%nat;
  ty_previous h : previous_segment_hash (canonical s) = Some h → String.length h = 32%nat;
  ty_signature : String.length (signature s) = 64%nat
}.

Lemma cursor_new_ok a b c d x : sync_cursor_new a b c d = Ok x → x = mkCursor a b c d ∧ cursor_ok x.
Proof.
  unfold cursor_ok, cursor_from_proto. intros Hx. assert (x = mkCursor a b c d) as ->; [|done].
  unfold sync_cursor_new in Hx. by destruct_ok.
Qed.
Lemma cursor_new_eta c : cursor_from_proto c = Ok c ↔ ∃ x, sync_cursor_new (source_node_id c) (source_epoch c) (stream c) (sequence c) = Ok x.
Proof. split; [eauto|]. intros [x Hx]. pose proof (cursor_new_ok _ _ _ _ _ Hx) as [-> _]. unfold cursor_from_proto. by destruct c. Qed.

Section Wire.
Context `{SyncCrypto}.

Lemma from_proto_signed s :
  typed s → segment_validate (canonical s) = Ok () → from_proto (proto_with_signature s) = Ok s.
Proof.
  intros [Hf Hl Hr Hp Hs] Hv. unfold from_proto, proto_with_signature. cbn.
  unfold to_array. rewrite (bool_decide_true (String.length (signature s) = _)) by done. cbn [rbind].
  assert ((if bool_decide (default "" (previous_segment_hash (canonical s)) = "") then Ok None
    else let? hash := if bool_decide (String.length (default "" (previous_segment_hash (canonical s))) = 32%nat)
                      then Ok (default "" (previous_segment_hash (canonical s)))
                      else Err (InvalidSegment "invalid previous hash length") in Ok (Some hash))
    = Ok (previous_segment_hash (canonical s))) as ->.
  { destruct (previous_segment_hash (canonical s)) as [h|] eqn:Hh; cbn; [|done]. specialize (Hp _ eq_refl).
    rewrite bool_decide_false by (by intros ->). by rewrite bool_decide_true. }
  cbn [rbind]. rewrite (bool_decide_true (String.length (records_hash _) = _)) by done. cbn [rbind].
  rewrite Hf. cbn [rbind]. rewrite Hl. cbn [rbind]. destruct s as [c sig]. destruct c. cbn in *. by rewrite Hv.
Qed.

Lemma from_wire_bytes s w :
  typed s → segment_validate (canonical s) = Ok () → wire_bytes s = Ok w → from_wire w = Ok s.
Proof.
  intros Ht Hv Hw. unfold from_wire. pose proof Hw as Hw'. unfold wire_bytes in Hw'.
  case_bool_decide as Hlen; [done|]. injection Hw' as <-. rewrite bool_decide_false by done.
  rewrite decode_encode. cbn [ok_or rbind]. rewrite from_proto_signed by done. cbn [rbind]. rewrite Hw. cbn [rbind].
  by rewrite bool_decide_false by (intros Hn; by apply Hn).
Qed.

Lemma segment_new_ok cluster first l previous opened closed seg :
  segment_new cluster first l previous opened closed = Ok seg →
  segment_validate seg = Ok () ∧ cursor_ok (last_cursor seg) ∧ first_cursor seg = first ∧ records seg = l ∧
  previous_segment_hash seg = previous ∧ cluster_id seg = cluster ∧ records_hash seg = hash_records l.
Proof.
  unfold segment_new. destruct (ok_or _ _) as [n|] eqn:Hn; [|done]. cbn [rbind].
  destruct (with_sequence first n) as [c|] eqn:Hc; [|done]. cbn [rbind].
  destruct (segment_validate _) as [[]|] eqn:Hv; [|done]. cbn [rbind]. intros [= <-]. cbn.
  apply cursor_new_ok in Hc as [_ ?]. done.
Qed.
End Wire.

(** A segment a source builds, signs and sends arrives as it was sent: the bytes read
    back as the same signed segment, which the identity of the source verifies; and nothing
    else is read as a segment than the bytes that segment is sent as. *)
Theorem segment_roundtrip `{SyncCrypto} cluster first l previous opened closed seg key s w identity :
  cursor_ok first → (∀ h, previous = Some h → String.length h = 32%nat) →
  segment_new cluster first l previous opened closed = Ok seg →
  sign_segment seg key = Ok s → wire_bytes s = Ok w →
  ri_node_id identity = source_node_id first →
  verifying_key_from_bytes (ri_ed25519_public_key identity) = Some (verifying_key key) →
  from_wire w = Ok s ∧ verify_identity s identity = Ok () ∧
  (∀ w' s', from_wire w' = Ok s' → wire_bytes s' = Ok w').
Proof.
  intros Hfirst Hprev (Hv & Hlast & Hf & Hl & Hp & _ & Hh)%segment_new_ok Hsign Hw Hid Hkey.
  unfold sign_segment, canonical_bytes in Hsign. rewrite Hv in Hsign. cbn [rbind] in Hsign. injection Hsign as <-. split_and!.
  - apply from_wire_bytes; [|done|done]. split; cbn; [by rewrite Hf|done| | |apply ed25519_length].
    + rewrite Hh. apply sha256_length.
    + rewrite Hp. apply Hprev.
  - unfold verify_identity. cbn. rewrite bool_decide_false by (rewrite Hf, Hid; auto). rewrite Hkey. cbn [ok_or rbind].
    unfold verify_segment, canonical_bytes. cbn. rewrite Hv. cbn [rbind]. by rewrite ed25519_correct.
  - intros w' s'. unfold from_wire. case_bool_decide; [done|]. destruct (ok_or _ _); [|done]. cbn [rbind].
    destruct (from_proto _) as [s''|]; [|done]. cbn [rbind]. destruct (wire_bytes s'') as [w''|] eqn:Hw''; [|done]. cbn [rbind].
    case_bool_decide as Heq; [done|]. intros [= <-]. rewrite Hw''. by f_equal.
Qed.

(** ** What a receiver has accepted *)

Section History.
Context `{SyncCrypto}.
Implicit Types (r : SegmentReceiver) (s a b : SignedSegment) (log : list SignedSegment) (key : StreamKey) (p : StreamProgress).

Inductive ReceiverEvent : Type :=
  | Deliver (s : SignedSegment) (identity : RepositoryNodeIdentity)
  | DeclareGap (next : Cursor) (first_missing last_missing : N)
  | Forget (cursor : Cursor) (x : SyncRecord).

(** A range of sequences of a stream and epoch that was declared missing. *)
Record Missing : Type := mkMissing { ms_key : StreamKey; ms_epoch : N; ms_first : N; ms_last : N }.

(** The receiver after the event, the segment it accepted and the gap it took note of. *)
Definition receiver_step r (ev : ReceiverEvent) : option (SegmentReceiver * list SignedSegment * list Missing) :=
  match ev with
  | Deliver s identity =>
      match accept r s identity with
      | None => None
      | Some (r', answer) => Some (r', match answer with Ok (Accepted _ _ _) => [s] | _ => [] end, [])
      end
  | DeclareGap next first_missing last_missing =>
      let '(r', answer) := advance_declared_sequence_gap r next first_missing last_missing in
      Some (r', [], match answer with
                    | Ok true => [mkMissing (stream_key next) (source_epoch next) first_missing last_missing]
                    | _ => []
                    end)
  | Forget cursor x => Some (forget_tombstone r cursor x, [], [])
  end.

Fixpoint receiver_run r (evs : list ReceiverEvent) : option (SegmentReceiver * list SignedSegment * list Missing) :=
  match evs with
  | [] => Some (r, [], [])
  | ev :: evs =>
      match receiver_step r ev with
      | None => None
      | Some (r', log, gaps) =>
          match receiver_run r' evs with
          | None => None
          | Some (r'', log', gaps') => Some (r'', log ++ log', gaps ++ gaps')
          end
      end
  end.

Definition seg_key s : StreamKey := stream_key (first_cursor (canonical s)).
Definition seg_epoch s : N := source_epoch (first_cursor (canonical s)).
Definition seg_first s : N := sequence (first_cursor (canonical s)).
Definition seg_last s : N := sequence (last_cursor (canonical s)).

Definition missing (gaps : list Missing) key (epoch q : N) : Prop :=
  ∃ m, m ∈ gaps ∧ ms_key m = key ∧ ms_epoch m = epoch ∧ ms_first m ≤ q ≤ ms_last m.

(** [b] continues the stream after [a]: in the same epoch it carries the hash of [a], and
    every sequence between the two was declared missing; a new epoch is the next one and
    starts at zero. *)
Definition follows (gaps : list Missing) a b : Prop :=
  (seg_epoch b = seg_epoch a ∧ seg_last a < seg_first b ∧
   (∃ h, segment_hash a = Ok h ∧ previous_segment_hash (canonical b) = Some h) ∧
   (∀ q, seg_last a < q < seg_first b → missing gaps (seg_key a) (seg_epoch a) q)) ∨
  (seg_epoch b = seg_epoch a + 1 ∧ seg_first b = 0 ∧ previous_segment_hash (canonical b) = None).

(** The segments of one stream, oldest first. *)
Inductive chained (gaps : list Missing) : list SignedSegment → Prop :=
  | chained_nil : chained gaps []
  | chained_first a : previous_segment_hash (canonical a) = None → chained gaps [a]
  | chained_next l a b : chained gaps (l ++ [a]) → follows gaps a b → chained gaps ((l ++ [a]) ++ [b]).

Definition stream_log key log : list SignedSegment := filter (λ s, seg_key s = key) log.

(** What the receiver keeps of a stream is where its log ends, and what was declared missing
    since. *)
Definition tracks r log gaps : Prop := ∀ key,
  chained gaps (stream_log key log) ∧
  match rv_streams r !! key with
  | None => stream_log key log = [] ∧ rv_quarantined_streams r !! key = None
  | Some p => ∃ l a, stream_log key log = l ++ [a] ∧ seg_epoch a = sp_epoch p ∧
      segment_hash a = Ok (sp_last_segment_hash p) ∧ seg_last a ≤ sp_last_sequence p ∧
      ∀ q, seg_last a < q ≤ sp_last_sequence p → missing gaps key (seg_epoch a) q
  end.

Lemma missing_app gaps gaps' key e q : missing gaps key e q → missing (gaps ++ gaps') key e q.
Proof. intros (m & Hm & ?). exists m. split; [apply elem_of_app; by left|done]. Qed.
Lemma chained_app gaps gaps' l : chained gaps l → chained (gaps ++ gaps') l.
Proof.
  induction 1 as [|a Ha|l a b _ IH Hf]; [constructor|by constructor|]. constructor; [done|].
  destruct Hf as [(? & ? & ? & Hm)|?]; [left|by right]. split_and!; try done. intros q Hq. by apply missing_app, Hm.
Qed.
Lemma stream_log_app key l l' : stream_log key (l ++ l') = stream_log key l ++ stream_log key l'.
Proof. apply filter_app. Qed.

(** *** One delivery *)

Lemma position_next p (s : CanonicalSegment) hash gap rot :
  stream_position (Some p) s hash = Next gap rot →
  (rot = true ∧ source_epoch (first_cursor s) = sp_epoch p + 1 ∧ sequence (first_cursor s) = 0 ∧ previous_segment_hash s = None) ∨
  (rot = false ∧ source_epoch (first_cursor s) = sp_epoch p ∧ sequence (first_cursor s) = sp_last_sequence p + 1 ∧
   previous_segment_hash s = Some (sp_last_segment_hash p)).
Proof.
  unfold stream_position. case_bool_decide as He.
  - destruct (_ || _ || _) eqn:Hb; [done|]. apply orb_false_iff in Hb as [[H1 H2]%orb_false_iff H3].
    apply bool_decide_eq_false, dec_stable in H1, H2. apply bool_decide_eq_false, eq_None_not_Some in H3.
    destruct (sync_cursor_new _ _ _ _); [|done]. intros [= <- <-]. left. unfold sat_add in H1. split_and!; [done|lia|done|done].
  - case_bool_decide as He'; [done|]. case_bool_decide as Hseq.
    + destruct (existsb _ _); [by destruct (watermark_of _ _)|].
      destruct (ok_or _ _); [|done]. cbn. by destruct (sync_cursor_new _ _ _ _).
    + destruct (ok_or _ _) as [expected|] eqn:Hx; [|done]. cbn.
      case_bool_decide as Hs; [done|]. case_bool_decide as Hp; [done|]. intros [= <- <-]. right.
      unfold checked_add in Hx. case_decide; simplify_eq/=. split_and!; [done|lia|done|done].
Qed.

(** What an answered delivery did: it took the records of a segment in its place, or it left
    streams and tombstones alone and at most quarantined a stream that forked. *)
Definition took r s identity r' (answer : result Acceptance ProtocolError) : Prop :=
  ∃ ack gap unknown hash rot, answer = Ok (Accepted ack gap unknown) ∧ verify_identity s identity = Ok () ∧
    segment_hash s = Ok hash ∧ stream_position (rv_streams r !! seg_key s) (canonical s) hash = Next gap rot ∧
    take_records r s hash gap rot = (r', answer).
Definition left_alone r s r' (answer : result Acceptance ProtocolError) : Prop :=
  (∀ ack gap unknown, answer ≠ Ok (Accepted ack gap unknown)) ∧
  (r' = r ∨ ∃ p next_epoch, rv_streams r !! seg_key s = Some p ∧
              (answer = Err (ForkDetected next_epoch) ∧ ∃ hash, stream_position (Some p) (canonical s) hash = Fork next_epoch) ∧
              r' = r <| rv_quarantined_streams ::= <[seg_key s := next_epoch]> |>).

Lemma accept_inv r s identity r' answer :
  accept r s identity = Some (r', answer) → took r s identity r' answer ∨ left_alone r s r' answer.
Proof.
  assert (∀ e, Some (r, Err e) = Some (r', answer) → took r s identity r' answer ∨ left_alone r s r' answer) as Herr.
  { intros e [= <- <-]. right. split; [done|by left]. }
  unfold accept. fold (seg_key s). destruct (verify_identity s identity) as [[]|e] eqn:Hv; [|by apply Herr].
  case_bool_decide; [by apply Herr|].
  match goal with |- context [match rv_quarantined_streams r !! _ with Some _ => _ | None => ?x end] => set (resume := x) end.
  assert (resume = Some (r', answer) → took r s identity r' answer ∨ left_alone r s r' answer) as Hres.
  2:{ destruct (rv_quarantined_streams r !! seg_key s); [|exact Hres]. destruct (rv_streams r !! seg_key s) as [p|]; [|done].
      case_bool_decide; [by apply Herr|exact Hres]. }
  unfold resume. destruct (segment_hash s) as [hash|e] eqn:Hh; [|by apply Herr].
  destruct (stream_position _ _ _) as [gap rot|w|n|e] eqn:Hpos.
  - intros [= Ht]. pose proof Ht as Ht'. unfold take_records in Ht'. destruct (_ && _); [by apply (Herr UnknownSchemaBacklogFull); f_equal|].
    destruct (existsb _ _); [by apply (Herr ResurrectionPrevented); f_equal|]. injection Ht' as <- <-. left.
    do 3 eexists. exists hash, rot. by split_and!.
  - intros [= <- <-]. right. split; [done|by left].
  - intros [= <- <-]. right. split; [done|]. right. destruct (rv_streams r !! seg_key s) as [p|] eqn:Hp; [exists p, n; by eauto 6|].
    unfold stream_position in Hpos. by case_bool_decide.
  - by apply Herr.
Qed.

Lemma take_records_inv r s hash gap rot r' ack gap' unknown :
  take_records r s hash gap rot = (r', Ok (Accepted ack gap' unknown)) →
  (∃ p, rv_streams r' = <[seg_key s := p]> (rv_streams r) ∧ sp_epoch p = seg_epoch s ∧ sp_last_sequence p = seg_last s ∧
        sp_last_segment_hash p = hash ∧
        mkHashRange (seg_first s) (seg_last s) hash ∈ sp_recent_segments p) ∧
  rv_tombstones r' = segment_tombstones (first_cursor (canonical s)) (records (canonical s)) ∪ rv_tombstones r ∧
  (∀ x, x ∈ records (canonical s) → is_tombstone x = false → tombstone_key (first_cursor (canonical s)) x ∉ rv_tombstones r) ∧
  (∀ key, rv_quarantined_streams r !! key = None → rv_quarantined_streams r' !! key = None) ∧
  (rv_forwardable_unknown_segments r' = rv_forwardable_unknown_segments r ∨
   rv_forwardable_unknown_segments r' = rv_forwardable_unknown_segments r ++ [s]).
Proof.
  unfold take_records. destruct (_ && _); [done|]. destruct (existsb _ _) eqn:Hr; [done|]. intros [= <- _ _ _]. split_and!.
  - eexists. cbn. split_and!; [done..|]. unfold push_recent. apply elem_of_app. right. left.
  - done.
  - intros x Hx Hlive Hin. assert (existsb (λ x, bool_decide (tombstone_key (first_cursor (canonical s)) x ∈ rv_tombstones r)
      || bool_decide (tombstone_key (first_cursor (canonical s)) x ∈ segment_tombstones (first_cursor (canonical s)) (records (canonical s))))
      (List.filter (λ x, negb (is_tombstone x)) (records (canonical s))) = true) as Ht; [|by rewrite Hr in Ht].
    apply existsb_exists. exists x. split; [apply filter_In; split; [by apply list_elem_of_In|by rewrite Hlive]|].
    by rewrite bool_decide_true.
  - intros key Hq. cbn. destruct rot; [|done]. by rewrite lookup_delete_None; right.
  - cbn. case_bool_decide; [by right|by left].
Qed.

(** *** Runs *)

Lemma stream_log_other key log s : seg_key s ≠ key → stream_log key (log ++ [s]) = stream_log key log.
Proof. intros Hne. rewrite stream_log_app. unfold stream_log at 2. rewrite filter_cons_False by done. apply app_nil_r. Qed.
Lemma stream_log_same log s : stream_log (seg_key s) (log ++ [s]) = stream_log (seg_key s) log ++ [s].
Proof. rewrite stream_log_app. unfold stream_log at 2. by rewrite filter_cons_True. Qed.

Lemma tracks_took r s identity r' ack gap unknown log gaps :
  tracks r log gaps → took r s identity r' (Ok (Accepted ack gap unknown)) → tracks r' (log ++ [s]) gaps.
Proof.
  intros Hr (? & ? & ? & hash & rot & _ & _ & Hh & Hpos & Ht) key.
  apply take_records_inv in Ht as ((p' & Hs & He & Hl & Hp' & _) & _ & _ & Hq & _).
  destruct (decide (seg_key s = key)) as [<- |Hne].
  - rewrite Hs, lookup_insert_eq, stream_log_same. specialize (Hr (seg_key s)) as [Hc Hr]. split.
    + destruct (rv_streams r !! seg_key s) as [p|].
      * destruct Hr as (l & a & Hlog & Hea & Hha & Hla & Hm). rewrite Hlog in Hc |- *. constructor; [done|].
        assert (seg_key a = seg_key s) as Hka.
        { assert (a ∈ stream_log (seg_key s) log) as Hin by (rewrite Hlog; set_solver). by apply list_elem_of_filter in Hin as [? _]. }
        unfold follows, seg_first, seg_epoch in *. apply position_next in Hpos as [(_ & ? & ? & ?)|(_ & ? & ? & ?)].
        -- right. split_and!; [lia|done|done].
        -- left. split_and!; [lia|lia|by eauto|]. intros q Hq'. rewrite Hka. apply Hm. lia.
      * destruct Hr as [-> _]. constructor. unfold stream_position in Hpos. case_bool_decide as Hn; [done|]. by apply eq_None_not_Some.
    + exists (stream_log (seg_key s) log), s. split_and!; [done|by rewrite He|by rewrite Hp'|by rewrite Hl|].
      intros q Hq'. rewrite Hl in Hq'. lia.
  - rewrite Hs, lookup_insert_ne, stream_log_other by done. specialize (Hr key) as [Hc Hr]. split; [done|].
    destruct (rv_streams r !! key); [done|]. destruct Hr as [? ?]. auto.
Qed.

Lemma tracks_quarantine r log gaps s p n :
  tracks r log gaps → rv_streams r !! seg_key s = Some p → tracks (r <| rv_quarantined_streams ::= <[seg_key s := n]> |>) log gaps.
Proof.
  intros Hr Hp key. specialize (Hr key) as [Hc Hr]. split; [done|]. cbn. destruct (rv_streams r !! key) eqn:Hk; [done|].
  destruct Hr as [? ?]. split; [done|]. rewrite lookup_insert_ne; [done|]. intros <-. congruence.
Qed.

Lemma tracks_gap r log gaps next f l r' answer :
  tracks r log gaps → f ≤ l → advance_declared_sequence_gap r next f l = (r', answer) →
  tracks r' log (gaps ++ match answer with Ok true => [mkMissing (stream_key next) (source_epoch next) f l] | _ => [] end).
Proof.
  intros Hr Hfl Ha. unfold advance_declared_sequence_gap in Ha.
  destruct (rv_streams r !! stream_key next) as [p|] eqn:Hp; [|injection Ha as <- <-; by rewrite app_nil_r].
  destruct (checked_add _ (sp_last_sequence p) 1) as [e|] eqn:He; [|injection Ha as <- <-; by rewrite app_nil_r].
  destruct (_ || _ || _) eqn:Hb; injection Ha as <- <-; [by rewrite app_nil_r|].
  apply orb_false_iff in Hb as [[H1 H2]%orb_false_iff H3]. apply bool_decide_eq_false, dec_stable in H1, H2, H3.
  unfold checked_add in He. case_decide; [|done]. simplify_eq.
  intros key. specialize (Hr key) as [Hc Hr]. split; [by apply chained_app|]. cbn.
  destruct (decide (key = stream_key next)) as [-> |Hne].
  - rewrite lookup_insert_eq. rewrite Hp in Hr. destruct Hr as (k & a & Hlog & Hea & Hha & Hla & Hm).
    exists k, a. cbn. split_and!; [done|done|done|lia|]. intros q Hq.
    destruct (decide (q ≤ sp_last_sequence p)); [apply missing_app, Hm; lia|].
    eexists. split; [apply elem_of_app; right; left|]. cbn. split_and!; [done|congruence|lia|lia].
  - rewrite lookup_insert_ne by done. destruct (rv_streams r !! key) as [p'|]; [|done].
    destruct Hr as (k & a & ? & ? & ? & ? & Hm). exists k, a. split_and!; try done. intros q Hq. by apply missing_app, Hm.
Qed.

(** A declared gap is not empty. *)
Definition event_ok (ev : ReceiverEvent) : Prop :=
  match ev with DeclareGap _ f l => f ≤ l | Deliver _ _ | Forget _ _ => True end.

(** Only streams the receiver knows are quarantined. *)
Definition quarantine_known r : Prop := ∀ key, rv_streams r !! key = None → rv_quarantined_streams r !! key = None.

Lemma accept_returns r s identity : quarantine_known r → is_Some (accept r s identity).
Proof.
  intros Hr. unfold accept. destruct (verify_identity s identity); [|eauto]. case_bool_decide; [eauto|].
  match goal with |- context [match rv_quarantined_streams r !! _ with Some _ => _ | None => ?x end] => set (resume := x) end.
  assert (is_Some resume) as Hres by (unfold resume; destruct (segment_hash s); eauto).
  specialize (Hr (stream_key (first_cursor (canonical s)))).
  destruct (rv_quarantined_streams r !! _) eqn:Hq; [|done]. destruct (rv_streams r !! _); [case_bool_decide; eauto|].
  by specialize (Hr eq_refl).
Qed.

Lemma accept_quarantine r s identity r' answer : accept r s identity = Some (r', answer) → quarantine_known r → quarantine_known r'.
Proof.
  intros Ha Hr key Hk. destruct (accept_inv _ _ _ _ _ Ha) as [(ack & gap & u & hash & rot & -> & _ & _ & _ & Ht)|[_ [->|(p & n & Hp & _ & ->)]]]; [|by apply Hr|].
  - apply take_records_inv in Ht as ((p & Hs & _) & _ & _ & Hq & _). rewrite Hs in Hk. apply lookup_insert_None in Hk as [Hk _]. by apply Hq, Hr.
  - cbn in *. rewrite lookup_insert_ne; [by apply Hr|]. intros <-. congruence.
Qed.

Lemma accept_total r s identity log gaps : tracks r log gaps → is_Some (accept r s identity).
Proof. intros Hr. apply accept_returns. intros key Hk. destruct (Hr key) as [_ Hr']. rewrite Hk in Hr'. apply Hr'. Qed.

Lemma tracks_step r log gaps ev :
  tracks r log gaps → event_ok ev →
  ∃ r' l g, receiver_step r ev = Some (r', l, g) ∧ tracks r' (log ++ l) (gaps ++ g).
Proof.
  intros Hr Hev. destruct ev as [s identity|next f l|cursor x]; cbn.
  - destruct (accept_total r s identity _ _ Hr) as [[r' answer] Ha]. rewrite Ha. eexists _, _, _. split; [done|]. rewrite app_nil_r.
    apply accept_inv in Ha as [Ht|[Hno Hleft]].
    + assert (∃ ack gap u, answer = Ok (Accepted ack gap u)) as (ack & gap & u & ->).
      { destruct Ht as (ack & gap & u & hash & rot & -> & _). eauto. }
      by eapply tracks_took.
    + assert (match answer with Ok (Accepted _ _ _) => [s] | _ => [] end = []) as ->.
      { destruct answer as [[ack gap u|ack]|]; [by destruct (Hno ack gap u)|done|done]. }
      rewrite app_nil_r. destruct Hleft as [-> |(p & n & Hp & _ & ->)]; [done|]. by eapply tracks_quarantine.
  - destruct (advance_declared_sequence_gap r next f l) as [r' answer] eqn:Ha. eexists _, _, _. split; [done|].
    rewrite app_nil_r. by eapply tracks_gap.
  - eexists _, _, _. split; [done|]. by rewrite !app_nil_r.
Qed.

Lemma tracks_run r log gaps evs :
  tracks r log gaps → Forall event_ok evs →
  ∃ r' l g, receiver_run r evs = Some (r', l, g) ∧ tracks r' (log ++ l) (gaps ++ g).
Proof.
  intros Hr Hev. revert r log gaps Hr. induction Hev as [|ev evs Hok _ IH]; intros r log gaps Hr; cbn.
  - eexists _, _, _. split; [done|]. by rewrite !app_nil_r.
  - destruct (tracks_step _ _ _ _ Hr Hok) as (r' & l & g & -> & Hr'). destruct (IH _ _ _ Hr') as (r'' & l' & g' & -> & Hr'').
    eexists _, _, _. split; [done|]. by rewrite !app_assoc.
Qed.

Lemma tracks_new expected schemas : tracks (for_cluster expected schemas) [] [].
Proof. intros key. split; [constructor|]. cbn. by rewrite !lookup_empty. Qed.

(** *** Equal heads *)

Definition epoch_log key (epoch : N) log : list SignedSegment := filter (λ s, seg_epoch s = epoch) (stream_log key log).

(** The segments of an epoch, linked by their hashes. *)
Inductive linked : list SignedSegment → Prop :=
  | linked_nil : linked []
  | linked_first a : previous_segment_hash (canonical a) = None → linked [a]
  | linked_next l a b h : linked (l ++ [a]) → segment_hash a = Ok h → previous_segment_hash (canonical b) = Some h →
      linked ((l ++ [a]) ++ [b]).

Lemma chained_epochs gaps l a x : chained gaps (l ++ [a]) → x ∈ l ++ [a] → seg_epoch x ≤ seg_epoch a.
Proof.
  intros Hc. remember (l ++ [a]) as k eqn:Hk. revert l a Hk x.
  induction Hc as [|b Hb|l' a' b Hc IH Hf]; intros l a Hk x Hx; [by destruct l| |].
  - apply (app_inj_tail []) in Hk as [<- <-]. by apply list_elem_of_singleton in Hx as ->.
  - apply app_inj_tail in Hk as [<- <-]. apply elem_of_app in Hx as [Hx|Hx%list_elem_of_singleton]; [|by rewrite Hx].
    specialize (IH l' a' eq_refl x Hx). destruct Hf as [[? _]|[? _]]; lia.
Qed.

Lemma chained_linked gaps l epoch : chained gaps l → linked (filter (λ s, seg_epoch s = epoch) l).
Proof.
  induction 1 as [|a Ha|l a b Hc IH Hf]; [constructor| |].
  - rewrite filter_cons. case_decide; [by constructor|constructor].
  - rewrite filter_app, (filter_cons _ b). case_decide as Hb; [|by rewrite filter_nil, app_nil_r]. rewrite filter_nil.
    destruct Hf as [(He & _ & (h & Hh & Hp) & _)|(He & _ & Hp)].
    + rewrite filter_app, (filter_cons_True _ a) in IH |- * by congruence. rewrite filter_nil in IH |- *. by econstructor.
    + assert (filter (λ s, seg_epoch s = epoch) (l ++ [a]) = []) as ->; [|by constructor].
      assert (∀ x, x ∈ filter (λ s, seg_epoch s = epoch) (l ++ [a]) → False) as Hno.
      { intros x [Hx Hin]%list_elem_of_filter. pose proof (chained_epochs _ _ _ _ Hc Hin). lia. }
      destruct (filter _ _) as [|x k]; [done|]. destruct (Hno x). left.
Qed.

Lemma linked_snoc_inv l a : linked (l ++ [a]) →
  (l = [] ∧ previous_segment_hash (canonical a) = None) ∨
  (∃ k b h, l = k ++ [b] ∧ linked (k ++ [b]) ∧ segment_hash b = Ok h ∧ previous_segment_hash (canonical a) = Some h).
Proof.
  inversion 1 as [Hk|b Hb Hk|k b c h Hl Hh Hp Hk].
  - by destruct l.
  - apply (app_inj_tail []) in Hk as [<- <-]. by left.
  - apply app_inj_tail in Hk as [<- <-]. right. eauto 8.
Qed.

Lemma linked_unique l k a :
  linked (l ++ [a]) → linked (k ++ [a]) →
  (∀ x y h, x ∈ l ++ k → y ∈ l ++ k → segment_hash x = Ok h → segment_hash y = Ok h → x = y) → l = k.
Proof.
  revert k a. induction l as [|b l IH] using rev_ind; intros k a Hl Hk Hinj.
  - apply linked_snoc_inv in Hl as [[_ Hp]|(? & ? & ? & Hn & _)]; [|by destruct x].
    apply linked_snoc_inv in Hk as [[-> _]|(? & ? & ? & _ & _ & _ & Hp')]; [done|congruence].
  - apply linked_snoc_inv in Hl as [[Hn _]|(l' & b' & h & Heq & Hl & Hh & Hp)]; [by destruct l|].
    apply app_inj_tail in Heq as [<- <-].
    apply linked_snoc_inv in Hk as [[_ Hp']|(k' & c & h' & -> & Hk & Hh' & Hp')]; [congruence|].
    assert (b = c) as <- by (apply (Hinj b c h); [set_solver|set_solver|done|congruence]).
    f_equal. apply (IH k' b); [done|done|]. intros x y h0 Hx Hy. apply Hinj; set_solver.
Qed.
End History.

(** A receiver of one cluster never panics, and what it accepts in any order of deliveries,
    declared gaps and forgotten deletions forms, stream by stream, one signed chain: the first
    segment has no predecessor; in an epoch each segment carries the hash of the one before it
    and leaves out only sequences that were declared missing; a new epoch is the next one and
    starts at zero; and the progress it keeps of the stream is the end of this chain. *)
Theorem receiver_history `{SyncCrypto} expected schemas evs :
  Forall event_ok evs →
  ∃ r log gaps, receiver_run (for_cluster expected schemas) evs = Some (r, log, gaps) ∧ tracks r log gaps.
Proof.
  intros Hev. destruct (tracks_run _ _ _ evs (tracks_new expected schemas) Hev) as (r & log & gaps & Hrun & Ht). eauto.
Qed.

(** C13: two receivers whose progress of a stream shows the same epoch and the same last hash
    have accepted the same segments of that epoch, in the same order, unless two different
    segments they hold have the same hash. *)
Theorem same_head_same_history `{SyncCrypto} expected schemas evs1 evs2 r1 r2 log1 log2 gaps1 gaps2 key p1 p2 :
  Forall event_ok evs1 → Forall event_ok evs2 →
  receiver_run (for_cluster expected schemas) evs1 = Some (r1, log1, gaps1) →
  receiver_run (for_cluster expected schemas) evs2 = Some (r2, log2, gaps2) →
  rv_streams r1 !! key = Some p1 → rv_streams r2 !! key = Some p2 →
  sp_epoch p1 = sp_epoch p2 → sp_last_segment_hash p1 = sp_last_segment_hash p2 →
  (∀ a b h, a ∈ log1 ++ log2 → b ∈ log1 ++ log2 → segment_hash a = Ok h → segment_hash b = Ok h → a = b) →
  epoch_log key (sp_epoch p1) log1 = epoch_log key (sp_epoch p2) log2.
Proof.
  intros Hev1 Hev2 Hr1 Hr2 Hp1 Hp2 He Hh Hinj.
  assert (∀ evs r log gaps p, Forall event_ok evs → receiver_run (for_cluster expected schemas) evs = Some (r, log, gaps) →
    rv_streams r !! key = Some p → ∃ l a, epoch_log key (sp_epoch p) log = l ++ [a] ∧ a ∈ log ∧ (∀ x, x ∈ l → x ∈ log) ∧
      segment_hash a = Ok (sp_last_segment_hash p) ∧ linked (l ++ [a])) as Hend.
  { intros evs r log gaps p Hev Hrun Hp. destruct (tracks_run _ _ _ evs (tracks_new expected schemas) Hev) as (? & ? & ? & Hrun' & Ht).
    rewrite Hrun in Hrun'. injection Hrun' as <- <- <-. cbn in Ht. specialize (Ht key) as [Hc Ht]. rewrite Hp in Ht.
    destruct Ht as (l & a & Hlog & Hea & Hha & _ & _). pose proof (chained_linked _ _ (sp_epoch p) Hc) as Hl.
    fold (epoch_log key (sp_epoch p) log) in Hl. assert (∀ x, x ∈ epoch_log key (sp_epoch p) log → x ∈ log) as Hin.
    { intros x [_ [_ ?]%list_elem_of_filter]%list_elem_of_filter. done. }
    unfold epoch_log in Hl, Hin |- *. rewrite Hlog, filter_app, (filter_cons_True _ a) in Hl, Hin |- * by done.
    rewrite filter_nil in Hl, Hin |- *. exists (filter (λ s, seg_epoch s = sp_epoch p) l), a.
    split_and!; [done| | |done|done]; [apply Hin; set_solver|]. intros x Hx. apply Hin. set_solver. }
  destruct (Hend _ _ _ _ _ Hev1 Hr1 Hp1) as (l1 & a1 & E1 & Ha1 & Hl1 & Hh1 & Hk1).
  destruct (Hend _ _ _ _ _ Hev2 Hr2 Hp2) as (l2 & a2 & E2 & Ha2 & Hl2 & Hh2 & Hk2).
  rewrite E1, E2. assert (a1 = a2) as <- by (apply (Hinj _ _ (sp_last_segment_hash p1)); [set_solver|set_solver|done|congruence]).
  f_equal. eapply linked_unique; [done|done|]. intros x y h Hx Hy. apply Hinj; set_solver.
Qed.

Section Closed.
Context `{SyncCrypto}.
Implicit Types (r : SegmentReceiver) (s : SignedSegment).

(** *** Deletions are remembered *)

Lemma step_tombstones r ev r' log gaps k :
  receiver_step r ev = Some (r', log, gaps) → k ∈ rv_tombstones r →
  (∀ cursor x, ev = Forget cursor x → tombstone_key cursor x ≠ k) →
  k ∈ rv_tombstones r' ∧
  ∀ s x, s ∈ log → x ∈ records (canonical s) → is_tombstone x = false → tombstone_key (first_cursor (canonical s)) x ≠ k.
Proof.
  intros Hs Hk Hf. destruct ev as [s identity|next f l|cursor x]; cbn in Hs.
  - destruct (accept r s identity) as [[r1 answer]|] eqn:Ha; [|done]. injection Hs as <- <- <-.
    apply accept_inv in Ha as [(ack & gap & u & hash & rot & -> & _ & _ & _ & Ht)|[Hno Hleft]].
    + apply take_records_inv in Ht as (_ & Hts & Hlive & _). split; [rewrite Hts; set_solver|].
      intros s' x ->%list_elem_of_singleton Hx Hl Heq. apply (Hlive x Hx Hl). by rewrite Heq.
    + assert (rv_tombstones r1 = rv_tombstones r) as -> by (by destruct Hleft as [-> |(? & ? & _ & _ & ->)]).
      split; [done|]. intros s' x Hs'. destruct answer as [[ack gap u|]|]; [by destruct (Hno ack gap u)|by apply not_elem_of_nil in Hs'..].
  - destruct (advance_declared_sequence_gap r next f l) as [r1 answer] eqn:Ha. injection Hs as <- <- <-.
    split; [|by intros s x ?%not_elem_of_nil]. unfold advance_declared_sequence_gap in Ha. by repeat case_match; simplify_eq.
  - injection Hs as <- <- <-. split; [|by intros s x' ?%not_elem_of_nil]. cbn. specialize (Hf _ _ eq_refl). set_solver.
Qed.

Lemma run_tombstones r evs r' log gaps k :
  receiver_run r evs = Some (r', log, gaps) → k ∈ rv_tombstones r →
  (∀ cursor x, Forget cursor x ∈ evs → tombstone_key cursor x ≠ k) →
  ∀ s x, s ∈ log → x ∈ records (canonical s) → is_tombstone x = false → tombstone_key (first_cursor (canonical s)) x ≠ k.
Proof.
  revert r log gaps. induction evs as [|ev evs IH]; intros r log gaps Hrun Hk Hf; cbn in Hrun.
  - injection Hrun as <- <- <-. by intros s x ?%not_elem_of_nil.
  - destruct (receiver_step r ev) as [[[r1 log1] gaps1]|] eqn:Hs; [|done].
    destruct (receiver_run r1 evs) as [[[r2 log2] gaps2]|] eqn:Hr; [|done]. injection Hrun as <- <- <-.
    destruct (step_tombstones _ _ _ _ _ _ Hs Hk) as [Hk1 Hl1]; [intros cursor x ->; apply Hf; left|].
    intros s x [Hin|Hin]%elem_of_app; [by apply Hl1|]. eapply IH; [exact Hr|done| |done]. intros c y Hin'. apply Hf. by right.
Qed.

(** *** Forked epochs stay closed *)

Definition closed r (key : StreamKey) (epoch : N) : Prop :=
  ∃ p, rv_streams r !! key = Some p ∧ (epoch < sp_epoch p ∨ (sp_epoch p = epoch ∧ is_Some (rv_quarantined_streams r !! key))).

Lemma accept_closed r s identity r' answer key epoch :
  accept r s identity = Some (r', answer) → closed r key epoch →
  closed r' key epoch ∧ (∀ ack gap u, answer = Ok (Accepted ack gap u) → seg_key s = key → seg_epoch s ≠ epoch).
Proof.
  intros Ha (p & Hp & Hcl). pose proof Ha as Ha'. apply accept_inv in Ha as [Ht|[Hno Hleft]].
  2:{ split; [|intros ack gap u Heq; by destruct (Hno ack gap u)]. destruct Hleft as [-> |(? & n & _ & _ & ->)]; exists p; [done|].
      cbn. split; [done|]. destruct Hcl as [?|[? Hq]]; [by left|right]. split; [done|]. rewrite lookup_insert_is_Some'. by right. }
  destruct Ht as (ack & gap & u & hash & rot & -> & Hv & Hh & Hpos & Ht). pose proof Ht as Ht'.
  apply take_records_inv in Ht as ((p' & Hs & Hep & _) & _ & _ & _ & _).
  destruct (decide (seg_key s = key)) as [<- |Hne].
  - rewrite Hp in Hpos. assert (seg_epoch s ≠ epoch ∧ epoch < seg_epoch s) as [Hn Hlt].
    { unfold seg_epoch. apply position_next in Hpos as [(_ & ? & _ & _)|(Hrot & ? & _ & _)]; [lia|]. destruct Hcl as [?|[? [n Hq]]]; [lia|].
      exfalso. unfold accept in Ha'. rewrite Hv in Ha'. case_bool_decide; [done|]. fold (seg_key s) in Ha'. rewrite Hq, Hp in Ha'.
      rewrite bool_decide_true in Ha' by done. done. }
    split; [|done]. exists p'. rewrite Hs, lookup_insert_eq, Hep. split; [done|]. by left.
  - split; [|done]. exists p. rewrite Hs, lookup_insert_ne by done. split; [done|]. destruct Hcl as [?|[? Hq]]; [by left|right]. split; [done|].
    unfold take_records in Ht'. destruct (_ && _); [done|]. destruct (existsb _ _); [done|]. injection Ht' as <- _ _. cbn.
    destruct rot; [|done]. by rewrite lookup_delete_ne by done.
Qed.

Lemma gap_closed r next f l r' answer key epoch :
  advance_declared_sequence_gap r next f l = (r', answer) → closed r key epoch → closed r' key epoch.
Proof.
  intros Ha (p & Hp & Hcl). unfold advance_declared_sequence_gap in Ha.
  destruct (rv_streams r !! stream_key next) as [q|] eqn:Hq; [|injection Ha as <- <-; by exists p].
  destruct (checked_add _ (sp_last_sequence q) 1); [|injection Ha as <- <-; by exists p].
  destruct (_ || _ || _); injection Ha as <- <-; [by exists p|]. unfold closed. cbn.
  destruct (decide (stream_key next = key)) as [<- |Hne]; [rewrite lookup_insert_eq|rewrite lookup_insert_ne by done; by exists p].
  rewrite Hq in Hp. injection Hp as <-. eexists. split; [done|]. by cbn.
Qed.

Lemma run_closed r evs r' log gaps key epoch :
  receiver_run r evs = Some (r', log, gaps) → closed r key epoch →
  ∀ s, s ∈ log → seg_key s = key → seg_epoch s ≠ epoch.
Proof.
  revert r log gaps. induction evs as [|ev evs IH]; intros r log gaps Hrun Hcl; cbn in Hrun.
  - injection Hrun as <- <- <-. by intros s ?%not_elem_of_nil.
  - destruct (receiver_step r ev) as [[[r1 log1] gaps1]|] eqn:Hs; [|done].
    destruct (receiver_run r1 evs) as [[[r2 log2] gaps2]|] eqn:Hr; [|done]. injection Hrun as <- <- <-.
    assert (closed r1 key epoch ∧ ∀ s, s ∈ log1 → seg_key s = key → seg_epoch s ≠ epoch) as [Hcl1 Hl1].
    { destruct ev as [s identity|next f l|cursor x]; cbn in Hs.
      - destruct (accept r s identity) as [[r3 answer]|] eqn:Ha; [|done]. injection Hs as <- <- <-.
        destruct (accept_closed _ _ _ _ _ _ _ Ha Hcl) as [? Hn]. split; [done|]. intros s' Hs'.
        destruct answer as [[ack gap u|]|]; [|by apply not_elem_of_nil in Hs'..]. apply list_elem_of_singleton in Hs' as ->. by eapply Hn.
      - destruct (advance_declared_sequence_gap r next f l) as [r3 answer] eqn:Ha. injection Hs as <- <- <-.
        split; [by eapply gap_closed|by intros s ?%not_elem_of_nil].
      - injection Hs as <- <- <-. split; [done|by intros s ?%not_elem_of_nil]. }
    intros s [Hin|Hin]%elem_of_app; [by apply Hl1|]. by eapply IH.
Qed.

Lemma position_fork p (c : CanonicalSegment) hash n : stream_position (Some p) c hash = Fork n → sp_epoch p = source_epoch (first_cursor c).
Proof.
  unfold stream_position. case_bool_decide.
  - destruct (_ || _ || _); [done|]. by destruct (sync_cursor_new _ _ _ _).
  - case_bool_decide; [done|]. intros _. lia.
Qed.

(** Only the stream_position of a segment in its stream makes a fork. *)
Definition no_fork {A} (x : result A ProtocolError) : Prop := ∀ n, x ≠ Err (ForkDetected n).

Lemma no_fork_bind {A B} (x : result A ProtocolError) (k : A → result B ProtocolError) :
  no_fork x → (∀ a, no_fork (k a)) → no_fork (rbind x k).
Proof. intros Hx Hk n. destruct x as [a|e]; cbn; [apply Hk|]. intros [= ->]. by apply (Hx n). Qed.
Lemma no_fork_ok {A} (a : A) : no_fork (Ok a).
Proof. by intros n. Qed.
Lemma no_fork_ok_or {A} (o : option A) e : (∀ n, e ≠ ForkDetected n) → no_fork (ok_or o e).
Proof. intros He n. destruct o; cbn; [done|]. intros [= Hn]. by apply (He n). Qed.
Lemma no_fork_identifier kind value : no_fork (validate_sync_identifier kind value).
Proof. intros n. unfold validate_sync_identifier. by repeat case_match. Qed.
Lemma no_fork_records l : no_fork (try_each record_validate l).
Proof.
  induction l as [|x l IH]; cbn; [apply no_fork_ok|]. apply no_fork_bind; [|done]. unfold record_validate.
  repeat (apply no_fork_bind; [apply no_fork_identifier|intros _]). intros n. by repeat case_match.
Qed.
Lemma no_fork_validate c : no_fork (segment_validate c).
Proof.
  apply no_fork_bind; [apply no_fork_identifier|intros _]. case_bool_decide; [by intros n|]. case_bool_decide; [by intros n|].
  apply no_fork_bind; [apply no_fork_records|intros _]. intros n.
  destruct (late_tombstone _); [done|]. case_bool_decide; [done|]. destruct (_ || _); [done|]. cbv zeta.
  destruct (_ || _); [done|]. by case_bool_decide.
Qed.
Lemma no_fork_bytes c : no_fork (canonical_bytes c).
Proof. apply no_fork_bind; [apply no_fork_validate|intros _; apply no_fork_ok]. Qed.
Lemma no_fork_identity s identity : no_fork (verify_identity s identity).
Proof.
  unfold verify_identity. case_bool_decide; [by intros n|]. apply no_fork_bind; [by apply no_fork_ok_or|intros key].
  apply no_fork_bind; [apply no_fork_bytes|intros bytes]. intros n. by case_match.
Qed.
Lemma no_fork_cursor a b c d : no_fork (sync_cursor_new a b c d).
Proof. unfold sync_cursor_new. do 2 (apply no_fork_bind; [apply no_fork_identifier|intros _]). intros n. by case_match. Qed.
Lemma no_fork_position progress c hash e n : stream_position progress c hash = Refused e → e ≠ ForkDetected n.
Proof.
  assert (∀ A (x : result A ProtocolError) k, no_fork x → or_refused x k = Refused e → (∀ a, k a = Refused e → e ≠ ForkDetected n) → e ≠ ForkDetected n) as Hr.
  { intros A [a|e'] k Hx; cbn; [eauto|]. intros [= ->] _ ->. by apply (Hx n). }
  unfold stream_position. destruct progress as [p|]; [|case_bool_decide; [by intros [= <-]|done]]. case_bool_decide.
  - destruct (_ || _ || _); [by intros [= <-]|]. intros Hp. eapply Hr; [apply no_fork_cursor|exact Hp|done].
  - case_bool_decide; [by intros [= <-]|]. case_bool_decide.
    + destruct (existsb _ _); intros Hp; [eapply Hr; [apply no_fork_cursor|exact Hp|done]|].
      eapply Hr; [|exact Hp|]; [by apply no_fork_ok_or|]. intros a Ha. eapply Hr; [apply no_fork_cursor|exact Ha|done].
    + intros Hp. eapply Hr; [|exact Hp|]; [by apply no_fork_ok_or|]. cbn. clear Hp. intros a. case_bool_decide; [by intros [= <-]|].
      case_bool_decide; [by intros [= <-]|done].
Qed.

Lemma fork_closes r s identity r' n :
  accept r s identity = Some (r', Err (ForkDetected n)) → closed r' (seg_key s) (seg_epoch s).
Proof.
  unfold accept. fold (seg_key s). destruct (verify_identity s identity) as [[]|e] eqn:Hv.
  2:{ intros [= _ ->]. by destruct (no_fork_identity s identity n). }
  case_bool_decide; [done|].
  match goal with |- context [match rv_quarantined_streams r !! _ with Some _ => _ | None => ?x end] => set (resume := x) end.
  assert (resume = Some (r', Err (ForkDetected n)) → closed r' (seg_key s) (seg_epoch s)) as Hres.
  2:{ destruct (rv_quarantined_streams r !! seg_key s); [|exact Hres]. destruct (rv_streams r !! seg_key s); [|done].
      case_bool_decide; [done|exact Hres]. }
  unfold resume. destruct (segment_hash s) as [hash|e] eqn:Hh.
  2:{ intros [= _ ->]. unfold segment_hash in Hh.
      by destruct (no_fork_bind _ (λ bytes, Ok (sha256 (bytes +:+ signature s))) (no_fork_bytes (canonical s)) (λ a, no_fork_ok _) n). }
  destruct (stream_position _ _ _) as [gap rot|w|m|e] eqn:Hpos.
  - unfold take_records. destruct (_ && _); [done|]. by destruct (existsb _ _).
  - done.
  - intros [= <- <-]. destruct (rv_streams r !! seg_key s) as [p|] eqn:Hp.
    + exists p. cbn. rewrite lookup_insert_eq. split; [done|]. right. split; [by eapply position_fork|by eauto].
    + unfold stream_position in Hpos. by case_bool_decide.
  - intros [= _ ->]. by destruct (no_fork_position _ _ _ _ n Hpos).
Qed.
End Closed.

(** What is closed stays closed.  After a segment has deleted a record, no later segment of
    its stream and epoch brings the record back until the deletion is forgotten; and after a
    segment has shown that a source rewrote an epoch of a stream, no segment of that epoch is
    accepted any more. *)
Theorem receiver_stays_closed `{SyncCrypto} r s identity r' evs r'' log gaps :
  receiver_run r' evs = Some (r'', log, gaps) →
  (∀ ack gap u x, accept r s identity = Some (r', Ok (Accepted ack gap u)) → x ∈ records (canonical s) → is_tombstone x = true →
     let k := tombstone_key (first_cursor (canonical s)) x in
     (∀ cursor y, Forget cursor y ∈ evs → tombstone_key cursor y ≠ k) →
     ∀ s' y, s' ∈ log → y ∈ records (canonical s') → is_tombstone y = false → tombstone_key (first_cursor (canonical s')) y ≠ k) ∧
  (∀ n, accept r s identity = Some (r', Err (ForkDetected n)) →
     ∀ s', s' ∈ log → seg_key s' = seg_key s → seg_epoch s' ≠ seg_epoch s).
Proof.
  intros Hrun. split.
  - intros ack gap u x Ha Hx Ht k Hf. eapply run_tombstones; [exact Hrun| |exact Hf].
    apply accept_inv in Ha as [(? & ? & ? & ? & ? & _ & _ & _ & _ & Htake)|[Hno _]]; [|by destruct (Hno ack gap u)].
    apply take_records_inv in Htake as (_ & -> & _). apply elem_of_union. left. unfold segment_tombstones, k.
    apply elem_of_list_to_set, list_elem_of_In, in_map, filter_In. split; [by apply list_elem_of_In|done].
  - intros n Ha. eapply run_closed; [exact Hrun|by eapply fork_closes].
Qed.

(** ** Deliveries repeated, receivers restarted *)

Section Restart.
Context `{SyncCrypto}.
Implicit Types (r : SegmentReceiver) (s : SignedSegment) (key : StreamKey).

Lemma validate_cursors c :
  segment_validate c = Ok () →
  stream_key (last_cursor c) = stream_key (first_cursor c) ∧ source_epoch (last_cursor c) = source_epoch (first_cursor c) ∧
  sequence (first_cursor c) ≤ sequence (last_cursor c).
Proof.
  unfold segment_validate. intros Hv. destruct_ok. cbv zeta in Hv. destruct_ok.
  repeat match goal with Hb : _ || _ = false |- _ => apply orb_false_iff in Hb as [? ?] end.
  repeat match goal with Hb : bool_decide (_ ≠ _) = false |- _ => apply bool_decide_eq_false, dec_stable in Hb end.
  match goal with Hb : checked_add _ _ _ = Some _ |- _ => unfold checked_add in Hb; case_decide; [|done]; injection Hb as Hb end.
  unfold stream_key. split_and!; [congruence|congruence|lia].
Qed.

Lemma hash_validates s hash : segment_hash s = Ok hash → segment_validate (canonical s) = Ok ().
Proof. unfold segment_hash, canonical_bytes. intros Hh. destruct_ok. by destruct x0. Qed.

Lemma took_unquarantined r s identity r' ack gap u :
  accept r s identity = Some (r', Ok (Accepted ack gap u)) → rv_quarantined_streams r' !! seg_key s = None.
Proof.
  intros Ha. pose proof Ha as Ha'. apply accept_inv in Ha as [(? & ? & ? & hash & rot & _ & Hv & Hh & Hpos & Ht)|[Hno _]];
    [|by destruct (Hno ack gap u)].
  unfold accept in Ha'. fold (seg_key s) in Ha'. rewrite Hv, Hh in Ha'. case_bool_decide; [done|].
  assert (rot = true ∨ rv_quarantined_streams r !! seg_key s = None) as Hor.
  { destruct (rv_quarantined_streams r !! seg_key s) as [n|]; [|by right]. destruct (rv_streams r !! seg_key s) as [p|] eqn:Hp; [|done].
    case_bool_decide as He; [done|]. apply position_next in Hpos as [[-> _]|(_ & ? & _)]; [by left|done]. }
  unfold take_records in Ht. destruct (_ && _); [done|]. destruct (existsb _ _); [done|]. injection Ht as <- _ _ _. cbn.
  destruct rot; [apply lookup_delete_eq|]. by destruct Hor.
Qed.

(** *** What a checkpoint needs *)

Record restorable r : Prop := {
  rs_streams key p : rv_streams r !! key = Some p → is_ok (progress_cursor key p) = true;
  rs_quarantined key n : rv_quarantined_streams r !! key = Some n → is_ok (quarantine_cursor key n) = true;
  rs_unknown s : s ∈ rv_forwardable_unknown_segments r → typed s ∧ segment_validate (canonical s) = Ok ()
}.

(** The segments and cursors of the events are values of their types. *)
Definition event_typed (ev : ReceiverEvent) : Prop :=
  match ev with Deliver s _ => typed s | DeclareGap next _ _ => cursor_ok next | Forget _ _ => True end.

Lemma cursor_ok_is_ok c : cursor_ok c → is_ok (sync_cursor_new (source_node_id c) (source_epoch c) (stream c) (sequence c)) = true.
Proof. unfold cursor_ok, cursor_from_proto. by intros ->. Qed.

Lemma cursor_new_smaller a b c d d' : is_ok (sync_cursor_new a b c d) = true → d' ≤ d → is_ok (sync_cursor_new a b c d') = true.
Proof.
  unfold sync_cursor_new. destruct (validate_sync_identifier _ a); [|done]. cbn. destruct (validate_sync_identifier _ c); [|done]. cbn.
  destruct (bool_decide (i64_max < b)); [done|]. cbn. case_bool_decide as H1; [done|]. intros _ Hd.
  by rewrite bool_decide_false by lia.
Qed.

Lemma position_fork_cursor p (c : CanonicalSegment) hash n :
  stream_position (Some p) c hash = Fork n → is_ok (sync_cursor_new (source_node_id (first_cursor c)) n (stream (first_cursor c)) 0) = true.
Proof.
  unfold stream_position. case_bool_decide; [destruct (_ || _ || _); [done|]; by destruct (sync_cursor_new _ _ _ _)|].
  case_bool_decide; [done|]. case_bool_decide.
  - destruct (existsb _ _); [by destruct (watermark_of _ _)|]. destruct (ok_or _ _) as [m|]; [|done]. cbn.
    destruct (sync_cursor_new _ m _ _) eqn:Hc; [|done]. intros [= <-]. by rewrite Hc.
  - destruct (ok_or _ _); [|done]. cbn. case_bool_decide; [done|]. by case_bool_decide.
Qed.

Lemma restorable_accept r s identity r' answer :
  accept r s identity = Some (r', answer) → typed s → restorable r → restorable r'.
Proof.
  intros Ha Hty [Rs Rq Ru]. apply accept_inv in Ha as [(ack & gap & u & hash & rot & -> & _ & Hh & Hpos & Ht)|[_ Hleft]].
  - apply hash_validates in Hh as Hv. destruct (validate_cursors _ Hv) as (Hk & He & _).
    pose proof (cursor_ok_is_ok _ (ty_last _ Hty)) as Hlast. unfold stream_key in Hk. injection Hk as Hk1 Hk2. rewrite Hk1, Hk2, He in Hlast.
    pose proof Ht as Ht'. apply take_records_inv in Ht as ((p' & Hs & Hep & Hls & _) & _ & _ & _ & Hun). split.
    + intros key p. rewrite Hs, lookup_insert_Some. intros [[<- <-]|[_ ?]]; [|by apply Rs].
      unfold progress_cursor. rewrite Hep, Hls. exact Hlast.
    + intros key n Hq. apply (Rq key). unfold take_records in Ht'. destruct (_ && _); [done|]. destruct (existsb _ _); [done|].
      injection Ht' as <- _ _. cbn in Hq. destruct rot; [|done]. by apply lookup_delete_Some in Hq as [_ ?].
    + intros s' Hs'. destruct Hun as [Heq|Heq]; rewrite Heq in Hs'; [by apply Ru|].
      apply elem_of_app in Hs' as [?| ->%list_elem_of_singleton]; [by apply Ru|done].
  - destruct Hleft as [-> |(p & n & Hp & [_ [hash Hfork]] & ->)]; [done|]. split; [done| |done].
    intros key m. cbn. rewrite lookup_insert_Some. intros [[<- <-]|[_ ?]]; [|by apply Rq].
    by apply position_fork_cursor in Hfork.
Qed.

Lemma restorable_step r ev r' log gaps :
  receiver_step r ev = Some (r', log, gaps) → event_typed ev → restorable r →
  restorable r' ∧ rv_expected_cluster_id r' = rv_expected_cluster_id r ∧ rv_schemas r' = rv_schemas r.
Proof.
  intros Hs Hty Hr. destruct ev as [s identity|next f l|cursor x]; cbn in Hs.
  - destruct (accept r s identity) as [[r1 answer]|] eqn:Ha; [|done]. injection Hs as <- <- <-.
    split; [by eapply restorable_accept|]. apply accept_inv in Ha as [(? & ? & ? & ? & ? & -> & _ & _ & _ & Ht)|[_ Hl]].
    + unfold take_records in Ht. destruct (_ && _); [done|]. destruct (existsb _ _); [done|]. by injection Ht as <- _ _.
    + by destruct Hl as [-> |(? & ? & _ & _ & ->)].
  - destruct (advance_declared_sequence_gap r next f l) as [r1 answer] eqn:Ha. injection Hs as <- <- <-.
    unfold advance_declared_sequence_gap in Ha.
    destruct (rv_streams r !! stream_key next) as [p|] eqn:Hp; [|by injection Ha as <- <-].
    destruct (checked_add _ (sp_last_sequence p) 1); [|by injection Ha as <- <-].
    destruct (_ || _ || _) eqn:Hb; injection Ha as <- <-; [done|]. split; [|done].
    apply orb_false_iff in Hb as [[H1 H2]%orb_false_iff H3]. apply bool_decide_eq_false, dec_stable in H1, H3.
    destruct Hr as [Rs Rq Ru]. split; [|done|done]. intros key q. cbn. rewrite lookup_insert_Some. intros [[<- <-]|[_ ?]]; [|by apply Rs].
    unfold progress_cursor. cbn. rewrite H1. eapply cursor_new_smaller; [by apply cursor_ok_is_ok|].
    unfold checked_add in H3. case_decide; [|done]. injection H3 as <-. lia.
  - injection Hs as <- <- <-. destruct Hr as [Rs Rq Ru]. by split.
Qed.

Lemma restorable_run r evs r' log gaps :
  receiver_run r evs = Some (r', log, gaps) → Forall event_typed evs → restorable r →
  restorable r' ∧ rv_expected_cluster_id r' = rv_expected_cluster_id r ∧ rv_schemas r' = rv_schemas r.
Proof.
  intros Hrun Hty. revert r log gaps Hrun. induction Hty as [|ev evs Hev _ IH]; intros r log gaps Hrun Hr; cbn in Hrun.
  - by injection Hrun as <- <- <-.
  - destruct (receiver_step r ev) as [[[r1 log1] gaps1]|] eqn:Hs; [|done].
    destruct (receiver_run r1 evs) as [[[r2 log2] gaps2]|] eqn:Hr1; [|done]. injection Hrun as <- <- <-.
    destruct (restorable_step _ _ _ _ _ Hs Hev Hr) as (Hok & He & Hsch). destruct (IH _ _ _ Hr1 Hok) as (? & ? & ?).
    split_and!; [done|congruence|congruence].
Qed.

Lemma restorable_new expected schemas : restorable (for_cluster expected schemas).
Proof. split; cbn; [by intros key p|by intros key n|by intros s ?%not_elem_of_nil]. Qed.

Lemma restore_map_entries {V} (check : StreamKey → V → result Cursor ProtocolError) (m : gmap StreamKey V) :
  (∀ key v, m !! key = Some v → is_ok (check key v) = true) → restore_map check (entries m) = Ok m.
Proof.
  intros Hc. apply try_fold_insert. intros acc k v Hm Hacc. specialize (Hc _ _ Hm). cbn. destruct (check k v); [|done]. cbn.
  by rewrite bool_decide_false by (rewrite Hacc; by intros []).
Qed.

Lemma try_map_wire (l : list SignedSegment) ws :
  try_map wire_bytes l = Ok ws → (∀ s, s ∈ l → typed s ∧ segment_validate (canonical s) = Ok ()) → try_map from_wire ws = Ok l.
Proof.
  revert ws. induction l as [|s l IH]; intros ws Hw Hl; cbn in Hw; [by injection Hw as <-|].
  destruct (wire_bytes s) as [w|] eqn:Hs; [|done]. cbn in Hw. destruct (try_map wire_bytes l) as [ws'|] eqn:Hws; [|done].
  injection Hw as <-. cbn. destruct (Hl s) as [? ?]; [left|]. rewrite (from_wire_bytes s w) by done. cbn.
  rewrite (IH ws' eq_refl); [done|]. intros s' Hs'. apply Hl. by right.
Qed.

(** Within the limits of a checkpoint. *)
Definition fits_checkpoint r : Prop :=
  N.of_nat (size (rv_streams r)) ≤ MAX_RESTORED_STREAMS ∧ N.of_nat (size (rv_quarantined_streams r)) ≤ MAX_RESTORED_STREAMS ∧
  N.of_nat (size (rv_tombstones r)) ≤ MAX_RESTORED_TOMBSTONES ∧
  N.of_nat (length (rv_forwardable_unknown_segments r)) ≤ MAX_UNKNOWN_FORWARD_SEGMENTS.

Lemma try_map_length {A B E} (f : A → result B E) l k : try_map f l = Ok k → length k = length l.
Proof.
  revert k. induction l as [|x l IH]; intros k Hk; cbn in Hk; [by injection Hk as <-|].
  destruct (f x); [|done]. cbn in Hk. destruct (try_map f l) as [k'|]; [|done]. injection Hk as <-. cbn. f_equal. by apply IH.
Qed.

Lemma checkpoint_restores r c :
  restorable r → fits_checkpoint r → receiver_checkpoint r = Ok c →
  receiver_from_checkpoint (rv_expected_cluster_id r) (rv_schemas r) c = Ok r.
Proof.
  intros [Rs Rq Ru] (H1 & H2 & H3 & H4) Hc. unfold receiver_checkpoint in Hc.
  destruct (try_map wire_bytes _) as [ws|] eqn:Hws; [|done]. injection Hc as <-. unfold receiver_from_checkpoint.
  cbn [rp_streams rp_quarantined_streams rp_tombstones rp_forwardable_unknown_segments].
  rewrite !entries_length, (try_map_length _ _ _ Hws).
  rewrite !bool_decide_false by lia. cbn [orb]. rewrite (try_map_wire _ _ Hws Ru). cbn [rbind].
  rewrite restore_map_entries by done. cbn [rbind]. rewrite restore_map_entries by done. by destruct r.
Qed.
End Restart.

(** Deliveries can be repeated and the receiver restarted.  A segment that was accepted and
    arrives again is acknowledged with the same watermark and changes nothing; and a receiver
    that was checkpointed within the limits of a checkpoint is restored as it was, whatever it
    had received. *)
Theorem receiver_restart `{SyncCrypto} expected schemas evs r log gaps s identity r' ack gap u c :
  Forall event_typed evs → typed s →
  receiver_run (for_cluster expected schemas) evs = Some (r, log, gaps) →
  accept r s identity = Some (r', Ok (Accepted ack gap u)) →
  accept r' s identity = Some (r', Ok (Duplicate ack)) ∧
  (fits_checkpoint r' → receiver_checkpoint r' = Ok c → receiver_from_checkpoint expected schemas c = Ok r').
Proof.
  intros Hevs Hty Hrun Ha. destruct (restorable_run _ _ _ _ _ Hrun Hevs (restorable_new expected schemas)) as (Hr & He & Hsch).
  pose proof (took_unquarantined _ _ _ _ _ _ _ Ha) as Hq. pose proof Ha as Ha'.
  apply accept_inv in Ha' as [(? & ? & ? & hash & rot & Hans & Hv & Hh & Hpos & Ht)|[Hno _]]; [|by destruct (Hno ack gap u)].
  assert (rv_expected_cluster_id r' = rv_expected_cluster_id r ∧ rv_schemas r' = rv_schemas r ∧ ack = last_cursor (canonical s) ∧
    rv_expected_cluster_id r = cluster_id (canonical s)) as (He' & Hsch' & Hack & Hcl).
  { unfold accept in Ha. rewrite Hv in Ha. case_bool_decide; [done|].
    unfold take_records in Ht. destruct (_ && _); [done|]. destruct (existsb _ _); [done|]. injection Ht as <- -> _ _. by split_and!. }
  split.
  - apply take_records_inv in Ht as ((p' & Hs & Hep & Hls & _ & Hrec) & _). unfold accept. fold (seg_key s).
    rewrite Hv, Hh, Hq, Hs, lookup_insert_eq, He'. rewrite bool_decide_false by (rewrite Hcl; auto).
    destruct (validate_cursors _ (hash_validates _ _ Hh)) as (Hk & Hke & Hle).
    assert (existsb (known_range (seg_first s) (seg_last s) hash) (sp_recent_segments p') = true) as Hex.
    { apply existsb_exists. eexists. split; [by apply list_elem_of_In|]. unfold known_range. cbn. by rewrite !bool_decide_true. }
    unfold stream_position. rewrite Hep, Hls. unfold seg_epoch. rewrite !bool_decide_false by lia.
    rewrite (bool_decide_true (sequence _ ≤ seg_last s)) by done. fold (seg_first s) (seg_last s). rewrite Hex.
    assert (watermark_of p' (first_cursor (canonical s)) = Ok (last_cursor (canonical s))) as ->; [|by rewrite Hack].
    unfold watermark_of, with_sequence. rewrite Hls. unfold seg_last. pose proof (ty_last _ Hty) as Hlast.
    unfold cursor_ok, cursor_from_proto in Hlast. unfold stream_key in Hk. injection Hk as Hk1 Hk2. by rewrite Hk1, Hk2, Hke in Hlast.
  - intros Hfit Hc. assert (restorable r') as Hr' by (by eapply restorable_accept).
    cbn in He, Hsch. pose proof (checkpoint_restores r' c Hr' Hfit Hc) as Hres. by rewrite He', Hsch', He, Hsch in Hres.
Qed.

(** ** Examples *)

Module SyncSample.

(** A codec in the shape of the message: strings and the binary digits of numbers, each closed
    by a mark; hashes cut to their length; signatures that repeat the key and the message. *)
Fixpoint mark (l : list ascii) : list ascii :=
  match l with [] => ["0"%char] | c :: l => "1"%char :: c :: mark l end.
Fixpoint unmark (acc : list ascii) (l : list ascii) : list string :=
  match l with
  | [] => []
  | a :: l' => if bool_decide (a = "0"%char) then of_chars (reverse acc) :: unmark [] l'
               else match l' with c :: l'' => unmark (c :: acc) l'' | [] => [] end
  end.

Lemma unmark_mark l acc rest : unmark acc (mark l ++ rest) = of_chars (reverse acc ++ l) :: unmark [] rest.
Proof.
  revert acc. induction l as [|c l IH]; intros acc; cbn [mark app unmark].
  - rewrite bool_decide_true by done. by rewrite app_nil_r.
  - rewrite bool_decide_false by done. rewrite IH. by rewrite reverse_cons, <-app_assoc.
Qed.

Definition pack (l : list string) : string := of_chars (l ≫= λ s, mark (chars s)).
Definition unpack (s : string) : list string := unmark [] (chars s).
Lemma unpack_pack l : unpack (pack l) = l.
Proof.
  unfold unpack, pack. rewrite chars_of_chars. induction l as [|s l IH]; [done|]. cbn. rewrite unmark_mark. cbn.
  by rewrite IH, of_chars_chars.
Qed.

Fixpoint digits (p : positive) : list ascii :=
  match p with xH => [] | xO p => "0"%char :: digits p | xI p => "1"%char :: digits p end.
Fixpoint undigits (l : list ascii) : positive :=
  match l with [] => xH | c :: l => if bool_decide (c = "0"%char) then xO (undigits l) else xI (undigits l) end.
Lemma undigits_digits p : undigits (digits p) = p.
Proof. induction p as [p IH|p IH|]; cbn; [|by rewrite IH..|done]. by rewrite IH. Qed.
Definition number (n : N) : string := of_chars (digits (N.succ_pos n)).
Definition unnumber (s : string) : N := Pos.pred_N (undigits (chars s)).
Lemma unnumber_number n : unnumber (number n) = n.
Proof. unfold unnumber, number. rewrite chars_of_chars, undigits_digits. apply N.pos_pred_succ. Qed.

Definition put_cursor (c : option Cursor) : list string :=
  match c with
  | None => [""; ""; ""; ""; ""]
  | Some c => ["c"; source_node_id c; number (source_epoch c); stream c; number (sequence c)]
  end.
Definition get_cursor (tag a b c d : string) : option Cursor :=
  if bool_decide (tag = "c") then Some (mkCursor a (unnumber b) c (unnumber d)) else None.
Definition put_record (r : SyncRecord) : list string :=
  [subject_node_id r; observer_node_id r; schema_id r; number (schema_version r); record_key r; payload r;
   if is_tombstone r then "t" else "f"].
Fixpoint get_records (l : list string) : list SyncRecord :=
  match l with
  | a :: b :: c :: d :: e :: f :: t :: l => mkSyncRecord a b c (unnumber d) e f (bool_decide (t = "t")) :: get_records l
  | _ => []
  end.
Lemma get_put_records l : get_records (l ≫= put_record) = l.
Proof.
  induction l as [|r l IH]; [done|]. cbn. rewrite IH, unnumber_number. destruct r as [? ? ? ? ? ? []]; cbn; done.
Qed.

Definition put_segment (p : ProtoSegment) : list string :=
  [pr_cluster_id p; pr_previous_segment_hash p; number (pr_opened_at_unix_seconds p); number (pr_closed_at_unix_seconds p);
   pr_signature p; pr_records_hash p] ++ put_cursor (pr_first_cursor p) ++ put_cursor (pr_last_cursor p) ++
  (pr_records p ≫= put_record).
Definition get_segment (l : list string) : option ProtoSegment :=
  match l with
  | cl :: pv :: op :: cs :: sg :: rh :: t1 :: a1 :: b1 :: c1 :: d1 :: t2 :: a2 :: b2 :: c2 :: d2 :: rs =>
      Some (mkProtoSegment cl (get_cursor t1 a1 b1 c1 d1) (get_cursor t2 a2 b2 c2 d2) (get_records rs) pv
              (unnumber op) (unnumber cs) sg rh)
  | _ => None
  end.

Definition fit (n : nat) (s : string) : string := of_chars (take n (chars s ++ replicate n "."%char)).
Lemma fit_length n s : String.length (fit n s) = n.
Proof. unfold fit. rewrite <-length_chars, chars_of_chars, length_take, length_app, length_replicate. lia. Qed.

#[local] Instance plain_sync : SyncCrypto.
Proof.
  refine {|
    encode_to_vec := λ m, pack (put_segment m);
    decode := λ s, get_segment (unpack s);
    encode_length_delimited := λ r, pack (put_record r);
    sha256 := fit 32;
    SigningKey := string;
    VerifyingKey := string;
    ed25519_sign := λ k m, fit 64 (k +:+ m);
    ed25519_verify := λ k m s, bool_decide (s = fit 64 (k +:+ m));
    verifying_key := λ k, k;
    verifying_key_from_bytes := λ b, Some (of_chars (bytes b))
  |}.
  - intros m. rewrite unpack_pack. destruct m as [cl f l rs pv op cs sg rh].
    unfold put_segment. cbn [pr_cluster_id pr_first_cursor pr_last_cursor pr_records pr_previous_segment_hash
      pr_opened_at_unix_seconds pr_closed_at_unix_seconds pr_signature pr_records_hash].
    assert (∀ c, ∃ t a b s d, put_cursor c = [t; a; b; s; d] ∧ get_cursor t a b s d = c) as Hcur.
    { intros [[a b s d]|]; cbn; do 5 eexists; (split; [done|]); unfold get_cursor;
        [rewrite bool_decide_true by done; by rewrite !unnumber_number|done]. }
    destruct (Hcur f) as (? & ? & ? & ? & ? & -> & <-). destruct (Hcur l) as (? & ? & ? & ? & ? & -> & <-). cbn.
    by rewrite !unnumber_number, get_put_records.
  - intros m. apply fit_length.
  - intros k m. apply fit_length.
  - intros k m. by apply bool_decide_eq_true.
Defined.

Definition get {A E} (d : A) (r : result A E) : A := match r with Ok a => a | Err _ => d end.
Lemma get_ok {A E} (d : A) (r : result A E) : is_ok r = true → r = Ok (get d r).
Proof. by destruct r. Qed.

Definition key_a : @SigningKey plain_sync := "key-a".
Definition start : Cursor := mkCursor "node-a" 3 "runtime" 0.
Definition removal : SyncRecord := mkSyncRecord "node-a" "node-a" "runtime.v1" 1 "k1" "" true.
Definition sample : SyncRecord := mkSyncRecord "node-a" "node-a" "runtime.v1" 1 "k2" "up" false.
Definition blank : CanonicalSegment := mkSegment "" start start [] "" None 0 0.

(** A first segment with a deletion, the next one, and another that claims the place of the first. *)
Definition segment1 : CanonicalSegment := get blank (segment_new "c1" start [removal; sample] None 100 110).
Definition signed1 : SignedSegment := get (mkSigned blank "") (sign_segment segment1 key_a).
Definition wire1 : string := get "" (wire_bytes signed1).
Definition hash1 : string := get "" (segment_hash signed1).
Definition segment2 : CanonicalSegment :=
  get blank (segment_new "c1" (mkCursor "node-a" 3 "runtime" 2) [sample] (Some hash1) 110 120).
Definition signed2 : SignedSegment := get (mkSigned blank "") (sign_segment segment2 key_a).
Definition rewritten : SignedSegment :=
  get (mkSigned blank "") (sign_segment (get blank (segment_new "c1" start [sample] None 100 110)) key_a).
Definition node_a : RepositoryNodeIdentity := mkRepositoryNodeIdentity "node-a" [107; 101; 121; 45; 97] [120].

Lemma segment1_ok : segment_new "c1" start [removal; sample] None 100 110 = Ok segment1.
Proof. apply get_ok. vm_compute. reflexivity. Qed.
Lemma signed1_ok : sign_segment segment1 key_a = Ok signed1.
Proof. apply get_ok. vm_compute. reflexivity. Qed.
Lemma wire1_ok : wire_bytes signed1 = Ok wire1.
Proof. apply get_ok. vm_compute. reflexivity. Qed.

Lemma segment_roundtrip_witness : from_wire wire1 = Ok signed1 ∧ verify_identity signed1 node_a = Ok ().
Proof.
  destruct (segment_roundtrip "c1" start [removal; sample] None 100 110 segment1 key_a signed1 wire1 node_a) as (H1 & H2 & _).
  - vm_compute. reflexivity.
  - discriminate.
  - exact segment1_ok.
  - exact signed1_ok.
  - exact wire1_ok.
  - reflexivity.
  - reflexivity.
  - exact (conj H1 H2).
Defined.

Definition known : gset (string * N) := {[("runtime.v1", 1)]}.
Definition deliveries : list ReceiverEvent := [Deliver signed1 node_a; Deliver signed1 node_a; Deliver signed2 node_a].

Lemma deliveries_ok : Forall event_ok deliveries.
Proof. unfold deliveries. repeat (apply Forall_cons; split; [exact I|]). apply Forall_nil. exact I. Qed.

Lemma receiver_history_witness :
  ∃ r log gaps, receiver_run (for_cluster "c1" known) deliveries = Some (r, log, gaps) ∧ tracks r log gaps.
Proof. exact (receiver_history "c1" known deliveries deliveries_ok). Defined.

(** The state and the log after the deliveries. *)
Definition after (evs : list ReceiverEvent) : SegmentReceiver * list SignedSegment * list Missing :=
  default (for_cluster "c1" known, [], []) (receiver_run (for_cluster "c1" known) evs).
Lemma after_ok evs : bool_decide (is_Some (receiver_run (for_cluster "c1" known) evs)) = true →
  receiver_run (for_cluster "c1" known) evs = Some ((after evs).1.1, (after evs).1.2, (after evs).2).
Proof. unfold after. intros [[[r log] g] ->]%bool_decide_eq_true. done. Qed.

(** The same stream received with and without a repeated delivery. *)
Definition once : list ReceiverEvent := [Deliver signed1 node_a; Deliver signed2 node_a].
Definition key_runtime : StreamKey := ("node-a", "runtime").
Definition progress_in (evs : list ReceiverEvent) : StreamProgress :=
  default (mkProgress 0 0 "" []) (rv_streams (after evs).1.1 !! key_runtime).

Lemma once_ok : Forall event_ok once.
Proof. unfold once. repeat (apply Forall_cons; split; [exact I|]). apply Forall_nil. exact I. Qed.

Lemma logs_equal : (after deliveries).1.2 = [signed1; signed2] ∧ (after once).1.2 = [signed1; signed2].
Proof. split; vm_compute; reflexivity. Qed.
Lemma hashes_differ : bool_decide (segment_hash signed1 = segment_hash signed2) = false.
Proof. vm_compute. reflexivity. Qed.
Lemma same_progress : progress_in deliveries = progress_in once ∧
  rv_streams (after deliveries).1.1 !! key_runtime = Some (progress_in deliveries) ∧
  rv_streams (after once).1.1 !! key_runtime = Some (progress_in once).
Proof. split_and!; vm_compute; reflexivity. Qed.

Lemma two_distinct (x y : SignedSegment) :
  segment_hash x ≠ segment_hash y → ∀ a b h, a ∈ [x; y] ++ [x; y] → b ∈ [x; y] ++ [x; y] →
  segment_hash a = Ok h → segment_hash b = Ok h → a = b.
Proof.
  intros Hne a b h Ha Hb Hha Hhb. rewrite elem_of_app, !elem_of_cons, elem_of_nil in Ha, Hb.
  assert (a = x ∨ a = y) as Ha' by tauto. assert (b = x ∨ b = y) as Hb' by tauto. clear Ha Hb.
  destruct Ha' as [-> | ->], Hb' as [-> | ->]; try done; exfalso; apply Hne; congruence.
Qed.

Lemma same_head_same_history_witness :
  epoch_log key_runtime 3 [signed1; signed2] = [signed1; signed2] ∧
  epoch_log key_runtime (sp_epoch (progress_in deliveries)) (after deliveries).1.2 =
  epoch_log key_runtime (sp_epoch (progress_in once)) (after once).1.2.
Proof.
  split; [vm_compute; reflexivity|]. destruct same_progress as (Hp & Hd & Ho). destruct logs_equal as [Hl1 Hl2].
  apply (same_head_same_history "c1" known deliveries once (after deliveries).1.1 (after once).1.1 (after deliveries).1.2 (after once).1.2
    (after deliveries).2 (after once).2 key_runtime _ _ deliveries_ok once_ok).
  - apply after_ok. vm_compute. reflexivity.
  - apply after_ok. vm_compute. reflexivity.
  - exact Hd.
  - exact Ho.
  - exact (f_equal sp_epoch Hp).
  - exact (f_equal sp_last_segment_hash Hp).
  - rewrite Hl1, Hl2. apply two_distinct. exact (bool_decide_eq_false_1 _ hashes_differ).
Defined.

(** A receiver that took the first segment, saw it rewritten, and is sent the second. *)
Definition took1 : SegmentReceiver := (after [Deliver signed1 node_a]).1.1.
Definition answer_of (x : option (SegmentReceiver * result Acceptance ProtocolError)) : SegmentReceiver * result Acceptance ProtocolError :=
  default (for_cluster "c1" known, Err InvalidWire) x.
Definition forked : SegmentReceiver := (answer_of (accept took1 rewritten node_a)).1.

Lemma forked_ok : accept took1 rewritten node_a = Some (forked, Err (ForkDetected 4)).
Proof.
  assert (match accept took1 rewritten node_a with Some (_, Err (ForkDetected n)) => N.eqb n 4 | _ => false end = true) as H
    by (vm_compute; reflexivity).
  unfold forked. destruct (accept took1 rewritten node_a) as [[r [a|e]]|]; [done| |done].
  destruct e; try done. apply N.eqb_eq in H as ->. done.
Qed.

Definition resent : list ReceiverEvent := [Deliver signed2 node_a; Deliver signed1 node_a].
Lemma resent_runs : ∃ r log gaps, receiver_run forked resent = Some (r, log, gaps).
Proof.
  assert (bool_decide (is_Some (receiver_run forked resent)) = true) as H by (vm_compute; reflexivity).
  apply bool_decide_eq_true in H as [[[r log] gaps] H]. by exists r, log, gaps.
Qed.

Lemma receiver_stays_closed_witness :
  ∃ r log gaps, receiver_run forked resent = Some (r, log, gaps) ∧
  ∀ s', s' ∈ log → seg_key s' = seg_key rewritten → seg_epoch s' ≠ seg_epoch rewritten.
Proof.
  destruct resent_runs as (r & log & gaps & Hrun). exists r, log, gaps. split; [exact Hrun|].
  destruct (receiver_stays_closed took1 rewritten node_a forked resent r log gaps Hrun) as [_ H]. exact (H 4 forked_ok).
Defined.

Lemma signed_typed s : bool_decide (cursor_from_proto (first_cursor (canonical s)) = Ok (first_cursor (canonical s))) &&
  bool_decide (cursor_from_proto (last_cursor (canonical s)) = Ok (last_cursor (canonical s))) &&
  bool_decide (String.length (records_hash (canonical s)) = 32%nat) && bool_decide (String.length (signature s) = 64%nat) &&
  bool_decide (previous_segment_hash (canonical s) = None) = true → typed s.
Proof.
  rewrite !andb_true_iff, !bool_decide_eq_true. intros [[[[? ?] ?] ?] Hp]. split; [done..| |done]. intros h. by rewrite Hp.
Qed.

(** The first delivery is accepted. *)
Definition took_first : option (SegmentReceiver * Cursor * option CursorGap * N) :=
  match accept (for_cluster "c1" known) signed1 node_a with
  | Some (r, Ok (Accepted ack gap u)) => Some (r, ack, gap, u)
  | _ => None
  end.
Lemma took_first_ok : ∃ r gap u, took1 = r ∧
  accept (for_cluster "c1" known) signed1 node_a = Some (r, Ok (Accepted (mkCursor "node-a" 3 "runtime" 1) gap u)).
Proof.
  assert ((λ x, x.1.1.2) <$> took_first = Some (mkCursor "node-a" 3 "runtime" 1)) as H by (vm_compute; reflexivity).
  unfold took1, after, took_first in *. cbn [receiver_run receiver_step].
  destruct (accept (for_cluster "c1" known) signed1 node_a) as [[r [[ack gap u|]|]]|]; try done.
  cbn in H. injection H as ->. by exists r, gap, u.
Qed.

Lemma receiver_restart_witness : accept took1 signed1 node_a = Some (took1, Ok (Duplicate (mkCursor "node-a" 3 "runtime" 1))).
Proof.
  destruct took_first_ok as (r & gap & u & -> & Hr).
  destruct (receiver_restart "c1" known [] (for_cluster "c1" known) [] [] signed1 node_a r (mkCursor "node-a" 3 "runtime" 1) gap u
    (mkReceiverCheckpoint [] ∅ [] [])) as [H _].
  - apply Forall_nil. exact I.
  - apply signed_typed. vm_compute. reflexivity.
  - reflexivity.
  - exact Hr.
  - exact H.
Defined.
End SyncSample.
