(* ===== verification/HistoryTransport.v ===== *)
(** * How history travels between repositories

    The transport of [src/history_sync]: the bounded compression of a response
    ([encoding.rs]), the choice between the direct paths to a peer and a relay ([path.rs])
    and the sealed frames a relay forwards ([relay.rs]).  zstd, X25519 and the authenticated
    cipher are parameters with the documented laws the code relies on. *)

From S2P Require Import Prelude Text Search Ordered HistorySync.
Open Scope string_scope.
Open Scope list_scope.
Open Scope N_scope.

(** ** Compressed responses *)

Definition IDENTITY_THRESHOLD_BYTES : N := 4 * 1024.
Definition MAX_DECOMPRESSION_EXPANSION_RATIO : N := 2048.

Definition sat_mul (width_max a b : N) : N := N.min (a * b) width_max.

Inductive PayloadEncoding : Type := Identity | ZstandardLevel1.
#[global] Instance PayloadEncoding_eq_dec : EqDecision PayloadEncoding.
Proof. solve_decision. Defined.

(** [zstd::stream::encode_all] at level 1, and the reads of a [Decoder] until the empty one:
    [None] if it cannot be opened, and [None] in the list for a read that fails.  What was
    compressed is read back in non-empty chunks. *)
Class Zstd := {
  zstd_encode_all : string → option string;
  zstd_reads : string → option (list (option string));
  zstd_roundtrip x z : zstd_encode_all x = Some z →
    ∃ chunks, zstd_reads z = Some (map Some chunks) ∧ String.concat "" chunks = x ∧ Forall (λ c, c ≠ "") chunks
}.

Section Encoding.
Context `{Zstd}.

(** [encoding::encode] *)
Definition encode_payload (canonical : string) : result (PayloadEncoding * string) ProtocolError :=
  if bool_decide (MAX_RESPONSE_CANONICAL_BYTES < str_len canonical) then Err (ResponseCanonicalLimit (str_len canonical))
  else if bool_decide (str_len canonical < IDENTITY_THRESHOLD_BYTES) then Ok (Identity, canonical)
  else
    let? compressed := ok_or (zstd_encode_all canonical) CompressionFailed in
    let encoding := if bool_decide (str_len compressed < str_len canonical)
                       && bool_decide (str_len canonical ≤ sat_mul u64_max (str_len compressed) MAX_DECOMPRESSION_EXPANSION_RATIO)
                    then ZstandardLevel1 else Identity in
    let wire := match encoding with Identity => canonical | ZstandardLevel1 => compressed end in
    if bool_decide (MAX_RESPONSE_WIRE_BYTES < str_len wire) then Err (WireLimit (str_len wire)) else Ok (encoding, wire).

(** The loop of [decode_zstandard_bounded] over the reads that are left. *)
Fixpoint read_bounded (max_expanded_len : N) (canonical : string) (reads : list (option string)) : result string ProtocolError :=
  match reads with
  | [] => Ok canonical
  | None :: _ => Err InvalidWire
  | Some chunk :: reads =>
      if bool_decide (chunk = "") then Ok canonical
      else
        let next_len := sat_add u64_max (str_len canonical) (str_len chunk) in
        if bool_decide (MAX_RESPONSE_CANONICAL_BYTES < next_len) then Err (ResponseCanonicalLimit next_len)
        else if bool_decide (max_expanded_len < next_len) then Err CompressionExpansionLimit
        else read_bounded max_expanded_len (canonical +:+ chunk) reads
  end.

Definition decode_zstandard_bounded (wire : string) : result string ProtocolError :=
  let? reads := ok_or (zstd_reads wire) InvalidWire in
  let max_expanded_len := N.min (sat_mul u64_max (str_len wire) MAX_DECOMPRESSION_EXPANSION_RATIO) MAX_RESPONSE_CANONICAL_BYTES in
  read_bounded max_expanded_len "" reads.

Definition validate_wire (encoding : PayloadEncoding) (canonical_len : N) (wire : string) : result () ProtocolError :=
  if bool_decide (MAX_RESPONSE_CANONICAL_BYTES < canonical_len) then Err (ResponseCanonicalLimit canonical_len)
  else if bool_decide (MAX_RESPONSE_WIRE_BYTES < str_len wire) then Err (WireLimit (str_len wire))
  else
    match encoding with
    | Identity =>
        if bool_decide (canonical_len ≠ str_len wire) then Err InvalidWire
        else if bool_decide (IDENTITY_THRESHOLD_BYTES ≤ canonical_len) then
          let? compressed := ok_or (zstd_encode_all wire) CompressionFailed in
          if bool_decide (str_len compressed < str_len wire) then Err EncodingDecision else Ok ()
        else Ok ()
    | ZstandardLevel1 =>
        if bool_decide (canonical_len < IDENTITY_THRESHOLD_BYTES) then Err EncodingDecision
        else
          let? canonical := decode_zstandard_bounded wire in
          if bool_decide (str_len canonical ≠ canonical_len) then Err InvalidWire
          else if bool_decide (str_len canonical ≤ str_len wire) then Err EncodingDecision
          else Ok ()
    end.

(** [encoding::decode] *)
Definition decode_payload (encoding : PayloadEncoding) (wire : string) (expected_len : N) : result string ProtocolError :=
  let? _ := validate_wire encoding expected_len wire in
  let? canonical := match encoding with
                    | Identity => Ok wire
                    | ZstandardLevel1 => decode_zstandard_bounded wire
                    end in
  if bool_decide (str_len canonical ≠ expected_len) then Err InvalidWire else Ok canonical.

(** [EncodedResponse] *)
Record EncodedResponse : Type := mkEncoded { er_encoding : PayloadEncoding; er_wire : string; er_canonical_len : N }.

Definition response_encode (canonical : string) : result EncodedResponse ProtocolError :=
  let? (encoding, wire) := encode_payload canonical in Ok (mkEncoded encoding wire (str_len canonical)).
Definition response_from_wire (encoding : PayloadEncoding) (canonical_len : N) (wire : string) : result EncodedResponse ProtocolError :=
  let? _ := validate_wire encoding canonical_len wire in Ok (mkEncoded encoding wire canonical_len).
Definition response_decode (e : EncodedResponse) : result string ProtocolError :=
  decode_payload (er_encoding e) (er_wire e) (er_canonical_len e).

(** *** Reading back *)

Lemma str_len_app a b : str_len (a +:+ b) = str_len a + str_len b.
Proof. unfold str_len. rewrite <-!length_chars, chars_app, length_app. lia. Qed.
Lemma str_len_zero a : str_len a = 0 ↔ a = "".
Proof. unfold str_len. destruct a; cbn; [done|]. split; [lia|done]. Qed.
Lemma app_nil_str (a : string) : a +:+ "" = a.
Proof. rewrite <-(of_chars_chars (a +:+ "")), chars_app. cbn. by rewrite app_nil_r, of_chars_chars. Qed.
Lemma concat_cons (x : string) l : String.concat "" (x :: l) = x +:+ String.concat "" l.
Proof. destruct l as [|y l]; cbn; [|done]. by rewrite app_nil_str. Qed.
Lemma app_assoc_str (a b c : string) : (a +:+ b) +:+ c = a +:+ (b +:+ c).
Proof.
  rewrite <-(of_chars_chars ((a +:+ b) +:+ c)), <-(of_chars_chars (a +:+ (b +:+ c))). f_equal. by rewrite !chars_app, app_assoc.
Qed.

Lemma read_bounded_chunks limit acc chunks :
  Forall (λ c, c ≠ "") chunks → str_len (acc +:+ String.concat "" chunks) ≤ N.min limit MAX_RESPONSE_CANONICAL_BYTES →
  read_bounded limit acc (map Some chunks) = Ok (acc +:+ String.concat "" chunks).
Proof.
  intros Hc. revert acc. induction Hc as [|c chunks Hc _ IH]; intros acc Hlen.
  - cbn. by rewrite app_nil_str.
  - rewrite concat_cons, <-app_assoc_str in Hlen |- *. pose proof Hlen as Hlen'. rewrite !str_len_app in Hlen'.
    cbn [map read_bounded]. rewrite (bool_decide_false (c = "")) by done. unfold MAX_RESPONSE_CANONICAL_BYTES in *.
    rewrite (bool_decide_false (_ < sat_add _ _ _)) by int_lia. rewrite (bool_decide_false (limit < _)) by int_lia.
    by apply IH.
Qed.

Lemma decode_identity_small canonical :
  str_len canonical < IDENTITY_THRESHOLD_BYTES → decode_payload Identity canonical (str_len canonical) = Ok canonical.
Proof.
  unfold decode_payload, validate_wire, IDENTITY_THRESHOLD_BYTES, MAX_RESPONSE_CANONICAL_BYTES, MAX_RESPONSE_WIRE_BYTES. intros Hl.
  rewrite (bool_decide_false (_ < str_len canonical)) by lia. rewrite (bool_decide_false (_ < str_len canonical)) by lia.
  rewrite (bool_decide_false (str_len canonical ≠ _)) by auto. rewrite (bool_decide_false (_ ≤ str_len canonical)) by lia.
  cbn [rbind]. by rewrite bool_decide_false by auto.
Qed.

Lemma decode_identity_large canonical z :
  IDENTITY_THRESHOLD_BYTES ≤ str_len canonical → str_len canonical ≤ MAX_RESPONSE_CANONICAL_BYTES →
  str_len canonical ≤ MAX_RESPONSE_WIRE_BYTES → zstd_encode_all canonical = Some z →
  decode_payload Identity canonical (str_len canonical) =
    if bool_decide (str_len z < str_len canonical) then Err EncodingDecision else Ok canonical.
Proof.
  intros H1 H2 H3 Hz. unfold decode_payload, validate_wire. rewrite Hz. cbn [ok_or rbind].
  rewrite (bool_decide_false (MAX_RESPONSE_CANONICAL_BYTES < _)) by lia. rewrite (bool_decide_false (MAX_RESPONSE_WIRE_BYTES < _)) by lia.
  rewrite (bool_decide_false (str_len canonical ≠ _)) by auto. rewrite (bool_decide_true (_ ≤ _)) by done.
  case_bool_decide; cbn [rbind]; [done|]. by rewrite ?bool_decide_false by auto.
Qed.

Lemma decode_compressed canonical z :
  IDENTITY_THRESHOLD_BYTES ≤ str_len canonical → str_len canonical ≤ MAX_RESPONSE_CANONICAL_BYTES →
  str_len z ≤ MAX_RESPONSE_WIRE_BYTES → zstd_encode_all canonical = Some z → str_len z < str_len canonical →
  str_len canonical ≤ 2048 * str_len z →
  decode_payload ZstandardLevel1 z (str_len canonical) = Ok canonical.
Proof.
  intros H1 H2 H3 Hz H4 H5. assert (decode_zstandard_bounded z = Ok canonical) as Hd.
  { unfold decode_zstandard_bounded. destruct (zstd_roundtrip _ _ Hz) as (chunks & -> & Hc & Hne). cbn [ok_or rbind].
    rewrite read_bounded_chunks; [by rewrite Hc|done|]. rewrite Hc, str_len_app. change (str_len "") with 0.
    unfold sat_mul, MAX_DECOMPRESSION_EXPANSION_RATIO, MAX_RESPONSE_CANONICAL_BYTES in *. int_lia. }
  unfold decode_payload, validate_wire. rewrite Hd. cbn [rbind].
  rewrite (bool_decide_false (MAX_RESPONSE_CANONICAL_BYTES < _)) by lia. rewrite (bool_decide_false (MAX_RESPONSE_WIRE_BYTES < _)) by lia.
  rewrite (bool_decide_false (_ < IDENTITY_THRESHOLD_BYTES)) by lia. rewrite (bool_decide_false (str_len canonical ≠ _)) by auto.
  rewrite (bool_decide_false (str_len canonical ≤ _)) by lia. cbn [rbind]. by rewrite ?bool_decide_false by auto.
Qed.
End Encoding.

(** A response that is encoded decodes to itself, except where it compresses by more than a
    factor of 2048: such a response is sent uncompressed, and the decoder, which compresses
    what it was sent uncompressed to see whether it should have been compressed, refuses it. *)
Theorem response_roundtrip `{Zstd} canonical e :
  response_encode canonical = Ok e →
  response_decode e =
    match zstd_encode_all canonical with
    | Some z =>
        if bool_decide (IDENTITY_THRESHOLD_BYTES ≤ str_len canonical)
           && bool_decide (MAX_DECOMPRESSION_EXPANSION_RATIO * str_len z < str_len canonical)
        then Err EncodingDecision else Ok canonical
    | None => Ok canonical
    end.
Proof.
  unfold response_encode, encode_payload. case_bool_decide as Hmax; [done|]. case_bool_decide as Hsmall.
  { cbn [rbind]. intros [= <-]. unfold response_decode. cbn [er_encoding er_wire er_canonical_len]. rewrite decode_identity_small by done.
    rewrite bool_decide_false by lia. by destruct (zstd_encode_all canonical). }
  destruct (zstd_encode_all canonical) as [z|] eqn:Hz; [|done]. cbn [ok_or rbind].
  rewrite (bool_decide_true (_ ≤ str_len canonical)) by lia. cbn [andb]. set (b := _ && _).
  assert (b = true ↔ str_len z < str_len canonical ≤ 2048 * str_len z) as Hb.
  { unfold b. rewrite andb_true_iff, !bool_decide_eq_true. unfold sat_mul, MAX_DECOMPRESSION_EXPANSION_RATIO, MAX_RESPONSE_CANONICAL_BYTES in *. int_lia. }
  destruct b; case_bool_decide as Hw; cbn [rbind]; try done; intros [= <-]; unfold response_decode; cbn [er_encoding er_wire er_canonical_len].
  - destruct Hb as [Hb _]. specialize (Hb eq_refl). rewrite (decode_compressed canonical z) by (done || lia).
    unfold MAX_DECOMPRESSION_EXPANSION_RATIO. by rewrite bool_decide_false by lia.
  - rewrite (decode_identity_large canonical z) by (done || lia). unfold MAX_DECOMPRESSION_EXPANSION_RATIO.
    assert (¬ (str_len z < str_len canonical ≤ 2048 * str_len z)) as Hn by (rewrite <-Hb; done).
    repeat case_bool_decide; (done || lia).
Qed.

(** ** Paths to a peer *)

Definition STANDBY_PROBE_INTERVAL_SECONDS : N := 5 * 60.
Definition RELAY_INTERVAL_SECONDS : N := 60 * 60.
Definition MAX_RELAY_JITTER_SECONDS : N := 5 * 60.
Definition SWITCH_HYSTERESIS_SECONDS : N := 30.

Inductive DirectPath : Type := RealityMesh | CloudflareTunnel.
#[global] Instance DirectPath_eq_dec : EqDecision DirectPath.
Proof. solve_decision. Defined.

Record DirectPathHealth : Type := mkHealth { healthy : bool; stable_for_seconds : N }.
Record RelayAttemptState : Type := mkRelayAttempt {
  last_attempt_unix_seconds : option N;
  jitter_seconds : N;
  eligible : bool
}.
(** [RelayAttemptState::new] *)
Definition relay_attempt (last_attempt : option N) (jitter : N) (eligible : bool) : RelayAttemptState :=
  mkRelayAttempt last_attempt (N.min jitter MAX_RELAY_JITTER_SECONDS) eligible.

Inductive PathDecision : Type :=
  | Direct (path : DirectPath) (probe_standby : bool)
  | DynamicRelayed
  | Unavailable (next_relay_attempt_unix_seconds : option N).

(** [PathSelector]; its checkpoint has the same fields. *)
Record PathSelector : Type := mkSelector { last_direct : option DirectPath; last_standby_probe_unix_seconds : option N }.
#[export] Instance PathSelector_eta : Eta PathSelector := λ s, mkSelector (last_direct s) (last_standby_probe_unix_seconds s).

Definition stability (reality tunnel : DirectPathHealth) (path : DirectPath) : N :=
  match path with RealityMesh => stable_for_seconds reality | CloudflareTunnel => stable_for_seconds tunnel end.

Definition choose_healthy_path (s : PathSelector) (reality tunnel : DirectPathHealth) : DirectPath :=
  let preferred := match stable_for_seconds reality ?= stable_for_seconds tunnel with
                   | Gt | Eq => RealityMesh
                   | Lt => CloudflareTunnel
                   end in
  match last_direct s with
  | None => preferred
  | Some current =>
      if bool_decide (current = preferred)
         || bool_decide (sat_sub (stability reality tunnel preferred) (stability reality tunnel current) < SWITCH_HYSTERESIS_SECONDS)
      then current else preferred
  end.

Definition choose_direct (s : PathSelector) (reality tunnel : DirectPathHealth) : option DirectPath :=
  match healthy reality, healthy tunnel with
  | false, false => None
  | true, false => Some RealityMesh
  | false, true => Some CloudflareTunnel
  | true, true => Some (choose_healthy_path s reality tunnel)
  end.

Definition standby_probe_due (s : PathSelector) (now : N) : bool :=
  match last_standby_probe_unix_seconds s with
  | None => true
  | Some last_probe => bool_decide (STANDBY_PROBE_INTERVAL_SECONDS ≤ sat_sub now last_probe)
  end.

Definition relay_due_at (relay : RelayAttemptState) : option N :=
  if negb (eligible relay) then None
  else match last_attempt_unix_seconds relay with
       | None => Some 0
       | Some last_attempt => Some (sat_add u64_max (sat_add u64_max last_attempt RELAY_INTERVAL_SECONDS) (jitter_seconds relay))
       end.

(** [PathSelector::select] *)
Definition select_path (s : PathSelector) (reality tunnel : DirectPathHealth) (relay : RelayAttemptState) (now : N)
    : PathSelector * PathDecision :=
  match choose_direct s reality tunnel with
  | Some path =>
      let probe_standby := standby_probe_due s now in
      (s <| last_standby_probe_unix_seconds ::= λ last, if probe_standby then Some now else last |>
         <| last_direct := Some path |>,
       Direct path probe_standby)
  | None =>
      let due := relay_due_at relay in
      (s, if eligible relay && match due with Some due_at => bool_decide (due_at ≤ now) | None => false end
          then DynamicRelayed else Unavailable due)
  end.

Definition path_health (reality tunnel : DirectPathHealth) (path : DirectPath) : DirectPathHealth :=
  match path with RealityMesh => reality | CloudflareTunnel => tunnel end.

Lemma choose_healthy_spec s reality tunnel current :
  last_direct s = Some current → choose_healthy_path s reality tunnel ≠ current →
  stability reality tunnel current + SWITCH_HYSTERESIS_SECONDS ≤ stability reality tunnel (choose_healthy_path s reality tunnel).
Proof.
  intros Hc. unfold choose_healthy_path. rewrite Hc. generalize (match stable_for_seconds reality ?= stable_for_seconds tunnel with
    | Gt | Eq => RealityMesh | Lt => CloudflareTunnel end). intros preferred.
  destruct (_ || _) eqn:Hb; [done|]. intros _. apply orb_false_iff in Hb as [_ Hb%bool_decide_eq_false].
  unfold sat_sub, SWITCH_HYSTERESIS_SECONDS in *. lia.
Qed.

Lemma relay_due_spec relay now :
  match relay_due_at relay with Some due_at => bool_decide (due_at ≤ now) | None => false end = true →
  ∀ last, last_attempt_unix_seconds relay = Some last → now < u64_max → last + RELAY_INTERVAL_SECONDS ≤ now.
Proof.
  unfold relay_due_at. destruct (negb _); [done|]. destruct (last_attempt_unix_seconds relay) as [l|]; [|done].
  rewrite bool_decide_eq_true. intros Hd last [= <-] Hn. unfold RELAY_INTERVAL_SECONDS, sat_add in *.
  assert (l + 60 * 60 ≤ now ∨ u64_max ≤ now) as [?|?]; [|done|]; lia.
Qed.

(** The path selector sends only over a path that is up: a direct one whenever one is, the
    relay only when none is, it is eligible and an hour has passed since the last attempt;
    and it leaves a direct path that is still up only for one that has been stable for at
    least 30 seconds longer. *)
Lemma select_path_spec s reality tunnel relay now s' decision :
  select_path s reality tunnel relay now = (s', decision) →
  match decision with
  | Direct path _ =>
      healthy (path_health reality tunnel path) = true ∧ last_direct s' = Some path ∧
      ∀ current, last_direct s = Some current → healthy (path_health reality tunnel current) = true → current ≠ path →
        stability reality tunnel current + SWITCH_HYSTERESIS_SECONDS ≤ stability reality tunnel path
  | DynamicRelayed =>
      healthy reality = false ∧ healthy tunnel = false ∧ eligible relay = true ∧ s' = s ∧
      ∀ last, last_attempt_unix_seconds relay = Some last → now < u64_max → last + RELAY_INTERVAL_SECONDS ≤ now
  | Unavailable _ => healthy reality = false ∧ healthy tunnel = false ∧ s' = s
  end.
Proof.
  unfold select_path, choose_direct. destruct (healthy reality) eqn:Hr, (healthy tunnel) eqn:Ht; intros [= <- <-].
  - split_and!; [by destruct (choose_healthy_path _ _ _)|done|]. intros current Hc _ Hne. by apply choose_healthy_spec.
  - split_and!; [done|done|]. intros [] Hc Hh; [done|]. cbn in Hh. congruence.
  - split_and!; [done|done|]. intros [] Hc Hh; [|done]. cbn in Hh. congruence.
  - destruct (_ && _) eqn:Hb; [|done]. apply andb_true_iff in Hb as [He Hd]. split_and!; [done..|]. by apply relay_due_spec.
Qed.

(** ** Relayed frames *)

Definition MAX_RELAY_FRAME_BYTES : N := 256 * 1024.
Definition RELAY_ENVELOPE_BYTES : N := 32 + 12.
Definition AEAD_TAG_BYTES : N := 16.
Definition MAX_RELAY_PLAINTEXT_BYTES : N := MAX_RELAY_FRAME_BYTES - RELAY_ENVELOPE_BYTES - AEAD_TAG_BYTES.
Definition RELAY_KEY_CONTEXT : string := "xp-history-sync-relay-v1".

Inductive RelayError : Type := FrameLimit | AuthenticationFailed.

(** X25519, SHA-256 and ChaCha20-Poly1305: both sides of an exchange reach the same secret,
    public keys have 32 bytes, a ciphertext is 16 bytes longer than its plaintext and opens
    under the key, nonce and associated data it was made with. *)
Class RelayCipher := {
  x25519_public : string → string;
  diffie_hellman : string → string → string;
  relay_digest : string → string;
  aead_encrypt : string → string → string → string → option string;
  aead_decrypt : string → string → string → string → option string;
  diffie_hellman_agrees a b : diffie_hellman a (x25519_public b) = diffie_hellman b (x25519_public a);
  x25519_length a : String.length (x25519_public a) = 32%nat;
  aead_length k n ad m c : aead_encrypt k n ad m = Some c → String.length c = (String.length m + 16)%nat;
  aead_opens k n ad m c : aead_encrypt k n ad m = Some c → aead_decrypt k n ad c = Some m
}.

Record RelayKeypair : Type := mkKeypair { private_key : string; public_key : string }.
Record RelayFrame : Type := mkFrame { sender_public_key : string; nonce : string; ciphertext : string }.

Section Frames.
Context `{RelayCipher}.

(** [RelayKeypair::from_private_key] *)
Definition keypair_from (private_key : string) : RelayKeypair := mkKeypair private_key (x25519_public private_key).

(** The key of [relay_cipher]. *)
Definition relay_cipher (private_key peer_public_key : string) : string :=
  relay_digest (RELAY_KEY_CONTEXT +:+ diffie_hellman private_key peer_public_key).

Definition frame_len (f : RelayFrame) : N := str_len (sender_public_key f) + str_len (nonce f) + str_len (ciphertext f).

Definition seal (sender : RelayKeypair) (recipient_public_key nonce plaintext associated_data : string) : result RelayFrame RelayError :=
  if bool_decide (MAX_RELAY_PLAINTEXT_BYTES < str_len plaintext) then Err FrameLimit
  else
    let? ciphertext := ok_or (aead_encrypt (relay_cipher (private_key sender) recipient_public_key) nonce associated_data plaintext)
                         AuthenticationFailed in
    Ok (mkFrame (public_key sender) nonce ciphertext).

Definition open_frame (f : RelayFrame) (recipient : RelayKeypair) (associated_data : string) : result string RelayError :=
  if bool_decide (MAX_RELAY_FRAME_BYTES < frame_len f) then Err FrameLimit
  else ok_or (aead_decrypt (relay_cipher (private_key recipient) (sender_public_key f)) (nonce f) associated_data (ciphertext f))
         AuthenticationFailed.

(** [DynamicRelay]: the bytes forwarded, as relay traffic and as control traffic. *)
Record DynamicRelay : Type := mkDynamicRelay { forwarded_relay_bytes : N; forwarded_sync_control_bytes : N }.

Definition forward (d : DynamicRelay) (f : RelayFrame) : result (DynamicRelay * (N * N)) RelayError :=
  if bool_decide (MAX_RELAY_FRAME_BYTES < frame_len f) then Err FrameLimit
  else
    let frame_bytes := frame_len f in
    Ok (mkDynamicRelay (sat_add u64_max (forwarded_relay_bytes d) frame_bytes)
          (sat_add u64_max (forwarded_sync_control_bytes d) frame_bytes), (frame_bytes, frame_bytes)).

(** A frame sealed for a peer is forwarded by every relay and opened by the peer. *)
Lemma seal_open a b nonce plaintext ad f d :
  String.length nonce = 12%nat → seal (keypair_from a) (x25519_public b) nonce plaintext ad = Ok f →
  open_frame f (keypair_from b) ad = Ok plaintext ∧ is_ok (forward d f) = true.
Proof.
  intros Hn. unfold seal. case_bool_decide as Hlen; [done|]. destruct (aead_encrypt _ _ _ _) as [c|] eqn:Hc; [|done]. cbn [ok_or rbind].
  intros [= <-]. assert (frame_len (mkFrame (public_key (keypair_from a)) nonce c) ≤ MAX_RELAY_FRAME_BYTES) as Hf.
  { unfold frame_len. cbn. pose proof (aead_length _ _ _ _ _ Hc) as Hl. pose proof (x25519_length a).
    unfold MAX_RELAY_PLAINTEXT_BYTES, MAX_RELAY_FRAME_BYTES, RELAY_ENVELOPE_BYTES, AEAD_TAG_BYTES, str_len in *. lia. }
  unfold open_frame, forward. rewrite (bool_decide_false (_ < frame_len _)) by (apply N.le_ngt; exact Hf). split; [|done]. cbn in Hc |- *.
  unfold relay_cipher in Hc |- *. rewrite diffie_hellman_agrees. by rewrite (aead_opens _ _ _ _ _ Hc).
Qed.
End Frames.

(** ** Examples *)

Module TransportSample.

(** A compressor that knows one message. *)
Definition steady : string := of_chars (replicate 4096 "x"%char).

#[local] Instance one_message : Zstd.
Proof.
  refine {|
    zstd_encode_all := λ x, if bool_decide (x = steady) then Some "z" else Some ("p" +:+ x);
    zstd_reads := λ z, match chars z with
                       | ["z"%char] => Some [Some steady]
                       | "p"%char :: l => Some (if bool_decide (l = []) then [] else [Some (of_chars l)])
                       | _ => None
                       end
  |}.
  intros x z. case_bool_decide as Hx; intros [= <-].
  - exists [steady]. split; [done|]. split; [by rewrite Hx|]. constructor; [|constructor]. intros Hs.
    apply (f_equal chars) in Hs. unfold steady in Hs. rewrite chars_of_chars in Hs. by apply (f_equal length) in Hs.
  - rewrite chars_app. cbn. case_bool_decide as Hl.
    + exists []. split; [done|]. split; [|constructor]. symmetry. by apply chars_nil.
    + exists [x]. rewrite of_chars_chars. split; [done|]. split; [done|]. constructor; [|constructor]. intros ->. done.
Defined.

Lemma steady_encodes : is_ok (response_encode steady) = true.
Proof. vm_compute. reflexivity. Qed.
Lemma steady_compresses : zstd_encode_all steady = Some "z".
Proof. cbn [zstd_encode_all one_message]. by rewrite bool_decide_true. Qed.
Lemma steady_large : bool_decide (IDENTITY_THRESHOLD_BYTES ≤ str_len steady)
  && bool_decide (MAX_DECOMPRESSION_EXPANSION_RATIO * str_len "z" < str_len steady) = true.
Proof. vm_compute. reflexivity. Qed.

Lemma response_roundtrip_witness : ∃ e, response_encode steady = Ok e ∧ response_decode e = Err EncodingDecision.
Proof.
  pose proof steady_encodes as Hok. destruct (response_encode steady) as [e|err] eqn:He; [|discriminate Hok].
  exists e. split; [reflexivity|]. rewrite (response_roundtrip steady e He), steady_compresses, steady_large. reflexivity.
Defined.

End TransportSample.
