(* ===== verification/Retention.v ===== *)
(** * Tiered retention of the rows of a repository

    [src/history_repository/replica/runtime/retention.rs], with the rows and gaps of
    [runtime.rs] and [runtime/storage.rs].  Rows of the last seven days are kept as they came,
    one per key and minute; older rows are folded into aggregates of five minutes and of an
    hour, which carry the number of rows they stand for, the range of their sequences, a digest
    of what they held and whether anything is known to be missing.  The digest is SHA-256 and
    the aggregate is stored as JSON. *)

From S2P Require Import Prelude Text Ordered Hex AntiEntropy HistorySync.
Open Scope string_scope.
Open Scope list_scope.
Open Scope N_scope.

(** ** Rows *)

Record StoredRecord : Type := mkStoredRecord {
  sr_observed_at_unix_seconds : N;
  sr_received_at_unix_seconds : N;
  sr_source_node_id : string;
  sr_source_epoch : N;
  sr_stream : string;
  sr_sequence : N;
  sr_subject_node_id : string;
  sr_observer_node_id : string;
  sr_schema_id : string;
  sr_schema_version : N;
  sr_record_key : string;
  sr_payload : string;
  sr_tombstone : bool
}.
#[export] Instance StoredRecord_eta : Eta StoredRecord := λ r,
  mkStoredRecord (sr_observed_at_unix_seconds r) (sr_received_at_unix_seconds r) (sr_source_node_id r) (sr_source_epoch r)
    (sr_stream r) (sr_sequence r) (sr_subject_node_id r) (sr_observer_node_id r) (sr_schema_id r) (sr_schema_version r)
    (sr_record_key r) (sr_payload r) (sr_tombstone r).
#[global] Instance StoredRecord_eq_dec : EqDecision StoredRecord.
Proof. solve_decision. Defined.

Record StoredGap : Type := mkStoredGap {
  gp_source_node_id : string;
  gp_source_epoch : N;
  gp_stream : string;
  gp_first_sequence : N;
  gp_last_sequence : N;
  gp_start_unix_seconds : N;
  gp_end_unix_seconds : N;
  gp_permanent : bool
}.
#[export] Instance StoredGap_eta : Eta StoredGap := λ g,
  mkStoredGap (gp_source_node_id g) (gp_source_epoch g) (gp_stream g) (gp_first_sequence g) (gp_last_sequence g)
    (gp_start_unix_seconds g) (gp_end_unix_seconds g) (gp_permanent g).

(** ** Aggregates *)

Record RetentionAggregatePayload : Type := mkPayload {
  pl_algorithm : string;
  pl_resolution : string;
  pl_bucket_start_unix_seconds : option N;
  pl_bucket_end_unix_seconds : option N;
  pl_record_count : N;
  pl_first_sequence : N;
  pl_last_sequence : N;
  pl_payload_sha256 : string;
  pl_complete : bool;
  pl_anonymized_identifier : option string
}.

(** The JSON of an aggregate: what was written reads back. *)
Class AggregateCodec := {
  payload_to_json : RetentionAggregatePayload → string;
  payload_from_json : string → option RetentionAggregatePayload;
  payload_from_to p : payload_from_json (payload_to_json p) = Some p
}.

Definition resolution_seconds (r : RetentionResolution) : N :=
  match r with Minute => 60 | FiveMinutes => 5 * 60 | Hour => 60 * 60 end.
Definition resolution_name (r : RetentionResolution) : string :=
  match r with Minute => "minute" | FiveMinutes => "five_minutes" | Hour => "hour" end.

Definition bucket_time_range (observed_at : N) (resolution : RetentionResolution) : N * N :=
  let seconds := resolution_seconds resolution in
  let start := observed_at / seconds * seconds in
  (start, sat_add u64_max start (sat_sub seconds 1)).

Record AggregateContribution : Type := mkContribution {
  ct_record_count : N;
  ct_first_sequence : N;
  ct_last_sequence : N;
  ct_payload_hash : string;
  ct_complete : bool;
  ct_anonymized_identifier : option string
}.

Record RetentionAggregate : Type := mkAggregate {
  ag_first : StoredRecord;
  ag_resolution : RetentionResolution;
  ag_bucket_start_unix_seconds : N;
  ag_bucket_end_unix_seconds : N;
  ag_cluster_id : option string;
  ag_record_count : N;
  ag_first_sequence : N;
  ag_last_sequence : N;
  ag_payload_hash : string;
  ag_complete : bool;
  ag_anonymized_identifier : option string
}.

Inductive RetainedRecord : Type := Raw (row : StoredRecord) | Aggregate (aggregate : RetentionAggregate).

(** ** Buckets *)

Record RetentionBucket : Type := mkBucket {
  bk_source_node_id : string;
  bk_source_epoch : N;
  bk_stream : string;
  bk_subject_node_id : string;
  bk_observer_node_id : string;
  bk_schema_id : string;
  bk_schema_version : N;
  bk_record_key : option string;
  bk_bucket_start : N
}.
#[global] Instance RetentionBucket_eq_dec : EqDecision RetentionBucket.
Proof. solve_decision. Defined.
#[global] Instance RetentionBucket_countable : Countable RetentionBucket.
Proof.
  apply (inj_countable
    (λ b, ([bk_source_node_id b; bk_stream b; bk_subject_node_id b; bk_observer_node_id b; bk_schema_id b; default "" (bk_record_key b)],
           [bk_source_epoch b; bk_schema_version b; bk_bucket_start b; if bk_record_key b then 1 else 0]))
    (λ f, match f with
          | ([a; c; d; e; f; k], [b; g; i; 0]) => Some (mkBucket a b c d e f g None i)
          | ([a; c; d; e; f; k], [b; g; i; _]) => Some (mkBucket a b c d e f g (Some k) i)
          | _ => None
          end)).
  by intros [??????? [k|] ?].
Defined.

(** [Option<T>: Ord], [None] first. *)
#[global] Instance option_ordered {A} `{Ordered A} : Ordered (option A).
Proof.
  refine {| cmp := λ a b, match a, b with None, None => Eq | None, Some _ => Lt | Some _, None => Gt | Some a, Some b => cmp a b end |}.
  - intros [a|] [b|]; [rewrite cmp_eq; naive_solver|done..].
  - intros [a|] [b|]; [apply cmp_antisym|done..].
  - intros [a|] [b|] [c|]; [apply cmp_trans|done..].
Defined.

Definition bucket_fields (b : RetentionBucket) : string * N * string * string * string * string * N * option string * N :=
  (bk_source_node_id b, bk_source_epoch b, bk_stream b, bk_subject_node_id b, bk_observer_node_id b, bk_schema_id b,
   bk_schema_version b, bk_record_key b, bk_bucket_start b).
Lemma bucket_fields_inj a b : bucket_fields a = bucket_fields b → a = b.
Proof. destruct a, b. unfold bucket_fields. by intros [= -> -> -> -> -> -> -> -> ->]. Qed.
#[global] Instance RetentionBucket_ordered : Ordered RetentionBucket := ordered_by bucket_fields bucket_fields_inj.

Section Retention.
Context `{SyncCrypto, AggregateCodec}.

(** The JSON a row may be holding, when it is a well-formed aggregate. *)
Definition aggregate_payload (row : StoredRecord) : option RetentionAggregatePayload :=
  p ← payload_from_json (sr_payload row);
  if bool_decide (pl_algorithm p = "sha256") && bool_decide (0 < pl_record_count p)
     && bool_decide (pl_first_sequence p ≤ pl_last_sequence p)
  then Some p else None.

Definition record_payload_hash (row : StoredRecord) : string := sha256 (sr_payload row +:+ sr_record_key row).

Definition combine_aggregate_hashes (left_hash right_hash : string) : string := sha256 (left_hash +:+ right_hash).

(** What a row adds to an aggregate: its own counters if it is one, itself otherwise. *)
Definition aggregate_contribution (row : StoredRecord) : AggregateContribution :=
  let parsed :=
    p ← aggregate_payload row;
    hash ← hex_decode (pl_payload_sha256 p);
    if bool_decide (String.length hash = 32%nat)
    then Some (mkContribution (pl_record_count p) (pl_first_sequence p) (pl_last_sequence p) hash (pl_complete p) (pl_anonymized_identifier p))
    else None in
  default (mkContribution 1 (sr_sequence row) (sr_sequence row) (record_payload_hash row) true None) parsed.

Definition anonymized_identifier (cluster_id : option string) (subject_node_id raw_identifier : string) : string :=
  hex_encode (sha256 ("xp-history-repository-ip-anonymization-v1" +:+ String "000"%char "" +:+ default "" cluster_id
                        +:+ subject_node_id +:+ raw_identifier)).

Definition aggregate_record_key (row : StoredRecord) (resolution : string) (bucket_start : N) (anonymized : option string) : string :=
  sha256 ("xp-history-repository-aggregate-v1" +:+ String "000"%char "" +:+ sr_source_node_id row +:+ to_be_bytes (sr_source_epoch row)
            +:+ sr_stream row +:+ sr_schema_id row +:+ resolution +:+ to_be_bytes bucket_start +:+ default "" anonymized).

(** [retention_identifier] *)
Definition retention_identifier (row : StoredRecord) (preserves_minute_detail : bool) (cluster_id : option string) : option string :=
  if preserves_minute_detail then Some (sr_record_key row)
  else if bool_decide (sr_schema_id row = "ip_usage.v1")
  then Some (default (anonymized_identifier cluster_id (sr_subject_node_id row) (sr_record_key row))
               (ct_anonymized_identifier (aggregate_contribution row)))
  else None.

(** [RetentionBucket::with_bucket], [RetentionBucket::for_record] and [RetentionBucket::tombstone] *)
Definition with_bucket (row : StoredRecord) (bucket_start : N) (preserves_minute_detail : bool) (cluster_id : option string) : RetentionBucket :=
  mkBucket (sr_source_node_id row) (sr_source_epoch row) (sr_stream row) (sr_subject_node_id row) (sr_observer_node_id row)
    (sr_schema_id row) (sr_schema_version row) (retention_identifier row preserves_minute_detail cluster_id) bucket_start.
Definition for_record (row : StoredRecord) (resolution : RetentionResolution) (preserves_minute_detail : bool) (cluster_id : option string)
    : RetentionBucket :=
  let seconds := resolution_seconds resolution in
  with_bucket row (sr_observed_at_unix_seconds row / seconds * seconds) preserves_minute_detail cluster_id.
Definition tombstone_bucket (row : StoredRecord) : RetentionBucket :=
  with_bucket row (sr_observed_at_unix_seconds row) true None.

(** [RetentionAggregate::from_record] *)
Definition aggregate_from_record (row : StoredRecord) (resolution : RetentionResolution) (cluster_id : option string) : RetentionAggregate :=
  let contribution := aggregate_contribution row in
  let '(bucket_start, bucket_end) := bucket_time_range (sr_observed_at_unix_seconds row) resolution in
  mkAggregate row resolution bucket_start bucket_end cluster_id (ct_record_count contribution) (ct_first_sequence contribution)
    (ct_last_sequence contribution) (ct_payload_hash contribution) (ct_complete contribution) (ct_anonymized_identifier contribution).

(** [RetentionAggregate::add] *)
Definition aggregate_add (a : RetentionAggregate) (row : StoredRecord) : RetentionAggregate :=
  let contribution := aggregate_contribution row in
  let '(bucket_start, bucket_end) := bucket_time_range (sr_observed_at_unix_seconds row) (ag_resolution a) in
  mkAggregate (if bool_decide (sr_sequence (ag_first a) ≤ ct_last_sequence contribution) then row else ag_first a)
    (ag_resolution a)
    (N.min (ag_bucket_start_unix_seconds a) bucket_start)
    (N.max (ag_bucket_end_unix_seconds a) bucket_end)
    (ag_cluster_id a)
    (sat_add u64_max (ag_record_count a) (ct_record_count contribution))
    (N.min (ag_first_sequence a) (ct_first_sequence contribution))
    (N.max (ag_last_sequence a) (ct_last_sequence contribution))
    (combine_aggregate_hashes (ag_payload_hash a) (ct_payload_hash contribution))
    (ag_complete a && ct_complete contribution)
    (match ag_anonymized_identifier a with Some i => Some i | None => ct_anonymized_identifier contribution end).

(** Whether a gap touches the rows of an aggregate. *)
Definition gap_touches (a : RetentionAggregate) (gap : StoredGap) : bool :=
  bool_decide (gp_source_node_id gap = sr_source_node_id (ag_first a)) && bool_decide (gp_stream gap = sr_stream (ag_first a))
  && ((bool_decide (gp_source_epoch gap = sr_source_epoch (ag_first a))
       && bool_decide (gp_first_sequence gap ≤ ag_last_sequence a) && bool_decide (ag_first_sequence a ≤ gp_last_sequence gap))
      || (gp_permanent gap && bool_decide (gp_start_unix_seconds gap ≤ ag_bucket_end_unix_seconds a)
          && bool_decide (ag_bucket_start_unix_seconds a ≤ gp_end_unix_seconds gap))).

Definition aggregate_identifier (a : RetentionAggregate) : option string :=
  match ag_anonymized_identifier a with
  | Some i => Some i
  | None => if bool_decide (sr_schema_id (ag_first a) = "ip_usage.v1")
            then Some (anonymized_identifier (ag_cluster_id a) (sr_subject_node_id (ag_first a)) (sr_record_key (ag_first a)))
            else None
  end.

(** [RetentionAggregate::into_stored_record] *)
Definition aggregate_row (a : RetentionAggregate) (gaps : list StoredGap) : StoredRecord :=
  let resolution := resolution_name (ag_resolution a) in
  let incomplete := existsb (gap_touches a) gaps in
  let identifier := aggregate_identifier a in
  let payload := mkPayload "sha256" resolution (Some (ag_bucket_start_unix_seconds a)) (Some (ag_bucket_end_unix_seconds a))
    (ag_record_count a) (ag_first_sequence a) (ag_last_sequence a) (hex_encode (ag_payload_hash a))
    (ag_complete a && negb incomplete) identifier in
  (ag_first a) <| sr_record_key := aggregate_record_key (ag_first a) resolution (ag_bucket_start_unix_seconds a) identifier |>
             <| sr_sequence := ag_last_sequence a |>
             <| sr_payload := payload_to_json payload |>.

(** [RetainedRecord::into_stored_record] *)
Definition into_stored_record (gaps : list StoredGap) (r : RetainedRecord) : StoredRecord :=
  match r with Raw row => row | Aggregate a => aggregate_row a gaps end.

(** One row of the loop of [prune_records]. *)
Definition retain (now : N) (cluster_id : option string) (retained : gmap RetentionBucket RetainedRecord) (row : StoredRecord)
    : gmap RetentionBucket RetainedRecord :=
  if sr_tombstone row then <[tombstone_bucket row := Raw row]> retained
  else
    let age := sat_sub now (sr_observed_at_unix_seconds row) in
    match resolution_for_age retention_default age with
    | None => retained
    | Some resolution =>
        let preserves_minute_detail := keeps_minute_detail retention_default age in
        let bucket := for_record row resolution preserves_minute_detail cluster_id in
        match retained !! bucket with
        | None => <[bucket := if preserves_minute_detail then Raw row
                              else Aggregate (aggregate_from_record row resolution cluster_id)]> retained
        | Some (Raw existing) =>
            if bool_decide (sr_sequence existing ≤ sr_sequence row) then <[bucket := Raw row]> retained else retained
        | Some (Aggregate aggregate) => <[bucket := Aggregate (aggregate_add aggregate row)]> retained
        end
    end.

Definition prune_records (rows : list StoredRecord) (gaps : list StoredGap) (now : N) (cluster_id : option string) : list StoredRecord :=
  map (into_stored_record gaps) (entries (foldl (retain now cluster_id) ∅ rows)).*2.

Definition record_time_range (row : StoredRecord) : N * N :=
  default (sr_observed_at_unix_seconds row, sr_observed_at_unix_seconds row)
    (p ← aggregate_payload row;
     start ← pl_bucket_start_unix_seconds p;
     end_ ← pl_bucket_end_unix_seconds p;
     if bool_decide (start ≤ end_) then Some (start, end_) else None).

Definition aggregate_metadata (row : StoredRecord) : option (bool * N * N) :=
  p ← aggregate_payload row;
  start ← pl_bucket_start_unix_seconds p;
  end_ ← pl_bucket_end_unix_seconds p;
  if bool_decide (start ≤ end_) then Some (pl_complete p, start, end_) else None.

(** Whether the time bucket of a row can still receive rows after the boundary of a page. *)
Definition compaction_bucket_end (row : StoredRecord) (now : N) : option N :=
  if sr_tombstone row then None
  else resolution ← resolution_for_age retention_default (sat_sub now (sr_observed_at_unix_seconds row));
       Some (bucket_time_range (sr_observed_at_unix_seconds row) resolution).2.
Definition compaction_bucket_reaches (row : StoredRecord) (page_boundary now : N) : bool :=
  from_option (λ bucket_end, bool_decide (page_boundary ≤ bucket_end)) false (compaction_bucket_end row now).

Definition incomplete_aggregate_gap (rows : list StoredRecord) : option (N * N) :=
  foldl (λ range '(start, end_),
           match range with
           | Some (current_start, current_end) => Some (N.min current_start start, N.max current_end end_)
           | None => Some (start, end_)
           end) None
    (map record_time_range (List.filter (λ row, from_option (λ p, negb (pl_complete p)) false (aggregate_payload row)) rows)).
End Retention.

(** ** What a pass keeps *)

Section Accounts.
Context `{SyncCrypto, AggregateCodec}.
Implicit Types (row o : StoredRecord) (rows : list StoredRecord) (a : RetentionAggregate) (m : gmap RetentionBucket RetainedRecord).

Definition age_of (now : N) row : N := sat_sub now (sr_observed_at_unix_seconds row).

(** A row that stays as it is, and a row that is folded into an aggregate. *)
Definition kept (now : N) row : bool := sr_tombstone row || keeps_minute_detail retention_default (age_of now row).
Definition folded (now : N) row : bool :=
  negb (kept now row) && bool_decide (age_of now row ≤ max_retention_seconds retention_default).

Definition tier (now : N) row : RetentionResolution := default Minute (resolution_for_age retention_default (age_of now row)).
Definition kept_bucket (now : N) (cluster_id : option string) row : RetentionBucket :=
  if sr_tombstone row then tombstone_bucket row else for_record row Minute true cluster_id.
Definition folded_bucket (now : N) (cluster_id : option string) row : RetentionBucket := for_record row (tier now row) false cluster_id.

(** No row carries a key that is the pseudonym of another one. *)
Definition pseudonyms_fresh (now : N) (cluster_id : option string) rows : Prop :=
  ∀ row o, row ∈ rows → o ∈ rows → folded now row = true → kept now o = true →
  retention_identifier row false cluster_id ≠ Some (sr_record_key o).

(** The number of rows the folded part of a table stands for. *)
Definition weight_of (now : N) row : N := if folded now row then ct_record_count (aggregate_contribution row) else 0.
Definition accounted (now : N) rows : N := sumN (map (weight_of now) rows).

(** ** One row *)

Lemma folded_resolution now row : folded now row = true → resolution_for_age retention_default (age_of now row) = Some (tier now row).
Proof.
  unfold folded, kept, tier, keeps_minute_detail, resolution_for_age. intros Hf.
  apply andb_true_iff in Hf as [Hk Hmax]. apply negb_true_iff, orb_false_iff in Hk as [_ Hk].
  apply bool_decide_eq_false in Hk. rewrite (bool_decide_false _ Hk), Hmax.
  by destruct (bool_decide (age_of now row ≤ sat_add _ _ _)).
Qed.

(** The loop body, by the fate of the row. *)
Lemma retain_folded now cluster_id m row : folded now row = true →
  let bucket := folded_bucket now cluster_id row in
  retain now cluster_id m row =
    match m !! bucket with
    | None => <[bucket := Aggregate (aggregate_from_record row (tier now row) cluster_id)]> m
    | Some (Raw existing) => if bool_decide (sr_sequence existing ≤ sr_sequence row) then <[bucket := Raw row]> m else m
    | Some (Aggregate aggregate) => <[bucket := Aggregate (aggregate_add aggregate row)]> m
    end.
Proof.
  intros Hf. pose proof (folded_resolution _ _ Hf) as Hr. cbn zeta. unfold retain, folded_bucket.
  unfold folded, kept in Hf. apply andb_true_iff in Hf as [Hk _]. apply negb_true_iff, orb_false_iff in Hk as [-> Hk].
  unfold age_of in *. by rewrite Hr, Hk.
Qed.

Lemma retain_kept now cluster_id m row : kept now row = true →
  let bucket := kept_bucket now cluster_id row in
  retain now cluster_id m row = <[bucket := Raw row]> m ∨
  retain now cluster_id m row = m ∧ (∃ existing, m !! bucket = Some (Raw existing)) ∨
  ∃ a, m !! bucket = Some (Aggregate a).
Proof.
  intros Hk. cbn zeta. unfold retain, kept_bucket. unfold kept in Hk. destruct (sr_tombstone row) eqn:Ht; [by left|]. cbn in Hk.
  unfold age_of in Hk. rewrite Hk. unfold keeps_minute_detail in Hk. unfold resolution_for_age. rewrite Hk.
  destruct (m !! for_record row Minute true cluster_id) as [[existing|a]|] eqn:Hm; [|right; right; by eauto|by left].
  destruct (bool_decide (sr_sequence existing ≤ sr_sequence row)); [by left|right; left]. split; [done|]. by eauto.
Qed.

Lemma retain_dropped now cluster_id m row : kept now row = false → folded now row = false → retain now cluster_id m row = m.
Proof.
  unfold folded, kept. intros Hk Hf. rewrite Hk in Hf. cbn in Hf. apply orb_false_iff in Hk as [Ht Hk]. apply bool_decide_eq_false in Hf.
  unfold retain. rewrite Ht. unfold keeps_minute_detail in Hk. unfold age_of in *. apply bool_decide_eq_false in Hk.
  unfold resolution_for_age. rewrite (bool_decide_false _ Hk), (bool_decide_false (_ ≤ max_retention_seconds _)) by done.
  rewrite bool_decide_false; [done|]. revert Hf. unfold retention_default, sat_add, DAY_SECONDS, u64_max. cbn. lia.
Qed.

(** ** What a row contributes *)

Lemma contribution_ok row : let c := aggregate_contribution row in
  0 < ct_record_count c ∧ ct_first_sequence c ≤ ct_last_sequence c ∧ String.length (ct_payload_hash c) = 32%nat.
Proof.
  cbn zeta. unfold aggregate_contribution, aggregate_payload. destruct (payload_from_json (sr_payload row)) as [p|]; cbn.
  2: { split_and!; [lia|lia|apply sha256_length]. }
  destruct (_ && _) eqn:Hok; cbn. 2: { split_and!; [lia|lia|apply sha256_length]. }
  apply andb_true_iff in Hok as [[_ Hc%bool_decide_eq_true]%andb_true_iff Hs%bool_decide_eq_true].
  destruct (hex_decode _) as [hash|]; cbn. 2: { split_and!; [lia|lia|apply sha256_length]. }
  destruct (bool_decide (String.length hash = 32%nat)) eqn:Hl; cbn; [|split_and!; [lia|lia|apply sha256_length]].
  apply bool_decide_eq_true in Hl. done.
Qed.

(** An aggregate of the table, and the bucket it is in. *)
Record sound (now : N) (cluster_id : option string) rows (b : RetentionBucket) a : Prop := {
  sound_first : ag_first a ∈ rows;
  sound_folded : folded now (ag_first a) = true;
  sound_bucket : ∃ row, row ∈ rows ∧ folded now row = true ∧ b = folded_bucket now cluster_id row;
  sound_source : sr_source_node_id (ag_first a) = bk_source_node_id b ∧ sr_source_epoch (ag_first a) = bk_source_epoch b ∧
    sr_stream (ag_first a) = bk_stream b;
  sound_count : 0 < ag_record_count a;
  sound_sequences : ag_first_sequence a ≤ ag_last_sequence a;
  sound_hash : String.length (ag_payload_hash a) = 32%nat
}.

(** What an aggregate says of a row that was folded into it. *)
Record stands_for a row : Prop := {
  stands_source : sr_source_node_id (ag_first a) = sr_source_node_id row ∧ sr_source_epoch (ag_first a) = sr_source_epoch row ∧
    sr_stream (ag_first a) = sr_stream row;
  stands_first : ag_first_sequence a ≤ ct_first_sequence (aggregate_contribution row);
  stands_last : ct_last_sequence (aggregate_contribution row) ≤ ag_last_sequence a;
  stands_complete : ag_complete a = true → ct_complete (aggregate_contribution row) = true
}.

Lemma sound_from now cluster_id rows row : row ∈ rows → folded now row = true →
  let a := aggregate_from_record row (tier now row) cluster_id in
  sound now cluster_id rows (folded_bucket now cluster_id row) a ∧ stands_for a row ∧
  ag_record_count a = ct_record_count (aggregate_contribution row).
Proof.
  intros Hin Hf. cbn zeta. destruct (contribution_ok row) as (Hc & Hs & Hh). unfold aggregate_from_record.
  destruct (bucket_time_range _ _) as [s e]. split_and!; [|by split|done]. split; cbn; try done. eauto.
Qed.

Lemma sound_add now cluster_id rows a row : row ∈ rows → folded now row = true →
  sound now cluster_id rows (folded_bucket now cluster_id row) a → ag_record_count a + ct_record_count (aggregate_contribution row) ≤ u64_max →
  let a' := aggregate_add a row in
  sound now cluster_id rows (folded_bucket now cluster_id row) a' ∧ stands_for a' row ∧
  (∀ r, stands_for a r → stands_for a' r) ∧
  ag_record_count a' = ag_record_count a + ct_record_count (aggregate_contribution row).
Proof.
  intros Hin Hf [Ha Haf Hb (Hs1 & Hs2 & Hs3) Hc Hseq Hh] Hsum. cbn zeta. destruct (contribution_ok row) as (Hc' & Hs' & Hh').
  unfold aggregate_add. destruct (bucket_time_range _ _) as [s e]. unfold sat_add. cbn in Hs1, Hs2, Hs3.
  split_and!.
  - split; cbn; try done; [by destruct (bool_decide _)..| |lia|lia|apply sha256_length]. by destruct (bool_decide _).
  - split; cbn; [by destruct (bool_decide _)|lia|lia|]. by intros [_ ?]%andb_true_iff.
  - intros r [(Hr1 & Hr2 & Hr3) Hrf Hrl Hrc]. split; cbn; [|lia|lia|].
    + destruct (bool_decide _); split_and!; congruence.
    + intros [? _]%andb_true_iff. by apply Hrc.
  - cbn. lia.
Qed.

(** ** The table *)

Definition weight (r : RetainedRecord) : N := match r with Raw _ => 0 | Aggregate a => ag_record_count a end.
Definition total m : N := sumN (map weight (map_to_list m).*2).

Lemma sumN_perm (k l : list N) : k ≡ₚ l → sumN k = sumN l.
Proof. induction 1; cbn; lia. Qed.

Lemma total_new m b v : m !! b = None → total (<[b := v]> m) = weight v + total m.
Proof. intros Hm. unfold total. rewrite (sumN_perm _ (map weight ((b, v) :: map_to_list m).*2)); [done|]. by rewrite map_to_list_insert. Qed.
Lemma total_replace m b v v' : m !! b = Some v → total (<[b := v']> m) + weight v = weight v' + total m.
Proof.
  intros Hm. rewrite <-insert_delete_eq, total_new by apply lookup_delete_eq.
  rewrite <-(insert_id m b v) at 2 by done. rewrite <-(insert_delete_eq m b v), (total_new (delete b m)) by apply lookup_delete_eq. lia.
Qed.

(** The table after a prefix of the rows. *)
Record table (now : N) (cluster_id : option string) rows (done_rows : list StoredRecord) m : Prop := {
  table_raw b row : m !! b = Some (Raw row) → row ∈ rows ∧ kept now row = true ∧ b = kept_bucket now cluster_id row;
  table_sound b a : m !! b = Some (Aggregate a) → sound now cluster_id rows b a;
  table_total : total m = accounted now done_rows;
  table_folded row : row ∈ done_rows → folded now row = true →
    ∃ a, m !! folded_bucket now cluster_id row = Some (Aggregate a) ∧ stands_for a row;
  table_kept row : row ∈ done_rows → kept now row = true → ∃ o, m !! kept_bucket now cluster_id row = Some (Raw o)
}.

Lemma kept_bucket_key now cluster_id row : bk_record_key (kept_bucket now cluster_id row) = Some (sr_record_key row).
Proof. unfold kept_bucket. by destruct (sr_tombstone row). Qed.

Lemma buckets_apart now cluster_id rows row o : pseudonyms_fresh now cluster_id rows → row ∈ rows → o ∈ rows →
  folded now row = true → kept now o = true → folded_bucket now cluster_id row ≠ kept_bucket now cluster_id o.
Proof.
  intros Hfresh Hr Ho Hf Hk Heq. apply (Hfresh row o Hr Ho Hf Hk). rewrite <-(kept_bucket_key now cluster_id), <-Heq. done.
Qed.

Lemma accounted_snoc now rows row : accounted now (rows ++ [row]) = accounted now rows + weight_of now row.
Proof. unfold accounted. rewrite map_app. induction (map _ rows); cbn in *; lia. Qed.

Section Table.
Context (now : N) (cluster_id : option string) (rows : list StoredRecord).
Context (Hfresh : pseudonyms_fresh now cluster_id rows) (Hwidth : accounted now rows ≤ u64_max).

Lemma table_folded_step before row after m : rows = before ++ row :: after → folded now row = true →
  table now cluster_id rows before m → ∃ a, retain now cluster_id m row = <[folded_bucket now cluster_id row := Aggregate a]> m ∧
    sound now cluster_id rows (folded_bucket now cluster_id row) a ∧ stands_for a row ∧
    (∀ r a', m !! folded_bucket now cluster_id row = Some (Aggregate a') → stands_for a' r → stands_for a r) ∧
    total (retain now cluster_id m row) = total m + ct_record_count (aggregate_contribution row).
Proof.
  intros Hrows Hf [Hraw Hsound Htotal _ _]. assert (row ∈ rows) as Hin by (subst rows; set_solver).
  rewrite (retain_folded _ _ _ _ Hf). destruct (m !! folded_bucket now cluster_id row) as [[o|a]|] eqn:Hm.
  - destruct (Hraw _ _ Hm) as (Ho & Hk & Hb). by destruct (buckets_apart now cluster_id rows row o Hfresh Hin Ho Hf Hk).
  - destruct (sound_add now cluster_id rows a row) as (Hs & Hr & Hall & Hc); [done|done|by apply Hsound| |].
    + assert (weight (Aggregate a) ≤ total m) as Hle.
      { apply sumN_elem_le. apply list_elem_of_fmap. exists (Aggregate a). split; [done|]. apply list_elem_of_fmap.
        exists (folded_bucket now cluster_id row, Aggregate a). split; [done|]. by apply elem_of_map_to_list. }
      cbn in Hle. etrans; [|exact Hwidth]. rewrite Hrows, cons_middle, app_assoc. unfold accounted. rewrite map_app, sumN_app.
      fold (accounted now (before ++ [row])). rewrite accounted_snoc, <-Htotal. unfold weight_of. rewrite Hf. lia.
    + exists (aggregate_add a row). split_and!; [done|done|done| |].
      * intros r a' [= <-]. apply Hall.
      * pose proof (total_replace m _ _ (Aggregate (aggregate_add a row)) Hm) as Ht. cbn [weight] in Ht. lia.
  - destruct (sound_from now cluster_id rows row Hin Hf) as (Hs & Hr & Hc). eexists. split_and!; [done|exact Hs|exact Hr|done|].
    rewrite total_new by done. cbn [weight]. rewrite Hc. lia.
Qed.

Lemma table_kept_step before row after m : rows = before ++ row :: after → kept now row = true →
  table now cluster_id rows before m →
  (retain now cluster_id m row = <[kept_bucket now cluster_id row := Raw row]> m ∧
     (∀ a, m !! kept_bucket now cluster_id row ≠ Some (Aggregate a)) ∨
   retain now cluster_id m row = m ∧ ∃ o, m !! kept_bucket now cluster_id row = Some (Raw o)) ∧
  total (retain now cluster_id m row) = total m.
Proof.
  intros Hrows Hk [Hraw Hsound Htotal _ _]. assert (row ∈ rows) as Hin by (subst rows; set_solver).
  assert (∀ a, m !! kept_bucket now cluster_id row ≠ Some (Aggregate a)) as Hno.
  { intros a Ha. destruct (sound_bucket _ _ _ _ _ (Hsound _ _ Ha)) as (r & Hr & Hf & Hb).
    by destruct (buckets_apart now cluster_id rows r row Hfresh Hr Hin Hf Hk). }
  destruct (retain_kept now cluster_id m row Hk) as [Heq|[[Heq Ho]|[a Ha]]]; [| |by destruct (Hno a)].
  - split; [by left|]. rewrite Heq. destruct (m !! kept_bucket now cluster_id row) as [[o|a]|] eqn:Hm; [| |].
    + pose proof (total_replace m _ _ (Raw row) Hm) as Ht. cbn in Ht. lia.
    + by destruct (Hno a).
    + by rewrite total_new.
  - split; [right; by split|]. by rewrite Heq.
Qed.

Lemma table_step before row after m : rows = before ++ row :: after →
  table now cluster_id rows before m → table now cluster_id rows (before ++ [row]) (retain now cluster_id m row).
Proof.
  intros Hrows Ht. assert (row ∈ rows) as Hin by (subst rows; set_solver).
  assert (∀ r, r ∈ before → r ∈ rows) as Hbefore by (subst rows; set_solver).
  destruct (folded now row) eqn:Hf.
  - destruct (table_folded_step _ _ _ _ Hrows Hf Ht) as (a & Heq & Hs & Hr & Hall & Htot). destruct Ht as [Hraw Hsound Htotal Hfolded Hkept].
    assert (kept now row = false) as Hnk by (unfold folded in Hf; by destruct (kept now row)).
    split.
    + intros b o. rewrite Heq. destruct (decide (b = folded_bucket now cluster_id row)) as [-> |?];
        [by rewrite lookup_insert_eq|rewrite lookup_insert_ne by done; apply Hraw].
    + intros b a'. rewrite Heq. destruct (decide (b = folded_bucket now cluster_id row)) as [-> |?];
        [rewrite lookup_insert_eq; by intros [= <-]|rewrite lookup_insert_ne by done; apply Hsound].
    + rewrite Htot, accounted_snoc, Htotal. unfold weight_of. by rewrite Hf.
    + intros r [Hr'|Hr']%elem_of_app Hrf; rewrite Heq.
      * destruct (Hfolded r Hr' Hrf) as (a' & Ha' & Hst). destruct (decide (folded_bucket now cluster_id r = folded_bucket now cluster_id row)) as [He|?].
        -- rewrite He in Ha'. exists a. rewrite He, lookup_insert_eq. eauto.
        -- rewrite lookup_insert_ne by done. eauto.
      * apply list_elem_of_singleton in Hr' as ->. exists a. by rewrite lookup_insert_eq.
    + intros r [Hr'|Hr']%elem_of_app Hrk; [|apply list_elem_of_singleton in Hr' as ->; congruence]. rewrite Heq.
      rewrite lookup_insert_ne; [by apply Hkept|]. apply (buckets_apart now cluster_id rows row r); auto.
  - destruct (kept now row) eqn:Hk.
    2: { rewrite retain_dropped by done. destruct Ht as [Hraw Hsound Htotal Hfolded Hkept]. split; [done|done| | |].
         - rewrite accounted_snoc, Htotal. unfold weight_of. rewrite Hf. lia.
         - intros r [?|Hr']%elem_of_app; [by apply Hfolded|apply list_elem_of_singleton in Hr' as ->; congruence].
         - intros r [?|Hr']%elem_of_app; [by apply Hkept|apply list_elem_of_singleton in Hr' as ->; congruence]. }
    destruct (table_kept_step _ _ _ _ Hrows Hk Ht) as [Hcase Htot]. destruct Ht as [Hraw Hsound Htotal Hfolded Hkept].
    assert (accounted now (before ++ [row]) = accounted now before) as Hacc.
    { rewrite accounted_snoc. unfold weight_of. rewrite Hf. lia. }
    destruct Hcase as [[Heq Hno]|[Heq [o Ho]]].
    + split.
      * intros b o. rewrite Heq. destruct (decide (b = kept_bucket now cluster_id row)) as [-> |?];
          [rewrite lookup_insert_eq; by intros [= <-]|rewrite lookup_insert_ne by done; apply Hraw].
      * intros b a'. rewrite Heq. destruct (decide (b = kept_bucket now cluster_id row)) as [-> |?];
          [by rewrite lookup_insert_eq|rewrite lookup_insert_ne by done; apply Hsound].
      * by rewrite Htot, Hacc.
      * intros r [Hr'|Hr']%elem_of_app Hrf; [|apply list_elem_of_singleton in Hr' as ->; congruence].
        rewrite Heq, lookup_insert_ne; [by apply Hfolded|]. apply not_eq_sym, (buckets_apart now cluster_id rows r row); auto.
      * intros r Hr' Hrk. rewrite Heq. destruct (decide (kept_bucket now cluster_id r = kept_bucket now cluster_id row)) as [-> |?].
        -- rewrite lookup_insert_eq. eauto.
        -- rewrite lookup_insert_ne by done. apply elem_of_app in Hr' as [?|Hr']; [by apply Hkept|].
           apply list_elem_of_singleton in Hr' as ->. done.
    + rewrite Heq in *. split; [done|done|by rewrite Htotal, Hacc| |].
      * intros r [?|Hr']%elem_of_app; [by apply Hfolded|apply list_elem_of_singleton in Hr' as ->; congruence].
      * intros r [?|Hr']%elem_of_app; [by apply Hkept|apply list_elem_of_singleton in Hr' as ->; eauto].
Qed.

Lemma table_all : table now cluster_id rows rows (foldl (retain now cluster_id) ∅ rows).
Proof.
  assert (∀ after before m, rows = before ++ after → table now cluster_id rows before m →
            table now cluster_id rows rows (foldl (retain now cluster_id) m after)) as Hgen.
  { induction after as [|row after IH]; intros before m Hrows Ht; cbn.
    - rewrite app_nil_r in Hrows. by rewrite <-Hrows in Ht.
    - apply (IH (before ++ [row])); [by rewrite <-app_assoc|]. by eapply table_step. }
  apply (Hgen rows [] ∅); [done|]. split; try (intros; set_solver); intros ?? Hl; by rewrite lookup_empty in Hl.
Qed.
End Table.

(** ** The rows that come out *)

Lemma prune_in rows gaps now cluster_id o :
  o ∈ prune_records rows gaps now cluster_id ↔ ∃ b r, foldl (retain now cluster_id) ∅ rows !! b = Some r ∧ o = into_stored_record gaps r.
Proof.
  unfold prune_records. rewrite list_elem_of_fmap. split.
  - intros (r & -> & ([b r'] & -> & Hin)%list_elem_of_fmap). rewrite entries_perm, elem_of_map_to_list in Hin. by exists b, r'.
  - intros (b & r & Hr & ->). exists r. split; [done|]. apply list_elem_of_fmap. exists (b, r). split; [done|].
    by rewrite entries_perm, elem_of_map_to_list.
Qed.

(** The payload of an aggregate reads back as what was counted. *)
Definition payload_of a (gaps : list StoredGap) : RetentionAggregatePayload :=
  mkPayload "sha256" (resolution_name (ag_resolution a)) (Some (ag_bucket_start_unix_seconds a)) (Some (ag_bucket_end_unix_seconds a))
    (ag_record_count a) (ag_first_sequence a) (ag_last_sequence a) (hex_encode (ag_payload_hash a))
    (ag_complete a && negb (existsb (gap_touches a) gaps)) (aggregate_identifier a).

(** An aggregate that stands for something. *)
Definition counts a : Prop := 0 < ag_record_count a ∧ ag_first_sequence a ≤ ag_last_sequence a.

Lemma aggregate_row_parses a gaps : counts a → aggregate_payload (aggregate_row a gaps) = Some (payload_of a gaps).
Proof.
  intros [Hc Hs]. unfold aggregate_payload, aggregate_row. cbn [sr_payload update_field]. rewrite payload_from_to. cbn.
  by rewrite !bool_decide_true.
Qed.

Lemma aggregate_row_payload now cluster_id rows b a gaps : sound now cluster_id rows b a →
  aggregate_payload (aggregate_row a gaps) = Some (payload_of a gaps) ∧
  aggregate_contribution (aggregate_row a gaps) =
    mkContribution (ag_record_count a) (ag_first_sequence a) (ag_last_sequence a) (ag_payload_hash a)
      (ag_complete a && negb (existsb (gap_touches a) gaps)) (aggregate_identifier a).
Proof.
  intros Hs. pose proof (aggregate_row_parses a gaps (conj (sound_count _ _ _ _ _ Hs) (sound_sequences _ _ _ _ _ Hs))) as Hp.
  split; [done|]. unfold aggregate_contribution. rewrite Hp. unfold payload_of.
  cbn [mbind option_bind pl_payload_sha256]. rewrite hex_decode_encode. cbn [mbind option_bind].
  by rewrite bool_decide_true by apply (sound_hash _ _ _ _ _ Hs).
Qed.

(** Whatever the table, a row that comes out is a row that went in or an aggregate. *)
Lemma prune_shape rows gaps now cluster_id o :
  o ∈ prune_records rows gaps now cluster_id → o ∈ rows ∨ is_Some (aggregate_payload o).
Proof.
  assert (∀ b v, foldl (retain now cluster_id) ∅ rows !! b = Some v → match v with Raw row => row ∈ rows | Aggregate a => counts a end) as Hinv.
  { assert (∀ l m, (∀ row, row ∈ l → row ∈ rows) →
      (∀ b v, m !! b = Some v → match v with Raw row => row ∈ rows | Aggregate a => counts a end) →
      ∀ b v, foldl (retain now cluster_id) m l !! b = Some v → match v with Raw row => row ∈ rows | Aggregate a => counts a end) as Hgen.
    2: { apply Hgen; [done|]. intros b v. by rewrite lookup_empty. }
    induction l as [|row l IH]; intros m Hl Hm; [exact Hm|]. cbn [foldl]. apply IH; [intros ? ?; apply Hl; by right|].
    assert (row ∈ rows) as Hrow by (apply Hl; left). destruct (contribution_ok row) as (Hc & Hs & _).
    assert (∀ b' v', match v' with Raw row => row ∈ rows | Aggregate a => counts a end →
      ∀ b v, <[b' := v']> m !! b = Some v → match v with Raw row => row ∈ rows | Aggregate a => counts a end) as Hins.
    { intros b' v' Hv b v. rewrite lookup_insert_Some. intros [[<- <-]|[_ ?]]; [done|by apply (Hm b)]. }
    unfold retain. destruct (sr_tombstone row); [by apply Hins|]. destruct (resolution_for_age _ _) as [res|]; [|done].
    destruct (m !! for_record row res _ cluster_id) as [[o'|a]|] eqn:Hb; [destruct (bool_decide _); [by apply Hins|done]| |].
    - apply Hins. destruct (Hm _ _ Hb) as [H1 H2]. unfold aggregate_add, counts, sat_add. destruct (bucket_time_range _ _). cbn. split; [unfold u64_max; lia|lia].
    - apply Hins. destruct (keeps_minute_detail _ _); [done|]. unfold aggregate_from_record. by destruct (bucket_time_range _ _). }
  intros (b & [row|a] & Hb & ->)%prune_in; [left; apply (Hinv _ _ Hb)|right]. cbn [into_stored_record].
  rewrite aggregate_row_parses by apply (Hinv _ _ Hb). eauto.
Qed.

Lemma aggregate_row_folded now cluster_id rows b a gaps : sound now cluster_id rows b a → folded now (aggregate_row a gaps) = true.
Proof. intros Hs. apply (sound_folded _ _ _ _ _ Hs). Qed.

Section Outcome.
Context (now : N) (cluster_id : option string) (rows : list StoredRecord) (gaps : list StoredGap).
Context (Hfresh : pseudonyms_fresh now cluster_id rows) (Hwidth : accounted now rows ≤ u64_max).

Lemma prune_weight m : table now cluster_id rows rows m → accounted now (map (into_stored_record gaps) (entries m).*2) = total m.
Proof.
  intros Ht. unfold accounted, total. rewrite map_map.
  rewrite (sumN_perm (map weight (map_to_list m).*2) (map weight (entries m).*2)) by (by rewrite entries_perm).
  assert (∀ kv, kv ∈ entries m → m !! kv.1 = Some kv.2) as Hin.
  { intros [b r]. by rewrite entries_perm, elem_of_map_to_list. }
  induction (entries m) as [|[b r] l IH]; [done|]. cbn [fmap list_fmap map sumN snd].
  rewrite IH by (intros kv ?; apply Hin; by right). f_equal.
  assert (m !! b = Some r) as Hb by (apply (Hin (b, r)); left). unfold weight_of. destruct r as [o|a]; cbn [into_stored_record weight].
  - destruct (table_raw _ _ _ _ _ Ht _ _ Hb) as (_ & Hk & _). unfold folded. by rewrite Hk.
  - pose proof (table_sound _ _ _ _ _ Ht _ _ Hb) as Hs. rewrite (aggregate_row_folded _ _ _ _ _ gaps Hs).
    by rewrite (proj2 (aggregate_row_payload _ _ _ _ _ gaps Hs)).
Qed.

(** No row is lost from the count: what the table stood for, it still stands for. *)
Lemma prune_conserves : accounted now (prune_records rows gaps now cluster_id) = accounted now rows.
Proof.
  pose proof (table_all now cluster_id rows Hfresh Hwidth) as Ht. unfold prune_records. rewrite prune_weight by done.
  apply (table_total _ _ _ _ _ Ht).
Qed.
End Outcome.

(** Whether a gap hides sequences a row stands for. *)
Definition hides (gap : StoredGap) row : bool :=
  bool_decide (gp_source_node_id gap = sr_source_node_id row) && bool_decide (gp_stream gap = sr_stream row)
  && bool_decide (gp_source_epoch gap = sr_source_epoch row)
  && bool_decide (gp_first_sequence gap ≤ ct_last_sequence (aggregate_contribution row))
  && bool_decide (ct_first_sequence (aggregate_contribution row) ≤ gp_last_sequence gap).

(** What is left of a row: an aggregate of its stream whose range of sequences has the row's,
    and which calls itself complete only if the row was and no known gap hides any of it. *)
Definition represents (gaps : list StoredGap) o row : Prop :=
  ∃ p, aggregate_payload o = Some p ∧
    sr_source_node_id o = sr_source_node_id row ∧ sr_source_epoch o = sr_source_epoch row ∧ sr_stream o = sr_stream row ∧
    pl_first_sequence p ≤ ct_first_sequence (aggregate_contribution row) ∧
    ct_last_sequence (aggregate_contribution row) ≤ pl_last_sequence p ∧
    (pl_complete p = true → ct_complete (aggregate_contribution row) = true ∧ Forall (λ gap, hides gap row = false) gaps).

Lemma represents_stands a row now cluster_id rows b gaps :
  sound now cluster_id rows b a → stands_for a row → represents gaps (aggregate_row a gaps) row.
Proof.
  intros Hs [(Hs1 & Hs2 & Hs3) Hf Hl Hc]. exists (payload_of a gaps). split_and!; [by eapply aggregate_row_payload|done..|].
  cbn. intros [Ha Hg]%andb_true_iff. split; [by apply Hc|]. apply Forall_forall. intros gap Hin. apply not_true_is_false. intros Hh.
  apply negb_true_iff in Hg. eapply not_true_iff_false; [exact Hg|]. apply existsb_exists. exists gap. split; [by apply list_elem_of_In|].
  unfold hides in Hh. rewrite !andb_true_iff, !bool_decide_eq_true in Hh. destruct Hh as ((((H1 & H2) & H3) & H4) & H5).
  unfold gap_touches. rewrite !(bool_decide_true _) by (congruence || lia). done.
Qed.

(** The key of an aggregate holds no more than where its rows came from, the time bucket and a
    pseudonym. *)
Definition anonymous o : Prop :=
  ∃ p start, aggregate_payload o = Some p ∧
    sr_record_key o = aggregate_record_key o (pl_resolution p) start (pl_anonymized_identifier p).

End Accounts.

(** ** A sample table *)

Module RetentionSample.
Import SyncSample.
#[local] Existing Instance plain_sync.

Definition put_option (o : option string) : list string := match o with Some s => ["s"; s] | None => ["n"; ""] end.
Definition get_option (tag s : string) : option string := if bool_decide (tag = "s") then Some s else None.
Lemma get_put_option o : ∃ t s, put_option o = [t; s] ∧ get_option t s = o.
Proof. destruct o as [s|]; do 2 eexists; (split; [done|]); [|done]. unfold get_option. by rewrite bool_decide_true. Qed.

#[local] Instance plain_aggregate : AggregateCodec.
Proof.
  refine {|
    payload_to_json := λ p, pack ([pl_algorithm p; pl_resolution p; number (pl_record_count p); number (pl_first_sequence p);
      number (pl_last_sequence p); pl_payload_sha256 p; if pl_complete p then "t" else "f"] ++
      put_option (number <$> pl_bucket_start_unix_seconds p) ++ put_option (number <$> pl_bucket_end_unix_seconds p) ++
      put_option (pl_anonymized_identifier p));
    payload_from_json := λ s, match unpack s with
      | [al; re; rc; fs; ls; ha; co; t1; s1; t2; s2; t3; s3] =>
          Some (mkPayload al re (unnumber <$> get_option t1 s1) (unnumber <$> get_option t2 s2) (unnumber rc) (unnumber fs) (unnumber ls)
                  ha (bool_decide (co = "t")) (get_option t3 s3))
      | _ => None
      end
  |}.
  intros [al re bs be rc fs ls ha co an]. rewrite unpack_pack.
  cbn [pl_algorithm pl_resolution pl_record_count pl_first_sequence pl_last_sequence pl_payload_sha256 pl_complete
    pl_bucket_start_unix_seconds pl_bucket_end_unix_seconds pl_anonymized_identifier].
  destruct (get_put_option (number <$> bs)) as (t1 & s1 & -> & E1). destruct (get_put_option (number <$> be)) as (t2 & s2 & -> & E2).
  destruct (get_put_option an) as (t3 & s3 & -> & E3). cbn [app]. rewrite E1, E2, E3, !unnumber_number.
  assert (∀ o : option N, unnumber <$> (number <$> o) = o) as Hn by (intros [n|]; [cbn; by rewrite unnumber_number|done]).
  rewrite !Hn. by destruct co.
Defined.

(** Two addresses seen ten days ago, one of them today. *)
Definition now : N := 20 * DAY_SECONDS.
Definition seen (at_ sequence : N) (address : string) : StoredRecord :=
  mkStoredRecord at_ at_ "node-a" 3 "ip_usage" sequence "node-a" "node-a" "ip_usage.v1" 1 address "1" false.
Definition rows : list StoredRecord :=
  [seen (10 * DAY_SECONDS) 4 "192.0.2.7"; seen (10 * DAY_SECONDS + 60) 5 "192.0.2.7"; seen (10 * DAY_SECONDS + 60) 6 "192.0.2.8"; seen now 90 "192.0.2.7"].
Definition lost : list StoredGap := [mkStoredGap "node-a" 3 "ip_usage" 5 5 0 0 false].

Lemma rows_fresh : pseudonyms_fresh now (Some "c1") rows.
Proof.
  assert (Forall (λ row, Forall (λ o, folded now row = true → kept now o = true →
            retention_identifier row false (Some "c1") ≠ Some (sr_record_key o)) rows) rows) as Hall.
  { unfold rows. repeat (apply Forall_cons; split); try apply Forall_nil; try exact I; intros Hf Hk; vm_compute in Hf, Hk |- *; congruence. }
  intros row o Hr Ho. rewrite Forall_forall in Hall. specialize (Hall row Hr). rewrite Forall_forall in Hall. by apply Hall.
Qed.

End RetentionSample.
