(* ===== verification/ReplicaReceive.v ===== *)
(** * Receiving history into a repository

    [src/history_repository/replica/runtime]: a signed segment on its way into the repository
    ([receive.rs], with the gaps and segments of [capacity.rs], the rows of [storage.rs] and
    the start of [runtime.rs]).  The receiver of the stream, the ledger of deletions and the
    rows are three views of what arrived; a call changes them together or puts them back, and
    writes them out as one control snapshot.

    The model is the mode in which history is kept in the snapshot; the rows of the SQLite mode
    are the database's.  Of the snapshot it has the fields these operations work on.  The size
    of a snapshot on disk, the free space and the outcome of a write are parameters. *)

From S2P Require Import Prelude Text Search Ordered Hex Repository AntiEntropy HistorySync Retention.
Open Scope string_scope.
Open Scope list_scope.
Open Scope N_scope.

(** ** The state of the runtime *)

Inductive RepositoryRuntimeError : Type :=
  | ProtocolFailed (e : ProtocolError)
  | ReplicaFailed (e : ReplicaError)
  | StorageFailed (reason : string)
  | ClusterBindingMismatch
  | WriteStopped (a : HistoryWriteAvailability)
  | StateLimitExceeded.

Definition MAX_RUNTIME_STATE_BYTES : N := 16 * 1024 * 1024.
Definition TOMBSTONE_HORIZON_SECONDS : N := 2 * 365 * 24 * 60 * 60.
Definition KNOWN_SCHEMAS : list (string * N) :=
  [("runtime.v1", 1); ("path_health.v1", 1); ("traffic.v1", 1); ("connections.v1", 1); ("ip_usage.v1", 1); ("tombstone.v1", 1)].

Definition known_schemas : gset (string * N) := list_to_set KNOWN_SCHEMAS.
Definition is_known_schema (x : SyncRecord) : bool := bool_decide ((schema_id x, schema_version x) ∈ KNOWN_SCHEMAS).

Definition source_stream_for_schema (schema : string) : option string :=
  if bool_decide (schema = "runtime.v1") then Some "runtime"
  else if bool_decide (schema = "path_health.v1") then Some "path_health"
  else if bool_decide (schema = "traffic.v1") then Some "traffic"
  else if bool_decide (schema = "connections.v1") then Some "connections"
  else if bool_decide (schema = "ip_usage.v1") then Some "ip_usage"
  else None.

Record StoredSegment : Type := mkStoredSegment {
  sg_id : string;
  sg_closed_at_unix_seconds : N;
  sg_identity : RepositoryNodeIdentity;
  sg_wire : string
}.

Record RetentionCompactionCursor : Type := mkCompactionCursor {
  cc_observed_start_unix_seconds : N;
  cc_source_node_id : string;
  cc_source_epoch : N;
  cc_stream : string;
  cc_sequence : N
}.

Record RetentionCompactionContinuation : Type := mkContinuation {
  cn_aggregates : list StoredRecord;
  cn_aggregate : option StoredRecord
}.

(** What the node has still to send as a source ([source.rs]). *)
Record LocalSourceStreamState : Type := mkSourceStream {
  ss_next_sequence : N;
  ss_previous_segment_hash : option string;
  ss_pending : list StoredSegment;
  ss_backpressured_records : N
}.
#[export] Instance LocalSourceStreamState_eta : Eta LocalSourceStreamState := λ s,
  mkSourceStream (ss_next_sequence s) (ss_previous_segment_hash s) (ss_pending s) (ss_backpressured_records s).
Definition LocalSourceStreamState_default : LocalSourceStreamState := mkSourceStream 0 None [] 0.

Record LocalSourceGap : Type := mkSourceGap {
  lg_source_epoch : N;
  lg_first_sequence : N;
  lg_last_sequence : N;
  lg_start_unix_seconds : N;
  lg_end_unix_seconds : N
}.

Record LocalSourceState : Type := mkLocalSource {
  ls_epoch : N;
  ls_node_id : string;
  ls_streams : gmap string LocalSourceStreamState;
  ls_last_dynamic_relay_attempt_unix_seconds : option N;
  ls_primary_failure_cycles : N;
  ls_standby_success_cycles : N;
  ls_primary_failure_repository_id : option string;
  ls_backpressure_gaps : gmap string LocalSourceGap;
  ls_deletion_marker_keys : gmap string ReplicaRecordKey
}.
#[export] Instance LocalSourceState_eta : Eta LocalSourceState := λ s,
  mkLocalSource (ls_epoch s) (ls_node_id s) (ls_streams s) (ls_last_dynamic_relay_attempt_unix_seconds s) (ls_primary_failure_cycles s)
    (ls_standby_success_cycles s) (ls_primary_failure_repository_id s) (ls_backpressure_gaps s) (ls_deletion_marker_keys s).
Definition LocalSourceState_default : LocalSourceState := mkLocalSource 0 "" ∅ None 0 0 None ∅ ∅.

(** [RepositoryReplicaSnapshot] *)
Record Snapshot : Type := mkSnapshot {
  sn_cluster_id : option string;
  sn_receiver : option SegmentReceiverCheckpoint;
  sn_tombstones : TombstoneLedgerCheckpoint;
  sn_records : list StoredRecord;
  sn_segments : list StoredSegment;
  sn_gaps : list StoredGap;
  sn_history_truncated : bool;
  sn_capacity : RepositoryCapacity;
  sn_last_verified_unix_seconds : option N;
  sn_local_source : LocalSourceState;
  sn_source_last_received_unix_seconds : gmap string N;
  sn_retention_compaction_cursor : option RetentionCompactionCursor;
  sn_retention_compaction_continuation : option RetentionCompactionContinuation
}.
#[export] Instance Snapshot_eta : Eta Snapshot := λ s,
  mkSnapshot (sn_cluster_id s) (sn_receiver s) (sn_tombstones s) (sn_records s) (sn_segments s) (sn_gaps s)
    (sn_history_truncated s) (sn_capacity s) (sn_last_verified_unix_seconds s) (sn_local_source s)
    (sn_source_last_received_unix_seconds s) (sn_retention_compaction_cursor s) (sn_retention_compaction_continuation s).

Definition Snapshot_default : Snapshot :=
  mkSnapshot None None (checkpoint (tombstones_new TOMBSTONE_HORIZON_SECONDS)) [] [] [] false RepositoryCapacity_default
    None LocalSourceState_default ∅ None None.

(** [RepositoryReplicaRuntime] *)
Record Runtime : Type := mkRuntime {
  rt_snapshot : Snapshot;
  rt_receiver : option SegmentReceiver;
  rt_tombstones : TombstoneLedger
}.
#[export] Instance Runtime_eta : Eta Runtime := λ r, mkRuntime (rt_snapshot r) (rt_receiver r) (rt_tombstones r).

(** [RepositoryReplicaRuntime::empty] *)
Definition Runtime_empty : Runtime := mkRuntime Snapshot_default None (tombstones_new TOMBSTONE_HORIZON_SECONDS).

(** ** Calls

    A call changes the runtime, writes snapshots and answers; [None] is a panic. *)
Definition Call (A : Type) : Type := Runtime → option (Runtime * list Snapshot * result A RepositoryRuntimeError).

Definition ret {A} (a : A) : Call A := λ rt, Some (rt, [], Ok a).
Definition fail {A} (e : RepositoryRuntimeError) : Call A := λ rt, Some (rt, [], Err e).
Definition bind {A B} (m : Call A) (k : A → Call B) : Call B := λ rt,
  match m rt with
  | None => None
  | Some (rt', ws, Err e) => Some (rt', ws, Err e)
  | Some (rt', ws, Ok a) =>
      match k a rt' with
      | None => None
      | Some (rt'', ws', r) => Some (rt'', ws ++ ws', r)
      end
  end.
Definition gets {A} (f : Runtime → A) : Call A := λ rt, Some (rt, [], Ok (f rt)).
Definition modify (f : Runtime → Runtime) : Call unit := λ rt, Some (f rt, [], Ok tt).
Definition on_snapshot (f : Snapshot → Snapshot) : Call unit := modify (λ rt, rt <| rt_snapshot ::= f |>).
Definition answer {A E} (f : E → RepositoryRuntimeError) (r : result A E) : Call A :=
  match r with Ok a => ret a | Err e => fail (f e) end.

Notation "'let!' x ':=' m 'in' k" := (bind m (λ x, k)) (at level 10, x pattern, m at level 200, k at level 200) : xp_scope.
Notation "m ';!' k" := (bind m (λ _, k)) (at level 100, k at level 200, right associativity) : xp_scope.

(** The outcome of a call as a value, [match call() { Err(error) => ... }]. *)
Definition attempt {A} (m : Call A) : Call (result A RepositoryRuntimeError) := λ rt,
  match m rt with
  | None => None
  | Some (rt', ws, r) => Some (rt', ws, Ok r)
  end.

(** [for x in l { f(x)?; }] *)
Fixpoint each {A} (f : A → Call unit) (l : list A) : Call unit :=
  match l with [] => ret tt | x :: l => f x ;! each f l end.

(** What the outside answers during one call: the free space, and the outcome of its writes. *)
Record Outside : Type := mkOutside {
  available_bytes : result N string;
  write : result unit string;
  record_source_epoch : result unit string
}.

(** The size of a snapshot as JSON. *)
Class SnapshotSize := snapshot_bytes : Snapshot → result N string.

Section Runtime.
Context `{SyncCrypto, AggregateCodec, SnapshotSize}.
Context (outside : Outside).

(** [self.storage.write(REPOSITORY_REPLICA_KEY, &bytes)] *)
Definition write_snapshot : Call unit := λ rt,
  match write outside with
  | Ok _ => Some (rt, [rt_snapshot rt], Ok tt)
  | Err e => Some (rt, [], Err (StorageFailed e))
  end.

(** [persist_control_state] *)
Definition persist_control_state : Call unit :=
  modify (λ rt, rt <| rt_snapshot ::= λ s, s <| sn_tombstones := checkpoint (rt_tombstones rt) |> |>) ;!
  let! bytes := gets (λ rt, snapshot_bytes (rt_snapshot rt)) in
  let! n := answer StorageFailed bytes in
  if bool_decide (MAX_RUNTIME_STATE_BYTES < n) then fail StateLimitExceeded else write_snapshot.

(** [refresh_capacity] *)
Definition refresh_capacity : Call unit :=
  let! bytes := gets (λ rt, snapshot_bytes (rt_snapshot rt)) in
  let! used := answer StorageFailed bytes in
  let! available := answer StorageFailed (available_bytes outside) in
  let! capacity := gets (λ rt, record_usage (sn_capacity (rt_snapshot rt)) used available) in
  let! capacity := answer (λ _, StorageFailed "repository quota must be greater than zero") capacity in
  on_snapshot (λ s, s <| sn_capacity := capacity |>).

(** [LocalSourceState::rotate_after_repository_rebuild] *)
Definition rotate_after_repository_rebuild (l : LocalSourceState) : result LocalSourceState RepositoryRuntimeError :=
  let? epoch :=
    if bool_decide (ls_epoch l = 0) then Ok 0
    else if bool_decide (i64_max ≤ ls_epoch l) then Err (StorageFailed "source epoch exhausted")
    else Ok (ls_epoch l + 1) in
  Ok (mkLocalSource epoch (ls_node_id l) ∅ (ls_last_dynamic_relay_attempt_unix_seconds l) 0 0 None ∅ ∅).

(** [rebuild_if_stale] *)
Definition rebuild_if_stale (now : N) : Call unit :=
  let! last := gets (λ rt, sn_last_verified_unix_seconds (rt_snapshot rt)) in
  match last with
  | None => ret tt
  | Some last_verified =>
      if negb (requires_rebuild (mkFreshness last_verified TOMBSTONE_HORIZON_SECONDS) now) then ret tt
      else
        let! cluster_id := gets (λ rt, sn_cluster_id (rt_snapshot rt)) in
        let! local_source := gets (λ rt, rotate_after_repository_rebuild (sn_local_source (rt_snapshot rt))) in
        let! local_source := answer (λ e, e) local_source in
        (if bool_decide (is_Some cluster_id) && negb (str_is_empty (ls_node_id local_source))
         then answer StorageFailed (record_source_epoch outside) else ret tt) ;!
        modify (λ _, mkRuntime (Snapshot_default <| sn_cluster_id := cluster_id |> <| sn_local_source := local_source |>)
                       ((λ c, for_cluster c known_schemas) <$> cluster_id) (tombstones_new TOMBSTONE_HORIZON_SECONDS)) ;!
        persist_control_state
  end.

Definition bind_cluster (cluster_id : string) : Call unit :=
  let! existing := gets (λ rt, sn_cluster_id (rt_snapshot rt)) in
  match existing with
  | Some existing => if bool_decide (existing ≠ cluster_id) then fail ClusterBindingMismatch else ret tt
  | None => on_snapshot (λ s, s <| sn_cluster_id := Some cluster_id |>)
  end.

Definition ensure_receiver : Call unit :=
  let! receiver := gets rt_receiver in
  match receiver with
  | Some _ => ret tt
  | None =>
      let! cluster_id := gets (λ rt, sn_cluster_id (rt_snapshot rt)) in
      let! cluster_id := answer (λ e, e) (ok_or cluster_id ClusterBindingMismatch) in
      modify (λ rt, rt <| rt_receiver := Some (for_cluster cluster_id known_schemas) |>)
  end.

(** [.expect("receiver initialized")] *)
Definition the_receiver : Call SegmentReceiver := λ rt,
  match rt_receiver rt with Some r => Some (rt, [], Ok r) | None => None end.

(** ** Rows *)

(** [StoredRecord::from_record] *)
Definition from_record (observed_at received_at : N) (cursor : ReplicaCursor) (x : SyncRecord) : StoredRecord :=
  mkStoredRecord observed_at received_at (rc_source_node_id cursor) (rc_source_epoch cursor) (rc_stream cursor) (rc_sequence cursor)
    (subject_node_id x) (observer_node_id x) (schema_id x) (schema_version x) (record_key x) (payload x) (is_tombstone x).

(** [StoredRecord::matches_key] *)
Definition matches_key (row : StoredRecord) (key : ReplicaRecordKey) : bool :=
  bool_decide (sr_source_node_id row = rk_source_node_id key) && bool_decide (sr_source_epoch row = rk_source_epoch key)
  && bool_decide (sr_stream row = rk_stream key) && bool_decide (sr_subject_node_id row = rk_subject_node_id key)
  && bool_decide (sr_observer_node_id row = rk_observer_node_id key) && bool_decide (sr_schema_id row = rk_schema_id key)
  && bool_decide (sr_schema_version row = rk_schema_version key) && bool_decide (sr_record_key row = rk_record_key key)
  && sr_tombstone row.

(** [StoredRecord::matches_tombstone_key] *)
Definition matches_tombstone_key (row : StoredRecord) (key : ReplicaRecordKey) (prefix : bool) : bool :=
  (prefix || bool_decide (sr_stream row = rk_stream key)) && bool_decide (sr_subject_node_id row = rk_subject_node_id key)
  && bool_decide (sr_observer_node_id row = rk_observer_node_id key) && bool_decide (sr_schema_id row = rk_schema_id key)
  && bool_decide (sr_schema_version row = rk_schema_version key)
  && (if prefix then String.prefix (rk_record_key key) (sr_record_key row) else bool_decide (sr_record_key row = rk_record_key key)).

Definition delete_records_for_tombstone (key : ReplicaRecordKey) : Call unit :=
  let prefix := ends_with ":" (rk_record_key key) in
  on_snapshot (λ s, s <| sn_records ::= List.filter (λ row, sr_tombstone row || negb (matches_tombstone_key row key prefix)) |>).

(** [expire_tombstones]: whether a deletion expired. *)
Definition expire_tombstones (now : N) : Call bool :=
  let! expired := gets (λ rt, (expire (rt_tombstones rt) now).2) in
  modify (λ rt, rt <| rt_tombstones ::= λ t, (expire t now).1 |>) ;!
  each (λ key,
    let! cursor := answer ProtocolFailed (sync_cursor_new (rk_source_node_id key) (rk_source_epoch key) (rk_stream key) (rk_sequence key)) in
    let x := mkSyncRecord (rk_subject_node_id key) (rk_observer_node_id key) (rk_schema_id key) (rk_schema_version key) (rk_record_key key) "" true in
    modify (λ rt, rt <| rt_receiver ::= fmap (λ r, forget_tombstone r cursor x) |>
                     <| rt_snapshot ::= λ s, s <| sn_records ::= List.filter (λ row, negb (matches_key row key)) |> |>)) expired ;!
  ret (negb (bool_decide (expired = []))).

(** ** Gaps *)

Definition push_gap (gap : StoredGap) : Call unit :=
  on_snapshot (λ s, if bool_decide (length (sn_gaps s) = 64%nat) then s <| sn_history_truncated := true |>
                    else s <| sn_gaps ::= λ gaps, gaps ++ [gap] |>).

Definition record_gap (s : CanonicalSegment) (permanent : bool) : Call unit :=
  push_gap (mkStoredGap (source_node_id (first_cursor s)) (source_epoch (first_cursor s)) (stream (first_cursor s))
              (sequence (first_cursor s)) (sequence (last_cursor s)) (opened_at_unix_seconds s) (closed_at_unix_seconds s) permanent).

Definition record_sequence_gap (s : CanonicalSegment) (expected actual : N) : Call unit :=
  if bool_decide (actual ≤ expected) then on_snapshot (λ sn, sn <| sn_history_truncated := true |>)
  else push_gap (mkStoredGap (source_node_id (first_cursor s)) (source_epoch (first_cursor s)) (stream (first_cursor s))
                   expected (actual - 1) 0 (opened_at_unix_seconds s) false).

Definition record_epoch_rotation_gap (gap : CursorGap) (earliest_observed : N) : Call unit :=
  push_gap (mkStoredGap (source_node_id (requested gap)) (source_epoch (requested gap)) (stream (requested gap))
              (sat_add u64_max (sequence (requested gap)) 1) u64_max 0 (sat_sub earliest_observed 1) true).

(** What a received range leaves of a gap. *)
Definition repaired_gap (s : CanonicalSegment) (gap : StoredGap) : list StoredGap :=
  let first := sequence (first_cursor s) in
  let last := sequence (last_cursor s) in
  if gp_permanent gap || bool_decide (gp_source_node_id gap ≠ source_node_id (first_cursor s))
     || bool_decide (gp_source_epoch gap ≠ source_epoch (first_cursor s)) || bool_decide (gp_stream gap ≠ stream (first_cursor s))
     || bool_decide (last < gp_first_sequence gap) || bool_decide (gp_last_sequence gap < first)
  then [gap]
  else (if bool_decide (gp_first_sequence gap < first) then [gap <| gp_last_sequence := first - 1 |>] else [])
       ++ (if bool_decide (last < gp_last_sequence gap) then [gap <| gp_first_sequence := last + 1 |>] else []).
Definition clear_repaired_gaps (s : CanonicalSegment) : Call unit :=
  on_snapshot (λ sn, sn <| sn_gaps ::= λ gaps, gaps ≫= repaired_gap s |>).

(** The declared gap that ends just before a cursor. *)
Definition declared_gap (gaps : list StoredGap) (first : Cursor) : option StoredGap :=
  List.find (λ gap, gp_permanent gap && bool_decide (gp_source_node_id gap = source_node_id first)
                    && bool_decide (gp_source_epoch gap = source_epoch first) && bool_decide (gp_stream gap = stream first)
                    && bool_decide (checked_add u64_max (gp_last_sequence gap) 1 = Some (sequence first))) gaps.

(** ** One segment *)

Record RepositoryTombstoneAcknowledgement : Type := mkTombstoneAcknowledgement { ta_key : ReplicaRecordKey; ta_repository_id : string }.

(** [RepositorySyncReceipt]; a [RepositoryWatermark] is the cursor it is made from. *)
Record RepositorySyncReceipt : Type := mkReceipt {
  rs_acknowledgement : Cursor;
  rs_gap : option CursorGap;
  rs_unknown_schema_records : N;
  rs_history_write_availability : HistoryWriteAvailability;
  rs_tombstone_acknowledgements : list RepositoryTombstoneAcknowledgement
}.
Definition sync_receipt (acceptance : Acceptance) (availability : HistoryWriteAvailability) (acks : list RepositoryTombstoneAcknowledgement)
    : RepositorySyncReceipt :=
  match acceptance with
  | Accepted acknowledgement gap unknown => mkReceipt acknowledgement gap unknown availability acks
  | Duplicate acknowledgement => mkReceipt acknowledgement None 0 availability acks
  end.

Definition push_row (row : StoredRecord) : Call unit := on_snapshot (λ s, s <| sn_records ::= λ rows, rows ++ [row] |>).
Definition with_tombstones (f : TombstoneLedger → result TombstoneLedger ReplicaError) : Call unit :=
  let! ledger := gets (λ rt, f (rt_tombstones rt)) in
  let! ledger := answer ReplicaFailed ledger in
  modify (λ rt, rt <| rt_tombstones := ledger |>).

(** One record of [append_known_records], at its offset in the segment. *)
Definition append_record (s : CanonicalSegment) (now : N) (ready : list string) (local_repository_id : string) (offset : N) (x : SyncRecord)
    : Call (list RepositoryTombstoneAcknowledgement) :=
  if negb (is_known_schema x) then ret []
  else
    let first := first_cursor s in
    let! seq := answer (λ e, e) (ok_or (checked_add u64_max (sequence first) offset) StateLimitExceeded) in
    let! cursor := answer ReplicaFailed (cursor_new (source_node_id first) (source_epoch first) (stream first) seq) in
    let! replica_record := answer ReplicaFailed
      (record_new cursor (subject_node_id x) (observer_node_id x) (schema_id x) (schema_version x) (record_key x) (payload x)) in
    let key := rr_key replica_record in
    let stored := from_record (closed_at_unix_seconds s) now cursor x in
    if is_tombstone x then
      let! target_stream := answer (λ e, e)
        (ok_or (source_stream_for_schema (schema_id x)) (StorageFailed ("tombstone schema has no target stream: " +:+ schema_id x))) in
      let! target_cursor := answer ReplicaFailed (cursor_new (source_node_id first) (source_epoch first) target_stream seq) in
      let! target := answer ReplicaFailed
        (record_new target_cursor (subject_node_id x) (observer_node_id x) (schema_id x) (schema_version x) (record_key x) (payload x)) in
      delete_records_for_tombstone (rr_key target) ;!
      with_tombstones (λ l, tombstone l key now ready) ;!
      with_tombstones (λ l, acknowledge l key local_repository_id) ;!
      push_row stored ;!
      ret [mkTombstoneAcknowledgement key local_repository_id]
    else
      let! allowed := gets (λ rt, allows (rt_tombstones rt) key) in
      if negb allowed then fail (ProtocolFailed ResurrectionPrevented)
      else push_row stored ;! ret [].

Fixpoint append_records (s : CanonicalSegment) (now : N) (ready : list string) (local_repository_id : string) (offset : N) (l : list SyncRecord)
    : Call (list RepositoryTombstoneAcknowledgement) :=
  match l with
  | [] => ret []
  | x :: l =>
      let! acks := append_record s now ready local_repository_id offset x in
      let! rest := append_records s now ready local_repository_id (offset + 1) l in
      ret (acks ++ rest)
  end.
Definition append_known_records (s : CanonicalSegment) (now : N) (ready : list string) (local_repository_id : string)
    : Call (list RepositoryTombstoneAcknowledgement) := append_records s now ready local_repository_id 0 (records s).

Definition store_segment (identity : RepositoryNodeIdentity) (wire : string) : Call unit :=
  let! signed := answer ProtocolFailed (from_wire wire) in
  let stored := mkStoredSegment (hex_encode (sha256 wire)) (closed_at_unix_seconds (canonical signed)) identity wire in
  on_snapshot (λ s, if existsb (λ existing, bool_decide (sg_id existing = sg_id stored)) (sn_segments s) then s
                    else s <| sn_segments ::= λ l, l ++ [stored] |>).

Definition record_source_received (s : CanonicalSegment) (now : N) : Call unit :=
  let source := source_node_id (first_cursor s) in
  on_snapshot (λ sn,
    if negb (contains_key (sn_source_last_received_unix_seconds sn) source)
       && bool_decide (size (sn_source_last_received_unix_seconds sn) = 4096%nat)
    then sn <| sn_history_truncated := true |>
    else sn <| sn_source_last_received_unix_seconds ::= <[source := now]> |>).

(** The completed position of compaction, as the tuple it is compared by. *)
Definition compaction_position (c : RetentionCompactionCursor) : N * string * N * string * N :=
  (cc_observed_start_unix_seconds c, cc_source_node_id c, cc_source_epoch c, cc_stream c, cc_sequence c).
Definition reopen_retention_compaction_for_late_record (s : CanonicalSegment) : Call unit :=
  let first := first_cursor s in
  let incoming := (opened_at_unix_seconds s, source_node_id first, source_epoch first, stream first, sequence first) in
  on_snapshot (λ sn, match sn_retention_compaction_cursor sn with
                     | None => sn
                     | Some cursor =>
                         if bool_decide (upto incoming (compaction_position cursor))
                         then sn <| sn_retention_compaction_cursor := None |> <| sn_retention_compaction_continuation := None |>
                         else sn
                     end).

(** ** Writing the state out, and putting it back *)

Definition restore (previous_receiver : SegmentReceiverCheckpoint) (previous_snapshot : Snapshot) : Call unit :=
  let! cluster_id := gets (λ rt, sn_cluster_id (rt_snapshot rt)) in
  let! cluster_id := answer (λ e, e) (ok_or cluster_id ClusterBindingMismatch) in
  let! receiver := answer ProtocolFailed (receiver_from_checkpoint cluster_id known_schemas previous_receiver) in
  modify (λ rt, rt <| rt_receiver := Some receiver |> <| rt_snapshot := previous_snapshot |>) ;!
  let! ledger := answer ReplicaFailed (from_checkpoint (sn_tombstones previous_snapshot)) in
  modify (λ rt, rt <| rt_tombstones := ledger |>).

(** [persist_or_restore] and [persist_or_restore_with_mutation] *)
Definition persist_or_restore (previous_receiver : SegmentReceiverCheckpoint) (previous_snapshot : Snapshot) : Call unit :=
  let! receiver := the_receiver in
  let! receiver := answer ProtocolFailed (receiver_checkpoint receiver) in
  modify (λ rt, rt <| rt_snapshot ::= λ s, s <| sn_receiver := Some receiver |> <| sn_tombstones := checkpoint (rt_tombstones rt) |> |>) ;!
  let! bytes := gets (λ rt, snapshot_bytes (rt_snapshot rt)) in
  let! n := answer StorageFailed bytes in
  if bool_decide (MAX_RUNTIME_STATE_BYTES < n) then restore previous_receiver previous_snapshot ;! fail StateLimitExceeded
  else
    let! written := attempt write_snapshot in
    match written with
    | Ok _ => ret tt
    | Err e => restore previous_receiver previous_snapshot ;! fail e
    end.

(** [prune_retention], without SQLite. *)
Definition prune_retention (now : N) : Call unit :=
  let cutoff := sat_sub now (minute_retention_seconds retention_default) in
  on_snapshot (λ s, s <| sn_records := prune_records (sn_records s) (sn_gaps s) now (sn_cluster_id s) |>
                      <| sn_segments ::= List.filter (λ g, bool_decide (cutoff ≤ sg_closed_at_unix_seconds g)) |>).

(** ** Receiving *)

Definition advance_receiver (first : Cursor) : Call unit :=
  let! gap := gets (λ rt, declared_gap (sn_gaps (rt_snapshot rt)) first) in
  match gap with
  | None => ret tt
  | Some gap =>
      let! receiver := the_receiver in
      let '(receiver, advanced) := advance_declared_sequence_gap receiver first (gp_first_sequence gap) (gp_last_sequence gap) in
      modify (λ rt, rt <| rt_receiver := Some receiver |>) ;!
      answer ProtocolFailed advanced ;! ret tt
  end.

Definition accept_segment (segment : SignedSegment) (identity : RepositoryNodeIdentity) : Call (result Acceptance ProtocolError) := λ rt,
  match rt_receiver rt with
  | None => None
  | Some receiver =>
      match accept receiver segment identity with
      | None => None
      | Some (receiver, acceptance) => Some (rt <| rt_receiver := Some receiver |>, [], Ok acceptance)
      end
  end.

Definition records_gap (e : ProtocolError) : bool :=
  match e with SequenceGap _ _ | EpochGap _ _ | ForkDetected _ => true | _ => false end.

(** A segment the receiver turned down. *)
Definition refuse_segment (s : CanonicalSegment) (expired : bool) (previous_receiver : SegmentReceiverCheckpoint) (previous_snapshot : Snapshot)
    (e : ProtocolError) : Call RepositorySyncReceipt :=
  match e with
  | SequenceGap expected actual => record_sequence_gap s expected actual
  | _ => if records_gap e then record_gap s true else ret tt
  end ;!
  (if records_gap e || expired then persist_or_restore previous_receiver previous_snapshot else ret tt) ;!
  fail (ProtocolFailed e).

(** A segment the receiver took. *)
Definition take_segment (s : CanonicalSegment) (identity : RepositoryNodeIdentity) (wire : string) (now : N) (ready : list string)
    (local_repository_id : string) (availability : HistoryWriteAvailability) (previous_receiver : SegmentReceiverCheckpoint)
    (previous_snapshot : Snapshot) (acceptance : Acceptance) (gap : option CursorGap) : Call RepositorySyncReceipt :=
  match gap with Some gap => record_epoch_rotation_gap gap (opened_at_unix_seconds s) | None => ret tt end ;!
  let! acknowledgements := attempt (append_known_records s now ready local_repository_id) in
  match acknowledgements with
  | Err e => restore previous_receiver previous_snapshot ;! fail e
  | Ok acknowledgements =>
      let! stored := attempt (store_segment identity wire) in
      match stored with
      | Err e => restore previous_receiver previous_snapshot ;! fail e
      | Ok _ =>
          clear_repaired_gaps s ;!
          record_source_received s now ;!
          reopen_retention_compaction_for_late_record s ;!
          on_snapshot (λ sn, sn <| sn_last_verified_unix_seconds := Some now |>) ;!
          persist_or_restore previous_receiver previous_snapshot ;!
          prune_retention now ;!
          ret (sync_receipt acceptance availability acknowledgements)
      end
  end.

(** The part of [receive_wire_from_repository] that may be undone: from the checkpoint it takes. *)
Definition deliver (segment : SignedSegment) (identity : RepositoryNodeIdentity) (wire : string) (now : N) (ready : list string)
    (local_repository_id : string) (availability : HistoryWriteAvailability) : Call RepositorySyncReceipt :=
  let! receiver := the_receiver in
  let! previous_receiver := answer ProtocolFailed (receiver_checkpoint receiver) in
  let! previous_snapshot := gets rt_snapshot in
  with_tombstones (λ l, reconcile_ready_repositories l ready) ;!
  let! expired := expire_tombstones now in
  advance_receiver (first_cursor (canonical segment)) ;!
  let! acceptance := accept_segment segment identity in
  match acceptance with
  | Err e => refuse_segment (canonical segment) expired previous_receiver previous_snapshot e
  | Ok (Duplicate _ as acceptance) =>
      persist_or_restore previous_receiver previous_snapshot ;!
      ret (sync_receipt acceptance availability [])
  | Ok (Accepted _ gap _ as acceptance) =>
      take_segment (canonical segment) identity wire now ready local_repository_id availability previous_receiver previous_snapshot
        acceptance gap
  end.

Definition receive_wire_from_repository (cluster_id : string) (identity : RepositoryNodeIdentity) (wire : string) (now : N)
    (ready : list string) (local_repository_id : string) : Call RepositorySyncReceipt :=
  rebuild_if_stale now ;!
  refresh_capacity ;!
  let! availability := gets (λ rt, history_write_availability (sn_capacity (rt_snapshot rt))) in
  if negb (allows_history_writes availability) then fail (WriteStopped availability)
  else
    let! segment := answer ProtocolFailed (from_wire wire) in
    bind_cluster cluster_id ;!
    ensure_receiver ;!
    deliver segment identity wire now ready local_repository_id availability.

(** [RepositoryReplicaRuntime::load], of a snapshot on disk. *)
Definition load (snapshot : Snapshot) : result Runtime RepositoryRuntimeError :=
  let? receiver :=
    match sn_cluster_id snapshot, sn_receiver snapshot with
    | Some cluster_id, Some c =>
        let? receiver := map_err ProtocolFailed (receiver_from_checkpoint cluster_id known_schemas c) in Ok (Some receiver)
    | _, _ => Ok None
    end in
  let? ledger := map_err ReplicaFailed (from_checkpoint (sn_tombstones snapshot)) in
  Ok (mkRuntime snapshot receiver ledger).
End Runtime.

(** ** Reasoning about calls

    [wp m Q rt]: the call [m] does not panic in [rt] and ends with [Q] of its answer, the
    runtime and the snapshots written. *)

Definition wp {A} (m : Call A) (Q : result A RepositoryRuntimeError → Runtime → list Snapshot → Prop) (rt : Runtime) : Prop :=
  match m rt with
  | None => False
  | Some (rt', ws, r) => Q r rt' ws
  end.

Section Wp.
Context {A B : Type}.
Implicit Types (Q : result A RepositoryRuntimeError → Runtime → list Snapshot → Prop).

Lemma wp_mono (m : Call A) Q Q' rt : wp m Q rt → (∀ r rt' ws, Q r rt' ws → Q' r rt' ws) → wp m Q' rt.
Proof. unfold wp. destruct (m rt) as [[[rt' ws] r]|]; auto. Qed.
Lemma wp_bind (m : Call B) (k : B → Call A) Q rt :
  wp m (λ r rt' ws, match r with
                    | Ok a => wp (k a) (λ r' rt'' ws', Q r' rt'' (ws ++ ws')) rt'
                    | Err e => Q (Err e) rt' ws
                    end) rt → wp (bind m k) Q rt.
Proof.
  unfold wp, bind. destruct (m rt) as [[[rt' ws] [a|e]]|]; [|done..]. by destruct (k a rt') as [[[rt'' ws'] r']|].
Qed.
Lemma wp_ret a Q rt : Q (Ok a) rt [] → wp (ret a) Q rt.
Proof. done. Qed.
Lemma wp_fail e Q rt : Q (Err e) rt [] → wp (fail e) Q rt.
Proof. done. Qed.
Lemma wp_gets (f : Runtime → A) Q rt : Q (Ok (f rt)) rt [] → wp (gets f) Q rt.
Proof. done. Qed.
Lemma wp_answer {E} (f : E → RepositoryRuntimeError) (r : result A E) Q rt :
  (∀ a, r = Ok a → Q (Ok a) rt []) → (∀ e, r = Err e → Q (Err (f e)) rt []) → wp (answer f r) Q rt.
Proof. destruct r as [a|e]; intros H1 H2; [by apply H1|by apply H2]. Qed.
Lemma wp_attempt (m : Call A) (Q : result (result A RepositoryRuntimeError) RepositoryRuntimeError → Runtime → list Snapshot → Prop) rt :
  wp m (λ r rt' ws, Q (Ok r) rt' ws) rt → wp (attempt m) Q rt.
Proof. unfold wp, attempt. by destruct (m rt) as [[[rt' ws] r]|]. Qed.
End Wp.

Lemma wp_modify f Q rt : Q (Ok tt) (f rt) [] → wp (modify f) Q rt.
Proof. done. Qed.
Lemma wp_snapshot f Q rt : Q (Ok tt) (rt <| rt_snapshot ::= f |>) [] → wp (on_snapshot f) Q rt.
Proof. done. Qed.
Lemma wp_the_receiver r Q rt : rt_receiver rt = Some r → Q (Ok r) rt [] → wp the_receiver Q rt.
Proof. unfold wp, the_receiver. by intros ->. Qed.

(** A loop, with an invariant. *)
Lemma wp_each {A} (f : A → Call unit) (P : Runtime → Prop) l rt :
  P rt → (∀ x rt, x ∈ l → P rt → wp (f x) (λ _ rt' ws, P rt' ∧ ws = []) rt) → wp (each f l) (λ _ rt' ws, P rt' ∧ ws = []) rt.
Proof.
  revert rt. induction l as [|x l IH]; intros rt HP Hf; cbn [each]; [by apply wp_ret|]. apply wp_bind.
  eapply wp_mono; [apply Hf; [left|done]|]. intros [[]|e] rt' ws [HP' ->]; [|done]. cbn [app].
  apply IH; [done|]. intros y rt'' Hy. apply Hf. by right.
Qed.

(** ** What a runtime in service satisfies *)

Section Service.
Context `{SyncCrypto, AggregateCodec, SnapshotSize}.
Implicit Types (rt : Runtime) (row : StoredRecord) (rows : list StoredRecord) (l : TombstoneLedger) (r : SegmentReceiver) (s : CanonicalSegment).

Definition row_key row : ReplicaRecordKey :=
  mkRecordKey (sr_source_node_id row) (sr_source_epoch row) (sr_stream row) (sr_sequence row) (sr_subject_node_id row)
    (sr_observer_node_id row) (sr_schema_id row) (sr_schema_version row) (sr_record_key row).

(** A row that is there to be read, as it was received. *)
Definition live row : bool := negb (sr_tombstone row) && bool_decide (aggregate_payload row = None).

(** A row in the stream its schema is sent on. *)
Definition homed row : Prop := ∀ st, source_stream_for_schema (sr_schema_id row) = Some st → sr_stream row = st.

(** No row is there that the ledger of deletions forbids. *)
Definition protected l rows : Prop := ∀ row, row ∈ rows → live row = true → homed row ∧ allows l (row_key row) = true.

Definition ledger_fits l : Prop := N.of_nat (size (tombstones l)) ≤ MAX_TOMBSTONES.

Record sound_receiver (cluster : string) r : Prop := {
  sv_cluster : rv_expected_cluster_id r = cluster;
  sv_schemas : rv_schemas r = known_schemas;
  sv_restorable : restorable r;
  sv_wire g : g ∈ rv_forwardable_unknown_segments r → is_ok (wire_bytes g) = true;
  sv_quarantine key n : rv_quarantined_streams r !! key = Some n → is_Some (rv_streams r !! key)
}.

(** What the next failed call would go back to. *)
Definition saved (sn : Snapshot) : Prop := ∃ l, from_checkpoint (sn_tombstones sn) = Ok l ∧ ledger_fits l ∧ protected l (sn_records sn).

Record healthy rt : Prop := {
  hl_receiver r : rt_receiver rt = Some r → ∃ c, sn_cluster_id (rt_snapshot rt) = Some c ∧ sound_receiver c r;
  hl_rows : protected (rt_tombstones rt) (sn_records (rt_snapshot rt));
  hl_ledger : ledger_fits (rt_tombstones rt);
  hl_saved : saved (rt_snapshot rt)
}.

(** *** Ledgers *)

Lemma allows_keys l l' key : (∀ k, is_Some (tombstones l' !! k) → is_Some (tombstones l !! k)) → allows l key = true → allows l' key = true.
Proof.
  intros Hk. unfold allows. rewrite !negb_true_iff. intros Hno%not_true_iff_false. apply not_true_iff_false. intros He. apply Hno.
  apply existsb_exists in He as (k & Hin & Hc). apply existsb_exists. exists k. split; [|done].
  by apply list_elem_of_In, tombstone_keys_in, Hk, tombstone_keys_in, list_elem_of_In.
Qed.

Lemma protected_keys l l' rows : (∀ k, is_Some (tombstones l' !! k) → is_Some (tombstones l !! k)) → protected l rows → protected l' rows.
Proof. intros Hk Hp row Hin Hl. destruct (Hp row Hin Hl). split; [done|]. by eapply allows_keys. Qed.

Lemma protected_rows l rows rows' : (∀ row, row ∈ rows' → live row = true → row ∈ rows) → protected l rows → protected l rows'.
Proof. intros Hs Hp row Hin Hl. apply Hp; auto. Qed.

Lemma reconcile_keys l ready l' : reconcile_ready_repositories l ready = Ok l' →
  (∀ k, is_Some (tombstones l' !! k) ↔ is_Some (tombstones l !! k)) ∧ size (tombstones l') = size (tombstones l).
Proof.
  unfold reconcile_ready_repositories. intros Hr. destruct_ok. cbn. split; [|apply map_size_fmap].
  intros k. by rewrite lookup_fmap, fmap_is_Some.
Qed.

Lemma expire_keys l now k : is_Some (tombstones (expire l now).1 !! k) → is_Some (tombstones l !! k).
Proof. rewrite expire_lookup. destruct (tombstones l !! k); [by eauto|by intros []]. Qed.

Lemma foldl_delete_size (ks : list ReplicaRecordKey) (m : gmap ReplicaRecordKey TombstoneState) :
  (size (foldl (λ m k, delete k m) m ks) ≤ size m)%nat.
Proof. revert m. induction ks as [|k ks IH]; intros m; cbn [foldl]; [done|]. etrans; [apply IH|]. apply map_subseteq_size, delete_subseteq. Qed.

Lemma expire_fits l now : ledger_fits l → ledger_fits (expire l now).1.
Proof. unfold ledger_fits, expire. cbn. pose proof (foldl_delete_size (keys_where (λ state, bool_decide (expires_at state ≤ now) && all_acknowledged state) l) (tombstones l)). lia. Qed.

Lemma tombstone_keys_after l key now ready l' : tombstone l key now ready = Ok l' → ledger_fits l →
  (∀ k, is_Some (tombstones l' !! k) → k = key ∨ is_Some (tombstones l !! k)) ∧ ledger_fits l'.
Proof.
  unfold tombstone, ledger_fits. intros Ht Hf. destruct_ok. destruct (tombstones l !! key) as [state|] eqn:Hk; injection Ht as <-; cbn.
  - split; [|by rewrite map_size_insert_Some].
    intros k. destruct (decide (k = key)) as [-> |?]; [by left|]. rewrite lookup_insert_ne by done. by right.
  - split.
    + intros k. destruct (decide (k = key)) as [-> |?]; [by left|]. rewrite lookup_insert_ne by done. by right.
    + match goal with Hb : _ && _ = false |- _ => rewrite (bool_decide_true (None = None)) in Hb by done; cbn in Hb; apply bool_decide_eq_false in Hb end.
      rewrite map_size_insert_None by done. unfold MAX_TOMBSTONES in *. lia.
Qed.

Lemma acknowledge_keys l key repository l' : acknowledge l key repository = Ok l' → ledger_fits l →
  (∀ k, is_Some (tombstones l' !! k) → is_Some (tombstones l !! k)) ∧ ledger_fits l'.
Proof.
  unfold acknowledge, ledger_fits. intros Ha Hf. destruct_ok. destruct (tombstones l !! key) as [state|] eqn:Hk; [|done]. injection Ha as <-.
  destruct (bool_decide _); [|done]. cbn. split.
  - intros k. destruct (decide (k = key)) as [-> |?]; [by rewrite Hk|]. by rewrite lookup_insert_ne.
  - by rewrite map_size_insert_Some.
Qed.

(** *** Deleting what a deletion covers *)

Lemma prefix_refl (t : string) : String.prefix t t = true.
Proof. induction t as [|c t IH]; cbn; [done|]. by destruct (ascii_dec c c). Qed.

(** The rows a deletion leaves behind are not covered by it. *)
Lemma delete_uncovers row key target_stream :
  homed row → sr_tombstone row = false → source_stream_for_schema (rk_schema_id key) = Some target_stream →
  let target := mkRecordKey (rk_source_node_id key) (rk_source_epoch key) target_stream (rk_sequence key) (rk_subject_node_id key)
    (rk_observer_node_id key) (rk_schema_id key) (rk_schema_version key) (rk_record_key key) in
  sr_tombstone row || negb (matches_tombstone_key row target (ends_with ":" (rk_record_key target))) = true →
  covers key (row_key row) = false.
Proof.
  intros Hh Ht Hs target. rewrite Ht. cbn [orb]. intros Hm%negb_true_iff. apply not_true_iff_false in Hm. apply not_true_iff_false.
  intros Hc. apply Hm. clear Hm. unfold covers in Hc. cbn in Hc. rewrite !andb_true_iff, !bool_decide_eq_true in Hc.
  destruct Hc as ((((((E1 & E2) & E3) & E4) & E5) & E6) & E7). unfold matches_tombstone_key. subst target. cbn.
  assert (sr_stream row = target_stream) as Hst by (apply Hh; by rewrite <-E5). rewrite !(bool_decide_true _) by done.
  rewrite orb_true_r. cbn [andb]. destruct (ends_with ":" (rk_record_key key)) eqn:He.
  - apply orb_true_iff in E7 as [E7%bool_decide_eq_true|E7]; [rewrite <-E7; apply prefix_refl|done].
  - cbn [andb] in E7. rewrite orb_false_r in E7. apply bool_decide_eq_true in E7. by apply bool_decide_eq_true.
Qed.

(** *** Inside a call *)

(** The runtime between the checkpoint a call takes and the one it writes. *)
Record working (c : string) rt : Prop := {
  wk_cluster : sn_cluster_id (rt_snapshot rt) = Some c;
  wk_receiver : ∃ r, rt_receiver rt = Some r ∧ sound_receiver c r;
  wk_rows : protected (rt_tombstones rt) (sn_records (rt_snapshot rt));
  wk_ledger : ledger_fits (rt_tombstones rt)
}.

Lemma working_snapshot c rt (f : Snapshot → Snapshot) :
  working c rt → sn_cluster_id (f (rt_snapshot rt)) = sn_cluster_id (rt_snapshot rt) →
  (∀ row, row ∈ sn_records (f (rt_snapshot rt)) → live row = true → row ∈ sn_records (rt_snapshot rt)) →
  working c (rt <| rt_snapshot ::= f |>).
Proof. intros [Hc Hr Hp Hl] Hf Hrows. split; cbn; [by rewrite Hf|done|by eapply protected_rows|done]. Qed.

(** A call that keeps the runtime working and writes nothing. *)
Definition keeps {A} (c : string) (m : Call A) : Prop := ∀ rt, working c rt → wp m (λ _ rt' ws, working c rt' ∧ ws = []) rt.

Lemma keeps_ret {A} c (a : A) : keeps c (ret a).
Proof. done. Qed.
Lemma keeps_fail {A} c e : keeps c (@fail A e).
Proof. done. Qed.
Lemma keeps_gets {A} c (f : Runtime → A) : keeps c (gets f).
Proof. done. Qed.
Lemma keeps_answer {A E} c (f : E → RepositoryRuntimeError) (x : result A E) : keeps c (answer f x).
Proof. by destruct x. Qed.
Lemma keeps_bind {A B} c (m : Call A) (k : A → Call B) : keeps c m → (∀ a, keeps c (k a)) → keeps c (bind m k).
Proof.
  intros Hm Hk rt Hw. apply wp_bind. eapply wp_mono; [by apply Hm|]. intros [a|e] rt' ws [Hw' ->]; [|done]. by apply Hk.
Qed.
Lemma keeps_snapshot c (f : Snapshot → Snapshot) :
  (∀ sn, sn_cluster_id (f sn) = sn_cluster_id sn) → (∀ sn row, row ∈ sn_records (f sn) → live row = true → row ∈ sn_records sn) →
  keeps c (on_snapshot f).
Proof. intros Hc Hr rt Hw. apply wp_snapshot. split; [|done]. apply working_snapshot; auto. Qed.

Lemma keeps_push_gap c gap : keeps c (push_gap gap).
Proof. apply keeps_snapshot; intros sn; by case_bool_decide. Qed.
Lemma keeps_record_gap c s permanent : keeps c (record_gap s permanent).
Proof. apply keeps_push_gap. Qed.
Lemma keeps_sequence_gap c s expected actual : keeps c (record_sequence_gap s expected actual).
Proof. unfold record_sequence_gap. case_bool_decide; [by apply keeps_snapshot|apply keeps_push_gap]. Qed.
Lemma keeps_clear c s : keeps c (clear_repaired_gaps s).
Proof. by apply keeps_snapshot. Qed.
Lemma keeps_source_received c s now : keeps c (record_source_received s now).
Proof. apply keeps_snapshot; intros sn; by destruct (_ && _). Qed.
Lemma keeps_reopen c s : keeps c (reopen_retention_compaction_for_late_record s).
Proof. apply keeps_snapshot; intros sn; destruct (sn_retention_compaction_cursor sn); [by case_bool_decide|done|by case_bool_decide|done]. Qed.
Lemma keeps_store c identity wire : keeps c (store_segment identity wire).
Proof. apply keeps_bind; [apply keeps_answer|]. intros g. apply keeps_snapshot; intros sn; by destruct (existsb _ _). Qed.

(** A ledger whose deletions the rows already respect. *)
Lemma keeps_tombstones c (f : TombstoneLedger → result TombstoneLedger ReplicaError) :
  (∀ l l', f l = Ok l' → ledger_fits l → (∀ k, is_Some (tombstones l' !! k) → is_Some (tombstones l !! k)) ∧ ledger_fits l') →
  keeps c (with_tombstones f).
Proof.
  intros Hf rt [Hc Hr Hp Hl]. unfold with_tombstones. apply wp_bind, wp_gets, wp_bind, wp_answer; [|done].
  intros l' Hl'. cbn [app]. apply wp_modify. destruct (Hf _ _ Hl' Hl) as [Hk Hl'']. split; [|done].
  split; cbn; [done|done|by eapply protected_keys|done].
Qed.

Lemma keeps_acknowledge c key repository : keeps c (with_tombstones (λ l, acknowledge l key repository)).
Proof. apply keeps_tombstones. intros l l'. apply acknowledge_keys. Qed.
Lemma keeps_reconcile c ready : keeps c (with_tombstones (λ l, reconcile_ready_repositories l ready)).
Proof.
  apply keeps_tombstones. intros l l' Hr Hl. destruct (reconcile_keys _ _ _ Hr) as [Hk Hs]. split; [intros k; apply Hk|].
  unfold ledger_fits. by rewrite Hs.
Qed.

(** A row that may be there. *)
Lemma push_row_keeps c rt row : working c rt → (live row = true → homed row ∧ allows (rt_tombstones rt) (row_key row) = true) →
  wp (push_row row) (λ res rt' ws, res = Ok tt ∧ working c rt' ∧ ws = [] ∧ rt_tombstones rt' = rt_tombstones rt) rt.
Proof.
  intros [Hc Hr Hp Hl] Hrow. apply wp_snapshot. split_and!; [done| |done|done]. split; cbn; [done|done| |done].
  intros row' [?|Hin]%elem_of_app; [by apply Hp|]. apply list_elem_of_singleton in Hin as ->. done.
Qed.

(** *** One record *)

(** A live record of a known schema comes on the stream of its schema. *)
Definition homed_record (first : Cursor) (x : SyncRecord) : Prop :=
  is_known_schema x = true → is_tombstone x = false → ∀ st, source_stream_for_schema (schema_id x) = Some st → stream first = st.

Lemma cursor_new_fields a b c d cursor : cursor_new a b c d = Ok cursor → cursor = AntiEntropy.mkCursor a b c d.
Proof. unfold cursor_new. intros Hc. by destruct_ok. Qed.
Lemma record_new_fields cursor a b c d e f x : record_new cursor a b c d e f = Ok x →
  rr_key x = mkRecordKey (rc_source_node_id cursor) (rc_source_epoch cursor) (rc_stream cursor) (rc_sequence cursor) a b c d e.
Proof. unfold record_new. intros Hx. by destruct_ok. Qed.

Lemma delete_and_forbid c rt key target_stream now ready :
  working c rt → source_stream_for_schema (rk_schema_id key) = Some target_stream →
  let target := mkRecordKey (rk_source_node_id key) (rk_source_epoch key) target_stream (rk_sequence key) (rk_subject_node_id key)
    (rk_observer_node_id key) (rk_schema_id key) (rk_schema_version key) (rk_record_key key) in
  wp (delete_records_for_tombstone target ;! with_tombstones (λ l, tombstone l key now ready)) (λ _ rt' ws, working c rt' ∧ ws = []) rt.
Proof.
  intros [Hc Hr Hp Hl] Hs target. unfold delete_records_for_tombstone. apply wp_bind, wp_snapshot. cbn [app].
  set (keep := λ row, sr_tombstone row || negb (matches_tombstone_key row target (ends_with ":" (rk_record_key target)))).
  assert (∀ row, row ∈ List.filter keep (sn_records (rt_snapshot rt)) → row ∈ sn_records (rt_snapshot rt) ∧ keep row = true) as Hin.
  { intros row. by rewrite !list_elem_of_In, List.filter_In. }
  unfold with_tombstones. apply wp_bind, wp_gets. cbn [app]. apply wp_bind, wp_answer; cbn [app].
  - intros l' Hl'. apply wp_modify. destruct (tombstone_keys_after _ _ _ _ _ Hl' Hl) as [Hk Hfit]. split; [|done].
    split; cbn; [done|done| |done]. intros row [Hrow Hkeep]%Hin Hlive. destruct (Hp row Hrow Hlive) as [Hh Ha]. split; [done|].
    unfold live in Hlive. apply andb_true_iff in Hlive as [Ht%negb_true_iff _].
    pose proof (delete_uncovers row key target_stream Hh Ht Hs Hkeep) as Hunc.
    unfold allows in *. apply negb_true_iff, not_true_iff_false. intros He. apply existsb_exists in He as (k & Hk1 & Hk2).
    apply list_elem_of_In, tombstone_keys_in in Hk1. apply Hk in Hk1 as [-> |Hk1]; [by rewrite Hunc in Hk2|].
    apply negb_true_iff, not_true_iff_false in Ha. apply Ha, existsb_exists. exists k. split; [|done]. by apply list_elem_of_In, tombstone_keys_in.
  - intros e _. split; [|done]. split; cbn; [done|done| |done]. eapply protected_rows; [|exact Hp]. by intros row [? _]%Hin.
Qed.

Lemma keeps_answer_bind {A B E} c (f : E → RepositoryRuntimeError) (x : result A E) (k : A → Call B) rt :
  working c rt → (∀ a, x = Ok a → wp (k a) (λ _ rt' ws, working c rt' ∧ ws = []) rt) →
  wp (bind (answer f x) k) (λ _ rt' ws, working c rt' ∧ ws = []) rt.
Proof. intros Hw Hk. apply wp_bind, wp_answer; [|done]. intros a Ha. cbn [app]. by apply Hk. Qed.

Lemma append_record_keeps c s now ready local_id offset x :
  homed_record (first_cursor s) x → keeps c (append_record s now ready local_id offset x).
Proof.
  intros Hh rt Hw. unfold append_record. destruct (is_known_schema x) eqn:Hx; [|by apply keeps_ret]. cbn [negb].
  apply keeps_answer_bind; [done|]. intros seq _. apply keeps_answer_bind; [done|]. intros cursor Hcur%cursor_new_fields.
  apply keeps_answer_bind; [done|]. intros rec Hrec%record_new_fields. destruct (is_tombstone x) eqn:Ht.
  - apply keeps_answer_bind; [done|]. intros target_stream Hs%ok_or_ok_inv. apply keeps_answer_bind; [done|]. intros tcur Htc%cursor_new_fields.
    apply keeps_answer_bind; [done|]. intros trec Htr%record_new_fields.
    assert (∀ (m1 m2 : Call unit) (k : Call (list RepositoryTombstoneAcknowledgement)),
      wp (m1 ;! m2) (λ _ rt' ws, working c rt' ∧ ws = []) rt → keeps c k → wp (m1 ;! m2 ;! k) (λ _ rt' ws, working c rt' ∧ ws = []) rt) as Hseq.
    { clear. intros m1 m2 k Hm Hk. unfold wp, bind in Hm |- *. destruct (m1 rt) as [[[rt1 ws1] [[]|e]]|]; [|done..].
      destruct (m2 rt1) as [[[rt2 ws2] [[]|e]]|]; [|done..]. destruct Hm as [Hw Hws]. apply app_eq_nil in Hws as [-> ->].
      specialize (Hk rt2 Hw). unfold wp in Hk. by destruct (k rt2) as [[[rt3 ws3] r3]|]. }
    apply Hseq.
    + rewrite Htr, Htc. cbn [rc_source_node_id rc_source_epoch rc_stream rc_sequence].
      pose proof (delete_and_forbid c rt (rr_key rec) target_stream now ready Hw) as Hd. rewrite Hrec, Hcur in Hd |- *. by apply Hd.
    + apply keeps_bind; [apply keeps_acknowledge|]. intros _. apply keeps_bind; [|intros _; apply keeps_ret].
      intros rt' Hw'. eapply wp_mono; [apply (push_row_keeps c); [done|]|by intros ? ? ? (_ & ? & -> & _)].
      unfold live, from_record. cbn. by rewrite Ht.
  - apply wp_bind, wp_gets. cbn [app]. destruct (allows (rt_tombstones rt) (rr_key rec)) eqn:Ha; [|by apply wp_fail]. cbn [negb].
    apply wp_bind. eapply wp_mono; [apply (push_row_keeps c); [done|]|].
    + intros _. split.
      * intros st Hst. rewrite Hcur. cbn. by apply Hh.
      * rewrite Hrec, Hcur in Ha. unfold row_key, from_record. by rewrite Hcur.
    + intros ? rt' ws (-> & Hw' & -> & _). by apply wp_ret.
Qed.

Lemma append_records_keeps c s now ready local_id offset xs :
  Forall (homed_record (first_cursor s)) xs → keeps c (append_records s now ready local_id offset xs).
Proof.
  intros Hl. revert offset. induction Hl as [|x xs Hx _ IH]; intros offset; cbn [append_records]; [apply keeps_ret|].
  apply keeps_bind; [by apply append_record_keeps|]. intros acks. apply keeps_bind; [apply IH|]. intros rest. apply keeps_ret.
Qed.

(** *** The receiver *)

Lemma sound_receiver_new c : sound_receiver c (for_cluster c known_schemas).
Proof. split; [done|done|apply restorable_new| |done]. by intros g ?%not_elem_of_nil. Qed.

Lemma sound_receiver_accept c r g identity : sound_receiver c r → typed g → is_ok (wire_bytes g) = true →
  ∃ r' answer, accept r g identity = Some (r', answer) ∧ sound_receiver c r'.
Proof.
  intros [Hc Hs Hr Hw Hq] Ht Hg.
  assert (is_Some (accept r g identity)) as [[r' answer] Ha].
  { unfold accept. destruct (verify_identity g identity); [|done]. destruct (bool_decide _); [done|].
    destruct (rv_quarantined_streams r !! _) as [n|] eqn:Hn; [|by destruct (segment_hash g)].
    destruct (Hq _ _ Hn) as [p ->]. destruct (bool_decide (source_epoch _ = _)); [done|]. by destruct (segment_hash g). }
  exists r', answer. split; [done|].
  assert (∃ log gaps, receiver_step r (Deliver g identity) = Some (r', log, gaps)) as (log & gaps & Hstep) by (cbn; rewrite Ha; by eauto).
  destruct (restorable_step _ _ _ _ _ Hstep Ht Hr) as (Hr' & Hc' & Hs').
  split; [congruence|congruence|done| |].
  - intros g' Hg'. apply accept_inv in Ha as [(? & ? & ? & hash & rot & -> & _ & _ & _ & Htk)|[_ [-> |(p & n & _ & _ & ->)]]]; [|by apply Hw..].
    apply take_records_inv in Htk as (_ & _ & _ & _ & [Hu|Hu]); rewrite Hu in Hg'; [by apply Hw|].
    apply elem_of_app in Hg' as [?| ->%list_elem_of_singleton]; [by apply Hw|done].
  - intros key n Hn. apply accept_inv in Ha as [(? & ? & ? & hash & rot & -> & _ & _ & _ & Htk)|[_ [-> |(p & m & Hp & _ & ->)]]]; [| by eapply Hq|].
    + pose proof Htk as Htk'. apply take_records_inv in Htk as ((p & Hst & _) & _). rewrite Hst.
      destruct (decide (key = seg_key g)) as [-> |Hne]; [rewrite lookup_insert_eq; eauto|]. rewrite lookup_insert_ne by done.
      apply (Hq key n). unfold take_records in Htk'. destruct (_ && _); [done|]. destruct (existsb _ _); [done|].
      injection Htk' as <- _ _. cbn in Hn. destruct rot; [|done]. by apply lookup_delete_Some in Hn as [_ ?].
    + cbn in Hn |- *. apply lookup_insert_Some in Hn as [[<- _]|[_ Hn]]; [by eauto|by eapply Hq].
Qed.

Lemma from_wire_inv wire g : from_wire wire = Ok g → typed g ∧ wire_bytes g = Ok wire.
Proof.
  unfold from_wire. case_bool_decide; [done|]. destruct (ok_or _ _) as [q|]; [|done]. cbn [rbind].
  destruct (from_proto q) as [g'|] eqn:Hg; [|done]. cbn [rbind]. destruct (wire_bytes g') as [w|] eqn:Hw; [|done]. cbn [rbind].
  case_bool_decide as Heq; [done|]. intros [= ->]. split; [|by rewrite Hw, Heq].
  unfold from_proto, to_array in Hg. destruct_ok. repeat match goal with Hc : cursor_from_proto _ = Ok _ |- _ => apply cursor_new_ok in Hc as [_ ?] end.
  repeat match goal with Hb : bool_decide _ = true |- _ => apply bool_decide_eq_true in Hb end. split; cbn; try done.
  intros h Hh. match goal with Hp : (if bool_decide (pr_previous_segment_hash q = _) then _ else _) = _ |- _ => rewrite Hh in Hp; destruct (bool_decide _) in Hp; [done|] end.
  destruct_ok. by match goal with Hb : bool_decide (String.length (pr_previous_segment_hash q) = _) = true |- _ => apply bool_decide_eq_true in Hb end.
Qed.

Lemma keeps_receiver c rt r' : working c rt → sound_receiver c r' → working c (rt <| rt_receiver := Some r' |>).
Proof. intros [Hc _ Hp Hl] Hr. split; cbn; eauto. Qed.

Lemma keeps_advance c first : cursor_ok first → keeps c (advance_receiver first).
Proof.
  intros Hf rt Hw. unfold advance_receiver. apply wp_bind, wp_gets. cbn [app]. destruct (declared_gap _ _) as [gap|]; [|by apply wp_ret].
  pose proof (wk_receiver _ _ Hw) as (r & Hr & Hsr). apply wp_bind, (wp_the_receiver r); [done|]. cbn [app].
  destruct (advance_declared_sequence_gap r first _ _) as [r' answer'] eqn:Ha. apply wp_bind, wp_modify. cbn [app].
  assert (sound_receiver c r') as Hsr'.
  { destruct Hsr as [Hc Hs Hrs Hwi Hq].
    assert (∃ log gaps, receiver_step r (DeclareGap first (gp_first_sequence gap) (gp_last_sequence gap)) = Some (r', log, gaps))
      as (log & gaps & Hstep) by (cbn; rewrite Ha; by eauto).
    destruct (restorable_step _ _ _ _ _ Hstep Hf Hrs) as (Hr' & Hc' & Hs').
    assert (rv_forwardable_unknown_segments r' = rv_forwardable_unknown_segments r ∧
      rv_quarantined_streams r' = rv_quarantined_streams r ∧ ∀ key, is_Some (rv_streams r !! key) → is_Some (rv_streams r' !! key)) as (E1 & E2 & E3).
    { unfold advance_declared_sequence_gap in Ha. destruct (rv_streams r !! stream_key first) as [p|]; [|by injection Ha as <- _].
      destruct (checked_add _ _ _); [|by injection Ha as <- _]. destruct (_ || _ || _); injection Ha as <- _; [done|]. split_and!; [done|done|].
      intros key. cbn. destruct (decide (key = stream_key first)) as [-> |?]; [by rewrite lookup_insert_eq|by rewrite lookup_insert_ne]. }
    split; [congruence|congruence|done|by rewrite E1|]. intros key n. rewrite E2. intros Hn. apply E3. by eapply Hq. }
  apply wp_bind. apply wp_answer; intros; cbn [app]; [apply wp_ret|]; (split; [by apply keeps_receiver|done]).
Qed.

Lemma keeps_expire c now : keeps c (expire_tombstones now).
Proof.
  intros rt [Hc Hr Hp Hl]. unfold expire_tombstones. apply wp_bind, wp_gets. cbn [app]. apply wp_bind, wp_modify. cbn [app]. apply wp_bind.
  eapply wp_mono; [apply (wp_each _ (working c))|].
  - split; cbn; [done|done| |by apply expire_fits]. eapply protected_keys; [|exact Hp]. apply expire_keys.
  - clear Hc Hr Hp Hl. intros key rt1 _ Hw. apply wp_bind, wp_answer; [|done]. intros cursor _. cbn [app]. apply wp_modify. split; [|done].
    destruct Hw as [Hc (r & Hr & Hsr) Hp Hl]. split; cbn; [done| | |done].
    + rewrite Hr. cbn. eexists. split; [done|]. destruct Hsr as [E1 E2 [R1 R2 R3] E4 E5]. by split.
    + eapply protected_rows; [|exact Hp]. intros row. rewrite !list_elem_of_In, List.filter_In. by intros [? _].
  - intros [[]|e] rt' ws [Hw ->]; [|done]. by apply wp_ret.
Qed.

Lemma keeps_accept c g identity : typed g → is_ok (wire_bytes g) = true → keeps c (accept_segment g identity).
Proof.
  intros Ht Hg rt Hw. pose proof (wk_receiver _ _ Hw) as (r & Hr & Hsr).
  destruct (sound_receiver_accept c r g identity Hsr Ht Hg) as (r' & answer' & Ha & Hsr').
  unfold wp, accept_segment. rewrite Hr, Ha. split; [by apply keeps_receiver|done].
Qed.

(** *** Putting the state back *)

Record checkpointed (c : string) (pr : SegmentReceiverCheckpoint) (ps : Snapshot) : Prop := {
  cp_receiver : ∃ r, receiver_from_checkpoint c known_schemas pr = Ok r ∧ sound_receiver c r;
  cp_cluster : sn_cluster_id ps = Some c;
  cp_saved : saved ps
}.

Lemma restore_spec c pr ps rt : checkpointed c pr ps → sn_cluster_id (rt_snapshot rt) = Some c →
  wp (restore pr ps) (λ res rt' ws, res = Ok tt ∧ ws = [] ∧ rt_snapshot rt' = ps ∧ healthy rt') rt.
Proof.
  intros [(r & Hr & Hsr) Hc (l & Hl & Hfit & Hp)] Hcl. unfold restore. apply wp_bind, wp_gets. cbn [app]. rewrite Hcl. cbn [ok_or].
  apply wp_bind, wp_ret. cbn [app]. rewrite Hr. apply wp_bind, wp_ret. cbn [app]. apply wp_bind, wp_modify. cbn [app].
  rewrite Hl. apply wp_bind, wp_ret. cbn [app]. apply wp_modify. split_and!; [done|done|done|].
  split; cbn; [intros ? [= <-]; by eauto|done|done|by exists l].
Qed.

Lemma restore_fail {A} c pr ps rt e (Q : result A RepositoryRuntimeError → Runtime → list Snapshot → Prop) :
  checkpointed c pr ps → sn_cluster_id (rt_snapshot rt) = Some c →
  (∀ rt', rt_snapshot rt' = ps → healthy rt' → Q (Err e) rt' []) → wp (restore pr ps ;! fail e) Q rt.
Proof.
  intros Hc Hcl HQ. apply wp_bind. eapply wp_mono; [by apply (restore_spec c)|]. intros res rt' ws (-> & -> & Hs & Hh). cbn [app].
  apply wp_fail. by apply HQ.
Qed.

Lemma healthy_saved c rt : working c rt → sn_tombstones (rt_snapshot rt) = checkpoint (rt_tombstones rt) → healthy rt.
Proof.
  intros [Hc (r & Hr & Hsr) Hp Hl] Ht. split; [|done|done|].
  - intros r'. rewrite Hr. intros [= <-]. eauto.
  - exists (rt_tombstones rt). rewrite Ht. by rewrite checkpoint_roundtrip.
Qed.

(** Serializing a snapshot does not fail: its maps have string keys. *)
Context (serializes : ∀ sn, is_ok (snapshot_bytes sn) = true).

(** The snapshot that is on disk after a call, and the runtime a restart makes of it. *)
Definition reloads (rt : Runtime) (sn : Snapshot) : Prop :=
  sn = rt_snapshot rt ∧ ((∀ r, rt_receiver rt = Some r → fits_checkpoint r) → load sn = Ok rt).

Lemma receiver_checkpoint_ok r : (∀ g, g ∈ rv_forwardable_unknown_segments r → is_ok (wire_bytes g) = true) → is_ok (receiver_checkpoint r) = true.
Proof.
  intros Hw. unfold receiver_checkpoint. assert (is_ok (try_map wire_bytes (rv_forwardable_unknown_segments r)) = true) as Hm.
  { induction (rv_forwardable_unknown_segments r) as [|g gs IH]; [done|]. cbn.
    pose proof (Hw g ltac:(left)) as Hg. destruct (wire_bytes g); [|done]. cbn. destruct (try_map _ _); [done|].
    apply IH. intros g' ?. apply Hw. by right. }
  by destruct (try_map _ _).
Qed.

Lemma persist_spec outside c pr ps rt : checkpointed c pr ps → working c rt →
  wp (persist_or_restore outside pr ps) (λ res rt' ws, healthy rt' ∧
    match res with
    | Ok _ => working c rt' ∧ sn_records (rt_snapshot rt') = sn_records (rt_snapshot rt) ∧ ∃ sn, ws = [sn] ∧ reloads rt' sn
    | Err _ => rt_snapshot rt' = ps ∧ ws = []
    end) rt.
Proof.
  intros Hcp Hw. pose proof (wk_cluster _ _ Hw) as Hcl. pose proof (wk_receiver _ _ Hw) as (r & Hr & Hsr). unfold persist_or_restore.
  apply wp_bind, (wp_the_receiver r); [done|]. cbn [app]. pose proof (receiver_checkpoint_ok r (sv_wire _ _ Hsr)) as Hok.
  destruct (receiver_checkpoint r) as [rc|] eqn:Hrc; [|done]. apply wp_bind, wp_ret. cbn [app]. apply wp_bind, wp_modify. cbn [app].
  set (rt1 := rt <| rt_snapshot ::= _ |>). assert (working c rt1) as Hw1 by (by apply working_snapshot).
  apply wp_bind, wp_gets. cbn [app]. pose proof (serializes (rt_snapshot rt1)) as Hser. destruct (snapshot_bytes (rt_snapshot rt1)) as [n|]; [|done].
  apply wp_bind, wp_ret. cbn [app]. case_bool_decide.
  - apply (restore_fail c); [done|done|]. by intros rt' Hs Hh.
  - apply wp_bind, wp_attempt. unfold wp at 1, write_snapshot. destruct (write outside).
    2: { cbn [app]. apply (restore_fail c); [done|done|]. by intros rt' Hs Hh. }
    apply wp_ret. split; [by apply (healthy_saved c)|]. split; [done|]. split; [done|]. exists (rt_snapshot rt1). split; [done|]. split; [done|].
    intros Hfits. unfold load. subst rt1. destruct Hsr as [E1 E2 Hrest _ _].
    pose proof (checkpoint_restores r rc Hrest (Hfits r Hr) Hrc) as Hres. rewrite E1, E2 in Hres. revert Hres. clear E2.
    generalize known_schemas as schemas. intros schemas Hres. cbn. rewrite Hcl, Hres. cbn.
    rewrite checkpoint_roundtrip by apply (wk_ledger _ _ Hw). cbn. by rewrite <-Hr.
Qed.

(** *** Rows that stay *)

Definition rows_of (sn : Snapshot) : list StoredRecord := List.filter (λ row, negb (sr_tombstone row)) (sn_records sn).

(** The rows that are not deletions, and the ledger that was saved with them. *)
Definition standing (sn : Snapshot) : list StoredRecord * TombstoneLedgerCheckpoint := (rows_of sn, sn_tombstones sn).

(** A call that changes neither. *)
Definition still {A} (m : Call A) : Prop :=
  ∀ rt rt' ws res, m rt = Some (rt', ws, res) → standing (rt_snapshot rt') = standing (rt_snapshot rt).

Lemma still_ret {A} (a : A) : still (ret a).
Proof. by intros rt rt' ws res [= <- _ _]. Qed.
Lemma still_gets {A} (f : Runtime → A) : still (gets f).
Proof. by intros rt rt' ws res [= <- _ _]. Qed.
Lemma still_answer {A E} (f : E → RepositoryRuntimeError) (x : result A E) : still (answer f x).
Proof. destruct x; by intros rt rt' ws res [= <- _ _]. Qed.
Lemma still_modify f : (∀ rt, sn_records (rt_snapshot (f rt)) = sn_records (rt_snapshot rt) ∧
  sn_tombstones (rt_snapshot (f rt)) = sn_tombstones (rt_snapshot rt)) → still (modify f).
Proof. intros Hf rt rt' ws res [= <- _ _]. unfold standing, rows_of. by destruct (Hf rt) as [-> ->]. Qed.
Lemma still_bind {A B} (m : Call A) (k : A → Call B) : still m → (∀ a, still (k a)) → still (bind m k).
Proof.
  intros Hm Hk rt rt' ws res. unfold bind. destruct (m rt) as [[[rt1 ws1] [a|e]]|] eqn:Em; [| |done].
  - destruct (k a rt1) as [[[rt2 ws2] r2]|] eqn:Ek; [|done]. intros [= <- _ _]. by rewrite (Hk _ _ _ _ _ Ek), (Hm _ _ _ _ Em).
  - intros [= <- _ _]. by apply (Hm _ _ _ _ Em).
Qed.
Lemma still_receiver : still the_receiver.
Proof. intros rt rt' ws res. unfold the_receiver. destruct (rt_receiver rt); [|done]. by intros [= <- _ _]. Qed.
Lemma still_tombstones f : still (with_tombstones f).
Proof. repeat (apply still_bind; [apply still_gets || apply still_answer|intros ?]). by apply still_modify. Qed.
Lemma still_advance first : still (advance_receiver first).
Proof.
  apply still_bind; [apply still_gets|]. intros [gap|]; [|apply still_ret]. apply still_bind; [apply still_receiver|]. intros r.
  destruct (advance_declared_sequence_gap _ _ _ _) as [r' a]. apply still_bind; [by apply still_modify|]. intros _.
  apply still_bind; [apply still_answer|]. intros ?. apply still_ret.
Qed.
Lemma still_expire now : still (expire_tombstones now).
Proof.
  apply still_bind; [apply still_gets|]. intros expired. apply still_bind; [by apply still_modify|]. intros _.
  apply still_bind; [|intros _; apply still_ret]. induction expired as [|key keys IH]; cbn [each]; [apply still_ret|].
  apply still_bind; [|intros _; exact IH]. apply still_bind; [apply still_answer|]. intros cursor rt rt' ws res [= <- _ _].
  unfold standing, rows_of. cbn. f_equal. induction (sn_records (rt_snapshot rt)) as [|row rows IHr]; [done|]. cbn.
  destruct (matches_key row key) eqn:Hm; cbn; [|destruct (sr_tombstone row); cbn; by rewrite IHr].
  assert (sr_tombstone row = true) as ->; [|done]. unfold matches_key in Hm. by apply andb_true_iff in Hm as [_ ?].
Qed.
Lemma still_accept g identity : still (accept_segment g identity).
Proof.
  intros rt rt' ws res. unfold accept_segment. destruct (rt_receiver rt); [|done]. destruct (accept _ _ _) as [[r a]|]; [|done]. by intros [= <- _ _].
Qed.
Lemma still_push_gap gap : still (push_gap gap).
Proof. apply still_modify. intros rt. cbn. by case_bool_decide. Qed.
Lemma still_sequence_gap s expected actual : still (record_sequence_gap s expected actual).
Proof. unfold record_sequence_gap. case_bool_decide; [by apply still_modify|apply still_push_gap]. Qed.

(** The runtime inside a call that has not changed the standing rows. *)
Definition quiet (c : string) (ps : Snapshot) rt : Prop := working c rt ∧ standing (rt_snapshot rt) = standing ps.

Lemma quiet_call {A} c ps (m : Call A) rt : quiet c ps rt → keeps c m → still m → wp m (λ _ rt' ws, quiet c ps rt' ∧ ws = []) rt.
Proof.
  intros [Hw Hs] Hk Hst. specialize (Hk rt Hw). specialize (Hst rt). unfold wp in *. destruct (m rt) as [[[rt' ws] res]|]; [|done].
  destruct Hk as [Hw' ->]. split; [|done]. split; [done|]. by rewrite (Hst _ _ _ eq_refl).
Qed.

Lemma quiet_bind {A B} c ps (m : Call A) (k : A → Call B) rt (Q : result B RepositoryRuntimeError → Runtime → list Snapshot → Prop) :
  quiet c ps rt → keeps c m → still m → (∀ e rt', quiet c ps rt' → Q (Err e) rt' []) →
  (∀ a rt', quiet c ps rt' → wp (k a) Q rt') → wp (bind m k) Q rt.
Proof.
  intros Hq Hk Hs He HQ. apply wp_bind. eapply wp_mono; [by eapply quiet_call|]. intros [a|e] rt' ws [Hq' ->]; [|by apply He].
  cbn [app]. by apply HQ.
Qed.

(** *** Refusing and taking a segment *)

Definition pruned (now : N) (sn : Snapshot) : Snapshot :=
  sn <| sn_records := prune_records (sn_records sn) (sn_gaps sn) now (sn_cluster_id sn) |>
     <| sn_segments ::= List.filter (λ g, bool_decide (sat_sub now (minute_retention_seconds retention_default) ≤ sg_closed_at_unix_seconds g)) |>.

(** What a call leaves when it succeeds: the last snapshot it wrote is one a restart takes up
    where the call ended, up to the retention pass. *)
Definition durable (now : N) rt (ws : list Snapshot) : Prop :=
  ∃ before sn rt1, ws = before ++ [sn] ∧ reloads rt1 sn ∧ (rt = rt1 ∨ rt = rt1 <| rt_snapshot ::= pruned now |>).

(** In service either way; and a call that fails left the standing rows as they were. *)
Definition outcome (now : N) (ps : Snapshot) (res : result RepositorySyncReceipt RepositoryRuntimeError) rt (ws : list Snapshot) : Prop :=
  healthy rt ∧ match res with Ok _ => durable now rt ws | Err _ => rows_of (rt_snapshot rt) = rows_of ps end.

Lemma quiet_healthy c pr ps rt : checkpointed c pr ps → quiet c ps rt → healthy rt.
Proof.
  intros [_ _ (l & Hl & Hfit & Hp)] [[Hc (r & Hr & Hsr) Hrows Hled] Hst]. injection Hst as Hst Ht. split; [|done|done|].
  - intros r'. rewrite Hr. intros [= <-]. eauto.
  - exists l. rewrite Ht. split_and!; [done|done|]. eapply protected_rows; [|exact Hp]. intros row Hin Hlive.
    assert (row ∈ rows_of (rt_snapshot rt)) as Hs.
    { unfold rows_of. rewrite list_elem_of_In, List.filter_In, <-list_elem_of_In. split; [done|].
      unfold live in Hlive. by apply andb_true_iff in Hlive as [? _]. }
    rewrite Hst in Hs. unfold rows_of in Hs. rewrite list_elem_of_In, List.filter_In, <-list_elem_of_In in Hs. by destruct Hs.
Qed.
Lemma quiet_failed now c pr ps rt e : checkpointed c pr ps → quiet c ps rt → outcome now ps (Err e) rt [].
Proof. intros Hcp Hq. split; [by eapply quiet_healthy|]. destruct Hq as [_ Hst]. by injection Hst. Qed.

Lemma refuse_spec outside now c pr ps s expired e rt : checkpointed c pr ps → quiet c ps rt →
  wp (refuse_segment outside s expired pr ps e) (outcome now ps) rt.
Proof.
  intros Hcp Hq. unfold refuse_segment.
  assert (∀ m : Call unit, keeps c m → still m → wp (m ;! (if records_gap e || expired then persist_or_restore outside pr ps else ret tt) ;!
    fail (ProtocolFailed e)) (outcome now ps) rt) as Hgen.
  { intros m Hk Hst. apply (quiet_bind c ps); [done|done|done|intros ? ? ?; by eapply quiet_failed|]. intros _ rt1 Hq1.
    destruct (records_gap e || expired).
    - apply wp_bind. eapply wp_mono; [apply (persist_spec outside c); [done|apply Hq1]|].
      intros [[]|e'] rt2 ws [Hh Hres]; [|destruct Hres as [Hs ->]; split; [done|by rewrite Hs]].
      destruct Hres as (_ & Hrec & sn & -> & _). apply wp_fail. split; [done|]. unfold rows_of. rewrite Hrec.
      destruct Hq1 as [_ Hst1]. by injection Hst1.
    - apply wp_bind, wp_ret. cbn [app]. apply wp_fail. by eapply quiet_failed. }
  destruct e; try (apply Hgen; [apply keeps_ret|apply still_ret]).
  - apply Hgen; [apply keeps_sequence_gap|apply still_sequence_gap].
  - apply Hgen; [apply keeps_record_gap|apply still_push_gap].
  - apply Hgen; [apply keeps_record_gap|apply still_push_gap].
Qed.

Lemma healthy_pruned now rt c : working c rt → healthy rt → healthy (rt <| rt_snapshot ::= pruned now |>).
Proof.
  intros [Hc (r & Hr & Hsr) Hp Hl] [_ _ _ (l & Hsv & Hfit & Hps)].
  assert (∀ row, row ∈ sn_records (pruned now (rt_snapshot rt)) → live row = true → row ∈ sn_records (rt_snapshot rt)) as Hin.
  { intros row Hrow Hlive. cbn in Hrow. apply prune_shape in Hrow as [?|Hp']; [done|]. unfold live in Hlive.
    apply andb_true_iff in Hlive as [_ Hnone%bool_decide_eq_true]. rewrite Hnone in Hp'. by destruct Hp'. }
  split; [cbn; rewrite Hr; intros ? [= <-]; by eauto|by eapply protected_rows|done|].
  exists l. split_and!; [done|done|by eapply protected_rows].
Qed.

Lemma keeps_bind_ok {A B} c (m : Call A) (k : A → Call B) rt (Q : result B RepositoryRuntimeError → Runtime → list Snapshot → Prop) :
  working c rt → keeps c m → (∀ e rt', m rt = Some (rt', [], Err e) → False) →
  (∀ a rt', working c rt' → wp (k a) Q rt') → wp (bind m k) Q rt.
Proof.
  intros Hw Hk Hne HQ. apply wp_bind. specialize (Hk rt Hw). unfold wp in *. destruct (m rt) as [[[rt' ws] [a|e]]|] eqn:Em; [| |done].
  - destruct Hk as [Hw' ->]. cbn [app]. by apply HQ.
  - destruct Hk as [_ ->]. by destruct (Hne e rt').
Qed.

(** A segment the receiver took, up to the write. *)
Lemma take_spec outside c pr ps s identity wire now ready local_id availability acceptance gap rt :
  checkpointed c pr ps → working c rt → Forall (homed_record (first_cursor s)) (records s) →
  wp (take_segment outside s identity wire now ready local_id availability pr ps acceptance gap) (outcome now ps) rt.
Proof.
  intros Hcp Hw Hh. unfold take_segment. apply (keeps_bind_ok c); [done| | |].
  { destruct gap; [apply keeps_push_gap|apply keeps_ret]. }
  { intros e rt'. by destruct gap. }
  intros _ rt1 Hw1. apply wp_bind, wp_attempt. eapply wp_mono; [by apply (append_records_keeps c)|].
  intros [acks|e] rt2 ws [Hw2 ->]; cbn [app].
  2: { apply (restore_fail c); [done|apply (wk_cluster _ _ Hw2)|]. intros rt' Hs Hhl. split; [done|by rewrite Hs]. }
  apply wp_bind, wp_attempt. eapply wp_mono; [by apply (keeps_store c)|]. intros [[]|e] rt3 ws [Hw3 ->]; cbn [app].
  2: { apply (restore_fail c); [done|apply (wk_cluster _ _ Hw3)|]. intros rt' Hs Hhl. split; [done|by rewrite Hs]. }
  apply (keeps_bind_ok c); [done|apply keeps_clear|done|]. intros _ rt4 Hw4.
  apply (keeps_bind_ok c); [done|apply keeps_source_received|done|]. intros _ rt5 Hw5.
  apply (keeps_bind_ok c); [done|apply keeps_reopen|done|]. intros _ rt6 Hw6.
  apply (keeps_bind_ok c); [done|by apply keeps_snapshot|done|]. intros _ rt7 Hw7.
  apply wp_bind. eapply wp_mono; [by apply (persist_spec outside c)|]. intros [[]|e] rt8 ws [Hhl Hres].
  - destruct Hres as (Hw8 & _ & sn & -> & Hre). apply wp_bind. unfold prune_retention. apply wp_snapshot. cbn [app]. apply wp_ret.
    split; [by apply (healthy_pruned now _ c)|]. exists [], sn, rt8. split_and!; [done|done|by right].
  - destruct Hres as [Hs ->]. split; [done|by rewrite Hs].
Qed.

Lemma deliver_spec outside c segment identity wire now ready local_id availability rt :
  working c rt → healthy rt → (∀ r, rt_receiver rt = Some r → fits_checkpoint r) → from_wire wire = Ok segment →
  Forall (homed_record (first_cursor (canonical segment))) (records (canonical segment)) →
  wp (deliver outside segment identity wire now ready local_id availability) (outcome now (rt_snapshot rt)) rt.
Proof.
  intros Hw Hhl Hfits Hwire Hhome. destruct (from_wire_inv _ _ Hwire) as [Hty Hwb].
  assert (is_ok (wire_bytes segment) = true) as Hwb' by (by rewrite Hwb).
  pose proof (wk_receiver _ _ Hw) as (r & Hr & Hsr). unfold deliver. apply wp_bind, (wp_the_receiver r); [done|]. cbn [app].
  pose proof (receiver_checkpoint_ok r (sv_wire _ _ Hsr)) as Hok. destruct (receiver_checkpoint r) as [pr|] eqn:Hpr; [|done].
  apply wp_bind, wp_ret. cbn [app]. apply wp_bind, wp_gets. cbn [app]. set (ps := rt_snapshot rt).
  assert (checkpointed c pr ps) as Hcp.
  { split; [|apply (wk_cluster _ _ Hw)|apply (hl_saved _ Hhl)]. exists r. split; [|done].
    destruct Hsr as [E1 E2 E3 _ _]. rewrite <-E1, <-E2. by apply checkpoint_restores; [|apply Hfits|]. }
  assert (∀ e rt', quiet c ps rt' → outcome now ps (Err e) rt' []) as Hfail by (intros; by eapply quiet_failed).
  apply (quiet_bind c ps); [by split|apply keeps_reconcile|apply still_tombstones|apply Hfail|]. intros _ rt1 Hq1.
  apply (quiet_bind c ps); [done|apply keeps_expire|apply still_expire|apply Hfail|]. intros expired rt2 Hq2.
  apply (quiet_bind c ps); [done|apply keeps_advance, (ty_first _ Hty)|apply still_advance|apply Hfail|]. intros _ rt3 Hq3.
  apply (quiet_bind c ps); [done|by apply keeps_accept|apply still_accept|apply Hfail|]. intros acceptance rt4 Hq4.
  destruct acceptance as [[ack gap unknown|ack]|e].
  - apply (take_spec outside c); [done|apply Hq4|done].
  - apply wp_bind. eapply wp_mono; [apply (persist_spec outside c); [done|apply Hq4]|]. intros [[]|e] rt5 ws [Hh5 Hres].
    + destruct Hres as (_ & _ & sn & -> & Hre). apply wp_ret. split; [done|]. exists [], sn, rt5. split_and!; [done|done|by left].
    + destruct Hres as [Hs ->]. split; [done|by rewrite Hs].
  - by apply (refuse_spec outside now c).
Qed.

(** *** Before the delivery *)

(** In service, with a receiver a checkpoint has room for. *)
Definition ready_to_receive rt : Prop := healthy rt ∧ ∀ r, rt_receiver rt = Some r → fits_checkpoint r.

Lemma persist_control_healthy outside rt : healthy rt →
  wp (persist_control_state outside) (λ _ rt' _, healthy rt' ∧ rt_receiver rt' = rt_receiver rt ∧
    rows_of (rt_snapshot rt') = rows_of (rt_snapshot rt)) rt.
Proof.
  intros [Hr Hp Hl Hs]. unfold persist_control_state. apply wp_bind, wp_modify. cbn [app].
  set (rt1 := rt <| rt_snapshot ::= _ |>).
  assert (healthy rt1 ∧ rt_receiver rt1 = rt_receiver rt ∧ rows_of (rt_snapshot rt1) = rows_of (rt_snapshot rt)) as Hrt1.
  { split; [|done]. split; [done|done|done|]. exists (rt_tombstones rt). cbn. by rewrite checkpoint_roundtrip. }
  apply wp_bind, wp_gets. cbn [app]. apply wp_bind, wp_answer; [|done]. intros n _. cbn [app].
  case_bool_decide; [done|]. unfold wp, write_snapshot. by destruct (write outside).
Qed.

Definition stale (now : N) rt : bool :=
  from_option (λ last_verified, requires_rebuild (mkFreshness last_verified TOMBSTONE_HORIZON_SECONDS) now) false
    (sn_last_verified_unix_seconds (rt_snapshot rt)).

(** The standing rows of [rt'] are those of [rt], or there are none because [rt] was stale. *)
Definition same_rows (now : N) rt rt' : Prop :=
  rows_of (rt_snapshot rt') = rows_of (rt_snapshot rt) ∨ stale now rt = true ∧ rows_of (rt_snapshot rt') = [].

Lemma fits_new c : fits_checkpoint (for_cluster c known_schemas).
Proof. unfold fits_checkpoint, for_cluster. cbn [rv_streams rv_quarantined_streams rv_tombstones rv_forwardable_unknown_segments]. rewrite !map_size_empty, size_empty. cbn. lia. Qed.

Lemma rebuild_spec outside now rt : ready_to_receive rt →
  wp (rebuild_if_stale outside now) (λ _ rt' _, ready_to_receive rt' ∧ same_rows now rt rt') rt.
Proof.
  intros Hrd. unfold rebuild_if_stale. apply wp_bind, wp_gets. cbn [app]. unfold same_rows, stale.
  destruct (sn_last_verified_unix_seconds (rt_snapshot rt)) as [last|]; [|apply wp_ret; split; [done|by left]]. cbn [from_option].
  destruct (requires_rebuild _ now) eqn:Hst; [|apply wp_ret; split; [done|by left]]. cbn [negb].
  apply wp_bind, wp_gets. cbn [app]. apply wp_bind, wp_gets. cbn [app]. apply wp_bind, wp_answer; [|intros; split; [done|by left]].
  intros local _. cbn [app]. apply wp_bind.
  assert (∀ m : Call unit, (∃ e, m rt = Some (rt, [], Err e)) ∨ m rt = Some (rt, [], Ok tt) →
    ∀ Q : result unit RepositoryRuntimeError → Runtime → list Snapshot → Prop, (∀ e, Q (Err e) rt []) → Q (Ok tt) rt [] → wp m Q rt) as Hm.
  { intros m Hm Q HE HO. unfold wp. destruct Hm as [[e ->]| ->]; auto. }
  apply Hm.
  { destruct (_ && _); [|by right]. destruct (record_source_epoch outside) as [[]|e]; [by right|left; by eexists]. }
  { intros e. split; [done|by left]. }
  apply wp_bind, wp_modify. cbn [app]. eapply wp_mono; [apply persist_control_healthy|].
  - split.
    + intros r. cbn. destruct (sn_cluster_id (rt_snapshot rt)) as [c|]; [|done]. intros [= <-]. exists c. split; [done|apply sound_receiver_new].
    + by intros row ?%not_elem_of_nil.
    + unfold ledger_fits. cbn [rt_tombstones tombstones tombstones_new]. rewrite map_size_empty. cbn. lia.
    + exists (tombstones_new TOMBSTONE_HORIZON_SECONDS). cbn. split_and!; [|unfold ledger_fits; cbn [tombstones tombstones_new]; rewrite map_size_empty; cbn; lia|by intros row ?%not_elem_of_nil].
      apply checkpoint_roundtrip. cbn [tombstones tombstones_new]. rewrite map_size_empty. cbn. lia.
  - intros res rt' ws (Hh & Hr & Hrows). split; [|right; split; [done|by rewrite Hrows]]. split; [done|]. intros r. rewrite Hr. cbn.
    destruct (sn_cluster_id (rt_snapshot rt)) as [c|]; [|done]. intros [= <-]. apply fits_new.
Qed.

Lemma ready_snapshot rt (f : Snapshot → Snapshot) : ready_to_receive rt →
  standing (f (rt_snapshot rt)) = standing (rt_snapshot rt) → sn_records (f (rt_snapshot rt)) = sn_records (rt_snapshot rt) →
  (sn_cluster_id (rt_snapshot rt) = None ∨ sn_cluster_id (f (rt_snapshot rt)) = sn_cluster_id (rt_snapshot rt)) →
  ready_to_receive (rt <| rt_snapshot ::= f |>).
Proof.
  intros [[Hr Hp Hl (l & Hs & Hlf & Hps)] Hfits] Hst Hrec Hc. injection Hst as _ Ht. split; [|done]. split; cbn.
  - intros r Hrr. destruct (Hr r Hrr) as (c & Hcl & Hsr). exists c. split; [|done]. destruct Hc as [Hc|Hc]; congruence.
  - by rewrite Hrec.
  - done.
  - exists l. rewrite Ht, Hrec. done.
Qed.
Lemma rebuild_fresh outside now rt (Q : result unit RepositoryRuntimeError → Runtime → list Snapshot → Prop) :
  stale now rt = false → Q (Ok tt) rt [] → wp (rebuild_if_stale outside now) Q rt.
Proof.
  unfold stale, rebuild_if_stale. intros Hs HQ. apply wp_bind, wp_gets. cbn [app].
  destruct (sn_last_verified_unix_seconds (rt_snapshot rt)) as [last|]; [|by apply wp_ret]. cbn [from_option] in Hs. rewrite Hs. by apply wp_ret.
Qed.
End Service.

Lemma receive_keeps `{SyncCrypto, AggregateCodec, SnapshotSize} outside cluster identity wire now ready local_id rt :
  (∀ sn, is_ok (snapshot_bytes sn) = true) →
  (∀ g, from_wire wire = Ok g → Forall (homed_record (first_cursor (canonical g))) (records (canonical g))) →
  ready_to_receive rt →
  ∃ rt' ws res, receive_wire_from_repository outside cluster identity wire now ready local_id rt = Some (rt', ws, res) ∧ healthy rt' ∧
    match res with Ok _ => durable now rt' ws | Err _ => same_rows now rt rt' end.
Proof.
  intros Hser Hhome Hrd. set (Q := λ (res : result RepositorySyncReceipt RepositoryRuntimeError) rt' ws, healthy rt' ∧
    match res with Ok _ => durable now rt' ws | Err _ => same_rows now rt rt' end).
  assert (wp (receive_wire_from_repository outside cluster identity wire now ready local_id) Q rt) as Hwp.
  2: { unfold wp in Hwp. destruct (receive_wire_from_repository _ _ _ _ _ _ _ _) as [[[rt' ws] res]|]; [|done]. by exists rt', ws, res. }
  unfold receive_wire_from_repository. apply wp_bind. eapply wp_mono; [by apply rebuild_spec|].
  intros [[]|e] rt1 ws1 [Hrd1 Hsame]; [|by split; [apply Hrd1|]].
  assert (∀ e rt2 ws, ready_to_receive rt2 → rows_of (rt_snapshot rt2) = rows_of (rt_snapshot rt1) → Q (Err e) rt2 ws) as Herr.
  { intros e rt2 ws [Hh _] Hrows. split; [done|]. unfold same_rows. rewrite Hrows. exact Hsame. }
  apply wp_bind. unfold refresh_capacity. apply wp_bind, wp_gets. cbn [app]. apply wp_bind, wp_answer; [|by eauto].
  intros used _. cbn [app]. apply wp_bind, wp_answer; [|by eauto]. intros available _. cbn [app]. apply wp_bind, wp_gets. cbn [app].
  apply wp_bind, wp_answer; [|by eauto]. intros capacity _. cbn [app]. apply wp_snapshot.
  set (rt2 := rt1 <| rt_snapshot ::= _ |>). assert (ready_to_receive rt2) as Hrd2 by (apply ready_snapshot; auto).
  apply wp_bind, wp_gets. cbn [app]. destruct (allows_history_writes _); [|by apply wp_fail, Herr]. cbn [negb].
  apply wp_bind, wp_answer; [|intros; by apply Herr]. intros g Hg. cbn [app]. apply wp_bind. unfold bind_cluster. apply wp_bind, wp_gets. cbn [app].
  assert (∀ rt3, ready_to_receive rt3 → sn_cluster_id (rt_snapshot rt3) = Some cluster → rows_of (rt_snapshot rt3) = rows_of (rt_snapshot rt1) →
    wp (ensure_receiver ;! deliver outside g identity wire now ready local_id (history_write_availability (sn_capacity (rt_snapshot rt2))))
      (λ r' rt'' ws', Q r' rt'' (ws1 ++ ws')) rt3) as Hrest.
  2: { destruct (sn_cluster_id (rt_snapshot rt2)) as [existing|] eqn:Hcl.
       - case_bool_decide as Hne; [by apply wp_fail, Herr|]. apply wp_ret. cbn [app]. apply Hrest; [done|congruence|done].
       - apply wp_snapshot. cbn [app]. apply Hrest; [|done|done]. apply ready_snapshot; [done|done|done|by left]. }
  clearbody rt2. clear Hrd2. intros rt3 [Hh3 Hfits3] Hcl3 Hrows3.
  assert (∀ rt4, healthy rt4 → (∃ r, rt_receiver rt4 = Some r ∧ sound_receiver cluster r ∧ fits_checkpoint r) →
    sn_cluster_id (rt_snapshot rt4) = Some cluster → rows_of (rt_snapshot rt4) = rows_of (rt_snapshot rt1) →
    wp (deliver outside g identity wire now ready local_id (history_write_availability (sn_capacity (rt_snapshot rt2))))
      (λ r' rt'' ws', Q r' rt'' (ws1 ++ ws')) rt4) as Hdel.
  { intros rt4 Hh4 (r & Hr4 & Hsr4 & Hf4) Hcl4 Hrows4. eapply wp_mono.
    - apply (deliver_spec Hser outside cluster); [|done| |done|by apply Hhome].
      + split; [done|by eauto|apply (hl_rows _ Hh4)|apply (hl_ledger _ Hh4)].
      + intros r'. rewrite Hr4. by intros [= <-].
    - intros [x|e] rt' ws [Hh' Hres]; (split; [done|]).
      + destruct Hres as (before & sn & rt5 & -> & Hre & Hor). exists (ws1 ++ before), sn, rt5. by rewrite app_assoc.
      + unfold same_rows. rewrite Hres, Hrows4. exact Hsame. }
  apply wp_bind. unfold ensure_receiver. apply wp_bind, wp_gets. cbn [app]. destruct (rt_receiver rt3) as [r|] eqn:Hr3.
  - apply wp_ret. cbn [app]. apply Hdel; [done| |done|done]. destruct (hl_receiver _ Hh3 r Hr3) as (c & Hc & Hsr).
    exists r. split_and!; [done| |by apply Hfits3]. congruence.
  - apply wp_bind, wp_gets. cbn [app]. rewrite Hcl3. cbn [ok_or]. apply wp_bind, wp_ret. cbn [app]. apply wp_modify. cbn [app]. apply Hdel; [| |done|done].
    + destruct Hh3 as [_ Hp Hl Hs]. split; [|done|done|done]. intros r' [= <-]. exists cluster. split; [done|apply sound_receiver_new].
    + eexists. split_and!; [done|apply sound_receiver_new|apply fits_new].
Qed.


(** ** A sample delivery *)

Module ReceiveSample.
Import SyncSample RetentionSample.
#[local] Existing Instance plain_sync.
#[local] Existing Instance plain_aggregate.
#[local] Instance small_snapshot : SnapshotSize := λ _, Ok 1000.

Definition calm : Outside := mkOutside (Ok (100 * 1024 * 1024 * 1024)) (Ok tt) (Ok tt).

Lemma empty_ready : ready_to_receive Runtime_empty.
Proof.
  split; [|done]. split; [done|by intros row ?%not_elem_of_nil|by vm_compute|].
  exists (tombstones_new TOMBSTONE_HORIZON_SECONDS). split_and!; [by vm_compute|by vm_compute|by intros row ?%not_elem_of_nil].
Qed.

Definition homed_recordb (first : Cursor) (x : SyncRecord) : bool :=
  negb (is_known_schema x) || is_tombstone x || from_option (λ st, bool_decide (stream first = st)) true (source_stream_for_schema (schema_id x)).
Lemma homed_records first xs : forallb (homed_recordb first) xs = true → Forall (homed_record first) xs.
Proof.
  intros Hall. apply Forall_forall. intros x Hin Hk Ht st Hs. eapply forallb_forall in Hall; [|by apply list_elem_of_In].
  unfold homed_recordb in Hall. rewrite Hk, Ht, Hs in Hall. by apply bool_decide_eq_true in Hall.
Qed.

Lemma wire1_signed1 : from_wire wire1 = Ok signed1.
Proof. apply from_wire_bytes; [apply signed_typed; vm_compute; reflexivity|vm_compute; reflexivity|exact wire1_ok]. Qed.
Lemma wire1_homed g : from_wire wire1 = Ok g → Forall (homed_record (first_cursor (canonical g))) (records (canonical g)).
Proof.
  intros Hg. assert (g = signed1) as -> by (pose proof wire1_signed1; congruence). apply homed_records. vm_compute. reflexivity.
Qed.

Definition first_receipt : option (Runtime * list Snapshot * result RepositorySyncReceipt RepositoryRuntimeError) :=
  receive_wire_from_repository calm "c1" node_a wire1 1000 ["repo-1"] "repo-1" Runtime_empty.

Lemma small_serializes : ∀ sn, is_ok (snapshot_bytes sn) = true.
Proof. intros sn. reflexivity. Qed.

End ReceiveSample.
