(* ===== verification/Outbox.v ===== *)
(** * The outbox of a history source

    [src/history_repository/replica/runtime/source.rs]: the records a node has for the
    repositories are signed into one chain of segments per stream and wait in a queue until a
    repository acknowledges them.  A full queue drops records and declares the gap; deletions
    have a stream of their own that is offered first.

    The epoch the storage allocates and the outcome of its writes are parameters. *)

From S2P Require Import Prelude Text Search Ordered Hex Repository AntiEntropy HistorySync Retention ReplicaReceive.
Open Scope string_scope.
Open Scope list_scope.
Open Scope N_scope.

Definition MAX_PENDING_SEGMENTS_PER_STREAM : nat := 8.

Definition stream_for_schema (schema : string) : option string :=
  if bool_decide (schema = "runtime.v1") then Some "runtime"
  else if bool_decide (schema = "path_health.v1") then Some "path_health"
  else if bool_decide (schema = "traffic.v1") then Some "traffic"
  else if bool_decide (schema = "connections.v1") then Some "connections"
  else if bool_decide (schema = "ip_usage.v1") then Some "ip_usage"
  else if bool_decide (schema = "tombstone.v1") then Some "tombstone"
  else None.

Definition deletion_marker_id_parts (schema_id record_key : string) : string := schema_id +:+ ":" +:+ hex_encode record_key.
Definition deletion_marker_id (x : SyncRecord) : string := deletion_marker_id_parts (schema_id x) (record_key x).

(** [format!("{stream}\0{first_sequence:020}")] *)
Definition pad20 (n : N) : string :=
  let digits := pretty n in of_chars (replicate (20 - String.length digits)%nat "0"%char) +:+ digits.
Definition backpressure_gap_key (stream : string) (first_sequence : N) : string := stream +:+ String "000"%char (pad20 first_sequence).

(** [key.split_once('\0').map_or(key, |(stream, _)| stream)] *)
Definition backpressure_gap_stream (key : string) : string := from_option fst key (split_once "000"%char key).

(** [RepositoryReplicaSegment] and [RepositoryReplicaGap] *)
Record RepositoryReplicaSegment : Type := mkReplicaSegment { rg_identity : RepositoryNodeIdentity; rg_wire : string }.
Definition RepositoryReplicaGap : Type := StoredGap.

(** [RepositoryHistoryDeletionMarker] of the node history. *)
Record DeletionMarker : Type := mkDeletionMarker { dm_schema_id : string; dm_record_key : string }.

Section Outbox.
Context `{SyncCrypto, SnapshotSize}.

(** [source_epoch]: the first eight bytes of a digest, as a positive [i64]. *)
Definition from_be_bytes (bytes : list ascii) : N := foldl (λ acc c, 256 * acc + code c) 0 bytes.
Definition source_epoch_for (cluster_id node_id : string) : N :=
  let digest := sha256 ("xp-history-source-epoch-v1" +:+ String "000"%char "" +:+ cluster_id +:+ String "000"%char "" +:+ node_id
                          +:+ "stable-source-epoch") in
  N.max (N.land (from_be_bytes (take 8 (chars digest))) i64_max) 1.

Definition on_source (f : LocalSourceState → LocalSourceState) : Call unit := on_snapshot (λ s, s <| sn_local_source ::= f |>).
Definition source_of (rt : Runtime) : LocalSourceState := sn_local_source (rt_snapshot rt).

(** The front of each queue, the deletions first. *)
Definition local_source_pending_segments (l : LocalSourceState) : list RepositoryReplicaSegment :=
  let fronts := omap (λ '(stream, state), pair stream <$> head (ss_pending state)) (bt_items (ls_streams l)) in
  let '(first, rest) := (List.filter (λ '(stream, _), bool_decide (stream = "tombstone")) fronts,
                         List.filter (λ '(stream, _), negb (bool_decide (stream = "tombstone"))) fronts) in
  map (λ '(_, pending), mkReplicaSegment (sg_identity pending) (sg_wire pending)) (first ++ rest).

(** The stream a record is sent on. *)
Definition stream_of_record (x : SyncRecord) : result string RepositoryRuntimeError :=
  if is_tombstone x then Ok "tombstone"
  else ok_or (stream_for_schema (schema_id x)) (StorageFailed ("history source schema has no independent stream: " +:+ schema_id x)).

(** [records_by_stream]: a deletion that is already marked is not sent again. *)
Definition records_by_stream (markers : gmap string ReplicaRecordKey) (xs : list SyncRecord)
    : result (gmap string (list SyncRecord)) RepositoryRuntimeError :=
  try_fold (λ acc x,
    if is_tombstone x && contains_key markers (deletion_marker_id x) then Ok acc
    else let? stream := stream_of_record x in
         Ok (entry_update [] (λ l, l ++ [x]) stream acc)) ∅ xs.

Definition record_local_source_backpressure_gap (l : LocalSourceState) (stream : string) (first_sequence last_sequence now : N)
    : LocalSourceState :=
  let contiguous := List.find (λ '(key, gap),
    bool_decide (backpressure_gap_stream key = stream)
    && (bool_decide (checked_add u64_max (lg_last_sequence gap) 1 = Some first_sequence)
        || bool_decide (checked_add u64_max last_sequence 1 = Some (lg_first_sequence gap)))) (bt_items (ls_backpressure_gaps l)) in
  let key := from_option fst (backpressure_gap_key stream first_sequence) contiguous in
  l <| ls_backpressure_gaps ::= entry_update (mkSourceGap (ls_epoch l) first_sequence last_sequence now now)
         (λ gap, mkSourceGap (lg_source_epoch gap) (N.min (lg_first_sequence gap) first_sequence) (N.max (lg_last_sequence gap) last_sequence)
                   (N.min (lg_start_unix_seconds gap) now) (N.max (lg_end_unix_seconds gap) now)) key |>.

(** The deletions of a batch are entered in the ledger before they are sent. *)
Fixpoint mark_deletions (identity : RepositoryNodeIdentity) (next_sequence now : N) (ready : list string) (offset : N) (xs : list SyncRecord)
    : Call unit :=
  match xs with
  | [] => ret tt
  | x :: xs =>
      (if is_tombstone x then
         let! seq := answer (λ e, e) (ok_or (checked_add u64_max next_sequence offset) StateLimitExceeded) in
         let! epoch := gets (λ rt, ls_epoch (source_of rt)) in
         let! cursor := answer ReplicaFailed (cursor_new (ri_node_id identity) epoch "tombstone" seq) in
         let! rec := answer ReplicaFailed
           (record_new cursor (subject_node_id x) (observer_node_id x) (schema_id x) (schema_version x) (record_key x) (payload x)) in
         with_tombstones (λ l, tombstone l (rr_key rec) now ready) ;!
         on_source (λ l, l <| ls_deletion_marker_keys ::= <[deletion_marker_id x := rr_key rec]> |>)
       else ret tt) ;!
      mark_deletions identity next_sequence now ready (offset + 1) xs
  end.

Definition the_stream (l : LocalSourceState) (stream : string) : LocalSourceStreamState :=
  default LocalSourceStreamState_default (ls_streams l !! stream).
Definition put_stream (stream : string) (state : LocalSourceStreamState) : Call unit :=
  on_source (λ l, l <| ls_streams ::= <[stream := state]> |>).

(** A stream with no room: the records take their sequences and are dropped. *)
Definition backpressure_stream (stream : string) (record_count now : N) : Call unit :=
  let! state := gets (λ rt, the_stream (source_of rt) stream) in
  let! next := answer (λ e, e) (ok_or (checked_add u64_max (ss_next_sequence state) record_count) StateLimitExceeded) in
  put_stream stream (state <| ss_next_sequence := next |> <| ss_backpressured_records ::= λ n, sat_add u64_max n record_count |>) ;!
  on_source (λ l, record_local_source_backpressure_gap l stream (ss_next_sequence state)
                    (sat_add u64_max (ss_next_sequence state) (sat_sub record_count 1)) now).

(** A stream with room: the records become the next segment of its chain. *)
Definition append_segment (cluster_id : string) (identity : RepositoryNodeIdentity) (signing_key : SigningKey) (now : N)
    (stream : string) (xs : list SyncRecord) (record_count : N) : Call unit :=
  let! state := gets (λ rt, the_stream (source_of rt) stream) in
  let! epoch := gets (λ rt, ls_epoch (source_of rt)) in
  let! first := answer ProtocolFailed (sync_cursor_new (ri_node_id identity) epoch stream (ss_next_sequence state)) in
  let! segment := answer ProtocolFailed (segment_new cluster_id first xs (ss_previous_segment_hash state) now now) in
  let! signed := answer ProtocolFailed (sign_segment segment signing_key) in
  let! wire := answer ProtocolFailed (wire_bytes signed) in
  let! next := answer (λ e, e) (ok_or (checked_add u64_max (ss_next_sequence state) record_count) StateLimitExceeded) in
  put_stream stream (state <| ss_next_sequence := next |>) ;!
  let! hash := answer ProtocolFailed (segment_hash signed) in
  put_stream stream (state <| ss_next_sequence := next |> <| ss_previous_segment_hash := Some hash |>
    <| ss_pending ::= λ p, p ++ [mkStoredSegment (hex_encode (sha256 wire)) now identity wire] |>).

Definition queue_stream (cluster_id : string) (identity : RepositoryNodeIdentity) (signing_key : SigningKey) (now : N) (ready : list string)
    (batch : string * list SyncRecord) : Call unit :=
  let '(stream, xs) := batch in
  let record_count := N.of_nat (length xs) in
  (* [entry(stream).or_default()] *)
  let! state := gets (λ rt, the_stream (source_of rt) stream) in
  put_stream stream state ;!
  if bool_decide (MAX_PENDING_SEGMENTS_PER_STREAM ≤ length (ss_pending state))%nat then backpressure_stream stream record_count now
  else
    mark_deletions identity (ss_next_sequence state) now ready 0 xs ;!
    append_segment cluster_id identity signing_key now stream xs record_count.

(** [queue_local_source_segments_for_repositories]; [allocated] is the epoch the storage has for
    the node. *)
Definition queue_local_source_segments (outside : Outside) (allocated : result N string) (cluster_id : string)
    (identity : RepositoryNodeIdentity) (signing_key : SigningKey) (xs : list SyncRecord) (now : N) (ready : list string)
    : Call (list RepositoryReplicaSegment) :=
  let! batches := gets (λ rt, records_by_stream (ls_deletion_marker_keys (source_of rt)) xs) in
  let! batches := answer (λ e, e) batches in
  if bool_decide (batches = ∅) then gets (λ rt, local_source_pending_segments (source_of rt))
  else
    let! epoch := gets (λ rt, ls_epoch (source_of rt)) in
    (if bool_decide (epoch = 0) then
       let! epoch := answer StorageFailed allocated in
       on_source (λ l, l <| ls_epoch := epoch |> <| ls_node_id := ri_node_id identity |>)
     else ret tt) ;!
    each (queue_stream cluster_id identity signing_key now ready) (bt_items batches) ;!
    persist_control_state outside ;!
    gets (λ rt, local_source_pending_segments (source_of rt)).

(** [remove_local_source_pending_segment] *)
Definition pop_delivered (wire : string) (state : LocalSourceStreamState) : LocalSourceStreamState :=
  match ss_pending state with
  | front :: rest => if bool_decide (sg_wire front = wire) then state <| ss_pending := rest |> else state
  | [] => state
  end.
Definition at_front (wire : string) (state : LocalSourceStreamState) : bool :=
  from_option (λ front, bool_decide (sg_wire front = wire)) false (head (ss_pending state)).
Definition remove_local_source_pending_segment (wire : string) (l : LocalSourceState) : LocalSourceState * bool :=
  (l <| ls_streams ::= fmap (pop_delivered wire) |>, existsb (λ kv, at_front wire kv.2) (bt_items (ls_streams l))).

Definition acknowledge_local_source_segment (outside : Outside) (wire : string) : Call unit :=
  let! acknowledged := gets (λ rt, (remove_local_source_pending_segment wire (source_of rt)).2) in
  on_source (λ l, (remove_local_source_pending_segment wire l).1) ;!
  if acknowledged then persist_control_state outside else ret tt.

Definition local_source_backpressure_gaps (l : LocalSourceState) (source_node_id : string) : list RepositoryReplicaGap :=
  map (λ '(key, gap), mkStoredGap source_node_id (lg_source_epoch gap) (backpressure_gap_stream key) (lg_first_sequence gap) (lg_last_sequence gap)
                        (lg_start_unix_seconds gap) (lg_end_unix_seconds gap) true) (bt_items (ls_backpressure_gaps l)).

Definition local_source_tombstones_fully_acknowledged (rt : Runtime) (markers : list DeletionMarker) : bool :=
  forallb (λ marker, from_option (fully_acknowledged (rt_tombstones rt)) false
                       (ls_deletion_marker_keys (source_of rt) !! deletion_marker_id_parts (dm_schema_id marker) (dm_record_key marker))) markers.

Definition complete_local_source_tombstones (outside : Outside) (markers : list DeletionMarker) : Call unit :=
  let ids := map (λ marker, deletion_marker_id_parts (dm_schema_id marker) (dm_record_key marker)) markers in
  let! changed := gets (λ rt, existsb (contains_key (ls_deletion_marker_keys (source_of rt))) ids) in
  on_source (λ l, l <| ls_deletion_marker_keys ::= λ m, foldl (λ m id, delete id m) m ids |>) ;!
  if changed then persist_control_state outside else ret tt.

Definition begin_source_dynamic_relay_attempt (outside : Outside) (cluster_id : string) (now : N) : Call bool :=
  let jitter := from_option code 0 (chars (sha256 cluster_id) !! 1%nat) mod (5 * 60) in
  let! last := gets (λ rt, ls_last_dynamic_relay_attempt_unix_seconds (source_of rt)) in
  let due := from_option (λ last, bool_decide (60 * 60 + jitter ≤ sat_sub now last)) true last in
  if due then on_source (λ l, l <| ls_last_dynamic_relay_attempt_unix_seconds := Some now |>) ;! persist_control_state outside ;! ret true
  else ret false.

(** ** Which repository to deliver to *)

Definition local_source_collector (l : LocalSourceState) (primary : string) (standby : option string) : string :=
  if bool_decide (ls_primary_failure_repository_id l = Some primary) && bool_decide (3 ≤ ls_primary_failure_cycles l)
  then default primary standby else primary.

Definition collector_delivery (l : LocalSourceState) (primary selected : string) (succeeded : bool) : LocalSourceState :=
  let l := if bool_decide (ls_primary_failure_repository_id l = Some primary) then l
           else l <| ls_primary_failure_repository_id := Some primary |> <| ls_primary_failure_cycles := 0 |> <| ls_standby_success_cycles := 0 |> in
  if bool_decide (selected ≠ primary) then
    if succeeded then
      let l := l <| ls_standby_success_cycles ::= λ n, sat_add u8_max n 1 |> in
      if bool_decide (3 ≤ ls_standby_success_cycles l) then l <| ls_primary_failure_cycles := 0 |> <| ls_standby_success_cycles := 0 |> else l
    else l <| ls_standby_success_cycles := 0 |>
  else if succeeded then l <| ls_primary_failure_cycles := 0 |> <| ls_standby_success_cycles := 0 |>
  else l <| ls_standby_success_cycles := 0 |> <| ls_primary_failure_cycles ::= λ n, sat_add u8_max n 1 |>.
Definition record_local_source_collector_delivery (outside : Outside) (primary selected : string) (succeeded : bool) : Call unit :=
  on_source (λ l, collector_delivery l primary selected succeeded) ;! persist_control_state outside.
End Outbox.

(** ** Failing over *)

Section Collector.
Implicit Types (l : LocalSourceState).

Definition primary_fails (primary : string) l : LocalSourceState := collector_delivery l primary primary false.
Definition standby_takes (primary standby : string) (succeeded : bool) l : LocalSourceState := collector_delivery l primary standby succeeded.

Lemma primary_fails_spec primary l : ls_primary_failure_repository_id (primary_fails primary l) = Some primary ∧
  1 ≤ ls_primary_failure_cycles (primary_fails primary l) ∧
  (ls_primary_failure_repository_id l = Some primary →
     N.min 3 (ls_primary_failure_cycles l + 1) ≤ ls_primary_failure_cycles (primary_fails primary l)).
Proof.
  unfold primary_fails, collector_delivery. rewrite (bool_decide_false (primary ≠ primary)) by (intros Hn; by apply Hn).
  case_bool_decide as Hid; cbn; unfold sat_add, u8_max; (split_and!; [done|lia|intros ?; try lia; congruence]).
Qed.

Lemma primary_fails_run primary l n :
  ls_primary_failure_repository_id (Nat.iter (S n) (primary_fails primary) l) = Some primary ∧
  N.min 3 (N.of_nat (S n)) ≤ ls_primary_failure_cycles (Nat.iter (S n) (primary_fails primary) l).
Proof.
  induction n as [|n [IH1 IH2]]; [destruct (primary_fails_spec primary l) as (? & ? & _); cbn [Nat.iter nat_rect]; split; [done|lia]|].
  set (k := S n) in *. cbn [Nat.iter nat_rect]. fold (Nat.iter k (primary_fails primary) l).
  destruct (primary_fails_spec primary (Nat.iter k (primary_fails primary) l)) as (H1 & _ & H3). split; [done|]. specialize (H3 IH1). lia.
Qed.

(** The state in which the standby is the collector. *)
Definition failed_over (primary : string) l : Prop := ls_primary_failure_repository_id l = Some primary ∧ 3 ≤ ls_primary_failure_cycles l.

Lemma failed_over_collector primary standby l : primary ≠ standby →
  local_source_collector l primary (Some standby) = standby ↔ failed_over primary l.
Proof.
  intros Hne. unfold local_source_collector, failed_over. destruct (bool_decide _) eqn:E1; destruct (bool_decide (3 ≤ _)) eqn:E2; cbn;
    rewrite ?bool_decide_eq_true, ?bool_decide_eq_false in *; naive_solver.
Qed.

Lemma failed_over_stays primary standby l : primary ≠ standby → failed_over primary l → failed_over primary (standby_takes primary standby false l).
Proof.
  intros Hne [Hid Hc]. unfold standby_takes, collector_delivery. rewrite (bool_decide_true (_ = Some primary)) by done.
  by rewrite (bool_decide_true (standby ≠ primary)) by done.
Qed.

Lemma failed_over_returns primary standby l : primary ≠ standby → failed_over primary l →
  ∃ n, (1 ≤ n ≤ 3)%nat ∧ local_source_collector (Nat.iter n (standby_takes primary standby true) l) primary (Some standby) = primary.
Proof.
  intros Hne Hf. assert (∀ l, failed_over primary l →
    (failed_over primary (standby_takes primary standby true l) ∧ ls_standby_success_cycles l + 1 ≤ ls_standby_success_cycles (standby_takes primary standby true l) ∧
     ls_standby_success_cycles l < 2) ∨
    (2 ≤ ls_standby_success_cycles l ∧ local_source_collector (standby_takes primary standby true l) primary (Some standby) = primary)) as Hstep.
  { clear l Hf. intros l [Hid Hc]. unfold standby_takes, collector_delivery. rewrite (bool_decide_true (_ = Some primary)) by done.
    rewrite (bool_decide_true (standby ≠ primary)) by done. cbn. unfold sat_add, u8_max. case_bool_decide as H3.
    - right. split; [lia|]. unfold local_source_collector. cbn. by rewrite (bool_decide_false (3 ≤ 0)), andb_false_r by lia.
    - left. unfold failed_over. cbn. split_and!; [done|done|lia|lia]. }
  destruct (Hstep l Hf) as [(Hf1 & Hc1 & _)|[_ Hp]]; [|exists 1%nat; split; [lia|exact Hp]].
  destruct (Hstep _ Hf1) as [(Hf2 & Hc2 & _)|[_ Hp]]; [|exists 2%nat; split; [lia|exact Hp]].
  destruct (Hstep _ Hf2) as [(_ & _ & Hc3)|[_ Hp]]; [lia|exists 3%nat; split; [lia|exact Hp]].
Qed.
End Collector.

(** Which repository a source delivers to.  After three failed deliveries in a row to the
    primary the standby is used; once the standby has taken three deliveries the primary is
    tried again, after at most three of them; but while deliveries to the standby fail, the
    standby stays the one that is used, however many fail and whatever became of the primary. *)
Theorem collector_failover (l : LocalSourceState) (primary standby : string) :
  primary ≠ standby →
  (∀ n, (3 ≤ n)%nat → local_source_collector (Nat.iter n (primary_fails primary) l) primary (Some standby) = standby) ∧
  (local_source_collector l primary (Some standby) = standby →
    (∃ n, (1 ≤ n ≤ 3)%nat ∧ local_source_collector (Nat.iter n (standby_takes primary standby true) l) primary (Some standby) = primary) ∧
    (∀ n, local_source_collector (Nat.iter n (standby_takes primary standby false) l) primary (Some standby) = standby)).
Proof.
  intros Hne. split.
  - intros [|n] Hn; [lia|]. apply failed_over_collector; [done|]. destruct (primary_fails_run primary l n) as [Hid Hc]. split; [done|lia].
  - intros Hf%failed_over_collector; [|done]. split; [by apply failed_over_returns|]. intros n. apply failed_over_collector; [done|].
    induction n as [|n IH]; [done|]. cbn [Nat.iter nat_rect]. by apply failed_over_stays.
Qed.

(** ** A deletion that overtakes a record *)

(** A call that keeps a property of the runtime, whatever its answer. *)
Definition preserves {A} (P : Runtime → Prop) (m : Call A) : Prop := ∀ rt rt' ws res, m rt = Some (rt', ws, res) → P rt → P rt'.

Section Preserves.
Context (P : Runtime → Prop).
Lemma preserves_ret {A} (a : A) : preserves P (ret a).
Proof. by intros rt rt' ws res [= <- _ _]. Qed.
Lemma preserves_fail {A} e : preserves P (@fail A e).
Proof. by intros rt rt' ws res [= <- _ _]. Qed.
Lemma preserves_gets {A} (f : Runtime → A) : preserves P (gets f).
Proof. by intros rt rt' ws res [= <- _ _]. Qed.
Lemma preserves_answer {A E} (f : E → RepositoryRuntimeError) (x : result A E) : preserves P (answer f x).
Proof. destruct x; by intros rt rt' ws res [= <- _ _]. Qed.
Lemma preserves_modify f : (∀ rt, P rt → P (f rt)) → preserves P (modify f).
Proof. intros Hf rt rt' ws res [= <- _ _]. apply Hf. Qed.
Lemma preserves_bind {A B} (m : Call A) (k : A → Call B) : preserves P m → (∀ a, preserves P (k a)) → preserves P (bind m k).
Proof.
  intros Hm Hk rt rt' ws res. unfold bind. destruct (m rt) as [[[rt1 ws1] [a|e]]|] eqn:Em; [| |done].
  - destruct (k a rt1) as [[[rt2 ws2] r2]|] eqn:Ek; [|done]. intros [= <- _ _] HP. eapply Hk; [done|]. by eapply Hm.
  - intros [= <- _ _]. by eapply Hm.
Qed.
Lemma preserves_receiver : preserves P the_receiver.
Proof. intros rt rt' ws res. unfold the_receiver. destruct (rt_receiver rt); [|done]. by intros [= <- _ _]. Qed.
Lemma preserves_each {A} (f : A → Call unit) l : (∀ a, preserves P (f a)) → preserves P (each f l).
Proof. intros Hf. induction l as [|a l IH]; cbn [each]; [apply preserves_ret|]. apply preserves_bind; [apply Hf|intros _; exact IH]. Qed.
Lemma preserves_tombstones f : (∀ rt l, f (rt_tombstones rt) = Ok l → P rt → P (rt <| rt_tombstones := l |>)) → preserves P (with_tombstones f).
Proof.
  intros Hf rt rt' ws res. unfold with_tombstones, bind, gets, answer. destruct (f (rt_tombstones rt)) as [l|e] eqn:Hl; cbn; intros [= <- _ _]; [|done].
  by apply Hf.
Qed.
End Preserves.

Section Blocked.
Context `{SyncCrypto, AggregateCodec, SnapshotSize}.
Context (g : SignedSegment) (x : SyncRecord) (key : ReplicaRecordKey) (until : N) (verified : option N).
Implicit Types (rt : Runtime) (r : SegmentReceiver) (l : TombstoneLedger).

Let first := first_cursor (canonical g).

(** The key of a record of the segment; deletions do not look at the sequence. *)
Definition key_in (first : Cursor) (x : SyncRecord) (seq : N) : ReplicaRecordKey :=
  mkRecordKey (source_node_id first) (source_epoch first) (stream first) seq (subject_node_id x) (observer_node_id x) (schema_id x)
    (schema_version x) (record_key x).

(** A live record of the segment that a deletion covers. *)
Definition overtaken : Prop :=
  x ∈ records (canonical g) ∧ is_known_schema x = true ∧ is_tombstone x = false ∧ covers key (key_in first x 0) = true.

(** The ledger has the deletion until [until]; the receiver has not come to the segment. *)
Definition held l : Prop := holds (λ state, until ≤ expires_at state) l key.
Definition behind r : Prop := ∀ p, rv_streams r !! seg_key g = Some p → sp_epoch p = seg_epoch g → sp_last_sequence p < seg_first g.

Definition waiting rt : Prop :=
  held (rt_tombstones rt) ∧ (∀ r, rt_receiver rt = Some r → behind r ∧ fits_checkpoint r) ∧
  sn_last_verified_unix_seconds (rt_snapshot rt) = verified.
Definition saved_waiting (sn : Snapshot) : Prop :=
  (∃ l, from_checkpoint (sn_tombstones sn) = Ok l ∧ held l) ∧ sn_last_verified_unix_seconds sn = verified.

(** *** The ledger *)

Lemma held_tombstone l k now ready l' : tombstone l k now ready = Ok l' → held l → held l'.
Proof. intros Hl Hh. pose proof (lasts_call until l key (AntiEntropy.Tombstone k now ready) Hh) as Hc. cbn in Hc. rewrite Hl in Hc. by apply Hc. Qed.
Lemma held_acknowledge l k repository l' : acknowledge l k repository = Ok l' → held l → held l'.
Proof. intros Hl Hh. pose proof (lasts_call until l key (Acknowledge k repository) Hh) as Hc. cbn in Hc. rewrite Hl in Hc. by apply Hc. Qed.
Lemma held_reconcile l ready l' : reconcile_ready_repositories l ready = Ok l' → held l → held l'.
Proof. intros Hl Hh. pose proof (lasts_call until l key (Reconcile ready) Hh) as Hc. cbn in Hc. rewrite Hl in Hc. by apply Hc. Qed.
Lemma held_expire l now : now < until → held l → held (expire l now).1.
Proof. intros Hn Hh. apply (lasts_call until l key (Expire now) Hh). by intros ? [= ->]. Qed.

Lemma waiting_snapshot rt (f : Snapshot → Snapshot) :
  (∀ sn, sn_last_verified_unix_seconds (f sn) = sn_last_verified_unix_seconds sn) → waiting rt → waiting (rt <| rt_snapshot ::= f |>).
Proof. intros Hf (E1 & E2 & E3). split_and!; [done|done|]. cbn. by rewrite Hf. Qed.

(** *** The segment is refused *)

Lemma held_append s now ready local_id offset y :
  preserves (λ rt, held (rt_tombstones rt)) (append_record s now ready local_id offset y).
Proof.
  unfold append_record. destruct (is_known_schema y); cbn [negb]; [|apply preserves_ret].
  repeat (apply preserves_bind; [apply preserves_answer|intros ?]). destruct (is_tombstone y).
  - repeat (apply preserves_bind; [apply preserves_answer|intros ?]). apply preserves_bind; [by apply preserves_modify|]. intros _.
    apply preserves_bind; [apply preserves_tombstones; intros rt l Hl Hh; by eapply held_tombstone|]. intros _.
    apply preserves_bind; [apply preserves_tombstones; intros rt l Hl Hh; by eapply held_acknowledge|]. intros _.
    apply preserves_bind; [by apply preserves_modify|intros _; apply preserves_ret].
  - apply preserves_bind; [apply preserves_gets|]. intros []; cbn [negb]; [|apply preserves_fail].
    apply preserves_bind; [by apply preserves_modify|intros _; apply preserves_ret].
Qed.

Lemma append_refuses (Hx : overtaken) now ready local_id offset xs rt rt' ws res :
  x ∈ xs → held (rt_tombstones rt) → append_records (canonical g) now ready local_id offset xs rt = Some (rt', ws, res) → is_ok res = false.
Proof.
  destruct Hx as (_ & Hknown & Hlive & Hcov). revert offset rt rt' ws res. induction xs as [|y xs IH]; intros offset rt rt' ws res Hin Hheld;
    [by apply not_elem_of_nil in Hin|]. cbn [append_records]. unfold bind at 1.
  destruct (append_record (canonical g) now ready local_id offset y rt) as [[[rt1 ws1] [acks|e]]|] eqn:Hy; [| |done].
  2: { by intros [= _ _ <-]. }
  destruct (decide (x = y)) as [<-|Hne].
  - exfalso. revert Hy. unfold append_record. rewrite Hknown, Hlive. cbn [negb]. unfold bind, answer, gets, fail, ret.
    destruct (ok_or _ _) as [seq|]; [|done]. destruct (cursor_new _ _ _ _) as [cursor|] eqn:Hc; [|done]. apply cursor_new_fields in Hc.
    destruct (record_new _ _ _ _ _ _ _) as [rec|] eqn:Hr; [|done]. apply record_new_fields in Hr.
    rewrite (holds_forbids _ _ key (rr_key rec) Hheld); [done|]. rewrite Hr, Hc. exact Hcov.
  - assert (x ∈ xs) as Hin' by (by apply elem_of_cons in Hin as [?|?]). assert (held (rt_tombstones rt1)) as Hheld1 by (by eapply held_append).
    unfold bind. destruct (append_records _ _ _ _ _ xs rt1) as [[[rt2 ws2] [rest|e]]|] eqn:Hrest; [| |done].
    + by apply (IH _ _ _ _ _ Hin' Hheld1) in Hrest.
    + by intros [= _ _ <-].
Qed.

(** *** The receiver stays where it is *)

Lemma waiting_reconcile ready : preserves waiting (with_tombstones (λ l, reconcile_ready_repositories l ready)).
Proof. apply preserves_tombstones. intros rt l Hl (Hh & Hr & Hv). split_and!; [by eapply held_reconcile|done|done]. Qed.

Lemma waiting_expire now : now < until → preserves waiting (expire_tombstones now).
Proof.
  intros Hn. apply preserves_bind; [apply preserves_gets|]. intros expired.
  apply preserves_bind; [apply preserves_modify; intros rt (Hh & Hr & Hv); split_and!; [by apply held_expire|done|done]|]. intros _.
  apply preserves_bind; [|intros _; apply preserves_ret]. apply preserves_each. intros k. apply preserves_bind; [apply preserves_answer|]. intros cursor.
  apply preserves_modify. intros rt (Hh & Hr & Hv). split_and!; [done| |done]. cbn. intros r Hrr.
  destruct (rt_receiver rt) as [r0|]; [|done]. injection Hrr as <-. destruct (Hr r0 eq_refl) as [Hb (F1 & F2 & F3 & F4)]. split; [done|].
  split_and!; [done|done| |done]. assert (size (rv_tombstones r0 ∖ {[tombstone_key cursor (mkSyncRecord (rk_subject_node_id k) (rk_observer_node_id k) (rk_schema_id k) (rk_schema_version k) (rk_record_key k) "" true)]}) ≤ size (rv_tombstones r0))%nat
    by (apply subseteq_size; set_solver). cbn. lia.
Qed.

Lemma waiting_advance : preserves waiting (advance_receiver first).
Proof.
  apply preserves_bind; [apply preserves_gets|]. intros [gap|]; [|apply preserves_ret].
  intros rt rt' ws res. unfold bind at 1, the_receiver. destruct (rt_receiver rt) as [r|] eqn:Hrr; [|done].
  destruct (advance_declared_sequence_gap r first _ _) as [r' a] eqn:Ha. unfold bind, modify, answer, ret, fail.
  intros Hrun (Hh & Hr & Hv). destruct (Hr r Hrr) as [Hb (F1 & F2 & F3 & F4)].
  assert (behind r' ∧ fits_checkpoint r') as [Hb' Hf'].
  { unfold advance_declared_sequence_gap in Ha. fold (seg_key g) in Ha. change (stream_key first) with (seg_key g) in Ha.
    destruct (rv_streams r !! seg_key g) as [q|] eqn:Hp; [|by injection Ha as <- _].
    destruct (checked_add _ (sp_last_sequence q) 1); [|by injection Ha as <- _].
    destruct (_ || _ || _) eqn:Hor; injection Ha as <- _; [done|]. apply orb_false_iff in Hor as [_ Hseq].
    apply bool_decide_eq_false, dec_stable in Hseq. split.
    - intros q'. cbn. rewrite lookup_insert_eq. intros [= <-] _. cbn. unfold checked_add in Hseq. case_decide; [|done]. injection Hseq as Hseq.
      unfold seg_first. fold first. lia.
    - split_and!; [|done|done|done]. cbn. by rewrite map_size_insert_Some. }
  destruct a; cbn in Hrun; injection Hrun as <- _ _; (split_and!; [done|cbn; by intros ? [= <-]|done]).
Qed.

(** Short of taking the segment, the receiver is left alone. *)
Lemma waiting_accept identity rt rt' ws res : accept_segment g identity rt = Some (rt', ws, res) → waiting rt →
  (∃ e, res = Ok (Err e) ∧ waiting rt') ∨ (∃ ack gap unknown, res = Ok (Ok (Accepted ack gap unknown)) ∧ held (rt_tombstones rt')).
Proof.
  unfold accept_segment. destruct (rt_receiver rt) as [r|] eqn:Hrr; [|done]. destruct (accept r g identity) as [[r' a]|] eqn:Ha; [|done].
  intros [= <- _ <-] (Hh & Hr & Hv). destruct (Hr r Hrr) as [Hb Hf].
  assert (∀ hash, match stream_position (rv_streams r !! seg_key g) (canonical g) hash with Known _ | Fork _ => False | _ => True end) as Hpos.
  { intros hash. unfold stream_position. destruct (rv_streams r !! seg_key g) as [q|] eqn:Hq; [|by case_bool_decide].
    case_bool_decide; [destruct (_ || _ || _); [done|]; by destruct (sync_cursor_new _ _ _ _)|]. case_bool_decide as He; [done|].
    specialize (Hb q Hq). unfold seg_epoch, seg_first in Hb. rewrite (bool_decide_false (sequence _ ≤ sp_last_sequence q)) by lia.
    destruct (ok_or _ _); [|done]. cbn. case_bool_decide; [done|]. by case_bool_decide. }
  pose proof Ha as Ha'. apply accept_inv in Ha as [(ack & gap & u & hash & rot & -> & _)|[Hno [-> |(q & n & Hq & [_ [hash Hfork]] & _)]]].
  - right. eauto.
  - destruct a as [[ack gap u|ack]|e]; [by destruct (Hno ack gap u)| |left; exists e; split; [done|]; split_and!; [done|cbn; by intros ? [= <-]|done]].
    exfalso. unfold accept in Ha'. fold (seg_key g) in Ha'. destruct (verify_identity g identity); [|done]. destruct (bool_decide _); [done|].
    assert (∀ o, match segment_hash g with
      | Ok hash => Some match stream_position (rv_streams r !! seg_key g) (canonical g) hash with
                        | Refused e => (r, Err e) | Known w => (r, Ok (Duplicate w))
                        | Fork n => (r <| rv_quarantined_streams ::= <[seg_key g := n]> |>, Err (ForkDetected n))
                        | Next gap rot => take_records r g hash gap rot end
      | Err e => Some (r, Err e) end = Some (r, Ok (Duplicate o)) → False) as Hres.
    { intros o. destruct (segment_hash g) as [hash|]; [|done]. specialize (Hpos hash).
      destruct (stream_position _ _ _) as [gap rot|w|n|e]; [|done..]. unfold take_records. destruct (_ && _); [done|]. by destruct (existsb _ _). }
    destruct (rv_quarantined_streams r !! seg_key g); [|by apply Hres in Ha']. destruct (rv_streams r !! seg_key g) as [q|] eqn:Hq; [|done].
    destruct (bool_decide _); [done|]. rewrite <-Hq in Hres. by rewrite Hq in Hres; apply Hres in Ha'.
  - specialize (Hpos hash). by rewrite Hq, Hfork in Hpos.
Qed.

(** *** A failed delivery *)

Context (serializes : ∀ sn, is_ok (snapshot_bytes sn) = true).

(** The checkpoint a failed call goes back to. *)
Record waiting_checkpoint (c : string) (pr : SegmentReceiverCheckpoint) (ps : Snapshot) : Prop := {
  wc_receiver : ∃ r, receiver_from_checkpoint c known_schemas pr = Ok r ∧ behind r ∧ fits_checkpoint r;
  wc_saved : saved_waiting ps
}.

Definition still_waiting {A} (res : result A RepositoryRuntimeError) rt (ws : list Snapshot) : Prop := waiting rt ∧ saved_waiting (rt_snapshot rt).

Lemma restore_waiting {A} c pr ps rt e : waiting_checkpoint c pr ps → sn_cluster_id (rt_snapshot rt) = Some c →
  wp (restore pr ps ;! @fail A e) (λ res rt' ws, is_ok res = false ∧ still_waiting res rt' ws) rt.
Proof.
  intros [(r & Hr & Hb & Hf) [(l & Hl & Hh) Hv]] Hc. unfold restore. apply wp_bind, wp_bind, wp_gets. cbn [app]. rewrite Hc. cbn [ok_or].
  apply wp_bind, wp_ret. cbn [app]. rewrite Hr. apply wp_bind, wp_ret. cbn [app]. apply wp_bind, wp_modify. cbn [app]. rewrite Hl.
  apply wp_bind, wp_ret. cbn [app]. apply wp_modify. cbn [app]. apply wp_fail. split; [done|]. split; [|by split; [exists l|]].
  split_and!; [done| |done]. cbn. by intros ? [= <-].
Qed.

Lemma persist_waiting outside c pr ps rt : waiting_checkpoint c pr ps → working c rt → waiting rt →
  wp (persist_or_restore outside pr ps) (λ res rt' ws, still_waiting res rt' ws) rt.
Proof.
  intros Hwc Hw (Hh & Hr & Hv). pose proof (wk_cluster _ _ Hw) as Hcl. pose proof (wk_receiver _ _ Hw) as (r & Hrr & Hsr).
  unfold persist_or_restore. apply wp_bind, (wp_the_receiver r); [done|]. cbn [app]. pose proof (receiver_checkpoint_ok r (sv_wire _ _ Hsr)) as Hok.
  destruct (receiver_checkpoint r) as [rc|]; [|done]. apply wp_bind, wp_ret. cbn [app]. apply wp_bind, wp_modify. cbn [app].
  set (rt1 := rt <| rt_snapshot ::= _ |>). apply wp_bind, wp_gets. cbn [app]. pose proof (serializes (rt_snapshot rt1)) as Hser.
  destruct (snapshot_bytes (rt_snapshot rt1)) as [n|]; [|done]. apply wp_bind, wp_ret. cbn [app].
  assert (∀ e, wp (restore pr ps ;! @fail unit e) (λ res rt' ws, still_waiting res rt' ws) rt1) as Hre.
  { intros e. eapply wp_mono; [by apply (restore_waiting c)|]. by intros res rt' ws [_ ?]. }
  case_bool_decide; [apply Hre|]. apply wp_bind, wp_attempt. unfold wp at 1, write_snapshot. destruct (write outside); cbn [app]; [|apply Hre].
  apply wp_ret. split; [done|]. split; [|done]. exists (rt_tombstones rt). cbn. rewrite checkpoint_roundtrip by apply (wk_ledger _ _ Hw). done.
Qed.

(** Inside the call: the rows are as they were, and the deletion still waits for the record. *)
Definition quietly_waiting (c : string) (ps : Snapshot) rt : Prop := quiet c ps rt ∧ waiting rt.

Lemma quietly_bind {A B} c ps (m : Call A) (k : A → Call B) rt (Q : result B RepositoryRuntimeError → Runtime → list Snapshot → Prop) :
  quietly_waiting c ps rt → keeps c m → still m → preserves waiting m → (∀ e rt', quietly_waiting c ps rt' → Q (Err e) rt' []) →
  (∀ a rt', quietly_waiting c ps rt' → wp (k a) Q rt') → wp (bind m k) Q rt.
Proof.
  intros [Hq Hw] Hk Hs Hp He HQ. apply wp_bind. pose proof (quiet_call c ps m rt Hq Hk Hs) as Hm. specialize (Hp rt). unfold wp in *.
  destruct (m rt) as [[[rt' ws] [a|e]]|]; [| |done]; destruct Hm as [Hq' ->].
  - cbn [app]. apply HQ. split; [done|]. by eapply Hp.
  - apply He. split; [done|]. by eapply Hp.
Qed.

Lemma quietly_failed {A} c pr ps rt e : waiting_checkpoint c pr ps → quietly_waiting c ps rt →
  is_ok (@Err A _ e) = false ∧ still_waiting (@Err A _ e) rt [].
Proof.
  intros [_ [(l & Hl & Hh) Hv]] [[_ Hst] Hw]. split; [done|]. split; [done|]. injection Hst as _ Ht. destruct Hw as (_ & _ & Hv').
  split; [|done]. exists l. by rewrite Ht.
Qed.

Lemma waiting_push_gap gap : preserves waiting (push_gap gap).
Proof. apply preserves_modify. intros rt. apply waiting_snapshot. intros sn. by case_bool_decide. Qed.

Lemma refuse_waiting outside c pr ps s expired e rt : waiting_checkpoint c pr ps → quietly_waiting c ps rt →
  wp (refuse_segment outside s expired pr ps e) (λ res rt' ws, is_ok res = false ∧ still_waiting res rt' ws) rt.
Proof.
  intros Hwc Hq. unfold refuse_segment.
  assert (∀ m : Call unit, keeps c m → still m → preserves waiting m →
    wp (m ;! (if records_gap e || expired then persist_or_restore outside pr ps else ret tt) ;! fail (ProtocolFailed e))
      (λ res rt' ws, is_ok res = false ∧ @still_waiting RepositorySyncReceipt res rt' ws) rt) as Hgen.
  { intros m Hk Hst Hp. apply (quietly_bind c ps); [done|done|done|done|intros ? ? ?; by eapply quietly_failed|]. intros _ rt1 Hq1.
    destruct (records_gap e || expired).
    - apply wp_bind. eapply wp_mono; [apply (persist_waiting outside c); [done|apply Hq1|apply Hq1]|].
      intros [[]|e'] rt2 ws Hsw; [apply wp_fail; by split|by split].
    - apply wp_bind, wp_ret. cbn [app]. apply wp_fail. by eapply quietly_failed. }
  destruct e; try (apply Hgen; [apply keeps_ret|apply still_ret|apply preserves_ret]).
  - apply Hgen; [apply keeps_sequence_gap|apply still_sequence_gap|]. unfold record_sequence_gap.
    case_bool_decide; [apply preserves_modify; intros rt1; by apply waiting_snapshot|apply waiting_push_gap].
  - apply Hgen; [apply keeps_record_gap|apply still_push_gap|apply waiting_push_gap].
  - apply Hgen; [apply keeps_record_gap|apply still_push_gap|apply waiting_push_gap].
Qed.

Lemma take_waiting outside c pr ps identity wire now ready local_id availability acceptance gap rt :
  overtaken → Forall (homed_record first) (records (canonical g)) →
  waiting_checkpoint c pr ps → working c rt → held (rt_tombstones rt) →
  wp (take_segment outside (canonical g) identity wire now ready local_id availability pr ps acceptance gap)
    (λ res rt' ws, is_ok res = false ∧ still_waiting res rt' ws) rt.
Proof.
  intros Hx Hh Hwc Hw Hheld. unfold take_segment.
  assert (∃ rt1, wp (match gap with Some gap => record_epoch_rotation_gap gap (opened_at_unix_seconds (canonical g)) | None => ret tt end)
    (λ res rt' ws, res = Ok tt ∧ rt' = rt1 ∧ ws = []) rt ∧ working c rt1 ∧ held (rt_tombstones rt1)) as (rt1 & Hm & Hw1 & Hheld1).
  { destruct gap as [gap|]; [|by exists rt]. pose proof (keeps_push_gap c
      (mkStoredGap (source_node_id (requested gap)) (source_epoch (requested gap)) (stream (requested gap))
        (sat_add u64_max (sequence (requested gap)) 1) u64_max 0 (sat_sub (opened_at_unix_seconds (canonical g)) 1) true) rt Hw) as Hk.
    eexists. split; [split_and!; reflexivity|]. destruct Hk as [Hk _]. split; [exact Hk|]. done. }
  apply wp_bind. eapply wp_mono; [exact Hm|]. intros res rt' ws (-> & -> & ->). cbn [app]. apply wp_bind, wp_attempt.
  pose proof (append_records_keeps c (canonical g) now ready local_id 0 (records (canonical g)) Hh rt1 Hw1) as Hk.
  unfold wp in Hk |- * at 1. unfold append_known_records. destruct (append_records _ _ _ _ _ _ rt1) as [[[rt2 ws2] res]|] eqn:Ha; [|done].
  destruct Hk as [Hw2 ->]. pose proof (append_refuses Hx _ _ _ _ _ _ _ _ _ (proj1 Hx) Hheld1 Ha) as Herr. destruct res as [|e]; [done|]. cbn [app].
  apply (restore_waiting c); [done|]. apply (wk_cluster _ _ Hw2).
Qed.

Lemma deliver_waiting outside c identity wire now ready local_id availability rt :
  overtaken → Forall (homed_record first) (records (canonical g)) → from_wire wire = Ok g → now < until →
  working c rt → waiting rt → saved_waiting (rt_snapshot rt) →
  wp (deliver outside g identity wire now ready local_id availability) (λ res rt' ws, is_ok res = false ∧ still_waiting res rt' ws) rt.
Proof.
  intros Hx Hh Hwire Hn Hw Hwt Hsw. destruct (from_wire_inv _ _ Hwire) as [Hty Hwb].
  assert (is_ok (wire_bytes g) = true) as Hwb' by (by rewrite Hwb).
  pose proof (wk_receiver _ _ Hw) as (r & Hr & Hsr). unfold deliver. apply wp_bind, (wp_the_receiver r); [done|]. cbn [app].
  pose proof (receiver_checkpoint_ok r (sv_wire _ _ Hsr)) as Hok. destruct (receiver_checkpoint r) as [pr|] eqn:Hpr; [|done].
  apply wp_bind, wp_ret. cbn [app]. apply wp_bind, wp_gets. cbn [app]. set (ps := rt_snapshot rt).
  assert (waiting_checkpoint c pr ps) as Hwc.
  { split; [|done]. destruct Hwt as (_ & Hrw & _). destruct (Hrw r Hr) as [Hb Hf]. exists r. split; [|done].
    destruct Hsr as [E1 E2 E3 _ _]. rewrite <-E1, <-E2. by apply checkpoint_restores. }
  assert (∀ e rt', quietly_waiting c ps rt' → is_ok (@Err RepositorySyncReceipt _ e) = false ∧ still_waiting (@Err RepositorySyncReceipt _ e) rt' [])
    as Hfail by (intros; by eapply quietly_failed).
  apply (quietly_bind c ps); [by split|apply keeps_reconcile|apply still_tombstones|apply waiting_reconcile|apply Hfail|]. intros _ rt1 Hq1.
  apply (quietly_bind c ps); [done|apply keeps_expire|apply still_expire|by apply waiting_expire|apply Hfail|]. intros expired rt2 Hq2.
  apply (quietly_bind c ps); [done|apply keeps_advance, (ty_first _ Hty)|apply still_advance|apply waiting_advance|apply Hfail|]. intros _ rt3 [[Hw3 Hst3] Hwt3].
  apply wp_bind. pose proof (quiet_call c ps (accept_segment g identity) rt3 (conj Hw3 Hst3) (keeps_accept c g identity Hty Hwb') (still_accept g identity)) as Ha.
  pose proof (waiting_accept identity rt3) as Hwa. unfold wp in Ha |- * at 1. destruct (accept_segment g identity rt3) as [[[rt4 ws4] res4]|]; [|done].
  destruct Ha as [Hq4 ->]. destruct (Hwa _ _ _ eq_refl Hwt3) as [(e & -> & Hwt4)|(ack & gap & u & -> & Hheld4)]; cbn [app].
  - apply (refuse_waiting outside c); [done|by split].
  - apply (take_waiting outside c); [done|done|done|apply Hq4|done].
Qed.
End Blocked.

Section Retries.
Context `{SyncCrypto, AggregateCodec, SnapshotSize}.

(** One try to deliver the wire of a segment. *)
Record Try : Type := mkTry {
  ty_outside : Outside;
  ty_cluster : string;
  ty_identity : RepositoryNodeIdentity;
  ty_now : N;
  ty_ready : list string;
  ty_local : string
}.
Definition try_deliver (wire : string) (t : Try) : Call RepositorySyncReceipt :=
  receive_wire_from_repository (ty_outside t) (ty_cluster t) (ty_identity t) wire (ty_now t) (ty_ready t) (ty_local t).
Fixpoint retries (wire : string) (tries : list Try) (rt : Runtime)
    : option (Runtime * list (result RepositorySyncReceipt RepositoryRuntimeError)) :=
  match tries with
  | [] => Some (rt, [])
  | t :: tries =>
      match try_deliver wire t rt with
      | None => None
      | Some (rt, _, res) =>
          match retries wire tries rt with
          | None => None
          | Some (rt, answers) => Some (rt, res :: answers)
          end
      end
  end.

(** The repository has the deletion, in memory and on disk, and not the segment. *)
Definition blocked (g : SignedSegment) (key : ReplicaRecordKey) (until : N) (verified : option N) (rt : Runtime) : Prop :=
  ready_to_receive rt ∧ waiting g key until verified rt ∧ saved_waiting key until verified (rt_snapshot rt).

(** Before the deletion ends, and while the repository counts as verified. *)
Definition in_time (until : N) (verified : option N) (t : Try) : Prop :=
  ty_now t < until ∧
  from_option (λ v, requires_rebuild (mkFreshness v TOMBSTONE_HORIZON_SECONDS) (ty_now t)) false verified = false.

Lemma blocked_step g x key until verified wire t rt :
  (∀ sn, is_ok (snapshot_bytes sn) = true) → from_wire wire = Ok g → overtaken g x key →
  Forall (homed_record (first_cursor (canonical g))) (records (canonical g)) → in_time until verified t → blocked g key until verified rt →
  ∃ rt' ws res, try_deliver wire t rt = Some (rt', ws, res) ∧ is_ok res = false ∧ blocked g key until verified rt'.
Proof.
  intros Hser Hwire Hx Hhome [Hn Hfresh] [[Hhl Hfits] [Hwt Hsw]].
  destruct (receive_keeps (ty_outside t) (ty_cluster t) (ty_identity t) wire (ty_now t) (ty_ready t) (ty_local t) rt Hser)
    as (rt' & ws & res & Hrun & Hhl' & _); [intros g' Hg'; by replace g' with g by congruence|by split|].
  exists rt', ws, res. split; [done|].
  assert (wp (try_deliver wire t) (λ res rt' ws, is_ok res = false ∧ still_waiting g key until verified res rt' ws) rt) as Hwp.
  2: { unfold wp, try_deliver in Hwp. rewrite Hrun in Hwp. destruct Hwp as [Herr [Hwt' Hsw']]. split; [done|]. split; [|done]. split; [done|].
       intros r Hr. destruct Hwt' as (_ & Hrw & _). by apply Hrw. }
  unfold try_deliver, receive_wire_from_repository. apply wp_bind.
  destruct Hwt as (Hh & Hrw & Hv). apply rebuild_fresh; [unfold stale; by rewrite Hv|]. cbn [app].
  assert (∀ e rt1 ws, rt_receiver rt1 = rt_receiver rt → rt_tombstones rt1 = rt_tombstones rt → sn_tombstones (rt_snapshot rt1) = sn_tombstones (rt_snapshot rt) →
    sn_last_verified_unix_seconds (rt_snapshot rt1) = verified →
    is_ok (@Err RepositorySyncReceipt _ e) = false ∧ still_waiting g key until verified (@Err RepositorySyncReceipt _ e) rt1 ws) as Herr.
  { intros e rt1 ws1 E1 E2 E3 E4. split; [done|]. unfold still_waiting, waiting, saved_waiting. rewrite E1, E2, E3, E4. split; [done|].
    split; [|done]. apply Hsw. }
  apply wp_bind. unfold refresh_capacity. apply wp_bind, wp_gets. cbn [app]. apply wp_bind, wp_answer; [|intros; by apply Herr].
  intros used _. cbn [app]. apply wp_bind, wp_answer; [|intros; by apply Herr]. intros available _. cbn [app]. apply wp_bind, wp_gets. cbn [app].
  apply wp_bind, wp_answer; [|intros; by apply Herr]. intros capacity _. cbn [app]. apply wp_snapshot. set (rt2 := rt <| rt_snapshot ::= _ |>).
  apply wp_bind, wp_gets. cbn [app]. destruct (allows_history_writes _); cbn [negb]; [|by apply wp_fail, Herr].
  rewrite Hwire. apply wp_bind, wp_ret. cbn [app]. apply wp_bind. unfold bind_cluster. apply wp_bind, wp_gets. cbn [app].
  set (availability := history_write_availability _). clearbody availability.
  assert (∀ c rt3, sn_cluster_id (rt_snapshot rt3) = Some c → rt_receiver rt3 = rt_receiver rt → rt_tombstones rt3 = rt_tombstones rt →
    standing (rt_snapshot rt3) = standing (rt_snapshot rt) → sn_records (rt_snapshot rt3) = sn_records (rt_snapshot rt) →
    sn_last_verified_unix_seconds (rt_snapshot rt3) = verified →
    (∀ r, rt_receiver rt = Some r → sound_receiver c r) →
    wp (ensure_receiver ;! deliver (ty_outside t) g (ty_identity t) wire (ty_now t) (ty_ready t) (ty_local t) availability)
      (λ res rt' ws, is_ok res = false ∧ still_waiting g key until verified res rt' ws) rt3) as Hrest.
  2: { destruct (sn_cluster_id (rt_snapshot rt2)) as [existing|] eqn:Hcl.
       - case_bool_decide as Hne; [by apply wp_fail, Herr|]. apply wp_ret. cbn [app]. apply (Hrest existing); [done..|].
         intros r Hr. destruct (hl_receiver _ Hhl r Hr) as (c & Hc & Hsr). cbn in Hcl. congruence.
       - apply wp_snapshot. cbn [app]. apply (Hrest (ty_cluster t)); [done..|]. intros r Hr. destruct (hl_receiver _ Hhl r Hr) as (c & Hc & _).
         cbn in Hcl. congruence. }
  clear rt2. intros c rt3 Hcl3 E1 E2 E3 E3' E4 Hsr3. injection E3 as _ E3.
  assert (∀ rt4 r, rt_receiver rt4 = Some r → sound_receiver c r → behind g r → fits_checkpoint r → rt_tombstones rt4 = rt_tombstones rt →
    rt_snapshot rt4 = rt_snapshot rt3 →
    wp (deliver (ty_outside t) g (ty_identity t) wire (ty_now t) (ty_ready t) (ty_local t) availability)
      (λ res rt' ws, is_ok res = false ∧ still_waiting g key until verified res rt' ws) rt4) as Hdel.
  { intros rt4 r Hr4 Hsr4 Hb4 Hf4 Ht4 Hs4. apply (deliver_waiting g x key until verified Hser (ty_outside t) c); try done.
    - split; [by rewrite Hs4|by eauto|rewrite Ht4, Hs4, E3'; apply (hl_rows _ Hhl)|rewrite Ht4; apply (hl_ledger _ Hhl)].
    - split_and!; [by rewrite Ht4| |by rewrite Hs4]. intros r'. rewrite Hr4. by intros [= <-].
    - unfold saved_waiting. rewrite Hs4, E3, E4. split; [|done]. apply Hsw. }
  apply wp_bind. unfold ensure_receiver. apply wp_bind, wp_gets. cbn [app]. rewrite E1. destruct (rt_receiver rt) as [r|] eqn:Hr.
  - apply wp_ret. cbn [app]. destruct (Hrw r eq_refl) as [Hb Hf]. by apply (Hdel rt3 r); [|apply Hsr3|..].
  - apply wp_bind, wp_gets. cbn [app]. rewrite Hcl3. cbn [ok_or]. apply wp_bind, wp_ret. cbn [app]. apply wp_modify. cbn [app].
    apply (Hdel _ (for_cluster c known_schemas)); [done|apply sound_receiver_new| |apply fits_new|done|done]. intros p. cbn. by rewrite lookup_empty.
Qed.
End Retries.

(** C29: A deletion that overtakes a record blocks the stream of the record.  Once a repository
    has the deletion (they are offered before everything else) and has not yet received a
    segment with a live record the deletion covers, every delivery of that segment is refused
    until the deletion ends, whatever the node ids, the time, the free space and the outcome of
    writes; the source keeps a refused segment at the front of its queue. *)
Theorem overtaken_segment_refused `{SyncCrypto, AggregateCodec, SnapshotSize} g x key until verified wire tries rt :
  (∀ sn, is_ok (snapshot_bytes sn) = true) → from_wire wire = Ok g → overtaken g x key →
  Forall (homed_record (first_cursor (canonical g))) (records (canonical g)) → Forall (in_time until verified) tries →
  blocked g key until verified rt →
  ∃ rt' answers, retries wire tries rt = Some (rt', answers) ∧ length answers = length tries ∧
    Forall (λ res, is_ok res = false) answers ∧ blocked g key until verified rt'.
Proof.
  intros Hser Hwire Hx Hhome Htries. revert rt. induction Htries as [|t tries Ht _ IH]; intros rt Hb; cbn [retries].
  - exists rt, []. split_and!; [done|done|by apply Forall_nil|done].
  - destruct (blocked_step g x key until verified wire t rt Hser Hwire Hx Hhome Ht Hb) as (rt1 & ws & res & -> & Herr & Hb1).
    destruct (IH rt1 Hb1) as (rt2 & answers & -> & Hlen & Hall & Hb2). exists rt2, (res :: answers). split_and!; [done|cbn; by rewrite Hlen|by constructor|done].
Qed.

(** ** One stream, from the queue to a receiver *)

Section Delivery.
Context `{SyncCrypto, SnapshotSize}.
Context (cluster : string) (identity : RepositoryNodeIdentity) (signing_key : SigningKey) (stream_id : string).
Implicit Types (rt : Runtime) (r : SegmentReceiver) (g : SignedSegment) (queued : list SignedSegment).

(** The chain of a stream: consecutive sequences, each segment naming the hash of the one before. *)
Inductive chain (epoch : N) : option string → N → list SignedSegment → option string → N → Prop :=
  | chain_nil prev next : chain epoch prev next [] prev next
  | chain_cons prev next g queued hash prev' next' :
      seg_key g = (ri_node_id identity, stream_id) → seg_epoch g = epoch → seg_first g = next → previous_segment_hash (canonical g) = prev →
      segment_hash g = Ok hash → next ≤ seg_last g → seg_last g + 1 ≤ u64_max →
      chain epoch (Some hash) (seg_last g + 1) queued prev' next' →
      chain epoch prev next (g :: queued) prev' next'.

Lemma chain_snoc epoch prev next queued prev' next' g hash :
  chain epoch prev next queued prev' next' →
  seg_key g = (ri_node_id identity, stream_id) → seg_epoch g = epoch → seg_first g = next' → previous_segment_hash (canonical g) = prev' →
  segment_hash g = Ok hash → next' ≤ seg_last g → seg_last g + 1 ≤ u64_max →
  chain epoch prev next (queued ++ [g]) (Some hash) (seg_last g + 1).
Proof. induction 1; intros; cbn; econstructor; eauto. constructor. Qed.

Lemma chain_app epoch prev next k l prev' next' :
  chain epoch prev next (k ++ l) prev' next' → ∃ mid next_mid, chain epoch prev next k mid next_mid ∧ chain epoch mid next_mid l prev' next'.
Proof.
  revert prev next. induction k as [|g k IH]; intros prev next Hc; cbn in Hc; [exists prev, next; split; [constructor|done]|].
  inversion_clear Hc as [|? ? ? ? ? ? ? E1 E2 E3 E4 E5 E6 E7 Hrest]. destruct (IH _ _ Hrest) as (mid & nm & Hk & Hl). exists mid, nm.
  split; [|done]. by econstructor.
Qed.

(** The last segment of a chain is what the next one follows. *)
Lemma chain_end epoch queued g prev' next' : chain epoch None 0 (queued ++ [g]) prev' next' →
  ∃ hash, segment_hash g = Ok hash ∧ prev' = Some hash ∧ next' = seg_last g + 1.
Proof.
  intros (mid & nm & _ & Hg)%chain_app. inversion_clear Hg as [|? ? ? ? ? ? ? E1 E2 E3 E4 E5 E6 E7 Hrest]. inversion_clear Hrest. eauto.
Qed.

(** What the receiver knows of the stream after the first segments of the queue. *)
Definition at_segment (epoch : N) (accepted : list SignedSegment) r : Prop :=
  match last accepted with
  | None => rv_streams r !! (ri_node_id identity, stream_id) = None
  | Some g => ∃ p hash, rv_streams r !! (ri_node_id identity, stream_id) = Some p ∧ sp_epoch p = epoch ∧
      sp_last_sequence p = seg_last g ∧ segment_hash g = Ok hash ∧ sp_last_segment_hash p = hash ∧
      mkHashRange (seg_first g) (seg_last g) hash ∈ sp_recent_segments p
  end.

(** The next segment of the chain is the one the receiver expects. *)
Lemma next_position epoch accepted g queued prev' next' r hash :
  chain epoch None 0 (accepted ++ g :: queued) prev' next' → at_segment epoch accepted r →
  stream_position (rv_streams r !! seg_key g) (canonical g) hash = Next None false.
Proof.
  intros (mid & nm & Ha & Hg)%chain_app Hat. inversion_clear Hg as [|? ? ? ? ? ? ? E1 E2 E3 E4 E5 E6 E7 _]. rewrite E1. unfold at_segment in Hat.
  destruct (last accepted) as [a|] eqn:Hl.
  - destruct Hat as (p & hash' & -> & Hep & Hls & Hh & Hph & _). apply last_Some in Hl as (init & ->).
    destruct (chain_end _ _ _ _ _ Ha) as (hash'' & Hh' & -> & ->). unfold stream_position. unfold seg_epoch in E2. unfold seg_first in E3.
    rewrite Hep, Hls, E2, E3. rewrite !bool_decide_false by lia.
    assert (checked_add u64_max (seg_last a) 1 = Some (seg_last a + 1)) as ->.
    { unfold checked_add. rewrite decide_True; [done|]. lia. }
    cbn [ok_or or_refused]. rewrite (bool_decide_false (_ ≠ _)) by (intros Hn; by apply Hn). rewrite E4.
    rewrite bool_decide_false; [done|]. intros Hn. apply Hn. congruence.
  - apply last_None in Hl as ->. rewrite Hat. assert (mid = None) as Hmid by (by inversion Ha). unfold stream_position. rewrite E4, Hmid. by rewrite bool_decide_false by (by intros []).
Qed.

(** *** Queueing *)

(** The queue of the stream, and the epoch of the source. *)
Definition queue_is (state : LocalSourceStreamState) (epoch : N) rt : Prop :=
  the_stream (source_of rt) stream_id = state ∧ ls_epoch (source_of rt) = epoch.

Lemma mark_deletions_queue state epoch next now ready offset xs :
  preserves (queue_is state epoch) (mark_deletions identity next now ready offset xs).
Proof.
  revert offset. induction xs as [|x xs IH]; intros offset; cbn [mark_deletions]; [apply preserves_ret|].
  apply preserves_bind; [|intros _; apply IH]. destruct (is_tombstone x); [|apply preserves_ret].
  apply preserves_bind; [apply preserves_answer|]. intros seq. apply preserves_bind; [apply preserves_gets|]. intros e.
  repeat (apply preserves_bind; [apply preserves_answer|intros ?]). apply preserves_bind; [by apply preserves_tombstones|]. intros _.
  by apply preserves_modify.
Qed.

Lemma put_stream_queue state state' epoch rt rt' ws res : put_stream stream_id state' rt = Some (rt', ws, res) → queue_is state epoch rt →
  res = Ok tt ∧ queue_is state' epoch rt'.
Proof.
  intros [= <- _ <-] [_ He]. split; [done|]. split; [|done]. unfold the_stream, source_of. cbn. by rewrite lookup_insert_eq.
Qed.

(** A queue after its call: one more segment that follows the last, or as it was. *)
Lemma append_segment_spec state epoch now xs rt rt' ws res :
  (∀ h, ss_previous_segment_hash state = Some h → String.length h = 32%nat) →
  append_segment cluster identity signing_key now stream_id xs (N.of_nat (length xs)) rt = Some (rt', ws, res) → queue_is state epoch rt →
  (res = Ok tt ∧ ∃ g hash stored, from_wire (sg_wire stored) = Ok g ∧
     seg_key g = (ri_node_id identity, stream_id) ∧ seg_epoch g = epoch ∧ seg_first g = ss_next_sequence state ∧
     previous_segment_hash (canonical g) = ss_previous_segment_hash state ∧ segment_hash g = Ok hash ∧
     ss_next_sequence state ≤ seg_last g ∧ seg_last g + 1 ≤ u64_max ∧
     queue_is (mkSourceStream (seg_last g + 1) (Some hash) (ss_pending state ++ [stored]) (ss_backpressured_records state)) epoch rt') ∨
  (is_ok res = false ∧ queue_is state epoch rt').
Proof.
  intros Hprev Hrun Hq. pose proof Hq as [Hs He]. unfold append_segment, bind at 1 2, gets in Hrun. rewrite Hs, He in Hrun.
  unfold bind, answer in Hrun.
  destruct (sync_cursor_new _ _ _ _) as [first|] eqn:Hf; [|right; injection Hrun as <- _ <-; done]. cbn in Hrun.
  destruct (segment_new _ _ _ _ _ _) as [seg|] eqn:Hseg; [|right; injection Hrun as <- _ <-; done]. cbn in Hrun.
  destruct (sign_segment seg signing_key) as [signed|] eqn:Hsign; [|right; injection Hrun as <- _ <-; done]. cbn in Hrun.
  destruct (wire_bytes signed) as [wire|] eqn:Hw; [|right; injection Hrun as <- _ <-; done]. cbn in Hrun.
  destruct (ok_or _ _) as [next|] eqn:Hn; [|right; injection Hrun as <- _ <-; done]. cbn in Hrun.
  apply cursor_new_ok in Hf as [-> Hfok]. pose proof (segment_new_ok _ _ _ _ _ _ _ Hseg) as (Hv & Hlast & Hfirst & Hrec & Hp & _ & Hrh).
  unfold sign_segment, canonical_bytes in Hsign. rewrite Hv in Hsign. cbn in Hsign. injection Hsign as <-.
  unfold segment_hash, canonical_bytes in Hrun. cbn [canonical] in Hrun. rewrite Hv in Hrun. cbn [rbind] in Hrun. cbn in Hrun.
  injection Hrun as <- _ <-. left. split; [done|]. set (g := mkSigned seg _) in *.
  exists g, (sha256 (encode_to_vec (proto_without_signature seg) +:+ signature g)), (mkStoredSegment (hex_encode (sha256 wire)) now identity wire).
  assert (from_wire wire = Ok g) as Hfw.
  { apply from_wire_bytes; [|done|done]. split; cbn; [by rewrite Hfirst|done| | |apply ed25519_length]; [rewrite Hrh; apply sha256_length|].
    rewrite Hp. apply Hprev. }
  assert (seg_last g + 1 = next ∧ ss_next_sequence state ≤ seg_last g) as [Hnext Hle].
  { pose proof (validate_cursors _ Hv) as (_ & _ & Hle). unfold seg_last. cbn. rewrite Hfirst in Hle. cbn in Hle. split; [|done].
    apply ok_or_ok_inv in Hn. unfold checked_add in Hn. case_decide; [|done]. injection Hn as <-.
    unfold segment_validate in Hv. destruct_ok. cbv zeta in Hv. destruct_ok.
    repeat match goal with Hb : _ || _ = false |- _ => apply orb_false_iff in Hb as [Hb ?] end.
    match goal with Hb : bool_decide (checked_add _ _ _ ≠ _) = false |- _ => apply bool_decide_eq_false, dec_stable in Hb; rename Hb into Hx end.
    rewrite Hfirst, Hrec in Hx. cbn in Hx. unfold checked_add, sat_sub in Hx. case_decide; [|done]. injection Hx as Hx.
    match goal with Hb : bool_decide (records seg = []) = false |- _ => apply bool_decide_eq_false in Hb; rewrite Hrec in Hb end.
    destruct xs; [done|]. cbn [length] in *. lia. }
  split_and!; [done| | | |done| |done| |].
  - unfold seg_key. cbn. by rewrite Hfirst.
  - unfold seg_epoch. cbn. by rewrite Hfirst.
  - unfold seg_first. cbn. by rewrite Hfirst.
  - unfold segment_hash, canonical_bytes, g. cbn [canonical]. rewrite Hv. reflexivity.
  - apply ok_or_ok_inv in Hn. unfold checked_add in Hn. case_decide; [|done]. injection Hn as <-. lia.
  - rewrite Hnext. split; [|done]. unfold the_stream, source_of. cbn. rewrite lookup_insert_eq. by destruct state.
Qed.

Lemma queue_stream_spec state epoch now ready xs rt rt' ws res :
  (∀ h, ss_previous_segment_hash state = Some h → String.length h = 32%nat) → (length (ss_pending state) < MAX_PENDING_SEGMENTS_PER_STREAM)%nat →
  queue_stream cluster identity signing_key now ready (stream_id, xs) rt = Some (rt', ws, res) → queue_is state epoch rt →
  (∃ g hash stored, from_wire (sg_wire stored) = Ok g ∧
     seg_key g = (ri_node_id identity, stream_id) ∧ seg_epoch g = epoch ∧ seg_first g = ss_next_sequence state ∧
     previous_segment_hash (canonical g) = ss_previous_segment_hash state ∧ segment_hash g = Ok hash ∧
     ss_next_sequence state ≤ seg_last g ∧ seg_last g + 1 ≤ u64_max ∧
     queue_is (mkSourceStream (seg_last g + 1) (Some hash) (ss_pending state ++ [stored]) (ss_backpressured_records state)) epoch rt') ∨
  queue_is state epoch rt'.
Proof.
  intros Hprev Hroom Hrun Hq. pose proof Hq as [Hs He]. unfold queue_stream, bind at 1, gets in Hrun. rewrite Hs in Hrun.
  rewrite bool_decide_false in Hrun by lia. unfold bind at 1 in Hrun.
  destruct (put_stream stream_id state rt) as [[[rt1 ws1] res1]|] eqn:H1'; [|done].
  destruct (put_stream_queue _ _ _ _ _ _ _ H1' Hq) as [-> Hq1]. unfold bind at 1 in Hrun.
  destruct (mark_deletions _ _ _ _ _ _ rt1) as [[[rt2 ws2] [[]|e]]|] eqn:H2'; [| |done].
  - pose proof (mark_deletions_queue _ _ _ _ _ _ _ _ _ _ _ H2' Hq1) as Hq2.
    destruct (append_segment _ _ _ _ _ _ _ rt2) as [[[rt3 ws3] res3]|] eqn:H3'; [|done]. injection Hrun as <- _ _.
    destruct (append_segment_spec _ _ _ _ _ _ _ _ Hprev H3' Hq2) as [[_ Hg]|[_ Hq3]]; [by left|by right].
  - injection Hrun as <- _ _. right. by eapply mark_deletions_queue.
Qed.

(** *** The system *)

(** A source, a receiver, and what was queued and accepted so far, as it went over the wire. *)
Record System : Type := mkSystem {
  sy_source : Runtime;
  sy_receiver : SegmentReceiver;
  sy_queued : list string;
  sy_accepted : list string
}.

Definition pending_of rt : list StoredSegment := ss_pending (the_stream (source_of rt) stream_id).

(** Records are queued; or the front of the queue is delivered, and the source learns of the
    answer or does not. *)
Inductive DeliveryEvent : Type :=
  | Enqueue (xs : list SyncRecord) (now : N) (ready : list string)
  | Offer (confirmed : bool).

(** A run stops at a queue without room: what is dropped then is declared as a gap. *)
Definition system_step (sy : System) (ev : DeliveryEvent) : option System :=
  match ev with
  | Enqueue xs now ready =>
      let pending := pending_of (sy_source sy) in
      if bool_decide (length pending < MAX_PENDING_SEGMENTS_PER_STREAM)%nat then
        match queue_stream cluster identity signing_key now ready (stream_id, xs) (sy_source sy) with
        | None => None
        | Some (rt, _, _) =>
            Some (mkSystem rt (sy_receiver sy) (sy_queued sy ++ map sg_wire (drop (length pending) (pending_of rt))) (sy_accepted sy))
        end
      else None
  | Offer confirmed =>
      match pending_of (sy_source sy) with
      | [] => Some sy
      | front :: _ =>
          match from_wire (sg_wire front) with
          | Err _ => Some sy
          | Ok g =>
              match accept (sy_receiver sy) g identity with
              | None => None
              | Some (r, Err _) => Some (mkSystem (sy_source sy) r (sy_queued sy) (sy_accepted sy))
              | Some (r, Ok acceptance) =>
                  let source := sy_source sy in
                  Some (mkSystem
                    (if confirmed then source <| rt_snapshot ::= λ sn, sn <| sn_local_source ::= λ l, (remove_local_source_pending_segment (sg_wire front) l).1 |> |>
                     else source)
                    r (sy_queued sy) (sy_accepted sy ++ match acceptance with Accepted _ _ _ => [sg_wire front] | Duplicate _ => [] end))
              end
          end
      end
  end.
Fixpoint system_run (sy : System) (evs : list DeliveryEvent) : option System :=
  match evs with
  | [] => Some sy
  | ev :: evs => match system_step sy ev with Some sy => system_run sy evs | None => None end
  end.

(** [confirmed] segments have left the queue; the receiver has those, and perhaps the front. *)
Record in_order (epoch : N) (sy : System) (segments : list SignedSegment) (confirmed : nat) (received : nat) : Prop := {
  io_segments : Forall2 (λ wire g, from_wire wire = Ok g) (sy_queued sy) segments;
  io_queue : ∃ state, queue_is state epoch (sy_source sy) ∧
    chain epoch None 0 segments (ss_previous_segment_hash state) (ss_next_sequence state) ∧
    (∀ h, ss_previous_segment_hash state = Some h → String.length h = 32%nat) ∧
    map sg_wire (ss_pending state) = drop confirmed (sy_queued sy);
  io_confirmed : (confirmed ≤ length (sy_queued sy))%nat;
  io_received : (confirmed ≤ received ≤ S confirmed)%nat ∧ (received ≤ length (sy_queued sy))%nat;
  io_accepted : sy_accepted sy = take received (sy_queued sy);
  io_receiver : at_segment epoch (take received segments) (sy_receiver sy)
}.

Lemma segment_hash_length g hash : segment_hash g = Ok hash → String.length hash = 32%nat.
Proof. unfold segment_hash. intros Hh. destruct_ok. apply sha256_length. Qed.

Lemma at_segment_streams epoch accepted r r' : rv_streams r' = rv_streams r → at_segment epoch accepted r → at_segment epoch accepted r'.
Proof. unfold at_segment. by intros ->. Qed.

Lemma enqueue_in_order epoch sy segments a n xs now ready sy' :
  in_order epoch sy segments a n → system_step sy (Enqueue xs now ready) = Some sy' → ∃ segments', in_order epoch sy' segments' a n.
Proof.
  intros [Hsegs (state & Hq & Hchain & Hlen & Hpend) Hca [Hr1 Hr2] Hacc Hrec]. pose proof (proj1 Hq) as Hst. cbn [system_step].
  assert (pending_of (sy_source sy) = ss_pending state) as -> by (unfold pending_of; by rewrite Hst). case_bool_decide as Hroom; [|done].
  destruct (queue_stream _ _ _ _ _ _ _) as [[[rt' ws] res]|] eqn:Hrun; [|done]. intros [= <-].
  destruct (queue_stream_spec _ _ _ _ _ _ _ _ _ Hlen Hroom Hrun Hq) as [(g & hash & stored & Hw & E1 & E2 & E3 & E4 & E5 & E6 & E7 & Hq')|Hq'];
    pose proof (proj1 Hq') as Hst'; unfold pending_of; rewrite Hst'.
  - cbn [ss_pending]. rewrite drop_app_length. exists (segments ++ [g]). pose proof (Forall2_length _ _ _ Hsegs) as Hl. split; cbn.
    + apply Forall2_app; [done|]. by repeat constructor.
    + eexists. split; [exact Hq'|]. cbn. split_and!; [by eapply chain_snoc|intros h [= <-]; by eapply segment_hash_length|].
      rewrite map_app, Hpend, drop_app_le by done. done.
    + rewrite length_app. lia.
    + rewrite length_app. lia.
    + by rewrite take_app_le.
    + by rewrite take_app_le by lia.
  - rewrite drop_all. cbn. rewrite app_nil_r. exists segments. split; [done|by exists state|done|done|done|done].
Qed.

(** A delivery that only repeats what is known is not taken again. *)
Lemma duplicate_position r g r' ack : accept r g identity = Some (r', Ok (Duplicate ack)) →
  ∃ hash w, stream_position (rv_streams r !! seg_key g) (canonical g) hash = Known w.
Proof.
  unfold accept. fold (seg_key g). destruct (verify_identity g identity); [|done]. destruct (bool_decide _); [done|].
  assert (match segment_hash g with
      | Ok hash => Some match stream_position (rv_streams r !! seg_key g) (canonical g) hash with
                        | Refused e => (r, Err e) | Known w => (r, Ok (Duplicate w))
                        | Fork n => (r <| rv_quarantined_streams ::= <[seg_key g := n]> |>, Err (ForkDetected n))
                        | Next gap rot => take_records r g hash gap rot end
      | Err e => Some (r, Err e) end = Some (r', Ok (Duplicate ack)) → ∃ hash w, stream_position (rv_streams r !! seg_key g) (canonical g) hash = Known w) as Hres.
  { destruct (segment_hash g) as [hash|]; [|done]. destruct (stream_position _ _ hash) as [gap rot|w|n|e] eqn:Hp; [|by eauto|done|done].
    unfold take_records. destruct (_ && _); [done|]. by destruct (existsb _ _). }
  destruct (rv_quarantined_streams r !! seg_key g); [|exact Hres]. destruct (rv_streams r !! seg_key g) as [q|] eqn:Hq; [|done].
  destruct (bool_decide (source_epoch _ = _)); [done|exact Hres].
Qed.

Lemma chain_lookup epoch prev next queued prev' next' a g : chain epoch prev next queued prev' next' → queued !! a = Some g →
  seg_key g = (ri_node_id identity, stream_id) ∧ seg_epoch g = epoch ∧ seg_first g ≤ seg_last g.
Proof.
  intros Hc. revert a. induction Hc as [|prev next h queued hash prev' next' E1 E2 E3 E4 E5 E6 E7 Hc IH]; intros a; [done|].
  destruct a as [|a]; cbn; [intros [= <-]; split_and!; [done|done|lia]|apply IH].
Qed.

(** The receiver's answer to the front of the queue. *)
Lemma offer_answer epoch sy segments a n g r' answer' :
  in_order epoch sy segments a n → segments !! a = Some g → accept (sy_receiver sy) g identity = Some (r', answer') →
  (n = a ∧ (∃ ack gap unknown, answer' = Ok (Accepted ack gap unknown)) ∧ at_segment epoch (take (S a) segments) r') ∨
  (rv_streams r' = rv_streams (sy_receiver sy) ∧
   match answer' with Ok (Accepted _ _ _) => False | Ok (Duplicate _) => n = S a | Err _ => True end).
Proof.
  intros [Hsegs (state & _ & Hchain & _) _ [Hr1 _] _ Hat] Hg Ha.
  destruct (chain_lookup _ _ _ _ _ _ _ _ Hchain Hg) as (Hkey & Hep & Hle).
  assert (n = a → ∀ hash, stream_position (rv_streams (sy_receiver sy) !! seg_key g) (canonical g) hash = Next None false) as Hnext.
  { intros -> hash. eapply (next_position epoch (take a segments) g (drop (S a) segments)); [|done].
    rewrite take_drop_middle by done. exact Hchain. }
  assert (n = S a → ∀ hash gap rot, stream_position (rv_streams (sy_receiver sy) !! seg_key g) (canonical g) hash ≠ Next gap rot) as Hold.
  { intros -> hash gap rot Hpos. rewrite (take_S_r _ _ _ Hg) in Hat. unfold at_segment in Hat. rewrite last_snoc in Hat.
    destruct Hat as (p & hash' & Hp & Hpe & Hpl & _). rewrite Hkey, Hp in Hpos. unfold seg_epoch, seg_first in *.
    apply position_next in Hpos as [(_ & Hx & _)|(_ & _ & Hx & _)]; lia. }
  assert (n = a ∨ n = S a) as Hn by lia. pose proof Ha as Ha'.
  apply accept_inv in Ha as [(ack & gap & u & hash & rot & -> & _ & Hh & Hpos & Ht)|[Hno Hleft]].
  - destruct Hn as [Hn|Hn]; [|by destruct (Hold Hn hash gap rot)]. left. split_and!; [done|by eauto|].
    apply take_records_inv in Ht as ((p & Hst & Hpe & Hpl & Hph & Hin) & _). unfold at_segment. rewrite (take_S_r _ _ _ Hg), last_snoc.
    exists p, hash. rewrite Hst, Hkey, lookup_insert_eq. split_and!; [done|by rewrite Hpe|done|done|done|done].
  - right. assert (rv_streams r' = rv_streams (sy_receiver sy)) as Hstreams by (by destruct Hleft as [-> |(p & m & _ & _ & ->)]).
    split; [done|]. destruct answer' as [[ack gap u|ack]|e]; [by eapply Hno| |done]. destruct Hn as [Hn|Hn]; [|done].
    destruct (duplicate_position _ _ _ _ Ha') as (hash & w & Hk). by rewrite (Hnext Hn hash) in Hk.
Qed.

Lemma offer_in_order epoch sy segments a n confirmed sy' :
  in_order epoch sy segments a n → system_step sy (Offer confirmed) = Some sy' → ∃ a' n', in_order epoch sy' segments a' n'.
Proof.
  intros Hio Hstep. pose proof Hio as [Hsegs (state & Hq & Hchain & Hlen & Hpend) Hca [Hr1 Hr2] Hacc Hrec]. pose proof Hq as [Hst Hep].
  cbn [system_step] in Hstep. unfold pending_of in Hstep. rewrite Hst in Hstep.
  destruct (ss_pending state) as [|front rest] eqn:Hfr; [injection Hstep as <-; by exists a, n|]. cbn in Hpend.
  assert (sy_queued sy !! a = Some (sg_wire front)) as Hqa by (rewrite <-(Nat.add_0_r a), <-lookup_drop, <-Hpend; done).
  destruct (Forall2_lookup_l _ _ _ _ _ Hsegs Hqa) as (g & Hg & Hw). rewrite Hw in Hstep.
  destruct (accept (sy_receiver sy) g identity) as [[r' answer']|] eqn:Ha; [|done].
  assert (a < length (sy_queued sy))%nat as Hlt by (by apply lookup_lt_Some in Hqa).
  assert (map sg_wire rest = drop (S a) (sy_queued sy)) as Hrest.
  { rewrite (drop_S _ _ _ Hqa) in Hpend. by injection Hpend. }
  assert (∀ source : Runtime, source = sy_source sy →
    queue_is (state <| ss_pending := rest |>) epoch
      (source <| rt_snapshot ::= λ sn, sn <| sn_local_source ::= λ l, (remove_local_source_pending_segment (sg_wire front) l).1 |> |>)) as Hpop.
  { intros source ->. split; [|done]. unfold the_stream, source_of, remove_local_source_pending_segment in *. cbn. rewrite lookup_fmap.
    destruct (ls_streams (sn_local_source (rt_snapshot (sy_source sy))) !! stream_id) as [st|]; cbn in Hst |- *; [|by subst state].
    subst st. unfold pop_delivered. rewrite Hfr. by rewrite bool_decide_true. }
  destruct (offer_answer _ _ _ _ _ _ _ _ Hio Hg Ha) as [(-> & (ack & gap & u & ->) & Hat)|[Hstreams Hcase]].
  - injection Hstep as <-. assert (sy_accepted sy ++ [sg_wire front] = take (S a) (sy_queued sy)) as Hlog by (by rewrite (take_S_r _ _ _ Hqa), Hacc).
    destruct confirmed; [exists (S a), (S a)|exists a, (S a)]; split; cbn; [done| |lia|lia|done|done|done| |lia|lia|done|done].
    + exists (state <| ss_pending := rest |>). split; [by apply Hpop|]. by split_and!.
    + exists state. split; [done|]. split_and!; [done|done|]. by rewrite Hfr.
  - assert (at_segment epoch (take n segments) r') as Hat by (by eapply at_segment_streams).
    destruct answer' as [[ack gap u|ack]|e]; [done| |]; injection Hstep as <-.
    + rewrite app_nil_r. destruct confirmed; [exists (S a), n|exists a, n]; split; cbn; [done| |lia|lia|done|done|done| |lia|lia|done|done].
      * exists (state <| ss_pending := rest |>). split; [by apply Hpop|]. by split_and!.
      * exists state. split; [done|]. split_and!; [done|done|]. by rewrite Hfr.
    + exists a, n. split; cbn; [done| |lia|lia|done|done]. exists state. split; [done|]. split_and!; [done|done|]. by rewrite Hfr.
Qed.

Lemma run_in_order epoch evs sy segments a n sy' :
  in_order epoch sy segments a n → system_run sy evs = Some sy' → ∃ segments' a' n', in_order epoch sy' segments' a' n'.
Proof.
  revert sy segments a n. induction evs as [|ev evs IH]; intros sy segments a n Hio; cbn [system_run]; [intros [= <-]; by eauto|].
  destruct (system_step sy ev) as [sy1|] eqn:Hstep; [|done]. intros Hrun. destruct ev as [xs now ready|confirmed].
  - destruct (enqueue_in_order _ _ _ _ _ _ _ _ _ Hio Hstep) as (segments1 & Hio1). by eapply IH.
  - destruct (offer_in_order _ _ _ _ _ _ _ Hio Hstep) as (a1 & n1 & Hio1). by eapply IH.
Qed.

(** *** Runs go on *)

(** Queueing does not panic. *)
Definition returns {A} (m : Call A) : Prop := ∀ rt, is_Some (m rt).
Lemma returns_bind {A B} (m : Call A) (k : A → Call B) : returns m → (∀ a, returns (k a)) → returns (bind m k).
Proof.
  intros Hm Hk rt. unfold bind. destruct (Hm rt) as [[[rt' ws] [a|e]] ->]; [|by eexists]. by destruct (Hk a rt') as [[[rt'' ws'] res] ->].
Qed.
Lemma returns_answer {A E} (f : E → RepositoryRuntimeError) (x : result A E) : returns (answer f x).
Proof. intros rt. by destruct x; eexists. Qed.
Lemma returns_queue_stream now ready batch : returns (queue_stream cluster identity signing_key now ready batch).
Proof.
  assert (∀ A (f : Runtime → A), returns (gets f)) as Hg by (intros A f rt; by eexists).
  assert (∀ f, returns (on_source f)) as Ho by (intros f rt; by eexists).
  assert (∀ f, returns (with_tombstones f)) as Ht.
  { intros f. apply returns_bind; [done|]. intros l. apply returns_bind; [apply returns_answer|]. intros l' rt. by eexists. }
  assert (∀ next xs offset, returns (mark_deletions identity next now ready offset xs)) as Hm.
  { intros next xs. induction xs as [|x xs IH]; intros offset; cbn [mark_deletions]; [intros rt; by eexists|].
    apply returns_bind; [|done]. destruct (is_tombstone x); [|intros rt; by eexists].
    repeat (apply returns_bind; [done || apply returns_answer|intros ?]). done. }
  destruct batch as [st xs]. unfold queue_stream. apply returns_bind; [done|]. intros state. apply returns_bind; [apply Ho|]. intros _. destruct (bool_decide _).
  - unfold backpressure_stream. repeat (apply returns_bind; [apply Ho || done || apply returns_answer|intros ?]). apply Ho.
  - apply returns_bind; [done|]. intros _. unfold append_segment.
    repeat (apply returns_bind; [apply Ho || done || apply returns_answer|intros ?]). apply Ho.
Qed.

(** Records are queued on a stream that has no room. *)
Definition no_room (ev : DeliveryEvent) (sy : System) : Prop :=
  match ev with Enqueue _ _ _ => (MAX_PENDING_SEGMENTS_PER_STREAM ≤ length (pending_of (sy_source sy)))%nat | Offer _ => False end.

Lemma system_step_returns sy ev : quarantine_known (sy_receiver sy) →
  match system_step sy ev with Some sy' => quarantine_known (sy_receiver sy') | None => no_room ev sy end.
Proof.
  intros Hq. destruct ev as [xs now ready|confirmed]; cbn [system_step].
  - case_bool_decide as Hroom; [|cbn; lia]. by destruct (returns_queue_stream now ready (stream_id, xs) (sy_source sy)) as [[[rt ws] res] ->].
  - destruct (pending_of (sy_source sy)) as [|front rest]; [done|]. destruct (from_wire (sg_wire front)) as [g|e]; [|done].
    destruct (accept_returns (sy_receiver sy) g identity Hq) as [[r' answer] Ha]. rewrite Ha.
    pose proof (accept_quarantine _ _ _ _ _ Ha Hq). by destruct answer.
Qed.

(** A run that stops has met a stream with no room. *)
Definition stopped sy (evs : list DeliveryEvent) : Prop :=
  ∃ before ev after sy', evs = before ++ ev :: after ∧ system_run sy before = Some sy' ∧ no_room ev sy'.
Lemma system_run_stops sy evs : quarantine_known (sy_receiver sy) → system_run sy evs = None → stopped sy evs.
Proof.
  revert sy. induction evs as [|ev evs IH]; intros sy Hq; [done|]. cbn [system_run]. pose proof (system_step_returns sy ev Hq) as Hs.
  destruct (system_step sy ev) as [sy1|] eqn:Hstep; [|by exists [], ev, evs, sy]. intros Hrun.
  destruct (IH sy1 Hs Hrun) as (before & ev' & after & sy' & -> & Hb & Hn). exists (ev :: before), ev', after, sy'. cbn [system_run]. by rewrite Hstep.
Qed.

(** A stream nothing was queued on, and a receiver that has nothing of it. *)
Definition new_stream rt r : Prop :=
  the_stream (source_of rt) stream_id = LocalSourceStreamState_default ∧ rv_streams r !! (ri_node_id identity, stream_id) = None ∧ quarantine_known r.

Lemma new_in_order rt r : new_stream rt r → in_order (ls_epoch (source_of rt)) (mkSystem rt r [] []) [] 0 0.
Proof.
  intros (Hs & Hr & _). split; cbn; [constructor| |lia|lia|done|exact Hr].
  exists LocalSourceStreamState_default. split; [by split|]. split_and!; [constructor|done|done].
Qed.
End Delivery.

(** C12: Segments of a stream are delivered in order, each exactly once.  A source queues batches
    of records on a stream that is new to it and to the receiver, and offers the front of the
    queue; answers get lost or reach the source, and a refused segment stays.  Such a run goes
    on until records meet a full queue (what is dropped then is declared as a gap and not part
    of these runs).  At every moment the receiver has accepted a prefix of what was queued; the
    queue holds the rest, or the rest and the last accepted segment, whose answer was lost; and a
    front that was not accepted yet is, in sequence, epoch and hash, the segment the receiver
    expects next. *)
Theorem delivered_exactly_once `{SyncCrypto, SnapshotSize} cluster identity signing_key stream_id rt r evs :
  new_stream identity stream_id rt r →
  match system_run cluster identity signing_key stream_id (mkSystem rt r [] []) evs with
  | Some sy =>
      ∃ confirmed received, (confirmed ≤ received ≤ S confirmed)%nat ∧
        sy_accepted sy = take received (sy_queued sy) ∧
        map sg_wire (pending_of stream_id (sy_source sy)) = drop confirmed (sy_queued sy) ∧
        (received = confirmed → ∀ wire g hash, sy_queued sy !! confirmed = Some wire → from_wire wire = Ok g →
           stream_position (rv_streams (sy_receiver sy) !! seg_key g) (canonical g) hash = Next None false)
  | None => stopped cluster identity signing_key stream_id (mkSystem rt r [] []) evs
  end.
Proof.
  intros Hnew. destruct (system_run _ _ _ _ _ evs) as [sy|] eqn:Hrun; [|by apply system_run_stops; [apply Hnew|]].
  destruct (run_in_order _ _ _ _ _ _ _ _ _ _ _ (new_in_order _ _ _ _ Hnew) Hrun) as (segments & a & n & Hio).
  destruct Hio as [Hsegs (state & [Hst _] & Hchain & _ & Hpend) _ [Hr1 _] Hacc Hat]. exists a, n. split_and!; [lia|lia|done| |].
  - unfold pending_of. by rewrite Hst.
  - intros -> wire g hash Hq Hg. destruct (Forall2_lookup_l _ _ _ _ _ Hsegs Hq) as (g' & Hg' & Hw). replace g with g' by congruence.
    eapply (next_position _ _ _ (take a segments) g' (drop (S a) segments)); [|done]. rewrite take_drop_middle by done. exact Hchain.
Qed.

(** ** Batches *)

Section Batches.
Context `{SyncCrypto, SnapshotSize}.
Implicit Types (rt : Runtime) (xs l : list SyncRecord).

(** The batch of a stream has the records that belong on it. *)
Lemma records_by_stream_of markers xs batches st l :
  records_by_stream markers xs = Ok batches → batches !! st = Some l → Forall (λ x, stream_of_record x = Ok st) l.
Proof.
  intros Hb. revert st l. unfold records_by_stream in Hb.
  eapply (try_fold_inv (λ m, ∀ st l, m !! st = Some l → Forall (λ x, stream_of_record x = Ok st) l)); [| |exact Hb]; [by intros st l|].
  intros m x m' _ Hm Hx st l. cbn beta in Hx. destruct (_ && _); [injection Hx as <-; apply Hm|]. destruct (stream_of_record x) as [st'|] eqn:Hs; [|done].
  injection Hx as <-. unfold entry_update. rewrite lookup_insert_Some. intros [[<- <-]|[_ Hl]]; [|by apply Hm].
  apply Forall_app. split; [|by repeat constructor]. destruct (m !! st') as [l'|] eqn:Hl; [by apply Hm|constructor].
Qed.

(** What a source queues meets what a repository expects of live records. *)
Lemma queued_homed x st first : stream_of_record x = Ok st → stream first = st → homed_record first x.
Proof.
  unfold stream_of_record. intros Hs Hf _ Hl st' Hst'. rewrite Hl in Hs. rewrite Hf. apply ok_or_ok_inv in Hs.
  unfold stream_for_schema in Hs. unfold source_stream_for_schema in Hst'.
  repeat (destruct (bool_decide _); [congruence|]). done.
Qed.

Lemma oversized_segment cluster first l previous opened closed : 1000 < N.of_nat (length l) →
  is_ok (segment_new cluster first l previous opened closed) = false.
Proof.
  intros Hl. unfold segment_new. destruct (ok_or _ _); [|done]. cbn [rbind]. destruct (with_sequence _ _) as [c|]; [|done]. cbn [rbind].
  unfold segment_validate at 1. cbn [cluster_id records]. destruct (validate_sync_identifier _ _); [|done]. cbn [rbind].
  case_bool_decide; [by subst l|]. by rewrite bool_decide_true by done.
Qed.

Context (cluster : string) (identity : RepositoryNodeIdentity) (signing_key : SigningKey) (now : N) (ready : list string).

Definition has_room (st : string) rt : Prop := (length (ss_pending (the_stream (source_of rt) st)) < MAX_PENDING_SEGMENTS_PER_STREAM)%nat.

Lemma room_other st st' state : st ≠ st' → preserves (has_room st) (put_stream st' state).
Proof. intros Hne. apply preserves_modify. intros rt. unfold has_room, the_stream, source_of. cbn. by rewrite lookup_insert_ne. Qed.
Lemma room_source st (f : LocalSourceState → LocalSourceState) : (∀ source, ls_streams (f source) = ls_streams source) → preserves (has_room st) (on_source f).
Proof. intros Hf. apply preserves_modify. intros rt. unfold has_room, the_stream, source_of. cbn. by rewrite Hf. Qed.

Lemma room_marks st next offset xs : preserves (has_room st) (mark_deletions identity next now ready offset xs).
Proof.
  revert offset. induction xs as [|x xs IH]; intros offset; cbn [mark_deletions]; [apply preserves_ret|].
  apply preserves_bind; [|intros _; apply IH]. destruct (is_tombstone x); [|apply preserves_ret].
  apply preserves_bind; [apply preserves_answer|]. intros seq. apply preserves_bind; [apply preserves_gets|]. intros e.
  repeat (apply preserves_bind; [apply preserves_answer|intros ?]). apply preserves_bind; [by apply preserves_tombstones|]. intros _.
  by apply room_source.
Qed.

Lemma room_queue st st' xs : st ≠ st' → preserves (has_room st) (queue_stream cluster identity signing_key now ready (st', xs)).
Proof.
  intros Hne. unfold queue_stream. apply preserves_bind; [apply preserves_gets|]. intros state.
  apply preserves_bind; [by apply room_other|]. intros _. case_bool_decide.
  - apply preserves_bind; [apply preserves_gets|]. intros state'. apply preserves_bind; [apply preserves_answer|]. intros next.
    apply preserves_bind; [by apply room_other|]. intros _. by apply room_source.
  - apply preserves_bind; [apply room_marks|]. intros _. apply preserves_bind; [apply preserves_gets|]. intros state'.
    apply preserves_bind; [apply preserves_gets|]. intros e. do 5 (apply preserves_bind; [apply preserves_answer|intros ?]).
    apply preserves_bind; [by apply room_other|]. intros _. apply preserves_bind; [apply preserves_answer|]. intros hash. by apply room_other.
Qed.

Lemma oversized_queue st l rt rt' ws res : 1000 < N.of_nat (length l) → has_room st rt →
  queue_stream cluster identity signing_key now ready (st, l) rt = Some (rt', ws, res) → is_ok res = false.
Proof.
  intros Hl Hroom. unfold queue_stream, bind at 1, gets. rewrite bool_decide_false by (unfold has_room in Hroom; lia).
  unfold bind at 1, put_stream at 1, on_source, on_snapshot, modify. unfold bind at 1.
  destruct (mark_deletions _ _ _ _ _ _ _) as [[[rt1 ws1] [[]|e]]|]; [|by intros [= _ _ <-]|done].
  unfold append_segment, bind at 1 2, gets. unfold bind, answer. destruct (sync_cursor_new _ _ _ _) as [first|]; [|by intros [= _ _ <-]]. cbn.
  pose proof (oversized_segment cluster first l (ss_previous_segment_hash (the_stream (source_of rt1) st)) now now Hl) as Hseg.
  destruct (segment_new _ _ _ _ _ _); [done|]. by intros [= _ _ <-].
Qed.

Lemma oversized_each st l batches rt rt' ws res : 1000 < N.of_nat (length l) → has_room st rt → (st, l) ∈ batches → NoDup (batches.*1) →
  each (queue_stream cluster identity signing_key now ready) batches rt = Some (rt', ws, res) → is_ok res = false.
Proof.
  intros Hl. revert rt rt' ws res. induction batches as [|[st' l'] batches IH]; intros rt rt' ws res Hroom Hin Hnd; [by apply not_elem_of_nil in Hin|].
  cbn [each]. unfold bind. destruct (queue_stream _ _ _ _ _ (st', l') rt) as [[[rt1 ws1] [[]|e]]|] eqn:Hq; [|by intros [= _ _ <-]|done].
  destruct (each _ batches rt1) as [[[rt2 ws2] res2]|] eqn:He; [|done]. intros [= _ _ <-]. cbn in Hnd. apply NoDup_cons in Hnd as [Hno Hnd].
  apply elem_of_cons in Hin as [Heq|Hin]; [injection Heq as -> ->; by apply oversized_queue in Hq|].
  eapply IH; [|done|done|exact He]. eapply room_queue; [|exact Hq|done]. intros ->. apply Hno. apply list_elem_of_fmap. by exists (st', l).
Qed.
End Batches.

(** A batch too large for one segment stops the source.  A call of
    [queue_local_source_segments] whose records include more than a thousand for one stream that
    has room fails: the segment is not split, and since the call fails before it returns the
    queues, nothing of any stream is offered for delivery. *)
Theorem oversized_batch_fails `{SyncCrypto, SnapshotSize} outside allocated cluster identity signing_key xs now ready rt batches st l :
  records_by_stream (ls_deletion_marker_keys (source_of rt)) xs = Ok batches → batches !! st = Some l → 1000 < N.of_nat (length l) →
  has_room st rt →
  match queue_local_source_segments outside allocated cluster identity signing_key xs now ready rt with
  | Some (_, _, res) => is_ok res = false
  | None => True
  end.
Proof.
  intros Hb Hst Hl Hroom. unfold queue_local_source_segments, bind at 1, gets. rewrite Hb. unfold bind at 1, answer at 1, ret at 1.
  rewrite bool_decide_false by (intros ->; by rewrite lookup_empty in Hst). unfold bind at 1. unfold bind at 1.
  assert (∀ m : Call unit, preserves (has_room st) m → match m rt with
    | Some (rt1, ws1, Ok _) => match (each (queue_stream cluster identity signing_key now ready) (bt_items batches) ;! persist_control_state outside ;!
        gets (λ rt, local_source_pending_segments (source_of rt))) rt1 with Some (_, _, res) => is_ok res = false | None => True end
    | _ => True end) as Hgen.
  { intros m Hm. destruct (m rt) as [[[rt1 ws1] [[]|e]]|] eqn:Em; [|done|done]. specialize (Hm _ _ _ _ Em Hroom).
    unfold bind at 1. destruct (each _ _ rt1) as [[[rt2 ws2] res2]|] eqn:He; [|done].
    apply (oversized_each cluster identity signing_key now ready st l) in He; [by destruct res2|done|done| |].
    - by apply elem_of_bt_items.
    - rewrite bt_items_perm. apply NoDup_fst_map_to_list. }
  set (m := if bool_decide (ls_epoch (source_of rt) = 0) then _ else ret tt).
  assert (preserves (has_room st) m) as Hm.
  { unfold m. case_bool_decide; [|apply preserves_ret]. apply preserves_bind; [apply preserves_answer|]. intros e. by apply room_source. }
  specialize (Hgen m Hm). destruct (m rt) as [[[rt1 ws1] [[]|e]]|]; [|done|done]. by destruct ((each _ _ ;! _) rt1) as [[[rt2 ws2] res2]|].
Qed.

(** ** Examples *)

Module OutboxSample.
Import SyncSample RetentionSample ReceiveSample.
#[local] Existing Instance plain_sync.
#[local] Existing Instance plain_aggregate.
#[local] Existing Instance small_snapshot.

Lemma collector_failover_witness :
  local_source_collector (Nat.iter 3 (primary_fails "repo-1") LocalSourceState_default) "repo-1" (Some "repo-2") = "repo-2".
Proof.
  destruct (collector_failover LocalSourceState_default "repo-1" "repo-2") as [Hfail _]; [discriminate|]. apply Hfail. lia.
Defined.

(** A user's traffic is queued while no repository can be reached; the user is deleted; then
    deliveries go on. *)
Definition usage : SyncRecord := mkSyncRecord "node-a" "node-a" "traffic.v1" 1 "node-history:user:u1:current" "9" false.
Definition erasure : SyncRecord := mkSyncRecord "node-a" "node-a" "traffic.v1" 1 "node-history:user:u1:" "x" true.
Definition queue (xs : list SyncRecord) (now : N) (rt : Runtime) : Runtime * list RepositoryReplicaSegment :=
  match queue_local_source_segments calm (Ok 3) "c1" node_a key_a xs now ["repo-1"] rt with
  | Some (rt, _, Ok segments) => (rt, segments)
  | _ => (rt, [])
  end.
Definition offered : list RepositoryReplicaSegment := (queue [erasure] 200 (queue [usage] 100 Runtime_empty).1).2.
Definition receive_in (rt : Runtime) (segment : RepositoryReplicaSegment) (now : N) : Runtime * bool :=
  match receive_wire_from_repository calm "c1" node_a (rg_wire segment) now ["repo-1"] "repo-1" rt with
  | Some (rt, _, res) => (rt, is_ok res)
  | None => (rt, false)
  end.
Example erasure_overtakes_usage :
  match offered with
  | [first; second] =>
      let '(rt, erased) := receive_in Runtime_empty first 210 in
      let '(rt, stored) := receive_in rt second 211 in
      let '(rt, stored_later) := receive_in rt second (200 + 700 * DAY_SECONDS) in
      (erased, stored, stored_later) = (true, false, false)
  | _ => False
  end.
Proof. vm_compute. reflexivity. Qed.

Definition usage_wire : string := match offered with [_; second] => rg_wire second | _ => "" end.
Definition usage_segment : SignedSegment := get (mkSigned blank "") (from_wire usage_wire).
Definition erasure_key : ReplicaRecordKey := mkRecordKey "node-a" 3 "tombstone" 0 "node-a" "node-a" "traffic.v1" 1 "node-history:user:u1:".
Definition erasure_ends : N := 200 + TOMBSTONE_HORIZON_SECONDS.
Definition erased_ledger : TombstoneLedger :=
  mkTombstones TOMBSTONE_HORIZON_SECONDS {[ erasure_key := mkTombstone 200 erasure_ends {["repo-1"]} {["repo-1"]} ]}.
Definition erased_runtime : Runtime := mkRuntime (Snapshot_default <| sn_tombstones := checkpoint erased_ledger |>) None erased_ledger.

Lemma usage_segment_ok : from_wire usage_wire = Ok usage_segment.
Proof. apply get_ok. vm_compute. reflexivity. Qed.
Lemma usage_overtaken : overtaken usage_segment usage erasure_key.
Proof.
  unfold overtaken. assert (existsb (λ x, bool_decide (x = usage)) (records (canonical usage_segment)) = true) as Hin by (vm_compute; reflexivity).
  apply existsb_exists in Hin as (x & Hin & Hx%bool_decide_eq_true). subst x. split_and!; [by apply list_elem_of_In|vm_compute; reflexivity..].
Qed.
Lemma erased_fits : ledger_fits erased_ledger.
Proof. unfold ledger_fits, erased_ledger. cbn [tombstones]. rewrite map_size_singleton. vm_compute. discriminate. Qed.
Lemma erased_held : held erasure_key erasure_ends erased_ledger.
Proof. unfold held, holds, erased_ledger. cbn [tombstones]. eexists. split; [apply lookup_singleton_eq|]. cbn [expires_at]. lia. Qed.
Lemma erased_blocked : blocked usage_segment erasure_key erasure_ends None erased_runtime.
Proof.
  split; [|split].
  - split; [|done]. split; [done|by intros row ?%not_elem_of_nil|apply erased_fits|].
    exists erased_ledger. split_and!; [apply checkpoint_roundtrip, erased_fits|apply erased_fits|by intros row ?%not_elem_of_nil].
  - split_and!; [apply erased_held|done|done].
  - split; [|done]. exists erased_ledger. split; [apply checkpoint_roundtrip, erased_fits|apply erased_held].
Qed.

Definition daily (day : N) : Try := mkTry calm "c1" node_a (300 + day * DAY_SECONDS) ["repo-1"] "repo-1".
Lemma daily_in_time : Forall (in_time erasure_ends None) [daily 0; daily 30; daily 365].
Proof. repeat (apply Forall_cons; split); [split; [vm_compute; reflexivity|reflexivity]..|apply Forall_nil; exact I]. Qed.

Lemma overtaken_segment_refused_witness :
  ∃ rt answers, retries usage_wire [daily 0; daily 30; daily 365] erased_runtime = Some (rt, answers) ∧ Forall (λ res, is_ok res = false) answers.
Proof.
  destruct (overtaken_segment_refused usage_segment usage erasure_key erasure_ends None usage_wire [daily 0; daily 30; daily 365] erased_runtime)
    as (rt & answers & Hrun & _ & Hall & _).
  - exact small_serializes.
  - exact usage_segment_ok.
  - exact usage_overtaken.
  - apply homed_records. vm_compute. reflexivity.
  - exact daily_in_time.
  - exact erased_blocked.
  - exists rt, answers. exact (conj Hrun Hall).
Defined.

(** Two batches, with a lost answer in between. *)
Definition source_runtime : Runtime := Runtime_empty <| rt_snapshot ::= λ sn, sn <| sn_local_source ::= λ l, l <| ls_epoch := 3 |> |> |>.
Definition delivery_events : list DeliveryEvent :=
  [Enqueue [sample] 100 ["repo-1"]; Offer false; Enqueue [sample; sample] 160 ["repo-1"]; Offer true; Offer true].
Definition delivered : option System :=
  system_run "c1" node_a key_a "runtime" (mkSystem source_runtime (for_cluster "c1" known_schemas) [] []) delivery_events.

Lemma delivered_exactly_once_witness : ∃ sy, delivered = Some sy ∧ length (sy_accepted sy) = 2%nat ∧
  ∃ received, sy_accepted sy = take received (sy_queued sy).
Proof.
  assert (match delivered with Some sy => Nat.eqb (length (sy_accepted sy)) 2 | None => false end = true) as H by (vm_compute; reflexivity).
  destruct delivered as [sy|] eqn:Hrun; [|discriminate H]. exists sy. split; [reflexivity|]. split; [by apply Nat.eqb_eq|].
  pose proof (delivered_exactly_once "c1" node_a key_a "runtime" source_runtime (for_cluster "c1" known_schemas) delivery_events
    ltac:(split_and!; [reflexivity|reflexivity|intros k _; reflexivity])) as H1. unfold delivered in Hrun. rewrite Hrun in H1.
  destruct H1 as (a & n & _ & Hn & _). exists n. exact Hn.
Defined.

(** One record of traffic per user, for one user too many. *)
Definition many_users : list SyncRecord :=
  map (λ i, mkSyncRecord "node-a" "node-a" "traffic.v1" 1 ("node-history:user:" +:+ pretty (N.of_nat i) +:+ ":current") "1" false) (seq 0 1001).
Definition one_batch : gmap string (list SyncRecord) := {["traffic" := many_users]}.
Lemma many_users_batch : records_by_stream ∅ many_users = Ok one_batch.
Proof.
  assert (match records_by_stream ∅ many_users with Ok m => bool_decide (m = one_batch) | Err _ => false end = true) as H by (vm_compute; reflexivity).
  destruct (records_by_stream ∅ many_users) as [m|]; [|discriminate H]. apply bool_decide_eq_true in H as ->. reflexivity.
Qed.
Lemma oversized_batch_fails_witness :
  match queue_local_source_segments calm (Ok 3) "c1" node_a key_a many_users 100 ["repo-1"] Runtime_empty with
  | Some (_, _, res) => is_ok res = false
  | None => True
  end.
Proof.
  apply (oversized_batch_fails calm (Ok 3) "c1" node_a key_a many_users 100 ["repo-1"] Runtime_empty one_batch "traffic" many_users).
  - exact many_users_batch.
  - unfold one_batch. apply lookup_singleton_eq.
  - vm_compute. reflexivity.
  - unfold has_room. vm_compute. lia.
Defined.
End OutboxSample.
